(* ===== verification/_CoqProject ===== *)
-Q . S2P
Prelude.v
Float.v
FloatFacts.v
Proto.v
SchedLib.v
Gguf.v
StrUtil.v
Dims.v
SchedV1.v
Apportion.v
StageOrder.v
PlanCore.v
PlanV1.v
SchedV2.v
PlanV2.v
PlanV2Sound.v
Split.v
Http.v
Registry.v
Ranges.v
RangeFetch.v
RangeContent.v
RangePlan.v
Download.v
Cache.v
CacheGc.v
StopScan.v
Engine.v
GenOps.v
GenLoop.v
GenStep.v
GenRef.v
GenInv.v
GenOpsOk.v
GenWorld.v
GenSweep.v
GenPump.v
GenAdmit.v
GenDecode.v
GenPost.v
GenPlain.v
GenSpec.v
GenToy.v
GenServe.v
GenFindings.v
GenLive.v
GenDrain.v
Cluster.v
ClusterNet.v
PlanLoad.v
PlanFigures.v
Supervisor.v
SupervisorOk.v
PeerStore.v
Pairing.v
PairRun.v
Heartbeat.v
Mesh.v
MeshOk.v
MeshWorld.v
MeshInv.v
MeshOut.v
Lan.v
LanOk.v
LanSwarm.v
RpcCache.v
Advisor.v
Version.v
Update.v
UpdateOk.v
