(* ===== verification/Prelude.v ===== *)
(** * OneBrain: a verification library

    OneBrain joins several computers into one inference server for large
    language models.  A daemon on each node ([crates/onebraind]) answers the
    HTTP API, finds its peers over a mesh, downloads model files, plans how
    the layers of a model are spread over the nodes, loads the model into a
    native engine and serves many generations at once.

    ** Parts and files

    - [Prelude], [StrUtil], [Float], [FloatFacts]: Rust results and panics,
      machine integers with wrap-around, list and option lemmas; the string
      operations the sources use; IEEE floating point as exact rationals
      rounded once, with the rounding lemmas the planners need.
    - [Proto]: the plan, capability and handshake types of
      [crates/onebrain-proto].
    - Scheduler ([crates/onebrain-scheduler]): [SchedLib] is the compatibility
      planner of lib.rs; [Dims] derives the dimensions of a model (dims.rs);
      [SchedV1], [Apportion], [StageOrder], [PlanCore], [PlanV1] are the v1
      planner (v1.rs); [SchedV2], [PlanV2], [PlanV2Sound] the v2 search
      (v2.rs).
    - Models ([crates/onebrain-models]): [Gguf] parses file headers (gguf.rs),
      [Split] names the parts of split files (split.rs), [Registry] resolves
      references (registry.rs), [Http] is the server as the clients see it,
      [Ranges], [RangeFetch], [RangeContent], [RangePlan] fetch byte ranges
      (ranges.rs), [Download] whole files (download.rs), [Cache] and [CacheGc]
      keep the cache directory (cache.rs, and the collector of
      onebraind/src/logistics.rs).
    - The engine host ([crates/onebraind/src/engine_host.rs]) with the engine
      it drives ([crates/onebrain-engine/src/lib.rs]): [StopScan] is the stop
      string scanner, [Engine] the engine's interface, [GenOps] the state of a
      generation and the operations that deliver, finish, fail or cancel it,
      [GenLoop] and [GenStep] the phases of the [serve_model] loop.  The loop
      is a state monad over a context [Ctx] (KV memory, free and retained
      slots, parked events, what clients received, reported outcomes); a
      panic is [None].
    - The cluster ([crates/onebraind/src/cluster.rs]): [Cluster] is the state
      a daemon keeps about plans and epochs, the worker's answers to
      proposals and streams, and peer events; [ClusterNet] a network of
      daemons that lose and delay messages and restart.
    - Loads and supervision ([crates/onebraind/src/server.rs],
      [supervisor.rs]): [PlanLoad] is [plan_load], from the peers and the model
      file to a stamped plan, composed of the header parser, the dimensions
      and the v2 planner; [PlanFigures] the figures shown for it; [Supervisor]
      the tasks of jobs, the retry ledger, loads and re-plans as a step
      relation over the cluster state, one step per piece of code between two
      awaits.
    - The mesh ([crates/onebrain-mesh], pairing messages in
      onebrain-proto/src/pair.rs): [PeerStore] is the file of paired peers
      (store.rs) over a file system that may fail; [Pairing] the codes, the
      frames and both sides of the pairing exchange (pairing.rs) as
      interactive procedures; [PairRun] their traces and two of them on a
      network; [Heartbeat] the liveness of a session (service.rs).  [Mesh] is
      the state of the service actor and its handlers, in a state monad with a
      log of effects, one definition per message; [MeshWorld] the service
      among the tasks it starts (dials, attempts, timers, sessions, joins),
      which send it messages in any interleaving.

    ** What the theorems show

    - Planners: they never panic on measured inputs; every plan covers the
      layers with contiguous ranges in consecutive stages, each node holds its
      share, the head is last; automatic mode succeeds exactly when the model
      fits; the searches are optimal over what they enumerate ([PlanV1],
      [PlanV2], [PlanV2Sound], [StageOrder], [Apportion], [SchedLib]).
    - Files: parsing inverts the GGUF layout, accepts only well-formed
      headers, and gives stable verdicts on prefixes; tensor ranges tile the
      data section; range plans are exact and disjoint; fetched ranges hold
      the bytes of the file whatever the server and the connection do;
      fetching is resumable and idempotent; the collector evicts least
      recently used entries and never a pinned one.
    - Engine host: [GenRef] defines what a request produces when it runs
      alone, and a weakest-precondition calculus for the loop; [GenInv],
      [GenOpsOk] and [GenWorld] the invariant and how operations keep it;
      [GenSweep], [GenPump], [GenAdmit], [GenDecode], [GenPost], [GenPlain],
      [GenSpec] one phase each; [GenServe] the whole: in every reachable state
      clients have received a prefix of the reference of their request and a
      final event only with all of it, no iteration panics, submissions and
      slots are accounted for.  [GenLive] and [GenDrain]: with clients that
      read, the loop drains in a bounded number of iterations.  [GenFindings]
      runs the loop where its conditions fail.
    - Cluster: acknowledgements mean adoption, and epochs only grow on a
      worker ([ClusterNet]); plans are made only of eligible peers, cover the
      file and use up an epoch ([PlanLoad]); the time per token on display is
      the one the search used ([PlanFigures]); in every interleaving jobs are
      counted, sent and retried as promised ([SupervisorOk]), which refines a
      small automaton of a job's life.  Both files end with runs in which
      guarantees of the comments fail.
    - Mesh: pairings survive crashes and failing writes, and only a pairing
      adds a peer ([PeerStore]); codes are uniform, frames round-trip
      ([Pairing]); a side accepts only the other role's MAC of this very run,
      and honest sides finish under any schedule ([PairRun]); a silent peer is
      suspect, then down, at the documented times ([Heartbeat]); two nodes
      that connect at once keep the same connection, and a reconnect pass
      dials exactly who is due ([MeshOk]); [MeshInv] has the outcome of every
      handler and the invariants behind [MeshOut]: no slot of the service is
      lost, a pairing window takes three failures at most, and an unpaired
      peer stays out, unless a dial of it was under way.

    ** Conventions

    Integers carry the width of the source and wrap, as the release profile
    does; [usize] counters of in-memory lists are [nat].  Divisions by zero,
    indices out of range, [expect] and [unwrap] are panics.  Loops whose
    recursion is not structural take fuel: the fetch and download loops the
    number of attempts of the source, header discovery the doublings up to the
    file size, eviction the number of cached slots plus one; theorems show the
    fuel suffices.  Third-party and operating-system code is a parameter: the
    HTTP server answers arbitrarily, the hash is any function, the engine is a
    class [Engine] with the documented laws [EngineLaws], and an environment
    [Env] decides at every tick which clients are gone or full, which decodes,
    trims and draft steps fail, when a remote is torn and what a failed decode
    leaves in the KV memory.  TOML and postcard are a parser and a printer
    with a round trip, SPAKE2 a class [Spake] (equal passwords give equal
    keys), BLAKE3 any keyed hash, endpoint ids integers with a printer and a
    parser.

    ** Not modelled

    Key files, transport, blob transfer and typed query streams of the mesh,
    range fetching by workers, routing and serialisation of the HTTP API, the command line, loading of
    models and embeddings in the engine host, and the native engine (a git
    submodule).  Times, log lines and error texts are left out throughout. *)

From Stdlib Require Import ZArith Lia Permutation Sorted.
From stdpp Require Import base list strings gmap sorting option.

Open Scope Z_scope.

(** ** Outcomes of Rust code

    A Rust function that returns [Result<A, E>] and may panic is a term of
    [res E A]: [Ok], [Err], or [Panic] (an [expect]/[unwrap] on the wrong
    variant, an out-of-range index, a division by zero).  Functions that only
    may panic are polymorphic in the error type. *)
Inductive res (E A : Type) : Type :=
  | Ok (a : A)
  | Err (e : E)
  | Panic.
Arguments Ok {E A} a.
Arguments Err {E A} e.
Arguments Panic {E A}.

#[global] Instance res_ret E : MRet (res E) := λ A a, Ok a.
#[global] Instance res_bind E : MBind (res E) := λ A B f r,
  match r with
  | Ok a => f a
  | Err e => Err e
  | Panic => Panic
  end.
#[global] Instance res_fmap E : FMap (res E) := λ A B f r,
  match r with
  | Ok a => Ok (f a)
  | Err e => Err e
  | Panic => Panic
  end.

(** [Option::ok_or]. *)
Definition ok_or {E A} (o : option A) (e : E) : res E A :=
  match o with Some a => Ok a | None => Err e end.

(** [Option::expect] and slice indexing. *)
Definition expect {E A} (o : option A) : res E A :=
  match o with Some a => Ok a | None => Panic end.

(** [Result::map_err]. *)
Definition map_err {E F A} (f : E → F) (r : res E A) : res F A :=
  match r with Ok a => Ok a | Err e => Err (f e) | Panic => Panic end.

(** Monadic left fold: a [for] loop whose body may fail or panic. *)
Fixpoint fold_res {E A S} (f : S → A → res E S) (s : S) (l : list A) : res E S :=
  match l with
  | [] => Ok s
  | x :: l => s' ← f s x; fold_res f s' l
  end.

(** [iter().map(f).collect::<Result<Vec<_>, _>>()]: in order, first error wins. *)
Fixpoint map_res {E A B} (f : A → res E B) (l : list A) : res E (list B) :=
  match l with
  | [] => Ok []
  | x :: l => y ← f x; ys ← map_res f l; Ok (y :: ys)
  end.

(** ** Machine integers

    Unsigned machine integers are [Z] values kept in range.  The release
    profile of the workspace does not set [overflow-checks], so [+], [-] and
    [*] wrap; the operations below write the wrap-around out. *)
Definition wrap32 (z : Z) : Z := z mod 2 ^ 32.
Definition wrap64 (z : Z) : Z := z mod 2 ^ 64.

Definition in_u8 (z : Z) : Prop := 0 ≤ z < 2 ^ 8.
Definition in_u32 (z : Z) : Prop := 0 ≤ z < 2 ^ 32.
Definition in_u64 (z : Z) : Prop := 0 ≤ z < 2 ^ 64.

Definition u32_max : Z := 2 ^ 32 - 1.
Definition u64_max : Z := 2 ^ 64 - 1.

Definition u32_add (a b : Z) : Z := wrap32 (a + b).
Definition u32_sub (a b : Z) : Z := wrap32 (a - b).
Definition u64_add (a b : Z) : Z := wrap64 (a + b).
Definition u64_sub (a b : Z) : Z := wrap64 (a - b).
Definition u64_mul (a b : Z) : Z := wrap64 (a * b).

Definition sat_sub (a b : Z) : Z := Z.max 0 (a - b).
Definition u64_sat_add (a b : Z) : Z := Z.min u64_max (a + b).
Definition u64_sat_mul (a b : Z) : Z := Z.min u64_max (a * b).

(** [u64::div_ceil], for a non-zero divisor. *)
Definition div_ceil (a b : Z) : Z := if a mod b =? 0 then a / b else a / b + 1.

(** [iter().sum::<u64>()]: wrapping. *)
Definition u64_sum (l : list Z) : Z := foldl u64_add 0 l.
Definition u32_sum (l : list Z) : Z := foldl u32_add 0 l.

(** The mathematical sum. *)
Definition zsum (l : list Z) : Z := foldr Z.add 0 l.

Lemma wrap32_small z : in_u32 z → wrap32 z = z.
Proof. apply Z.mod_small. Qed.
Lemma wrap64_small z : in_u64 z → wrap64 z = z.
Proof. apply Z.mod_small. Qed.
Lemma wrap32_range z : in_u32 (wrap32 z).
Proof. apply Z.mod_pos_bound. lia. Qed.
Lemma wrap64_range z : in_u64 (wrap64 z).
Proof. apply Z.mod_pos_bound. lia. Qed.

Lemma zsum_app l k : zsum (l ++ k) = zsum l + zsum k.
Proof. induction l; simpl in *; lia. Qed.

Lemma zsum_nonneg l : Forall (λ z, 0 ≤ z) l → 0 ≤ zsum l.
Proof. induction 1; simpl; lia. Qed.

#[global] Instance zsum_Permutation : Proper ((≡ₚ) ==> (=)) zsum.
Proof. induction 1; simpl in *; lia. Qed.

Lemma zsum_elem_le l x : Forall (λ z, 0 ≤ z) l → x ∈ l → x ≤ zsum l.
Proof.
  induction 1 as [|y l Hy Hl IH]; intros Hx; [by apply not_elem_of_nil in Hx|].
  pose proof (zsum_nonneg l Hl). simpl.
  apply elem_of_cons in Hx as [->|Hx]; [lia|]. specialize (IH Hx). lia.
Qed.

Lemma zsum_replicate n x : zsum (replicate n x) = Z.of_nat n * x.
Proof. induction n; simpl replicate; simpl zsum; lia. Qed.

(** Wrapping sums agree with the mathematical sum when it fits. *)
Lemma u64_sum_acc l a :
  Forall (λ z, 0 ≤ z) l → 0 ≤ a → a + zsum l < 2 ^ 64 →
  foldl u64_add a l = a + zsum l.
Proof.
  intros Hl. revert a. induction Hl as [|x l Hx Hl IH]; intros a Ha Hlt; simpl in *; [lia|].
  pose proof (zsum_nonneg l Hl).
  unfold u64_add at 2. rewrite wrap64_small by (unfold in_u64; lia).
  rewrite IH; lia.
Qed.
Lemma u64_sum_exact l :
  Forall (λ z, 0 ≤ z) l → zsum l < 2 ^ 64 → u64_sum l = zsum l.
Proof. intros. unfold u64_sum. rewrite u64_sum_acc; try done; lia. Qed.

Lemma u32_sum_acc l a :
  Forall (λ z, 0 ≤ z) l → 0 ≤ a → a + zsum l < 2 ^ 32 →
  foldl u32_add a l = a + zsum l.
Proof.
  intros Hl. revert a. induction Hl as [|x l Hx Hl IH]; intros a Ha Hlt; simpl in *; [lia|].
  pose proof (zsum_nonneg l Hl).
  unfold u32_add at 2. rewrite wrap32_small by (unfold in_u32; lia).
  rewrite IH; lia.
Qed.
Lemma u32_sum_exact l :
  Forall (λ z, 0 ≤ z) l → zsum l < 2 ^ 32 → u32_sum l = zsum l.
Proof. intros. unfold u32_sum. rewrite u32_sum_acc; try done; lia. Qed.

Lemma zsum_alter_succ l i x :
  l !! i = Some x → zsum (<[i:=x+1]> l) = zsum l + 1.
Proof.
  revert i; induction l as [|y l IH]; intros [|i] H; simplify_eq/=; [lia|].
  rewrite (IH _ H). lia.
Qed.

Lemma zsum_insert l i x y :
  l !! i = Some x → zsum (<[i:=y]> l) = zsum l - x + y.
Proof.
  revert i; induction l as [|z l IH]; intros [|i] H; simplify_eq/=; [lia|].
  rewrite (IH _ H). lia.
Qed.

(** ** Stable sorting

    [slice::sort_by] with a three-way comparison: a stable insertion sort.
    An element is inserted before the first one that is strictly greater. *)
Section sorting.
Context {A : Type} (cmp : A → A → comparison).

Fixpoint insert_by (x : A) (l : list A) : list A :=
  match l with
  | [] => [x]
  | y :: l' => match cmp x y with
               | Gt => y :: insert_by x l'
               | _ => x :: l
               end
  end.
Fixpoint sort_by (l : list A) : list A :=
  match l with
  | [] => []
  | x :: l' => insert_by x (sort_by l')
  end.

Lemma insert_by_Permutation x l : insert_by x l ≡ₚ x :: l.
Proof.
  induction l as [|y l IH]; simpl; [done|].
  destruct (cmp x y); try done. rewrite IH. by constructor.
Qed.
Lemma sort_by_Permutation l : sort_by l ≡ₚ l.
Proof.
  induction l as [|x l IH]; simpl; [done|].
  by rewrite insert_by_Permutation, IH.
Qed.
Lemma length_sort_by l : length (sort_by l) = length l.
Proof. apply Permutation_length, sort_by_Permutation. Qed.

Definition cmp_le (x y : A) : Prop := cmp x y ≠ Gt.

(** A comparison function that [sort_by] accepts: a total preorder. *)
Class CmpOk : Prop := {
  cmp_anti x y : cmp x y = CompOpp (cmp y x);
  cmp_trans : Transitive cmp_le }.

Context `{!CmpOk}.

Lemma cmp_gt_le x y : cmp x y = Gt → cmp_le y x.
Proof. unfold cmp_le. rewrite cmp_anti. by destruct (cmp y x). Qed.

Lemma insert_by_Sorted x l :
  StronglySorted cmp_le l → StronglySorted cmp_le (insert_by x l).
Proof.
  induction 1 as [|y l Hl IH Hy]; simpl; [repeat constructor|].
  assert (cmp x y ≠ Gt → StronglySorted cmp_le (x :: y :: l)) as Hle.
  { intros Hxy. constructor; [by constructor|]. constructor; [done|].
    eapply Forall_impl; [|exact Hy]. intros z Hz. by apply (cmp_trans x y z). }
  destruct (cmp x y) eqn:E; try (apply Hle; congruence).
  constructor; [exact IH|].
  rewrite insert_by_Permutation. constructor; [by apply cmp_gt_le|exact Hy].
Qed.
Lemma sort_by_Sorted l : StronglySorted cmp_le (sort_by l).
Proof. induction l; simpl; [constructor|by apply insert_by_Sorted]. Qed.

(** Stability: elements that compare equal keep their order. *)
Lemma insert_by_filter (P : A → Prop) `{!∀ x, Decision (P x)} x l :
  (∀ y z, P y → P z → cmp y z ≠ Gt) → filter P (insert_by x l) = filter P (x :: l).
Proof.
  intros HP. induction l as [|y l IH]; simpl; [done|].
  destruct (cmp x y) eqn:E; try done. rewrite filter_cons, IH, !filter_cons.
  repeat case_decide; try done. exfalso. by apply (HP x y).
Qed.
Lemma sort_by_filter (P : A → Prop) `{!∀ x, Decision (P x)} l :
  (∀ y z, P y → P z → cmp y z ≠ Gt) → filter P (sort_by l) = filter P l.
Proof.
  intros HP. induction l as [|x l IH]; simpl; [done|].
  rewrite insert_by_filter, !filter_cons, IH by done. done.
Qed.
End sorting.

(** Comparison by an integer key, [sort_by_key]. *)
Definition cmp_key {A} (f : A → Z) (x y : A) : comparison := f x ?= f y.

(** [Ordering::then]. *)
Definition cmp_then (c d : comparison) : comparison :=
  match c with Eq => d | _ => c end.

Lemma cmp_key_le {A} (f : A → Z) x y : cmp_le (cmp_key f) x y ↔ f x ≤ f y.
Proof. unfold cmp_le, cmp_key. by rewrite Z.compare_le_iff. Qed.

#[global] Instance cmp_key_ok {A} (f : A → Z) : CmpOk (cmp_key f).
Proof.
  split.
  - intros x y. unfold cmp_key. apply Z.compare_antisym.
  - intros x y z. rewrite !cmp_key_le. lia.
Qed.

#[global] Instance nat_compare_ok : CmpOk Nat.compare.
Proof.
  split; [intros x y; apply Nat.compare_antisym|].
  intros x y z. unfold cmp_le. rewrite !Nat.compare_le_iff. lia.
Qed.

#[global] Instance flip_ok {A} (cmp : A → A → comparison) :
  CmpOk cmp → CmpOk (λ x y, cmp y x).
Proof.
  intros [Ha Ht]. split; [intros x y; apply Ha|].
  intros x y z H1 H2. unfold cmp_le in *. by apply (Ht z y x).
Qed.

#[global] Instance cmp_then_ok {A} (c d : A → A → comparison) :
  CmpOk c → CmpOk d → CmpOk (λ x y, cmp_then (c x y) (d x y)).
Proof.
  intros [Hca Hct] [Hda Hdt]. split.
  - intros x y. rewrite (Hca x y), (Hda x y). by destruct (c y x), (d y x).
  - intros x y z H1 H2. unfold cmp_le in *.
    pose proof (Hct x y z) as Hxz. pose proof (Hct z x y) as Hzy. pose proof (Hct y z x) as Hyx.
    pose proof (Hdt x y z) as Hd. unfold cmp_le in *.
    rewrite (Hca z x), (Hca z y) in Hzy. rewrite (Hca z x), (Hca y x) in Hyx.
    destruct (c x y), (c y z), (c x z); simpl in *; try congruence; try (by apply Hd);
      exfalso; try (by apply Hxz); try (by apply Hzy); by apply Hyx.
Qed.

Lemma sort_by_key_Sorted {A} (f : A → Z) l :
  StronglySorted (λ x y, f x ≤ f y) (sort_by (cmp_key f) l).
Proof.
  pose proof (sort_by_Sorted (cmp_key f) l) as H.
  induction H as [|x l' _ IH Hx]; constructor; [done|].
  eapply Forall_impl; [|exact Hx]. intros y. by rewrite cmp_key_le.
Qed.

(** A sorted list splits into elements all related to the later ones. *)
Lemma StronglySorted_take_drop {A} (R : A → A → Prop) k l x y :
  StronglySorted R l → x ∈ take k l → y ∈ drop k l → R x y.
Proof.
  intros Hs Hx Hy. rewrite <- (take_drop k l) in Hs.
  by eapply StronglySorted_app_1_elem_of in Hs.
Qed.

(** ** Lists *)

(** [slice::windows(2)]. *)
Fixpoint windows2 {A} (l : list A) : list (A * A) :=
  match l with
  | x :: (y :: _) as l' => (x, y) :: windows2 l'
  | _ => []
  end.

Lemma length_windows2 {A} (l : list A) : length (windows2 l) = pred (length l).
Proof.
  induction l as [|x l IH]; [done|]. destruct l as [|y l]; [done|].
  change (S (length (windows2 (y :: l))) = S (length l)). by rewrite IH.
Qed.

(** [enumerate]. *)
Definition enumerate {A} (l : list A) : list (nat * A) := zip (seq 0 (length l)) l.

(** Index of the first element satisfying a predicate. *)
Definition find_first {A} (p : A → bool) (l : list A) : option A :=
  snd <$> list_find (λ x, p x = true) l.

(** ** Automation *)
Create HintDb onebrain.


(** Peel the monadic structure of a successful computation. *)
Ltac res_inv :=
  repeat match goal with
  | H : mbind _ ?r = Ok _ |- _ =>
      let E := fresh "E" in destruct r eqn:E; simpl in H; try discriminate H
  | H : Ok _ = Ok _ |- _ => injection H as H
  | H : ok_or ?o _ = Ok _ |- _ =>
      let E := fresh "E" in destruct o eqn:E; simpl in H; try discriminate H
  | H : expect ?o = Ok _ |- _ =>
      let E := fresh "E" in destruct o eqn:E; simpl in H; try discriminate H
  | H : (if ?b then _ else _) = Ok _ |- _ =>
      let E := fresh "E" in destruct b eqn:E; try discriminate H
  end; subst.

Lemma find_first_Some {A} (p : A → bool) l x : find_first p l = Some x → x ∈ l ∧ p x = true.
Proof.
  unfold find_first. intros ([i y] & (H & Hp & _)%list_find_Some & ->)%fmap_Some. split; [|done].
  by eapply list_elem_of_lookup_2.
Qed.

Lemma find_first_None {A} (p : A → bool) l : find_first p l = None ↔ Forall (λ x, p x = false) l.
Proof.
  unfold find_first. rewrite fmap_None, list_find_None. apply Forall_iff. intros x. by destruct (p x).
Qed.

Lemma fold_res_app {E A S} (f : S → A → res E S) s l k :
  fold_res f s (l ++ k) = s' ← fold_res f s l; fold_res f s' k.
Proof.
  revert s; induction l as [|x l IH]; intros s; simpl; [done|].
  by destruct (f s x); simpl.
Qed.

(** Loop rule for [fold_res]: an invariant indexed by the processed prefix. *)
Lemma fold_res_inv {E A S} (f : S → A → res E S) (I : list A → S → Prop) s l s' :
  I [] s →
  (∀ done x s1 s2, I done s1 → f s1 x = Ok s2 → I (done ++ [x]) s2) →
  fold_res f s l = Ok s' → I l s'.
Proof.
  intros H0 Hstep.
  enough (∀ pre s, I pre s → fold_res f s l = Ok s' → I (pre ++ l) s') as H
    by (intros; by eapply (H [])).
  clear H0 s. induction l as [|x l IH]; intros pre s HI H; simpl in H.
  - injection H as <-. by rewrite app_nil_r.
  - destruct (f s x) as [s1| |] eqn:Ef; simpl in H; try discriminate H.
    rewrite cons_middle, app_assoc. eapply IH; [|done]. by eapply Hstep.
Qed.

Lemma map_res_no_panic {E A B} (f : A → res E B) l : (∀ x, f x ≠ Panic) → map_res f l ≠ Panic.
Proof.
  intros Hf. induction l as [|x l IH]; simpl; [done|]. specialize (Hf x). destruct (f x); simpl; [|done|done].
  by destruct (map_res f l).
Qed.

Lemma map_res_length {E A B} (f : A → res E B) l ys :
  map_res f l = Ok ys → length ys = length l.
Proof. revert ys; induction l; intros ys H; simpl in H; res_inv; simpl; auto. Qed.

Lemma map_res_Forall2 {E A B} (f : A → res E B) l ys :
  map_res f l = Ok ys ↔ Forall2 (λ x y, f x = Ok y) l ys.
Proof.
  split.
  - revert ys; induction l; intros ys H; simpl in H; res_inv; constructor; auto.
  - induction 1 as [|x y l ys Hx _ IH]; simpl; [done|]. by rewrite Hx, IH.
Qed.
