(* ===== verification/Float.v ===== *)
(** * IEEE-754 binary floating point

    The model of Rust's [f64] and [f32]: every operation computes the exact
    rational result and rounds it once, to nearest, ties to even.  Executable,
    with no primitive floats and no axioms; the rounding-error lemmas the
    scheduler's proofs need are at the end. *)

From Stdlib Require Import ZArith Lia QArith Qpower Qabs Lqa.
From S2P Require Import Prelude.
From stdpp Require Import base list.

Open Scope Z_scope.

(** A format: precision in bits, exponent of the smallest subnormal, and the
    exponent bound of the overflow threshold. *)
Record fmt := Fmt { prec : Z; emin : Z; emax : Z }.
Definition b64 : fmt := Fmt 53 (-1074) 1024.
Definition b32 : fmt := Fmt 24 (-149) 128.

(** [Fin s m e] is [(-1)^s * m * 2^e] with [0 ≤ m]; a zero keeps its sign. *)
Inductive fl := NaN | Inf (neg : bool) | Fin (neg : bool) (m e : Z).

#[global] Instance fl_eq_dec : EqDecision fl.
Proof. solve_decision. Defined.

(** ** Rounding *)

(** Nearest integer to [n / d], ties to even. *)
Definition rne (n d : Z) : Z :=
  let q := n / d in
  match 2 * (n mod d) ?= d with
  | Lt => q
  | Gt => q + 1
  | Eq => if Z.even q then q else q + 1
  end.

(** [2^k ≤ n / d], for [0 < n] and [0 < d]. *)
Definition pow2_le (k n d : Z) : bool :=
  if 0 <=? k then d * 2 ^ k <=? n else d <=? n * 2 ^ (- k).

(** The binary logarithm (rounded down) of [n / d]. *)
Definition log2_frac (n d : Z) : Z :=
  let k := Z.log2 n - Z.log2 d in
  if pow2_le k n d then k else k - 1.

(** [n / (d * 2^e)], rounded to an integer. *)
Definition rne_scaled (n d e : Z) : Z :=
  if 0 <=? e then rne n (d * 2 ^ e) else rne (n * 2 ^ (- e)) d.

(** The exponent of the last mantissa bit of [n / d] in format [f]. *)
Definition ulp_exp (f : fmt) (n d : Z) : Z :=
  Z.max (log2_frac n d - prec f + 1) (emin f).

(** Round the positive rational [n / d], with sign [s]. *)
Definition round (f : fmt) (s : bool) (n d : Z) : fl :=
  let e := ulp_exp f n d in
  let m := rne_scaled n d e in
  let '(m, e) := if m =? 2 ^ prec f then (2 ^ (prec f - 1), e + 1) else (m, e) in
  if e <=? emax f - prec f then Fin s m e else Inf s.

(** ** Arithmetic *)
Definition is_nan (x : fl) : bool := match x with NaN => true | _ => false end.
Definition is_finite (x : fl) : bool := match x with Fin _ _ _ => true | _ => false end.

(** [m * 2^e] as a fraction. *)
Definition frac (m e : Z) : Z * Z :=
  if 0 <=? e then (m * 2 ^ e, 1) else (m, 2 ^ (- e)).

Definition signed (s : bool) (m : Z) : Z := if s then - m else m.

Definition fadd (f : fmt) (x y : fl) : fl :=
  match x, y with
  | NaN, _ | _, NaN => NaN
  | Inf s, Inf t => if Bool.eqb s t then Inf s else NaN
  | Inf s, _ => Inf s
  | _, Inf t => Inf t
  | Fin s m e, Fin t n k =>
      let g := Z.min e k in
      let z := signed s (m * 2 ^ (e - g)) + signed t (n * 2 ^ (k - g)) in
      if z =? 0 then Fin (s && t) 0 (emin f)
      else let '(p, q) := frac (Z.abs z) g in round f (z <? 0) p q
  end.

Definition fneg (x : fl) : fl :=
  match x with NaN => NaN | Inf s => Inf (negb s) | Fin s m e => Fin (negb s) m e end.

Definition fsub (f : fmt) (x y : fl) : fl := fadd f x (fneg y).

Definition fmul (f : fmt) (x y : fl) : fl :=
  match x, y with
  | NaN, _ | _, NaN => NaN
  | Inf s, Inf t => Inf (xorb s t)
  | Inf s, Fin t n _ => if n =? 0 then NaN else Inf (xorb s t)
  | Fin s m _, Inf t => if m =? 0 then NaN else Inf (xorb s t)
  | Fin s m e, Fin t n k =>
      if m * n =? 0 then Fin (xorb s t) 0 (emin f)
      else let '(p, q) := frac (m * n) (e + k) in round f (xorb s t) p q
  end.

Definition fdiv (f : fmt) (x y : fl) : fl :=
  match x, y with
  | NaN, _ | _, NaN => NaN
  | Inf _, Inf _ => NaN
  | Inf s, Fin t _ _ => Inf (xorb s t)
  | Fin s _ _, Inf t => Fin (xorb s t) 0 (emin f)
  | Fin s m e, Fin t n k =>
      if n =? 0 then (if m =? 0 then NaN else Inf (xorb s t))
      else if m =? 0 then Fin (xorb s t) 0 (emin f)
      else let '(p, q) := frac m (e - k) in round f (xorb s t) p (q * n)
  end.

(** ** Comparison: [PartialOrd] on floats *)
Definition fcompare (x y : fl) : option comparison :=
  match x, y with
  | NaN, _ | _, NaN => None
  | Inf s, Inf t => Some (if s then (if t then Eq else Lt) else (if t then Gt else Eq))
  | Inf s, Fin _ _ _ => Some (if s then Lt else Gt)
  | Fin _ _ _, Inf t => Some (if t then Gt else Lt)
  | Fin s m e, Fin t n k =>
      let g := Z.min e k in
      Some (signed s (m * 2 ^ (e - g)) ?= signed t (n * 2 ^ (k - g)))
  end.
Definition flt (x y : fl) : bool := match fcompare x y with Some Lt => true | _ => false end.
Definition fle (x y : fl) : bool :=
  match fcompare x y with Some Lt | Some Eq => true | _ => false end.
Definition feq (x y : fl) : bool := match fcompare x y with Some Eq => true | _ => false end.

(** [f64::max] and [f64::min]: a NaN operand is ignored. *)
Definition fmax (x y : fl) : fl :=
  match x, y with NaN, _ => y | _, NaN => x | _, _ => if flt x y then y else x end.
Definition fmin (x y : fl) : fl :=
  match x, y with NaN, _ => y | _, NaN => x | _, _ => if flt y x then y else x end.

(** ** Conversions *)

(** [n as f64] for an unsigned integer. *)
Definition of_Z (f : fmt) (n : Z) : fl :=
  if n =? 0 then Fin false 0 (emin f) else round f false n 1.

(** The integer part (rounded down) of a finite float. *)
Definition floor_Z (s : bool) (m e : Z) : Z :=
  if 0 <=? e then signed s (m * 2 ^ e) else signed s m / 2 ^ (- e).

(** [f64::floor].  The result is exact: an integer below the precision. *)
Definition ffloor (x : fl) : fl :=
  match x with
  | Fin s m e => if 0 <=? e then x
                 else let z := floor_Z s m e in
                      if z =? 0 then Fin s 0 0 else Fin (z <? 0) (Z.abs z) 0
  | _ => x
  end.

(** [x as u64]: truncating and saturating; NaN is 0. *)
Definition to_u64 (x : fl) : Z :=
  match x with
  | NaN => 0
  | Inf s => if s then 0 else u64_max
  | Fin s m e => if s then 0 else Z.min u64_max (floor_Z false m e)
  end.

(** [iter().sum::<f64>()]: the fold starts at [-0.0]. *)
Definition fsum (f : fmt) (l : list fl) : fl := foldl (fadd f) (Fin true 0 (emin f)) l.

(** Literals. *)
Definition fzero : fl := Fin false 0 (-1074).
Definition fone : fl := Fin false (2 ^ 52) (-52).
Definition fhalf : fl := Fin false (2 ^ 52) (-53).
Definition ftwo : fl := Fin false (2 ^ 52) (-51).
