(* ===== verification/FloatFacts.v ===== *)
(** * Rounding lemmas for the floating-point model

    The value of a finite float as a rational, correct rounding (relative
    error, monotonicity towards representable bounds), and what each operation
    of [Float] does to non-negative finite operands. *)

From Stdlib Require Import ZArith Lia QArith Qpower Qabs Lqa Qround.
From S2P Require Import Prelude Float.
From stdpp Require Import base list.

Open Scope Z_scope.

(** ** Powers of two in [Q] *)
Definition p2 (e : Z) : Q := Qpower 2 e.

Lemma p2_pos e : (0 < p2 e)%Q.
Proof. apply Qpower_0_lt. reflexivity. Qed.
Lemma p2_neq0 e : ~ (p2 e == 0)%Q.
Proof. pose proof (p2_pos e). lra. Qed.
Lemma p2_add a b : (p2 (a + b) == p2 a * p2 b)%Q.
Proof. unfold p2. apply Qpower_plus. discriminate. Qed.
Lemma p2_le a b : a ≤ b → (p2 a <= p2 b)%Q.
Proof. intros. apply Qpower_le_compat_l; [done|]. discriminate. Qed.
Lemma p2_lt a b : a < b → (p2 a < p2 b)%Q.
Proof. intros. by apply Qpower_lt_compat_l. Qed.
Lemma p2_le_inv a b : (p2 a < p2 b)%Q → a < b.
Proof. intros H. by apply Qpower_lt_compat_l_inv in H. Qed.
Lemma p2_Z e : 0 ≤ e → (p2 e == inject_Z (2 ^ e))%Q.
Proof. intros. unfold p2. by rewrite Zpower_Qpower. Qed.
Lemma p2_opp e : (p2 (- e) * p2 e == 1)%Q.
Proof. rewrite <- p2_add. replace (- e + e) with 0 by lia. reflexivity. Qed.
Lemma p2_half e : (p2 (e - 1) == p2 e * (1#2))%Q.
Proof. unfold Z.sub. rewrite p2_add. reflexivity. Qed.

Lemma inject_le a b : a ≤ b → (inject_Z a <= inject_Z b)%Q.
Proof. by rewrite <- Zle_Qle. Qed.
Lemma inject_lt a b : a < b → (inject_Z a < inject_Z b)%Q.
Proof. by rewrite <- Zlt_Qlt. Qed.
Lemma inject_pos a : 0 < a → (0 < inject_Z a)%Q.
Proof. intros. by apply (inject_lt 0). Qed.

#[export] Hint Resolve p2_pos p2_neq0 inject_pos : onebrain.

(** ** Rounding to an integer *)
Lemma rne_err n d : 0 < d → - d ≤ 2 * (rne n d * d - n) ≤ d.
Proof.
  intros Hd. unfold rne.
  pose proof (Z.div_mod n d ltac:(lia)) as Hn. pose proof (Z.mod_pos_bound n d Hd).
  set (q := n / d) in *. set (r := n mod d) in *.
  destruct (Z.compare_spec (2 * r) d); [destruct (Z.even q)|..]; nia.
Qed.
Lemma rne_le n d z : 0 < d → n ≤ z * d → rne n d ≤ z.
Proof.
  intros Hd Hn. pose proof (rne_err n d Hd). destruct (Z.le_gt_cases (rne n d) z); [done|].
  assert ((z + 1) * d ≤ rne n d * d) by (apply Z.mul_le_mono_nonneg_r; lia). lia.
Qed.
Lemma rne_ge n d z : 0 < d → z * d ≤ n → z ≤ rne n d.
Proof.
  intros Hd Hn. pose proof (rne_err n d Hd). destruct (Z.le_gt_cases z (rne n d)); [done|].
  assert ((rne n d + 1) * d ≤ z * d) by (apply Z.mul_le_mono_nonneg_r; lia). lia.
Qed.

(** The rational [n / d]. *)
Definition ratio (n d : Z) : Q := inject_Z n / inject_Z d.

Lemma ratio_mul n d : 0 < d → (ratio n d * inject_Z d == inject_Z n)%Q.
Proof. intros. unfold ratio. field. pose proof (inject_pos d ltac:(done)). lra. Qed.
Lemma ratio_pos n d : 0 < n → 0 < d → (0 < ratio n d)%Q.
Proof.
  intros. unfold ratio, Qdiv. apply Qmult_lt_0_compat; [auto with onebrain|].
  apply Qinv_lt_0_compat. auto with onebrain.
Qed.

Lemma ratio_le_l n d q : 0 < d → (inject_Z n <= q * inject_Z d ↔ ratio n d <= q)%Q.
Proof.
  intros Hd. pose proof (ratio_mul n d Hd) as H. pose proof (inject_pos d Hd).
  rewrite <- H. split; intros Hle; [|nra].
  eapply Qmult_lt_0_le_reg_r; eauto.
Qed.
Lemma ratio_le_r n d q : 0 < d → (q * inject_Z d <= inject_Z n ↔ q <= ratio n d)%Q.
Proof.
  intros Hd. pose proof (ratio_mul n d Hd) as H. pose proof (inject_pos d Hd).
  rewrite <- H. split; intros Hle; [|nra].
  eapply Qmult_lt_0_le_reg_r; eauto.
Qed.
Lemma ratio_lt_l n d q : 0 < d → (inject_Z n < q * inject_Z d ↔ ratio n d < q)%Q.
Proof.
  intros Hd. pose proof (ratio_mul n d Hd) as H. pose proof (inject_pos d Hd).
  rewrite <- H. split; intros Hle; [|nra].
  eapply Qmult_lt_r; eauto.
Qed.

Lemma pow2_le_spec k n d :
  0 < d → pow2_le k n d = true ↔ (p2 k <= ratio n d)%Q.
Proof.
  intros Hd. unfold pow2_le. rewrite <- ratio_le_r by done.
  destruct (Z.leb_spec 0 k).
  - rewrite Z.leb_le, p2_Z, <- inject_Z_mult, <- Zle_Qle by done. by rewrite Z.mul_comm.
  - rewrite Z.leb_le, Zle_Qle, inject_Z_mult, <- (p2_Z (- k)) by lia.
    pose proof (p2_opp k). pose proof (p2_pos k). pose proof (p2_pos (- k)).
    pose proof (inject_pos d Hd). split; intros Hle; nra.
Qed.

Lemma log2_Q n : 0 < n → (p2 (Z.log2 n) <= inject_Z n /\ inject_Z n < p2 (Z.log2 n + 1))%Q.
Proof.
  intros Hn. pose proof (Z.log2_nonneg n). pose proof (Z.log2_spec n Hn) as [H1 H2].
  rewrite !p2_Z by lia. split; [by apply inject_le|]. apply inject_lt.
  by rewrite Z.add_1_r.
Qed.

(** [log2_frac] is the exponent of the binade of [n / d]. *)
Lemma log2_frac_spec n d :
  0 < n → 0 < d →
  (p2 (log2_frac n d) <= ratio n d /\ ratio n d < p2 (log2_frac n d + 1))%Q.
Proof.
  intros Hn Hd. pose proof (log2_Q n Hn) as [N1 N2]. pose proof (log2_Q d Hd) as [D1 D2].
  set (k := Z.log2 n - Z.log2 d).
  assert (ratio n d < p2 (k + 1))%Q as Hup.
  { rewrite <- ratio_lt_l by done. eapply Qlt_le_trans; [exact N2|].
    replace (Z.log2 n + 1) with (k + 1 + Z.log2 d) by lia. rewrite p2_add.
    pose proof (p2_pos (k + 1)). nra. }
  assert (p2 (k - 1) <= ratio n d)%Q as Hlo.
  { rewrite <- ratio_le_r by done. eapply Qle_trans; [|exact N1].
    replace (Z.log2 n) with (k - 1 + (Z.log2 d + 1)) by lia. rewrite p2_add.
    pose proof (p2_pos (k - 1)). nra. }
  unfold log2_frac. fold k.
  destruct (pow2_le k n d) eqn:E.
  - split; [by apply pow2_le_spec|done].
  - split; [done|]. replace (k - 1 + 1) with k by lia.
    apply Qnot_le_lt. intros H. apply pow2_le_spec in H; [congruence|done].
Qed.

(** [rne_scaled] rounds [ratio n d / 2^e]. *)
Lemma rne_scaled_rne n d e :
  0 < d → ∃ n' d', 0 < d' ∧ rne_scaled n d e = rne n' d' ∧
    (inject_Z n' * p2 e == ratio n d * inject_Z d')%Q.
Proof.
  intros Hd. unfold rne_scaled. pose proof (ratio_mul n d Hd) as Hr.
  destruct (Z.leb_spec 0 e).
  - exists n, (d * 2 ^ e). split; [apply Z.mul_pos_pos; lia|]. split; [done|].
    rewrite inject_Z_mult, <- p2_Z by done. rewrite <- Hr. ring.
  - exists (n * 2 ^ (- e)), d. split; [done|]. split; [done|].
    rewrite inject_Z_mult, <- p2_Z by lia. rewrite <- Hr.
    transitivity (ratio n d * inject_Z d * (p2 (- e) * p2 e))%Q; [ring|].
    rewrite p2_opp. ring.
Qed.

Section rne_scaled.
Context (n d e : Z) (Hd : 0 < d).

Lemma rne_scaled_le z :
  (ratio n d <= inject_Z z * p2 e)%Q → rne_scaled n d e ≤ z.
Proof using Hd.
  destruct (rne_scaled_rne n d e Hd) as (n' & d' & Hd' & -> & H). intros Hle.
  apply rne_le; [done|]. rewrite Zle_Qle, inject_Z_mult.
  pose proof (p2_pos e). pose proof (inject_pos d' Hd').
  apply (Qmult_lt_0_le_reg_r _ _ (p2 e)); [done|]. rewrite H. nra.
Qed.
Lemma rne_scaled_ge z :
  (inject_Z z * p2 e <= ratio n d)%Q → z ≤ rne_scaled n d e.
Proof using Hd.
  destruct (rne_scaled_rne n d e Hd) as (n' & d' & Hd' & -> & H). intros Hle.
  apply rne_ge; [done|]. rewrite Zle_Qle, inject_Z_mult.
  pose proof (p2_pos e). pose proof (inject_pos d' Hd').
  apply (Qmult_lt_0_le_reg_r _ _ (p2 e)); [done|]. rewrite H. nra.
Qed.
Lemma rne_scaled_err :
  (Qabs (inject_Z (rne_scaled n d e) * p2 e - ratio n d) <= p2 (e - 1))%Q.
Proof using Hd.
  destruct (rne_scaled_rne n d e Hd) as (n' & d' & Hd' & -> & H).
  pose proof (rne_err n' d' Hd') as [E1 E2].
  rewrite Zle_Qle in E1, E2.
  rewrite inject_Z_mult, inject_Z_opp in E1. rewrite inject_Z_mult in E2.
  unfold Z.sub in E1, E2. rewrite inject_Z_plus, inject_Z_mult, inject_Z_opp in E1, E2.
  pose proof (p2_pos e). pose proof (inject_pos d' Hd') as Hp.
  rewrite p2_half.
  assert (Hx : (ratio n d == inject_Z n' * p2 e / inject_Z d')%Q)
    by (rewrite H; field; lra).
  set (m := inject_Z (rne n' d')) in *. set (N := inject_Z n') in *.
  set (D := inject_Z d') in *. change (inject_Z 2) with 2%Q in *.
  assert (Heq : ((m * p2 e - ratio n d) * D == (m * D - N) * p2 e)%Q)
    by (rewrite Hx; field; lra).
  apply Qabs_Qle_condition.
  split; apply (Qmult_lt_0_le_reg_r _ _ D); try done; rewrite Heq; nra.
Qed.
End rne_scaled.

(** ** Correct rounding *)

(** The rounded value, before the overflow check. *)
Definition rval (f : fmt) (n d : Z) : Q :=
  inject_Z (rne_scaled n d (ulp_exp f n d)) * p2 (ulp_exp f n d).

(** [c] is a non-negative value of the format. *)
Definition repr (f : fmt) (c : Q) : Prop :=
  ∃ m e, 0 ≤ m < 2 ^ prec f ∧ emin f ≤ e ∧ (c == inject_Z m * p2 e)%Q.

Section rounding.
Context (f : fmt) (Hprec : 1 < prec f).
Context (n d : Z) (Hn : 0 < n) (Hd : 0 < d).
Let X := ratio n d.
Let e := ulp_exp f n d.
Let l := log2_frac n d.

Lemma rne_scaled_nonneg : 0 ≤ rne_scaled n d e.
Proof using Hd Hn.
  apply rne_scaled_ge; [done|]. pose proof (ratio_pos n d Hn Hd). change (inject_Z 0) with 0%Q. lra.
Qed.

Lemma rval_nonneg : (0 <= rval f n d)%Q.
Proof using Hd Hn.
  pose proof rne_scaled_nonneg as H. apply (inject_le 0) in H. pose proof (p2_pos e).
  unfold rval. fold e. change (inject_Z 0) with 0%Q in H. nra.
Qed.

(** The mantissa fits the precision, up to one carry. *)
Lemma rne_scaled_prec : rne_scaled n d e ≤ 2 ^ prec f.
Proof using Hd Hn Hprec.
  apply rne_scaled_le; [done|].
  pose proof (log2_frac_spec n d Hn Hd) as [_ H]. fold l in H.
  rewrite <- p2_Z, <- p2_add by lia. apply Qlt_le_weak. eapply Qlt_le_trans; [exact H|].
  apply p2_le. unfold e, ulp_exp. fold l. lia.
Qed.

(** Above the underflow threshold the mantissa is full. *)
Lemma rne_scaled_full : emin f < e → 2 ^ (prec f - 1) ≤ rne_scaled n d e ∧ e = l - prec f + 1.
Proof using Hd Hn Hprec.
  intros He. assert (e = l - prec f + 1) as Hel by (unfold e, ulp_exp in He |- *; fold l in He |- *; lia).
  split; [|done]. apply rne_scaled_ge; [done|].
  pose proof (log2_frac_spec n d Hn Hd) as [H _]. fold l in H.
  rewrite <- p2_Z, <- p2_add by lia. by replace (prec f - 1 + e) with l by lia.
Qed.

(** Relative error in the normal range. *)
Lemma rval_rel :
  (p2 (emin f + prec f - 1) <= X)%Q → (Qabs (rval f n d - X) <= X * p2 (- prec f))%Q.
Proof using Hd Hn Hprec.
  intros HX. pose proof (log2_frac_spec n d Hn Hd) as [H1 H2]. fold l X in H1, H2.
  assert (emin f + prec f - 1 < l + 1) as Hl by (apply p2_le_inv; eapply Qle_lt_trans; [exact HX|done]).
  assert (e = l - prec f + 1) as He by (unfold e, ulp_exp; fold l; lia).
  eapply Qle_trans; [apply rne_scaled_err; done|]. fold e.
  replace (e - 1) with (l + - prec f) by lia. rewrite p2_add.
  pose proof (p2_pos (- prec f)). nra.
Qed.

(** Monotone towards representable bounds. *)
Lemma rval_le c : repr f c → (X <= c)%Q → (rval f n d <= c)%Q.
Proof using Hd Hn Hprec.
  intros (mc & ec & Hm & He & Hc) HX. rewrite Hc in *.
  assert (e ≤ ec) as Hle.
  { unfold e, ulp_exp. fold l. apply Z.max_lub; [|done].
    pose proof (log2_frac_spec n d Hn Hd) as [H1 _]. fold l X in H1.
    enough (l < prec f + ec) by lia. apply p2_le_inv.
    eapply Qle_lt_trans; [exact H1|]. eapply Qle_lt_trans; [exact HX|].
    rewrite p2_add, (p2_Z (prec f)) by lia. apply Qmult_lt_r; [auto with onebrain|]. apply inject_lt. lia. }
  replace ec with (ec - e + e) by lia. rewrite p2_add, (p2_Z (ec - e)), Qmult_assoc, <- inject_Z_mult by lia.
  pose proof (p2_pos e). unfold rval. fold e.
  apply Qmult_le_compat_r; [|lra]. apply inject_le. apply rne_scaled_le; [done|].
  rewrite inject_Z_mult, <- (p2_Z (ec - e)) by lia. rewrite <- Qmult_assoc, <- p2_add.
  by replace (ec - e + e) with ec by lia.
Qed.

Lemma rval_ge c : repr f c → (c <= X)%Q → (c <= rval f n d)%Q.
Proof using Hd Hn Hprec.
  intros (mc & ec & Hm & He & Hc) HX. rewrite Hc in *. unfold rval. fold e.
  destruct (Z.le_gt_cases e ec) as [Hle|Hgt].
  - replace ec with (ec - e + e) by lia.
    rewrite p2_add, (p2_Z (ec - e)), Qmult_assoc, <- inject_Z_mult by lia.
    pose proof (p2_pos e). apply Qmult_le_compat_r; [|lra]. apply inject_le.
    apply rne_scaled_ge; [done|].
    rewrite inject_Z_mult, <- (p2_Z (ec - e)) by lia. rewrite <- Qmult_assoc, <- p2_add.
    by replace (ec - e + e) with ec by lia.
  - destruct rne_scaled_full as [Hf Hel]; [lia|].
    apply Qle_trans with (p2 (prec f + ec)).
    + rewrite p2_add, (p2_Z (prec f)) by lia. pose proof (p2_pos ec).
      apply Qmult_le_compat_r; [|lra]. apply inject_le. lia.
    + apply Qle_trans with (p2 (prec f - 1 + e)); [apply p2_le; lia|].
      rewrite p2_add, (p2_Z (prec f - 1)) by lia. pose proof (p2_pos e).
      apply Qmult_le_compat_r; [|lra]. by apply inject_le.
Qed.

(** [round] returns the rounded value, or overflows. *)
Lemma round_cases s :
  (∃ m' e', round f s n d = Fin s m' e' ∧ 0 ≤ m' < 2 ^ prec f ∧
     emin f ≤ e' ≤ emax f - prec f ∧ (inject_Z m' * p2 e' == rval f n d)%Q) ∨
  (round f s n d = Inf s ∧ (emin f < emax f - prec f → (p2 (emax f) <= rval f n d)%Q)).
Proof using Hd Hn Hprec.
  unfold round. fold e. pose proof rne_scaled_prec as Hp. pose proof rne_scaled_nonneg as H0.
  assert (emin f ≤ e) as Hmin by (unfold e, ulp_exp; lia).
  unfold rval. fold e. set (m := rne_scaled n d e) in *.
  assert (2 ^ prec f = 2 ^ (prec f - 1) * 2) as Hpow
    by (rewrite Z.mul_comm, <- Z.pow_succ_r by lia; f_equal; lia).
  pose proof (Z.pow_pos_nonneg 2 (prec f - 1) ltac:(lia) ltac:(lia)).
  assert (∀ m' e', 0 ≤ m' < 2 ^ prec f → emin f ≤ e' →
    (inject_Z m' * p2 e' == inject_Z m * p2 e)%Q → (emin f < e' → 2 ^ (prec f - 1) ≤ m') →
    (∃ m'' e'', (if e' <=? emax f - prec f then Fin s m' e' else Inf s) = Fin s m'' e'' ∧
       0 ≤ m'' < 2 ^ prec f ∧ emin f ≤ e'' ≤ emax f - prec f ∧
       (inject_Z m'' * p2 e'' == inject_Z m * p2 e)%Q) ∨
    ((if e' <=? emax f - prec f then Fin s m' e' else Inf s) = Inf s ∧
     (emin f < emax f - prec f → (p2 (emax f) <= inject_Z m * p2 e)%Q))) as Hgen.
  { intros m' e' Hm' He' Hv Hfull. destruct (Z.leb_spec e' (emax f - prec f)).
    - left. exists m', e'. repeat split; try done; lia.
    - right. split; [done|]. intros Hr. rewrite <- Hv.
      apply Qle_trans with (p2 (prec f - 1 + e')); [apply p2_le; lia|].
      rewrite p2_add, (p2_Z (prec f - 1)) by lia. pose proof (p2_pos e').
      apply Qmult_le_compat_r; [|lra]. apply inject_le, Hfull. lia. }
  destruct (Z.eqb_spec m (2 ^ prec f)) as [Hm|Hm].
  - apply Hgen; try lia. rewrite Hm, Hpow, inject_Z_mult, p2_add.
    change (p2 1) with 2%Q. change (inject_Z 2) with 2%Q. ring.
  - apply Hgen; try lia; [done|]. intros. by apply rne_scaled_full.
Qed.
End rounding.

(** ** Operations on non-negative finite [f64] values *)

(** The rational value of a finite float. *)
Definition fval (x : fl) : Q :=
  match x with Fin s m e => inject_Z (signed s m) * p2 e | _ => 0 end.

(** A non-negative finite binary64 value (negative zero included). *)
Definition nn (x : fl) : Prop :=
  match x with
  | Fin s m e => 0 ≤ m < 2 ^ 53 ∧ -1074 ≤ e ≤ 971 ∧ (s = true → m = 0)
  | _ => False
  end.

(** [R] is the binary64 rounding of [X]. *)
Record rnd (X R : Q) : Prop := {
  rnd_le : ∀ c, repr b64 c → (X <= c)%Q → (R <= c)%Q;
  rnd_ge : ∀ c, repr b64 c → (c <= X)%Q → (c <= R)%Q;
  rnd_rel : (p2 (-1022) <= X)%Q → (Qabs (R - X) <= X * p2 (-53))%Q }.

#[global] Instance rnd_proper : Proper (Qeq ==> Qeq ==> iff) rnd.
Proof.
  intros X X' HX R R' HR. split; intros [H1 H2 H3]; split; intros.
  - rewrite <- HR. apply H1; [done|]. by rewrite HX.
  - rewrite <- HR. apply H2; [done|]. by rewrite HX.
  - rewrite <- HR, <- HX. apply H3. by rewrite HX.
  - rewrite HR. apply H1; [done|]. by rewrite <- HX.
  - rewrite HR. apply H2; [done|]. by rewrite <- HX.
  - rewrite HR, HX. apply H3. by rewrite <- HX.
Qed.

Lemma repr_p2 k : -1074 ≤ k → repr b64 (p2 k).
Proof. intros. exists 1, k. simpl. split; [lia|]. split; [lia|]. ring. Qed.
Lemma repr_0 : repr b64 0.
Proof. exists 0, 0. simpl. split; [lia|]. split; [lia|]. reflexivity. Qed.
Lemma repr_Z n : 0 ≤ n < 2 ^ 53 → repr b64 (inject_Z n).
Proof. intros. exists n, 0. simpl. split; [lia|]. split; [lia|]. change (p2 0) with 1%Q. ring. Qed.
Lemma nn_repr x : nn x → repr b64 (fval x).
Proof.
  destruct x as [| |s m e]; simpl; try done. intros (Hm & He & Hs).
  exists m, e. simpl. split; [lia|]. split; [lia|].
  destruct s; simpl; [rewrite Hs by done|]; reflexivity.
Qed.
Lemma nn_fval x : nn x → (0 <= fval x)%Q.
Proof.
  intros (m & e & Hm & _ & ->)%nn_repr. pose proof (p2_pos e).
  destruct Hm as [Hm _]. apply (inject_le 0) in Hm. change (inject_Z 0) with 0%Q in Hm. nra.
Qed.
#[export] Hint Resolve repr_0 nn_repr nn_fval : onebrain.

Lemma rnd_nonneg X R : rnd X R → (0 <= X)%Q → (0 <= R)%Q.
Proof. intros H. apply (rnd_ge _ _ H). apply repr_0. Qed.
Lemma rnd_zero X R : rnd X R → (X == 0)%Q → (R == 0)%Q.
Proof.
  intros H HX. apply Qle_antisym; [apply (rnd_le _ _ H)|apply (rnd_ge _ _ H)];
    try apply repr_0; lra.
Qed.
Lemma rnd_id X : repr b64 X → rnd X X.
Proof.
  intros HX. split; try done. intros Hn. pose proof (p2_pos (-1022)).
  assert (Qabs (X - X) == 0)%Q as -> by (setoid_rewrite Qplus_opp_r; reflexivity).
  pose proof (p2_pos (-53)). nra.
Qed.
(** A representable value rounds to itself. *)
Lemma rnd_exact X R : rnd X R → repr b64 X → (R == X)%Q.
Proof.
  intros H HX. apply Qle_antisym; [apply (rnd_le _ _ H)|apply (rnd_ge _ _ H)]; try done; lra.
Qed.

Lemma round_nn s n d :
  0 < n → 0 < d → (ratio n d <= p2 1023)%Q →
  ∃ m e, round b64 s n d = Fin s m e ∧ 0 ≤ m < 2 ^ 53 ∧ -1074 ≤ e ≤ 971 ∧
    rnd (ratio n d) (inject_Z m * p2 e).
Proof.
  intros Hn Hd HX. assert (1 < prec b64) as Hp by (simpl; lia).
  destruct (round_cases b64 Hp n d Hn Hd s) as [(m & e & -> & Hm & He & Hv)|[_ Hinf]].
  - exists m, e. split; [done|]. split; [done|]. split; [simpl in He; lia|].
    rewrite Hv. split.
    + intros c. by apply rval_le.
    + intros c. by apply rval_ge.
    + intros H. by apply rval_rel.
  - exfalso. specialize (Hinf ltac:(simpl; lia)).
    assert (rval b64 n d <= p2 1023)%Q as Hle by (apply rval_le; try done; by apply repr_p2).
    assert (p2 1023 < p2 1024)%Q by (apply p2_lt; lia).
    change (emax b64) with 1024 in Hinf. lra.
Qed.

Lemma frac_spec m e : 0 < m →
  0 < (frac m e).1 ∧ 0 < (frac m e).2 ∧
  (ratio (frac m e).1 (frac m e).2 == inject_Z m * p2 e)%Q.
Proof.
  intros Hm. unfold frac, ratio. destruct (Z.leb_spec 0 e); simpl.
  - split; [apply Z.mul_pos_pos; lia|]. split; [lia|].
    rewrite inject_Z_mult, <- p2_Z by done. field.
  - split; [done|]. split; [apply Z.pow_pos_nonneg; lia|].
    rewrite <- p2_Z by lia. pose proof (p2_pos (- e)). pose proof (p2_opp e) as Ho.
    apply (Qmult_inj_r _ _ (p2 (- e))); [lra|].
    transitivity (inject_Z m); [field; lra|].
    transitivity (inject_Z m * (p2 (- e) * p2 e))%Q; [rewrite Ho|]; ring.
Qed.

(** What rounding a non-negative dyadic [m * 2^e] gives. *)
Definition nn_rnd (X : Q) (r : fl) : Prop := nn r ∧ rnd X (fval r).

#[global] Instance nn_rnd_proper : Proper (Qeq ==> (=) ==> iff) nn_rnd.
Proof. intros X X' HX r r' <-. unfold nn_rnd. by rewrite HX. Qed.

Lemma nn_zero s : nn_rnd 0 (Fin s 0 (-1074)).
Proof.
  split; [simpl; lia|].
  assert (fval (Fin s 0 (-1074)) == 0)%Q as -> by (destruct s; reflexivity).
  apply rnd_id, repr_0.
Qed.

Lemma round_nn_rnd n d X :
  0 < n → 0 < d → (ratio n d == X)%Q → (X <= p2 1023)%Q → nn_rnd X (round b64 false n d).
Proof.
  intros Hn Hd HX Hle.
  destruct (round_nn false n d Hn Hd) as (m & e & -> & Hm & He & Hr); [by rewrite HX|].
  rewrite HX in Hr. split; [simpl; repeat split; try lia; done|done].
Qed.

Lemma fval_signed s m e : nn (Fin s m e) → (fval (Fin s m e) == inject_Z m * p2 e)%Q.
Proof. intros (_ & _ & Hs). destruct s; simpl; [rewrite Hs by done|]; reflexivity. Qed.
Lemma signed_nn s m e : nn (Fin s m e) → signed s m = m.
Proof. intros (_ & _ & Hs). destruct s; simpl; [rewrite Hs by done|]; done. Qed.

Lemma scale_p2 m e g : g ≤ e → (inject_Z (m * 2 ^ (e - g)) * p2 g == inject_Z m * p2 e)%Q.
Proof.
  intros. rewrite inject_Z_mult, <- p2_Z, <- Qmult_assoc, <- p2_add by lia.
  by replace (e - g + g) with e by lia.
Qed.

Lemma fadd_nn x y :
  nn x → nn y → (fval x + fval y <= p2 1023)%Q → nn_rnd (fval x + fval y) (fadd b64 x y).
Proof.
  destruct x as [| |s m e]; try done. destruct y as [| |t n k]; try done.
  intros Hx Hy. rewrite (fval_signed s m e), (fval_signed t n k) by done. simpl.
  set (g := Z.min e k).
  assert (signed s (m * 2 ^ (e - g)) = m * 2 ^ (e - g)) as ->
    by (destruct Hx as (_ & _ & Hs); destruct s; simpl; [rewrite Hs by done|]; lia).
  assert (signed t (n * 2 ^ (k - g)) = n * 2 ^ (k - g)) as ->
    by (destruct Hy as (_ & _ & Hs); destruct t; simpl; [rewrite Hs by done|]; lia).
  assert (0 ≤ m * 2 ^ (e - g)) by (destruct Hx; apply Z.mul_nonneg_nonneg; lia).
  assert (0 ≤ n * 2 ^ (k - g)) by (destruct Hy; apply Z.mul_nonneg_nonneg; lia).
  rewrite <- (scale_p2 m e g), <- (scale_p2 n k g) by lia.
  rewrite <- Qmult_plus_distr_l, <- inject_Z_plus.
  set (z := m * 2 ^ (e - g) + n * 2 ^ (k - g)) in *. intros Hle.
  destruct (Z.eqb_spec z 0) as [->|Hz].
  - change (inject_Z 0) with 0%Q in *.
    destruct (nn_zero (s && t)) as [H1 H2]. split; [done|]. by rewrite Qmult_0_l.
  - destruct (Z.ltb_spec z 0); [lia|]. rewrite Z.abs_eq by lia.
    pose proof (frac_spec z g ltac:(lia)) as (Hp & Hq & Hr). destruct (frac z g) as [p q].
    by apply round_nn_rnd.
Qed.

Lemma fmul_nn x y :
  nn x → nn y → (fval x * fval y <= p2 1023)%Q → nn_rnd (fval x * fval y) (fmul b64 x y).
Proof.
  destruct x as [| |s m e]; try done. destruct y as [| |t n k]; try done.
  intros Hx Hy. rewrite (fval_signed s m e), (fval_signed t n k) by done. simpl.
  assert (inject_Z m * p2 e * (inject_Z n * p2 k) == inject_Z (m * n) * p2 (e + k))%Q as ->
    by (rewrite inject_Z_mult, p2_add; ring).
  intros Hle. destruct (Z.eqb_spec (m * n) 0) as [->|Hz].
  - change (inject_Z 0) with 0%Q. destruct (nn_zero (xorb s t)) as [H1 H2].
    split; [done|]. by rewrite Qmult_0_l.
  - destruct Hx as (Hm & _ & Hs). destruct Hy as (Hn & _ & Ht).
    assert (s = false) as -> by (destruct s; [specialize (Hs eq_refl); lia|done]).
    assert (t = false) as -> by (destruct t; [specialize (Ht eq_refl); lia|done]).
    pose proof (frac_spec (m * n) (e + k) ltac:(lia)) as (Hp & Hq & Hr).
    destruct (frac (m * n) (e + k)) as [p q]. by apply round_nn_rnd.
Qed.

Lemma fdiv_nn x y :
  nn x → nn y → (0 < fval y)%Q → (fval x / fval y <= p2 1023)%Q →
  nn_rnd (fval x / fval y) (fdiv b64 x y).
Proof.
  destruct x as [| |s m e]; try done. destruct y as [| |t n k]; try done.
  intros Hx Hy. rewrite (fval_signed s m e), (fval_signed t n k) by done. simpl.
  intros Hpos. pose proof (p2_pos e). pose proof (p2_pos k). pose proof (p2_pos (e - k)).
  destruct (Z.eqb_spec n 0) as [->|Hn0].
  { change (inject_Z 0) with 0%Q in Hpos. lra. }
  assert (0 < n) as Hn by (destruct Hy; lia). pose proof (inject_pos n Hn) as Hni.
  assert (inject_Z m * p2 e / (inject_Z n * p2 k) == inject_Z m * p2 (e - k) / inject_Z n)%Q as ->.
  { unfold Z.sub. rewrite p2_add. pose proof (p2_opp k). pose proof (p2_pos (- k)).
    assert (p2 (- k) == / p2 k)%Q as ->.
    { apply (Qmult_inj_r _ _ (p2 k)); [lra|]. rewrite p2_opp. field. lra. }
    field. split; lra. }
  intros Hle. destruct (Z.eqb_spec m 0) as [->|Hm0].
  - change (inject_Z 0) with 0%Q. destruct (nn_zero (xorb s t)) as [H1' H2'].
    split; [done|]. unfold Qdiv. by rewrite !Qmult_0_l.
  - destruct Hx as (Hm & _ & Hs). destruct Hy as (Hn' & _ & Ht).
    assert (s = false) as -> by (destruct s; [specialize (Hs eq_refl); lia|done]).
    assert (t = false) as -> by (destruct t; [specialize (Ht eq_refl); lia|done]).
    pose proof (frac_spec m (e - k) ltac:(lia)) as (Hp & Hq & Hr).
    destruct (frac m (e - k)) as [p q]. simpl in *. pose proof (inject_pos q Hq).
    apply round_nn_rnd; [done|lia| |done].
    rewrite <- Hr. unfold ratio. rewrite inject_Z_mult. field. split; lra.
Qed.

Lemma of_Z_nn n : 0 ≤ n ≤ 2 ^ 64 → nn_rnd (inject_Z n) (of_Z b64 n).
Proof.
  intros Hn. unfold of_Z. destruct (Z.eqb_spec n 0) as [->|Hz].
  - apply nn_zero.
  - apply round_nn_rnd; [lia|lia| |].
    + unfold ratio. change (inject_Z 1) with 1%Q. field.
    + apply Qle_trans with (p2 64); [|by apply p2_le].
      rewrite p2_Z by lia. apply inject_le. lia.
Qed.

(** Comparison is comparison of values. *)
Lemma fcompare_nn x y : nn x → nn y → fcompare x y = Some (fval x ?= fval y)%Q.
Proof.
  destruct x as [| |s m e]; try done. destruct y as [| |t n k]; try done.
  intros Hx Hy. unfold fcompare. set (g := Z.min e k). f_equal.
  assert (signed s (m * 2 ^ (e - g)) = m * 2 ^ (e - g)) as ->
    by (destruct Hx as (_ & _ & Hs); destruct s; simpl; [rewrite Hs by done|]; lia).
  assert (signed t (n * 2 ^ (k - g)) = n * 2 ^ (k - g)) as ->
    by (destruct Hy as (_ & _ & Hs); destruct t; simpl; [rewrite Hs by done|]; lia).
  rewrite (fval_signed s m e), (fval_signed t n k) by done.
  rewrite <- (scale_p2 m e g), <- (scale_p2 n k g) by lia.
  set (a := m * 2 ^ (e - g)). set (b := n * 2 ^ (k - g)). pose proof (p2_pos g).
  symmetry. destruct (Z.compare_spec a b) as [->|Hab|Hab].
  - by apply Qeq_alt.
  - apply Qlt_alt. apply Qmult_lt_r; [done|by apply inject_lt].
  - apply Qgt_alt. apply Qmult_lt_r; [done|by apply inject_lt].
Qed.

Lemma flt_nn x y : nn x → nn y → flt x y = true ↔ (fval x < fval y)%Q.
Proof.
  intros Hx Hy. unfold flt. rewrite fcompare_nn by done.
  rewrite Qlt_alt. by destruct (fval x ?= fval y)%Q.
Qed.
Lemma fle_nn x y : nn x → nn y → fle x y = true ↔ (fval x <= fval y)%Q.
Proof.
  intros Hx Hy. unfold fle. rewrite fcompare_nn by done.
  rewrite Qle_alt. by destruct (fval x ?= fval y)%Q.
Qed.
Lemma fle_nn_false x y : nn x → nn y → fle x y = false ↔ (fval y < fval x)%Q.
Proof.
  intros Hx Hy. rewrite <- not_true_iff_false, fle_nn by done.
  split; [apply Qnot_le_lt|apply Qlt_not_le].
Qed.

Lemma nn_not_nan x : nn x → is_nan x = false.
Proof. by destruct x. Qed.

Lemma fmax_nn x y : nn x → nn y →
  (fmax x y = x ∧ (fval y <= fval x)%Q) ∨ (fmax x y = y ∧ (fval x <= fval y)%Q).
Proof.
  intros Hx Hy. assert (fmax x y = if flt x y then y else x) as -> by (by destruct x, y).
  destruct (flt x y) eqn:E.
  - right. split; [done|]. apply flt_nn in E; [lra|done..].
  - left. split; [done|]. apply Qnot_lt_le. intros H. apply flt_nn in H; [congruence|done..].
Qed.

(** [x.floor() as u64] on a non-negative value. *)
Lemma to_u64_floor x : nn x → (fval x < p2 64)%Q → to_u64 (ffloor x) = Qfloor (fval x).
Proof.
  destruct x as [| |s m e]; try done. intros Hx Hlt.
  assert (Qfloor (fval (Fin s m e)) = floor_Z false m e) as Hfl.
  { rewrite (fval_signed s m e) by done. unfold floor_Z, signed.
    destruct (Z.leb_spec 0 e).
    - rewrite p2_Z, <- inject_Z_mult by done. apply Qfloor_Z.
    - rewrite Zdiv_Qdiv. apply Qfloor_comp. rewrite <- p2_Z by lia.
      pose proof (p2_pos (- e)). apply (Qmult_inj_r _ _ (p2 (- e))); [lra|].
      rewrite <- Qmult_assoc, (Qmult_comm (p2 e)), p2_opp. field. lra. }
  assert (0 ≤ floor_Z false m e < 2 ^ 64) as Hb.
  { rewrite <- Hfl. split.
    - change 0 with (Qfloor 0). apply Qfloor_resp_le, nn_fval. done.
    - rewrite Zlt_Qlt. eapply Qle_lt_trans; [apply Qfloor_le|].
      rewrite <- p2_Z by lia. done. }
  rewrite Hfl. destruct Hx as (Hm & _ & Hs). unfold ffloor.
  destruct (Z.leb_spec 0 e).
  - destruct s; [rewrite Hs in * by done; unfold floor_Z; simpl; by destruct (0 <=? e)|].
    simpl. unfold u64_max. lia.
  - assert (floor_Z s m e = floor_Z false m e) as ->
      by (destruct s; [rewrite Hs by done; unfold floor_Z; simpl; done|done]).
    set (z := floor_Z false m e) in *.
    destruct (Z.eqb_spec z 0) as [Hz|Hz].
    + rewrite Hz. destruct s; [done|]. simpl. unfold floor_Z. simpl. reflexivity.
    + destruct (Z.ltb_spec z 0); [lia|]. simpl. unfold floor_Z. simpl. unfold u64_max. lia.
Qed.
