(* ===== verification/Proto.v ===== *)
(** * Wire types: plans, capabilities and the handshake

    Models [crates/onebrain-proto/src]: the placement [Plan] and its parts, the
    [Capabilities] bitset, the [Hello] handshake and its verdict, the stream
    header and the message kinds.  Postcard encoding is a library call and is
    not modelled. *)

From Stdlib Require Import ZArith Lia.
From S2P Require Import Prelude Float.
From stdpp Require Import base list strings.

Open Scope Z_scope.

(** ** plan.rs *)

(** Monotonically increasing plan generation, a [u64]. *)
Record Epoch := MkEpoch { epoch_num : Z }.

(** A node's mesh public key, hex-encoded. *)
Record NodeId := MkNodeId { node_str : string }.

(** Half-open range of transformer layers. *)
Record LayerRange := MkLayerRange { lr_start : Z; lr_end : Z }.

Definition lr_len (r : LayerRange) : Z := sat_sub (lr_end r) (lr_start r).
Definition lr_is_empty (r : LayerRange) : bool := lr_end r <=? lr_start r.

Inductive Strategy := Solo | PipelineParallel.

Record Assignment := MkAssignment { a_node : NodeId; a_layers : LayerRange; a_stage : Z }.

Record Plan := MkPlan {
  p_epoch : Epoch;
  p_model : string;
  p_strategy : Strategy;
  p_assignments : list Assignment;
  p_ctx_len : Z }.

#[global] Instance NodeId_eq_dec : EqDecision NodeId.
Proof. solve_decision. Defined.
#[global] Instance Epoch_eq_dec : EqDecision Epoch.
Proof. solve_decision. Defined.
#[global] Instance LayerRange_eq_dec : EqDecision LayerRange.
Proof. solve_decision. Defined.
#[global] Instance Strategy_eq_dec : EqDecision Strategy.
Proof. solve_decision. Defined.
#[global] Instance Assignment_eq_dec : EqDecision Assignment.
Proof. solve_decision. Defined.
#[global] Instance Plan_eq_dec : EqDecision Plan.
Proof. solve_decision. Defined.

(** ** capabilities.rs *)
Record Capabilities := MkCaps { cap_bits : Z }.

Definition PIPELINE_PARALLEL : Z := Z.shiftl 1 0.
Definition BLOB_SHARING : Z := Z.shiftl 1 1.
Definition TENSOR_PARALLEL : Z := Z.shiftl 1 2.
Definition SPECULATIVE : Z := Z.shiftl 1 3.
Definition ACT_COMPRESSION : Z := Z.shiftl 1 4.
Definition CLUSTER_BENCH : Z := Z.shiftl 1 5.

Definition caps_current : Capabilities :=
  MkCaps (Z.lor (Z.lor PIPELINE_PARALLEL BLOB_SHARING) CLUSTER_BENCH).

Definition caps_supports (c : Capabilities) (bit : Z) : bool :=
  negb (Z.land (cap_bits c) bit =? 0).

Definition caps_intersect (c d : Capabilities) : Capabilities :=
  MkCaps (Z.land (cap_bits c) (cap_bits d)).

(** ** handshake.rs *)
Definition PROTO_VERSION : Z := 5.

Record EngineBuildHash := MkEngineBuildHash { build_str : string }.

#[global] Instance EngineBuildHash_eq_dec : EqDecision EngineBuildHash.
Proof. solve_decision. Defined.

Record Hello := MkHello {
  h_proto_version : Z;
  h_capabilities : Capabilities;
  h_engine_build : EngineBuildHash;
  h_node_name : string;
  h_product_version : string }.

Inductive HandshakeVerdict :=
  | Compatible
  | ProtoMismatch (ours theirs : Z)
  | EngineMismatch (ours theirs : string).

Definition judge (ours theirs : Hello) : HandshakeVerdict :=
  if negb (h_proto_version ours =? h_proto_version theirs) then
    ProtoMismatch (h_proto_version ours) (h_proto_version theirs)
  else if decide (h_engine_build ours = h_engine_build theirs) then Compatible
  else EngineMismatch (build_str (h_engine_build ours)) (build_str (h_engine_build theirs)).

(** ** message.rs *)
Inductive StreamKind := Control | Rpc | Probe.

#[global] Instance StreamKind_eq_dec : EqDecision StreamKind.
Proof. solve_decision. Defined.

Record StreamHeader := MkStreamHeader { sh_kind : StreamKind; sh_epoch : Epoch }.

Record DeviceBrief := MkDeviceBrief {
  db_kind : string; db_free_bytes : Z; db_total_bytes : Z }.

(** Every message kind that crosses the mesh.  A 32-byte hash is the list of
    its bytes. *)
Inductive Message :=
  | MHello (h : Hello)
  | MPlanProposal (p : Plan)
  | MPlanAck (epoch : Epoch) (ready : bool) (detail : option string)
  | MHeartbeat (epoch : Epoch)
  | MEngineFrame (epoch : Epoch) (payload : list Z)
  | MDraining (epoch : Epoch) (reason : string)
  | MNodeStatus (usable_memory_bytes : Z) (devices : list DeviceBrief)
      (prefill_tps decode_tps disk_mbps : option fl) (draining : bool)
  | MRangeQuery (model : string)
  | MRangeInventory (model : string) (total_size : Z) (ranges : list (Z * Z * list Z))
  | MBenchRequest
  | MBenchReport (prefill_tps decode_tps disk_mbps : fl) (measured_unix : Z).

Record Envelope := MkEnvelope { env_proto_version : Z; env_message : Message }.

Definition envelope_new (m : Message) : Envelope := MkEnvelope PROTO_VERSION m.

(** ** Contiguous layer placements *)

(** The ranges cover [start, stop) in order, each one non-empty. *)
Fixpoint tiles (start : Z) (l : list LayerRange) (stop : Z) : Prop :=
  match l with
  | [] => start = stop
  | r :: l => lr_start r = start ∧ start < lr_end r ∧ tiles (lr_end r) l stop
  end.

(** What every placement promises: the assignments, in order, carry stages
    [0, 1, ...] and their layers tile [0, n). *)
Definition placement_ok (n : Z) (p : Plan) : Prop :=
  tiles 0 (a_layers <$> p_assignments p) n ∧
  a_stage <$> p_assignments p = Z.of_nat <$> seq 0 (length (p_assignments p)).

Lemma tiles_app s l m k e : tiles s l m → tiles m k e → tiles s (l ++ k) e.
Proof. revert s; induction l; simpl; [by intros s ->|]. intros s (H1 & H2 & H3) H. eauto. Qed.

Lemma tiles_snoc s l m e : tiles s l m → m < e → tiles s (l ++ [MkLayerRange m e]) e.
Proof. intros. eapply tiles_app; [done|]. simpl. auto. Qed.

Lemma tiles_sum s l e :
  tiles s l e → zsum (lr_len <$> l) = e - s.
Proof.
  revert s; induction l as [|r l IH]; intros s; [simpl; lia|].
  intros (Hs & Hlt & Ht). rewrite fmap_cons. simpl. rewrite (IH _ Ht). unfold lr_len, sat_sub. lia.
Qed.

Lemma tiles_le s l e : tiles s l e → s ≤ e.
Proof.
  revert s; induction l as [|r l IH]; intros s; simpl; [lia|].
  intros (Hs & Hlt & Ht%IH). lia.
Qed.

(** Every layer is held by exactly one range. *)
Lemma tiles_unique_owner s l e i :
  tiles s l e → s ≤ i < e →
  ∃ k, (∃ r, l !! k = Some r ∧ lr_start r ≤ i < lr_end r) ∧
    ∀ k', (∃ r, l !! k' = Some r ∧ lr_start r ≤ i < lr_end r) → k' = k.
Proof.
  revert s; induction l as [|r l IH]; intros s Ht Hi; simpl in Ht; [lia|].
  destruct Ht as (Hs & Hlt & Ht).
  destruct (Z.lt_ge_cases i (lr_end r)) as [Hin|Hout].
  - exists O. split; [exists r; simpl; split; [done|lia]|].
    intros [|k] (r' & Hk & Hr'); [done|exfalso]. simpl in Hk.
    assert (lr_end r ≤ lr_start r') as Hge.
    { clear IH Hi Hlt Hs Hr' Hin. revert k Hk. generalize (lr_end r) Ht. clear.
      induction l as [|q l IH]; intros s Ht [|k] Hk; simplify_eq/=;
        destruct Ht as (Hs & Hlt & Ht); [lia|].
      specialize (IH _ Ht _ Hk). lia. }
    lia.
  - destruct (IH _ Ht ltac:(lia)) as (k & (r' & Hk & Hr') & Huniq).
    exists (S k). split; [by exists r'|].
    intros [|k'] (q & Hq & Hqi); simplify_eq/=; [lia|].
    f_equal. apply Huniq. by exists q.
Qed.
