(* ===== verification/SchedLib.v ===== *)
(** * The scheduler crate root: shared types and the M3 planner

    Models [crates/onebrain-scheduler/src/lib.rs]: the error type, the planner's
    input and output records, the megabyte roundings, and [plan], the M3
    "v1-lite" placement (flat 85% ceiling, largest-remainder apportionment over
    exact integer quotas).

    Explanations are kept unrendered: a value of [ExplainLine] is one line of
    the prose together with every number the code interpolates into it. *)

From Stdlib Require Import ZArith Lia Sorted Permutation.
From S2P Require Import Prelude Float Proto.
From stdpp Require Import base list strings.

Open Scope Z_scope.

Definition UTILIZATION_CEILING_PCT : Z := 85.
Definition MIB : Z := 1024 * 1024.

(** Why a header was refused ([ScheduleError::BadModel]'s detail). *)
Inductive BadModelDetail :=
  | AbsurdLayerCount (n : Z)
  | AbsurdExpertKey (key : string) (v : Z)
  | TooManyActiveExperts (used total : Z)
  | BadTensorRanges
  | MalformedBlockIndex (name : string)
  | LayerOutOfRange (name : string) (idx n_layers : Z).

Inductive ScheduleError :=
  | DoesNotFit (required_mb available_mb : Z)
  | NoNodes
  | NotEnoughNodes (requested available : Z)
  | MissingMetadata (key : string)
  | BadModel (detail : BadModelDetail).

Record DeviceProfile := MkDeviceProfile {
  dp_node : NodeId;
  dp_usable_memory_bytes : Z;
  dp_prefill_tps : fl;
  dp_decode_tps : fl;
  dp_disk_read_mbps : fl }.

(** The auto-solo rule on a measured device. *)
Definition fits_solo (profile : DeviceProfile) (required_bytes : Z) : bool :=
  required_bytes <=? dp_usable_memory_bytes profile.

Record NodeBudget := MkNodeBudget { nb_node : NodeId; nb_usable_memory_bytes : Z }.

Record PlanInput := MkPlanInput {
  pi_head : NodeBudget;
  pi_workers : list NodeBudget;
  pi_model_bytes : Z;
  pi_n_layers : Z;
  pi_ctx_len : Z;
  pi_forced_nodes : option Z }.

(** The layer-share tilts of the v2 search, named in explanations. *)
Inductive Tilt := Memory | Hybrid | Compute.

(** Why distribution engaged. *)
Inductive Why :=
  | WhyForcedButFits (n : Z)
  | WhyForced (n need_mb head_mb : Z)
  | WhyExceedsHeadM3 (need_mb head_mb pct usable_mb : Z)
  | WhyExceedsHead (ctx_len need_mb head_mb usable_mb reserve_mb : Z).

(** Notes on the participant selection. *)
Inductive SelectionNote :=
  | NoteForced (n joined : Z)
  | NoteForcedDraining (node : NodeId) (n : Z)
  | NoteNoCapacity (node : NodeId) (ctx_len budget_mb layer_mb : Z)
  | NoteDrainingNeeded (node : NodeId)
  | NoteDrainingExcluded (node : NodeId)
  | NoteNeededForMemory (node : NodeId) (have n_layers : Z)
  | NoteIncludedGain (node : NodeId) (gain cur with_ : fl)
  | NoteGainTooSmall (node : NodeId) (gain cur with_ : fl)
  | NoteNoGain (node : NodeId) (cur with_ : fl).

Inductive ExplainLine :=
  | XSoloM3 (node : NodeId) (weights_mb budget_mb pct usable_mb ctx_len : Z) (forced : bool)
  | XSolo (node : NodeId) (weights_mb kv_mb ctx_len together_mb budget_mb usable_mb reserve_mb : Z)
      (forced : bool)
  | XPipeline (nodes : Z) (why : Why)
  | XStageM3 (stage : Z) (is_head : bool) (node : NodeId) (start stop layers weight_mb util_pct
      budget_mb : Z)
  | XStage (stage : Z) (is_head : bool) (node : NodeId) (start stop layers weight_mb kv_mb util_pct
      budget_mb : Z)
  | XKvBudget (kv_mb ctx_len kv_rate reserve_mb : Z)
  | XKvBudgetV2 (kv_mb ctx_len kv_rate reserve_mb base_mb copies_mb n_ubatch : Z)
  | XBoundaries (hops : list (NodeId * NodeId * fl)) (total : fl)
  | XTransfer (kib : Z) (priced : list (NodeId * NodeId * fl * fl)) (total : fl)
  | XDecodeCost (tpt : fl)
  | XDecodeCostV2 (tpt prefill_cost : fl)
  | XCandidateSearch (considered variants : Z) (tilt : Tilt) (underweighted : bool)
  | XMoeScaled (n_expert n_expert_used : Z)
  | XMoeDense (n_expert n_expert_used : Z)
  | XUbatch (n_ubatch : Z)
  | XBinding (node : NodeId) (pct : Z)
  | XNote (note : SelectionNote)
  | XDropped (node : NodeId) (budget_mb : Z).

Record PlannedPlacement := MkPlaced {
  pp_plan : Plan;
  pp_tensor_split : list fl;
  pp_explanation : list ExplainLine }.

(** 85% of usable memory, through [u128]. *)
Definition budget (usable_memory_bytes : Z) : Z :=
  wrap64 (usable_memory_bytes * UTILIZATION_CEILING_PCT / 100).

Definition mb_ceil (bytes : Z) : Z := div_ceil bytes MIB.
Definition mb_floor (bytes : Z) : Z := bytes / MIB.

(** [Some(0)] means automatic. *)
Definition norm_forced (forced_nodes : option Z) : option Z :=
  match forced_nodes with Some n => if n =? 0 then None else Some n | None => None end.

Definition solo_placement (input : PlanInput) (head_budget : Z) (forced : bool) : PlannedPlacement :=
  let head := pi_head input in
  MkPlaced
    (MkPlan (MkEpoch 0) "" Solo
       [MkAssignment (nb_node head) (MkLayerRange 0 (pi_n_layers input)) 0]
       (pi_ctx_len input))
    [of_Z b32 1]
    [XSoloM3 (nb_node head) (mb_ceil (pi_model_bytes input)) (mb_floor head_budget)
       UTILIZATION_CEILING_PCT (mb_floor (nb_usable_memory_bytes head)) (pi_ctx_len input) forced].

(** ** Worker selection: the [n - 1] largest, kept in stage order *)
Definition cmp_worker (workers : list NodeBudget) (i j : nat) : comparison :=
  let mem i := default 0 (nb_usable_memory_bytes <$> workers !! i) in
  cmp_then (mem j ?= mem i) (Nat.compare i j).

Definition largest_workers (workers : list NodeBudget) (keep : nat) : list NodeBudget :=
  let order := sort_by (cmp_worker workers) (seq 0 (length workers)) in
  let chosen := sort_by Nat.compare (take keep order) in
  omap (λ i, workers !! i) chosen.

Definition selected_workers (input : PlanInput) (forced : option Z) : list NodeBudget :=
  match forced with
  | Some n => largest_workers (pi_workers input) (Z.to_nat (n - 1))
  | None => pi_workers input
  end.

(** ** Largest-remainder apportionment over the pooled budget *)
Definition quota_floor (n_layers pooled b : Z) : Z := wrap32 (n_layers * b / pooled).
Definition quota_rem (n_layers pooled b : Z) : Z := (n_layers * b) mod pooled.

(** Descending remainder, then descending budget, then stage order. *)
Definition cmp_remainder (a b : Z * Z * nat) : comparison :=
  cmp_then (b.1.1 ?= a.1.1) (cmp_then (b.1.2 ?= a.1.2) (Nat.compare a.2 b.2)).

(** Hand the leftover layers out, one each, in remainder order. *)
Fixpoint hand_out (order : list (Z * Z * nat)) (leftover : Z) (counts : list Z) : list Z :=
  match order with
  | [] => counts
  | (_, _, i) :: order =>
      if leftover =? 0 then counts
      else hand_out order (u32_sub leftover 1) (alter (λ c, u32_add c 1) i counts)
  end.

Definition apportion_m3 (n_layers : Z) (budgets : list Z) : res ScheduleError (list Z) :=
  let pooled := u64_sum budgets in
  if pooled =? 0 then (match budgets with [] => Ok [] | _ => Panic end)
  else
    let floors := quota_floor n_layers pooled <$> budgets in
    let leftover := u32_sub n_layers (u32_sum floors) in
    let remainders := imap (λ i b, (quota_rem n_layers pooled b, b, i)) budgets in
    Ok (hand_out (sort_by cmp_remainder remainders) leftover floors).

(** ** Assembly of the assignments *)
Record AsmM3 := MkAsmM3 {
  am_assignments : list Assignment;
  am_split : list fl;
  am_dropped : list NodeBudget;
  am_prose : list ExplainLine;
  am_binding : option (nat * Z);
  am_cursor : Z;
  am_stage : Z }.

Definition update_binding (binding : option (nat * Z)) (idx : nat) (util_pct : Z) : option (nat * Z) :=
  match binding with
  | None => Some (idx, util_pct)
  | Some (_, best) => if best <? util_pct then Some (idx, util_pct) else binding
  end.

Definition asm_m3_step (input : PlanInput) (n_parts : nat) (st : AsmM3)
    (part : nat * (NodeBudget * (Z * Z))) : AsmM3 :=
  let '(i, (node, (b, layers))) := part in
  if layers =? 0 then
    MkAsmM3 (am_assignments st) (am_split st) (am_dropped st ++ [node]) (am_prose st)
      (am_binding st) (am_cursor st) (am_stage st)
  else
    let stop := u32_add (am_cursor st) layers in
    let weight_bytes := wrap64 (layers * pi_model_bytes input / Z.max (pi_n_layers input) 1) in
    let util_pct := if b =? 0 then u64_max else wrap64 (weight_bytes * 100 / b) in
    MkAsmM3
      (am_assignments st ++
         [MkAssignment (nb_node node) (MkLayerRange (am_cursor st) stop) (am_stage st)])
      (am_split st ++ [fdiv b32 (of_Z b32 layers) (of_Z b32 (pi_n_layers input))])
      (am_dropped st)
      (am_prose st ++
         [XStageM3 (am_stage st) (Nat.eqb i (n_parts - 1)) (nb_node node) (am_cursor st) stop layers
            (mb_ceil weight_bytes) util_pct (mb_floor b)])
      (update_binding (am_binding st) (length (am_assignments st)) util_pct)
      stop (u32_add (am_stage st) 1).

Definition asm_m3_init : AsmM3 := MkAsmM3 [] [] [] [] None 0 0.

Definition assemble_m3 (input : PlanInput) (participants : list NodeBudget)
    (budgets counts : list Z) : AsmM3 :=
  foldl (asm_m3_step input (length participants)) asm_m3_init
    (enumerate (zip participants (zip budgets counts))).

Definition binding_lines (assignments : list Assignment) (binding : option (nat * Z)) :
    list ExplainLine :=
  match binding with
  | Some (idx, pct) => match assignments !! idx with
                       | Some a => [XBinding (a_node a) pct]
                       | None => []
                       end
  | None => []
  end.

Definition why_m3 (input : PlanInput) (forced : option Z) (head_budget : Z) (solo_fits : bool) : Why :=
  match forced with
  | Some n => if solo_fits then WhyForcedButFits n
              else WhyForced n (mb_ceil (pi_model_bytes input)) (mb_floor head_budget)
  | None => WhyExceedsHeadM3 (mb_ceil (pi_model_bytes input)) (mb_floor head_budget)
              UTILIZATION_CEILING_PCT (mb_floor (nb_usable_memory_bytes (pi_head input)))
  end.

Definition distributed_placement (input : PlanInput) (forced : option Z) (head_budget : Z)
    (solo_fits : bool) : res ScheduleError PlannedPlacement :=
  let participants := selected_workers input forced ++ [pi_head input] in
  let budgets := (λ p, budget (nb_usable_memory_bytes p)) <$> participants in
  let pooled := u64_sum budgets in
  if pooled <? pi_model_bytes input then
    Err (DoesNotFit (mb_ceil (pi_model_bytes input)) (mb_floor pooled))
  else
    counts ← apportion_m3 (pi_n_layers input) budgets;
    let st := assemble_m3 input participants budgets counts in
    Ok (MkPlaced
          (MkPlan (MkEpoch 0) "" PipelineParallel (am_assignments st) (pi_ctx_len input))
          (am_split st)
          (XPipeline (Z.of_nat (length (am_assignments st)))
             (why_m3 input forced head_budget solo_fits)
           :: am_prose st
           ++ binding_lines (am_assignments st) (am_binding st)
           ++ ((λ d, XDropped (nb_node d) (mb_floor (budget (nb_usable_memory_bytes d))))
                 <$> am_dropped st))).

(** [plan]: the M3 compatibility entry point. *)
Definition plan (input : PlanInput) : res ScheduleError PlannedPlacement :=
  let available := u32_add (wrap32 (Z.of_nat (length (pi_workers input)))) 1 in
  let forced := norm_forced (pi_forced_nodes input) in
  let head_budget := budget (nb_usable_memory_bytes (pi_head input)) in
  let solo_fits := pi_model_bytes input <=? head_budget in
  match forced with
  | Some requested =>
      if available <? requested then Err (NotEnoughNodes requested available)
      else if requested =? 1 then
        if solo_fits then Ok (solo_placement input head_budget true)
        else Err (DoesNotFit (mb_ceil (pi_model_bytes input)) (mb_floor head_budget))
      else distributed_placement input forced head_budget solo_fits
  | None =>
      if solo_fits then Ok (solo_placement input head_budget false)
      else distributed_placement input forced head_budget solo_fits
  end.

(** ** Largest-remainder apportionment *)

Lemma zsum_quota (n p : Z) (bs : list Z) :
  0 < p →
  p * zsum ((λ b, n * b / p) <$> bs) + zsum ((λ b, (n * b) mod p) <$> bs) = n * zsum bs.
Proof.
  intros Hp. induction bs as [|b bs IH]; [simpl; lia|]. rewrite !fmap_cons. simpl.
  pose proof (Z.div_mod (n * b) p ltac:(lia)). lia.
Qed.

Lemma zsum_lt_length p l :
  Forall (λ z, 0 ≤ z < p) l → l ≠ [] → zsum l < p * Z.of_nat (length l).
Proof.
  intros H Hne. destruct H as [|x l Hx Hl]; [done|]. clear Hne. simpl length.
  enough (zsum l ≤ p * Z.of_nat (length l)) by (simpl; lia).
  clear x Hx. induction Hl as [|x l Hx Hl IH]; simpl; lia.
Qed.

(** Distributing [leftover] layers, one per index, over distinct indices. *)
Lemma hand_out_spec order leftover counts :
  NoDup order.*2 →
  Forall (λ i, (i < length counts)%nat) order.*2 →
  Forall (λ c, 0 ≤ c) counts →
  0 ≤ leftover ≤ Z.of_nat (length order) →
  zsum counts + leftover < 2 ^ 32 →
  let r := hand_out order leftover counts in
  length r = length counts ∧ zsum r = zsum counts + leftover ∧
  ∀ i c, counts !! i = Some c →
    r !! i = Some c ∨ (i ∈ order.*2 ∧ r !! i = Some (c + 1)).
Proof.
  revert leftover counts. induction order as [|[[q b] i] order IH]; intros leftover counts
    Hnd Hlt Hnn Hl Hsum; simpl in *.
  { split; [done|]. split; [lia|]. auto. }
  destruct (Z.eqb_spec leftover 0) as [->|Hne].
  { split; [done|]. split; [lia|]. auto. }
  inversion Hnd as [|? ? Hi Hnd']; subst. inversion Hlt as [|? ? Hil Hlt']; subst.
  destruct (lookup_lt_is_Some_2 counts i Hil) as [c Hc].
  assert (c ≤ zsum counts) as Hcs
    by (apply zsum_elem_le; [done|]; by apply (list_elem_of_lookup_2 _ i)).
  assert (0 ≤ c) as Hc0 by (by eapply Forall_lookup_1 in Hnn; eauto).
  assert (alter (λ c0, u32_add c0 1) i counts = <[i:=c + 1]> counts) as ->.
  { apply list_eq. intros j. destruct (decide (i = j)) as [->|Hij].
    - rewrite list_lookup_alter_eq, Hc, list_lookup_insert_eq by done. simpl.
      unfold u32_add. by rewrite wrap32_small by (unfold in_u32; lia).
    - by rewrite list_lookup_alter_ne, list_lookup_insert_ne by done. }
  assert (u32_sub leftover 1 = leftover - 1) as ->
    by (unfold u32_sub; apply wrap32_small; unfold in_u32; pose proof (zsum_nonneg counts Hnn); lia).
  destruct (IH (leftover - 1) (<[i:=c + 1]> counts)) as (Hlen & Hs & Hp).
  - done.
  - by rewrite length_insert.
  - apply Forall_insert; [done|lia].
  - lia.
  - rewrite (zsum_insert _ _ _ _ Hc). lia.
  - rewrite length_insert in Hlen. split; [done|]. split; [rewrite Hs, (zsum_insert _ _ _ _ Hc); lia|].
    intros j d Hj. destruct (decide (i = j)) as [->|Hij].
    + assert (d = c) as -> by congruence. right. split; [by left|].
      destruct (Hp j (c + 1)) as [H|[H _]]; [by apply list_lookup_insert_eq|done|done].
    + destruct (Hp j d) as [H|[H H']]; [by rewrite list_lookup_insert_ne|by left|].
      right. split; [by right|done].
Qed.

#[global] Instance cmp_remainder_ok : CmpOk cmp_remainder.
Proof.
  apply (cmp_then_ok (λ a b : Z * Z * nat, b.1.1 ?= a.1.1)
           (λ a b : Z * Z * nat, cmp_then (b.1.2 ?= a.1.2) (Nat.compare a.2 b.2))).
  - apply (flip_ok (cmp_key (λ a : Z * Z * nat, a.1.1))), _.
  - apply (cmp_then_ok (λ a b : Z * Z * nat, b.1.2 ?= a.1.2)
             (λ a b : Z * Z * nat, Nat.compare a.2 b.2)).
    + apply (flip_ok (cmp_key (λ a : Z * Z * nat, a.1.2))), _.
    + split; [intros x y; apply Nat.compare_antisym|].
      intros x y z. unfold cmp_le. rewrite !Nat.compare_le_iff. lia.
Qed.

(** The apportionment is total, sums to the layer count, and gives every
    participant its exact quota rounded down or up. *)
Lemma apportion_m3_spec n_layers budgets :
  in_u32 n_layers → Forall (λ b, 0 ≤ b) budgets → 0 < zsum budgets < 2 ^ 64 →
  ∃ counts, apportion_m3 n_layers budgets = Ok counts ∧
    length counts = length budgets ∧ zsum counts = n_layers ∧
    ∀ i b, budgets !! i = Some b → ∃ c, counts !! i = Some c ∧
      n_layers * b / zsum budgets ≤ c ≤ n_layers * b / zsum budgets + 1.
Proof.
  intros Hn Hb Hp. unfold in_u32 in Hn. unfold apportion_m3.
  rewrite u64_sum_exact by (done || lia). set (p := zsum budgets) in *.
  destruct (Z.eqb_spec p 0); [lia|].
  assert (∀ b, b ∈ budgets → 0 ≤ n_layers * b / p ≤ n_layers) as Hq.
  { intros b Hin. pose proof (zsum_elem_le _ _ Hb Hin).
    rewrite list.Forall_forall in Hb. specialize (Hb _ Hin). split; [apply Z.div_pos; nia|].
    apply Z.div_le_upper_bound; nia. }
  assert (quota_floor n_layers p <$> budgets = (λ b, n_layers * b / p) <$> budgets) as ->.
  { apply list_fmap_ext. intros i b Hi. apply wrap32_small.
    unfold in_u32. specialize (Hq b (list_elem_of_lookup_2 _ _ _ Hi)). lia. }
  set (floors := (λ b, n_layers * b / p) <$> budgets).
  set (rems := imap (λ i b, (quota_rem n_layers p b, b, i)) budgets).
  pose proof (zsum_quota n_layers p budgets ltac:(lia)) as Hsum. fold p floors in Hsum.
  assert (Forall (λ z, 0 ≤ z < p) ((λ b, (n_layers * b) mod p) <$> budgets)) as Hr.
  { apply Forall_fmap, Forall_true. intros b. apply Z.mod_pos_bound. lia. }
  assert (budgets ≠ []) as Hne by (intros ->; simpl in p; lia).
  pose proof (zsum_lt_length _ _ Hr ltac:(by destruct budgets)) as Hlt. rewrite length_fmap in Hlt.
  assert (0 ≤ zsum ((λ b, (n_layers * b) mod p) <$> budgets)) as Hr0.
  { apply zsum_nonneg. eapply Forall_impl; [exact Hr|]. simpl. lia. }
  assert (Forall (λ c, 0 ≤ c) floors) as Hf0.
  { apply Forall_fmap, list.Forall_forall. intros b Hin. simpl. by apply Hq. }
  pose proof (zsum_nonneg _ Hf0) as Hfs.
  assert (0 ≤ n_layers - zsum floors ≤ Z.of_nat (length budgets)) as Hleft by nia.
  rewrite u32_sum_exact by (done || lia).
  assert (u32_sub n_layers (zsum floors) = n_layers - zsum floors) as ->
    by (apply wrap32_small; unfold in_u32; lia).
  pose proof (sort_by_Permutation cmp_remainder rems) as Hperm.
  assert (rems.*2 = seq 0 (length budgets)) as Hidx.
  { unfold rems. clear. apply list_eq. intros i. rewrite list_lookup_fmap, list_lookup_imap.
    destruct (decide (i < length budgets)%nat) as [Hi|Hi].
    - destruct (lookup_lt_is_Some_2 _ _ Hi) as [b ->]. simpl. rewrite lookup_seq_lt by done. done.
    - rewrite (lookup_ge_None_2 budgets) by lia. rewrite lookup_seq_ge by lia. done. }
  assert ((sort_by cmp_remainder rems).*2 ≡ₚ seq 0 (length budgets)) as Hidx'
    by (by rewrite Hperm, Hidx).
  destruct (hand_out_spec (sort_by cmp_remainder rems) (n_layers - zsum floors) floors)
    as (H1 & H2 & H3).
  - rewrite Hidx'. apply NoDup_seq.
  - rewrite Hidx'. apply list.Forall_forall. intros i Hi%elem_of_seq.
    unfold floors. rewrite length_fmap. lia.
  - done.
  - rewrite length_sort_by. unfold rems. rewrite length_imap. done.
  - lia.
  - eexists. split; [reflexivity|].
    split; [rewrite H1; unfold floors; by rewrite length_fmap|].
    split; [rewrite H2; lia|]. intros i b Hi.
    destruct (H3 i (n_layers * b / p)) as [H|[_ H]].
    { unfold floors. by rewrite list_lookup_fmap, Hi. }
    + exists (n_layers * b / p). split; [done|lia].
    + exists (n_layers * b / p + 1). split; [done|lia].
Qed.

(** ** Assembly *)

(** The invariant of an assembly loop: the assignments so far tile
    [0, cursor), carry their stage numbers, and match the tensor split. *)
Definition asm_inv (assignments : list Assignment) (split : list fl) (cursor : Z) : Prop :=
  tiles 0 (a_layers <$> assignments) cursor ∧
  a_stage <$> assignments = Z.of_nat <$> seq 0 (length assignments) ∧
  length split = length assignments ∧
  Z.of_nat (length assignments) ≤ cursor.

Lemma asm_inv_nil : asm_inv [] [] 0.
Proof. repeat split; simpl; lia. Qed.

Lemma asm_inv_snoc assignments split cursor node layers x :
  asm_inv assignments split cursor → 0 < layers →
  asm_inv (assignments ++ [MkAssignment node (MkLayerRange cursor (cursor + layers))
                             (Z.of_nat (length assignments))])
    (split ++ [x]) (cursor + layers).
Proof.
  intros (Ht & Hs & Hl & Hc) Hlay. unfold asm_inv.
  rewrite !fmap_app, !length_app. simpl. split; [|split; [|split]].
  - apply tiles_snoc; [done|lia].
  - rewrite Hs, seq_app, fmap_app. simpl. done.
  - lia.
  - lia.
Qed.

Lemma asm_m3_fold input np parts st :
  asm_inv (am_assignments st) (am_split st) (am_cursor st) →
  am_stage st = Z.of_nat (length (am_assignments st)) →
  Forall (λ p, 0 ≤ p.2.2.2) parts →
  am_cursor st + zsum ((λ p, p.2.2.2) <$> parts) < 2 ^ 32 →
  let st' := foldl (asm_m3_step input np) st parts in
  asm_inv (am_assignments st') (am_split st') (am_cursor st') ∧
  am_cursor st' = am_cursor st + zsum ((λ p, p.2.2.2) <$> parts) ∧
  a_node <$> am_assignments st' =
    (a_node <$> am_assignments st) ++
    ((λ p, nb_node p.2.1) <$> filter (λ p, p.2.2.2 ≠ 0) parts).
Proof.
  revert st. induction parts as [|[i [node [b layers]]] parts IH];
    intros st Hinv Hst Hnn Hlt.
  { simpl. split; [done|]. split; [lia|]. by rewrite app_nil_r. }
  rewrite fmap_cons in Hlt |- *. simpl in Hlt |- *.
  inversion Hnn as [|? ? Hl Hnn']; subst; simpl in *.
  assert (0 ≤ zsum ((λ p, p.2.2.2) <$> parts)) as Hz
    by (apply zsum_nonneg; by apply Forall_fmap).
  assert (0 ≤ am_cursor st) as Hc0 by (destruct Hinv as (_ & _ & _ & ?); lia).
  set (step := asm_m3_step input np) in *.
  destruct (step st (i, (node, (b, layers)))) as [ass spl dr pr bi cu sta] eqn:Hstep.
  unfold step, asm_m3_step in Hstep. fold step in Hstep.
  destruct (Z.eqb_spec layers 0) as [->|Hne]; injection Hstep as <- <- <- <- <- <- <-.
  - rewrite filter_cons_False by (simpl; lia).
    destruct (IH (MkAsmM3 (am_assignments st) (am_split st) (am_dropped st ++ [node]) (am_prose st)
      (am_binding st) (am_cursor st) (am_stage st))) as (H1 & H2 & H3);
      [done|done|done|simpl; lia|].
    split; [done|]. split; [rewrite H2; simpl; lia|done].
  - rewrite filter_cons_True by done. rewrite fmap_cons.
    assert (u32_add (am_cursor st) layers = am_cursor st + layers) as ->
      by (apply wrap32_small; unfold in_u32; lia).
    assert (u32_add (am_stage st) 1 = am_stage st + 1) as ->.
    { apply wrap32_small. unfold in_u32. destruct Hinv as (_ & _ & _ & ?). lia. }
    match goal with |- context [foldl _ ?s parts] => set (st1 := s) end.
    destruct (IH st1) as (H1 & H2 & H3).
    + simpl. rewrite Hst. apply asm_inv_snoc; [done|lia].
    + simpl. rewrite length_app. simpl. lia.
    + done.
    + simpl. lia.
    + split; [done|]. split; [rewrite H2; simpl; lia|].
      rewrite H3. simpl. rewrite fmap_app. simpl. by rewrite <- app_assoc.
Qed.

Lemma length_enumerate {A} (l : list A) : length (enumerate l) = length l.
Proof. unfold enumerate. rewrite length_zip_with, length_seq. lia. Qed.

Lemma enumerate_snd {A} (l : list A) : (enumerate l).*2 = l.
Proof. unfold enumerate. apply snd_zip. by rewrite length_seq. Qed.

Lemma assemble_m3_spec input participants budgets counts :
  length budgets = length participants → length counts = length participants →
  Forall (λ c, 0 ≤ c) counts → zsum counts < 2 ^ 32 →
  let st := assemble_m3 input participants budgets counts in
  asm_inv (am_assignments st) (am_split st) (zsum counts) ∧
  a_node <$> am_assignments st =
    (λ p, nb_node p.1) <$> filter (λ p, p.2 ≠ 0) (zip participants counts).
Proof.
  intros Hb Hc Hnn Hlt. unfold assemble_m3.
  set (parts := enumerate (zip participants (zip budgets counts))).
  assert ((λ p, p.2.2.2) <$> parts = counts) as Hcounts.
  { transitivity ((parts.*2).*2).*2; [by rewrite <- !list_fmap_compose|].
    unfold parts. rewrite enumerate_snd, snd_zip by (rewrite length_zip_with; lia).
    apply snd_zip. lia. }
  assert (Forall (λ p, 0 ≤ p.2.2.2) parts) as Hnn'.
  { rewrite <- Hcounts in Hnn. rewrite Forall_fmap in Hnn. exact Hnn. }
  destruct (asm_m3_fold input (length participants) parts asm_m3_init) as (H1 & H2 & H3);
    [apply asm_inv_nil|done|done|rewrite Hcounts; simpl; lia|].
  rewrite Hcounts in H2. simpl in H2. rewrite H2 in H1. split; [done|].
  rewrite H3. simpl. unfold parts, enumerate. clear -Hb Hc.
  enough (∀ k, (λ p, nb_node p.2.1) <$> filter (λ p, p.2.2.2 ≠ 0)
            (zip (seq k (length (zip participants (zip budgets counts))))
               (zip participants (zip budgets counts))) =
          (λ p, nb_node p.1) <$> filter (λ p, p.2 ≠ 0) (zip participants counts)) as H
    by apply H.
  revert budgets counts Hb Hc. induction participants as [|p ps IH];
    intros [|b bs] [|c cs] Hb Hc k; simpl in *; try lia; [done..|].
  rewrite !filter_cons. simpl. specialize (IH bs cs ltac:(lia) ltac:(lia) (S k)).
  destruct (decide (c ≠ 0)); simpl; [by f_equal|done].
Qed.

(** ** The M3 planner *)

(** Field widths of a [PlanInput], and memories whose sum is a [u64]. *)
Record plan_input_ok (input : PlanInput) : Prop := {
  pio_mem : Forall (λ p, 0 ≤ nb_usable_memory_bytes p) (pi_head input :: pi_workers input);
  pio_sum : zsum (nb_usable_memory_bytes <$> pi_head input :: pi_workers input) < 2 ^ 64;
  pio_model : in_u64 (pi_model_bytes input);
  pio_layers : 0 < pi_n_layers input < 2 ^ 32;
  pio_workers : Z.of_nat (length (pi_workers input)) < 2 ^ 32 - 1 }.

Lemma budget_exact u : 0 ≤ u < 2 ^ 64 → budget u = u * 85 / 100.
Proof.
  intros Hu. unfold budget, UTILIZATION_CEILING_PCT. apply wrap64_small. unfold in_u64.
  split; [apply Z.div_pos; lia|]. apply Z.div_lt_upper_bound; lia.
Qed.

Lemma budget_bounds u : 0 ≤ u < 2 ^ 64 → 0 ≤ budget u ≤ u.
Proof.
  intros Hu. rewrite budget_exact by done. split; [apply Z.div_pos; lia|].
  apply Z.div_le_upper_bound; lia.
Qed.

Lemma zsum_sublist l k : l `sublist_of` k → Forall (λ z, 0 ≤ z) k → zsum l ≤ zsum k.
Proof.
  induction 1 as [|x l k _ IH|x l k _ IH]; intros Hk; simpl; [lia|..];
    inversion Hk; subst; specialize (IH ltac:(done)); lia.
Qed.

Lemma zsum_budgets_le ps :
  Forall (λ p, 0 ≤ nb_usable_memory_bytes p) ps → zsum (nb_usable_memory_bytes <$> ps) < 2 ^ 64 →
  Forall (λ b, 0 ≤ b) ((λ p, budget (nb_usable_memory_bytes p)) <$> ps) ∧
  0 ≤ zsum ((λ p, budget (nb_usable_memory_bytes p)) <$> ps)
    ≤ zsum (nb_usable_memory_bytes <$> ps).
Proof.
  induction 1 as [|p ps Hp Hps IH]; intros Hlt; [simpl; split; [constructor|lia]|].
  rewrite !fmap_cons in *. simpl in *.
  assert (0 ≤ zsum (nb_usable_memory_bytes <$> ps)) by (apply zsum_nonneg; by rewrite Forall_fmap).
  destruct IH as [H1 H2]; [lia|].
  pose proof (budget_bounds (nb_usable_memory_bytes p) ltac:(lia)).
  split; [constructor; [lia|done]|lia].
Qed.

(** Choosing workers keeps them in stage order. *)
Lemma omap_lookup_sublist {A} (l : list A) (idx : list nat) :
  StronglySorted lt idx → omap (λ i, l !! i) idx `sublist_of` l.
Proof.
  intros Hs.
  enough (∀ k, Forall (λ i, (k ≤ i)%nat) idx → omap (λ i, l !! i) idx `sublist_of` drop k l) as H.
  { specialize (H O). rewrite drop_0 in H. apply H, Forall_true. lia. }
  induction Hs as [|i idx Hs IH Hi]; intros k Hk; simpl; [apply sublist_nil_l|].
  inversion Hk as [|? ? Hki Hk']; subst.
  assert (omap (λ i0, l !! i0) idx `sublist_of` drop (S i) l) as Hrec.
  { apply IH. eapply Forall_impl; [exact Hi|]. simpl. lia. }
  assert (drop i l `sublist_of` drop k l) as Hdrop.
  { replace i with (k + (i - k))%nat by lia. rewrite <- drop_drop. apply sublist_drop. }
  destruct (l !! i) as [x|] eqn:E; simpl.
  - etransitivity; [|exact Hdrop]. rewrite (drop_S _ _ _ E). by constructor.
  - etransitivity; [exact Hrec|]. etransitivity; [|exact Hdrop].
    replace (S i) with (i + 1)%nat by lia. rewrite <- drop_drop. apply sublist_drop.
Qed.

Lemma StronglySorted_nat_strict l :
  StronglySorted (cmp_le Nat.compare) l → NoDup l → StronglySorted lt l.
Proof.
  induction 1 as [|x l Hs IH Hx]; intros Hnd; [constructor|].
  inversion Hnd as [|? ? Hni Hnd']; subst. constructor; [by apply IH|].
  rewrite list.Forall_forall in *. intros y Hy. specialize (Hx y Hy). unfold cmp_le in Hx.
  rewrite Nat.compare_le_iff in Hx. assert (x ≠ y) by (by intros ->). lia.
Qed.

#[global] Instance cmp_worker_ok ws : CmpOk (cmp_worker ws).
Proof.
  set (mem := λ i, default 0 (nb_usable_memory_bytes <$> ws !! i)).
  apply (cmp_then_ok (λ i j, mem j ?= mem i) Nat.compare);
    [apply (flip_ok (cmp_key mem)), _|apply _].
Qed.

(** The chosen indices: increasing, [keep] of them, and none smaller than one
    left out. *)
Lemma largest_workers_idx ws keep :
  ∃ idx, largest_workers ws keep = omap (λ i, ws !! i) idx ∧ StronglySorted lt idx ∧
    length idx = Nat.min keep (length ws) ∧ Forall (λ i, (i < length ws)%nat) idx ∧
    ∀ i j wi wj, i ∈ idx → j ∉ idx → ws !! i = Some wi → ws !! j = Some wj →
      nb_usable_memory_bytes wj ≤ nb_usable_memory_bytes wi.
Proof.
  unfold largest_workers. set (order := sort_by (cmp_worker ws) (seq 0 (length ws))).
  exists (sort_by Nat.compare (take keep order)). split; [done|].
  assert (order ≡ₚ seq 0 (length ws)) as Hperm by apply sort_by_Permutation.
  assert (NoDup order) as Hnd by (rewrite Hperm; apply NoDup_seq).
  pose proof (sort_by_Permutation Nat.compare (take keep order)) as Hperm2.
  rewrite <- (take_drop keep order) in Hnd. apply NoDup_app in Hnd as (Hnd1 & _ & _).
  split; [apply StronglySorted_nat_strict; [apply sort_by_Sorted, _|by rewrite Hperm2]|].
  split; [rewrite length_sort_by, length_take; unfold order; by rewrite length_sort_by, length_seq|].
  split.
  { apply list.Forall_forall. intros i Hi. rewrite Hperm2 in Hi.
    apply elem_of_take in Hi as (k & Hk & _). apply list_elem_of_lookup_2 in Hk.
    rewrite Hperm in Hk. apply elem_of_seq in Hk. lia. }
  intros i j wi wj Hi Hj Hwi Hwj. rewrite Hperm2 in Hi, Hj.
  assert (j ∈ drop keep order) as Hjd.
  { assert (j ∈ order) as Hjo.
    { rewrite Hperm. apply elem_of_seq. apply lookup_lt_Some in Hwj. lia. }
    rewrite <- (take_drop keep order) in Hjo. apply elem_of_app in Hjo as [|]; done. }
  pose proof (StronglySorted_take_drop _ keep order i j (sort_by_Sorted _ _) Hi Hjd) as Hle.
  unfold cmp_le, cmp_worker in Hle. rewrite Hwi, Hwj in Hle. simpl in Hle.
  destruct (Z.compare_spec (nb_usable_memory_bytes wj) (nb_usable_memory_bytes wi)); simpl in *; try lia.
  by exfalso.
Qed.

Lemma selected_workers_sublist input forced :
  selected_workers input forced `sublist_of` pi_workers input.
Proof.
  destruct forced as [n|]; simpl; [|done].
  destruct (largest_workers_idx (pi_workers input) (Z.to_nat (n - 1))) as (idx & -> & Hs & _).
  by apply omap_lookup_sublist.
Qed.

Section plan_m3.
Context (input : PlanInput) (Hok : plan_input_ok input).

Definition participants_m3 (forced : option Z) : list NodeBudget :=
  selected_workers input forced ++ [pi_head input].
Definition budgets_m3 (forced : option Z) : list Z :=
  (λ p, budget (nb_usable_memory_bytes p)) <$> participants_m3 forced.

Lemma participants_m3_sublist forced :
  participants_m3 forced `sublist_of` pi_workers input ++ [pi_head input].
Proof. apply sublist_app; [apply selected_workers_sublist|done]. Qed.

Lemma budgets_m3_ok forced :
  Forall (λ b, 0 ≤ b) (budgets_m3 forced) ∧ 0 ≤ zsum (budgets_m3 forced) < 2 ^ 64.
Proof using Hok.
  destruct Hok as [Hmem Hsum _ _ _].
  pose proof (participants_m3_sublist forced) as Hsub.
  assert (Forall (λ p, 0 ≤ nb_usable_memory_bytes p) (pi_workers input ++ [pi_head input])) as Hall.
  { rewrite (Permutation_app_comm _ [_]). done. }
  assert (Forall (λ p, 0 ≤ nb_usable_memory_bytes p) (participants_m3 forced)) as Hp.
  { rewrite list.Forall_forall in *. intros p Hp'. apply Hall. by eapply elem_of_sublist. }
  assert (zsum (nb_usable_memory_bytes <$> participants_m3 forced) < 2 ^ 64) as Hlt.
  { eapply Z.le_lt_trans; [|exact Hsum].
    change (pi_head input :: pi_workers input) with ([pi_head input] ++ pi_workers input).
    rewrite (Permutation_app_comm [pi_head input]).
    apply zsum_sublist; [by apply fmap_sublist|]. by rewrite Forall_fmap. }
  destruct (zsum_budgets_le _ Hp Hlt) as [H1 H2]. unfold budgets_m3. split; [done|lia].
Qed.

(** A distributed M3 placement: refused exactly when the pool is too small,
    otherwise a contiguous placement of the whole model. *)
Lemma distributed_m3_spec forced head_budget solo_fits :
  0 < zsum (budgets_m3 forced) ∨ 0 < pi_model_bytes input →
  let pooled := zsum (budgets_m3 forced) in
  (pooled < pi_model_bytes input ∧
   distributed_placement input forced head_budget solo_fits =
     Err (DoesNotFit (mb_ceil (pi_model_bytes input)) (mb_floor pooled))) ∨
  (pi_model_bytes input ≤ pooled ∧
   ∃ pl, distributed_placement input forced head_budget solo_fits = Ok pl ∧
     placement_ok (pi_n_layers input) (pp_plan pl) ∧
     length (pp_tensor_split pl) = length (p_assignments (pp_plan pl)) ∧
     a_node <$> p_assignments (pp_plan pl) `sublist_of` nb_node <$> participants_m3 forced).
Proof using Hok.
  intros Hpos. destruct (budgets_m3_ok forced) as [Hb Hsum].
  pose proof Hok as [_ _ _ Hn _]. simpl.
  unfold distributed_placement. fold (participants_m3 forced). fold (budgets_m3 forced).
  rewrite u64_sum_exact by (done || lia).
  destruct (Z.ltb_spec (zsum (budgets_m3 forced)) (pi_model_bytes input)) as [Hlt|Hge]; [by left|].
  right. split; [done|].
  destruct (apportion_m3_spec (pi_n_layers input) (budgets_m3 forced))
    as (counts & -> & Hlen & Hs & Hq); [unfold in_u32; lia|done|lia|].
  assert (length (budgets_m3 forced) = length (participants_m3 forced)) as Hlen'
    by (unfold budgets_m3; by rewrite length_fmap).
  assert (Forall (λ c, 0 ≤ c) counts) as Hnn.
  { apply Forall_lookup. intros i c Hc.
    destruct (lookup_lt_is_Some_2 (budgets_m3 forced) i) as [b Hbi].
    { rewrite <- Hlen. by eapply lookup_lt_Some. }
    destruct (Hq i b Hbi) as (c' & Hc' & Hle). simplify_eq.
    assert (0 ≤ b) by (by eapply Forall_lookup_1 in Hb; eauto).
    assert (0 ≤ pi_n_layers input * b / zsum (budgets_m3 forced)) by (apply Z.div_pos; nia). lia. }
  destruct (assemble_m3_spec input (participants_m3 forced) (budgets_m3 forced) counts)
    as [(Ht & Hst & Hspl & _) Hnodes]; [lia|lia|done|lia|]. rewrite Hs in Ht.
  eexists. split; [reflexivity|]. simpl. split; [by split|]. split; [done|].
  rewrite Hnodes. clear -Hlen Hlen'. revert Hlen'. rewrite <- Hlen. clear Hlen.
  generalize (participants_m3 forced). intros ps. revert counts.
  induction ps as [|p ps IH]; intros [|c cs] Hl; [done..|]. simpl in Hl.
  rewrite fmap_cons. simpl zip. rewrite filter_cons.
  case_decide; [rewrite fmap_cons|]; constructor; apply IH; lia.
Qed.
End plan_m3.

(** Every placement the M3 planner returns assigns all [n_layers] layers:
    the assignments carry stages 0, 1, ... in order, their layer ranges are
    non-empty and tile [0, n_layers) without gap or overlap, and the tensor
    split has one fraction per assignment. *)
Theorem plan_m3_contiguous input pl :
  plan_input_ok input → plan input = Ok pl →
  placement_ok (pi_n_layers input) (pp_plan pl) ∧
  length (pp_tensor_split pl) = length (p_assignments (pp_plan pl)).
Proof.
  intros Hok Hpl. pose proof Hok as [_ _ Hm Hn Hw]. unfold plan in Hpl.
  assert (∀ hb f, placement_ok (pi_n_layers input) (pp_plan (solo_placement input hb f)) ∧
    length (pp_tensor_split (solo_placement input hb f)) = 1%nat) as Hsolo.
  { intros hb f. split; [|done]. split; simpl; [lia|done]. }
  assert (∀ forced hb sf, distributed_placement input forced hb sf = Ok pl →
    placement_ok (pi_n_layers input) (pp_plan pl) ∧
    length (pp_tensor_split pl) = length (p_assignments (pp_plan pl))) as Hdist.
  { intros forced hb sf Hd.
    assert (0 < zsum (budgets_m3 input forced) ∨ 0 < pi_model_bytes input) as Hpos.
    { destruct (budgets_m3_ok input Hok forced) as [Hb Hsum].
      destruct (Z.eq_dec (zsum (budgets_m3 input forced)) 0) as [Hz|]; [right|left; lia].
      unfold distributed_placement in Hd. fold (participants_m3 input forced) in Hd.
      fold (budgets_m3 input forced) in Hd. rewrite u64_sum_exact in Hd by (done || lia).
      unfold apportion_m3 in Hd. rewrite u64_sum_exact, Hz in Hd by (done || lia).
      destruct (Z.ltb_spec 0 (pi_model_bytes input)); [done|]. simpl in Hd.
      destruct (budgets_m3 input forced) as [|b bs] eqn:E; [|done].
      unfold budgets_m3, participants_m3 in E. apply fmap_nil_inv in E.
      by apply app_nil in E as [_ ?]. }
    destruct (distributed_m3_spec input Hok forced hb sf Hpos)
      as [[_ He]|(_ & pl' & Hpl' & H1 & H2 & _)]; [congruence|].
    assert (pl' = pl) as -> by congruence. done. }
  destruct (norm_forced _) as [n|]; res_inv; eauto; by apply Hsolo.
Qed.

Definition ex_node (name : string) (gib : Z) : NodeBudget :=
  MkNodeBudget (MkNodeId name) (gib * 2 ^ 30).
Definition ex_plan_input (forced : option Z) : PlanInput :=
  MkPlanInput (ex_node "head" 8) [ex_node "a" 16; ex_node "b" 4; ex_node "c" 0] (18 * 2 ^ 30) 64 4096
    forced.

Lemma ex_plan_input_ok forced : plan_input_ok (ex_plan_input forced).
Proof. split; [repeat constructor; simpl; lia|vm_compute; done|split; simpl; lia|simpl; lia|simpl; lia]. Qed.

Lemma plan_m3_contiguous_witness :
  ∃ pl, plan (ex_plan_input None) = Ok pl ∧ placement_ok 64 (pp_plan pl) ∧
    length (p_assignments (pp_plan pl)) = 3%nat.
Proof.
  eexists. split; [vm_compute; reflexivity|]. split; [|vm_compute; reflexivity].
  apply (plan_m3_contiguous (ex_plan_input None)); [apply ex_plan_input_ok|vm_compute; reflexivity].
Defined.

(** In automatic mode the M3 planner succeeds exactly when the model's
    weights fit the pooled 85% budgets of all nodes; otherwise it refuses with
    [DoesNotFit] carrying the rounded-up need and the rounded-down pool.  It
    never panics on a non-empty model. *)
Theorem plan_m3_auto_feasible input :
  plan_input_ok input → 0 < pi_model_bytes input → norm_forced (pi_forced_nodes input) = None →
  let pooled := zsum ((λ p, budget (nb_usable_memory_bytes p)) <$>
                        pi_workers input ++ [pi_head input]) in
  if pi_model_bytes input <=? pooled then ∃ pl, plan input = Ok pl
  else plan input = Err (DoesNotFit (mb_ceil (pi_model_bytes input)) (mb_floor pooled)).
Proof.
  intros Hok Hm Hf pooled. unfold plan. rewrite Hf.
  destruct (budgets_m3_ok input Hok None) as [Hb _].
  set (hb := budget (nb_usable_memory_bytes (pi_head input))).
  assert (hb ≤ pooled) as Hhead.
  { apply (zsum_elem_le (budgets_m3 input None)); [done|]. unfold budgets_m3, participants_m3.
    rewrite fmap_app. apply elem_of_app. right. by left. }
  destruct (Z.leb_spec (pi_model_bytes input) hb) as [Hfits|Hno].
  { destruct (Z.leb_spec (pi_model_bytes input) pooled); [by eexists|lia]. }
  destruct (distributed_m3_spec input Hok None hb false ltac:(by right))
    as [[Hlt ->]|(Hle & pl & -> & _)];
    change (zsum (budgets_m3 input None)) with pooled in *;
    destruct (Z.leb_spec (pi_model_bytes input) pooled); try lia; [done|by eexists].
Qed.

Lemma plan_m3_auto_feasible_witness : ∃ pl, plan (ex_plan_input None) = Ok pl.
Proof.
  apply (plan_m3_auto_feasible (ex_plan_input None)); [apply ex_plan_input_ok|simpl; lia|reflexivity].
Defined.

(** The largest-remainder apportionment never panics on a non-empty pool,
    distributes exactly [n_layers] layers, and each participant's count is
    within one layer of its exact rational share [n_layers * b / pooled]. *)
Theorem apportion_m3_within_one_layer n_layers budgets :
  in_u32 n_layers → Forall (λ b, 0 ≤ b) budgets → 0 < zsum budgets < 2 ^ 64 →
  ∃ counts, apportion_m3 n_layers budgets = Ok counts ∧
    length counts = length budgets ∧ zsum counts = n_layers ∧
    ∀ i b c, budgets !! i = Some b → counts !! i = Some c →
      Z.abs (c * zsum budgets - n_layers * b) ≤ zsum budgets.
Proof.
  intros Hn Hb Hp. destruct (apportion_m3_spec n_layers budgets Hn Hb Hp)
    as (counts & Hc & Hl & Hs & Hq).
  exists counts. split; [done|]. split; [done|]. split; [done|]. intros i b c Hbi Hci.
  destruct (Hq i b Hbi) as (c' & Hc' & Hle). assert (c' = c) as -> by congruence.
  pose proof (Z.div_mod (n_layers * b) (zsum budgets) ltac:(lia)).
  pose proof (Z.mod_pos_bound (n_layers * b) (zsum budgets) ltac:(lia)).
  apply Z.abs_le. nia.
Qed.

Lemma apportion_m3_within_one_layer_witness :
  ∃ counts, apportion_m3 7 [3; 3; 1] = Ok counts ∧ length counts = 3%nat ∧ zsum counts = 7 ∧
    ∀ i b c, [3; 3; 1] !! i = Some b → counts !! i = Some c →
      Z.abs (c * zsum [3; 3; 1] - 7 * b) ≤ zsum [3; 3; 1].
Proof.
  apply (apportion_m3_within_one_layer 7 [3; 3; 1]);
    [split; simpl; lia|repeat constructor; lia|simpl; lia].
Defined.

(** [--nodes n] keeps the [n - 1] workers with the most memory, in their
    original stage order: the selection is a subsequence of the workers, and no
    worker left out has more memory than one that was kept. *)
Theorem largest_workers_are_largest workers keep :
  ∃ idx, largest_workers workers keep = omap (λ i, workers !! i) idx ∧ StronglySorted lt idx ∧
    length (largest_workers workers keep) = Nat.min keep (length workers) ∧
    ∀ i j wi wj, i ∈ idx → j ∉ idx → workers !! i = Some wi → workers !! j = Some wj →
      nb_usable_memory_bytes wj ≤ nb_usable_memory_bytes wi.
Proof.
  destruct (largest_workers_idx workers keep) as (idx & H1 & H2 & H3 & H4 & H5).
  exists idx. split; [done|]. split; [done|]. split; [|done].
  rewrite H1, <- H3. clear -H4. induction H4 as [|i idx Hi _ IH]; [done|]. simpl.
  destruct (lookup_lt_is_Some_2 _ _ Hi) as [w ->]. simpl. f_equal. exact IH.
Qed.
