(* ===== verification/Gguf.v ===== *)
(** * GGUF header parsing

    Models [crates/onebrain-models/src/gguf.rs]: the bounds-checked cursor, the
    metadata and tensor-info parser for versions 2 and 3, and the byte range of
    every tensor.  Bytes are [ascii] characters (eight bits each), a Rust
    [String] is a [string] of UTF-8 bytes, and the [f32]/[f64] metadata values
    are kept as their bit patterns. *)

From Stdlib Require Import ZArith Lia Sorted Permutation Ascii.
From S2P Require Import Prelude.
From stdpp Require Import base list strings gmap.

Open Scope Z_scope.

Abbreviation bytes := (list ascii).

Definition GGUF_MAGIC : Z := 0x46554747.
Definition GGUF_DEFAULT_ALIGNMENT : Z := 32.

(** The messages of [GgufError::Malformed]. *)
Inductive MalformedReason :=
  | TooManyDims
  | OffsetsExceedFile
  | LengthOverflow
  | LongString
  | NotUtf8
  | NestedArrays
  | UnknownValueType.

Inductive GgufError :=
  | BadMagic
  | UnsupportedVersion (v : Z)
  | NeedMoreData (need_hint : Z)
  | Malformed (why : MalformedReason).

Inductive MetaValue :=
  | U8 (v : Z) | I8 (v : Z) | U16 (v : Z) | I16 (v : Z) | U32 (v : Z) | I32 (v : Z)
  | F32 (bits : Z) | VBool (b : bool) | Str (s : string)
  | U64 (v : Z) | I64 (v : Z) | F64 (bits : Z)
  | Arr (items : list MetaValue).

Definition as_u64 (v : MetaValue) : option Z :=
  match v with
  | U8 v | U16 v | U32 v | U64 v => Some v
  | I8 v | I16 v | I32 v | I64 v => if 0 <=? v then Some v else None
  | _ => None
  end.

Definition as_str (v : MetaValue) : option string :=
  match v with Str s => Some s | _ => None end.

Record TensorInfo := MkTensorInfo {
  ti_name : string; ti_dims : list Z; ti_ggml_type : Z; ti_offset : Z }.

Record GgufHeader := MkHeader {
  gh_version : Z;
  gh_metadata : gmap string MetaValue;
  gh_tensors : list TensorInfo;
  gh_header_len : Z;
  gh_alignment : Z;
  gh_data_offset : Z }.

Record TensorRange := MkTensorRange { tr_name : string; tr_start : Z; tr_end : Z }.

(** ** UTF-8 validation ([String::from_utf8]) *)
Definition byte_val (b : ascii) : Z := Z.of_N (N_of_ascii b).
Definition byte_of (z : Z) : ascii := ascii_of_N (Z.to_N z).

Definition between (lo hi : Z) (b : ascii) : bool := (lo <=? byte_val b) && (byte_val b <=? hi).
Definition cont (b : ascii) : bool := between 0x80 0xBF b.

Fixpoint utf8_valid (l : bytes) : bool :=
  match l with
  | [] => true
  | a :: l1 =>
      if between 0 0x7F a then utf8_valid l1
      else match l1 with
      | [] => false
      | b :: l2 =>
          if between 0xC2 0xDF a then cont b && utf8_valid l2
          else match l2 with
          | [] => false
          | c :: l3 =>
              if between 0xE0 0xEF a then
                cont b && cont c
                && negb (between 0xE0 0xE0 a && (byte_val b <? 0xA0))
                && negb (between 0xED 0xED a && (0x9F <? byte_val b))
                && utf8_valid l3
              else match l3 with
              | [] => false
              | d :: l4 =>
                  between 0xF0 0xF4 a && cont b && cont c && cont d
                  && negb (between 0xF0 0xF0 a && (byte_val b <? 0x90))
                  && negb (between 0xF4 0xF4 a && (0x8F <? byte_val b))
                  && utf8_valid l4
              end
          end
      end
  end.

(** ** The cursor *)

(** A parser reads the whole input at a position and returns a value with the
    position after it. *)
Definition parser (A : Type) : Type := bytes → Z → res GgufError (A * Z).

#[global] Instance parser_ret : MRet parser := λ A a _ pos, Ok (a, pos).
#[global] Instance parser_bind : MBind parser := λ A B f p bs pos,
  '(a, pos) ← p bs pos; f a bs pos.

Definition pfail {A} (e : GgufError) : parser A := λ _ _, Err e.

(** [Cursor::take]: [n] bytes at the position, or a fetch hint. *)
Definition take_bytes (n : Z) : parser bytes := λ bs pos,
  let len := Z.of_nat (length bs) in
  let stop := pos + n in
  if 2 ^ 64 <=? stop then Err (Malformed LengthOverflow)
  else if len <? stop then Err (NeedMoreData (Z.max stop (u64_mul len 2)))
  else Ok (take (Z.to_nat n) (drop (Z.to_nat pos) bs), stop).

(** [from_le_bytes]. *)
Definition le_val (l : bytes) : Z := foldr (λ b acc, byte_val b + 256 * acc) 0 l.

(** Two's complement reinterpretation, [as iN]. *)
Definition to_signed (w v : Z) : Z := if v <? 2 ^ (w - 1) then v else v - 2 ^ w.

Definition read_uint (n : Z) : parser Z := bs ← take_bytes n; mret (le_val bs).
Definition read_u32 : parser Z := read_uint 4.
Definition read_u64 : parser Z := read_uint 8.

Definition read_string : parser string :=
  len ← read_u64;
  if 2 ^ 24 <? len then pfail (Malformed LongString)
  else
    raw ← take_bytes len;
    if utf8_valid raw then mret (String.string_of_list_ascii raw)
    else pfail (Malformed NotUtf8).

(** Metadata value type ids. *)
Definition T_U8 : Z := 0.
Definition T_I8 : Z := 1.
Definition T_U16 : Z := 2.
Definition T_I16 : Z := 3.
Definition T_U32 : Z := 4.
Definition T_I32 : Z := 5.
Definition T_F32 : Z := 6.
Definition T_BOOL : Z := 7.
Definition T_STRING : Z := 8.
Definition T_ARRAY : Z := 9.
Definition T_U64 : Z := 10.
Definition T_I64 : Z := 11.
Definition T_F64 : Z := 12.

(** [Cursor::typed_value] on every type but arrays. *)
Definition scalar_value (ty : Z) : parser MetaValue :=
  if ty =? T_U8 then v ← read_uint 1; mret (U8 v)
  else if ty =? T_I8 then v ← read_uint 1; mret (I8 (to_signed 8 v))
  else if ty =? T_U16 then v ← read_uint 2; mret (U16 v)
  else if ty =? T_I16 then v ← read_uint 2; mret (I16 (to_signed 16 v))
  else if ty =? T_U32 then v ← read_u32; mret (U32 v)
  else if ty =? T_I32 then v ← read_u32; mret (I32 (to_signed 32 v))
  else if ty =? T_F32 then v ← read_uint 4; mret (F32 v)
  else if ty =? T_BOOL then v ← read_uint 1; mret (VBool (negb (v =? 0)))
  else if ty =? T_STRING then s ← read_string; mret (Str s)
  else if ty =? T_U64 then v ← read_u64; mret (U64 v)
  else if ty =? T_I64 then v ← read_u64; mret (I64 (to_signed 64 v))
  else if ty =? T_F64 then v ← read_uint 8; mret (F64 v)
  else pfail (Malformed UnknownValueType).

(** Run a parser [n] times. *)
Fixpoint repeat_n {A} (n : nat) (p : parser A) : parser (list A) :=
  match n with
  | O => mret []
  | S n => x ← p; xs ← repeat_n n p; mret (x :: xs)
  end.

(** The items of an array, after its element type and count.  A count the
    remaining input cannot satisfy is refused before allocating. *)
Definition read_items (elem_ty count : Z) : parser MetaValue := λ bs pos,
  if Z.of_nat (length bs) - pos <? count then Err (NeedMoreData (u64_add pos count))
  else
    '(items, pos) ← repeat_n (Z.to_nat count) (scalar_value elem_ty) bs pos;
    Ok (Arr items, pos).

(** [Cursor::typed_value].  Nested arrays are refused before the recursion, so
    an element is never an array. *)
Definition typed_value (ty : Z) : parser MetaValue :=
  if ty =? T_ARRAY then
    elem_ty ← read_u32;
    if elem_ty =? T_ARRAY then pfail (Malformed NestedArrays)
    else count ← read_u64; read_items elem_ty count
  else scalar_value ty.

Definition read_value : parser MetaValue := ty ← read_u32; typed_value ty.

(** [for _ in 0..count] over a 64-bit count, by fuel; running out of fuel is
    the [Panic] outcome. *)
Fixpoint repeat_count {A} (fuel : nat) (count : Z) (p : parser A) : parser (list A) :=
  if count <=? 0 then mret []
  else match fuel with
       | O => λ _ _, Panic
       | S fuel => x ← p; xs ← repeat_count fuel (count - 1) p; mret (x :: xs)
       end.

(** Every iteration of the loops consumes input, so the input length bounds
    the number of iterations: the fuel never runs out ([steady_loop]). *)
Definition repeat_loop {A} (count : Z) (p : parser A) : parser (list A) := λ bs pos,
  repeat_count (S (length bs)) count p bs pos.

Definition read_kv : parser (string * MetaValue) :=
  key ← read_string; value ← read_value; mret (key, value).

Definition read_tensor : parser TensorInfo :=
  name ← read_string;
  n_dims ← read_u32;
  if 8 <? n_dims then pfail (Malformed TooManyDims)
  else
    dims ← repeat_n (Z.to_nat n_dims) read_u64;
    ggml_type ← read_u32;
    offset ← read_u64;
    mret (MkTensorInfo name dims ggml_type offset).

Definition is_power_of_two (a : Z) : bool := (0 <? a) && (Z.land a (a - 1) =? 0).

Definition alignment_of (metadata : gmap string MetaValue) : Z :=
  match metadata !! "general.alignment" ≫= as_u64 with
  | Some a => if (0 <? a) && is_power_of_two a then a else GGUF_DEFAULT_ALIGNMENT
  | None => GGUF_DEFAULT_ALIGNMENT
  end.

(** [metadata.insert] in file order: a repeated key keeps the last value. *)
Definition insert_all (kvs : list (string * MetaValue)) : gmap string MetaValue :=
  foldl (λ m kv, <[kv.1 := kv.2]> m) ∅ kvs.

(** The header once every field is read: the position is its length. *)
Definition finish_header (version : Z) (kvs : list (string * MetaValue))
    (tensors : list TensorInfo) : parser GgufHeader := λ _ header_len,
  let metadata := insert_all kvs in
  let alignment := alignment_of metadata in
  let data_offset := u64_mul (div_ceil header_len alignment) alignment in
  Ok (MkHeader version metadata tensors header_len alignment data_offset, header_len).

(** The fields in file order: version, metadata pairs, tensor descriptors. *)
Definition read_fields : parser (Z * list (string * MetaValue) * list TensorInfo) :=
  magic ← read_u32;
  if negb (magic =? GGUF_MAGIC) then pfail BadMagic
  else
    version ← read_u32;
    if negb (version =? 2) && negb (version =? 3) then pfail (UnsupportedVersion version)
    else
      tensor_count ← read_u64;
      kv_count ← read_u64;
      kvs ← repeat_loop kv_count read_kv;
      tensors ← repeat_loop tensor_count read_tensor;
      mret (version, kvs, tensors).

Definition parse_body : parser GgufHeader :=
  '(version, kvs, tensors) ← read_fields; finish_header version kvs tensors.

(** [GgufHeader::parse]. *)
Definition parse (bs : bytes) : res GgufError GgufHeader := fst <$> parse_body bs 0.

Definition architecture (h : GgufHeader) : option string :=
  gh_metadata h !! "general.architecture" ≫= as_str.

Definition block_count (h : GgufHeader) : option Z :=
  arch ← architecture h; gh_metadata h !! (arch +:+ ".block_count") ≫= as_u64.

(** [GgufHeader::tensor_ranges]. *)
Fixpoint ranges_from (data_offset file_size : Z) (sorted : list TensorInfo) :
    res GgufError (list TensorRange) :=
  match sorted with
  | [] => Ok []
  | t :: rest =>
      let start := u64_add data_offset (ti_offset t) in
      let stop := match rest with
                  | next :: _ => u64_add data_offset (ti_offset next)
                  | [] => file_size
                  end in
      if (stop <? start) || (file_size <? stop) then Err (Malformed OffsetsExceedFile)
      else
        out ← ranges_from data_offset file_size rest;
        Ok (MkTensorRange (ti_name t) start stop :: out)
  end.

Definition tensor_ranges (h : GgufHeader) (file_size : Z) : res GgufError (list TensorRange) :=
  ranges_from (gh_data_offset h) file_size (sort_by (cmp_key ti_offset) (gh_tensors h)).

(** ** Well-formed values

    What the types of the parsed structures promise: every integer is within
    its width, every string is UTF-8 of at most 16 MiB, arrays are homogeneous
    and do not nest. *)
Definition value_type (v : MetaValue) : Z :=
  match v with
  | U8 _ => T_U8 | I8 _ => T_I8 | U16 _ => T_U16 | I16 _ => T_I16
  | U32 _ => T_U32 | I32 _ => T_I32 | F32 _ => T_F32 | VBool _ => T_BOOL
  | Str _ => T_STRING | U64 _ => T_U64 | I64 _ => T_I64 | F64 _ => T_F64
  | Arr _ => T_ARRAY
  end.

Definition uint_wf (n v : Z) : Prop := 0 ≤ v < 256 ^ n.
Definition int_wf (w v : Z) : Prop := - 2 ^ (w - 1) ≤ v < 2 ^ (w - 1).
Definition string_wf (s : string) : Prop :=
  utf8_valid (String.list_ascii_of_string s) = true ∧
  Z.of_nat (String.length s) ≤ 2 ^ 24.

Definition scalar_wf (v : MetaValue) : Prop :=
  match v with
  | U8 v => uint_wf 1 v | I8 v => int_wf 8 v
  | U16 v => uint_wf 2 v | I16 v => int_wf 16 v
  | U32 v | F32 v => uint_wf 4 v | I32 v => int_wf 32 v
  | U64 v | F64 v => uint_wf 8 v | I64 v => int_wf 64 v
  | VBool _ => True
  | Str s => string_wf s
  | Arr _ => False
  end.

Definition value_wf (v : MetaValue) : Prop :=
  match v with
  | Arr items => ∃ ty, Forall (λ x, scalar_wf x ∧ value_type x = ty) items
  | _ => scalar_wf v
  end.

Definition tensor_wf (t : TensorInfo) : Prop :=
  string_wf (ti_name t) ∧ Z.of_nat (length (ti_dims t)) ≤ 8 ∧
  Forall (uint_wf 8) (ti_dims t) ∧ uint_wf 4 (ti_ggml_type t) ∧ uint_wf 8 (ti_offset t).

Definition len (bs : bytes) : Z := Z.of_nat (length bs).

(** ** Steady parsers

    [steady k Q p]: started inside the input, [p] does not panic; a success
    consumes at least [k] bytes, stays inside the input and yields a value
    satisfying [Q]; and every outcome but a request for more data is kept when
    bytes are appended. *)
Definition definite {A} (r : res GgufError A) : Prop :=
  match r with Err (NeedMoreData _) | Panic => False | _ => True end.

Record steady {A} (k : Z) (Q : A → Prop) (p : parser A) : Prop := {
  steady_total bs pos : 0 ≤ pos ≤ len bs → p bs pos ≠ Panic;
  steady_moves bs pos a pos' :
    0 ≤ pos ≤ len bs → p bs pos = Ok (a, pos') → pos + k ≤ pos' ≤ len bs ∧ Q a;
  steady_ext bs pos more : 0 ≤ pos ≤ len bs → definite (p bs pos) → p (bs ++ more) pos = p bs pos }.

Lemma len_app bs more : len (bs ++ more) = len bs + len more.
Proof. unfold len. rewrite length_app. lia. Qed.
Lemma len_nonneg bs : 0 ≤ len bs.
Proof. unfold len. lia. Qed.

Lemma parser_bind_eq {A B} (p : parser A) (f : A → parser B) bs pos :
  (p ≫= f) bs pos = match p bs pos with
                    | Ok (a, pos') => f a bs pos'
                    | Err e => Err e
                    | Panic => Panic
                    end.
Proof. unfold mbind, parser_bind. by destruct (p bs pos) as [[]| |]. Qed.

Lemma steady_ret {A} (Q : A → Prop) a : Q a → steady 0 Q (mret a).
Proof.
  split; intros; unfold mret, parser_ret in *; [done| |done].
  simplify_eq. split; [lia|done].
Qed.

Lemma steady_fail {A} k (Q : A → Prop) e : steady k Q (pfail e).
Proof. by split; intros. Qed.

Lemma steady_weaken {A} j k (Q R : A → Prop) (p : parser A) :
  k ≤ j → (∀ a, Q a → R a) → steady j Q p → steady k R p.
Proof.
  intros Hjk HQ [H1 H2 H3]. split; [done| |done]. intros bs pos a pos' Hp E.
  destruct (H2 bs pos a pos' Hp E). split; [lia|auto].
Qed.

Lemma steady_bind {A B} j k (Q : A → Prop) (R : B → Prop) (p : parser A) (f : A → parser B) :
  0 ≤ j → steady j Q p → (∀ a, Q a → steady k R (f a)) → steady (j + k) R (p ≫= f).
Proof.
  intros Hj [T M X] Hf. split.
  - intros bs pos Hp. rewrite parser_bind_eq.
    destruct (p bs pos) as [[a pos']|e|] eqn:E; [|done|by apply T in E].
    apply M in E as [? Ha]; [|done]. apply (steady_total _ _ _ (Hf a Ha)). lia.
  - intros bs pos b pos'' Hp. rewrite parser_bind_eq.
    destruct (p bs pos) as [[a pos']|e|] eqn:E; [|done..]. intros E'.
    apply M in E as [? Ha]; [|done].
    apply (steady_moves _ _ _ (Hf a Ha)) in E' as [? ?]; [|lia]. split; [lia|done].
  - intros bs pos more Hp. rewrite !parser_bind_eq.
    destruct (p bs pos) as [[a pos']|e|] eqn:E; [| |done]; intros Hd.
    + rewrite X, E by (done || by rewrite E). apply M in E as [? Ha]; [|done].
      apply (steady_ext _ _ _ (Hf a Ha)); [lia|done].
    + by rewrite X, E by (done || by rewrite E).
Qed.

(** Bind where the continuation need not consume. *)
Lemma steady_seq {A B} j (Q : A → Prop) (R : B → Prop) (p : parser A) (f : A → parser B) :
  0 ≤ j → steady j Q p → (∀ a, Q a → steady 0 R (f a)) → steady j R (p ≫= f).
Proof. intros. replace j with (j + 0) by lia. by eapply steady_bind. Qed.

Lemma steady_seq0 {A B} j (Q : A → Prop) (R : B → Prop) (p : parser A) (f : A → parser B) :
  0 ≤ j → steady j Q p → (∀ a, Q a → steady 0 R (f a)) → steady 0 R (p ≫= f).
Proof. intros. eapply steady_weaken; [exact H|done|]. by eapply steady_seq. Qed.

Lemma byte_val_range b : 0 ≤ byte_val b < 256.
Proof. unfold byte_val. pose proof (N_ascii_bounded b). lia. Qed.

Lemma le_val_range l : uint_wf (len l) (le_val l).
Proof.
  unfold uint_wf. induction l as [|b l IH]; [by vm_compute|].
  pose proof (byte_val_range b). unfold le_val in *; simpl in *.
  replace (len (b :: l)) with (Z.succ (len l)) by (unfold len; simpl; lia).
  rewrite Z.pow_succ_r by apply len_nonneg. lia.
Qed.

Lemma steady_take n : 0 ≤ n → steady n (λ l, len l = n) (take_bytes n).
Proof.
  intros Hn. split; intros bs pos; intros; unfold take_bytes in *; fold (len bs) in *.
  - by repeat case_match.
  - destruct (2 ^ 64 <=? pos + n); [done|]. destruct (Z.ltb_spec (len bs) (pos + n)); [done|].
    simplify_eq. split; [lia|]. unfold len in *. rewrite length_take, length_drop. lia.
  - fold (len (bs ++ more)). rewrite len_app. pose proof (len_nonneg more).
    destruct (2 ^ 64 <=? pos + n); [done|].
    destruct (Z.ltb_spec (len bs) (pos + n)); [done|].
    destruct (Z.ltb_spec (len bs + len more) (pos + n)); [lia|].
    unfold len in *. rewrite drop_app_le by lia. rewrite take_app_le; [done|].
    rewrite length_drop. lia.
Qed.

Lemma steady_uint n : 0 ≤ n → steady n (uint_wf n) (read_uint n).
Proof.
  intros Hn. eapply steady_seq; [done|by apply steady_take|]. intros l <-.
  apply steady_ret, le_val_range.
Qed.
Lemma steady_u32 : steady 4 (uint_wf 4) read_u32.
Proof. by apply steady_uint. Qed.
Lemma steady_u64 : steady 8 (uint_wf 8) read_u64.
Proof. by apply steady_uint. Qed.

Lemma to_signed_wf n v : 0 < n → uint_wf n v → int_wf (8 * n) (to_signed (8 * n) v).
Proof.
  unfold uint_wf, int_wf, to_signed. intros Hn Hv.
  replace (256 ^ n) with (2 ^ (8 * n)) in Hv by (by rewrite Z.pow_mul_r by lia).
  assert (2 ^ (8 * n) = 2 * 2 ^ (8 * n - 1)) as Hw by (rewrite <- Z.pow_succ_r by lia; f_equal; lia).
  rewrite Hw in Hv |- *. destruct (Z.ltb_spec v (2 ^ (8 * n - 1))); lia.
Qed.

Lemma string_len_list l : String.length (String.string_of_list_ascii l) = length l.
Proof. induction l; simpl; congruence. Qed.

Lemma steady_string : steady 8 string_wf read_string.
Proof.
  eapply steady_seq; [lia|apply steady_u64|]. intros n [Hn _].
  destruct (Z.ltb_spec (2 ^ 24) n); [apply steady_fail|].
  eapply steady_seq0; [exact Hn|by apply steady_take|]. intros raw Hraw.
  destruct (utf8_valid raw) eqn:E; [|apply steady_fail].
  apply steady_ret. split; [by rewrite String.list_ascii_of_string_of_list_ascii|].
  rewrite string_len_list. unfold len in Hraw. lia.
Qed.

Lemma steady_map {A B} k (Q : A → Prop) (R : B → Prop) (p : parser A) (f : A → B) :
  0 ≤ k → steady k Q p → (∀ a, Q a → R (f a)) → steady k R (a ← p; mret (f a)).
Proof. intros Hk Hp HR. eapply steady_seq; [done|exact Hp|]. intros a Ha. by apply steady_ret, HR. Qed.

Lemma steady_scalar ty : steady 1 (λ v, scalar_wf v ∧ value_type v = ty) (scalar_value ty).
Proof.
  unfold scalar_value.
  repeat match goal with |- steady _ _ (if ?b then _ else _) =>
    let E := fresh "E" in destruct b eqn:E; [apply Z.eqb_eq in E as ->|clear E] end;
    [..|apply steady_fail];
    (eapply steady_weaken; [|exact (λ a H, H)|eapply steady_map]);
    try (apply steady_uint; lia) || apply steady_string; try lia;
    intros v Hv; (split; [|done]); simpl; try done.
  - by apply (to_signed_wf 1).
  - by apply (to_signed_wf 2).
  - by apply (to_signed_wf 4).
  - by apply (to_signed_wf 8).
Qed.

Lemma steady_repeat_n {A} k (Q : A → Prop) (p : parser A) n :
  0 ≤ k → steady k Q p → steady 0 (λ l, length l = n ∧ Forall Q l) (repeat_n n p).
Proof.
  intros Hk Hp. induction n as [|n IH]; simpl; [by apply steady_ret|].
  eapply steady_seq0; [exact Hk|exact Hp|]. intros a Ha.
  eapply steady_seq0; [reflexivity|exact IH|]. intros l [Hl HQ].
  apply steady_ret. simpl. split; [lia|by constructor].
Qed.

Lemma steady_items ty count : steady 0 value_wf (read_items ty count).
Proof.
  destruct (steady_map 0 _ value_wf _ Arr ltac:(done)
    (steady_repeat_n 1 _ _ (Z.to_nat count) ltac:(done) (steady_scalar ty))) as [T M X].
  { intros l [_ Hl]. by exists ty. }
  assert (∀ bs pos, read_items ty count bs pos =
    if len bs - pos <? count then Err (NeedMoreData (u64_add pos count))
    else (items ← repeat_n (Z.to_nat count) (scalar_value ty); mret (Arr items)) bs pos) as Heq.
  { intros bs pos. unfold read_items. fold (len bs). destruct (_ <? _); [done|].
    rewrite parser_bind_eq. by destruct (repeat_n _ _ bs pos) as [[]| |]. }
  split; intros bs pos *; rewrite !Heq.
  - destruct (_ <? _); [done|apply T].
  - destruct (_ <? _); [done|apply M].
  - destruct (Z.ltb_spec (len bs - pos) count); [done|]. rewrite len_app.
    pose proof (len_nonneg more). intros Hp Hd.
    destruct (Z.ltb_spec (len bs + len more - pos) count); [lia|]. by apply X.
Qed.

Lemma steady_value : steady 4 value_wf read_value.
Proof.
  eapply steady_seq; [lia|apply steady_u32|]. intros ty _. unfold typed_value.
  destruct (ty =? T_ARRAY).
  - eapply steady_seq0; [|apply steady_u32|]; [lia|]. intros elem_ty _.
    destruct (elem_ty =? T_ARRAY); [apply steady_fail|].
    eapply steady_seq0; [|apply steady_u64|]; [lia|]. intros count _. apply steady_items.
  - eapply steady_weaken with (3 := steady_scalar ty); [lia|]. intros v [Hv _]. by destruct v.
Qed.

Lemma steady_kv : steady 8 (λ kv, string_wf kv.1 ∧ value_wf kv.2) read_kv.
Proof.
  eapply steady_seq; [lia|apply steady_string|]. intros key Hk.
  eapply steady_seq0; [|apply steady_value|]; [lia|]. intros v Hv. by apply steady_ret.
Qed.

Lemma steady_tensor : steady 8 tensor_wf read_tensor.
Proof.
  eapply steady_seq; [lia|apply steady_string|]. intros name Hn.
  eapply steady_seq0; [|apply steady_u32|]; [lia|]. intros n Hnd.
  destruct (Z.ltb_spec 8 n); [apply steady_fail|].
  eapply steady_seq0; [reflexivity|eapply steady_repeat_n; [|apply steady_u64]; lia|].
  intros dims [Hl Hd].
  eapply steady_seq0; [|apply steady_u32|]; [lia|]. intros ty Hty.
  eapply steady_seq0; [|apply steady_u64|]; [lia|]. intros off Hoff.
  apply steady_ret. repeat split; simpl; try done; try apply Hn; try apply Hty; try apply Hoff.
  unfold uint_wf in Hnd. lia.
Qed.

(** A loop whose body consumes: enough fuel is never exhausted. *)
Lemma repeat_count_steady {A} (Q : A → Prop) (p : parser A) fuel :
  steady 8 Q p → ∀ count bs pos, 0 ≤ pos ≤ len bs → len bs - pos < Z.of_nat fuel →
  repeat_count fuel count p bs pos ≠ Panic ∧
  (∀ l pos', repeat_count fuel count p bs pos = Ok (l, pos') →
     pos ≤ pos' ≤ len bs ∧ Z.of_nat (length l) = Z.max 0 count ∧ Forall Q l) ∧
  (∀ fuel' more, (fuel ≤ fuel')%nat → definite (repeat_count fuel count p bs pos) →
     repeat_count fuel' count p (bs ++ more) pos = repeat_count fuel count p bs pos).
Proof.
  intros [T M X]. induction fuel as [|fuel IH]; intros count bs pos Hp Hfuel; [lia|].
  simpl. destruct (Z.leb_spec count 0) as [Hc|Hc].
  { split; [done|]. split.
    - intros l pos' [= <- <-]. split; [lia|]. split; [simpl; lia|constructor].
    - intros [|fuel'] more Hf _; [lia|]. simpl. by rewrite (proj2 (Z.leb_le _ _) Hc). }
  rewrite parser_bind_eq. destruct (p bs pos) as [[x pos1]|e|] eqn:E; [| |by apply T in E].
  - pose proof (X bs pos) as X'. rewrite E in X'.
    apply M in E as [Hmv Hx]; [|done].
    destruct (IH (count - 1) bs pos1) as (T1 & M1 & X1); [lia|lia|].
    rewrite parser_bind_eq. split_and!.
    + by destruct (repeat_count fuel _ p bs pos1) as [[]| |].
    + intros l pos'. destruct (repeat_count fuel _ p bs pos1) as [[xs pos2]| |]; [|done..].
      intros [= <- <-]. destruct (M1 _ _ eq_refl) as (? & ? & ?).
      split; [lia|]. split; [simpl length; lia|by constructor].
    + intros [|fuel'] more Hf Hd; [lia|]. simpl. rewrite (proj2 (Z.leb_gt _ _) Hc).
      rewrite parser_bind_eq, X', parser_bind_eq, X1 by
        (lia || done || by destruct (repeat_count fuel _ p bs pos1) as [[]|[]|]).
      done.
  - split; [done|]. split; [done|]. intros [|fuel'] more Hf Hd; [lia|]. simpl.
    rewrite (proj2 (Z.leb_gt _ _) Hc), parser_bind_eq, X, E; [done|done|by rewrite E].
Qed.

Lemma steady_loop {A} (Q : A → Prop) (p : parser A) count :
  steady 8 Q p →
  steady 0 (λ l, Z.of_nat (length l) = Z.max 0 count ∧ Forall Q l) (repeat_loop count p).
Proof.
  intros Hp. split; intros bs pos *; intros Hpos;
    destruct (repeat_count_steady Q p (S (length bs)) Hp count bs pos Hpos)
      as (T & M & X); try (unfold len in *; lia); unfold repeat_loop.
  - done.
  - intros E. destruct (M _ _ E) as (? & ?). split; [lia|done].
  - apply X. rewrite length_app. lia.
Qed.

(** The parsed part of a header. *)
Definition fields_wf (h : GgufHeader) : Prop :=
  (gh_version h = 2 ∨ gh_version h = 3) ∧
  map_Forall (λ k v, string_wf k ∧ value_wf v) (gh_metadata h) ∧
  Forall tensor_wf (gh_tensors h) ∧
  gh_alignment h = alignment_of (gh_metadata h) ∧
  gh_data_offset h = u64_mul (div_ceil (gh_header_len h) (gh_alignment h)) (gh_alignment h).

Lemma insert_all_Forall (P : string → MetaValue → Prop) kvs :
  Forall (λ kv, P kv.1 kv.2) kvs → map_Forall P (insert_all kvs).
Proof.
  unfold insert_all. intros Hk.
  enough (∀ m, map_Forall P m → map_Forall P (foldl (λ m kv, <[kv.1:=kv.2]> m) m kvs)) as H
    by (apply H, map_Forall_empty).
  induction Hk as [|kv kvs Hkv _ IH]; intros m Hm; simpl; [done|].
  apply IH. by apply map_Forall_insert_2.
Qed.

Lemma steady_fields :
  steady 24 (λ '(version, kvs, ts), (version = 2 ∨ version = 3) ∧
    Forall (λ kv, string_wf kv.1 ∧ value_wf kv.2) kvs ∧ Forall tensor_wf ts) read_fields.
Proof.
  unfold read_fields. eapply (steady_bind 4 20); [lia|apply steady_u32|]. intros magic _.
  destruct (negb (magic =? GGUF_MAGIC)); [apply steady_fail|].
  eapply (steady_bind 4 16); [lia|apply steady_u32|]. intros version _.
  destruct (negb (version =? 2) && negb (version =? 3)) eqn:Ev; [apply steady_fail|].
  eapply (steady_bind 8 8); [lia|apply steady_u64|]. intros tensor_count _.
  eapply steady_seq; [lia|apply steady_u64|]. intros kv_count _.
  eapply steady_seq0; [reflexivity|apply steady_loop, steady_kv|]. intros kvs [_ Hkvs].
  eapply steady_seq0; [reflexivity|apply steady_loop, steady_tensor|]. intros tensors [_ Hts].
  apply steady_ret. split; [lia|done].
Qed.

Lemma steady_body : steady 24 fields_wf parse_body.
Proof.
  eapply steady_seq; [lia|apply steady_fields|]. intros [[version kvs] ts] (Hv & Hkvs & Hts).
  split; unfold finish_header; [done| |done].
  intros bs pos h pos' Hp [= <- <-]. split; [lia|]. unfold fields_wf; simpl.
  split; [done|]. split; [by apply insert_all_Forall|done].
Qed.

(** The header length is the position the parser stops at. *)
Lemma parse_body_len bs pos h pos' : parse_body bs pos = Ok (h, pos') → gh_header_len h = pos'.
Proof.
  unfold parse_body. rewrite parser_bind_eq.
  destruct (read_fields bs pos) as [[[[v kvs] ts] p]|?|]; [|done..]. by intros [= <- <-].
Qed.

Lemma is_power_of_two_spec a : is_power_of_two a = true → ∃ k, 0 ≤ k ∧ a = 2 ^ k.
Proof.
  unfold is_power_of_two. intros [Ha Hl]%andb_prop. apply Z.ltb_lt in Ha. apply Z.eqb_eq in Hl.
  exists (Z.log2 a). pose proof (Z.log2_nonneg a). split; [done|].
  destruct (Z.log2_spec a Ha) as [H1 H2].
  destruct (Z.eq_dec a (2 ^ Z.log2 a)) as [|Hne]; [done|exfalso].
  assert (Z.log2 (a - 1) = Z.log2 a) as Hl1 by (apply Z.log2_unique; lia).
  assert (Z.testbit (Z.land a (a - 1)) (Z.log2 a) = true) as Hbit.
  { rewrite Z.land_spec, Z.bit_log2 by done. rewrite <- Hl1 at 1.
    rewrite Z.bit_log2; [done|]. assert (0 < 2 ^ Z.log2 a) by (apply Z.pow_pos_nonneg; lia). lia. }
  by rewrite Hl, Z.bits_0 in Hbit.
Qed.

Lemma alignment_of_pow2 md :
  map_Forall (λ k v, string_wf k ∧ value_wf v) md → ∃ k, 0 ≤ k < 64 ∧ alignment_of md = 2 ^ k.
Proof.
  intros Hmd. unfold alignment_of.
  destruct (md !! "general.alignment") as [v|] eqn:E; simpl; [|exists 5; split; [lia|done]].
  destruct (as_u64 v) as [a|] eqn:Ea; [|exists 5; split; [lia|done]].
  destruct ((0 <? a) && is_power_of_two a) eqn:Ep; [|exists 5; split; [lia|done]].
  apply andb_prop in Ep as [_ Ep]. apply is_power_of_two_spec in Ep as (k & Hk & ->).
  exists k. split; [|done]. split; [done|]. apply (Z.pow_lt_mono_r_iff 2); [lia|lia|].
  destruct (Hmd _ _ E) as [_ Hv]. unfold as_u64 in Ea.
  destruct v; simplify_eq/=; unfold value_wf, scalar_wf, uint_wf, int_wf in *;
    try (destruct (0 <=? v); simplify_eq); lia.
Qed.

Lemma div_ceil_mul_bounds a b : 0 ≤ a → 0 < b → a ≤ div_ceil a b * b < a + b.
Proof.
  intros Ha Hb. unfold div_ceil. pose proof (Z.div_mod a b ltac:(lia)).
  pose proof (Z.mod_pos_bound a b ltac:(lia)). destruct (Z.eqb_spec (a mod b) 0); nia.
Qed.

(** Rounding a length below 2^63 up to a 64-bit power of two does not wrap. *)
Lemma data_offset_exact a k : 0 ≤ a < 2 ^ 63 → 0 ≤ k < 64 →
  u64_mul (div_ceil a (2 ^ k)) (2 ^ k) = div_ceil a (2 ^ k) * 2 ^ k.
Proof.
  intros Ha Hk. assert (0 < 2 ^ k) as Hpos by (apply Z.pow_pos_nonneg; lia).
  assert (2 ^ k ≤ 2 ^ 63) as Hle by (apply Z.pow_le_mono_r; lia).
  pose proof (div_ceil_mul_bounds a (2 ^ k) ltac:(lia) Hpos).
  apply wrap64_small. split; lia.
Qed.

Definition aligned_after (h : GgufHeader) : Prop :=
  (∃ k, 0 ≤ k < 64 ∧ gh_alignment h = 2 ^ k) ∧
  gh_data_offset h mod gh_alignment h = 0 ∧
  gh_header_len h ≤ gh_data_offset h < gh_header_len h + gh_alignment h.

Lemma fields_aligned h :
  fields_wf h → 0 ≤ gh_header_len h < 2 ^ 63 → aligned_after h.
Proof.
  intros (_ & Hmd & _ & Hal & Hoff) Hlen.
  destruct (alignment_of_pow2 _ Hmd) as (k & Hk & Hp). rewrite Hp in Hal.
  assert (0 < 2 ^ k) by (apply Z.pow_pos_nonneg; lia).
  unfold aligned_after. rewrite Hoff, Hal, data_offset_exact by done.
  split; [by exists k|]. split; [apply Z_mod_mult|]. apply div_ceil_mul_bounds; lia.
Qed.

(** C37: parsing untrusted bytes never panics, and a header that parses is
    well formed: version 2 or 3, every string UTF-8 and at most 16 MiB, every
    number within its width, at most 8 dimensions per tensor; its length is at
    least 24 bytes and within the input; and the data section starts at the
    first multiple of a power-of-two alignment at or after the header. *)
Theorem parse_sound bs :
  len bs < 2 ^ 63 →
  parse bs ≠ Panic ∧
  ∀ h, parse bs = Ok h →
    24 ≤ gh_header_len h ≤ len bs ∧ fields_wf h ∧ aligned_after h.
Proof.
  intros Hlen. unfold parse. destruct steady_body as [T M _].
  assert (0 ≤ 0 ≤ len bs) as H0 by (split; [done|apply len_nonneg]).
  split; [specialize (T bs 0 H0); destruct (parse_body bs 0); simpl; congruence|].
  intros h. destruct (parse_body bs 0) as [[h' pos]| |] eqn:E; [|done..].
  intros [= <-]. destruct (M _ _ _ _ H0 E) as [Hb Hf]. apply parse_body_len in E. simpl.
  rewrite E. split; [lia|]. split; [done|]. apply fields_aligned; [done|]. lia.
Qed.

(** The outcome of parsing a prefix of a file is final unless it asks for
    more data: appending bytes changes neither the header that was parsed nor
    the error that was reported.  (Fetching a longer prefix after
    [NeedMoreData] is therefore sound.) *)
Theorem parse_prefix_stable bs more :
  definite (parse bs) → parse (bs ++ more) = parse bs.
Proof.
  intros Hd. unfold parse in *. destruct steady_body as [_ _ X].
  rewrite (X bs 0 more); [done|split; [done|apply len_nonneg]|].
  by destruct (parse_body bs 0) as [[]| |].
Qed.

(** ** The wire format, as an encoder

    A reference encoder of the GGUF layout; [parse] inverts it. *)
Fixpoint enc_uint (n : nat) (v : Z) : bytes :=
  match n with
  | O => []
  | S n => byte_of (v mod 256) :: enc_uint n (v / 256)
  end.

Definition enc_string (s : string) : bytes :=
  enc_uint 8 (Z.of_nat (String.length s)) ++ String.list_ascii_of_string s.

Definition enc_scalar (v : MetaValue) : bytes :=
  match v with
  | U8 v => enc_uint 1 v
  | I8 v => enc_uint 1 (v mod 2 ^ 8)
  | U16 v => enc_uint 2 v
  | I16 v => enc_uint 2 (v mod 2 ^ 16)
  | U32 v | F32 v => enc_uint 4 v
  | I32 v => enc_uint 4 (v mod 2 ^ 32)
  | U64 v | F64 v => enc_uint 8 v
  | I64 v => enc_uint 8 (v mod 2 ^ 64)
  | VBool b => enc_uint 1 (if b then 1 else 0)
  | Str s => enc_string s
  | Arr _ => []
  end.

Definition elem_type (items : list MetaValue) : Z :=
  match items with [] => T_U8 | x :: _ => value_type x end.

Definition enc_value (v : MetaValue) : bytes :=
  enc_uint 4 (value_type v) ++
  match v with
  | Arr items => enc_uint 4 (elem_type items) ++ enc_uint 8 (Z.of_nat (length items)) ++
                 concat (enc_scalar <$> items)
  | _ => enc_scalar v
  end.

Definition enc_kv (kv : string * MetaValue) : bytes := enc_string kv.1 ++ enc_value kv.2.

Definition enc_tensor (t : TensorInfo) : bytes :=
  enc_string (ti_name t) ++ enc_uint 4 (Z.of_nat (length (ti_dims t))) ++
  concat (enc_uint 8 <$> ti_dims t) ++ enc_uint 4 (ti_ggml_type t) ++ enc_uint 8 (ti_offset t).

Definition encode (version : Z) (kvs : list (string * MetaValue)) (ts : list TensorInfo) : bytes :=
  enc_uint 4 GGUF_MAGIC ++ enc_uint 4 version ++
  enc_uint 8 (Z.of_nat (length ts)) ++ enc_uint 8 (Z.of_nat (length kvs)) ++
  concat (enc_kv <$> kvs) ++ concat (enc_tensor <$> ts).

(** [parses p l a]: wherever [l] stands in an input, [p] reads [a] from it. *)
Definition parses {A} (p : parser A) (l : bytes) (a : A) : Prop :=
  ∀ pre post, len (pre ++ l ++ post) < 2 ^ 64 →
    p (pre ++ l ++ post) (len pre) = Ok (a, len pre + len l).

Lemma parses_ret {A} (a : A) : parses (mret a) [] a.
Proof. intros pre post _. unfold mret, parser_ret, len. simpl. f_equal. f_equal. lia. Qed.

Lemma parses_bind {A B} (p : parser A) (f : A → parser B) l1 l2 a b :
  parses p l1 a → parses (f a) l2 b → parses (p ≫= f) (l1 ++ l2) b.
Proof.
  intros Hp Hf pre post Hlen. rewrite parser_bind_eq.
  rewrite <- (app_assoc l1) in Hlen |- *. rewrite Hp by done.
  rewrite (app_assoc pre), <- len_app in *. rewrite Hf by done.
  by rewrite !len_app, Z.add_assoc.
Qed.

Lemma parses_map {A B} (p : parser A) (f : A → B) l a :
  parses p l a → parses (x ← p; mret (f x)) l (f a).
Proof.
  intros Hp. rewrite <- (app_nil_r l). eapply parses_bind; [exact Hp|apply parses_ret].
Qed.

Lemma parses_take l n : n = len l → parses (take_bytes n) l l.
Proof.
  intros -> pre post Hlen. unfold take_bytes. fold (len (pre ++ l ++ post)).
  rewrite !len_app in *. pose proof (len_nonneg post). rewrite (proj2 (Z.leb_gt _ _)) by lia.
  rewrite (proj2 (Z.ltb_ge _ _)) by lia. f_equal. f_equal.
  unfold len. rewrite !Nat2Z.id, drop_app_length. apply take_app_length.
Qed.

Lemma length_enc_uint n v : length (enc_uint n v) = n.
Proof. revert v; induction n; intros v; simpl; auto. Qed.

Lemma le_val_enc n v : 0 ≤ v < 256 ^ Z.of_nat n → le_val (enc_uint n v) = v.
Proof.
  revert v; induction n as [|n IH]; intros v Hv; [simpl in *; lia|].
  rewrite Nat2Z.inj_succ, Z.pow_succ_r in Hv by lia.
  unfold le_val in *; simpl. rewrite IH by (split; [apply Z.div_pos; lia|apply Z.div_lt_upper_bound; lia]).
  unfold byte_val, byte_of. pose proof (Z.mod_pos_bound v 256 ltac:(lia)).
  rewrite N_ascii_embedding by lia. rewrite Z2N.id by lia.
  pose proof (Z.div_mod v 256 ltac:(lia)). lia.
Qed.

Lemma parses_uint n v : uint_wf (Z.of_nat n) v → parses (read_uint (Z.of_nat n)) (enc_uint n v) v.
Proof.
  intros Hv. rewrite <- (le_val_enc n v Hv) at 2.
  apply parses_map, parses_take. unfold len. by rewrite length_enc_uint.
Qed.

Lemma parses_string s : string_wf s → parses read_string (enc_string s) s.
Proof.
  intros [Hu Hl]. assert (length (String.list_ascii_of_string s) = String.length s) as Hlen.
  { rewrite <- string_len_list. by rewrite String.string_of_list_ascii_of_string. }
  apply (parses_bind read_u64) with (Z.of_nat (String.length s)).
  { apply (parses_uint 8). split; lia. }
  rewrite (proj2 (Z.ltb_ge _ _)) by lia.
  rewrite <- (app_nil_r (String.list_ascii_of_string s)). eapply parses_bind.
  - apply parses_take. unfold len. by rewrite Hlen.
  - rewrite Hu, String.string_of_list_ascii_of_string. apply parses_ret.
Qed.

Lemma to_signed_mod w v : 0 < w → int_wf w v → to_signed w (v mod 2 ^ w) = v.
Proof.
  unfold int_wf, to_signed. intros Hw Hv.
  assert (2 ^ w = 2 * 2 ^ (w - 1)) as Hp by (rewrite <- Z.pow_succ_r by lia; f_equal; lia).
  destruct (Z.le_gt_cases 0 v).
  - rewrite Z.mod_small by lia. destruct (Z.ltb_spec v (2 ^ (w - 1))); lia.
  - replace (v mod 2 ^ w) with (v + 2 ^ w).
    + destruct (Z.ltb_spec (v + 2 ^ w) (2 ^ (w - 1))); lia.
    + apply Z.mod_unique_pos with (-1); lia.
Qed.

Lemma parses_int n v (C : Z → MetaValue) :
  (0 < n)%nat → int_wf (8 * Z.of_nat n) v →
  parses (x ← read_uint (Z.of_nat n); mret (C (to_signed (8 * Z.of_nat n) x)))
    (enc_uint n (v mod 2 ^ (8 * Z.of_nat n))) (C v).
Proof.
  intros Hn Hv. rewrite <- (to_signed_mod (8 * Z.of_nat n) v) at 2 by (lia || done).
  apply (parses_map _ (λ x, C (to_signed (8 * Z.of_nat n) x))), parses_uint.
  unfold uint_wf. rewrite (Z.pow_mul_r 2 8) by lia. apply Z.mod_pos_bound. lia.
Qed.

Lemma parses_scalar v : scalar_wf v → parses (scalar_value (value_type v)) (enc_scalar v) v.
Proof.
  destruct v; cbn [scalar_wf value_type enc_scalar]; intros Hv;
    try (by apply (parses_map (read_uint 1)), (parses_uint 1));
    try (by apply (parses_map (read_uint 2)), (parses_uint 2));
    try (by apply (parses_map (read_uint 4)), (parses_uint 4));
    try (by apply (parses_map (read_uint 8)), (parses_uint 8)).
  - by apply (parses_int 1 v I8); [lia|].
  - by apply (parses_int 2 v I16); [lia|].
  - by apply (parses_int 4 v I32); [lia|].
  - destruct b; [apply (parses_map (read_uint 1) (λ v, VBool (negb (v =? 0))) _ 1)
      |apply (parses_map (read_uint 1) (λ v, VBool (negb (v =? 0))) _ 0)];
      apply (parses_uint 1); split; simpl; lia.
  - by apply (parses_map read_string), parses_string.
  - by apply (parses_int 8 v I64); [lia|].
  - done.
Qed.

Lemma parses_repeat_n {A} (p : parser A) (enc : A → bytes) l :
  Forall (λ x, parses p (enc x) x) l → parses (repeat_n (length l) p) (concat (enc <$> l)) l.
Proof.
  induction 1 as [|x l Hx _ IH]; [apply parses_ret|].
  eapply parses_bind; [exact Hx|]. by apply (parses_map _ (λ xs, x :: xs)).
Qed.

Lemma length_concat_ge {A} k (enc : A → bytes) l :
  Forall (λ x, k ≤ len (enc x)) l → k * Z.of_nat (length l) ≤ len (concat (enc <$> l)).
Proof.
  induction 1 as [|x l Hx _ IH]; [unfold len; simpl; lia|].
  rewrite fmap_cons. simpl concat. rewrite len_app. simpl length. lia.
Qed.

Lemma len_enc_string s : 8 ≤ len (enc_string s).
Proof. unfold enc_string, len. rewrite length_app, length_enc_uint. lia. Qed.

Lemma len_enc_scalar v : scalar_wf v → 1 ≤ len (enc_scalar v).
Proof.
  pose proof len_enc_string as Hs.
  destruct v; simpl; intros; try done. specialize (Hs s). lia.
Qed.

(** An input as long as the encoding holds at least one byte per item. *)
Lemma parses_items ty items :
  Forall (λ x, scalar_wf x ∧ value_type x = ty) items →
  parses (read_items ty (Z.of_nat (length items))) (concat (enc_scalar <$> items)) (Arr items).
Proof.
  intros Hi pre post Hlen. unfold read_items. fold (len (pre ++ concat (enc_scalar <$> items) ++ post)).
  assert (1 * Z.of_nat (length items) ≤ len (concat (enc_scalar <$> items))) as Hge.
  { apply length_concat_ge. eapply Forall_impl; [exact Hi|]. intros x [Hx _]. by apply len_enc_scalar. }
  pose proof (len_nonneg post).
  rewrite (proj2 (Z.ltb_ge _ _)) by (rewrite !len_app; lia).
  rewrite Nat2Z.id, (parses_repeat_n _ enc_scalar); [done| |done].
  eapply Forall_impl; [exact Hi|]. intros x [Hx <-]. by apply parses_scalar.
Qed.

Lemma value_type_u32 v : uint_wf 4 (value_type v).
Proof. by destruct v. Qed.

Lemma enc_value_scalar v : scalar_wf v → enc_value v = enc_uint 4 (value_type v) ++ enc_scalar v.
Proof. by destruct v. Qed.

Lemma typed_value_scalar v :
  scalar_wf v → typed_value (value_type v) = scalar_value (value_type v).
Proof. by destruct v. Qed.

Lemma parses_value v :
  value_wf v → len (enc_value v) < 2 ^ 64 → parses read_value (enc_value v) v.
Proof.
  intros Hv Hl. assert (scalar_wf v ∨ ∃ items, v = Arr items) as [Hs|[items ->]]
    by (destruct v; eauto).
  - rewrite enc_value_scalar by done. eapply parses_bind; [apply (parses_uint 4), value_type_u32|].
    rewrite typed_value_scalar by done. by apply parses_scalar.
  - destruct Hv as [ty Hi].
    assert (Forall (λ x, scalar_wf x ∧ value_type x = elem_type items) items) as Hi'.
    { destruct items as [|x items]; [constructor|]. inversion Hi as [|? ? [? <-] ?]; subst. done. }
    assert (elem_type items ≠ T_ARRAY) as Hne.
    { destruct items as [|x items]; [done|]. inversion Hi' as [|? ? [Hx _] ?]; subst. by destruct x. }
    assert (1 * Z.of_nat (length items) ≤ len (concat (enc_scalar <$> items))) as Hge.
    { apply length_concat_ge. eapply Forall_impl; [exact Hi|]. intros x [Hx _]. by apply len_enc_scalar. }
    unfold enc_value in *. rewrite !len_app in Hl.
    pose proof (len_nonneg (enc_uint 4 (value_type (Arr items)))).
    pose proof (len_nonneg (enc_uint 4 (elem_type items))).
    pose proof (len_nonneg (enc_uint 8 (Z.of_nat (length items)))).
    eapply parses_bind; [by apply (parses_uint 4)|]. 
    change (typed_value (value_type (Arr items))) with
      (elem_ty ← read_u32;
       if elem_ty =? T_ARRAY then pfail (Malformed NestedArrays)
       else count ← read_u64; read_items elem_ty count).
    eapply parses_bind; [apply (parses_uint 4); by destruct items; [|apply value_type_u32]|].
    rewrite (proj2 (Z.eqb_neq _ _) Hne).
    eapply parses_bind; [apply (parses_uint 8)|by apply parses_items].
    split; [lia|]. change (256 ^ Z.of_nat 8) with (2 ^ 64). lia.
Qed.

Lemma parses_kv kv :
  string_wf kv.1 → value_wf kv.2 → len (enc_kv kv) < 2 ^ 64 → parses read_kv (enc_kv kv) kv.
Proof.
  intros Hk Hv Hl. destruct kv as [k v]. unfold enc_kv in *; cbn [fst snd] in *. rewrite len_app in Hl.
  pose proof (len_nonneg (enc_string k)).
  eapply parses_bind; [by apply parses_string|].
  apply (parses_map _ (λ v, (k, v))). apply parses_value; [done|lia].
Qed.

Lemma parses_tensor t : tensor_wf t → parses read_tensor (enc_tensor t) t.
Proof.
  destruct t as [name dims ty off]. intros (Hn & Hd & Hds & Ht & Ho). simpl in *.
  eapply parses_bind; [by apply parses_string|]. eapply parses_bind.
  { apply (parses_uint 4). split; [lia|]. cbn [ti_dims]. change (256 ^ Z.of_nat 4) with (2 ^ 32). lia. }
  cbn [ti_dims ti_name ti_ggml_type ti_offset]. rewrite (proj2 (Z.ltb_ge _ _)) by lia. rewrite Nat2Z.id. eapply parses_bind.
  { apply (parses_repeat_n _ (enc_uint 8)). eapply Forall_impl; [exact Hds|]. intros d Hdw.
    by apply (parses_uint 8). }
  eapply parses_bind; [by apply (parses_uint 4)|].
  by apply (parses_map _ (λ off, MkTensorInfo name dims ty off)), (parses_uint 8).
Qed.

Lemma parses_count {A} (p : parser A) (enc : A → bytes) l :
  Forall (λ x, parses p (enc x) x) l →
  ∀ fuel, (length l < fuel)%nat →
    parses (repeat_count fuel (Z.of_nat (length l)) p) (concat (enc <$> l)) l.
Proof.
  induction 1 as [|x l Hx _ IH]; intros [|fuel] Hf; try (simpl in *; lia).
  { apply (parses_ret []). }
  rewrite fmap_cons. simpl length in *. simpl concat. cbn [repeat_count].
  rewrite (proj2 (Z.leb_gt _ _)) by lia.
  eapply parses_bind; [exact Hx|]. apply (parses_map _ (λ xs, x :: xs)).
  replace (Z.of_nat (S (length l)) - 1) with (Z.of_nat (length l)) by lia. apply IH. lia.
Qed.

Lemma parses_loop {A} (p : parser A) (enc : A → bytes) l :
  Forall (λ x, parses p (enc x) x) l → Forall (λ x, 8 ≤ len (enc x)) l →
  parses (repeat_loop (Z.of_nat (length l)) p) (concat (enc <$> l)) l.
Proof.
  intros Hp H8 pre post Hlen. unfold repeat_loop. eapply parses_count; [done| |done].
  apply length_concat_ge in H8. unfold len in *. rewrite !length_app. lia.
Qed.

(** Each part of a concatenation is no longer than the whole. *)
Lemma len_concat_part (l : list bytes) x : x ∈ l → len x ≤ len (concat l).
Proof.
  intros (l1 & l2 & ->)%list_elem_of_split. rewrite concat_app, len_app. simpl. rewrite len_app.
  pose proof (len_nonneg (concat l1)). pose proof (len_nonneg (concat l2)). lia.
Qed.

Lemma len_enc_kv kv : 8 ≤ len (enc_kv kv).
Proof.
  unfold enc_kv. rewrite len_app. pose proof (len_enc_string kv.1).
  pose proof (len_nonneg (enc_value kv.2)). lia.
Qed.
Lemma len_enc_tensor t : 8 ≤ len (enc_tensor t).
Proof.
  unfold enc_tensor. rewrite len_app. pose proof (len_enc_string (ti_name t)).
  match goal with |- _ ≤ _ + len ?x => pose proof (len_nonneg x) end. lia.
Qed.

Lemma len_encode version kvs ts :
  len (encode version kvs ts) =
    24 + len (concat (enc_kv <$> kvs)) + len (concat (enc_tensor <$> ts)).
Proof.
  unfold encode. rewrite !len_app. unfold len at 1 2 3 4. rewrite !length_enc_uint. lia.
Qed.

Lemma parses_fields version kvs ts :
  version = 2 ∨ version = 3 →
  Forall (λ kv, string_wf kv.1 ∧ value_wf kv.2) kvs → Forall tensor_wf ts →
  len (encode version kvs ts) < 2 ^ 64 →
  parses read_fields (encode version kvs ts) (version, kvs, ts).
Proof.
  intros Hver Hkvs Hts Hlen. rewrite len_encode in Hlen.
  pose proof (len_nonneg (concat (enc_kv <$> kvs))).
  pose proof (len_nonneg (concat (enc_tensor <$> ts))).
  pose proof (length_concat_ge 8 enc_kv kvs (Forall_true _ _ len_enc_kv)).
  pose proof (length_concat_ge 8 enc_tensor ts (Forall_true _ _ len_enc_tensor)).
  assert (∀ n : nat, Z.of_nat n < 2 ^ 64 → uint_wf (Z.of_nat 8) (Z.of_nat n)) as Hcount.
  { intros n Hn. split; [lia|]. change (256 ^ Z.of_nat 8) with (2 ^ 64). lia. }
  eapply parses_bind; [by apply (parses_uint 4)|]. simpl negb.
  eapply parses_bind; [apply (parses_uint 4); split; simpl; lia|].
  replace (negb (version =? 2) && negb (version =? 3)) with false by (destruct Hver as [-> | ->]; done).
  eapply parses_bind; [apply (parses_uint 8), Hcount; lia|].
  eapply parses_bind; [apply (parses_uint 8), Hcount; lia|].
  eapply parses_bind.
  { apply parses_loop; [|apply Forall_true, len_enc_kv].
    rewrite list.Forall_forall in *. intros kv Hin. destruct (Hkvs kv Hin).
    apply parses_kv; [done..|].
    pose proof (len_concat_part (enc_kv <$> kvs) (enc_kv kv) ltac:(by apply list_elem_of_fmap_2)). lia. }
  apply (parses_map _ (λ ts, (version, kvs, ts))).
  apply parses_loop; [|apply Forall_true, len_enc_tensor].
  eapply Forall_impl; [exact Hts|apply parses_tensor].
Qed.


(** ** Tensor byte ranges *)

(** Consecutive ranges from [lo] to [hi], each starting where the previous one
    ends. *)
Fixpoint chained (lo hi : Z) (rs : list TensorRange) : Prop :=
  match rs with
  | [] => lo = hi
  | r :: rs => tr_start r = lo ∧ tr_start r ≤ tr_end r ∧ chained (tr_end r) hi rs
  end.

Definition abs_offset (h : GgufHeader) (t : TensorInfo) : Z := gh_data_offset h + ti_offset t.

Lemma chained_bounds lo hi rs :
  chained lo hi rs → lo ≤ hi ∧ Forall (λ r, lo ≤ tr_start r ≤ tr_end r ∧ tr_end r ≤ hi) rs.
Proof.
  revert lo; induction rs as [|r rs IH]; intros lo H; simpl in *; [by subst|].
  destruct H as (<- & Hle & Hrs). destruct (IH _ Hrs) as [H1 H2]. split; [lia|].
  constructor; [lia|]. eapply Forall_impl; [exact H2|]. simpl. lia.
Qed.

Lemma chained_size lo hi rs :
  chained lo hi rs → zsum ((λ r, tr_end r - tr_start r) <$> rs) = hi - lo.
Proof.
  revert lo; induction rs as [|r rs IH]; intros lo H; [simpl in *; lia|].
  destruct H as (<- & _ & Hrs). rewrite fmap_cons. simpl. rewrite (IH _ Hrs). lia.
Qed.

(** The loop on tensors sorted by offset, when no addition wraps. *)
Lemma ranges_from_spec d fs ts :
  StronglySorted (λ x y, ti_offset x ≤ ti_offset y) ts →
  Forall (λ t, 0 ≤ d + ti_offset t < 2 ^ 64) ts →
  if forallb (λ t, d + ti_offset t <=? fs) ts
  then ∃ rs, ranges_from d fs ts = Ok rs ∧
    (λ r, (tr_name r, tr_start r)) <$> rs = (λ t, (ti_name t, d + ti_offset t)) <$> ts ∧
    match ts with [] => rs = [] | t :: _ => chained (d + ti_offset t) fs rs end
  else ranges_from d fs ts = Err (Malformed OffsetsExceedFile).
Proof.
  induction 1 as [|t ts Hs IH Ht]; intros Hw; [by exists []|].
  inversion Hw as [|? ? Hwt Hws]; subst. specialize (IH Hws). cbn [ranges_from forallb].
  destruct ts as [|u ts].
  - unfold u64_add. rewrite wrap64_small by done. simpl in *. destruct (Z.leb_spec (d + ti_offset t) fs) as [Hle|Hgt]; simpl.
    + rewrite (proj2 (Z.ltb_ge _ _)), (proj2 (Z.ltb_ge _ _)) by lia. simpl.
      eexists; split; [done|]. split; [done|]. simpl. lia.
    + by rewrite (proj2 (Z.ltb_lt _ _)) by lia.
  - inversion Ht as [|? ? Htu _]; subst. inversion Hws as [|? ? Hwu _]; subst.
    rewrite (wrap64_small _ Hwt : u64_add d (ti_offset t) = _).
    rewrite (wrap64_small _ Hwu : u64_add d (ti_offset u) = _).
    rewrite (proj2 (Z.ltb_ge (d + ti_offset u) (d + ti_offset t))) by lia. simpl orb.
    destruct (Z.ltb_spec fs (d + ti_offset u)) as [Hgt|Hle].
    + replace (forallb (λ t, d + ti_offset t <=? fs) (u :: ts)) with false; [by rewrite andb_false_r|].
      simpl. by rewrite (proj2 (Z.leb_gt _ _)) by lia.
    + rewrite (proj2 (Z.leb_le (d + ti_offset t) fs)) by lia. rewrite andb_true_l.
      revert IH. destruct (forallb _ (u :: ts)); intros IH; [|by rewrite IH].
      destruct IH as (rs & -> & Hn & Hc). eexists; split; [reflexivity|].
      split; [exact (f_equal (cons (ti_name t, d + ti_offset t)) Hn)|]. split; [done|]. split; [simpl; lia|done].
Qed.

(** When no absolute offset overflows, [tensor_ranges] accepts exactly the
    headers whose tensors all start within the file, and then cuts the file
    from the first tensor to its end into consecutive non-overlapping ranges,
    one per tensor, each starting at [data_offset + offset]: the sizes add up
    to the whole data section and no range leaves the file. *)
Theorem tensor_ranges_tile h fs :
  Forall (λ t, 0 ≤ abs_offset h t < 2 ^ 64) (gh_tensors h) →
  if forallb (λ t, abs_offset h t <=? fs) (gh_tensors h)
  then ∃ rs, tensor_ranges h fs = Ok rs ∧
    (λ r, (tr_name r, tr_start r)) <$> rs ≡ₚ (λ t, (ti_name t, abs_offset h t)) <$> gh_tensors h ∧
    (rs = [] ∨ ∃ first, Forall (λ t, first ≤ abs_offset h t) (gh_tensors h) ∧
       chained first fs rs ∧ zsum ((λ r, tr_end r - tr_start r) <$> rs) = fs - first)
  else tensor_ranges h fs = Err (Malformed OffsetsExceedFile).
Proof.
  intros Hw. unfold tensor_ranges. set (ts := sort_by (cmp_key ti_offset) (gh_tensors h)).
  assert (ts ≡ₚ gh_tensors h) as Hp by apply sort_by_Permutation.
  assert (StronglySorted (λ x y, ti_offset x ≤ ti_offset y) ts) as Hs by apply sort_by_key_Sorted.
  rewrite <- Hp in Hw. pose proof (ranges_from_spec (gh_data_offset h) fs ts Hs Hw) as Hspec.
  replace (forallb (λ t, abs_offset h t <=? fs) (gh_tensors h)) with
    (forallb (λ t, gh_data_offset h + ti_offset t <=? fs) ts).
  2: { apply eq_bool_prop_intro. rewrite !forallb_True. by rewrite Hp. }
  destruct (forallb _ ts); [|done]. destruct Hspec as (rs & -> & Hn & Hc).
  exists rs. split; [done|]. split; [by rewrite Hn, Hp|].
  destruct ts as [|t ts]; [by left|right]. exists (gh_data_offset h + ti_offset t).
  split; [|split; [done|by apply chained_size]]. rewrite <- Hp.
  inversion Hs as [|? ? _ Ht]; subst. unfold abs_offset.
  constructor; [lia|]. eapply Forall_impl; [exact Ht|]. simpl. lia.
Qed.

(** ** Examples *)
Definition ex_kvs : list (string * MetaValue) :=
  [("general.architecture", Str "llama"); ("llama.block_count", U32 2);
   ("general.alignment", U32 64); ("tokens", Arr [I16 (-3); I16 7])].
Definition ex_tensors : list TensorInfo :=
  [MkTensorInfo "blk.1.w" [4; 4] 0 128; MkTensorInfo "blk.0.w" [4; 4] 0 0;
   MkTensorInfo "out" [8] 1 192].
Definition ex_file : bytes := encode 3 ex_kvs ex_tensors ++ replicate 300 (byte_of 7).

Lemma ex_kvs_wf : Forall (λ kv, string_wf kv.1 ∧ value_wf kv.2) ex_kvs.
Proof.
  repeat constructor; simpl; try done; try lia.
  exists T_I16. repeat constructor; simpl; lia.
Qed.
Lemma ex_tensors_wf : Forall tensor_wf ex_tensors.
Proof. repeat constructor; simpl; lia. Qed.

Definition ex_header : GgufHeader :=
  match parse ex_file with Ok h => h | _ => MkHeader 0 ∅ [] 0 0 0 end.

Lemma parse_sound_witness :
  len ex_file < 2 ^ 63 ∧ parse ex_file = Ok ex_header ∧
  24 ≤ gh_header_len ex_header ≤ len ex_file ∧ fields_wf ex_header ∧ aligned_after ex_header.
Proof.
  split; [by vm_compute|]. split; [by vm_compute|].
  apply (proj2 (parse_sound ex_file ltac:(by vm_compute))). by vm_compute.
Defined.

Lemma parse_prefix_stable_witness :
  definite (parse ex_file) ∧ parse (ex_file ++ [byte_of 1]) = parse ex_file ∧
  parse (take 40 ex_file) = Err (NeedMoreData 80).
Proof.
  split; [by vm_compute|]. split; [|by vm_compute].
  apply (parse_prefix_stable ex_file [byte_of 1]). by vm_compute.
Defined.


Definition ex_ranges_header : GgufHeader := MkHeader 3 ∅ ex_tensors 250 64 256.

Lemma tensor_ranges_tile_witness :
  ∃ rs, tensor_ranges ex_ranges_header 700 = Ok rs ∧
    (λ r, (tr_name r, tr_start r)) <$> rs ≡ₚ
      (λ t, (ti_name t, abs_offset ex_ranges_header t)) <$> ex_tensors ∧
    (rs = [] ∨ ∃ first, Forall (λ t, first ≤ abs_offset ex_ranges_header t) ex_tensors ∧
       chained first 700 rs ∧ zsum ((λ r, tr_end r - tr_start r) <$> rs) = 700 - first).
Proof.
  apply (tensor_ranges_tile ex_ranges_header 700).
  repeat constructor; unfold abs_offset; simpl; lia.
Defined.

(** Without the no-overflow premise the guarantee fails: the unchecked
    addition [data_offset + offset] wraps, so a parsed header whose tensor
    offset is close to 2^64 is accepted with a range that starts before the
    tensor-data section, inside the header. *)
Theorem tensor_ranges_offset_wraps :
  ∃ bs h r, parse bs = Ok h ∧ tensor_ranges h (len bs) = Ok [r] ∧
    tr_start r < gh_header_len h ≤ gh_data_offset h.
Proof.
  exists (encode 3 [] [MkTensorInfo "t" [1] 0 (2 ^ 64 - 64)] ++ replicate 40 (byte_of 0)).
  eexists _, _. split; [vm_compute; reflexivity|]. split; [vm_compute; reflexivity|].
  vm_compute. split; [done|discriminate].
Qed.
