(* ===== verification/StrUtil.v ===== *)
(** * String functions

    The parts of Rust's [str] API the code uses, on strings of UTF-8 bytes.
    Every separator and prefix the code searches for is ASCII, so searching
    bytes and searching characters agree. *)

From Stdlib Require Import ZArith Lia Ascii String.
From S2P Require Import Prelude.
From stdpp Require Import base list strings option.

Open Scope Z_scope.

(** [str::strip_prefix]. *)
Fixpoint strip_prefix (p s : string) : option string :=
  match p, s with
  | EmptyString, _ => Some s
  | String a p, String b s => if Ascii.eqb a b then strip_prefix p s else None
  | String _ _, EmptyString => None
  end.

Definition starts_with (p s : string) : bool :=
  match strip_prefix p s with Some _ => true | None => false end.

(** [str::contains]. *)
Fixpoint contains (needle s : string) : bool :=
  starts_with needle s ||
  match s with EmptyString => false | String _ s => contains needle s end.

(** [str::split(c)]: the pieces between separators, at least one. *)
Fixpoint split_char (c : ascii) (s : string) : list string :=
  match s with
  | EmptyString => [""]
  | String a s =>
      if Ascii.eqb a c then "" :: split_char c s
      else match split_char c s with
           | piece :: rest => String a piece :: rest
           | [] => [String a ""]
           end
  end.

(** [str::split(c).next()]. *)
Definition split_next (c : ascii) (s : string) : option string := head (split_char c s).

(** [str::split_once(c)]. *)
Fixpoint split_once (c : ascii) (s : string) : option (string * string) :=
  match s with
  | EmptyString => None
  | String a s =>
      if Ascii.eqb a c then Some ("", s)
      else match split_once c s with
           | Some (l, r) => Some (String a l, r)
           | None => None
           end
  end.

Definition digit_val (a : ascii) : option Z :=
  let v := Z.of_N (N_of_ascii a) - 48 in
  if (0 <=? v) && (v <=? 9) then Some v else None.
Definition is_digit (a : ascii) : bool := match digit_val a with Some _ => true | None => false end.

Fixpoint digits_val (acc : Z) (s : string) : option Z :=
  match s with
  | EmptyString => Some acc
  | String a s => d ← digit_val a; digits_val (10 * acc + d) s
  end.

(** Does every byte of a string satisfy a test? *)
Fixpoint str_all (p : ascii → bool) (s : string) : bool :=
  match s with EmptyString => true | String a s => p a && str_all p s end.

(** [str::parse] to an unsigned integer: an optional plus sign, at least one
    digit, and no value above [max]. *)
Definition parse_uint (max : Z) (s : string) : option Z :=
  let s := match s with String "+" r => r | _ => s end in
  match s with
  | EmptyString => None
  | _ => v ← digits_val 0 s; if v <=? max then Some v else None
  end.

Definition digit_char (d : Z) : ascii := ascii_of_N (Z.to_N (48 + d)).

(** [format!("{:0w$}", n)] for a number of at most [w] digits. *)
Fixpoint print_padded (w : nat) (n : Z) : string :=
  match w with
  | O => ""
  | S w => print_padded w (n / 10) +:+ String (digit_char (n mod 10)) ""
  end.

(** The number of decimal digits, at least one. *)
Fixpoint num_digits (fuel : nat) (n : Z) : nat :=
  match fuel with
  | O => 1
  | S fuel => if n <? 10 then 1 else S (num_digits fuel (n / 10))
  end.

(** [format!("{n}")] for a number below 10^20, that is for any [u64]. *)
Definition print_uint (n : Z) : string := print_padded (num_digits 20 n) n.

(** ** Facts *)
Lemma string_cons_app x (a b : string) : String x a +:+ b = String x (a +:+ b).
Proof. done. Qed.
Lemma string_nil_app (b : string) : "" +:+ b = b.
Proof. done. Qed.

(** [simpl] with the equations of [+:+]. *)
Ltac str_simpl := simpl; rewrite ?string_cons_app, ?string_nil_app; simpl.

Lemma strip_prefix_app p s : strip_prefix p (p +:+ s) = Some s.
Proof. induction p as [|a p IH]; str_simpl; [done|]. by rewrite Ascii.eqb_refl. Qed.

Lemma strip_prefix_Some p s r : strip_prefix p s = Some r ↔ s = p +:+ r.
Proof.
  split; [|intros ->; apply strip_prefix_app].
  revert s; induction p as [|a p IH]; intros s H; simpl in *; [by simplify_eq|].
  destruct s as [|b s]; [done|]. destruct (Ascii.eqb_spec a b) as [->|]; [|done].
  rewrite string_cons_app. by rewrite (IH s).
Qed.

Lemma split_char_ne c s : split_char c s ≠ [].
Proof. destruct s as [|a s]; simpl; [done|]. destruct (Ascii.eqb a c); [done|]. by destruct (split_char c s). Qed.

Lemma split_once_None_iff c s : split_once c s = None ↔ str_all (λ a, negb (Ascii.eqb a c)) s = true.
Proof.
  induction s as [|a s IH]; simpl; [done|].
  destruct (Ascii.eqb a c) eqn:E; simpl; [done|].
  destruct (split_once c s) as [[]|]; rewrite <- IH; done.
Qed.

Lemma string_app_assoc (a b c : string) : (a +:+ b) +:+ c = a +:+ (b +:+ c).
Proof. induction a as [|x a IH]; str_simpl; [done|]. f_equal. apply IH. Qed.
Lemma string_app_nil_r (s : string) : s +:+ "" = s.
Proof. induction s as [|a s IH]; str_simpl; [done|]. by rewrite IH. Qed.
Lemma string_length_app (a b : string) : String.length (a +:+ b) = (String.length a + String.length b)%nat.
Proof. induction a; str_simpl; auto. Qed.

Lemma str_all_app p a b : str_all p (a +:+ b) = str_all p a && str_all p b.
Proof. induction a as [|x a IH]; str_simpl; [done|]. by rewrite IH, andb_assoc. Qed.

Lemma split_char_free c s : str_all (λ a, negb (Ascii.eqb a c)) s = true → split_char c s = [s].
Proof.
  induction s as [|a s IH]; simpl; [done|]. intros [Ha Hs]%andb_prop.
  destruct (Ascii.eqb a c); [done|]. by rewrite IH.
Qed.

Lemma split_char_app c s r :
  str_all (λ a, negb (Ascii.eqb a c)) s = true →
  split_char c (s +:+ String c r) = s :: split_char c r.
Proof.
  induction s as [|a s IH]; str_simpl; [by rewrite Ascii.eqb_refl|]. intros [Ha Hs]%andb_prop.
  destruct (Ascii.eqb a c); [done|]. by rewrite IH.
Qed.

Lemma split_once_app c s r :
  str_all (λ a, negb (Ascii.eqb a c)) s = true →
  split_once c (s +:+ String c r) = Some (s, r).
Proof.
  induction s as [|a s IH]; str_simpl; [by rewrite Ascii.eqb_refl|]. intros [Ha Hs]%andb_prop.
  destruct (Ascii.eqb a c); [done|]. by rewrite IH.
Qed.

Lemma digit_val_char d : 0 ≤ d < 10 → digit_val (digit_char d) = Some d.
Proof.
  intros Hd. unfold digit_val, digit_char. rewrite N_ascii_embedding by lia.
  rewrite Z2N.id by lia. replace (48 + d - 48) with d by lia.
  by rewrite (proj2 (Z.leb_le 0 d)), (proj2 (Z.leb_le d 9)) by lia.
Qed.
Lemma is_digit_char d : 0 ≤ d < 10 → is_digit (digit_char d) = true.
Proof. intros Hd. unfold is_digit. by rewrite digit_val_char. Qed.

Lemma digits_val_app acc s r :
  digits_val acc (s +:+ r) = v ← digits_val acc s; digits_val v r.
Proof.
  revert acc; induction s as [|a s IH]; intros acc; str_simpl; [done|].
  destruct (digit_val a); simpl; [apply IH|done].
Qed.

Lemma digits_val_padded w n : 0 ≤ n < 10 ^ Z.of_nat w → digits_val 0 (print_padded w n) = Some n.
Proof.
  revert n; induction w as [|w IH]; intros n Hn; [simpl in *; f_equal; lia|].
  rewrite Nat2Z.inj_succ, Z.pow_succ_r in Hn by lia. simpl print_padded.
  rewrite digits_val_app, IH by (split; [apply Z.div_pos; lia|apply Z.div_lt_upper_bound; lia]).
  simpl. rewrite digit_val_char by (apply Z.mod_pos_bound; lia). simpl. f_equal.
  pose proof (Z.div_mod n 10 ltac:(lia)). lia.
Qed.

Lemma print_padded_digits w n : str_all is_digit (print_padded w n) = true.
Proof.
  revert n; induction w as [|w IH]; intros n; [done|]. simpl print_padded.
  rewrite str_all_app, IH. simpl. by rewrite is_digit_char by (apply Z.mod_pos_bound; lia).
Qed.
Lemma print_padded_length w n : String.length (print_padded w n) = w.
Proof.
  revert n; induction w as [|w IH]; intros n; [done|]. simpl print_padded.
  rewrite string_length_app, IH. simpl. lia.
Qed.

Lemma is_digit_neq a c : is_digit a = true → is_digit c = false → Ascii.eqb a c = false.
Proof. intros Ha Hc. destruct (Ascii.eqb_spec a c) as [->|]; [congruence|done]. Qed.

Lemma str_all_impl (p q : ascii → bool) s :
  (∀ a, p a = true → q a = true) → str_all p s = true → str_all q s = true.
Proof.
  intros Hpq. induction s as [|a s IH]; simpl; [done|]. intros [Ha Hs]%andb_prop.
  by rewrite Hpq, IH.
Qed.

(** A digit string holds no other character. *)
Lemma digits_free c s :
  is_digit c = false → str_all is_digit s = true → str_all (λ a, negb (Ascii.eqb a c)) s = true.
Proof. intros Hc. apply str_all_impl. intros a Ha. by rewrite is_digit_neq. Qed.

Lemma parse_uint_digits max s :
  s ≠ "" → str_all is_digit s = true →
  parse_uint max s = v ← digits_val 0 s; if v <=? max then Some v else None.
Proof.
  intros Hne Hd. unfold parse_uint. destruct s as [|a s]; [done|].
  simpl in Hd. apply andb_prop in Hd as [Ha _].
  destruct a as [[] [] [] [] [] [] [] []]; try done; by vm_compute in Ha.
Qed.

Lemma num_digits_spec fuel n : 0 ≤ n < 10 ^ Z.of_nat fuel → (0 < fuel)%nat →
  n < 10 ^ Z.of_nat (num_digits fuel n) ∧ (0 < num_digits fuel n)%nat.
Proof.
  revert n; induction fuel as [|fuel IH]; intros n Hn Hf; [lia|]. simpl num_digits.
  destruct (Z.ltb_spec n 10) as [Hlt|Hge]; [split; [simpl; lia|lia]|].
  rewrite Nat2Z.inj_succ, Z.pow_succ_r in Hn by lia.
  destruct (IH (n / 10)) as [H1 H2].
  - split; [apply Z.div_pos; lia|apply Z.div_lt_upper_bound; lia].
  - destruct fuel; [simpl in Hn; lia|lia].
  - split; [|lia]. rewrite Nat2Z.inj_succ, Z.pow_succ_r by lia.
    pose proof (Z.div_mod n 10 ltac:(lia)). pose proof (Z.mod_pos_bound n 10 ltac:(lia)). lia.
Qed.

Lemma parse_padded max w n :
  (0 < w)%nat → 0 ≤ n < 10 ^ Z.of_nat w → n ≤ max → parse_uint max (print_padded w n) = Some n.
Proof.
  intros Hw Hn Hm. rewrite parse_uint_digits.
  - rewrite digits_val_padded by done. simpl. by rewrite (proj2 (Z.leb_le _ _)).
  - intros He. apply (f_equal String.length) in He. rewrite print_padded_length in He. simpl in He. lia.
  - apply print_padded_digits.
Qed.

(** Printing a number and parsing it back. *)
Lemma parse_print_uint max n : in_u64 n → n ≤ max → parse_uint max (print_uint n) = Some n.
Proof.
  unfold in_u64, print_uint. intros Hn Hm.
  destruct (num_digits_spec 20 n) as [H1 H2]; [split; [lia|]|lia|].
  { eapply Z.lt_trans; [apply Hn|]. by vm_compute. }
  apply parse_padded; [done|lia|done].
Qed.

Lemma print_uint_digits n : str_all is_digit (print_uint n) = true.
Proof. apply print_padded_digits. Qed.

(** ** Slices and case *)
Fixpoint str_take (n : nat) (s : string) : string :=
  match n, s with
  | S n, String a s => String a (str_take n s)
  | _, _ => ""
  end.
Fixpoint str_drop (n : nat) (s : string) : string :=
  match n, s with
  | O, _ => s
  | S n, String _ s => str_drop n s
  | S _, EmptyString => ""
  end.
(** [s[a..b]]. *)
Definition str_slice (a b : nat) (s : string) : string := str_take (b - a) (str_drop a s).

(** [str::to_ascii_lowercase]. *)
Definition ascii_lower (a : ascii) : ascii :=
  let v := N_of_ascii a in
  if (65 <=? v)%N && (v <=? 90)%N then ascii_of_N (v + 32) else a.
Fixpoint to_lower (s : string) : string :=
  match s with EmptyString => "" | String a s => String (ascii_lower a) (to_lower s) end.

(** [str::ends_with]. *)
Definition ends_with (suffix s : string) : bool :=
  (String.length suffix <=? String.length s)%nat &&
  String.eqb (str_drop (String.length s - String.length suffix) s) suffix.

(** [str::is_char_boundary]: the end, or a byte that does not continue a
    UTF-8 sequence. *)
Definition is_char_boundary (n : nat) (s : string) : bool :=
  match str_drop n s with
  | EmptyString => (n =? String.length s)%nat
  | String a _ => negb ((128 <=? N_of_ascii a)%N && (N_of_ascii a <? 192)%N)
  end.

(** The longest prefix, or suffix, without a byte satisfying [p]. *)
Fixpoint str_span (p : ascii → bool) (s : string) : string * string :=
  match s with
  | EmptyString => ("", "")
  | String a r => if p a then ("", s) else let '(x, y) := str_span p r in (String a x, y)
  end.

(** [str::rfind(p)] followed by a split: what precedes the last byte
    satisfying [p], and what follows it. *)
Fixpoint rsplit_once (p : ascii → bool) (s : string) : option (string * string) :=
  match s with
  | EmptyString => None
  | String a r =>
      match rsplit_once p r with
      | Some (x, y) => Some (String a x, y)
      | None => if p a then Some ("", r) else None
      end
  end.

(** [format!("{:0w$}", n)]. *)
Definition print_min (w : nat) (n : Z) : string := print_padded (Nat.max w (num_digits 20 n)) n.

Lemma str_take_app a b : str_take (String.length a) (a +:+ b) = a.
Proof. induction a as [|x a IH]; str_simpl; [by destruct b|]. by rewrite IH. Qed.
Lemma str_drop_app a b : str_drop (String.length a) (a +:+ b) = b.
Proof. induction a as [|x a IH]; str_simpl; [done|]. apply IH. Qed.
Lemma str_take_drop n s : str_take n s +:+ str_drop n s = s.
Proof. revert s; induction n as [|n IH]; intros [|a s]; str_simpl; try done. by rewrite IH. Qed.
Lemma str_take_length n s : String.length (str_take n s) = Nat.min n (String.length s).
Proof. revert s; induction n as [|n IH]; intros [|a s]; simpl; try done. by rewrite IH. Qed.
Lemma str_drop_length n s : String.length (str_drop n s) = (String.length s - n)%nat.
Proof. revert s; induction n as [|n IH]; intros [|a s]; simpl; try done. Qed.

Lemma to_lower_app a b : to_lower (a +:+ b) = to_lower a +:+ to_lower b.
Proof. induction a as [|x a IH]; str_simpl; [done|]. by rewrite IH. Qed.
Lemma to_lower_length s : String.length (to_lower s) = String.length s.
Proof. induction s; simpl; auto. Qed.
Lemma to_lower_drop n s : str_drop n (to_lower s) = to_lower (str_drop n s).
Proof. revert s; induction n as [|n IH]; intros [|a s]; simpl; auto. Qed.

Lemma ends_with_Some suffix s :
  ends_with suffix s = true ↔ ∃ r, s = r +:+ suffix.
Proof.
  unfold ends_with. rewrite andb_true_iff, Nat.leb_le, String.eqb_eq. split.
  - intros [_ H]. exists (str_take (String.length s - String.length suffix) s). by rewrite <- H at 2; rewrite str_take_drop.
  - intros [r ->]. rewrite string_length_app. split; [lia|].
    replace (String.length r + String.length suffix - String.length suffix)%nat with (String.length r) by lia.
    apply str_drop_app.
Qed.

Lemma str_app_inj a b c d : String.length a = String.length c → a +:+ b = c +:+ d → a = c ∧ b = d.
Proof.
  revert c; induction a as [|x a IH]; intros [|y c] Hl H; simpl in Hl; try lia.
  - by rewrite !string_nil_app in H.
  - rewrite !string_cons_app in H. injection H as -> H. destruct (IH c) as [-> ->]; [lia|done|done].
Qed.

(** A digit string is the zero-padded print of its value. *)
Lemma print_padded_cons w d v :
  0 ≤ d < 10 → 0 ≤ v < 10 ^ Z.of_nat w →
  print_padded (S w) (d * 10 ^ Z.of_nat w + v) = String (digit_char d) (print_padded w v).
Proof.
  revert v. induction w as [|w IH]; intros v Hd Hv.
  { simpl in Hv. change (10 ^ Z.of_nat 0) with 1. replace (d * 1 + v) with d by lia.
    simpl. rewrite Z.mod_small by lia. done. }
  change (print_padded (S (S w)) (d * 10 ^ Z.of_nat (S w) + v)) with
    (print_padded (S w) ((d * 10 ^ Z.of_nat (S w) + v) / 10) +:+
       String (digit_char ((d * 10 ^ Z.of_nat (S w) + v) mod 10)) "").
  rewrite Nat2Z.inj_succ, Z.pow_succ_r in * by lia. set (p := 10 ^ Z.of_nat w) in *.
  replace (d * (10 * p) + v) with (v + d * p * 10) by lia.
  rewrite Z.div_add, Z.mod_add by lia. rewrite Z.add_comm.
  unfold p. rewrite IH; [|done|split; [apply Z.div_pos; lia|apply Z.div_lt_upper_bound; lia]].
  by rewrite string_cons_app.
Qed.

Lemma digits_val_print s acc v :
  digits_val acc s = Some v →
  ∃ x, 0 ≤ x < 10 ^ Z.of_nat (String.length s) ∧ v = acc * 10 ^ Z.of_nat (String.length s) + x ∧
    s = print_padded (String.length s) x.
Proof.
  revert acc. induction s as [|a s IH]; intros acc H; simpl in H.
  { injection H as <-. exists 0. simpl. split; [lia|]. split; [lia|done]. }
  destruct (digit_val a) as [d|] eqn:Ed; [|done]. simpl in H.
  assert (0 ≤ d < 10 ∧ a = digit_char d) as [Hd ->].
  { unfold digit_val in Ed. destruct (_ && _) eqn:E; [|done]. injection Ed as <-.
    rewrite andb_true_iff, !Z.leb_le in E. split; [lia|]. unfold digit_char.
    replace (48 + (Z.of_N (N_of_ascii a) - 48)) with (Z.of_N (N_of_ascii a)) by lia.
    by rewrite N2Z.id, ascii_N_embedding. }
  destruct (IH _ H) as (x & Hx & -> & Hs). set (p := 10 ^ Z.of_nat (String.length s)) in *.
  exists (d * p + x). simpl String.length. rewrite Nat2Z.inj_succ, Z.pow_succ_r by lia. fold p.
  split; [nia|]. split; [lia|]. unfold p. rewrite print_padded_cons by done. by rewrite <- Hs.
Qed.

Lemma parse_digits_print max s v :
  str_all is_digit s = true → parse_uint max s = Some v →
  0 ≤ v < 10 ^ Z.of_nat (String.length s) ∧ v ≤ max ∧ s = print_padded (String.length s) v.
Proof.
  intros Hd H. destruct s as [|a s]; [done|]. rewrite parse_uint_digits in H by done.
  destruct (digits_val 0 (String a s)) as [w|] eqn:E; simpl in H; [|done].
  destruct (Z.leb_spec w max); [|done]. injection H as <-.
  destruct (digits_val_print _ _ _ E) as (x & Hx & -> & Hs). split; [lia|]. split; [lia|].
  by replace (0 * _ + x) with x by lia.
Qed.

Lemma num_digits_le n w fuel : 0 ≤ n < 10 ^ Z.of_nat w → (0 < w)%nat → (num_digits fuel n ≤ w)%nat.
Proof.
  revert n w. induction fuel as [|fuel IH]; intros n w Hn Hw; simpl; [lia|].
  destruct (Z.ltb_spec n 10); [lia|]. destruct w as [|w]; [lia|].
  rewrite Nat2Z.inj_succ, Z.pow_succ_r in Hn by lia.
  assert (0 < w)%nat by (destruct w; [simpl in Hn; lia|lia]).
  specialize (IH (n / 10) w). assert (num_digits fuel (n / 10) ≤ w)%nat; [|lia].
  apply IH; [|done]. split; [apply Z.div_pos; lia|apply Z.div_lt_upper_bound; lia].
Qed.

Lemma print_min_small w n : (0 < w)%nat → 0 ≤ n < 10 ^ Z.of_nat w → print_min w n = print_padded w n.
Proof.
  intros Hw Hn. unfold print_min. pose proof (num_digits_le n w 20 Hn Hw).
  by rewrite Nat.max_l.
Qed.

Lemma str_span_app p a b :
  str_all (λ x, negb (p x)) a = true → (∀ x r, b = String x r → p x = true) →
  str_span p (a +:+ b) = (a, b).
Proof.
  induction a as [|x a IH]; str_simpl; intros Ha Hb.
  - destruct b as [|y b]; [done|]. simpl. by rewrite (Hb y b eq_refl).
  - apply andb_prop in Ha as [Hx Ha]. destruct (p x); [done|]. by rewrite (IH Ha Hb).
Qed.

Lemma rsplit_once_free p s : str_all (λ x, negb (p x)) s = true → rsplit_once p s = None.
Proof.
  induction s as [|x s IH]; simpl; [done|]. intros [Hx Hs]%andb_prop. rewrite (IH Hs). by destruct (p x).
Qed.

Lemma rsplit_once_app p a c b :
  p c = true → str_all (λ x, negb (p x)) b = true → rsplit_once p (a +:+ String c b) = Some (a, b).
Proof.
  intros Hc Hb. induction a as [|x a IH]; str_simpl.
  - by rewrite (rsplit_once_free p b Hb), Hc.
  - by rewrite IH.
Qed.

(** ** String order *)
Lemma ascii_compare_N a b : Ascii.compare a b = N.compare (N_of_ascii a) (N_of_ascii b).
Proof. done. Qed.

#[global] Instance string_compare_ok : CmpOk String.compare.
Proof.
  split; [apply String.compare_antisym|].
  intros x y z. unfold cmp_le. revert y z. induction x as [|a x IH]; intros [|b y] [|c z]; simpl; try done.
  rewrite !ascii_compare_N.
  destruct (N.compare_spec (N_of_ascii a) (N_of_ascii b)) as [Hab|Hab|Hab]; [|..|done];
    destruct (N.compare_spec (N_of_ascii b) (N_of_ascii c)) as [Hbc|Hbc|Hbc]; try done;
    destruct (N.compare_spec (N_of_ascii a) (N_of_ascii c)) as [Hac|Hac|Hac]; try done; try lia.
  intros H1 H2. by apply (IH y z).
Qed.

(** ** Trimming

    [char::is_whitespace] in UTF-8: the characters with the Unicode property
    White_Space, by their bytes. *)
Definition bytes_str (l : list N) : string := String.string_of_list_ascii (ascii_of_N <$> l).
Definition whitespace : list string :=
  bytes_str <$>
    (((λ b, [b]) <$> [9; 10; 11; 12; 13; 32]) ++
     [[194; 133]; [194; 160]; [225; 154; 128]] ++
     ((λ b, [226; 128; b]) <$> [128; 129; 130; 131; 132; 133; 134; 135; 136; 137; 138; 168; 169; 175]) ++
     [[226; 129; 159]; [227; 128; 128]])%N.

(** The rest after the first of the prefixes that applies. *)
Fixpoint strip_any (ps : list string) (s : string) : option string :=
  match ps with
  | [] => None
  | p :: ps => match strip_prefix p s with Some r => Some r | None => strip_any ps s end
  end.

(** Strip prefixes as long as one applies; every one is at least a byte, so
    the length of the string is enough fuel. *)
Fixpoint strip_while (ps : list string) (fuel : nat) (s : string) : string :=
  match fuel with
  | O => s
  | S fuel => match strip_any ps s with Some r => strip_while ps fuel r | None => s end
  end.

Definition str_rev (s : string) : string := String.string_of_list_ascii (reverse (String.list_ascii_of_string s)).

(** [str::trim_start], [str::trim_end] and [str::trim]; the end is trimmed as
    the start of the bytes in reverse order. *)
Definition trim_start (s : string) : string := strip_while whitespace (String.length s) s.
Definition trim_end (s : string) : string :=
  str_rev (strip_while (str_rev <$> whitespace) (String.length s) (str_rev s)).
Definition trim (s : string) : string := trim_end (trim_start s).

(** [str::lines]: a carriage return goes with the line break after it. *)
Definition newline : ascii := "010".
Definition strip_cr (l : string) : string :=
  if ends_with (String "013" EmptyString) l then str_take (String.length l - 1) l else l.
Fixpoint close_lines (ls : list string) : list string :=
  match ls with
  | [] => []
  | [l] => if String.eqb l "" then [] else [l]
  | l :: ls => strip_cr l :: close_lines ls
  end.
Definition str_lines (text : string) : list string := close_lines (split_char newline text).

(** The next piece of [str::split_whitespace], and what follows it. *)
Fixpoint take_word (s : string) : string * string :=
  match s with
  | EmptyString => ("", "")
  | String a r =>
      match strip_any whitespace s with
      | Some _ => ("", s)
      | None => let '(w, rest) := take_word r in (String a w, rest)
      end
  end.
Definition next_word (s : string) : option (string * string) :=
  let s := trim_start s in if String.eqb s "" then None else Some (take_word s).

Lemma str_rev_involutive s : str_rev (str_rev s) = s.
Proof.
  unfold str_rev. rewrite String.list_ascii_of_string_of_list_ascii, reverse_involutive.
  apply String.string_of_list_ascii_of_string.
Qed.

Lemma strip_while_id ps n s : strip_any ps s = None → strip_while ps n s = s.
Proof. destruct n; simpl; [done|]. by intros ->. Qed.

Lemma strip_any_None ps s : strip_any ps s = None ↔ Forall (λ p, strip_prefix p s = None) ps.
Proof.
  induction ps as [|p ps IH]; simpl; [by split|]. rewrite list.Forall_cons, <- IH.
  destruct (strip_prefix p s); naive_solver.
Qed.

(** Text that neither starts nor ends with white space is kept. *)
Lemma trim_id s :
  strip_any whitespace s = None → strip_any (str_rev <$> whitespace) (str_rev s) = None → trim s = s.
Proof.
  intros H1 H2. unfold trim, trim_end, trim_start. rewrite (strip_while_id _ _ s H1), strip_while_id by done.
  apply str_rev_involutive.
Qed.
