(* ===== verification/Dims.v ===== *)
(** * Model dimensions

    Models [crates/onebrain-scheduler/src/dims.rs]: the per-layer weight bytes
    and the KV-cache rate derived from a GGUF header, with the MoE compute
    scaling. *)

From Stdlib Require Import ZArith Lia QArith Qabs Lqa Sorted Permutation Ascii.
From S2P Require Import Prelude Float FloatFacts Proto Gguf SchedLib.
From stdpp Require Import base list strings gmap.
From S2P Require Import StrUtil.

Open Scope Z_scope.

Record ModelDims := MkModelDims {
  md_n_layers : Z;
  md_kv_rate : Z;
  md_weights : list Z;
  md_total : Z;
  md_n_embd : Z;
  md_n_expert : Z;
  md_n_expert_used : Z;
  md_experts : list Z }.

Definition kv_bytes_per_layer (d : ModelDims) (ctx_len : Z) : Z :=
  u64_mul (md_kv_rate d) ctx_len.

Definition total_required_bytes (d : ModelDims) (ctx_len : Z) : Z :=
  u64_add (md_total d) (u64_mul (md_n_layers d) (kv_bytes_per_layer d ctx_len)).

Definition mean_weight_bytes_per_layer (d : ModelDims) : Z :=
  div_ceil (md_total d) (Z.max (md_n_layers d) 1).

Definition moe_scaled (d : ModelDims) : bool :=
  (0 <? md_n_expert d) && (0 <? md_n_expert_used d) && (md_n_expert_used d <? md_n_expert d).

Definition active_compute_fraction (d : ModelDims) (layer : nat) : fl :=
  if negb (moe_scaled d) then fone
  else
    let total := default 0 (md_weights d !! layer) in
    let expert := Z.min (default 0 (md_experts d !! layer)) total in
    if total =? 0 then fone
    else
      let used := fdiv b64 (of_Z b64 (md_n_expert_used d)) (of_Z b64 (md_n_expert d)) in
      fdiv b64
        (fadd b64 (of_Z b64 (total - expert)) (fmul b64 (of_Z b64 expert) used))
        (of_Z b64 total).

Definition active_compute_units (d : ModelDims) (start stop : Z) : fl :=
  let span := sat_sub stop start in
  if negb (moe_scaled d) then of_Z b64 span
  else fsum b64 (active_compute_fraction d <$> seq (Z.to_nat start) (Z.to_nat span)).

(** Synthetic dimensions from a total and a layer count. *)
Definition uniform (total_weight_bytes n_layers : Z) : ModelDims :=
  let n := Z.max n_layers 1 in
  let per := total_weight_bytes / n in
  let assigned := u64_mul per n in
  let weights := replicate (Z.to_nat n) per in
  let weights :=
    alter (λ l, u64_add l (u64_sub total_weight_bytes assigned)) (length weights - 1)%nat weights in
  MkModelDims n 0 weights total_weight_bytes 0 0 0 (replicate (Z.to_nat n) 0).

(** ** Derivation from a header *)
Definition meta_u64 (header : GgufHeader) (key : string) : option Z :=
  gh_metadata header !! key ≫= as_u64.

(** [meta_u64(..).filter(|n| *n > 0)]. *)
Definition meta_pos (header : GgufHeader) (key : string) : option Z :=
  match meta_u64 header key with Some n => if 0 <? n then Some n else None | None => None end.

Definition embd_kv (header : GgufHeader) (arch : string) (n_embd : Z) : Z :=
  match meta_pos header (arch +:+ ".attention.head_count") with
  | Some n_head =>
      let head_dim := n_embd / n_head in
      let n_head_kv := default n_head (meta_pos header (arch +:+ ".attention.head_count_kv")) in
      Z.max (Z.min (u64_mul n_head_kv head_dim) n_embd) 1
  | None => n_embd
  end.

Definition expert_u32 (header : GgufHeader) (arch suffix : string) : res ScheduleError Z :=
  let key := arch +:+ "." +:+ suffix in
  match meta_pos header key with
  | None => Ok 0
  | Some v => if v <=? u32_max then Ok v else Err (BadModel (AbsurdExpertKey key v))
  end.

Record DimsAcc := MkDimsAcc { da_weights : list Z; da_experts : list Z; da_total : Z }.

(** The layer a tensor's bytes are charged to, and whether it is a routed
    expert stack. *)
Definition dims_slot (n_layers : Z) (name : string) : res ScheduleError (nat * bool) :=
  match strip_prefix "blk." name with
  | Some rest =>
      idx ← ok_or (split_next "."%char rest ≫= parse_uint u64_max) (BadModel (MalformedBlockIndex name));
      if n_layers <=? idx then Err (BadModel (LayerOutOfRange name idx n_layers))
      else Ok (Z.to_nat idx, contains "_exps" rest)
  | None => if starts_with "token_embd" name then Ok (0%nat, false)
            else Ok (Z.to_nat (n_layers - 1), false)
  end.

Definition dims_step (n_layers : Z) (acc : DimsAcc) (range : TensorRange) : res ScheduleError DimsAcc :=
  let size := u64_sub (tr_end range) (tr_start range) in
  let total := u64_add (da_total acc) size in
  '(slot, routed) ← dims_slot n_layers (tr_name range);
  let add l := u64_add l size in
  Ok (MkDimsAcc (alter add slot (da_weights acc))
        (if routed : bool then alter add slot (da_experts acc) else da_experts acc) total).

Definition model_dims (header : GgufHeader) (file_size : Z) : res ScheduleError ModelDims :=
  arch ← ok_or (architecture header) (MissingMetadata "general.architecture");
  n_layers ← ok_or (meta_pos header (arch +:+ ".block_count"))
               (MissingMetadata (arch +:+ ".block_count"));
  if u32_max <? n_layers then Err (BadModel (AbsurdLayerCount n_layers))
  else
    n_embd ← ok_or (meta_pos header (arch +:+ ".embedding_length"))
               (MissingMetadata (arch +:+ ".embedding_length"));
    let kv_rate := u64_mul 4 (embd_kv header arch n_embd) in
    n_expert ← expert_u32 header arch "expert_count";
    n_expert_used ← expert_u32 header arch "expert_used_count";
    if (0 <? n_expert) && (n_expert <? n_expert_used) then
      Err (BadModel (TooManyActiveExperts n_expert_used n_expert))
    else
      ranges ← map_err (λ _, BadModel BadTensorRanges) (tensor_ranges header file_size);
      let zeros := replicate (Z.to_nat n_layers) 0 in
      acc ← fold_res (dims_step n_layers) (MkDimsAcc zeros zeros 0) ranges;
      Ok (MkModelDims n_layers kv_rate (da_weights acc) (da_total acc) n_embd n_expert n_expert_used
            (da_experts acc)).

(** ** Accounting *)

(** What the planners rely on about a model's dimensions. *)
Record dims_ok (d : ModelDims) : Prop := {
  dims_layers : 0 < md_n_layers d < 2 ^ 32;
  dims_total : 0 ≤ md_total d < 2 ^ 64;
  dims_rate : 0 ≤ md_kv_rate d < 2 ^ 64;
  dims_embd : 0 ≤ md_n_embd d < 2 ^ 64;
  dims_expert : in_u32 (md_n_expert d) ∧ in_u32 (md_n_expert_used d);
  dims_weights_sum : zsum (md_weights d) = md_total d;
  dims_shares : Forall2 (λ e w, 0 ≤ e ≤ w) (md_experts d) (md_weights d);
  dims_weights_len : Z.of_nat (length (md_weights d)) = md_n_layers d }.

(** Whatever the offsets, accepted ranges form a chain up to the file size. *)
Lemma ranges_from_chained d fs ts rs :
  ranges_from d fs ts = Ok rs →
  rs = [] ∨ ∃ t, head ts = Some t ∧ chained (u64_add d (ti_offset t)) fs rs.
Proof.
  revert rs; induction ts as [|t ts IH]; intros rs H; cbn [ranges_from] in H; [left; congruence|].
  right. exists t. split; [done|]. destruct ts as [|u ts].
  - simpl in H. res_inv. simpl. lia.
  - res_inv. apply orb_false_elim in E as [E1 E2].
    destruct (IH _ eq_refl) as [->|(u' & Hu & Hc)]; [|simplify_eq/=; split; [done|]; split; [lia|done]].
    clear IH. cbn [ranges_from] in E0. by res_inv.
Qed.

Lemma tensor_ranges_chained h fs rs :
  tensor_ranges h fs = Ok rs → rs = [] ∨ ∃ first, 0 ≤ first ∧ chained first fs rs.
Proof.
  intros [->|(t & _ & Hc)]%ranges_from_chained; [by left|right].
  eexists; split; [|exact Hc]. apply wrap64_range.
Qed.

Definition acc_inv (n_layers : Z) (rs : list TensorRange) (acc : DimsAcc) : Prop :=
  Z.of_nat (length (da_weights acc)) = n_layers ∧
  Forall2 (λ e w, 0 ≤ e ≤ w) (da_experts acc) (da_weights acc) ∧
  zsum (da_weights acc) = da_total acc ∧
  da_total acc = zsum ((λ r, tr_end r - tr_start r) <$> rs).

Lemma dims_slot_lt n_layers name slot routed :
  0 < n_layers → dims_slot n_layers name = Ok (slot, routed) → (slot < Z.to_nat n_layers)%nat.
Proof.
  intros Hn. unfold dims_slot. destruct (strip_prefix _ _).
  - intros H. res_inv. simplify_eq. apply Z.leb_gt in E1. lia.
  - destruct (starts_with _ _); intros [= <- <-]; lia.
Qed.

Lemma alter_zsum (f : Z → Z) l i x y :
  l !! i = Some x → f x = x + y → zsum (alter f i l) = zsum l + y.
Proof.
  revert i; induction l as [|z l IH]; intros [|i] Hl Hf; simplify_eq/=; [lia|].
  rewrite (IH i Hl Hf). lia.
Qed.

Lemma shares_nonneg es ws : Forall2 (λ e w, 0 ≤ e ≤ w) es ws → Forall (λ w, 0 ≤ w) ws.
Proof. induction 1; constructor; [lia|done]. Qed.

(** One range of at most the remaining file size. *)
Lemma dims_step_inv n_layers done r acc acc' :
  0 < n_layers → acc_inv n_layers done acc → tr_start r ≤ tr_end r →
  0 ≤ tr_start r → tr_end r < 2 ^ 64 →
  zsum ((λ r, tr_end r - tr_start r) <$> done ++ [r]) < 2 ^ 64 →
  dims_step n_layers acc r = Ok acc' → acc_inv n_layers (done ++ [r]) acc'.
Proof.
  intros Hn (Hlen & Hsh & Hsum & Htot) Hr H0 H1 Hlt Hstep. unfold dims_step in Hstep.
  set (size := u64_sub (tr_end r) (tr_start r)) in Hstep.
  assert (size = tr_end r - tr_start r) as Hsz by (apply wrap64_small; unfold in_u64; lia).
  destruct (dims_slot n_layers (tr_name r)) as [[slot routed]| |] eqn:Es; [|done..].
  apply dims_slot_lt in Es; [|done]. simpl in Hstep. injection Hstep as <-.
  rewrite fmap_app, zsum_app in Hlt. simpl in Hlt.
  pose proof (shares_nonneg _ _ Hsh) as Hnn.
  destruct (lookup_lt_is_Some_2 (da_weights acc) slot ltac:(lia)) as [w Hw].
  assert (w ≤ zsum (da_weights acc)) as Hwle
    by (apply zsum_elem_le; [done|by eapply list_elem_of_lookup_2]).
  assert (0 ≤ w) as Hw0 by (by eapply Forall_lookup_1 in Hnn; eauto).
  assert (∀ x, 0 ≤ x ≤ w → u64_add x size = x + size) as Hadd
    by (intros x Hx; apply wrap64_small; unfold in_u64; lia).
  unfold acc_inv; simpl. rewrite length_alter. split; [done|]. split; [|split].
  - destruct routed.
    + apply Forall2_alter; [done|]. intros x y _ Hy Hxy. assert (y = w) as -> by congruence.
      rewrite !Hadd by lia. lia.
    + apply Forall2_alter_r; [done|]. intros x y _ Hy Hxy. assert (y = w) as -> by congruence.
      rewrite !Hadd by lia. lia.
  - rewrite (alter_zsum _ _ slot w size Hw) by (apply Hadd; lia).
    symmetry. replace (da_total acc) with (zsum (da_weights acc)) by done.
    apply wrap64_small. unfold in_u64. pose proof (zsum_nonneg _ Hnn). lia.
  - rewrite fmap_app, zsum_app. simpl. unfold u64_add. pose proof (zsum_nonneg _ Hnn).
    rewrite wrap64_small by (unfold in_u64; lia). lia.
Qed.

Lemma dims_loop_inv n_layers first fs rs acc :
  0 < n_layers → 0 ≤ first → fs < 2 ^ 64 → chained first fs rs →
  fold_res (dims_step n_layers)
    (MkDimsAcc (replicate (Z.to_nat n_layers) 0) (replicate (Z.to_nat n_layers) 0) 0) rs = Ok acc →
  acc_inv n_layers rs acc.
Proof.
  intros Hn Hf Hfs Hc Hfold.
  destruct (chained_bounds _ _ _ Hc) as [_ Hb]. pose proof (chained_size _ _ _ Hc) as Hsize.
  assert (∀ pre r post, rs = pre ++ r :: post →
    zsum ((λ r, tr_end r - tr_start r) <$> pre ++ [r]) < 2 ^ 64) as Hpre.
  { intros pre r post ->. rewrite cons_middle, app_assoc, fmap_app, zsum_app in Hsize.
    rewrite cons_middle, app_assoc in Hb. apply Forall_app in Hb as [_ Hb].
    enough (0 ≤ zsum ((λ r, tr_end r - tr_start r) <$> post)) by lia.
    apply zsum_nonneg, Forall_fmap. eapply Forall_impl; [exact Hb|]. simpl. lia. }
  enough (∀ pre post acc0, rs = pre ++ post → acc_inv n_layers pre acc0 →
    fold_res (dims_step n_layers) acc0 post = Ok acc → acc_inv n_layers rs acc) as H.
  { eapply (H [] rs); [done| |exact Hfold]. unfold acc_inv; simpl.
    rewrite length_replicate. split; [lia|]. split; [|by rewrite zsum_replicate; lia].
    apply Forall2_replicate. lia. }
  intros pre post. revert pre. induction post as [|r post IH]; intros pre acc0 -> HI Hfo.
  - simpl in Hfo. injection Hfo as <-. by rewrite app_nil_r.
  - simpl in Hfo. destruct (dims_step n_layers acc0 r) as [acc1| |] eqn:E; [|done..]. simpl in Hfo.
    eapply (IH (pre ++ [r])); [by rewrite <- app_assoc| |exact Hfo].
    pose proof Hb as Hb'. apply Forall_app in Hb' as [_ Hb']. inversion Hb' as [|? ? Hr _]; subst.
    eapply dims_step_inv; [done|exact HI|lia|lia|lia| |exact E]. by eapply Hpre.
Qed.

Lemma meta_pos_range header key v :
  map_Forall (λ k v, string_wf k ∧ value_wf v) (gh_metadata header) →
  meta_pos header key = Some v → 0 < v < 2 ^ 64.
Proof.
  intros Hmd. unfold meta_pos, meta_u64.
  destruct (gh_metadata header !! key) as [x|] eqn:E; simpl; [|done].
  destruct (Hmd _ _ E) as [_ Hx]. destruct (as_u64 x) as [n|] eqn:Ex; [|done].
  destruct (Z.ltb_spec 0 n); [|done]. intros [= <-]. split; [done|]. unfold as_u64 in Ex.
  destruct x; simplify_eq/=; repeat case_match; simplify_eq;
    unfold value_wf, scalar_wf, uint_wf, int_wf in *; lia.
Qed.

Lemma expert_u32_range header arch suffix v :
  map_Forall (λ k v, string_wf k ∧ value_wf v) (gh_metadata header) →
  expert_u32 header arch suffix = Ok v → in_u32 v.
Proof.
  intros Hmd. unfold expert_u32. destruct (meta_pos _ _) as [n|] eqn:E; intros H; res_inv;
    unfold in_u32, u32_max in *; [|lia].
  apply meta_pos_range in E; [|done]. apply Z.leb_le in E0. lia.
Qed.

(** Dimensions derived from a well-formed header account for every byte. *)
Lemma model_dims_spec header file_size d :
  fields_wf header → 0 ≤ file_size < 2 ^ 64 → model_dims header file_size = Ok d →
  dims_ok d ∧ md_total d ≤ file_size ∧ 0 < md_n_embd d.
Proof.
  intros (_ & Hmd & _) Hfs H. unfold model_dims in H. res_inv.
  destruct (tensor_ranges header file_size) as [rs| |] eqn:Er; simpl in *; try discriminate.
  res_inv. match goal with Hf : fold_res _ _ _ = Ok _ |- _ => rename Hf into Hfold end.
  pose proof (meta_pos_range _ _ _ Hmd E1). pose proof (meta_pos_range _ _ _ Hmd E7).
  pose proof (expert_u32_range _ _ _ _ Hmd E5). pose proof (expert_u32_range _ _ _ _ Hmd E6).
  apply Z.ltb_ge in E3. unfold u32_max in E3.
  assert (acc_inv a0 a4 a5 ∧ 0 ≤ zsum ((λ r, tr_end r - tr_start r) <$> a4) ≤ file_size)
    as [(Hlen & Hsh & Hsum & Htot) Hle].
  { apply tensor_ranges_chained in Er as [->|(first & Hf0 & Hc)].
    - split; [|simpl; lia]. eapply (dims_loop_inv _ 0 0); [lia|lia|lia|done|exact Hfold].
    - destruct (chained_bounds _ _ _ Hc) as [Hlf _].
      split; [eapply (dims_loop_inv a0 first file_size); [lia|lia|lia|done|done]|]. rewrite (chained_size _ _ _ Hc). lia. }
  split; [|simpl; lia]. split; simpl; try done; try lia.
  apply wrap64_range.
Qed.

(** The synthetic dimensions account for every byte too. *)
Lemma uniform_ok total n_layers :
  0 ≤ total < 2 ^ 64 → 0 ≤ n_layers < 2 ^ 32 → dims_ok (uniform total n_layers).
Proof.
  intros Ht Hn. set (n := Z.max n_layers 1). assert (0 < n < 2 ^ 32) as Hn' by (unfold n; lia).
  pose proof (Z.div_mod total n ltac:(lia)) as Hdm. pose proof (Z.mod_pos_bound total n ltac:(lia)) as Hm.
  assert (0 ≤ total / n) as Hq by (apply Z.div_pos; lia).
  assert (total / n * n ≤ total) as Hq2 by lia.
  assert (u64_mul (total / n) n = total / n * n) as Hmul by (apply wrap64_small; unfold in_u64; lia).
  assert (u64_sub total (total / n * n) = total mod n) as Hsub.
  { unfold u64_sub. rewrite wrap64_small by (unfold in_u64; lia). lia. }
  assert (u64_add (total / n) (total mod n) = total / n + total mod n) as Hadd.
  { apply wrap64_small. unfold in_u64. split; [lia|].
    assert (total / n + total mod n ≤ total) by nia. lia. }
  assert (replicate (Z.to_nat n) (total / n) !! (Z.to_nat n - 1)%nat = Some (total / n)) as Hl
    by (apply lookup_replicate; split; [done|lia]).
  split; unfold uniform; fold n; simpl; rewrite ?length_replicate, ?Hmul, ?Hsub; try lia; try done.
  - rewrite (alter_zsum _ _ _ (total / n) (total mod n) Hl) by done. rewrite zsum_replicate. lia.
  - apply Forall2_alter_r; [by apply Forall2_replicate; lia|].
    intros x y Hx Hy Hxy. assert (y = total / n) as -> by congruence. rewrite Hadd. lia.
  - rewrite length_alter, length_replicate. lia.
Qed.

Lemma of_Z_exact n : 0 ≤ n < 2 ^ 53 → nn (of_Z b64 n) ∧ (fval (of_Z b64 n) == inject_Z n)%Q.
Proof.
  intros Hn. destruct (of_Z_nn n ltac:(lia)) as [H1 H2]. split; [done|].
  apply rnd_exact; [done|]. by apply repr_Z.
Qed.

Lemma Qdiv_le_l a b c : (0 < b → a <= c * b → a / b <= c)%Q.
Proof.
  intros Hb H. apply Qmult_le_r with b; [done|].
  assert (a / b * b == a)%Q as -> by (field; lra). done.
Qed.
Lemma Qdiv_ge_l a b c : (0 < b → c * b <= a → c <= a / b)%Q.
Proof.
  intros Hb H. apply Qmult_le_r with b; [done|].
  assert (a / b * b == a)%Q as -> by (field; lra). done.
Qed.

(** The active share of the routed experts, as a float in [2^-32, 1]. *)
Lemma used_fraction_bounds u n :
  0 < u < n → n < 2 ^ 32 →
  let q := fdiv b64 (of_Z b64 u) (of_Z b64 n) in
  nn q ∧ (p2 (-32) <= fval q)%Q ∧ (fval q <= 1)%Q.
Proof.
  intros Hu Hn q.
  destruct (of_Z_exact u ltac:(lia)) as [Hu1 Hu2]. destruct (of_Z_exact n ltac:(lia)) as [Hn1 Hn2].
  assert (0 < fval (of_Z b64 n))%Q as Hpos by (rewrite Hn2; apply inject_pos; lia).
  assert (fval (of_Z b64 u) / fval (of_Z b64 n) <= 1)%Q as Hle.
  { apply Qdiv_le_l; [done|]. rewrite Hu2, Hn2. pose proof (inject_le u n ltac:(lia)). lra. }
  assert (p2 (-32) <= fval (of_Z b64 u) / fval (of_Z b64 n))%Q as Hge.
  { apply Qdiv_ge_l; [done|]. rewrite Hu2, Hn2.
    pose proof (inject_le 1 u ltac:(lia)). pose proof (inject_le n (2 ^ 32) ltac:(lia)) as Hn32.
    pose proof (p2_opp 32) as Hp. rewrite (p2_Z 32) in Hp by lia. pose proof (p2_pos (-32)).
    change (inject_Z 1) with 1%Q in *. change (- (32)) with (-32) in Hp. nra. }
  destruct (fdiv_nn (of_Z b64 u) (of_Z b64 n) Hu1 Hn1 Hpos) as [Hq Hr].
  { pose proof (p2_le 0 1023 ltac:(lia)) as H. change (p2 0) with 1%Q in H. lra. }
  split; [done|]. split.
  - apply (rnd_ge _ _ Hr); [by apply repr_p2|done].
  - apply (rnd_le _ _ Hr); [by apply (repr_p2 0)|done].
Qed.

Lemma inject_sub a b : (inject_Z (a - b) == inject_Z a - inject_Z b)%Q.
Proof. unfold Z.sub. by rewrite inject_Z_plus, inject_Z_opp. Qed.

(** The bytes a token touches, [w - e + e * q] for a share [q], as a float. *)
Lemma touched_bytes_bounds e w q :
  0 ≤ e ≤ w → 0 < w < 2 ^ 53 → nn q → (p2 (-32) <= fval q)%Q → (fval q <= 1)%Q →
  let s := fadd b64 (of_Z b64 (w - e)) (fmul b64 (of_Z b64 e) q) in
  nn s ∧ (p2 (-32) <= fval s)%Q ∧ (fval s <= inject_Z w)%Q.
Proof.
  intros Hew Hw Hq Hq1 Hq2 s.
  destruct (of_Z_exact e ltac:(lia)) as [He1 He2].
  destruct (of_Z_exact (w - e) ltac:(lia)) as [Hr1 Hr2]. rewrite inject_sub in Hr2.
  pose proof (p2_pos (-32)) as Hp32. pose proof (inject_le 0 e ltac:(lia)) as Qe.
  pose proof (inject_le e w ltac:(lia)) as Qew. change (inject_Z 0) with 0%Q in Qe.
  assert (inject_Z w <= p2 1023)%Q as Hbig.
  { apply Qle_trans with (p2 53); [|apply p2_le; lia]. rewrite p2_Z by lia. apply inject_le. lia. }
  destruct (fmul_nn _ _ He1 Hq) as [Hm Hmr]; [rewrite He2; nra|].
  set (m := fmul b64 _ _) in *. pose proof (nn_fval m Hm) as Hm0.
  assert (fval m <= inject_Z e)%Q as Hm1.
  { apply (rnd_le _ _ Hmr); [apply repr_Z; lia|]. rewrite He2. nra. }
  assert (p2 (-32) <= fval (of_Z b64 (w - e)) + fval m)%Q as Hs1.
  { rewrite Hr2. destruct (Z.eq_dec e 0) as [->|He0].
    - pose proof (p2_le (-32) 0 ltac:(lia)) as H1. change (p2 0) with 1%Q in H1.
      pose proof (inject_le 1 w ltac:(lia)) as Qw. change (inject_Z 1) with 1%Q in Qw.
      change (inject_Z 0) with 0%Q. lra.
    - pose proof (inject_le 1 e ltac:(lia)) as H1. change (inject_Z 1) with 1%Q in H1.
      enough (p2 (-32) <= fval m)%Q by lra.
      apply (rnd_ge _ _ Hmr); [by apply repr_p2|]. rewrite He2. nra. }
  destruct (fadd_nn _ _ Hr1 Hm) as [Hs Hsr]; [rewrite Hr2; lra|].
  split; [done|]. split; [apply (rnd_ge _ _ Hsr); [by apply repr_p2|done]|].
  apply (rnd_le _ _ Hsr); [apply repr_Z; lia|]. rewrite Hr2. lra.
Qed.

Lemma share_bounds s w :
  0 < w < 2 ^ 53 → nn s → (p2 (-32) <= fval s)%Q → (fval s <= inject_Z w)%Q →
  let x := fdiv b64 s (of_Z b64 w) in nn x ∧ (p2 (-85) <= fval x)%Q ∧ (fval x <= 1)%Q.
Proof.
  intros Hw Hs Hs1 Hs2 x. destruct (of_Z_exact w ltac:(lia)) as [Hw1 Hw2].
  assert (0 < fval (of_Z b64 w))%Q as Hpos by (rewrite Hw2; apply inject_pos; lia).
  assert (fval s / fval (of_Z b64 w) <= 1)%Q as Hx1 by (apply Qdiv_le_l; [done|rewrite Hw2; lra]).
  assert (p2 (-85) <= fval s / fval (of_Z b64 w))%Q as Hx2.
  { apply Qdiv_ge_l; [done|]. rewrite Hw2. pose proof (inject_le w (2 ^ 53) ltac:(lia)) as H53.
    rewrite <- p2_Z in H53 by lia. pose proof (p2_add (-85) 53) as H85.
    change (-85 + 53) with (-32) in H85. pose proof (p2_pos (-85)). nra. }
  destruct (fdiv_nn _ _ Hs Hw1 Hpos) as [Hf Hfr].
  { pose proof (p2_le 0 1023 ltac:(lia)) as H. change (p2 0) with 1%Q in H. lra. }
  split; [done|]. split.
  - apply (rnd_ge _ _ Hfr); [by apply repr_p2|done].
  - apply (rnd_le _ _ Hfr); [by apply (repr_p2 0)|done].
Qed.

Lemma active_compute_fraction_bounds d layer w :
  dims_ok d → md_weights d !! layer = Some w → w < 2 ^ 53 →
  let x := active_compute_fraction d layer in
  nn x ∧ (p2 (-85) <= fval x)%Q ∧ (fval x <= 1)%Q ∧ (moe_scaled d = false → x = fone).
Proof.
  intros Hd Hw Hlt. unfold active_compute_fraction. rewrite Hw. simpl.
  assert (nn fone ∧ (p2 (-85) <= fval fone)%Q ∧ (fval fone <= 1)%Q) as Hone
    by (split; [by vm_compute|split; by vm_compute]).
  destruct (moe_scaled d) eqn:Hmoe; simpl; [|naive_solver].
  destruct (Forall2_lookup_r _ _ _ _ _ (dims_shares d Hd) Hw) as (e & He & Hew).
  rewrite He. simpl. rewrite Z.min_l by lia. destruct (Z.eqb_spec w 0); [naive_solver|].
  destruct (dims_expert d Hd) as [Hn _]. unfold moe_scaled, in_u32 in *.
  apply andb_prop in Hmoe as [[_ Hu]%andb_prop Hun]. apply Z.ltb_lt in Hu, Hun.
  destruct (used_fraction_bounds (md_n_expert_used d) (md_n_expert d)) as (Hq & Hq1 & Hq2); [lia|lia|].
  destruct (touched_bytes_bounds e w _ ltac:(lia) ltac:(lia) Hq Hq1 Hq2) as (Hs & Hs1 & Hs2).
  destruct (share_bounds _ w ltac:(lia) Hs Hs1 Hs2) as (Hx & Hx0 & Hx1). done.
Qed.

(** The compute share of a layer is a fraction: for a layer below 2^53
    bytes whose expert bytes are part of it, the computed double lies in
    (0, 1], and it is exactly 1.0 when the model is dense or runs all its
    experts. *)
Theorem active_compute_fraction_unit d layer w :
  dims_ok d → md_weights d !! layer = Some w → w < 2 ^ 53 →
  let x := active_compute_fraction d layer in
  nn x ∧ (0 < fval x)%Q ∧ (fval x <= 1)%Q ∧ (moe_scaled d = false → x = fone).
Proof.
  intros Hd Hw Hlt. destruct (active_compute_fraction_bounds d layer w Hd Hw Hlt) as (H1 & H2 & H3 & H4).
  pose proof (p2_pos (-85)). split; [done|]. split; [lra|done].
Qed.

(** The dimensions derived from a parsed header account for the file: one
    weight slot per layer, the slots add up to the total, the total is no more
    than the file, the routed-expert bytes of a layer are part of its weight,
    and the layer count is positive.  No accumulation overflows, whatever the
    offsets in the header. *)
Theorem model_dims_accounts bs header file_size d :
  len bs < 2 ^ 63 → parse bs = Ok header → 0 ≤ file_size < 2 ^ 64 →
  model_dims header file_size = Ok d →
  dims_ok d ∧ md_total d ≤ file_size.
Proof.
  intros Hlen Hp Hfs Hd. destruct steady_body as [_ M _].
  unfold parse in Hp. destruct (parse_body bs 0) as [[h pos]| |] eqn:E; [|done..].
  injection Hp as <-. destruct (M _ _ _ _ (conj (Z.le_refl 0) (len_nonneg bs)) E) as [_ Hf].
  destruct (model_dims_spec h file_size d Hf Hfs Hd) as (H1 & H2 & _). done.
Qed.

(** The KV-cache fallbacks over-estimate: as long as the embedding width
    is below 2^62 the rate is between 4 and [4 * n_embd] bytes whatever the
    head counts, and a missing [head_count] costs the full width. *)
Theorem kv_rate_bounded header file_size d arch :
  model_dims header file_size = Ok d → architecture header = Some arch → md_n_embd d < 2 ^ 62 →
  4 ≤ md_kv_rate d ≤ 4 * md_n_embd d ∧
  (meta_pos header (arch +:+ ".attention.head_count") = None → md_kv_rate d = 4 * md_n_embd d).
Proof.
  intros H Ha Hw. unfold model_dims in H. rewrite Ha in H. cbn [ok_or] in H.
  change (Ok arch ≫= ?f) with (f arch) in H. cbv beta in H. res_inv. simpl in *.
  assert (0 < a0) as Hpos.
  { match goal with He : meta_pos _ (_ +:+ ".embedding_length") = _ |- _ => unfold meta_pos in He end.
    repeat case_match; simplify_eq. lia. }
  assert (1 ≤ embd_kv header arch a0 ≤ a0) as Hb by (unfold embd_kv; case_match; lia).
  assert (u64_mul 4 (embd_kv header arch a0) = 4 * embd_kv header arch a0) as ->
    by (apply wrap64_small; unfold in_u64; lia).
  split; [lia|]. intros Hn. unfold embd_kv. rewrite Hn. done.
Qed.

(** ** Examples *)
Definition ex_moe_kvs : list (string * MetaValue) :=
  [("general.architecture", Str "moe"); ("moe.block_count", U32 2);
   ("moe.embedding_length", U32 64); ("moe.attention.head_count", U32 8);
   ("moe.attention.head_count_kv", U32 2); ("moe.expert_count", U32 8);
   ("moe.expert_used_count", U32 2)].
Definition ex_moe_tensors : list TensorInfo :=
  [MkTensorInfo "token_embd.weight" [4] 0 0; MkTensorInfo "blk.0.attn_q.weight" [4] 0 64;
   MkTensorInfo "blk.0.ffn_up_exps.weight" [4] 0 128; MkTensorInfo "blk.1.ffn.weight" [4] 0 192;
   MkTensorInfo "output.weight" [4] 0 224].
Definition ex_moe_file : bytes := Gguf.encode 3 ex_moe_kvs ex_moe_tensors ++ replicate 400 (byte_of 0).
Definition ex_moe_header : GgufHeader :=
  match parse ex_moe_file with Ok h => h | _ => MkHeader 0 ∅ [] 0 0 0 end.
Definition ex_moe_dims : ModelDims :=
  MkModelDims 2 64 [192; 199] 391 64 8 2 [64; 0].

Lemma ex_moe_dims_eq : model_dims ex_moe_header (len ex_moe_file) = Ok ex_moe_dims.
Proof. vm_compute. reflexivity. Qed.

Lemma ex_moe_dims_ok : dims_ok ex_moe_dims.
Proof. split; simpl; unfold in_u32; try lia. repeat constructor; lia. Qed.

Lemma model_dims_accounts_witness : dims_ok ex_moe_dims ∧ md_total ex_moe_dims ≤ len ex_moe_file.
Proof.
  apply (model_dims_accounts ex_moe_file ex_moe_header (len ex_moe_file) ex_moe_dims).
  - by vm_compute.
  - vm_compute. reflexivity.
  - split; [by vm_compute|by vm_compute].
  - exact ex_moe_dims_eq.
Defined.

Lemma kv_rate_bounded_witness :
  4 ≤ md_kv_rate ex_moe_dims ≤ 4 * md_n_embd ex_moe_dims ∧
  (meta_pos ex_moe_header ("moe" +:+ ".attention.head_count") = None →
   md_kv_rate ex_moe_dims = 4 * md_n_embd ex_moe_dims).
Proof.
  apply (kv_rate_bounded ex_moe_header (len ex_moe_file) ex_moe_dims "moe").
  - exact ex_moe_dims_eq.
  - vm_compute. reflexivity.
  - simpl. lia.
Defined.

Lemma active_compute_fraction_unit_witness :
  let x := active_compute_fraction ex_moe_dims 0 in
  x ≠ fone ∧ nn x ∧ (0 < fval x)%Q ∧ (fval x <= 1)%Q.
Proof.
  split; [by vm_compute|].
  destruct (active_compute_fraction_unit ex_moe_dims 0 192 ex_moe_dims_ok eq_refl ltac:(lia))
    as (H1 & H2 & H3 & _). split; [exact H1|]. split; [exact H2|exact H3].
Defined.

(** Past 2^62 the documented over-estimate fails: the product
    [2 * 2 * n_embd_kv] wraps, so a header declaring an embedding width of
    2^62 is accepted with a KV-cache rate of zero bytes per token. *)
Theorem kv_rate_wraps :
  ∃ bs header d, parse bs = Ok header ∧ model_dims header (len bs) = Ok d ∧
    md_n_embd d = 2 ^ 62 ∧ md_kv_rate d = 0.
Proof.
  exists (Gguf.encode 3
    [("general.architecture", Str "m"); ("m.block_count", U32 1); ("m.embedding_length", U64 (2 ^ 62))]
    [] ++ replicate 32 (byte_of 0)).
  eexists _, _. split; [vm_compute; reflexivity|]. split; [vm_compute; reflexivity|].
  split; vm_compute; reflexivity.
Qed.
