(* ===== verification/SchedV1.v ===== *)
(** * Scheduler v1

    Models [crates/onebrain-scheduler/src/v1.rs]: the KV-aware budgets, the
    candidate table, the floating-point apportionment, the stage ordering, the
    participant selection and [plan_v1].  The candidate table, [apportion],
    [order_stages], [select_workers] and the assembly loop are shared with the
    v2 planner. *)

From Stdlib Require Import ZArith Lia Sorted Permutation.
From S2P Require Import Prelude Float Proto SchedLib Dims.
From stdpp Require Import base list strings.

Open Scope Z_scope.

Definition OVERHEAD_RESERVE_BYTES : Z := 512 * 1024 * 1024.
Definition DEFAULT_LINK_RTT_MS : fl := fone.
Definition ADDED_NODE_TPT_GAIN : fl := round b64 false 1 20.
Definition EXACT_ORDER_MAX_NODES : nat := 8.
Definition DEFAULT_N_UBATCH : Z := 512.

Record ComputeProfile := MkCompute { cp_prefill_tps : fl; cp_decode_tps : fl }.

Record NodeCaps := MkCaps {
  nc_node : NodeId;
  nc_usable_memory_bytes : Z;
  nc_compute : option ComputeProfile;
  nc_draining : bool }.

Record LinkRtt := MkLink {
  lr_a : NodeId;
  lr_b : NodeId;
  lr_rtt_ms : fl;
  lr_bandwidth_mbps : option fl }.

Record PlanRequest := MkRequest {
  pr_head : NodeCaps;
  pr_workers : list NodeCaps;
  pr_dims : ModelDims;
  pr_ctx_len : Z;
  pr_forced_nodes : option Z;
  pr_links : list LinkRtt;
  pr_n_ubatch : Z }.

(** [From<&PlanInput>]: an M3 request as a v1 request. *)
Definition request_of_input (input : PlanInput) : PlanRequest :=
  let to_caps n := MkCaps (nb_node n) (nb_usable_memory_bytes n) None false in
  MkRequest (to_caps (pi_head input)) (to_caps <$> pi_workers input)
    (uniform (pi_model_bytes input) (pi_n_layers input))
    (pi_ctx_len input) (pi_forced_nodes input) [] DEFAULT_N_UBATCH.

Definition node_budget (usable_memory_bytes : Z) : Z :=
  sat_sub usable_memory_bytes OVERHEAD_RESERVE_BYTES.

Definition per_layer_cost (dims : ModelDims) (ctx_len : Z) : fl :=
  fmax (of_Z b64 (u64_add (mean_weight_bytes_per_layer dims) (kv_bytes_per_layer dims ctx_len))) fone.

Definition node_layer_capacity (usable_memory_bytes : Z) (dims : ModelDims) (ctx_len : Z) : Z :=
  to_u64 (ffloor (fdiv b64 (of_Z b64 (node_budget usable_memory_bytes)) (per_layer_cost dims ctx_len))).

(** ** The candidate table *)
Record Cand := MkCand {
  cd_caps : NodeCaps;
  cd_is_head : bool;
  cd_budget : Z;
  cd_cap_f : fl;
  cd_cap_layers : Z;
  cd_decode : option fl;
  cd_factor : fl;
  cd_tpt_decode : option fl }.

(** A profile's decode rate, when positive. *)
Definition pos_decode (caps : NodeCaps) : option fl :=
  match nc_compute caps with
  | Some p => if flt fzero (cp_decode_tps p) then Some (cp_decode_tps p) else None
  | None => None
  end.

Definition build_cand (cost : fl) (budget_of : Z → Z) (max_decode min_decode : fl) (n : nat)
    (i : nat) (caps : NodeCaps) : Cand :=
  let budget := budget_of (nc_usable_memory_bytes caps) in
  let cap_f := fdiv b64 (of_Z b64 budget) cost in
  let decode := pos_decode caps in
  let factor :=
    match decode with
    | Some d => if is_finite max_decode
                then fadd b64 fhalf (fdiv b64 (fmul b64 fhalf d) max_decode)
                else fone
    | None => fone
    end in
  let tpt_decode :=
    match decode with
    | Some d => Some d
    | None => if is_finite min_decode then Some min_decode else None
    end in
  MkCand caps (Nat.eqb i (n - 1)) budget cap_f
    (Z.min (to_u64 (fmax (ffloor cap_f) fzero)) u32_max) decode factor tpt_decode.

Definition build_cands (all_caps : list NodeCaps) (cost : fl) (budget_of : Z → Z) : list Cand :=
  let profiled := omap pos_decode all_caps in
  let max_decode := foldl fmax NaN profiled in
  let min_decode := foldl fmin NaN profiled in
  imap (build_cand cost budget_of max_decode min_decode (length all_caps)) all_caps.

(** ** Links *)
Definition link_matches (a b : NodeId) (l : LinkRtt) : bool :=
  bool_decide (lr_a l = a ∧ lr_b l = b) || bool_decide (lr_a l = b ∧ lr_b l = a).

Definition link_rtt (links : list LinkRtt) (a b : NodeId) : fl :=
  match find_first (link_matches a b) links with
  | Some l => lr_rtt_ms l
  | None => DEFAULT_LINK_RTT_MS
  end.

Definition link_bandwidth (links : list LinkRtt) (a b : NodeId) : option fl :=
  match find_first (link_matches a b) links ≫= lr_bandwidth_mbps with
  | Some bw => if flt fzero bw then Some bw else None
  | None => None
  end.

(** ** Apportionment *)

(** One node in the scan for the next layer: index, score, quota, capacity. *)
Record Slot := MkSlot { sl_score : fl; sl_quota : fl; sl_cap : Z }.

Definition unmet (s : Slot) (count : Z) : fl := fsub b64 (sl_quota s) (of_Z b64 count).

(** The node with the largest unmet quota that still has capacity (ties:
    score, then index), skipping index [skip]. *)
Definition scan_step (skip : option nat) (best : option (nat * fl * fl))
    (e : nat * (Slot * Z)) : option (nat * fl * fl) :=
  let '(i, (s, count)) := e in
  if bool_decide (skip = Some i) || (sl_cap s <=? count) then best
  else
    let key := unmet s count in
    match best with
    | None => Some (i, key, sl_score s)
    | Some (_, key_b, score_b) =>
        if flt key_b key || (feq key key_b && flt score_b (sl_score s))
        then Some (i, key, sl_score s) else best
    end.

Definition best_slack (skip : option nat) (slots : list Slot) (counts : list Z) : option nat :=
  (λ b, b.1.1) <$> foldl (scan_step skip) None (enumerate (zip slots counts)).

(** [while leftover > 0]: one layer per iteration. *)
Fixpoint fill (leftover : nat) (slots : list Slot) (counts : list Z) : res ScheduleError (list Z) :=
  match leftover with
  | O => Ok counts
  | S leftover =>
      i ← expect (best_slack None slots counts);
      fill leftover slots (alter (λ c, u32_add c 1) i counts)
  end.

Definition apportion (scores : list fl) (caps : list Z) (n_layers : Z) :
    res ScheduleError (option (list Z * list fl)) :=
  let total_score := fsum b64 scores in
  let total_cap := u64_sum caps in
  if fle total_score fzero || (total_cap <? n_layers) then Ok None
  else
    let quotas := (λ s, fdiv b64 (fmul b64 (of_Z b64 n_layers) s) total_score) <$> scores in
    let counts := zip_with (λ q c, wrap32 (Z.min (to_u64 (ffloor q)) c)) quotas caps in
    let leftover := u32_sub n_layers (u32_sum counts) in
    let slots := zip_with (λ '(s, q) c, MkSlot s q c) (zip scores quotas) caps in
    counts ← fill (Z.to_nat leftover) slots counts;
    Ok (Some (counts, quotas)).

Definition hybrid_score (c : Cand) : fl := fmul b64 (cd_cap_f c) (cd_factor c).

Definition apportion_v1 (cands : list Cand) (n_layers : Z) : res ScheduleError (option (list Z)) :=
  r ← apportion (hybrid_score <$> cands) (cd_cap_layers <$> cands) n_layers;
  Ok (option_map fst r).

(** ** Stage order *)

(** The permutations of [items], in lexicographic order over the input. *)
Fixpoint perms (fuel : nat) (items : list nat) : list (list nat) :=
  match fuel with
  | O => [[]]
  | S fuel =>
      match items with
      | [] => [[]]
      | _ => concat (imap (λ i x, (cons x) <$> perms fuel (delete i items)) items)
      end
  end.
Definition permutations (items : list nat) : list (list nat) := perms (length items) items.

(** [(0..n).filter(|i| counts[i] > 0)]. *)
Definition active_of (counts : list Z) (n : nat) : res ScheduleError (list nat) :=
  if (length counts <? n)%nat then Panic
  else Ok (filter (λ i, 0 < default 0 (counts !! i)) (seq 0 n)).

Definition is_head_at (cands : list Cand) (i : nat) : bool :=
  match cands !! i with Some c => cd_is_head c | None => false end.

Definition hop_rtt (cands : list Cand) (links : list LinkRtt) (a b : nat) : res ScheduleError fl :=
  ca ← expect (cands !! a);
  cb ← expect (cands !! b);
  Ok (link_rtt links (nc_node (cd_caps ca)) (nc_node (cd_caps cb))).

Definition chain_rtts (cands : list Cand) (links : list LinkRtt) (chain : list nat) :
    res ScheduleError (list fl) :=
  map_res (λ '(a, b), hop_rtt cands links a b) (windows2 chain).

(** The first cheapest chain. *)
Definition cheaper_step (cands : list Cand) (links : list LinkRtt)
    (best : option (fl * list nat)) (chain : list nat) : res ScheduleError (option (fl * list nat)) :=
  rtts ← chain_rtts cands links chain;
  let cost := fsum b64 rtts in
  Ok (match best with
      | None => Some (cost, chain)
      | Some (c, _) => if flt cost c then Some (cost, chain) else best
      end).

(** [min_by(partial_cmp.expect)]: the first minimum; a NaN panics. *)
Definition min_step (acc : option (nat * fl)) (x : nat * fl) : res ScheduleError (option (nat * fl)) :=
  match acc with
  | None => Ok (Some x)
  | Some a => match fcompare a.2 x.2 with
              | None => Panic
              | Some Gt => Ok (Some x)
              | Some _ => Ok acc
              end
  end.

(** Grow the chain at its front with the remaining node closest to it. *)
Fixpoint greedy (fuel : nat) (cands : list Cand) (links : list LinkRtt)
    (chain remaining : list nat) : res ScheduleError (list nat) :=
  match fuel, remaining with
  | _, [] => Ok chain
  | O, _ => Panic
  | S fuel, _ =>
      front ← expect (head chain);
      keyed ← map_res (λ '(p, i), r ← hop_rtt cands links i front; Ok (p, r)) (enumerate remaining);
      m ← fold_res min_step None keyed;
      '(pos, _) ← expect m;
      node ← expect (remaining !! pos);
      greedy fuel cands links (node :: chain) (delete pos remaining)
  end.

Definition tail_of (cands : list Cand) (active : list nat) : option nat :=
  find_first (is_head_at cands) active.

Definition movable_of (active : list nat) (tail : option nat) : list nat :=
  filter (λ i, Some i ≠ tail) active.

Definition pin_tail (tail : option nat) (chain : list nat) : list nat :=
  match tail with Some t => chain ++ [t] | None => chain end.

Definition order_stages (cands : list Cand) (counts : list Z) (links : list LinkRtt) :
    res ScheduleError (list nat * list fl) :=
  active ← active_of counts (length cands);
  if (length active <=? 1)%nat then Ok (active, [])
  else
    let tail := tail_of cands active in
    let movable := movable_of active tail in
    chain ←
      (if (length active <=? EXACT_ORDER_MAX_NODES)%nat then
         best ← fold_res (cheaper_step cands links) None (pin_tail tail <$> permutations movable);
         '(_, chain) ← expect best;
         Ok chain
       else
         '(anchor, remaining) ←
           (match tail with
            | Some t => Ok (t, movable)
            | None => t ← expect (last movable); Ok (t, removelast movable)
            end);
         greedy (length remaining) cands links [anchor] remaining);
    rtts ← chain_rtts cands links chain;
    Ok (chain, rtts).

(** ** Evaluation of a participant set *)
Record Evaluated := MkEvaluated {
  ev_counts : list Z;
  ev_order : list nat;
  ev_boundary_rtts : list fl;
  ev_tpt : fl }.

Definition f1000 : fl := of_Z b64 1000.

Definition stage_ms (cands : list Cand) (counts : list Z) (i : nat) : res ScheduleError fl :=
  c ← expect (cands !! i);
  n ← expect (counts !! i);
  Ok (match cd_tpt_decode c with
      | Some tps => fmul b64 (fdiv b64 (of_Z b64 n) tps) f1000
      | None => fzero
      end).

Definition evaluate (cands : list Cand) (n_layers : Z) (links : list LinkRtt) :
    res ScheduleError (option Evaluated) :=
  r ← apportion_v1 cands n_layers;
  match r with
  | None => Ok None
  | Some counts =>
      '(order, rtts) ← order_stages cands counts links;
      stages ← map_res (stage_ms cands counts) order;
      let compute_ms := foldl fmax fzero stages in
      Ok (Some (MkEvaluated counts order rtts (fadd b64 compute_ms (fsum b64 rtts))))
  end.

(** The selected workers in stable order, then the head. *)
Definition participants (cands : list Cand) (selected : list nat) : res ScheduleError (list Cand) :=
  map_res (λ i, expect (cands !! i)) (sort_by Nat.compare selected ++ [(length cands - 1)%nat]).

(** ** Participant selection *)
Definition score_nan (c : Cand) : bool := is_nan (hybrid_score c).

(** Non-draining first, then descending score, then stable order. *)
Definition cmp_rank (cands : list Cand) (a b : nat) : comparison :=
  match cands !! a, cands !! b with
  | Some ca, Some cb =>
      cmp_then (Z.b2z (nc_draining (cd_caps ca)) ?= Z.b2z (nc_draining (cd_caps cb)))
        (cmp_then (default Eq (fcompare (hybrid_score cb) (hybrid_score ca))) (Nat.compare a b))
  | _, _ => Nat.compare a b
  end.

(** [sort_by] whose comparison calls [expect] on [partial_cmp]: with two or
    more workers every one of them is compared, so a NaN score panics. *)
Definition ranked_workers (cands : list Cand) : res ScheduleError (list nat) :=
  let head_idx := (length cands - 1)%nat in
  if (2 <=? head_idx)%nat && existsb score_nan (take head_idx cands) then Panic
  else Ok (sort_by (cmp_rank cands) (seq 0 head_idx)).

Definition f1em9 : fl := round b64 false 1 1000000000.

Section select.
Context (cands : list Cand) (n_layers ctx_len : Z) (cost : fl).
Context (eval_tpt : list Cand → res ScheduleError (option fl)).

Definition sel_state : Type := list nat * list SelectionNote.

(** The decision on one feasible, non-draining worker. *)
Definition judge_gain (st : sel_state) (wi : nat) (node : NodeId) (cur with_ : fl) : sel_state :=
  let gain := fdiv b64 (fsub b64 cur with_) (fmax cur f1em9) in
  if fle ADDED_NODE_TPT_GAIN gain then (st.1 ++ [wi], st.2 ++ [NoteIncludedGain node gain cur with_])
  else if flt fzero gain then (st.1, st.2 ++ [NoteGainTooSmall node gain cur with_])
  else (st.1, st.2 ++ [NoteNoGain node cur with_]).

Definition select_step (st : sel_state) (wi : nat) : res ScheduleError sel_state :=
  cand ← expect (cands !! wi);
  let node := nc_node (cd_caps cand) in
  if cd_cap_layers cand =? 0 then
    Ok (st.1, st.2 ++ [NoteNoCapacity node ctx_len (mb_floor (cd_budget cand))
                         (mb_ceil (to_u64 cost))])
  else
    parts ← participants cands st.1;
    current ← eval_tpt parts;
    if nc_draining (cd_caps cand) then
      Ok (match current with
          | None => (st.1 ++ [wi], st.2 ++ [NoteDrainingNeeded node])
          | Some _ => (st.1, st.2 ++ [NoteDrainingExcluded node])
          end)
    else
      match current with
      | None =>
          let have := u64_sum (cd_cap_layers <$> parts) in
          Ok (st.1 ++ [wi], st.2 ++ [NoteNeededForMemory node have n_layers])
      | Some cur =>
          parts' ← participants cands (st.1 ++ [wi]);
          w ← eval_tpt parts';
          match w with
          | None => Ok st
          | Some with_ => Ok (judge_gain st wi node cur with_)
          end
      end.

Definition forced_notes (n : Z) (selected : list nat) : list SelectionNote :=
  NoteForced n (n - 1) ::
  omap (λ wi, match cands !! wi with
              | Some c => if nc_draining (cd_caps c)
                          then Some (NoteForcedDraining (nc_node (cd_caps c)) n) else None
              | None => None
              end) selected.

Definition select_workers (forced : option Z) : res ScheduleError sel_state :=
  ranked ← ranked_workers cands;
  match forced with
  | Some n => let selected := take (Z.to_nat (n - 1)) ranked in
              Ok (selected, forced_notes n selected)
  | None => fold_res select_step ([], []) ranked
  end.
End select.

(** ** Assembly in stage order, shared by both planners *)
Record Asm := MkAsm {
  as_assignments : list Assignment;
  as_split : list fl;
  as_prose : list ExplainLine;
  as_binding : option (nat * Z);
  as_cursor : Z }.

(** A slice [l[a..b]]. *)
Definition slice {A} (l : list A) (a b : Z) : res ScheduleError (list A) :=
  if (a <=? b) && (b <=? Z.of_nat (length l))
  then Ok (take (Z.to_nat (b - a)) (drop (Z.to_nat a) l)) else Panic.

Definition asm_step (dims : ModelDims) (kv_layer : Z) (final_set : list Cand) (counts : list Z)
    (st : Asm) (e : nat * nat) : res ScheduleError Asm :=
  let '(stage, pi) := e in
  cand ← expect (final_set !! pi);
  layers ← expect (counts !! pi);
  let start := as_cursor st in
  let stop := u32_add start layers in
  ws ← slice (md_weights dims) start stop;
  let weight_bytes := u64_sum ws in
  let kv_bytes := u64_mul layers kv_layer in
  let util_pct := if cd_budget cand =? 0 then u64_max
                  else wrap64 (u64_add weight_bytes kv_bytes * 100 / cd_budget cand) in
  let st_n := wrap32 (Z.of_nat stage) in
  Ok (MkAsm
        (as_assignments st ++
           [MkAssignment (nc_node (cd_caps cand)) (MkLayerRange start stop) st_n])
        (as_split st ++ [fdiv b32 (of_Z b32 layers) (of_Z b32 (md_n_layers dims))])
        (as_prose st ++
           [XStage st_n (cd_is_head cand) (nc_node (cd_caps cand)) start stop layers
              (mb_ceil weight_bytes) (mb_ceil kv_bytes) util_pct (mb_floor (cd_budget cand))])
        (update_binding (as_binding st) (length (as_assignments st)) util_pct)
        stop).

Definition assemble (dims : ModelDims) (kv_layer : Z) (final_set : list Cand) (counts : list Z)
    (order : list nat) : res ScheduleError Asm :=
  fold_res (asm_step dims kv_layer final_set counts) (MkAsm [] [] [] None 0) (enumerate order).

Definition dropped_lines (final_set : list Cand) (counts : list Z) : list ExplainLine :=
  (λ p : Cand * Z, XDropped (nc_node (cd_caps p.1)) (mb_floor (cd_budget p.1))) <$>
    filter (λ p : Cand * Z, p.2 = 0) (zip final_set counts).

Definition why_v1 (input : PlanRequest) (forced : option Z) (head_budget required : Z)
    (solo_fits : bool) : Why :=
  match forced with
  | Some n => if solo_fits then WhyForcedButFits n
              else WhyForced n (mb_ceil required) (mb_floor head_budget)
  | None => WhyExceedsHead (pr_ctx_len input) (mb_ceil required) (mb_floor head_budget)
              (mb_floor (nc_usable_memory_bytes (pr_head input))) (mb_ceil OVERHEAD_RESERVE_BYTES)
  end.

Definition hop_names (final_set : list Cand) (order : list nat) : list (NodeId * NodeId) :=
  omap (λ '(a, b), match final_set !! a, final_set !! b with
                   | Some ca, Some cb => Some (nc_node (cd_caps ca), nc_node (cd_caps cb))
                   | _, _ => None
                   end) (windows2 order).

Definition boundary_lines (final_set : list Cand) (order : list nat) (rtts : list fl) :
    list ExplainLine :=
  match rtts with
  | [] => []
  | _ => [XBoundaries (zip (hop_names final_set order) rtts) (fsum b64 rtts)]
  end.

Definition solo_v1 (input : PlanRequest) (head_budget required : Z) (forced : bool) :
    PlannedPlacement :=
  let dims := pr_dims input in
  let kv_total := u64_mul (md_n_layers dims) (kv_bytes_per_layer dims (pr_ctx_len input)) in
  let head := pr_head input in
  MkPlaced
    (MkPlan (MkEpoch 0) "" Solo
       [MkAssignment (nc_node head) (MkLayerRange 0 (md_n_layers dims)) 0] (pr_ctx_len input))
    [of_Z b32 1]
    [XSolo (nc_node head) (mb_ceil (md_total dims)) (mb_ceil kv_total) (pr_ctx_len input)
       (mb_ceil required) (mb_floor head_budget) (mb_floor (nc_usable_memory_bytes head))
       (mb_ceil OVERHEAD_RESERVE_BYTES) forced].

Definition distributed_v1 (input : PlanRequest) (forced : option Z)
    (head_budget required kv_layer : Z) (solo_fits : bool) : res ScheduleError PlannedPlacement :=
  let dims := pr_dims input in
  let n_layers := md_n_layers dims in
  let cost := per_layer_cost dims (pr_ctx_len input) in
  let cands := build_cands (pr_workers input ++ [pr_head input]) cost node_budget in
  let pooled_budget := u64_sum (cd_budget <$> cands) in
  let eval_tpt set := (e ← evaluate set n_layers (pr_links input); Ok (option_map ev_tpt e)) in
  '(selected, notes) ← select_workers cands n_layers (pr_ctx_len input) cost eval_tpt forced;
  final_set ← participants cands selected;
  r ← evaluate final_set n_layers (pr_links input);
  match r with
  | None => Err (DoesNotFit (mb_ceil required) (mb_floor pooled_budget))
  | Some eval =>
      st ← assemble dims kv_layer final_set (ev_counts eval) (ev_order eval);
      Ok (MkPlaced
            (MkPlan (MkEpoch 0) "" PipelineParallel (as_assignments st) (pr_ctx_len input))
            (as_split st)
            (XPipeline (Z.of_nat (length (as_assignments st)))
               (why_v1 input forced head_budget required solo_fits)
             :: as_prose st
             ++ [XKvBudget (mb_ceil kv_layer) (pr_ctx_len input) (md_kv_rate dims)
                   (mb_ceil OVERHEAD_RESERVE_BYTES)]
             ++ boundary_lines final_set (ev_order eval) (ev_boundary_rtts eval)
             ++ [XDecodeCost (ev_tpt eval)]
             ++ binding_lines (as_assignments st) (as_binding st)
             ++ (XNote <$> notes)
             ++ dropped_lines final_set (ev_counts eval)))
  end.

Definition plan_v1 (input : PlanRequest) : res ScheduleError PlannedPlacement :=
  let available := u32_add (wrap32 (Z.of_nat (length (pr_workers input)))) 1 in
  let forced := norm_forced (pr_forced_nodes input) in
  let dims := pr_dims input in
  let kv_layer := kv_bytes_per_layer dims (pr_ctx_len input) in
  let required := total_required_bytes dims (pr_ctx_len input) in
  let head_budget := node_budget (nc_usable_memory_bytes (pr_head input)) in
  let solo_fits := required <=? head_budget in
  match forced with
  | Some requested =>
      if available <? requested then Err (NotEnoughNodes requested available)
      else if requested =? 1 then
        if solo_fits then Ok (solo_v1 input head_budget required true)
        else Err (DoesNotFit (mb_ceil required) (mb_floor head_budget))
      else distributed_v1 input forced head_budget required kv_layer solo_fits
  | None =>
      if solo_fits then Ok (solo_v1 input head_budget required false)
      else distributed_v1 input forced head_budget required kv_layer solo_fits
  end.
