(* ===== verification/Apportion.v ===== *)
(** * The floating-point apportionment

    Facts about [apportion] of [crates/onebrain-scheduler/src/v1.rs]: rounding
    errors never make the rounded-down quotas exceed the layer count, so the
    leftover does not wrap, the hand-out loop always finds a node with slack,
    and the result is an exact distribution within every node's capacity. *)

From Stdlib Require Import ZArith Lia QArith Qabs Qround Lqa Sorted Permutation.
From S2P Require Import Prelude Float FloatFacts Proto SchedLib Dims SchedV1.
From stdpp Require Import base list strings.

Open Scope Z_scope.

(** A usable score: zero, or a positive double away from the format's ends. *)
Definition score_ok (s : fl) : Prop :=
  nn s ∧ ((fval s == 0)%Q ∨ (p2 (-200) <= fval s)%Q ∧ (fval s <= p2 200)%Q).

Definition qsum (l : list Q) : Q := foldr Qplus 0%Q l.

(** The unit roundoff of binary64. *)
Definition uro : Q := p2 (-53).

Lemma uro_val : (uro == 1 # (2 ^ 53))%Q.
Proof. reflexivity. Qed.

Lemma qsum_nonneg {A} (f : A → Q) l : (∀ x, x ∈ l → 0 <= f x)%Q → (0 <= qsum (f <$> l))%Q.
Proof.
  induction l as [|x l IH]; intros H; [apply Qle_refl|]. rewrite fmap_cons. simpl.
  assert (0 <= f x)%Q by (apply H; by left).
  assert (0 <= qsum (f <$> l))%Q by (apply IH; intros y Hy; apply H; by right). lra.
Qed.

Lemma qsum_app l k : (qsum (l ++ k) == qsum l + qsum k)%Q.
Proof. induction l as [|x l IH]; simpl; [lra|]. rewrite IH. lra. Qed.

Lemma rnd_rel_le X R : rnd X R → (p2 (-1022) <= X)%Q → (R <= X * (1 + uro))%Q.
Proof.
  intros H HX. pose proof (rnd_rel _ _ H HX) as Habs. apply Qabs_Qle_condition in Habs.
  unfold uro. lra.
Qed.
Lemma rnd_rel_ge X R : rnd X R → (p2 (-1022) <= X)%Q → (X * (1 - uro) <= R)%Q.
Proof.
  intros H HX. pose proof (rnd_rel _ _ H HX) as Habs. apply Qabs_Qle_condition in Habs.
  unfold uro. lra.
Qed.

(** ** The sum of the scores *)

(** After [j] additions the accumulator is zero or at least 2^-200, below
    [j * 2^200], and no less than the exact sum reduced by [j] roundoffs. *)
Definition sum_inv (j : nat) (S : Q) (T : fl) : Prop :=
  nn T ∧ ((fval T == 0)%Q ∧ (S == 0)%Q ∨ (p2 (-200) <= fval T)%Q) ∧
  (fval T <= inject_Z (Z.of_nat j) * p2 200)%Q ∧
  (0 <= S)%Q ∧ (S * (1 - inject_Z (Z.of_nat j) * uro) <= fval T)%Q.

Lemma inject_succ j : (inject_Z (Z.of_nat (S j)) == inject_Z (Z.of_nat j) + 1)%Q.
Proof. rewrite Nat2Z.inj_succ. unfold Z.succ. by rewrite inject_Z_plus. Qed.

Lemma repr_scaled j : Z.of_nat j < 2 ^ 53 → repr b64 (inject_Z (Z.of_nat j) * p2 200).
Proof. intros. exists (Z.of_nat j), 200. simpl. split; [lia|]. split; [lia|reflexivity]. Qed.

Lemma scaled_le_max j : Z.of_nat j < 2 ^ 53 → (inject_Z (Z.of_nat j) * p2 200 <= p2 1023)%Q.
Proof.
  intros Hj. apply Qle_trans with (p2 53 * p2 200)%Q; [|rewrite <- p2_add; by apply p2_le].
  apply Qmult_le_compat_r; [|apply Qlt_le_weak, p2_pos]. rewrite p2_Z by lia. apply inject_le. lia.
Qed.

Lemma sum_inv_step j S T s :
  Z.of_nat j < 2 ^ 20 → sum_inv j S T → score_ok s → sum_inv (Datatypes.S j) (S + fval s) (fadd b64 T s).
Proof.
  intros Hj (HT & Hz & Hup & HS & Hlo) (Hs & Hsv).
  pose proof (nn_fval T HT) as HT0. pose proof (nn_fval s Hs) as Hs0.
  pose proof (p2_pos (-200)) as Hp. pose proof (p2_pos 200) as Hp'.
  assert (fval s <= p2 200)%Q as Hsu by (destruct Hsv as [H|[_ H]]; lra).
  assert (fval T + fval s <= inject_Z (Z.of_nat (Datatypes.S j)) * p2 200)%Q as Hsum
    by (rewrite inject_succ; lra).
  destruct (fadd_nn T s HT Hs) as [HR Hr].
  { eapply Qle_trans; [exact Hsum|]. apply scaled_le_max. lia. }
  set (R := fadd b64 T s) in *.
  assert (fval R <= inject_Z (Z.of_nat (Datatypes.S j)) * p2 200)%Q as HRu
    by (apply (rnd_le _ _ Hr); [apply repr_scaled; lia|done]).
  assert ((fval T + fval s == 0)%Q ∧ (S + fval s == 0)%Q ∨ (p2 (-200) <= fval T + fval s)%Q) as [[Z1 Z2]|Hge].
  { destruct Hz as [[Hz1 Hz2]|Hz]; [|right; lra]. destruct Hsv as [Hs1|[Hs1 _]]; [left|right]; lra. }
  - pose proof (rnd_zero _ _ Hr Z1) as HR0.
    split; [done|]. split; [by left|]. split; [done|]. split; [lra|]. rewrite HR0, Z2. lra.
  - assert (p2 (-200) <= fval R)%Q as HRl by (apply (rnd_ge _ _ Hr); [by apply repr_p2|done]).
    split; [done|]. split; [by right|]. split; [done|]. split; [lra|].
    assert (p2 (-1022) <= fval T + fval s)%Q as Hnorm
      by (eapply Qle_trans; [|exact Hge]; by apply p2_le).
    pose proof (rnd_rel_ge _ _ Hr Hnorm) as Hrel. rewrite inject_succ.
    pose proof (inject_le 0 (Z.of_nat j) ltac:(lia)) as Hj0. change (inject_Z 0) with 0%Q in Hj0.
    pose proof (inject_le (Z.of_nat j) (2 ^ 20) ltac:(lia)) as Hj1.
    set (J := inject_Z (Z.of_nat j)) in *. change (inject_Z (2 ^ 20)) with (1048576 # 1)%Q in Hj1.
    assert (0 < uro)%Q as Hu0 by reflexivity. assert (uro <= 1 # 4194304)%Q as Hu1 by discriminate.
    set (u := uro) in *. clearbody u J.
    set (t := fval T) in *. set (v := fval s) in *. clearbody t v.
    assert ((S * (1 - J * u) + v) * (1 - u) <= (t + v) * (1 - u))%Q as H1.
    { apply Qmult_le_compat_r; lra. }
    assert ((S + v) * (1 - (J + 1) * u) <= (S * (1 - J * u) + v) * (1 - u))%Q as H2.
    { assert (0 <= S * (J * (u * u)))%Q by (repeat apply Qmult_le_0_compat; lra).
      assert (0 <= v * (J * u))%Q by (repeat apply Qmult_le_0_compat; lra). lra. }
    lra.
Qed.

Lemma fsum_inv scores :
  Forall score_ok scores → Z.of_nat (length scores) ≤ 2 ^ 20 →
  sum_inv (length scores) (qsum (fval <$> scores)) (fsum b64 scores).
Proof.
  intros Hs Hlen. unfold fsum.
  induction scores as [|s scores IH] using rev_ind.
  { split; [simpl; lia|]. simpl. split; [left; split; reflexivity|]. split; [discriminate|].
    split; [apply Qle_refl|]. discriminate. }
  apply Forall_app in Hs as [Hs Hs1]. inversion Hs1 as [|? ? Hok _]; subst.
  rewrite length_app in *. simpl in *. rewrite foldl_app, fmap_app. simpl.
  specialize (IH Hs ltac:(lia)).
  pose proof (sum_inv_step (length scores) _ _ s ltac:(lia) IH Hok) as (H1 & H2 & H3 & H4 & H5).
  replace (length scores + 1)%nat with (S (length scores)) by lia.
  assert (qsum ((fval <$> scores) ++ [fval s]) == qsum (fval <$> scores) + fval s)%Q as Heq
    by (rewrite qsum_app; simpl; lra).
  split; [done|]. rewrite Heq. done.
Qed.

(** ** Quotas *)
Definition quota (n : Z) (T s : fl) : fl := fdiv b64 (fmul b64 (of_Z b64 n) s) T.

Lemma quota_bound n T s :
  0 ≤ n < 2 ^ 32 → score_ok s → nn T → (p2 (-200) <= fval T)%Q → (fval T <= p2 230)%Q →
  nn (quota n T s) ∧ (fval (quota n T s) * fval T <= inject_Z n * fval s * ((1 + uro) * (1 + uro)))%Q.
Proof.
  intros Hn (Hs & Hsv) HT HTl HTu. unfold quota.
  destruct (of_Z_exact n ltac:(lia)) as [Hn1 Hn2].
  pose proof (nn_fval s Hs) as Hs0. pose proof (p2_pos (-200)) as Hp.
  pose proof (inject_le 0 n ltac:(lia)) as Qn. change (inject_Z 0) with 0%Q in Qn.
  pose proof (inject_le n (2 ^ 32) ltac:(lia)) as Qn'. rewrite <- p2_Z in Qn' by lia.
  assert (fval s <= p2 200)%Q as Hsu by (destruct Hsv as [H|[_ H]]; pose proof (p2_pos 200); lra).
  assert (fval (of_Z b64 n) * fval s <= p2 232)%Q as Hprod.
  { rewrite Hn2. change 232 with (32 + 200). rewrite p2_add.
    apply Qle_trans with (inject_Z n * p2 200)%Q; [nra|]. pose proof (p2_pos 200). nra. }
  destruct (fmul_nn _ _ Hn1 Hs) as [Ha Har].
  { eapply Qle_trans; [exact Hprod|]. by apply p2_le. }
  set (a := fmul b64 _ _) in *. rewrite Hn2 in Har, Hprod.
  assert (fval a <= p2 232)%Q as Hau by (apply (rnd_le _ _ Har); [by apply repr_p2|done]).
  pose proof (nn_fval a Ha) as Ha0.
  assert (0 < fval T)%Q as HT0 by lra.
  assert (fval a / fval T <= p2 1023)%Q as Hqu.
  { apply Qdiv_le_l; [done|]. eapply Qle_trans; [exact Hau|].
    apply Qle_trans with (p2 1023 * p2 (-200))%Q; [rewrite <- p2_add; by apply p2_le|].
    pose proof (p2_pos 1023). nra. }
  destruct (fdiv_nn a T Ha HT HT0 Hqu) as [Hq Hqr]. split; [done|].
  assert (0 < uro)%Q as Hu by reflexivity.
  assert ((inject_Z n * fval s == 0)%Q ∨ (p2 (-200) <= inject_Z n * fval s)%Q) as [Hz|Hpos].
  { destruct Hsv as [Hz|[Hge _]]; [left; rewrite Hz; lra|].
    destruct (Z.eq_dec n 0) as [->|Hn0]; [left; change (inject_Z 0) with 0%Q; lra|right].
    pose proof (inject_le 1 n ltac:(lia)) as Q1. change (inject_Z 1) with 1%Q in Q1. nra. }
  - pose proof (rnd_zero _ _ Har Hz) as Haz.
    assert (fval a / fval T == 0)%Q as Hdz by (rewrite Haz; field; lra).
    pose proof (rnd_zero _ _ Hqr Hdz) as Hqz. rewrite Hqz, Hz. lra.
  - assert (p2 (-200) <= fval a)%Q as Hal by (apply (rnd_ge _ _ Har); [by apply repr_p2|done]).
    pose proof (rnd_rel_le _ _ Har ltac:(eapply Qle_trans; [|exact Hpos]; by apply p2_le)) as Ra.
    assert (p2 (-430) <= fval a / fval T)%Q as Hdl.
    { apply Qdiv_ge_l; [done|]. apply Qle_trans with (p2 (-200)); [|done].
      change (-200) with (-430 + 230). rewrite p2_add. pose proof (p2_pos (-430)). nra. }
    pose proof (rnd_rel_le _ _ Hqr ltac:(eapply Qle_trans; [|exact Hdl]; by apply p2_le)) as Rq.
    assert (fval a / fval T * fval T == fval a)%Q as Hcancel by (field; lra).
    set (d := (fval a / fval T)%Q) in *. set (q := fval (fdiv b64 a T)) in *.
    assert (q * fval T <= fval a * (1 + uro))%Q as H1.
    { rewrite <- Hcancel. apply Qle_trans with (d * (1 + uro) * fval T)%Q; [|lra].
      apply Qmult_le_compat_r; lra. }
    eapply Qle_trans; [exact H1|].
    rewrite (Qmult_assoc _ (1 + uro) (1 + uro)). apply Qmult_le_compat_r; lra.
Qed.

(** The accumulated relative error is too small to reach one more layer. *)
Lemma overshoot_lt (F N K S t : Q) :
  (0 <= N → N <= 4294967296 # 1 → 0 <= K → K <= 524288 # 1 → 0 <= S → 0 < t →
   S * (1 - K * uro) <= t → F * t <= N * S * ((1 + uro) * (1 + uro)) → F < N + 1)%Q.
Proof.
  intros Qn Qn' Qk0 Qk HS HT0 Hlo Hsum. apply Qnot_le_lt. intros Hge.
  change uro with (1 # 9007199254740992)%Q in *.
  assert ((N + 1) * t <= N * S * ((1 + (1 # 9007199254740992)) * (1 + (1 # 9007199254740992))))%Q as H1.
  { eapply Qle_trans; [|exact Hsum]. apply Qmult_le_compat_r; lra. }
  assert ((N + 1) * (S * (1 - K * (1 # 9007199254740992))) <= (N + 1) * t)%Q as H2.
  { rewrite (Qmult_comm _ (S * _)), (Qmult_comm _ t). apply Qmult_le_compat_r; lra. }
  assert (N * K <= (4294967296 # 1) * (524288 # 1))%Q as HNK.
  { apply Qle_trans with (N * (524288 # 1))%Q; [|apply Qmult_le_compat_r; [done|discriminate]].
    rewrite !(Qmult_comm N). apply Qmult_le_compat_r; lra. }
  set (D := ((N + 1) * (1 - K * (1 # 9007199254740992))
    - N * ((1 + (1 # 9007199254740992)) * (1 + (1 # 9007199254740992))))%Q).
  assert (1 # 2 <= D)%Q as HD by (unfold D; lra).
  assert (S * D <= 0)%Q as HSD by (unfold D; lra).
  assert (S * (1 # 2) <= S * D)%Q as HSD2.
  { rewrite !(Qmult_comm S). by apply Qmult_le_compat_r. }
  assert (S == 0)%Q as HS0 by lra. rewrite HS0 in H1. clear -H1 HT0 Qn.
  assert (0 < (N + 1) * t)%Q by (apply Qmult_lt_0_compat; lra). lra.
Qed.

(** The rounded-down quotas add up to at most the layer count. *)
Lemma quota_floor_sum n T scores :
  0 ≤ n < 2 ^ 32 → Forall score_ok scores → Z.of_nat (length scores) ≤ 2 ^ 19 →
  T = fsum b64 scores → (0 < fval T)%Q →
  Forall (λ q, nn q ∧ 0 ≤ Qfloor (fval q)) (quota n T <$> scores) ∧
  zsum ((λ q, Qfloor (fval q)) <$> (quota n T <$> scores)) ≤ n.
Proof.
  intros Hn Hs Hlen -> HT0. set (T := fsum b64 scores) in *.
  destruct (fsum_inv scores Hs ltac:(lia)) as (HT & Hz & Hup & HS & Hlo). fold T in HT, Hz, Hup, Hlo. clearbody T.
  assert (p2 (-200) <= fval T)%Q as HTl by (destruct Hz as [[H _]|H]; [exfalso; lra|done]).
  assert (fval T <= p2 230)%Q as HTu.
  { eapply Qle_trans; [exact Hup|]. change 230 with (30 + 200). rewrite p2_add.
    apply Qmult_le_compat_r; [|apply Qlt_le_weak, p2_pos]. rewrite p2_Z by lia. apply inject_le. lia. }
  assert (∀ s, s ∈ scores → nn (quota n T s) ∧
    (fval (quota n T s) * fval T <= inject_Z n * fval s * ((1 + uro) * (1 + uro)))%Q) as Hq.
  { intros s Hin. rewrite list.Forall_forall in Hs. apply quota_bound; auto. }
  split.
  { apply Forall_fmap, list.Forall_forall. intros s Hin. destruct (Hq s Hin) as [Hqn _].
    split; [done|]. simpl. change 0 with (Qfloor 0). apply Qfloor_resp_le, nn_fval, Hqn. }
  assert (inject_Z (zsum ((λ q, Qfloor (fval q)) <$> (quota n T <$> scores))) * fval T <=
    inject_Z n * qsum (fval <$> scores) * ((1 + uro) * (1 + uro)))%Q as Hsum.
  { clear -Hq HT0. induction scores as [|s scores IH]; [simpl; unfold Qle; simpl; lia|].
    rewrite !fmap_cons. simpl. rewrite inject_Z_plus.
    destruct (Hq s ltac:(by left)) as [_ Hqs].
    pose proof (Qfloor_le (fval (quota n T s))) as Hfl.
    assert (inject_Z (Qfloor (fval (quota n T s))) * fval T <= fval (quota n T s) * fval T)%Q
      by (apply Qmult_le_compat_r; lra).
    specialize (IH ltac:(intros x Hx; apply Hq; by right)). lra. }
  apply Z.lt_succ_r. rewrite Zlt_Qlt. unfold Z.succ. rewrite inject_Z_plus.
  eapply overshoot_lt; [| | | |exact HS|exact HT0|exact Hlo|exact Hsum].
  - apply (inject_le 0). lia.
  - apply (inject_le n (2 ^ 32)). lia.
  - apply (inject_le 0). lia.
  - apply (inject_le _ (2 ^ 19) Hlen).
Qed.

(** ** The hand-out loop *)

(** What the scan has found after a prefix of the nodes. *)
Definition scan_inv (skip : option nat) (seen : list (nat * (Slot * Z)))
    (best : option (nat * fl * fl)) : Prop :=
  match best with
  | None => Forall (λ e, skip = Some e.1 ∨ sl_cap e.2.1 ≤ e.2.2) seen
  | Some (i, _, _) => ∃ s c, (i, (s, c)) ∈ seen ∧ skip ≠ Some i ∧ c < sl_cap s
  end.

Lemma scan_inv_step skip seen best e :
  scan_inv skip seen best → scan_inv skip (seen ++ [e]) (scan_step skip best e).
Proof.
  destruct e as [i [s c]]. intros HI. unfold scan_step.
  assert (∀ b, scan_inv skip seen (Some b) → scan_inv skip (seen ++ [(i, (s, c))]) (Some b)) as Hmono.
  { intros [[j k] z] (s' & c' & Hin & H1 & H2). exists s', c'.
    split; [apply elem_of_app; by left|done]. }
  destruct (bool_decide (skip = Some i) || (sl_cap s <=? c)) eqn:E.
  - destruct best as [b|]; [by apply Hmono|]. simpl in *. apply Forall_app. split; [done|].
    constructor; [|constructor]. apply orb_prop in E as [E|E]; [left; by apply bool_decide_eq_true in E|].
    right. simpl. lia.
  - apply orb_false_elim in E as [E1 E2]. apply bool_decide_eq_false in E1. apply Z.leb_gt in E2.
    assert (scan_inv skip (seen ++ [(i, (s, c))]) (Some (i, unmet s c, sl_score s))) as Hnew.
    { exists s, c. split; [apply elem_of_app; right; by left|]. split; [done|lia]. }
    destruct best as [[[j k] z]|]; [|done]. destruct (_ || _); [done|by apply Hmono].
Qed.

Lemma scan_inv_foldl skip seen l best :
  scan_inv skip seen best → scan_inv skip (seen ++ l) (foldl (scan_step skip) best l).
Proof.
  revert seen best. induction l as [|e l IH]; intros seen best H; simpl; [by rewrite app_nil_r|].
  rewrite cons_middle, app_assoc. apply IH. by apply scan_inv_step.
Qed.

Lemma elem_of_enumerate {A} (l : list A) i x : (i, x) ∈ enumerate l ↔ l !! i = Some x.
Proof.
  unfold enumerate. rewrite list_elem_of_lookup. split.
  - intros [k Hk]. apply lookup_zip_Some in Hk as [H1 H2].
    apply lookup_seq in H1 as [-> _]. done.
  - intros Hl. exists i. apply lookup_zip_Some. split; [|done].
    apply lookup_seq. split; [done|]. by eapply lookup_lt_Some.
Qed.

Lemma best_slack_Some skip slots counts i :
  best_slack skip slots counts = Some i →
  skip ≠ Some i ∧ ∃ s c, slots !! i = Some s ∧ counts !! i = Some c ∧ c < sl_cap s.
Proof.
  unfold best_slack. pose proof (scan_inv_foldl skip [] (enumerate (zip slots counts)) None) as HI.
  specialize (HI ltac:(constructor)). rewrite app_nil_l in HI.
  destruct (foldl _ _ _) as [[[j k] z]|]; [|done]. intros [= ->].
  destruct HI as (s & c & Hin & Hs & Hc). split; [done|]. exists s, c.
  apply elem_of_enumerate, lookup_zip_Some in Hin as [? ?]. done.
Qed.

Lemma best_slack_None skip slots counts i s c :
  best_slack skip slots counts = None → slots !! i = Some s → counts !! i = Some c →
  skip = Some i ∨ sl_cap s ≤ c.
Proof.
  unfold best_slack. pose proof (scan_inv_foldl skip [] (enumerate (zip slots counts)) None) as HI.
  specialize (HI ltac:(constructor)). rewrite app_nil_l in HI.
  destruct (foldl _ _ _) as [[[j k] z]|]; [done|]. intros _ Hs Hc. simpl in HI.
  rewrite list.Forall_forall in HI. apply (HI (i, (s, c))).
  apply elem_of_enumerate, lookup_zip_Some. done.
Qed.

(** Within capacity, node by node. *)
Definition within (counts caps : list Z) : Prop := Forall2 (λ c k, 0 ≤ c ≤ k) counts caps.

Lemma within_full counts caps :
  within counts caps → Forall2 (λ c k, k ≤ c) counts caps → zsum counts = zsum caps.
Proof.
  intros H. induction H as [|c k cs ks Hc _ IH]; intros Hf; [done|].
  inversion Hf; subst. simpl. rewrite IH by done. lia.
Qed.

Lemma within_sum counts caps : within counts caps → 0 ≤ zsum counts ≤ zsum caps.
Proof. induction 1; simpl in *; lia. Qed.

(** With enough total capacity the loop never runs out of nodes. *)
Lemma fill_spec leftover slots counts :
  within counts (sl_cap <$> slots) → Forall (λ s, sl_cap s < 2 ^ 32) slots →
  zsum counts + Z.of_nat leftover ≤ zsum (sl_cap <$> slots) →
  ∃ counts', fill leftover slots counts = Ok counts' ∧ within counts' (sl_cap <$> slots) ∧
    zsum counts' = zsum counts + Z.of_nat leftover.
Proof.
  revert counts. induction leftover as [|leftover IH]; intros counts Hw Hcap Hle; simpl fill.
  { exists counts. split; [done|]. split; [done|lia]. }
  destruct (best_slack None slots counts) as [i|] eqn:E; simpl.
  - apply best_slack_Some in E as (_ & s & c & Hs & Hc & Hlt).
    assert (sl_cap s < 2 ^ 32) as Hs32 by (by eapply Forall_lookup_1 in Hcap; eauto).
    assert (0 ≤ c) as Hc0.
    { destruct (Forall2_lookup_l _ _ _ _ _ Hw Hc) as (k & _ & ?). lia. }
    assert (u32_add c 1 = c + 1) as Hadd by (apply wrap32_small; unfold in_u32; lia).
    assert (zsum (alter (λ c, u32_add c 1) i counts) = zsum counts + 1) as Hsum
      by (by apply (alter_zsum _ _ i c)).
    destruct (IH (alter (λ c, u32_add c 1) i counts)) as (cs & -> & Hw' & Hs').
    + apply Forall2_alter_l; [done|]. intros x k Hx Hk Hxk. assert (x = c) as -> by congruence.
      rewrite list_lookup_fmap, Hs in Hk. simpl in Hk. injection Hk as <-. rewrite Hadd. lia.
    + done.
    + rewrite Hsum. lia.
    + exists cs. split; [done|]. split; [done|]. rewrite Hs', Hsum. lia.
  - exfalso. pose proof (within_sum _ _ Hw).
    assert (Forall2 (λ c k, k ≤ c) counts (sl_cap <$> slots)) as Hf.
    { apply Forall2_same_length_lookup_2; [by eapply Forall2_length|].
      intros j c k Hc Hk. rewrite list_lookup_fmap in Hk.
      destruct (slots !! j) as [s|] eqn:Hs; [|done]. simpl in Hk. injection Hk as <-.
      by destruct (best_slack_None _ _ _ _ _ _ E Hs Hc). }
    rewrite (within_full _ _ Hw Hf) in Hle. lia.
Qed.

Lemma fval_fzero : (fval fzero == 0)%Q.
Proof. reflexivity. Qed.

(** The counts before the hand-out: rounded-down quotas, capped. *)
Definition floor_counts (n : Z) (T : fl) (scores : list fl) (caps : list Z) : list Z :=
  zip_with (λ q c, wrap32 (Z.min (to_u64 (ffloor q)) c)) (quota n T <$> scores) caps.

Lemma floor_counts_spec n T scores caps :
  0 ≤ n < 2 ^ 32 → Forall score_ok scores → Z.of_nat (length scores) ≤ 2 ^ 19 →
  T = fsum b64 scores → (0 < fval T)%Q → Forall in_u32 caps → length scores = length caps →
  within (floor_counts n T scores caps) caps ∧ zsum (floor_counts n T scores caps) ≤ n.
Proof.
  intros Hn Hs Hlen HT HT0 Hcaps Hl.
  destruct (quota_floor_sum n T scores Hn Hs Hlen HT HT0) as [Hq Hsum].
  unfold floor_counts. clear HT HT0 Hlen Hs.
  set (qs := quota n T <$> scores) in *.
  assert (length qs = length caps) as Hlq by (unfold qs; by rewrite length_fmap).
  clearbody qs. clear Hl scores.
  assert (Forall (λ z, 0 ≤ z) ((λ q, Qfloor (fval q)) <$> qs)) as Hfl
    by (apply Forall_fmap; eapply Forall_impl; [exact Hq|]; simpl; naive_solver).
  assert (Forall (λ q, nn q ∧ 0 ≤ Qfloor (fval q) ≤ n) qs) as Hq'.
  { rewrite list.Forall_forall in Hq |- *. intros q Hin. destruct (Hq q Hin) as [H1 H2]. split; [done|].
    split; [done|]. etransitivity; [|exact Hsum].
    apply zsum_elem_le; [done|].
    by apply (list_elem_of_fmap_2 (λ q, Qfloor (fval q))). }
  enough (within (zip_with (λ q c, wrap32 (Z.min (to_u64 (ffloor q)) c)) qs caps) caps ∧
    zsum (zip_with (λ q c, wrap32 (Z.min (to_u64 (ffloor q)) c)) qs caps) ≤
    zsum ((λ q, Qfloor (fval q)) <$> qs)) as [H1 H2] by (split; [done|lia]).
  clear Hsum Hq Hfl. revert caps Hcaps Hlq.
  induction Hq' as [|q qs [Hnn Hfl] _ IH]; intros [|k caps] Hcaps Hlq; try done.
  { split; [constructor|done]. }
  inversion Hcaps as [|? ? Hk Hcaps']; subst. simpl in Hlq.
  destruct (IH caps Hcaps' ltac:(lia)) as [H1 H2]. unfold in_u32 in Hk.
  assert (fval q < p2 64)%Q as Hq64.
  { apply Qlt_le_trans with (inject_Z (Qfloor (fval q) + 1)); [apply Qlt_floor|].
    rewrite p2_Z by lia. apply inject_le. lia. }
  assert (wrap32 (Z.min (to_u64 (ffloor q)) k) = Z.min (Qfloor (fval q)) k) as Heq.
  { rewrite to_u64_floor by done. apply wrap32_small. unfold in_u32. lia. }
  rewrite fmap_cons. simpl. rewrite Heq. split; [constructor; [lia|done]|lia].
Qed.

Lemma slots_caps (scores quotas : list fl) (caps : list Z) :
  (length caps ≤ length scores)%nat ∧ (length caps ≤ length quotas)%nat →
  sl_cap <$> zip_with (λ '(s, q) c, MkSlot s q c) (zip scores quotas) caps = caps.
Proof.
  revert scores quotas. induction caps as [|k caps IH]; intros [|s ss] [|q qs] Hl; simpl in *; try lia; try done.
  f_equal. apply IH. lia.
Qed.

Lemma apportion_spec scores caps n :
  Forall score_ok scores → Forall in_u32 caps → length scores = length caps →
  Z.of_nat (length scores) ≤ 2 ^ 19 → 0 ≤ n < 2 ^ 32 →
  (apportion scores caps n = Ok None ∧ ((qsum (fval <$> scores) == 0)%Q ∨ zsum caps < n)) ∨
  ∃ counts quotas, apportion scores caps n = Ok (Some (counts, quotas)) ∧
    within counts caps ∧ zsum counts = n ∧ length quotas = length caps.
Proof.
  intros Hs Hcaps Hl Hlen Hn. unfold apportion. set (T := fsum b64 scores).
  destruct (fsum_inv scores Hs ltac:(lia)) as (HT & Hz & _ & HS & _). fold T in HT, Hz.
  assert (Forall (λ z, 0 ≤ z) caps) as Hc0.
  { eapply Forall_impl; [exact Hcaps|]. intros k [? ?]. lia. }
  assert (zsum caps < 2 ^ 64) as Hc64.
  { assert (zsum caps ≤ Z.of_nat (length caps) * 2 ^ 32); [|lia].
    clear -Hcaps. induction Hcaps as [|k caps [? ?] _ IH]; simpl in *; lia. }
  rewrite u64_sum_exact by done.
  assert (nn fzero) as Hz0 by (simpl; lia).
  destruct (fle T fzero) eqn:E; simpl.
  { left. split; [done|]. left. apply fle_nn in E; [|done..]. rewrite fval_fzero in E.
    destruct Hz as [[_ Hz]|Hz]; [done|]. pose proof (p2_pos (-200)). lra. }
  apply fle_nn_false in E; [|done..]. rewrite fval_fzero in E.
  destruct (Z.ltb_spec (zsum caps) n) as [Hlt|Hge]; [by left; split; [|right]|right].
  destruct (floor_counts_spec n T scores caps Hn Hs Hlen eq_refl E Hcaps Hl) as [Hw Hle].
  fold (quota n T). fold (floor_counts n T scores caps). set (cs := floor_counts n T scores caps) in *.
  pose proof (within_sum _ _ Hw) as Hws.
  assert (Forall (λ c, 0 ≤ c) cs) as Hcs0.
  { clear -Hw. induction Hw; constructor; [lia|done]. }
  rewrite u32_sum_exact by (done || lia).
  assert (u32_sub n (zsum cs) = n - zsum cs) as -> by (apply wrap32_small; unfold in_u32; lia).
  set (slots := zip_with _ (zip scores (quota n T <$> scores)) caps).
  assert (sl_cap <$> slots = caps) as Hsc.
  { unfold slots. apply slots_caps. rewrite length_fmap. lia. }
  destruct (fill_spec (Z.to_nat (n - zsum cs)) slots cs) as (cs' & -> & Hw' & Hs').
  - by rewrite Hsc.
  - assert (Forall in_u32 (sl_cap <$> slots)) as H by (by rewrite Hsc).
    rewrite Forall_fmap in H. eapply Forall_impl; [exact H|]. intros s [_ ?]. done.
  - rewrite Hsc. lia.
  - simpl. eexists _, _. split; [reflexivity|]. rewrite Hsc in Hw'. split; [done|].
    split; [lia|]. by rewrite length_fmap.
Qed.


(** Check a concrete score. *)
Ltac score_ok_tac :=
  split; [vm_compute; repeat split; (discriminate || done)
         |first [left; by vm_compute|right; split; vm_compute; discriminate]].

