(* ===== verification/StageOrder.v ===== *)
(** * Stage ordering

    Facts about [permutations] and [order_stages] of
    [crates/onebrain-scheduler/src/v1.rs]: the permutation search is complete,
    the order it returns is a cheapest arrangement of the nodes holding layers
    with the head pinned last, and neither the search nor the greedy chain
    panics on measured links. *)

From Stdlib Require Import ZArith Lia QArith Lqa Sorted Permutation.
From stdpp Require Import base list strings.
From S2P Require Import Prelude Float FloatFacts Proto SchedLib Dims SchedV1 Apportion.

Open Scope Z_scope.

(** ** Permutations *)
Lemma delete_Permutation_lookup {A} (l : list A) i x : l !! i = Some x → l ≡ₚ x :: delete i l.
Proof. apply delete_Permutation. Qed.

Lemma elem_of_perms fuel items p :
  length items = fuel → p ∈ perms fuel items ↔ p ≡ₚ items.
Proof.
  revert items p. induction fuel as [|fuel IH]; intros items p Hl; simpl.
  { destruct items; [|done]. rewrite list_elem_of_singleton. split; [by intros ->|].
    intros H. by apply Permutation_nil_r in H. }
  destruct items as [|y ys]; [done|]. set (items := y :: ys) in *.
  rewrite list_elem_of_In, in_concat. split.
  - intros (ps & Hps & Hp). apply list_elem_of_In in Hps. apply list_elem_of_In in Hp.
    apply list_elem_of_lookup in Hps as [i Hi]. rewrite list_lookup_imap in Hi.
    destruct (items !! i) as [x|] eqn:Hx; [|done]. simpl in Hi. injection Hi as <-.
    apply list_elem_of_fmap in Hp as (r & -> & Hr).
    apply IH in Hr; [|rewrite length_delete by eauto; lia].
    rewrite Hr. symmetry. by apply delete_Permutation_lookup.
  - intros Hp. destruct p as [|x r]; [by apply Permutation_nil_l in Hp|].
    assert (x ∈ items) as Hin by (rewrite <- Hp; by left).
    apply list_elem_of_lookup in Hin as [i Hi].
    exists ((cons x) <$> perms fuel (delete i items)). rewrite <- !list_elem_of_In. split.
    + apply list_elem_of_lookup. exists i. by rewrite list_lookup_imap, Hi.
    + apply list_elem_of_fmap. exists r. split; [done|].
      apply IH; [rewrite length_delete by eauto; lia|].
      apply (Permutation_cons_inv (a := x)). rewrite Hp. by apply delete_Permutation_lookup.
Qed.

Lemma elem_of_permutations items p : p ∈ permutations items ↔ p ≡ₚ items.
Proof. by apply elem_of_perms. Qed.

(** ** Measured links *)

(** Every measured round trip is a usable cost. *)
Definition links_ok (links : list LinkRtt) : Prop := Forall (λ l, score_ok (lr_rtt_ms l)) links.

Lemma score_ok_one : score_ok fone.
Proof. score_ok_tac. Qed.

Lemma link_rtt_ok links a b : links_ok links → score_ok (link_rtt links a b).
Proof.
  intros Hl. unfold link_rtt. destruct (find_first _ links) as [l|] eqn:E; [|apply score_ok_one].
  apply find_first_Some in E as [Hin _]. unfold links_ok in Hl. rewrite list.Forall_forall in Hl. auto.
Qed.

Lemma bool_or_comm a b : a || b = b || a.
Proof. by destruct a, b. Qed.

(** The table is undirected. *)
Lemma link_rtt_sym links a b : link_rtt links a b = link_rtt links b a.
Proof.
  unfold link_rtt. replace (find_first (link_matches a b) links) with
    (find_first (link_matches b a) links); [done|].
  unfold find_first. f_equal.
  induction links as [|l links IH]; [done|]. simpl.
  replace (link_matches b a l) with (link_matches a b l) by apply bool_or_comm.
  case_decide; [done|]. by rewrite IH.
Qed.

(** ** Chains *)
Section chains.
Context (cands : list Cand) (links : list LinkRtt) (Hlinks : links_ok links).

Definition valid_chain (chain : list nat) : Prop := Forall (λ i, (i < length cands)%nat) chain.

Lemma hop_rtt_ok a b :
  (a < length cands)%nat → (b < length cands)%nat →
  ∃ r, hop_rtt cands links a b = Ok r ∧ score_ok r.
Proof using Hlinks.
  intros Ha Hb. unfold hop_rtt.
  destruct (lookup_lt_is_Some_2 cands a Ha) as [ca ->].
  destruct (lookup_lt_is_Some_2 cands b Hb) as [cb ->]. simpl.
  eexists; split; [done|]. by apply link_rtt_ok.
Qed.

Lemma map_res_ok {E A B} (f : A → res E B) (P : B → Prop) l :
  Forall (λ x, ∃ y, f x = Ok y ∧ P y) l → ∃ ys, map_res f l = Ok ys ∧ Forall P ys ∧ length ys = length l.
Proof.
  induction 1 as [|x l (y & Hy & HP) _ (ys & Hys & HPs & Hl)]; simpl; [by eexists|].
  rewrite Hy, Hys. simpl. eexists; split; [done|]. split; [by constructor|simpl; lia].
Qed.

Lemma windows2_Forall {A} (P : A → Prop) l :
  Forall P l → Forall (λ w, P w.1 ∧ P w.2) (windows2 l).
Proof.
  induction 1 as [|x l Hx Hl IH]; [constructor|].
  destruct Hl as [|y l Hy Hl]; [constructor|]. by constructor.
Qed.

Lemma chain_rtts_ok chain :
  valid_chain chain →
  ∃ rtts, chain_rtts cands links chain = Ok rtts ∧ Forall score_ok rtts ∧
    length rtts = pred (length chain).
Proof using Hlinks.
  intros Hv. unfold chain_rtts.
  destruct (map_res_ok (λ '(a, b), hop_rtt cands links a b) score_ok (windows2 chain))
    as (ys & Hys & HP & Hl).
  - eapply Forall_impl; [apply windows2_Forall, Hv|]. intros [a b] [Ha Hb]. by apply hop_rtt_ok.
  - exists ys. by rewrite Hl, length_windows2.
Qed.

(** The summed RTT of a chain. *)
Definition chain_cost (chain : list nat) : fl :=
  match chain_rtts cands links chain with Ok rtts => fsum b64 rtts | _ => NaN end.

Lemma chain_cost_ok chain :
  valid_chain chain → Z.of_nat (length chain) ≤ 2 ^ 20 → nn (chain_cost chain).
Proof using Hlinks.
  intros Hv Hlen. destruct (chain_rtts_ok chain Hv) as (rtts & Hr & Hok & Hl).
  unfold chain_cost. rewrite Hr. apply fsum_inv; [done|]. lia.
Qed.

Lemma cheaper_step_eq best chain :
  valid_chain chain →
  cheaper_step cands links best chain =
    Ok (match best with
        | None => Some (chain_cost chain, chain)
        | Some (c, _) => if flt (chain_cost chain) c then Some (chain_cost chain, chain) else best
        end).
Proof using Hlinks.
  intros Hv. destruct (chain_rtts_ok chain Hv) as (rtts & Hr & _).
  unfold cheaper_step, chain_cost. by rewrite Hr.
Qed.

(** The search keeps the first cheapest chain seen so far. *)
Lemma search_cheapest chains :
  Forall (λ ch, valid_chain ch ∧ Z.of_nat (length ch) ≤ 2 ^ 20) chains → chains ≠ [] →
  ∃ best, fold_res (cheaper_step cands links) None chains = Ok (Some (chain_cost best, best)) ∧
    best ∈ chains ∧ Forall (λ ch, (fval (chain_cost best) <= fval (chain_cost ch))%Q) chains.
Proof using Hlinks.
  intros Hv Hne. induction chains as [|ch chains IH] using rev_ind; [done|]. clear Hne.
  apply Forall_app in Hv as [Hv Hch]. inversion Hch as [|? ? [Hch1 Hch2] _]; subst.
  rewrite fold_res_app. destruct chains as [|c0 chains].
  { simpl. rewrite cheaper_step_eq by done. simpl. exists ch. split; [done|].
    split; [by left|]. repeat constructor. apply Qle_refl. }
  destruct (IH Hv ltac:(done)) as (best & -> & Hin & Hmin).
  assert (fold_res (cheaper_step cands links) (Some (chain_cost best, best)) [ch] =
    Ok (if flt (chain_cost ch) (chain_cost best) then Some (chain_cost ch, ch)
        else Some (chain_cost best, best))) as Hstep.
  { simpl. rewrite cheaper_step_eq by done. simpl. by destruct (flt _ _). }
  unfold mbind at 1, res_bind at 1. rewrite Hstep.
  assert (nn (chain_cost ch)) as Hn1 by (by apply chain_cost_ok).
  assert (nn (chain_cost best)) as Hn2.
  { rewrite list.Forall_forall in Hv. destruct (Hv _ Hin). by apply chain_cost_ok. }
  destruct (flt (chain_cost ch) (chain_cost best)) eqn:E.
  - apply flt_nn in E; [|done..]. exists ch. split; [done|].
    split; [apply elem_of_app; right; by left|]. apply Forall_app. split.
    + eapply Forall_impl; [exact Hmin|]. simpl. intros x Hx. lra.
    + repeat constructor. apply Qle_refl.
  - exists best. split; [done|]. split; [apply elem_of_app; by left|].
    apply Forall_app. split; [done|]. repeat constructor. apply Qnot_lt_le.
    intros H. apply flt_nn in H; [congruence|done..].
Qed.
End chains.

(** ** The greedy chain *)
Lemma min_step_ok keyed :
  Forall (λ x : nat * fl, nn x.2) keyed → keyed ≠ [] →
  ∃ x, fold_res min_step None keyed = Ok (Some x) ∧ x ∈ keyed.
Proof.
  intros Hn Hne. induction keyed as [|y keyed IH] using rev_ind; [done|]. clear Hne.
  apply Forall_app in Hn as [Hn Hy]. inversion Hy as [|? ? Hny _]; subst. rewrite fold_res_app.
  destruct keyed as [|z keyed]; [exists y; split; [done|by left]|].
  destruct (IH Hn ltac:(done)) as (x & -> & Hx).
  assert (nn x.2) as Hnx by (rewrite list.Forall_forall in Hn; by apply Hn).
  unfold mbind, res_bind. simpl. rewrite fcompare_nn by done.
  destruct (fval x.2 ?= fval y.2)%Q; eexists; (split; [done|]);
    change (z :: keyed ++ [y]) with ((z :: keyed) ++ [y]); apply elem_of_app;
    [by left|by left|right; by left].
Qed.

Section greedy.
Context (cands : list Cand) (links : list LinkRtt) (Hlinks : links_ok links).

Lemma greedy_spec fuel chain remaining :
  (length remaining ≤ fuel)%nat → chain ≠ [] →
  valid_chain cands chain → valid_chain cands remaining →
  ∃ chain', greedy fuel cands links chain remaining = Ok chain' ∧
    chain' ≡ₚ chain ++ remaining ∧ last chain' = last chain.
Proof using Hlinks.
  revert chain remaining. induction fuel as [|fuel IH]; intros chain remaining Hf Hne Hc Hr.
  { destruct remaining; [|simpl in Hf; lia]. exists chain. by rewrite app_nil_r. }
  destruct remaining as [|r0 rs]; [exists chain; by rewrite app_nil_r|].
  set (remaining := r0 :: rs) in *. destruct chain as [|front chain]; [done|].
  change (greedy (S fuel) cands links (front :: chain) remaining) with
    (keyed ← map_res (λ '(p, i), r ← hop_rtt cands links i front; Ok (p, r)) (enumerate remaining);
     m ← fold_res min_step None keyed;
     '(pos, _) ← expect m;
     node ← expect (remaining !! pos);
     greedy fuel cands links (node :: front :: chain) (delete pos remaining)).
  assert (front < length cands)%nat as Hfront by (by inversion Hc).
  destruct (map_res_ok (λ '(p, i), r ← hop_rtt cands links i front; Ok (p, r))
    (λ x : nat * fl, nn x.2 ∧ (x.1 < length remaining)%nat) (enumerate remaining))
    as (keyed & -> & Hk & Hkl).
  { apply list.Forall_forall. intros [p i] Hin. apply elem_of_enumerate in Hin.
    assert (i < length cands)%nat as Hi by (by eapply Forall_lookup_1 in Hr; eauto).
    destruct (hop_rtt_ok cands links Hlinks i front Hi Hfront) as (r & -> & Hrr).
    eexists; split; [done|]. split; [apply Hrr|by eapply lookup_lt_Some]. }
  unfold mbind at 1, res_bind at 1.
  destruct (min_step_ok keyed) as ([pos r] & -> & Hin).
  { eapply Forall_impl; [exact Hk|]. naive_solver. }
  { rewrite length_enumerate in Hkl. by destruct keyed. }
  unfold mbind at 1, res_bind at 1. simpl expect. unfold mbind at 1, res_bind at 1.
  rewrite list.Forall_forall in Hk. destruct (Hk _ Hin) as [_ Hpos]. simpl in Hpos.
  destruct (lookup_lt_is_Some_2 remaining pos Hpos) as [node Hnode]. rewrite Hnode.
  unfold mbind, res_bind. cbn [expect].
  pose proof (delete_Permutation_lookup _ _ _ Hnode) as Hperm.
  unfold valid_chain in Hr. rewrite Hperm in Hr. inversion Hr as [|? ? Hnv Hdv]; subst.
  destruct (IH (node :: front :: chain) (delete pos remaining)) as (chain' & -> & Hp & Hl).
  - rewrite length_delete by eauto. unfold remaining in *. simpl in *. lia.
  - done.
  - by constructor.
  - done.
  - exists chain'. split; [done|]. split; [|by rewrite Hl].
    etransitivity; [exact Hp|].
    etransitivity; [|apply (Permutation_app_head (front :: chain)); symmetry; exact Hperm].
    apply (Permutation_middle (front :: chain)).
Qed.
End greedy.

Lemma filter_id {A} (P : A → Prop) `{!∀ x, Decision (P x)} (l : list A) : (∀ x, x ∈ l → P x) → filter P l = l.
Proof.
  induction l as [|x l IH]; intros Hl; [done|]. rewrite filter_cons_True by (apply Hl; by left).
  f_equal. apply IH. intros y Hy. apply Hl. by right.
Qed.

(** ** [order_stages] *)
Section order.
Context (cands : list Cand) (counts : list Z) (links : list LinkRtt).
Context (Hlinks : links_ok links) (Hlen : length counts = length cands).
Context (Hsize : Z.of_nat (length cands) ≤ 2 ^ 20).

Definition active : list nat := filter (λ i, 0 < default 0 (counts !! i)) (seq 0 (length cands)).
Definition the_tail : option nat := tail_of cands active.

Lemma active_NoDup : NoDup active.
Proof. apply NoDup_filter, NoDup_seq. Qed.
Lemma active_valid : valid_chain cands active.
Proof.
  apply list.Forall_forall. intros i [_ Hi]%list_elem_of_filter. apply elem_of_seq in Hi. lia.
Qed.
Lemma length_active : (length active ≤ length cands)%nat.
Proof. unfold active. rewrite <- (length_seq (length cands) 0) at 2. apply length_filter. Qed.

Lemma active_of_eq : active_of counts (length cands) = Ok active.
Proof using Hlen. unfold active_of. by rewrite Hlen, Nat.ltb_irrefl. Qed.

(** A chain of all active nodes that ends with the head, if it is active. *)
Definition pinned (chain : list nat) : Prop :=
  chain ≡ₚ active ∧ ∀ t, the_tail = Some t → last chain = Some t.

Lemma tail_elem t : the_tail = Some t → t ∈ active.
Proof. intros H. by apply find_first_Some in H as [? _]. Qed.

Lemma movable_perm :
  movable_of active the_tail ++ match the_tail with Some t => [t] | None => [] end ≡ₚ active.
Proof.
  unfold movable_of. destruct the_tail as [t|] eqn:E.
  - pose proof (tail_elem t E) as Hin. apply list_elem_of_split in Hin as (l1 & l2 & Heq).
    pose proof active_NoDup as Hnd. rewrite Heq in *. apply NoDup_app in Hnd as (_ & Hd & Hnd2).
    apply NoDup_cons in Hnd2 as [Ht2 _].
    rewrite filter_app, filter_cons_False by naive_solver.
    rewrite !filter_id.
    + rewrite <- app_assoc. f_equiv. symmetry. apply Permutation_cons_append.
    + intros i Hi. naive_solver.
    + intros i Hi [= ->]. apply (Hd t Hi). by left.
  - rewrite app_nil_r. by rewrite filter_id.
Qed.

Lemma pinned_perm p : p ≡ₚ movable_of active the_tail → pinned (pin_tail the_tail p).
Proof.
  intros Hp. pose proof movable_perm as Hm. unfold pinned, pin_tail.
  destruct the_tail as [t|]; rewrite <- Hp in Hm.
  - split; [done|]. intros t' [= <-]. by rewrite last_snoc.
  - rewrite app_nil_r in Hm. split; [done|done].
Qed.

Lemma pinned_inv chain :
  pinned chain → ∃ p, p ≡ₚ movable_of active the_tail ∧ chain = pin_tail the_tail p.
Proof.
  intros [Hp Hl]. pose proof movable_perm as Hm. unfold pin_tail.
  destruct the_tail as [t|] eqn:E.
  - specialize (Hl t eq_refl). apply last_Some in Hl as [p ->]. exists p. split; [|done].
    rewrite <- Hm in Hp. by apply Permutation_app_inv_r in Hp.
  - rewrite app_nil_r in Hm. exists chain. split; [by rewrite Hm|done].
Qed.

Lemma pinned_valid chain : pinned chain → valid_chain cands chain.
Proof. intros [Hp _]. unfold valid_chain. rewrite Hp. apply active_valid. Qed.

Lemma pinned_length chain : pinned chain → length chain = length active.
Proof. intros [Hp _]. by apply Permutation_length. Qed.

(** The exact search: a cheapest pinned chain. *)
Lemma exact_spec :
  ∃ chain, fold_res (cheaper_step cands links) None
      (pin_tail the_tail <$> permutations (movable_of active the_tail)) =
    Ok (Some (chain_cost cands links chain, chain)) ∧ pinned chain ∧
    ∀ chain', pinned chain' → (fval (chain_cost cands links chain) <= fval (chain_cost cands links chain'))%Q.
Proof using Hlen Hlinks Hsize.
  set (chains := pin_tail the_tail <$> permutations (movable_of active the_tail)).
  assert (∀ ch, ch ∈ chains ↔ pinned ch) as Hin.
  { intros ch. unfold chains. rewrite list_elem_of_fmap. split.
    - intros (p & -> & Hp). apply pinned_perm. by apply elem_of_permutations.
    - intros (p & Hp & ->)%pinned_inv. exists p. split; [done|]. by apply elem_of_permutations. }
  destruct (search_cheapest cands links Hlinks chains) as (best & Hb & Hbin & Hmin).
  - apply list.Forall_forall. intros ch Hch. apply Hin in Hch. split; [by apply pinned_valid|].
    rewrite pinned_length by done. pose proof length_active. lia.
  - intros He. assert (pin_tail the_tail (movable_of active the_tail) ∈ chains) as H
      by (apply Hin, pinned_perm; done). rewrite He in H. by apply not_elem_of_nil in H.
  - exists best. split; [done|]. split; [by apply Hin|]. intros ch Hch. apply Hin in Hch.
    rewrite list.Forall_forall in Hmin. by apply Hmin.
Qed.

(** Beyond eight nodes: a greedy chain, still pinned. *)
Lemma greedy_branch :
  (1 < length active)%nat →
  ∃ chain,
    ('(anchor, remaining) ←
       (match the_tail with
        | Some t => Ok (t, movable_of active the_tail)
        | None => t ← expect (last (movable_of active the_tail));
                  Ok (t, removelast (movable_of active the_tail))
        end);
     greedy (length remaining) cands links [anchor] remaining) = Ok chain ∧ pinned chain.
Proof using Hlen Hlinks.
  intros Hact. pose proof movable_perm as Hm. pose proof active_valid as Hav.
  unfold valid_chain in Hav. rewrite <- Hm in Hav. apply Forall_app in Hav as [Hmv Htv].
  unfold pinned. destruct the_tail as [t|] eqn:E.
  - unfold mbind, res_bind.
    destruct (greedy_spec cands links Hlinks _ [t] (movable_of active (Some t)) (le_n _))
      as (ch & -> & Hp & Hl); [done|done|done|].
    exists ch. split; [done|]. split; [|intros t' [= <-]; done].
    etransitivity; [exact Hp|]. etransitivity; [|exact Hm]. apply Permutation_app_comm.
  - rewrite app_nil_r in Hm. pose proof (Permutation_length Hm) as Hml.
    revert Hml Hm Hmv. generalize (movable_of active None). intros mv Hml Hm Hmv.
    destruct mv as [|x xs _] using rev_ind; [simpl in Hml; lia|].
    rewrite last_snoc, removelast_last. unfold mbind, res_bind; simpl.
    apply Forall_app in Hmv as [Hxs Hx].
    destruct (greedy_spec cands links Hlinks _ [x] xs (le_n _)) as (ch & -> & Hp & Hl); [done|done|done|].
    exists ch. split; [done|]. split; [|done].
    etransitivity; [exact Hp|]. etransitivity; [|exact Hm]. apply Permutation_app_comm.
Qed.

Lemma order_stages_spec :
  ∃ order rtts, order_stages cands counts links = Ok (order, rtts) ∧ pinned order ∧
    length rtts = pred (length order) ∧ Forall score_ok rtts ∧
    ((length active ≤ EXACT_ORDER_MAX_NODES)%nat → ∀ chain, pinned chain →
      (fval (chain_cost cands links order) <= fval (chain_cost cands links chain))%Q).
Proof using Hlen Hlinks Hsize.
  unfold order_stages. rewrite active_of_eq. unfold mbind at 1, res_bind at 1.
  fold the_tail. destruct (Nat.leb_spec (length active) 1) as [H1|H1].
  { exists active, []. split; [done|]. destruct active as [|x [|]] eqn:Ea; [..|simpl in H1; lia].
    - split; [split; [by rewrite Ea|]|].
      { intros t Ht%tail_elem. rewrite Ea in Ht. by apply not_elem_of_nil in Ht. }
      split; [done|]. split; [constructor|]. intros _ ch Hch%pinned_length.
      rewrite Ea in Hch. destruct ch; [apply Qle_refl|done].
    - split; [split; [by rewrite Ea|]|].
      { intros t Ht%tail_elem. rewrite Ea in Ht. apply list_elem_of_singleton in Ht as ->. done. }
      split; [done|]. split; [constructor|]. intros _ ch [Hp _]. rewrite Ea in Hp.
      symmetry in Hp. apply Permutation_singleton_l in Hp as ->. apply Qle_refl. }
  assert (∀ chain, pinned chain → ∃ rtts, chain_rtts cands links chain = Ok rtts ∧
    Forall score_ok rtts ∧ length rtts = pred (length chain)) as Hr
    by (intros ch Hch; by apply chain_rtts_ok, pinned_valid).
  destruct (Nat.leb_spec (length active) EXACT_ORDER_MAX_NODES) as [H8|H8].
  - destruct exact_spec as (chain & Hfold & Hpin & Hmin). rewrite Hfold.
    unfold mbind, res_bind. simpl expect.
    destruct (Hr chain Hpin) as (rtts & -> & Hok & Hl). exists chain, rtts. done.
  - destruct (greedy_branch H1) as (chain & Hg & Hpin).
    rewrite Hg. unfold mbind, res_bind.
    destruct (Hr chain Hpin) as (rtts & -> & Hok & Hl). exists chain, rtts.
    split; [done|]. split; [done|]. split; [done|]. split; [done|]. lia.
Qed.
End order.

(** C34: the stage order is optimal.  For every assignment of layer counts over
    measured links, [order_stages] succeeds and returns a chain of exactly the
    nodes holding layers, ending with the head whenever the head holds layers;
    with at most eight such nodes no other chain ending with the head has a
    smaller summed round trip. *)
Theorem order_stages_optimal cands counts links :
  links_ok links → length counts = length cands → Z.of_nat (length cands) ≤ 2 ^ 20 →
  ∃ order rtts, order_stages cands counts links = Ok (order, rtts) ∧
    pinned cands counts order ∧
    ((length order ≤ EXACT_ORDER_MAX_NODES)%nat → ∀ chain, pinned cands counts chain →
      (fval (chain_cost cands links order) <= fval (chain_cost cands links chain))%Q).
Proof.
  intros Hl Hlen Hs. destruct (order_stages_spec cands counts links Hl Hlen Hs)
    as (order & rtts & H1 & H2 & _ & _ & H3).
  exists order, rtts. split; [done|]. split; [done|]. intros H. apply H3.
  by rewrite <- (pinned_length _ _ _ H2).
Qed.

Definition ex_cand (name : string) (is_head : bool) : Cand :=
  MkCand (MkCaps (MkNodeId name) (2 ^ 34) None false) is_head (2 ^ 33) (of_Z b64 64) 64 None fone None.
Definition ex_cands : list Cand := [ex_cand "a" false; ex_cand "b" false; ex_cand "h" true].
Definition ex_links : list LinkRtt :=
  [MkLink (MkNodeId "a") (MkNodeId "h") (of_Z b64 1) None;
   MkLink (MkNodeId "h") (MkNodeId "b") (of_Z b64 9) None;
   MkLink (MkNodeId "b") (MkNodeId "a") (of_Z b64 2) None].

Lemma ex_links_ok : links_ok ex_links.
Proof. repeat (apply Forall_cons; split; [score_ok_tac|]). constructor. Qed.

Lemma order_stages_optimal_witness :
  ∃ rtts, order_stages ex_cands [3; 4; 5] ex_links = Ok ([1; 0; 2]%nat, rtts) ∧
    pinned ex_cands [3; 4; 5] [1; 0; 2]%nat.
Proof.
  destruct (order_stages_optimal ex_cands [3; 4; 5] ex_links ex_links_ok eq_refl ltac:(simpl; lia))
    as (order & rtts & H & Hp & _).
  assert (order = [1; 0; 2]%nat) as Ho.
  { assert (match order_stages ex_cands [3; 4; 5] ex_links with Ok (o, _) => o | _ => [] end =
      [1; 0; 2]%nat) as Hc by (vm_compute; reflexivity).
    rewrite H in Hc. exact Hc. }
  exists rtts. rewrite Ho in H, Hp. split; [exact H|exact Hp].
Defined.
