(* ===== verification/PlanCore.v ===== *)
(** * Planning over a candidate table

    What the v1 and v2 planners share, against an interface: a
    [PlacementEval] judges a participant set, and every fact here about
    candidate tables, participant selection and assembly holds for any
    evaluator that satisfies its laws. *)

From Stdlib Require Import ZArith Lia QArith Qabs Qround Lqa Sorted Permutation.
From stdpp Require Import base list strings.
From S2P Require Import Prelude Float FloatFacts Proto SchedLib Dims SchedV1 Apportion StageOrder.

Open Scope Z_scope.

(** ** Candidates *)

(** A decode rate a microbenchmark can report. *)
Definition rate_ok (d : fl) : Prop := nn d ∧ (p2 (-100) <= fval d)%Q ∧ (fval d <= p2 100)%Q.

Record cand_ok (c : Cand) : Prop := {
  co_budget : 0 ≤ cd_budget c < 2 ^ 64;
  co_cap_f : nn (cd_cap_f c) ∧ ((fval (cd_cap_f c) == 0)%Q ∨
     (p2 (-65) <= fval (cd_cap_f c))%Q ∧ (fval (cd_cap_f c) <= p2 65)%Q);
  co_cap_layers : in_u32 (cd_cap_layers c);
  co_cap_floor : (inject_Z (cd_cap_layers c) <= fval (cd_cap_f c))%Q;
  co_factor : nn (cd_factor c) ∧ (1 # 2 <= fval (cd_factor c))%Q ∧ (fval (cd_factor c) <= 2)%Q;
  co_decode : ∀ d, cd_decode c = Some d → rate_ok d;
  co_tpt_decode : ∀ d, cd_tpt_decode c = Some d → rate_ok d }.

(** Nodes as they are reported: 64-bit memory, and a microbenchmark that is
    absent, without a positive decode rate, or in range. *)
Definition caps_ok (caps : NodeCaps) : Prop :=
  in_u64 (nc_usable_memory_bytes caps) ∧ ∀ d, pos_decode caps = Some d → rate_ok d.

Lemma fone_nn : nn fone ∧ (fval fone == 1)%Q.
Proof. split; [simpl; lia|reflexivity]. Qed.
Lemma fhalf_nn : nn fhalf ∧ (fval fhalf == 1 # 2)%Q.
Proof. split; [simpl; lia|reflexivity]. Qed.

Lemma fmax_ge_one x : nn x → (fval x <= p2 64)%Q →
  nn (fmax x fone) ∧ (1 <= fval (fmax x fone))%Q ∧ (fval (fmax x fone) <= p2 64)%Q.
Proof.
  intros Hx Hle. destruct fone_nn as [H1 H2].
  assert (1 <= p2 64)%Q as H64 by discriminate.
  destruct (fmax_nn x fone Hx H1) as [[-> H]|[-> H]]; rewrite H2 in *; repeat split; try done; lra.
Qed.

Lemma of_Z_bounds n : 0 ≤ n < 2 ^ 64 →
  nn (of_Z b64 n) ∧ (n = 0 ∧ (fval (of_Z b64 n) == 0)%Q ∨ (1 <= fval (of_Z b64 n))%Q) ∧
  (fval (of_Z b64 n) <= p2 64)%Q.
Proof.
  intros Hn. destruct (of_Z_nn n ltac:(lia)) as [H1 H2]. split; [done|]. split.
  - destruct (Z.eq_dec n 0) as [->|Hn0]; [left|right].
    + split; [done|]. by apply (rnd_zero _ _ H2).
    + apply (rnd_ge _ _ H2); [by apply (repr_Z 1)|]. by apply (inject_le 1); lia.
  - apply (rnd_le _ _ H2); [by apply repr_p2|]. rewrite p2_Z by lia. apply inject_le. lia.
Qed.

Lemma per_layer_cost_bounds dims ctx :
  nn (per_layer_cost dims ctx) ∧ (1 <= fval (per_layer_cost dims ctx))%Q ∧
  (fval (per_layer_cost dims ctx) <= p2 64)%Q.
Proof.
  unfold per_layer_cost. set (n := u64_add _ _).
  assert (0 ≤ n < 2 ^ 64) as Hn by apply wrap64_range.
  destruct (of_Z_bounds n Hn) as (H1 & _ & H3). by apply fmax_ge_one.
Qed.

Lemma cap_f_bounds budget cost :
  0 ≤ budget < 2 ^ 64 → nn cost → (1 <= fval cost)%Q → (fval cost <= p2 64)%Q →
  let x := fdiv b64 (of_Z b64 budget) cost in
  nn x ∧ ((fval x == 0)%Q ∨ (p2 (-65) <= fval x)%Q ∧ (fval x <= p2 65)%Q).
Proof.
  intros Hb Hc Hc1 Hc2 x. destruct (of_Z_bounds budget Hb) as (H1 & H2 & H3).
  assert (fval (of_Z b64 budget) / fval cost <= p2 65)%Q as Hup.
  { apply Qdiv_le_l; [lra|]. pose proof (p2_le 64 65 ltac:(lia)).
    assert (p2 65 * 1 <= p2 65 * fval cost)%Q
      by (rewrite !(Qmult_comm (p2 65)); apply Qmult_le_compat_r; [done|apply Qlt_le_weak, p2_pos]). lra. }
  destruct (fdiv_nn _ _ H1 Hc ltac:(lra)) as [Hx Hr].
  { eapply Qle_trans; [exact Hup|]. by apply p2_le. }
  split; [done|]. destruct H2 as [[_ Hz]|Hge].
  - left. apply (rnd_zero _ _ Hr). rewrite Hz. field. lra.
  - right. split; [|apply (rnd_le _ _ Hr); [by apply repr_p2|done]].
    apply (rnd_ge _ _ Hr); [by apply repr_p2|]. apply Qdiv_ge_l; [lra|].
    apply Qle_trans with (p2 (-65) * p2 64)%Q.
    + rewrite !(Qmult_comm (p2 (-65))). apply Qmult_le_compat_r; [done|apply Qlt_le_weak, p2_pos].
    + rewrite <- p2_add. eapply Qle_trans; [|exact Hge]. discriminate.
Qed.

Lemma factor_bounds d m :
  rate_ok d → rate_ok m → (fval d <= fval m)%Q →
  let f := fadd b64 fhalf (fdiv b64 (fmul b64 fhalf d) m) in
  nn f ∧ (1 # 2 <= fval f)%Q ∧ (fval f <= 2)%Q.
Proof.
  intros (Hd & Hd1 & Hd2) (Hm & Hm1 & Hm2) Hle f. destruct fhalf_nn as [Hh Hhv].
  pose proof (p2_pos (-100)) as Hp.
  destruct (fmul_nn fhalf d Hh Hd) as [Ha Har].
  { rewrite Hhv. pose proof (p2_le 100 1023 ltac:(lia)). lra. }
  set (a := fmul b64 fhalf d) in *. rewrite Hhv in Har.
  assert (fval a <= fval d)%Q as Had by (apply (rnd_le _ _ Har); [by apply nn_repr|lra]).
  pose proof (nn_fval a Ha) as Ha0.
  assert (fval a / fval m <= 1)%Q as Hq1 by (apply Qdiv_le_l; lra).
  destruct (fdiv_nn a m Ha Hm ltac:(lra)) as [Hq Hqr].
  { eapply Qle_trans; [exact Hq1|]. discriminate. }
  set (q := fdiv b64 a m) in *. pose proof (nn_fval q Hq) as Hq0.
  assert (fval q <= 1)%Q as Hq2 by (apply (rnd_le _ _ Hqr); [by apply (repr_p2 0)|done]).
  destruct (fadd_nn fhalf q Hh Hq) as [Hf Hfr].
  { rewrite Hhv. assert (2 <= p2 1023)%Q by discriminate. lra. }
  split; [done|]. split.
  - apply (rnd_ge _ _ Hfr); [by apply (repr_p2 (-1))|]. rewrite Hhv. lra.
  - apply (rnd_le _ _ Hfr); [by apply (repr_p2 1)|]. rewrite Hhv. change (p2 1) with 2%Q. lra.
Qed.

(** Folding [f64::max] / [f64::min] from NaN picks an extreme element. *)
Lemma fold_fmax_spec l x :
  Forall nn l → nn x → foldl fmax x l ∈ x :: l ∧ Forall (λ y, fval y <= fval (foldl fmax x l))%Q (x :: l).
Proof.
  intros Hl. revert x. induction Hl as [|y l Hy Hl IH]; intros x Hx; simpl.
  { split; [by left|]. repeat constructor. apply Qle_refl. }
  destruct (fmax_nn x y Hx Hy) as [[-> Hle]|[-> Hle]].
  - destruct (IH x Hx) as [H1 H2]. inversion H2 as [|? ? Hxm Hlm]; subst.
    split; [apply elem_of_cons in H1 as [->|H1]; [by left|by right; right]|].
    constructor; [done|]. constructor; [lra|done].
  - destruct (IH y Hy) as [H1 H2]. inversion H2 as [|? ? Hym Hlm]; subst.
    split; [by right|]. constructor; [lra|by constructor].
Qed.

Lemma fold_fmin_elem l x : Forall nn l → nn x → foldl fmin x l ∈ x :: l.
Proof.
  intros Hl. revert x. induction Hl as [|y l Hy Hl IH]; intros x Hx; simpl; [by left|].
  assert (fmin x y = x ∨ fmin x y = y) as [-> | ->].
  { destruct x, y; try done; simpl; case_match; auto. }
  - specialize (IH x Hx). apply elem_of_cons in IH as [->|IH]; [by left|by right; right].
  - specialize (IH y Hy). by right.
Qed.

Lemma fmax_NaN x : fmax NaN x = x.
Proof. done. Qed.
Lemma fmin_NaN x : fmin NaN x = x.
Proof. done. Qed.

Lemma rate_finite d : rate_ok d → is_finite d = true.
Proof. intros [H _]. by destruct d. Qed.

Lemma ffloor_shape x : nn x → ∃ s m e, ffloor x = Fin s m e ∧ 0 ≤ m ∧ (s = true → m = 0).
Proof.
  destruct x as [| |s m e]; try done. intros (Hm & _ & Hs). unfold ffloor.
  destruct (Z.leb_spec 0 e); [exists s, m, e; repeat split; try done; lia|].
  set (z := floor_Z s m e). destruct (Z.eqb_spec z 0); [by exists s, 0, 0|].
  exists (z <? 0), (Z.abs z), 0. split; [done|]. split; [lia|]. intros Hz%Z.ltb_lt. exfalso.
  assert (0 ≤ z); [|lia]. unfold z, floor_Z.
  assert (signed s m = m) as -> by (destruct s; simpl; [rewrite Hs by done|]; done).
  destruct (Z.leb_spec 0 e); [lia|]. apply Z.div_pos; lia.
Qed.

Lemma fmax_ffloor x : nn x → fmax (ffloor x) fzero = ffloor x.
Proof.
  intros Hx. destruct (ffloor_shape x Hx) as (s & m & e & -> & Hm & Hs).
  unfold fmax, fzero, flt, fcompare. set (g := Z.min e (-1074)).
  assert (signed s (m * 2 ^ (e - g)) ?= signed false (0 * 2 ^ (-1074 - g)) ≠ Lt) as Hne.
  { simpl. rewrite Z.compare_ge_iff. destruct s; simpl; [rewrite Hs by done; lia|].
    apply Z.mul_nonneg_nonneg; lia. }
  by destruct (_ ?= _).
Qed.

Lemma to_u64_nonneg x : nn x → 0 ≤ to_u64 (ffloor x).
Proof.
  intros Hx. destruct (ffloor_shape x Hx) as (s & m & e & -> & Hm & Hs). simpl.
  destruct s; [done|]. unfold floor_Z, signed, u64_max.
  assert (0 ≤ if 0 <=? e then m * 2 ^ e else m / 2 ^ (- e)); [|lia].
  destruct (Z.leb_spec 0 e); [lia|]. apply Z.div_pos; lia.
Qed.

Lemma cap_layers_bounds x :
  nn x →
  let k := Z.min (to_u64 (fmax (ffloor x) fzero)) u32_max in
  in_u32 k ∧ (inject_Z k <= fval x)%Q.
Proof.
  intros Hx k. unfold k. rewrite fmax_ffloor by done. pose proof (to_u64_nonneg x Hx) as H0.
  split; [unfold in_u32, u32_max; lia|].
  destruct (Qlt_le_dec (fval x) (p2 64)) as [Hlt|Hge].
  - rewrite to_u64_floor in H0 |- * by done. eapply Qle_trans; [|apply Qfloor_le]. apply inject_le. lia.
  - eapply Qle_trans; [|exact Hge]. rewrite p2_Z by lia. apply inject_le. unfold u32_max. lia.
Qed.

Section table.
Context (all_caps : list NodeCaps) (Hcaps : Forall caps_ok all_caps).
Context (cost : fl) (Hcost : nn cost ∧ (1 <= fval cost)%Q ∧ (fval cost <= p2 64)%Q).
Context (budget_of : Z → Z) (Hbudget : ∀ m, in_u64 m → 0 ≤ budget_of m < 2 ^ 64).

Let profiled := omap pos_decode all_caps.

Lemma profiled_rates : Forall rate_ok profiled.
Proof using Hcaps.
  unfold profiled. apply list.Forall_forall. intros d (c & Hc & Hd)%list_elem_of_omap.
  rewrite list.Forall_forall in Hcaps. by apply (Hcaps c Hc).
Qed.

(** A node with a rate makes the maximum and minimum finite rates. *)
Lemma extremes d :
  d ∈ profiled →
  rate_ok (foldl fmax NaN profiled) ∧ rate_ok (foldl fmin NaN profiled) ∧
  (fval d <= fval (foldl fmax NaN profiled))%Q.
Proof using Hcaps.
  intros Hd. pose proof profiled_rates as Hr. destruct profiled as [|x l]; [by apply not_elem_of_nil in Hd|].
  inversion Hr as [|? ? Hx Hl]; subst.
  assert (Forall nn l) as Hnl by (eapply Forall_impl; [exact Hl|]; by intros y [? _]).
  destruct (fold_fmax_spec l x Hnl (proj1 Hx)) as [H1 H2].
  pose proof (fold_fmin_elem l x Hnl (proj1 Hx)) as H3.
  simpl. rewrite ?fmax_NaN, ?fmin_NaN.
  rewrite list.Forall_forall in Hr, H2. auto.
Qed.

Lemma min_decode_rate : is_finite (foldl fmin NaN profiled) = true → rate_ok (foldl fmin NaN profiled).
Proof using Hcaps.
  pose proof extremes as He. destruct profiled as [|x l]; [done|]. intros _.
  apply (He x). by left.
Qed.

Lemma build_cand_ok n i caps :
  caps ∈ all_caps →
  cand_ok (build_cand cost budget_of (foldl fmax NaN profiled) (foldl fmin NaN profiled) n i caps).
Proof using Hcaps Hcost Hbudget.
  intros Hin. pose proof Hcaps as Hc. rewrite list.Forall_forall in Hc. destruct (Hc caps Hin) as [Hmem Hdec].
  pose proof (Hbudget _ Hmem) as Hb. destruct Hcost as (Hc1 & Hc2 & Hc3).
  destruct (cap_f_bounds _ cost Hb Hc1 Hc2 Hc3) as [Hf1 Hf2].
  destruct (cap_layers_bounds _ Hf1) as [Hl1 Hl2].
  assert (∀ d, pos_decode caps = Some d → d ∈ profiled) as Hprof.
  { intros d Hd. unfold profiled. apply list_elem_of_omap. by exists caps. }
  split; unfold build_cand; simpl; try done.
  - destruct (pos_decode caps) as [d|] eqn:Ed.
    + destruct (extremes d (Hprof d eq_refl)) as (Hmax & _ & Hle). rewrite rate_finite by done.
      apply factor_bounds; auto.
    + destruct fone_nn as [H1 H2]. split; [done|]. rewrite H2. split; [discriminate|discriminate].
  - intros d. destruct (pos_decode caps) as [d'|] eqn:Ed.
    + intros [= <-]. auto.
    + destruct (is_finite _) eqn:Ef; [|done]. intros [= <-]. by apply min_decode_rate.
Qed.

Lemma build_cands_ok : Forall cand_ok (build_cands all_caps cost budget_of).
Proof using Hcaps Hcost Hbudget.
  apply Forall_lookup. intros i c Hi. unfold build_cands in Hi. rewrite list_lookup_imap in Hi.
  destruct (all_caps !! i) as [caps|] eqn:E; [|done]. simpl in Hi. injection Hi as <-.
  apply build_cand_ok. by eapply list_elem_of_lookup_2.
Qed.

Lemma length_build_cands : length (build_cands all_caps cost budget_of) = length all_caps.
Proof using. apply length_imap. Qed.

Lemma build_cands_lookup i c :
  build_cands all_caps cost budget_of !! i = Some c →
  all_caps !! i = Some (cd_caps c) ∧ cd_budget c = budget_of (nc_usable_memory_bytes (cd_caps c)) ∧
  cd_is_head c = Nat.eqb i (length all_caps - 1) ∧
  cd_cap_f c = fdiv b64 (of_Z b64 (cd_budget c)) cost ∧
  cd_cap_layers c = Z.min (to_u64 (fmax (ffloor (cd_cap_f c)) fzero)) u32_max.
Proof using.
  unfold build_cands. rewrite list_lookup_imap. destruct (all_caps !! i) as [caps|]; [|done].
  intros [= <-]. done.
Qed.
End table.

(** ** The evaluator interface *)
Definition caps_of (set : list Cand) : list Z := cd_cap_layers <$> set.

Definition set_ok (set : list Cand) : Prop :=
  Forall cand_ok set ∧ Z.of_nat (length set) ≤ 2 ^ 19.

(** A complete placement of [n] layers on a participant set: counts within
    every node's capacity that add up to [n], and a stage order of exactly the
    nodes holding layers, the head last. *)
Record arrangement (set : list Cand) (n : Z) (counts : list Z) (order : list nat) : Prop := {
  arr_within : within counts (caps_of set);
  arr_sum : zsum counts = n;
  arr_pinned : pinned set counts order }.

(** What a planner promises about judging a participant set: it never fails,
    it refuses exactly the sets whose capacities cannot hold the model, and
    otherwise it produces a complete placement. *)
Class PlacementEval {R : Type} (n : Z) (ev : list Cand → res ScheduleError (option R))
    (counts_of : R → list Z) (order_of : R → list nat) : Prop :=
  pe_judges set : set_ok set →
    ev set = Ok None ∧ zsum (caps_of set) < n ∨
    ∃ r, ev set = Ok (Some r) ∧ arrangement set n (counts_of r) (order_of r).

Lemma arrangement_fits set n counts order : arrangement set n counts order → n ≤ zsum (caps_of set).
Proof. intros [Hw <- _]. by apply within_sum. Qed.

(** ** Scores *)
Lemma hybrid_ok c :
  cand_ok c → score_ok (hybrid_score c) ∧ ((fval (hybrid_score c) == 0)%Q → cd_cap_layers c = 0).
Proof.
  intros [_ [Hf Hfv] [Hk0 _] Hkf (Hx & Hx1 & Hx2) _ _]. unfold hybrid_score.
  pose proof (nn_fval _ Hf) as Hf0.
  assert (fval (cd_cap_f c) <= p2 65)%Q as Hup.
  { destruct Hfv as [H|[_ H]]; [|done]. pose proof (p2_pos 65). lra. }
  assert (fval (cd_cap_f c) * fval (cd_factor c) <= p2 66)%Q as Hprod.
  { apply Qle_trans with (fval (cd_cap_f c) * 2)%Q.
    - rewrite !(Qmult_comm (fval (cd_cap_f c))). by apply Qmult_le_compat_r.
    - change 66 with (65 + 1). rewrite p2_add. change (p2 1) with 2%Q. lra. }
  destruct (fmul_nn _ _ Hf Hx) as [Hs Hr].
  { eapply Qle_trans; [exact Hprod|]. by apply p2_le. }
  destruct Hfv as [Hz|[Hge _]].
  - assert (fval (cd_cap_f c) * fval (cd_factor c) == 0)%Q as Hpz by (rewrite Hz; lra).
    pose proof (rnd_zero _ _ Hr Hpz) as Hsz. split; [split; [done|by left]|]. intros _.
    rewrite Hz in Hkf. change 0%Q with (inject_Z 0) in Hkf. rewrite <- Zle_Qle in Hkf. lia.
  - assert (p2 (-66) <= fval (cd_cap_f c) * fval (cd_factor c))%Q as Hl.
    { apply Qle_trans with (p2 (-65) * (1 # 2))%Q.
      - change (-66) with (-65 - 1). rewrite p2_half. apply Qle_refl.
      - apply Qle_trans with (fval (cd_cap_f c) * (1 # 2))%Q; [lra|].
        rewrite !(Qmult_comm (fval (cd_cap_f c))). by apply Qmult_le_compat_r. }
    assert (p2 (-66) <= fval (fmul b64 (cd_cap_f c) (cd_factor c)))%Q as Hsl
      by (apply (rnd_ge _ _ Hr); [by apply repr_p2|done]).
    pose proof (p2_pos (-66)). split; [|intros; lra]. split; [done|right]. split.
    + eapply Qle_trans; [|exact Hsl]. by apply p2_le.
    + apply (rnd_le _ _ Hr); [by apply repr_p2|]. eapply Qle_trans; [exact Hprod|]. by apply p2_le.
Qed.

Lemma caps_of_u32 set : Forall cand_ok set → Forall in_u32 (caps_of set).
Proof. intros H. apply Forall_fmap. eapply Forall_impl; [exact H|]. intros c Hc. apply Hc. Qed.

Lemma caps_of_nonneg set : Forall cand_ok set → Forall (λ k, 0 ≤ k) (caps_of set).
Proof. intros H. eapply Forall_impl; [by apply caps_of_u32|]. by intros k [? _]. Qed.

(** A zero total score means no capacity. *)
Lemma qsum_zero_all {A} (f : A → Q) l :
  (∀ x, x ∈ l → 0 <= f x)%Q → (qsum (f <$> l) == 0)%Q → ∀ x, x ∈ l → (f x == 0)%Q.
Proof.
  induction l as [|y l IH]; intros H0 Hs x Hx; [by apply not_elem_of_nil in Hx|].
  rewrite fmap_cons in Hs. simpl in Hs.
  assert (0 <= f y)%Q by (apply H0; by left).
  assert (0 <= qsum (f <$> l))%Q by (apply qsum_nonneg; intros z Hz; apply H0; by right).
  apply elem_of_cons in Hx as [->|Hx]; [lra|]. apply IH; [intros z Hz; apply H0; by right|lra|done].
Qed.

Lemma no_score_no_cap (score : Cand → fl) set :
  (∀ c, c ∈ set → score_ok (score c)) →
  (∀ c, c ∈ set → (fval (score c) == 0)%Q → cd_cap_layers c = 0) →
  (qsum (fval <$> (score <$> set)) == 0)%Q → zsum (caps_of set) = 0.
Proof.
  intros H1 H2 Hs. rewrite <- list_fmap_compose in Hs.
  pose proof (qsum_zero_all (fval ∘ score) set) as Hz.
  assert (∀ c, c ∈ set → (0 <= (fval ∘ score) c)%Q) as H0 by (intros c Hc; apply nn_fval, (H1 c Hc)).
  specialize (Hz H0 Hs). clear H0 H1 Hs.
  induction set as [|c set IH]; [done|]. unfold caps_of in *. rewrite fmap_cons. simpl.
  assert (c ∈ c :: set) as Hc by (by left). rewrite (H2 c Hc (Hz c Hc)), IH; [done|..].
  - intros x Hx. apply H2. by right.
  - intros x Hx. apply Hz. by right.
Qed.

(** ** Participants *)
Section participants.
Context (cands : list Cand) (Hcands : Forall cand_ok cands).
Context (Hne : cands ≠ []) (Hsize : Z.of_nat (length cands) ≤ 2 ^ 19).

Definition head_idx : nat := (length cands - 1)%nat.
Definition cap_at (i : nat) : Z := default 0 (cd_cap_layers <$> cands !! i).
Definition draining_at (i : nat) : bool :=
  match cands !! i with Some c => nc_draining (cd_caps c) | None => false end.

(** The layers a selection (plus the head) can hold. *)
Definition capacity (selected : list nat) : Z := zsum (cap_at <$> selected) + cap_at head_idx.

Lemma cap_at_nonneg i : 0 ≤ cap_at i.
Proof using Hcands.
  unfold cap_at. destruct (cands !! i) as [c|] eqn:E; [|done]. simpl.
  eapply Forall_lookup_1 in Hcands; [|exact E]. apply Hcands.
Qed.

Lemma capacity_mono s1 s2 : s1 ⊆+ s2 → capacity s1 ≤ capacity s2.
Proof using Hcands.
  intros [k Hp]%submseteq_Permutation. unfold capacity. rewrite Hp, fmap_app, zsum_app.
  assert (0 ≤ zsum (cap_at <$> k)); [|lia].
  apply zsum_nonneg, Forall_fmap, Forall_true. intros i. simpl. apply cap_at_nonneg.
Qed.

Lemma map_res_lookup idx :
  Forall (λ i, (i < length cands)%nat) idx →
  ∃ parts, map_res (λ i, expect (cands !! i)) idx = (Ok parts : res ScheduleError (list Cand)) ∧
    parts = omap (λ i, cands !! i) idx ∧ caps_of parts = cap_at <$> idx ∧ length parts = length idx.
Proof using.
  induction 1 as [|i idx Hi _ (parts & Hm & -> & Hc & Hl)]; [by eexists|].
  destruct (lookup_lt_is_Some_2 cands i Hi) as [c Hc'].
  simpl. rewrite Hc'. simpl. rewrite Hm. simpl. eexists; split; [done|]. split; [done|].
  unfold caps_of in *. rewrite !fmap_cons, Hc. unfold cap_at at 2. rewrite Hc'. simpl in *. by rewrite Hl.
Qed.

Lemma participants_spec selected :
  Forall (λ i, (i < length cands)%nat) selected → NoDup selected → head_idx ∉ selected →
  ∃ parts, participants cands selected = Ok parts ∧ set_ok parts ∧
    parts = omap (λ i, cands !! i) (sort_by Nat.compare selected ++ [head_idx]) ∧
    zsum (caps_of parts) = capacity selected.
Proof using Hcands Hne Hsize.
  intros Hv Hnd Hh. unfold participants. fold head_idx.
  pose proof (sort_by_Permutation Nat.compare selected) as Hp.
  assert (head_idx < length cands)%nat as Hhl by (unfold head_idx; destruct cands; [done|simpl; lia]).
  assert (Forall (λ i, (i < length cands)%nat) (sort_by Nat.compare selected ++ [head_idx])) as Hv'.
  { apply Forall_app. split; [by rewrite Hp|by constructor]. }
  destruct (map_res_lookup _ Hv') as (parts & -> & Hparts & Hcaps & Hlen).
  exists parts. split; [done|]. split; [|split; [done|]].
  - split.
    + apply list.Forall_forall. intros c Hc. rewrite Hparts in Hc.
      apply list_elem_of_omap in Hc as (i & _ & Hi). by eapply Forall_lookup_1 in Hcands.
    + rewrite Hlen. assert (NoDup (sort_by Nat.compare selected ++ [head_idx])) as Hnd'.
      { rewrite Hp. apply NoDup_app. split; [done|]. split; [|apply NoDup_singleton].
        intros i Hi ->%list_elem_of_singleton. done. }
      assert (sort_by Nat.compare selected ++ [head_idx] ⊆+ seq 0 (length cands)) as Hsub.
      { apply NoDup_submseteq; [done|]. intros i Hi. rewrite list.Forall_forall in Hv'.
        apply elem_of_seq. specialize (Hv' i Hi). lia. }
      apply submseteq_length in Hsub. rewrite length_seq in Hsub. lia.
  - rewrite Hcaps, fmap_app, zsum_app. unfold capacity. rewrite Hp. simpl. lia.
Qed.
End participants.

(** ** Ranking *)
Lemma CmpOk_ext {A} (c d : A → A → comparison) : CmpOk c → (∀ x y, d x y = c x y) → CmpOk d.
Proof.
  intros [Ha Ht] H. split; [intros x y; rewrite !H; apply Ha|].
  intros x y z. unfold cmp_le in *. rewrite !H. apply Ht.
Qed.

Lemma Qcompare_ok {A} (f : A → Q) : CmpOk (λ x y, (f x ?= f y)%Q).
Proof.
  split; [intros x y; by rewrite Qcompare_antisym|].
  intros x y z. unfold cmp_le. rewrite <- !Qle_alt. apply Qle_trans.
Qed.

Section ranking.
Context (cands : list Cand) (Hcands : Forall cand_ok cands).

Definition score_at (i : nat) : Q := default 0%Q ((λ c, fval (hybrid_score c)) <$> cands !! i).

Lemma cmp_rank_eq a b :
  cmp_rank cands a b =
    cmp_then (Z.b2z (bool_decide (cands !! a = None)) ?= Z.b2z (bool_decide (cands !! b = None)))
      (cmp_then (Z.b2z (draining_at cands a) ?= Z.b2z (draining_at cands b))
         (cmp_then (score_at b ?= score_at a)%Q (Nat.compare a b))).
Proof using Hcands.
  unfold cmp_rank, draining_at, score_at.
  destruct (cands !! a) as [ca|] eqn:Ea, (cands !! b) as [cb|] eqn:Eb; simpl.
  - rewrite fcompare_nn; [done|..]; eapply hybrid_ok, Forall_lookup_1; eauto.
  - apply lookup_lt_Some in Ea. apply lookup_ge_None in Eb. apply Nat.compare_lt_iff. lia.
  - apply lookup_lt_Some in Eb. apply lookup_ge_None in Ea. apply Nat.compare_gt_iff. lia.
  - done.
Qed.

Lemma cmp_rank_ok : CmpOk (cmp_rank cands).
Proof using Hcands.
  eapply CmpOk_ext; [|apply cmp_rank_eq].
  apply (cmp_then_ok (λ a b, Z.b2z (bool_decide (cands !! a = None)) ?= Z.b2z (bool_decide (cands !! b = None)))
    (λ a b, cmp_then (Z.b2z (draining_at cands a) ?= Z.b2z (draining_at cands b))
         (cmp_then (score_at b ?= score_at a)%Q (Nat.compare a b)))).
  { apply (cmp_key_ok (λ a, Z.b2z (bool_decide (cands !! a = None)))). }
  apply (cmp_then_ok (λ a b, Z.b2z (draining_at cands a) ?= Z.b2z (draining_at cands b))
    (λ a b, cmp_then (score_at b ?= score_at a)%Q (Nat.compare a b))).
  { apply (cmp_key_ok (λ a, Z.b2z (draining_at cands a))). }
  apply (cmp_then_ok (λ a b, (score_at b ?= score_at a)%Q) Nat.compare); [|apply _].
  apply (flip_ok (λ a b, (score_at a ?= score_at b)%Q)), Qcompare_ok.
Qed.

(** Every worker is ranked once, none panics, and no draining worker comes
    before a worker that is not draining. *)
Lemma ranked_workers_spec :
  ∃ ranked, ranked_workers cands = Ok ranked ∧ ranked ≡ₚ seq 0 (head_idx cands) ∧
    ∀ done wi rest j, ranked = done ++ wi :: rest → draining_at cands wi = true →
      (j < head_idx cands)%nat → draining_at cands j = false → j ∈ done.
Proof using Hcands.
  unfold ranked_workers. fold (head_idx cands).
  assert (existsb score_nan (take (head_idx cands) cands) = false) as ->.
  { apply not_true_iff_false. intros (c & Hin & Hn)%existsb_exists. apply list_elem_of_In in Hin.
    rewrite list.Forall_forall in Hcands.
    assert (cand_ok c) as [[Hnn _] _]%hybrid_ok by (apply Hcands; by eapply elem_of_sublist, sublist_take).
    unfold score_nan in Hn. by rewrite nn_not_nan in Hn. }
  rewrite andb_false_r. eexists; split; [done|].
  pose proof (sort_by_Permutation (cmp_rank cands) (seq 0 (head_idx cands))) as Hp.
  split; [done|]. intros done_ wi rest j Hr Hwi Hj Hdj.
  pose proof cmp_rank_ok as Hok.
  pose proof (sort_by_Sorted (cmp_rank cands) (seq 0 (head_idx cands))) as Hs.
  assert (j ∈ sort_by (cmp_rank cands) (seq 0 (head_idx cands))) as Hin
    by (rewrite Hp; apply elem_of_seq; lia).
  rewrite Hr in Hs, Hin. apply elem_of_app in Hin as [Hin|Hin]; [done|exfalso].
  apply elem_of_cons in Hin as [->|Hin]; [congruence|].
  assert (cmp_le (cmp_rank cands) wi j) as Hle.
  { apply (StronglySorted_take_drop _ (S (length done_)) (done_ ++ wi :: rest)); [done|..].
    - rewrite cons_middle, app_assoc, take_app_le by (rewrite length_app; simpl; lia).
      rewrite take_ge by (rewrite length_app; simpl; lia). apply elem_of_app. right. by left.
    - rewrite cons_middle, app_assoc, drop_app_ge by (rewrite length_app; simpl; lia).
      rewrite length_app. simpl. replace (S (length done_) - (length done_ + 1))%nat with 0%nat by lia. done. }
  assert (head_idx cands ≤ length cands)%nat as Hh by (unfold head_idx; lia).
  assert (is_Some (cands !! wi) ∧ is_Some (cands !! j)) as [[cw Hcw] [cj Hcj]].
  { split; apply lookup_lt_is_Some; [|lia].
    assert (wi ∈ seq 0 (head_idx cands)) as Hw%elem_of_seq; [|lia].
    rewrite <- Hp, Hr. apply elem_of_app. right. by left. }
  unfold cmp_le, cmp_rank in Hle. unfold draining_at in Hwi, Hdj. rewrite Hcw in *. rewrite Hcj in *.
  rewrite Hwi, Hdj in Hle. by apply Hle.
Qed.
End ranking.

(** ** Selection *)
Section selection.
Context {R : Type} (n : Z) (ev : list Cand → res ScheduleError (option R)).
Context (counts_of : R → list Z) (order_of : R → list nat) (tpt_of : R → fl).
Context `{Hev : !PlacementEval n ev counts_of order_of}.
Context (cands : list Cand) (Hcands : Forall cand_ok cands).
Context (Hne : cands ≠ []) (Hsize : Z.of_nat (length cands) ≤ 2 ^ 19).
Context (ctx_len : Z) (cost : fl).

Definition eval_tpt (set : list Cand) : res ScheduleError (option fl) :=
  e ← ev set; Ok (option_map tpt_of e).

(** The workers that are not draining. *)
Definition steady_workers : list nat :=
  filter (λ i, draining_at cands i = false) (seq 0 (head_idx cands)).

(** After judging the workers [seen]: the selection is a part of them; if it
    cannot hold the model yet, every worker with capacity was taken; and a
    draining worker was taken only if the steady ones cannot hold it. *)
Definition sel_inv (seen : list nat) (st : sel_state) : Prop :=
  st.1 `sublist_of` seen ∧
  (n ≤ capacity cands st.1 ∨ ∀ i, i ∈ seen → cap_at cands i ≠ 0 → i ∈ st.1) ∧
  (∀ i, i ∈ st.1 → draining_at cands i = true → capacity cands steady_workers < n).

Definition seen_ok (seen : list nat) : Prop :=
  NoDup seen ∧ Forall (λ i, (i < head_idx cands)%nat) seen.

Lemma seen_ok_sublist s seen : s `sublist_of` seen → seen_ok seen → seen_ok s.
Proof.
  intros Hs [H1 H2]. split; [by eapply sublist_NoDup|].
  rewrite list.Forall_forall in *. intros i Hi. apply H2. by eapply elem_of_sublist.
Qed.

(** Judging a selection: its parts, and feasibility as capacity. *)
Lemma judge_selection s :
  seen_ok s →
  ∃ parts, participants cands s = Ok parts ∧
    (eval_tpt parts = Ok None ∧ capacity cands s < n ∨
     ∃ t, eval_tpt parts = Ok (Some t) ∧ n ≤ capacity cands s).
Proof using Hcands Hev Hne Hsize.
  intros [Hnd Hv].
  destruct (participants_spec cands Hcands Hne Hsize s) as (parts & -> & Hok & _ & Hcap).
  - eapply Forall_impl; [exact Hv|]. unfold head_idx. simpl. lia.
  - done.
  - rewrite list.Forall_forall in Hv. intros Hi. specialize (Hv _ Hi). lia.
  - exists parts. split; [done|]. unfold eval_tpt.
    destruct (pe_judges parts Hok) as [[-> Hlt]|(r & -> & Harr)]; simpl.
    + left. split; [done|]. by rewrite <- Hcap.
    + right. eexists. split; [done|]. rewrite <- Hcap. by eapply arrangement_fits.
Qed.

Lemma steady_covered seen wi s :
  s `sublist_of` seen → capacity cands s < n →
  (∀ i, i ∈ seen → cap_at cands i ≠ 0 → i ∈ s) →
  (∀ j, (j < head_idx cands)%nat → draining_at cands j = false → j ∈ seen) →
  draining_at cands wi = true → capacity cands steady_workers < n.
Proof using Hcands.
  intros _ Hlt Hall Hcov _. eapply Z.le_lt_trans; [|exact Hlt]. unfold capacity.
  assert (zsum (cap_at cands <$> steady_workers) =
    zsum (cap_at cands <$> filter (λ i, cap_at cands i ≠ 0) steady_workers)) as ->.
  { generalize steady_workers. intros l. induction l as [|i l IH]; [done|].
    rewrite fmap_cons, filter_cons. simpl zsum. case_decide; [rewrite fmap_cons; simpl; lia|lia]. }
  pose proof (capacity_mono cands Hcands (filter (λ i, cap_at cands i ≠ 0) steady_workers) s) as Hm.
  unfold capacity in Hm. apply Hm. apply NoDup_submseteq.
  - apply NoDup_filter, NoDup_filter, NoDup_seq.
  - intros i [Hi [Hd Hs]%list_elem_of_filter]%list_elem_of_filter. apply elem_of_seq in Hs.
    apply Hall; [|done]. apply Hcov; [lia|done].
Qed.

Lemma sel_inv_step seen wi st :
  sel_inv seen st → seen_ok (seen ++ [wi]) →
  (draining_at cands wi = true →
    ∀ j, (j < head_idx cands)%nat → draining_at cands j = false → j ∈ seen) →
  ∃ st', select_step cands n ctx_len cost eval_tpt st wi = Ok st' ∧ sel_inv (seen ++ [wi]) st'.
Proof using Hcands Hev Hne Hsize.
  intros (Hsub & Hcap & Hdr) Hok Hcov. pose proof Hok as [Hnd Hv].
  assert (wi < head_idx cands)%nat as Hwi by (apply Forall_app in Hv as [_ Hv]; by inversion Hv).
  destruct (lookup_lt_is_Some_2 cands wi) as [c Hc]; [unfold head_idx in *; lia|].
  assert (seen_ok st.1) as Hst.
  { eapply seen_ok_sublist; [|exact Hok]. etransitivity; [exact Hsub|]. by apply sublist_inserts_r. }
  assert (cap_at cands wi = cd_cap_layers c) as Hcw by (unfold cap_at; by rewrite Hc).
  assert (draining_at cands wi = nc_draining (cd_caps c)) as Hdw by (unfold draining_at; by rewrite Hc).
  (* keeping the selection *)
  assert (∀ st', st'.1 = st.1 → (n ≤ capacity cands st.1 ∨ cd_cap_layers c = 0) →
    sel_inv (seen ++ [wi]) st') as Hkeep.
  { intros st' Heq Hor. unfold sel_inv. rewrite Heq.
    split; [etransitivity; [exact Hsub|by apply sublist_inserts_r]|]. split; [|done].
    destruct Hcap as [|Hall]; [by left|]. destruct Hor as [|Hz]; [by left|right].
    intros i [Hi| ->%list_elem_of_singleton]%elem_of_app Hne0; [auto|congruence]. }
  (* taking the worker *)
  assert (∀ st', st'.1 = st.1 ++ [wi] → (draining_at cands wi = true → capacity cands st.1 < n) →
    sel_inv (seen ++ [wi]) st') as Htake.
  { intros st' Heq Hlow. unfold sel_inv. rewrite Heq. split; [by apply sublist_app|]. split.
    - destruct Hcap as [Hfit|Hall]; [left|right].
      + etransitivity; [exact Hfit|]. apply capacity_mono; [done|]. apply submseteq_inserts_r. done.
      + intros i Hi Hne0. apply elem_of_app. apply elem_of_app in Hi as [Hi|Hi]; auto.
    - intros i [Hi|Hi]%elem_of_app Hd; [by eapply Hdr|]. apply list_elem_of_singleton in Hi as ->.
      specialize (Hlow Hd). destruct Hcap as [|Hall]; [lia|].
      eapply steady_covered; eauto. }
  unfold select_step. rewrite Hc. simpl.
  destruct (Z.eqb_spec (cd_cap_layers c) 0) as [Hz|Hz].
  { eexists; split; [done|]. apply Hkeep; [done|by right]. }
  destruct (judge_selection st.1 Hst) as (parts & Hparts & Hj). rewrite Hparts. cbn [mbind res_bind].
  destruct Hj as [[He Hlt]|(t & He & Hge)]; rewrite He; cbn [mbind res_bind].
  - destruct (nc_draining (cd_caps c)); eexists; (split; [done|]); apply Htake; done.
  - destruct (nc_draining (cd_caps c)) eqn:Ed.
    { eexists; split; [done|]. apply Hkeep; [done|by left]. }
    assert (seen_ok (st.1 ++ [wi])) as Hst'.
    { eapply seen_ok_sublist; [|exact Hok]. by apply sublist_app. }
    destruct (judge_selection _ Hst') as (parts' & Hparts' & Hj'). rewrite Hparts'. cbn [mbind res_bind].
    destruct Hj' as [[He' _]|(w & He' & _)]; rewrite He'; cbn [mbind res_bind].
    + eexists; split; [done|]. apply Hkeep; [done|by left].
    + eexists; split; [done|]. unfold judge_gain.
      destruct (fle _ _); [apply Htake; [done|congruence]|].
      destruct (flt _ _); (apply Hkeep; [done|by left]).
Qed.

Lemma select_auto_spec :
  ∃ st, select_workers cands n ctx_len cost eval_tpt None = Ok st ∧
    seen_ok st.1 ∧
    (n ≤ capacity cands st.1 ∨ ∀ i, (i < head_idx cands)%nat → cap_at cands i ≠ 0 → i ∈ st.1) ∧
    (∀ i, i ∈ st.1 → draining_at cands i = true → capacity cands steady_workers < n).
Proof using Hcands Hev Hne Hsize.
  unfold select_workers.
  destruct (ranked_workers_spec cands Hcands) as (ranked & -> & Hp & Hdr). simpl.
  assert (seen_ok ranked) as Hok.
  { split; [rewrite Hp; apply NoDup_seq|]. rewrite Hp. apply list.Forall_forall.
    intros i Hi%elem_of_seq. lia. }
  enough (∀ seen rest st, ranked = seen ++ rest → sel_inv seen st →
    ∃ st', fold_res (select_step cands n ctx_len cost eval_tpt) st rest = Ok st' ∧ sel_inv ranked st') as H.
  { destruct (H [] ranked ([], [])) as (st & Hst & Hinv); [done| |].
    - split; [done|]. split; [right; intros i Hi; by apply not_elem_of_nil in Hi|].
      intros i Hi. by apply not_elem_of_nil in Hi.
    - exists st. split; [done|]. destruct Hinv as (H1 & H2 & H3).
      split; [by eapply seen_ok_sublist|]. split; [|done].
      destruct H2 as [|H2]; [by left|right]. intros i Hi. apply H2. rewrite Hp. apply elem_of_seq. lia. }
  intros seen rest. revert seen. induction rest as [|wi rest IH]; intros seen st Hr Hinv.
  { rewrite app_nil_r in Hr. subst. by exists st. }
  assert (seen_ok (seen ++ [wi])) as Hok'.
  { eapply seen_ok_sublist; [|exact Hok]. rewrite Hr. apply sublist_app; [done|].
    apply sublist_skip, sublist_nil_l. }
  destruct (sel_inv_step seen wi st Hinv Hok') as (st' & Hst & Hinv').
  { intros Hd j Hj Hdj. by eapply Hdr. }
  simpl. rewrite Hst. simpl. apply (IH (seen ++ [wi])); [|done]. by rewrite <- app_assoc.
Qed.
End selection.

(** Forced mode: the first [k - 1] of the ranking, so a draining worker joins
    only after every worker that is not draining. *)
Lemma select_forced_spec (cands : list Cand) n ctx_len cost ev k :
  Forall cand_ok cands →
  ∃ st, select_workers cands n ctx_len cost ev (Some k) = Ok st ∧
    seen_ok cands st.1 ∧ length st.1 = Nat.min (Z.to_nat (k - 1)) (head_idx cands) ∧
    ∀ i j, i ∈ st.1 → draining_at cands i = true →
      (j < head_idx cands)%nat → draining_at cands j = false → j ∈ st.1.
Proof.
  intros Hcands. unfold select_workers.
  destruct (ranked_workers_spec cands Hcands) as (ranked & -> & Hp & Hdr). simpl.
  eexists; split; [done|]. simpl. split.
  { apply (seen_ok_sublist cands _ ranked); [apply sublist_take|].
    split; [rewrite Hp; apply NoDup_seq|]. rewrite Hp. apply list.Forall_forall.
    intros i Hi%elem_of_seq. lia. }
  split; [rewrite length_take, (Permutation_length Hp), length_seq; lia|].
  intros i j Hi Hdi Hj Hdj. apply elem_of_take in Hi as (p & Hip & Hpk).
  assert (j ∈ take p ranked) as Hjt.
  { eapply (Hdr (take p ranked) i (drop (S p) ranked)); [|done|done|done].
    by rewrite <- (drop_S _ _ _ Hip), take_drop. }
  apply elem_of_take in Hjt as (q & Hq & Hqp). apply elem_of_take. exists q. split; [done|lia].
Qed.

(** ** Totals of an arrangement *)
Section totals.
Context (set : list Cand) (n : Z) (counts : list Z) (order : list nat).
Context (Harr : arrangement set n counts order).

Definition count_at (i : nat) : Z := default 0 (counts !! i).

Lemma counts_nonneg : Forall (λ c, 0 ≤ c) counts.
Proof using Harr.
  destruct Harr as [Hw _ _]. clear -Hw. induction Hw; constructor; [lia|done].
Qed.
Lemma count_at_nonneg i : 0 ≤ count_at i.
Proof using Harr.
  unfold count_at. destruct (counts !! i) as [c|] eqn:E; [|done]. simpl.
  pose proof counts_nonneg as H. eapply Forall_lookup_1 in H; [|exact E]. done.
Qed.

Lemma length_counts : length counts = length set.
Proof using Harr.
  destruct Harr as [Hw _ _]. apply Forall2_length in Hw. unfold caps_of in Hw. by rewrite length_fmap in Hw.
Qed.

Lemma order_total : zsum (count_at <$> order) = n.
Proof using Harr.
  pose proof count_at_nonneg as Hnn. pose proof length_counts as Hl.
  destruct Harr as [_ Hs [Hp _]]. rewrite Hp, <- Hs. unfold active. rewrite <- Hl.
  assert (∀ l, zsum (count_at <$> filter (λ i, 0 < count_at i) l) = zsum (count_at <$> l)) as Hf.
  { intros l. induction l as [|i l IH]; [done|]. rewrite filter_cons.
    case_decide; rewrite !fmap_cons; simpl zsum; [lia|]. specialize (Hnn i). lia. }
  etransitivity; [apply Hf|]. f_equal. apply list_eq. intros i. rewrite list_lookup_fmap.
  destruct (decide (i < length counts)%nat) as [Hi|Hi].
  - rewrite lookup_seq_lt by done. simpl. unfold count_at.
    destruct (lookup_lt_is_Some_2 _ _ Hi) as [c ->]. done.
  - rewrite lookup_seq_ge by lia. symmetry. apply lookup_ge_None_2. lia.
Qed.

Lemma order_elem i : i ∈ order → (i < length set)%nat ∧ 0 < count_at i.
Proof using Harr.
  destruct Harr as [_ _ [Hp _]]. rewrite Hp. intros [H1 H2]%list_elem_of_filter.
  apply elem_of_seq in H2. split; [lia|done].
Qed.
End totals.

(** ** Assembly *)
Section assembly.
Context (dims : ModelDims) (kv_layer : Z) (set : list Cand) (counts : list Z) (order : list nat).
Context (Hdims : dims_ok dims) (Harr : arrangement set (md_n_layers dims) counts order).

Local Notation count_at := (PlanCore.count_at counts).
Local Notation count_at_nonneg := (PlanCore.count_at_nonneg set (md_n_layers dims) counts order Harr).
Local Notation length_counts := (PlanCore.length_counts set (md_n_layers dims) counts order Harr).
Local Notation order_total := (PlanCore.order_total set (md_n_layers dims) counts order Harr).
Local Notation order_elem := (PlanCore.order_elem set (md_n_layers dims) counts order Harr).

(** An assignment realises one stage. *)
Definition realises (a : Assignment) (i : nat) : Prop :=
  ∃ c, set !! i = Some c ∧ a_node a = nc_node (cd_caps c) ∧
    lr_end (a_layers a) - lr_start (a_layers a) = count_at i ∧
    0 < count_at i ≤ cd_cap_layers c.

Definition assembled (done : list nat) (st : Asm) : Prop :=
  asm_inv (as_assignments st) (as_split st) (as_cursor st) ∧
  as_cursor st = zsum (count_at <$> done) ∧ Forall2 realises (as_assignments st) done.

Lemma asm_step_ok done i rest st :
  order = done ++ i :: rest → assembled done st →
  ∃ st', asm_step dims kv_layer set counts st (length done, i) = Ok st' ∧ assembled (done ++ [i]) st'.
Proof using Hdims Harr.
  intros Ho (Hinv & Hcur & Hreal).
  destruct (order_elem i) as [Hi Hci]; [rewrite Ho; apply elem_of_app; right; by left|].
  destruct (lookup_lt_is_Some_2 set i Hi) as [c Hc].
  destruct (lookup_lt_is_Some_2 counts i) as [k Hk]; [by rewrite length_counts|].
  assert (count_at i = k) as Hck by (unfold count_at; by rewrite Hk).
  pose proof order_total as Htot. rewrite Ho, fmap_app, fmap_cons, zsum_app in Htot. simpl in Htot.
  assert (0 ≤ zsum (count_at <$> rest)) as Hrest.
  { apply zsum_nonneg, Forall_fmap, Forall_true. intros j. apply count_at_nonneg. }
  assert (0 ≤ zsum (count_at <$> done)) as Hdone.
  { apply zsum_nonneg, Forall_fmap, Forall_true. intros j. apply count_at_nonneg. }
  pose proof (dims_layers dims Hdims) as Hn. pose proof (dims_weights_len dims Hdims) as Hwl.
  unfold asm_step. rewrite Hc, Hk. simpl.
  assert (u32_add (as_cursor st) k = as_cursor st + k) as ->
    by (apply wrap32_small; unfold in_u32; lia).
  unfold slice. rewrite (proj2 (Z.leb_le _ _)), (proj2 (Z.leb_le (as_cursor st + k) _)) by lia.
  eexists; split; [reflexivity|].
  pose proof (Forall2_length _ _ _ Hreal) as Hlen. destruct Hinv as (I1 & I2 & I3 & I4).
  assert (wrap32 (Z.of_nat (length done)) = Z.of_nat (length (as_assignments st))) as Hst.
  { rewrite wrap32_small by (unfold in_u32; lia). by rewrite Hlen. }
  unfold assembled; simpl. rewrite Hst. split; [|split].
  - apply asm_inv_snoc; [done|lia].
  - rewrite fmap_app, zsum_app. simpl. lia.
  - apply Forall2_app; [done|]. constructor; [|constructor]. exists c. split; [done|]. split; [done|].
    simpl. split; [lia|]. split; [lia|]. rewrite Hck.
    destruct Harr as [Hw _ _]. destruct (Forall2_lookup_l _ _ _ _ _ Hw Hk) as (cap & Hcap & Hle).
    unfold caps_of in Hcap. rewrite list_lookup_fmap, Hc in Hcap. simpl in Hcap.
    injection Hcap as <-. lia.
Qed.

Lemma assemble_spec :
  ∃ st, assemble dims kv_layer set counts order = Ok st ∧
    asm_inv (as_assignments st) (as_split st) (md_n_layers dims) ∧
    Forall2 realises (as_assignments st) order.
Proof using Hdims Harr.
  unfold assemble, enumerate.
  enough (∀ done rest st, order = done ++ rest → assembled done st →
    ∃ st', fold_res (asm_step dims kv_layer set counts) st
      (zip (seq (length done) (length rest)) rest) = Ok st' ∧ assembled order st') as H.
  { destruct (H [] order (MkAsm [] [] [] None 0)) as (st & Hst & Hi & Hc & Hr); [done| |].
    - split; [apply asm_inv_nil|]. split; [done|constructor].
    - exists st. split; [done|]. rewrite order_total in Hc. rewrite <- Hc. done. }
  intros done rest. revert done. induction rest as [|i rest IH]; intros done st Ho Ha.
  { rewrite app_nil_r in Ho. subst. by exists st. }
  destruct (asm_step_ok done i rest st Ho Ha) as (st' & Hst & Ha').
  cbn [length seq zip zip_with fold_res]. rewrite Hst. cbn [mbind res_bind].
  destruct (IH (done ++ [i]) st') as (st'' & Hst' & Ha''); [by rewrite <- app_assoc|done|].
  exists st''. split; [|done]. rewrite length_app, Nat.add_1_r in Hst'. exact Hst'.
Qed.
End assembly.

(** ** From a selection to a plan *)
Lemma lookup_omap_lookup {A} (l : list A) idx i :
  Forall (λ j, (j < length l)%nat) idx →
  omap (λ j, l !! j) idx !! i = idx !! i ≫= λ j, l !! j.
Proof.
  intros H. revert i. induction H as [|j idx Hj _ IH]; intros i; [done|]. simpl.
  destruct (lookup_lt_is_Some_2 _ _ Hj) as [x Hx]. rewrite Hx.
  destruct i as [|i]; simpl; [done|]. apply IH.
Qed.

Section from_selection.
Context {R : Type} (n : Z) (ev : list Cand → res ScheduleError (option R)).
Context (counts_of : R → list Z) (order_of : R → list nat).
Context `{Hev : !PlacementEval n ev counts_of order_of}.
Context (dims : ModelDims) (Hdims : dims_ok dims) (Hn : md_n_layers dims = n).
Context (all_caps : list NodeCaps) (cost : fl) (budget_of : Z → Z).
Let cands := build_cands all_caps cost budget_of.
Context (Hcands : Forall cand_ok cands) (Hne : all_caps ≠ []).
Context (Hsize : Z.of_nat (length all_caps) ≤ 2 ^ 19).

(** The k-th assignment belongs to a selected worker or the head, within its
    capacity, and the head's is the last. *)
Definition stage_fact (selected : list nat) (stages k : nat) (a : Assignment) : Prop :=
  ∃ i c, cands !! i = Some c ∧ a_node a = nc_node (cd_caps c) ∧
    (i ∈ selected ∨ i = head_idx cands) ∧
    0 < lr_end (a_layers a) - lr_start (a_layers a) ≤ cd_cap_layers c ∧
    (i = head_idx cands → S k = stages).

Lemma cands_ne : cands ≠ [].
Proof using Hne.
  intros H. apply (f_equal length) in H. unfold cands in H. rewrite length_build_cands in H.
  by apply Hne, nil_length_inv.
Qed.
Lemma cands_size : Z.of_nat (length cands) ≤ 2 ^ 19.
Proof using Hsize. unfold cands. by rewrite length_build_cands. Qed.

Lemma is_head_iff i c : cands !! i = Some c → cd_is_head c = true ↔ i = head_idx cands.
Proof using.
  intros H. destruct (build_cands_lookup _ _ _ _ _ H) as (_ & _ & -> & _).
  unfold head_idx, cands. rewrite length_build_cands. apply Nat.eqb_eq.
Qed.

Lemma stage_facts selected parts counts order (asm : Asm) k a :
  seen_ok cands selected →
  parts = omap (λ i, cands !! i) (sort_by Nat.compare selected ++ [head_idx cands]) →
  arrangement parts n counts order →
  Forall2 (realises parts counts) (as_assignments asm) order →
  as_assignments asm !! k = Some a →
  stage_fact selected (length (as_assignments asm)) k a.
Proof using Hne.
  intros [Hnd Hv] Hparts [_ _ [Hperm Hlast]] Hr Hk.
  set (idx := sort_by Nat.compare selected ++ [head_idx cands]) in *.
  pose proof (sort_by_Permutation Nat.compare selected) as Hps.
  assert (head_idx cands < length cands)%nat as Hhl.
  { pose proof cands_ne as Hc0. unfold head_idx.
    enough (length cands ≠ 0)%nat by lia. by intros H%nil_length_inv. }
  assert (Forall (λ j, (j < length cands)%nat) idx) as Hidx.
  { apply Forall_app. split; [|by constructor]. rewrite Hps. eapply Forall_impl; [exact Hv|].
    simpl. lia. }
  assert (NoDup idx) as Hndi.
  { unfold idx. rewrite Hps. apply NoDup_app. split; [done|]. split; [|apply NoDup_singleton].
    intros i Hi ->%list_elem_of_singleton. rewrite list.Forall_forall in Hv.
    specialize (Hv _ Hi). lia. }
  assert (∀ p c, parts !! p = Some c → ∃ j, idx !! p = Some j ∧ cands !! j = Some c) as Hlook.
  { intros p c Hp. rewrite Hparts, lookup_omap_lookup in Hp by done.
    apply bind_Some in Hp as (j & H1 & H2). by exists j. }
  destruct (Forall2_lookup_l _ _ _ _ _ Hr Hk) as (p & Hpo & c & Hpc & Hnode & Hlen & Hcap).
  destruct (Hlook p c Hpc) as (j & Hj & Hc). exists j, c. split; [done|]. split; [done|].
  split.
  { apply list_elem_of_lookup_2 in Hj. unfold idx in Hj. rewrite Hps in Hj.
    apply elem_of_app in Hj as [Hj|Hj]; [by left|right]. by apply list_elem_of_singleton in Hj. }
  split; [lia|]. intros ->.
  assert (∃ t, the_tail parts counts = Some t) as [t Ht].
  { unfold the_tail, tail_of, find_first.
    destruct (list_find (λ i, is_head_at parts i = true) (active parts counts)) as [[q t]|] eqn:E; [by exists t|].
    exfalso. rewrite list_find_None, list.Forall_forall in E.
    assert (p ∈ active parts counts) as Hpa by (rewrite <- Hperm; by eapply list_elem_of_lookup_2).
    apply (E p Hpa). unfold is_head_at. rewrite Hpc. by apply (is_head_iff _ _ Hc). }
  pose proof (Hlast t Ht) as Hl. apply find_first_Some in Ht as [_ Hth].
  unfold is_head_at in Hth. destruct (parts !! t) as [ct|] eqn:Ect; [|done].
  destruct (Hlook t ct Ect) as (j' & Hj' & Hcj'). apply (is_head_iff _ _ Hcj') in Hth as ->.
  assert (t = p) as -> by (by eapply NoDup_lookup).
  rewrite last_lookup in Hl. pose proof (Forall2_length _ _ _ Hr) as Hlr. rewrite Hlr.
  assert (NoDup order) as Hndo by (rewrite Hperm; apply active_NoDup).
  assert (pred (length order) = k) as <- by (by eapply NoDup_lookup).
  apply lookup_lt_Some in Hl. lia.
Qed.

(** Evaluating and assembling a selection. *)
Lemma selection_outcome kv_layer selected :
  seen_ok cands selected →
  ∃ parts, participants cands selected = Ok parts ∧
  (ev parts = Ok None ∧ capacity cands selected < n ∨
   ∃ r asm, ev parts = Ok (Some r) ∧ n ≤ capacity cands selected ∧
     assemble dims kv_layer parts (counts_of r) (order_of r) = Ok asm ∧
     asm_inv (as_assignments asm) (as_split asm) n ∧
     ∀ k a, as_assignments asm !! k = Some a →
       stage_fact selected (length (as_assignments asm)) k a).
Proof using Hev Hdims Hn Hcands Hne Hsize.
  intros Hsel. pose proof Hsel as [Hnd Hv].
  destruct (participants_spec cands Hcands cands_ne cands_size selected) as (parts & -> & Hok & Hparts & Hcap).
  - eapply Forall_impl; [exact Hv|]. unfold head_idx. simpl. lia.
  - done.
  - rewrite list.Forall_forall in Hv. intros Hi. specialize (Hv _ Hi). lia.
  - exists parts. split; [done|].
    destruct (pe_judges parts Hok) as [[-> Hlt]|(r & -> & Harr)].
    { left. by rewrite <- Hcap. }
    right. pose proof (arrangement_fits _ _ _ _ Harr) as Hfit. rewrite Hcap in Hfit.
    pose proof Harr as Harr'. rewrite <- Hn in Harr'.
    destruct (assemble_spec dims kv_layer parts _ _ Hdims Harr') as (asm & Hasm & Hinv & Hr).
    exists r, asm. split; [done|]. split; [done|]. split; [done|]. split; [by rewrite <- Hn|].
    intros k a Hk. by eapply stage_facts.
Qed.
End from_selection.
