(* ===== verification/PlanV1.v ===== *)
(** * The v1 planner

    The correctness of [plan_v1]: its evaluator satisfies the interface of
    [PlanCore], so every placement is complete, contiguous, within capacity and
    ends with the head; automatic mode succeeds exactly when the cluster's
    capacities hold the model; draining nodes join only when needed; and the
    capacity computed in floating point is the exact integer quotient. *)

From Stdlib Require Import ZArith Lia QArith Qabs Qround Lqa Sorted Permutation.
From stdpp Require Import base list strings.
From S2P Require Import Prelude Float FloatFacts Proto SchedLib Dims SchedV1 Apportion StageOrder PlanCore.

Open Scope Z_scope.

(** ** The evaluator *)
#[global] Instance evaluate_judges n links :
  1 ≤ n < 2 ^ 32 → links_ok links →
  PlacementEval n (λ set, evaluate set n links) ev_counts ev_order.
Proof.
  intros Hn Hlinks set [Hset Hsize].
  assert (∀ c, c ∈ set → score_ok (hybrid_score c) ∧
    ((fval (hybrid_score c) == 0)%Q → cd_cap_layers c = 0)) as Hsc.
  { intros c Hc. rewrite list.Forall_forall in Hset. by apply hybrid_ok, Hset. }
  unfold evaluate, apportion_v1. fold (caps_of set).
  destruct (apportion_spec (hybrid_score <$> set) (caps_of set) n)
    as [[-> Hno]|(counts & quotas & -> & Hw & Hs & _)].
  - apply Forall_fmap, list.Forall_forall. intros c Hc. by apply Hsc.
  - by apply caps_of_u32.
  - unfold caps_of. by rewrite !length_fmap.
  - rewrite length_fmap. lia.
  - lia.
  - left. split; [done|]. destruct Hno as [Hz|Hlt]; [|done].
    rewrite (no_score_no_cap hybrid_score set); [lia|..|done]; intros c Hc; apply Hsc; done.
  - right. cbn [mbind res_bind option_map fst].
    assert (length counts = length set) as Hlc.
    { apply Forall2_length in Hw. unfold caps_of in Hw. by rewrite length_fmap in Hw. }
    destruct (order_stages_spec set counts links Hlinks Hlc ltac:(lia))
      as (order & rtts & -> & Hpin & _). cbn [mbind res_bind].
    destruct (map_res_ok (stage_ms set counts) (λ _, True) order) as (ms & -> & _).
    { apply list.Forall_forall. intros i Hi. destruct Hpin as [Hp _]. rewrite Hp in Hi.
      pose proof (active_valid set counts Hlc) as Hv. unfold valid_chain in Hv.
      rewrite list.Forall_forall in Hv. specialize (Hv i Hi).
      destruct (lookup_lt_is_Some_2 set i Hv) as [c Hc].
      destruct (lookup_lt_is_Some_2 counts i ltac:(lia)) as [k Hk].
      unfold stage_ms. rewrite Hc, Hk. by eexists. }
    eexists; split; [reflexivity|]. done.
Qed.

(** ** Requests *)
Record request_ok (r : PlanRequest) : Prop := {
  rq_caps : Forall caps_ok (pr_workers r ++ [pr_head r]);
  rq_workers : Z.of_nat (length (pr_workers r)) < 2 ^ 19;
  rq_dims : dims_ok (pr_dims r);
  rq_links : links_ok (pr_links r);
  rq_forced : ∀ k, pr_forced_nodes r = Some k → in_u32 k }.

Lemma node_budget_range m : in_u64 m → 0 ≤ node_budget m < 2 ^ 64.
Proof. unfold in_u64, node_budget, sat_sub, OVERHEAD_RESERVE_BYTES. lia. Qed.

Definition cands_v1 (r : PlanRequest) : list Cand :=
  build_cands (pr_workers r ++ [pr_head r]) (per_layer_cost (pr_dims r) (pr_ctx_len r)) node_budget.

Section plan_v1.
Context (r : PlanRequest) (Hr : request_ok r).
Let n := md_n_layers (pr_dims r).
Let cands := cands_v1 r.

Lemma cands_v1_ok : Forall cand_ok cands.
Proof using Hr.
  destruct Hr. apply build_cands_ok; [done|apply per_layer_cost_bounds|apply node_budget_range].
Qed.
Lemma all_caps_ne : pr_workers r ++ [pr_head r] ≠ [].
Proof using. intros H. by apply app_nil in H as [_ ?]. Qed.
Lemma all_caps_size : Z.of_nat (length (pr_workers r ++ [pr_head r])) ≤ 2 ^ 19.
Proof using Hr. destruct Hr. rewrite length_app. simpl. lia. Qed.
Lemma n_range : 1 ≤ n < 2 ^ 32.
Proof using Hr. destruct Hr as [_ _ Hd _ _]. pose proof (dims_layers _ Hd). unfold n. lia. Qed.
Lemma length_cands : length cands = S (length (pr_workers r)).
Proof using. unfold cands, cands_v1. rewrite length_build_cands, length_app. simpl. lia. Qed.

Definition sel_v1 (forced : option Z) : res ScheduleError sel_state :=
  select_workers cands n (pr_ctx_len r) (per_layer_cost (pr_dims r) (pr_ctx_len r))
    (λ set, e ← evaluate set n (pr_links r); Ok (option_map ev_tpt e)) forced.

(** A distributed placement succeeds exactly when the selected nodes can
    hold the model, and then it is complete. *)
Lemma distributed_v1_spec forced hb req kv sf :
  ∃ st, sel_v1 forced = Ok st ∧ seen_ok cands st.1 ∧
  (capacity cands st.1 < n ∧ distributed_v1 r forced hb req kv sf =
     Err (DoesNotFit (mb_ceil req) (mb_floor (u64_sum (cd_budget <$> cands)))) ∨
   n ≤ capacity cands st.1 ∧ ∃ pl, distributed_v1 r forced hb req kv sf = Ok pl ∧
     p_strategy (pp_plan pl) = PipelineParallel ∧
     placement_ok n (pp_plan pl) ∧
     length (pp_tensor_split pl) = length (p_assignments (pp_plan pl)) ∧
     ∀ k a, p_assignments (pp_plan pl) !! k = Some a →
       stage_fact (pr_workers r ++ [pr_head r]) (per_layer_cost (pr_dims r) (pr_ctx_len r))
         node_budget st.1 (length (p_assignments (pp_plan pl))) k a).
Proof using Hr.
  pose proof cands_v1_ok as Hc. pose proof all_caps_ne as Hne. pose proof all_caps_size as Hs.
  pose proof n_range as Hn. pose proof Hr as [_ _ Hd Hl _].
  pose proof (evaluate_judges n (pr_links r) Hn Hl) as Hev.
  assert (cands ≠ []) as Hcne.
  { intros H. apply (f_equal length) in H. by rewrite length_cands in H. }
  assert (Z.of_nat (length cands) ≤ 2 ^ 19) as Hcs.
  { rewrite length_cands. rewrite length_app in Hs. simpl in Hs. lia. }
  assert (∃ st, sel_v1 forced = Ok st ∧ seen_ok cands st.1) as (st & Hst & Hseen).
  { destruct forced as [k|].
    - destruct (select_forced_spec cands n (pr_ctx_len r) (per_layer_cost (pr_dims r) (pr_ctx_len r))
        (λ set, e ← evaluate set n (pr_links r); Ok (option_map ev_tpt e)) k Hc) as (st & H1 & H2 & _).
      by exists st.
    - destruct (select_auto_spec n (λ set, evaluate set n (pr_links r)) ev_counts ev_order ev_tpt
        cands Hc Hcne Hcs (pr_ctx_len r) (per_layer_cost (pr_dims r) (pr_ctx_len r))) as (st & H1 & H2 & _).
      by exists st. }
  exists st. split; [done|]. split; [done|].
  destruct (selection_outcome n (λ set, evaluate set n (pr_links r)) ev_counts ev_order (pr_dims r) Hd
    eq_refl _ _ _ Hc Hne Hs kv st.1 Hseen) as (parts & Hparts & Hout).
  unfold distributed_v1. fold (cands_v1 r). fold cands. fold n. fold (sel_v1 forced). rewrite Hst.
  cbn [mbind res_bind]. destruct st as [selected notes]. cbn [fst] in *.
  change (participants cands selected = Ok parts) in Hparts. rewrite Hparts. cbn [mbind res_bind].
  destruct Hout as [[-> Hlt]|(e & asm & -> & Hge & Hasm & Hinv & Hfact)]; cbn [mbind res_bind].
  - left. done.
  - right. split; [done|]. rewrite Hasm. cbn [mbind res_bind]. eexists; split; [reflexivity|]. simpl.
    destruct Hinv as (H1 & H2 & H3 & _). split; [done|]. split; [by split|]. split; [done|done].
Qed.
End plan_v1.

(** ** Capacity is exact *)

(** The bytes one layer is charged. *)
Definition layer_bytes (d : ModelDims) (ctx : Z) : Z :=
  Z.max 1 (u64_add (mean_weight_bytes_per_layer d) (kv_bytes_per_layer d ctx)).

Lemma per_layer_cost_exact d ctx :
  layer_bytes d ctx < 2 ^ 53 → (fval (per_layer_cost d ctx) == inject_Z (layer_bytes d ctx))%Q.
Proof.
  unfold per_layer_cost, layer_bytes. set (c := u64_add _ _). intros Hc.
  assert (0 ≤ c < 2 ^ 64) as H64 by apply wrap64_range.
  destruct (of_Z_exact c ltac:(lia)) as [H1 H2]. destruct fone_nn as [H3 H4].
  destruct (fmax_nn _ _ H1 H3) as [[-> Hle]|[-> Hle]]; rewrite ?H2, ?H4 in *.
  - change 1%Q with (inject_Z 1) in Hle. rewrite <- Zle_Qle in Hle. by rewrite Z.max_r.
  - change 1%Q with (inject_Z 1) in Hle |- *. rewrite <- Zle_Qle in Hle. by rewrite Z.max_l.
Qed.

(** A rounded quotient stays below the next integer. *)
Lemma rounded_quotient_lt b c q :
  0 ≤ b < 2 ^ 53 → 0 < c < 2 ^ 53 → rnd (inject_Z b / inject_Z c) q →
  (q < inject_Z (Z.succ (b / c)))%Q.
Proof.
  intros Hb Hc Hr. pose proof (inject_pos c ltac:(lia)) as Qc.
  pose proof (Z.div_mod b c ltac:(lia)) as Hdm. pose proof (Z.mod_pos_bound b c ltac:(lia)) as Hm.
  assert (0 ≤ b / c) as Hk by (apply Z.div_pos; lia).
  destruct (Z.eq_dec b 0) as [->|Hb0].
  { assert (q == 0)%Q as -> by (apply (rnd_zero _ _ Hr); change (inject_Z 0) with 0%Q; field; lra).
    apply (inject_lt 0). lia. }
  assert (p2 (-53) <= inject_Z b / inject_Z c)%Q as Hlow.
  { apply Qdiv_ge_l; [done|]. pose proof (inject_le c (2 ^ 53) ltac:(lia)) as Hc53.
    rewrite <- p2_Z in Hc53 by lia. pose proof (p2_opp 53) as Ho. change (- (53)) with (-53) in Ho.
    pose proof (inject_le 1 b ltac:(lia)) as Hb1. change (inject_Z 1) with 1%Q in Hb1.
    pose proof (p2_pos (-53)).
    assert (p2 (-53) * inject_Z c <= p2 (-53) * p2 53)%Q
      by (rewrite !(Qmult_comm (p2 (-53))); apply Qmult_le_compat_r; lra). lra. }
  pose proof (rnd_rel_le _ _ Hr ltac:(eapply Qle_trans; [|exact Hlow]; by apply p2_le)) as Hrel.
  eapply Qle_lt_trans; [exact Hrel|].
  assert (inject_Z b * uro < 1)%Q as Hbu.
  { change uro with (1 # 9007199254740992)%Q. pose proof (inject_lt b (2 ^ 53) ltac:(lia)) as H.
    change (inject_Z (2 ^ 53)) with (9007199254740992 # 1)%Q in H. lra. }
  apply (Qmult_lt_r _ _ (inject_Z c)); [done|].
  assert (inject_Z b / inject_Z c * (1 + uro) * inject_Z c == inject_Z b + inject_Z b * uro)%Q as ->
    by (field; lra).
  apply Qlt_le_trans with (inject_Z (b + 1)); [rewrite inject_Z_plus; change (inject_Z 1) with 1%Q; lra|].
  rewrite <- inject_Z_mult. apply inject_le. unfold Z.succ. nia.
Qed.

(** Below 2^53 the floored floating-point quotient is the integer quotient. *)
Lemma floor_div_exact b c x :
  0 ≤ b < 2 ^ 53 → 0 < c < 2 ^ 53 → nn x → (fval x == inject_Z c)%Q →
  to_u64 (ffloor (fdiv b64 (of_Z b64 b) x)) = b / c.
Proof.
  intros Hb Hc Hx Hxv. destruct (of_Z_exact b Hb) as [H1 H2].
  pose proof (inject_pos c ltac:(lia)) as Qc. pose proof (inject_le 0 b ltac:(lia)) as Qb.
  change (inject_Z 0) with 0%Q in Qb. pose proof (inject_le 1 c ltac:(lia)) as Qc1.
  change (inject_Z 1) with 1%Q in Qc1.
  assert (fval (of_Z b64 b) / fval x <= inject_Z b)%Q as Hle.
  { apply Qdiv_le_l; [by rewrite Hxv|]. rewrite H2, Hxv.
    assert (inject_Z b * 1 <= inject_Z b * inject_Z c)%Q
      by (rewrite !(Qmult_comm (inject_Z b)); by apply Qmult_le_compat_r). lra. }
  assert (inject_Z b <= p2 53)%Q as Hb53 by (rewrite p2_Z by lia; apply inject_le; lia).
  destruct (fdiv_nn _ _ H1 Hx ltac:(by rewrite Hxv)) as [Hq Hr].
  { eapply Qle_trans; [exact Hle|]. eapply Qle_trans; [exact Hb53|]. by apply p2_le. }
  set (q := fdiv b64 _ _) in *. rewrite H2, Hxv in Hr, Hle.
  assert (fval q <= inject_Z b)%Q as Hqb by (apply (rnd_le _ _ Hr); [by apply repr_Z|done]).
  rewrite to_u64_floor; [|done|].
  2: { eapply Qle_lt_trans; [exact Hqb|]. eapply Qle_lt_trans; [exact Hb53|]. by apply p2_lt. }
  pose proof (Z.div_mod b c ltac:(lia)) as Hdm. pose proof (Z.mod_pos_bound b c ltac:(lia)) as Hm.
  assert (0 ≤ b / c ≤ b) as Hk by (split; [apply Z.div_pos; lia|apply Z.div_le_upper_bound; nia]).
  apply Z.le_antisymm.
  - apply Z.lt_succ_r. rewrite Zlt_Qlt. eapply Qle_lt_trans; [apply Qfloor_le|].
    by apply rounded_quotient_lt.
  - rewrite <- (Qfloor_Z (b / c)). apply Qfloor_resp_le. apply (rnd_ge _ _ Hr); [apply repr_Z; lia|].
    apply Qdiv_ge_l; [done|]. rewrite <- inject_Z_mult. apply inject_le. nia.
Qed.

(** The layer capacity computed in floating point is the exact integer
    quotient of the budget by the bytes a layer is charged, whenever both are
    below 2^53; no node is ever credited a layer its budget does not hold. *)
Theorem node_layer_capacity_exact usable d ctx :
  0 ≤ usable < 2 ^ 53 → layer_bytes d ctx < 2 ^ 53 →
  node_layer_capacity usable d ctx = node_budget usable / layer_bytes d ctx.
Proof.
  intros Hu Hc. unfold node_layer_capacity. apply floor_div_exact.
  - unfold node_budget, sat_sub, OVERHEAD_RESERVE_BYTES. lia.
  - unfold layer_bytes in *. lia.
  - apply per_layer_cost_bounds.
  - by apply per_layer_cost_exact.
Qed.

(** The layers a node of a request can be given. *)
Definition v1_capacity (r : PlanRequest) (caps : NodeCaps) : Z :=
  Z.min (node_layer_capacity (nc_usable_memory_bytes caps) (pr_dims r) (pr_ctx_len r)) u32_max.

Lemma cands_v1_lookup r i c :
  Forall caps_ok (pr_workers r ++ [pr_head r]) → cands_v1 r !! i = Some c →
  (pr_workers r ++ [pr_head r]) !! i = Some (cd_caps c) ∧ cd_cap_layers c = v1_capacity r (cd_caps c).
Proof.
  intros Hcaps H. pose proof H as H'. apply build_cands_lookup in H as (H1 & H2 & _ & H3 & H4).
  split; [done|]. unfold v1_capacity, node_layer_capacity. rewrite H4, H3, H2.
  rewrite fmax_ffloor; [done|]. eapply (cap_f_bounds (node_budget _)).
  - apply node_budget_range. by eapply Forall_lookup_1 in Hcaps as [? _].
  - apply per_layer_cost_bounds.
  - apply per_layer_cost_bounds.
  - apply per_layer_cost_bounds.
Qed.

Lemma cap_at_v1 r i caps :
  Forall caps_ok (pr_workers r ++ [pr_head r]) → (pr_workers r ++ [pr_head r]) !! i = Some caps →
  cap_at (cands_v1 r) i = v1_capacity r caps ∧ draining_at (cands_v1 r) i = nc_draining caps.
Proof.
  intros Hcaps Hi. unfold cap_at, draining_at.
  destruct (lookup_lt_is_Some_2 (cands_v1 r) i) as [c Hc].
  { unfold cands_v1. rewrite length_build_cands. by eapply lookup_lt_Some. }
  rewrite Hc. simpl. destruct (cands_v1_lookup r i c Hcaps Hc) as [H1 ->].
  assert (cd_caps c = caps) as -> by congruence. done.
Qed.

Lemma head_idx_v1 r : head_idx (cands_v1 r) = length (pr_workers r).
Proof. unfold head_idx. rewrite length_cands. lia. Qed.

(** Summing a function of the workers over their indices. *)
Lemma seq_workers_filter {B} (ws : list B) (f : nat → Z) (g : B → Z) (P : nat → Prop) (Q : B → Prop)
    `{!∀ i, Decision (P i)} `{!∀ b, Decision (Q b)} :
  (∀ i b, ws !! i = Some b → f i = g b ∧ (P i ↔ Q b)) →
  zsum (f <$> filter P (seq 0 (length ws))) = zsum (g <$> filter Q ws).
Proof.
  induction ws as [|b ws IH] using rev_ind; intros Hfg; [done|].
  rewrite length_app, seq_app, !filter_app, !fmap_app, !zsum_app. rewrite Nat.add_0_l. simpl seq.
  f_equal.
  - apply IH. intros i c Hi. apply Hfg. by apply lookup_app_l_Some.
  - destruct (Hfg (length ws) b) as [H1 H2]; [by apply list_lookup_middle|].
    rewrite !filter_cons, !filter_nil. destruct (decide (P (length ws))), (decide (Q b)); simpl; try tauto; lia.
Qed.

(** The layers the whole cluster, and the workers that are not draining, can
    hold. *)
Definition cluster_capacity (r : PlanRequest) : Z :=
  zsum (v1_capacity r <$> pr_workers r) + v1_capacity r (pr_head r).
Definition steady_capacity (r : PlanRequest) : Z :=
  zsum (v1_capacity r <$> filter (λ w, nc_draining w = false) (pr_workers r)) + v1_capacity r (pr_head r).

Section capacities.
Context (r : PlanRequest) (Hr : request_ok r).

Lemma worker_at i w :
  pr_workers r !! i = Some w →
  cap_at (cands_v1 r) i = v1_capacity r w ∧ draining_at (cands_v1 r) i = nc_draining w.
Proof using Hr. intros Hi. apply cap_at_v1; [apply Hr|]. by apply lookup_app_l_Some. Qed.

Lemma head_at : cap_at (cands_v1 r) (head_idx (cands_v1 r)) = v1_capacity r (pr_head r).
Proof using Hr.
  rewrite head_idx_v1. apply cap_at_v1; [apply Hr|]. by apply list_lookup_middle.
Qed.

Lemma steady_capacity_eq : capacity (cands_v1 r) (steady_workers (cands_v1 r)) = steady_capacity r.
Proof using Hr.
  unfold capacity, steady_capacity, steady_workers. rewrite head_at, head_idx_v1. f_equal.
  apply seq_workers_filter. intros i w Hi. destruct (worker_at i w Hi) as [-> ->]. done.
Qed.

Lemma all_capacity_eq : capacity (cands_v1 r) (seq 0 (head_idx (cands_v1 r))) = cluster_capacity r.
Proof using Hr.
  unfold capacity, cluster_capacity. rewrite head_at, head_idx_v1. f_equal.
  pose proof (seq_workers_filter (pr_workers r) (cap_at (cands_v1 r)) (v1_capacity r)
    (λ _, True) (λ _, True)) as Heq.
  rewrite !filter_id in Heq by done. apply Heq. intros i w Hi.
  destruct (worker_at i w Hi) as [-> _]. done.
Qed.

(** A selection that took every worker with capacity holds what the cluster
    holds. *)
Lemma capacity_all s :
  seen_ok (cands_v1 r) s →
  (∀ i, (i < head_idx (cands_v1 r))%nat → cap_at (cands_v1 r) i ≠ 0 → i ∈ s) →
  cluster_capacity r ≤ capacity (cands_v1 r) s.
Proof using Hr.
  intros [Hnd Hv] Hall. rewrite <- all_capacity_eq. unfold capacity.
  set (l := seq 0 (head_idx (cands_v1 r))).
  assert (zsum (cap_at (cands_v1 r) <$> l) =
    zsum (cap_at (cands_v1 r) <$> filter (λ i, cap_at (cands_v1 r) i ≠ 0) l)) as ->.
  { clearbody l. induction l as [|i l IH]; [done|].
    rewrite fmap_cons, filter_cons. simpl zsum. case_decide; [rewrite fmap_cons; simpl; lia|lia]. }
  apply (capacity_mono _ (cands_v1_ok r Hr)). apply NoDup_submseteq.
  - apply NoDup_filter, NoDup_seq.
  - intros i [Hi Hs]%list_elem_of_filter. apply elem_of_seq in Hs. apply Hall; [lia|done].
Qed.

Lemma capacity_le_cluster s : seen_ok (cands_v1 r) s → capacity (cands_v1 r) s ≤ cluster_capacity r.
Proof using Hr.
  intros [Hnd Hv]. rewrite <- all_capacity_eq. apply (capacity_mono _ (cands_v1_ok r Hr)).
  apply NoDup_submseteq; [done|]. intros i Hi. rewrite list.Forall_forall in Hv.
  apply elem_of_seq. specialize (Hv i Hi). lia.
Qed.

Lemma select_auto_v1 :
  ∃ st, sel_v1 r None = Ok st ∧ seen_ok (cands_v1 r) st.1 ∧
    (md_n_layers (pr_dims r) ≤ capacity (cands_v1 r) st.1 ↔ md_n_layers (pr_dims r) ≤ cluster_capacity r) ∧
    (∀ i w, i ∈ st.1 → pr_workers r !! i = Some w → nc_draining w = true →
      steady_capacity r < md_n_layers (pr_dims r)).
Proof using Hr.
  pose proof Hr as [_ _ _ Hl _].
  pose proof (evaluate_judges _ (pr_links r) (n_range r Hr) Hl) as Hev.
  pose proof (all_caps_size r Hr) as Hs. rewrite length_app in Hs. simpl in Hs.
  destruct (select_auto_spec (md_n_layers (pr_dims r))
    (λ set, evaluate set (md_n_layers (pr_dims r)) (pr_links r)) ev_counts ev_order ev_tpt
    (cands_v1 r) (cands_v1_ok r Hr)) with (ctx_len := pr_ctx_len r)
    (cost := per_layer_cost (pr_dims r) (pr_ctx_len r)) as (st & H1 & H2 & H3 & H4).
  - intros H. apply (f_equal length) in H. by rewrite length_cands in H.
  - rewrite length_cands. lia.
  - exists st. split; [done|]. split; [done|]. split.
    + pose proof (capacity_le_cluster st.1 H2). destruct H3 as [H3|H3]; [lia|].
      pose proof (capacity_all st.1 H2 H3). lia.
    + intros i w Hi Hw Hd. rewrite <- steady_capacity_eq. apply (H4 i Hi).
      destruct (worker_at i w Hw) as [_ ->]. done.
Qed.
End capacities.

(** Every placement of the v1 planner is complete.  On measured inputs
    [plan_v1] never panics, and a plan it returns assigns all layers of the
    model: stages 0, 1, ... in order, non-empty layer ranges tiling
    [0, n_layers), one tensor-split fraction per stage. *)
Theorem plan_v1_sound r :
  request_ok r →
  plan_v1 r ≠ Panic ∧
  ∀ pl, plan_v1 r = Ok pl →
    placement_ok (md_n_layers (pr_dims r)) (pp_plan pl) ∧
    length (pp_tensor_split pl) = length (p_assignments (pp_plan pl)).
Proof.
  intros Hr. pose proof (n_range r Hr) as Hn.
  assert (∀ forced hb req kv sf, distributed_v1 r forced hb req kv sf ≠ Panic ∧
    ∀ pl, distributed_v1 r forced hb req kv sf = Ok pl →
      placement_ok (md_n_layers (pr_dims r)) (pp_plan pl) ∧
      length (pp_tensor_split pl) = length (p_assignments (pp_plan pl))) as Hd.
  { intros forced hb req kv sf.
    destruct (distributed_v1_spec r Hr forced hb req kv sf) as (st & _ & _ & [[_ ->]|(_ & pl & -> & _ & H1 & H2 & _)]).
    - done.
    - split; [done|]. intros pl' [= <-]. done. }
  assert (∀ hb req f, placement_ok (md_n_layers (pr_dims r)) (pp_plan (solo_v1 r hb req f)) ∧
    length (pp_tensor_split (solo_v1 r hb req f)) = 1%nat) as Hs.
  { intros hb req f. split; [|done]. split; simpl; [lia|done]. }
  unfold plan_v1. destruct (norm_forced _) as [k|]; repeat case_match; try apply Hd; split; try done;
    intros pl [= <-]; apply Hs.
Qed.

(** Where a plan of [plan_v1] comes from. *)
Lemma plan_v1_pipeline r pl :
  request_ok r → plan_v1 r = Ok pl → p_strategy (pp_plan pl) = PipelineParallel →
  ∃ forced hb req kv sf, norm_forced (pr_forced_nodes r) = forced ∧
    distributed_v1 r forced hb req kv sf = Ok pl.
Proof.
  intros Hr Hpl Hst. unfold plan_v1 in Hpl.
  destruct (norm_forced (pr_forced_nodes r)) as [k|]; repeat case_match; simplify_eq;
    eexists _, _, _, _, _; (split; [reflexivity|exact Hpl]).
Qed.

(** Pipeline placements respect memory and pin the head.  With usable
    memory and per-layer bytes below 2^53, every stage of a distributed v1 plan
    runs on one of the request's nodes, and its layers, each charged the mean
    weight plus the KV cache of a layer, fit that node's budget exactly; if
    that node is the head, its stage is the last one. *)
Theorem plan_v1_memory_and_head r pl k a :
  request_ok r → plan_v1 r = Ok pl → p_strategy (pp_plan pl) = PipelineParallel →
  Forall (λ c, nc_usable_memory_bytes c < 2 ^ 53) (pr_workers r ++ [pr_head r]) →
  layer_bytes (pr_dims r) (pr_ctx_len r) < 2 ^ 53 →
  p_assignments (pp_plan pl) !! k = Some a →
  ∃ i caps, (pr_workers r ++ [pr_head r]) !! i = Some caps ∧ a_node a = nc_node caps ∧
    0 < lr_end (a_layers a) - lr_start (a_layers a) ∧
    (lr_end (a_layers a) - lr_start (a_layers a)) * layer_bytes (pr_dims r) (pr_ctx_len r)
      ≤ node_budget (nc_usable_memory_bytes caps) ∧
    (i = length (pr_workers r) → S k = length (p_assignments (pp_plan pl))).
Proof.
  intros Hr Hpl Hst Hmem Hlb Hk.
  destruct (plan_v1_pipeline r pl Hr Hpl Hst) as (forced & hb & req & kv & sf & _ & Hd).
  destruct (distributed_v1_spec r Hr forced hb req kv sf)
    as (st & _ & _ & [[_ He]|(_ & pl' & Hpl' & _ & _ & _ & Hfact)]); [congruence|].
  assert (pl' = pl) as -> by congruence.
  destruct (Hfact k a Hk) as (i & c & Hc & Hnode & _ & Hlen & Hhead).
  change (cands_v1 r !! i = Some c) in Hc.
  destruct (cands_v1_lookup r i c (rq_caps r Hr) Hc) as [Hi Hcap].
  exists i, (cd_caps c). split; [done|]. split; [done|]. split; [lia|]. split.
  - assert (0 ≤ nc_usable_memory_bytes (cd_caps c) < 2 ^ 53) as Hm.
    { split; [|by eapply Forall_lookup_1 in Hmem; eauto].
      pose proof (rq_caps r Hr) as Hcs. eapply Forall_lookup_1 in Hcs as [[? _] _]; [|exact Hi]. done. }
    assert (cd_cap_layers c ≤ node_budget (nc_usable_memory_bytes (cd_caps c)) /
      layer_bytes (pr_dims r) (pr_ctx_len r)) as Hle.
    { rewrite Hcap. unfold v1_capacity, node_layer_capacity.
      rewrite (floor_div_exact _ (layer_bytes (pr_dims r) (pr_ctx_len r))); [lia|..].
      - unfold node_budget, sat_sub, OVERHEAD_RESERVE_BYTES. lia.
      - unfold layer_bytes in *. lia.
      - apply per_layer_cost_bounds.
      - by apply per_layer_cost_exact. }
    assert (0 < layer_bytes (pr_dims r) (pr_ctx_len r)) as Hl0 by (unfold layer_bytes; lia).
    pose proof (Z.mul_div_le (node_budget (nc_usable_memory_bytes (cd_caps c))) _ Hl0). nia.
  - intros Hil. apply Hhead. change (i = head_idx (cands_v1 r)). by rewrite head_idx_v1.
Qed.

(** In automatic mode the v1 planner is exact about feasibility: it runs
    solo when weights plus KV cache fit the head's budget, otherwise it
    distributes whenever the nodes' layer capacities together hold the model,
    and only otherwise refuses, reporting the need and the pooled budget. *)
Theorem plan_v1_auto_feasible r :
  request_ok r → norm_forced (pr_forced_nodes r) = None →
  let required := total_required_bytes (pr_dims r) (pr_ctx_len r) in
  if required <=? node_budget (nc_usable_memory_bytes (pr_head r)) then
    ∃ pl, plan_v1 r = Ok pl ∧ p_strategy (pp_plan pl) = Solo
  else if md_n_layers (pr_dims r) <=? cluster_capacity r then
    ∃ pl, plan_v1 r = Ok pl ∧ p_strategy (pp_plan pl) = PipelineParallel
  else plan_v1 r = Err (DoesNotFit (mb_ceil required) (mb_floor (u64_sum (cd_budget <$> cands_v1 r)))).
Proof.
  intros Hr Hf required. unfold plan_v1. rewrite Hf. fold required.
  destruct (required <=? _); [by eexists|].
  match goal with |- context [distributed_v1 r None ?hb ?req ?kv ?sf] =>
    destruct (distributed_v1_spec r Hr None hb req kv sf) as (st & Hst & Hseen & Hout) end.
  destruct (select_auto_v1 r Hr) as (st' & Hst' & _ & Hiff & _).
  assert (st' = st) as -> by congruence.
  destruct (Z.leb_spec (md_n_layers (pr_dims r)) (cluster_capacity r)) as [Hle|Hgt];
    destruct Hout as [[Hlt Hout]|(Hge & pl & Hpl & Hstr & _)]; try lia.
  - exists pl. done.
  - exact Hout.
Qed.

(** A draining node joins an automatic plan only when the model does not
    fit without it: if a stage of an automatic v1 plan runs on a draining
    worker (nodes being told apart by their identifiers), the workers that are
    not draining, together with the head, cannot hold the model. *)
Theorem plan_v1_draining_last_resort r pl a w :
  request_ok r → norm_forced (pr_forced_nodes r) = None →
  NoDup (nc_node <$> pr_workers r ++ [pr_head r]) →
  plan_v1 r = Ok pl → p_strategy (pp_plan pl) = PipelineParallel →
  a ∈ p_assignments (pp_plan pl) → w ∈ pr_workers r → nc_draining w = true → a_node a = nc_node w →
  steady_capacity r < md_n_layers (pr_dims r).
Proof.
  intros Hr Hf Hnd Hpl Hst Ha Hw Hdr Hnode.
  destruct (plan_v1_pipeline r pl Hr Hpl Hst) as (forced & hb & req & kv & sf & Hf' & Hd).
  assert (forced = None) as -> by congruence.
  destruct (distributed_v1_spec r Hr None hb req kv sf)
    as (st & Hsel & _ & [[_ He]|(_ & pl' & Hpl' & _ & _ & _ & Hfact)]); [congruence|].
  assert (pl' = pl) as -> by congruence.
  destruct (select_auto_v1 r Hr) as (st' & Hst' & _ & _ & Hdrain).
  assert (st' = st) as -> by congruence.
  apply list_elem_of_lookup in Ha as [k Hk]. destruct (Hfact k a Hk) as (i & c & Hc & Hn & Hi & _).
  change (cands_v1 r !! i = Some c) in Hc.
  destruct (cands_v1_lookup r i c (rq_caps r Hr) Hc) as [Hic _].
  apply list_elem_of_lookup in Hw as [j Hj].
  assert (i = j) as ->.
  { eapply NoDup_lookup; [exact Hnd|..]; rewrite list_lookup_fmap.
    - rewrite Hic. simpl. by rewrite <- Hn.
    - rewrite (lookup_app_l_Some _ _ _ _ Hj). simpl. by rewrite Hnode. }
  destruct Hi as [Hi|Hi]; [by eapply Hdrain|].
  change (j = head_idx (cands_v1 r)) in Hi. rewrite head_idx_v1 in Hi. apply lookup_lt_Some in Hj. lia.
Qed.

(** ** An example cluster *)
Definition ex_caps (name : string) (gib : Z) (rate : option Z) (draining : bool) : NodeCaps :=
  MkCaps (MkNodeId name) (gib * 2 ^ 30)
    (option_map (λ d, MkCompute (of_Z b64 (10 * d)) (of_Z b64 d)) rate) draining.

(** A head of 8 GiB and a draining worker of 12 GiB serving 24 layers. *)
Definition ex_request (gib : Z) : PlanRequest :=
  MkRequest (ex_caps "h" 8 (Some 40) false) [ex_caps "a" 12 (Some 20) true]
    (uniform (gib * 2 ^ 30) 24) 4096 None
    [MkLink (MkNodeId "a") (MkNodeId "h") (of_Z b64 3) (Some (of_Z b64 900))] 0.

Lemma pos_decode_ok caps :
  match pos_decode caps with
  | Some d => match d with
              | Fin false m e => ((0 <=? m) && (m <? 2 ^ 53) && (-1074 <=? e) && (e <=? 971) &&
                                  Qle_bool (p2 (-100)) (fval d) && Qle_bool (fval d) (p2 100)) = true
              | _ => False
              end
  | None => True
  end → ∀ d, pos_decode caps = Some d → rate_ok d.
Proof.
  intros H d Hd. rewrite Hd in H. destruct d as [| |[] m e]; try done.
  rewrite !andb_true_iff, !Qle_bool_iff, !Z.leb_le, Z.ltb_lt in H.
  split; [simpl; naive_solver|]. naive_solver.
Qed.

Lemma ex_request_ok gib : 0 ≤ gib ≤ 100 → request_ok (ex_request gib).
Proof.
  intros Hg. split.
  - repeat (apply Forall_cons; split;
      [split; [unfold in_u64; simpl; lia|apply pos_decode_ok; vm_compute; done]|]). constructor.
  - simpl. lia.
  - apply uniform_ok; lia.
  - repeat (apply Forall_cons; split; [score_ok_tac|]). constructor.
  - done.
Qed.

Definition ex_assignments (split : Z) : list Assignment :=
  [MkAssignment (MkNodeId "a") (MkLayerRange 0 split) 0; MkAssignment (MkNodeId "h") (MkLayerRange split 24) 1].

(** Whether a planner answered with a given pipeline. *)
Definition answers (p : res ScheduleError PlannedPlacement) (l : list Assignment) : bool :=
  match p with
  | Ok pl => bool_decide (p_strategy (pp_plan pl) = PipelineParallel) &&
             bool_decide (p_assignments (pp_plan pl) = l)
  | _ => false
  end.
Lemma answers_spec p l :
  answers p l = true →
  ∃ pl, p = Ok pl ∧ p_strategy (pp_plan pl) = PipelineParallel ∧ p_assignments (pp_plan pl) = l.
Proof. destruct p as [pl| |]; try done. simpl. rewrite andb_true_iff, !bool_decide_eq_true. by exists pl. Qed.

Lemma ex_plan : answers (plan_v1 (ex_request 12)) (ex_assignments 13) = true.
Proof. vm_compute. reflexivity. Qed.

Lemma plan_v1_sound_witness :
  ∃ pl, plan_v1 (ex_request 12) = Ok pl ∧ placement_ok 24 (pp_plan pl) ∧
    p_assignments (pp_plan pl) = ex_assignments 13.
Proof.
  destruct (answers_spec _ _ ex_plan) as (pl & H & _ & Ha). exists pl. split; [exact H|]. split; [|exact Ha].
  exact (proj1 (proj2 (plan_v1_sound (ex_request 12) (ex_request_ok 12 ltac:(lia))) _ H)).
Defined.

Lemma node_layer_capacity_exact_witness :
  node_layer_capacity (8 * 2 ^ 30) (uniform (22 * 2 ^ 30) 48) 4096 = 16 ∧
  node_budget (8 * 2 ^ 30) / layer_bytes (uniform (22 * 2 ^ 30) 48) 4096 = 16.
Proof.
  assert (layer_bytes (uniform (22 * 2 ^ 30) 48) 4096 < 2 ^ 53) as Hl by (vm_compute; reflexivity).
  pose proof (node_layer_capacity_exact (8 * 2 ^ 30) (uniform (22 * 2 ^ 30) 48) 4096 ltac:(lia) Hl) as H.
  split; [|vm_compute; reflexivity]. rewrite H. vm_compute. reflexivity.
Defined.

Lemma plan_v1_memory_and_head_witness :
  ∃ pl a, plan_v1 (ex_request 12) = Ok pl ∧ p_assignments (pp_plan pl) !! 1%nat = Some a ∧
  ∃ i caps, (pr_workers (ex_request 12) ++ [pr_head (ex_request 12)]) !! i = Some caps ∧
    a_node a = nc_node caps ∧ 0 < lr_end (a_layers a) - lr_start (a_layers a) ∧
    (lr_end (a_layers a) - lr_start (a_layers a)) *
      layer_bytes (pr_dims (ex_request 12)) (pr_ctx_len (ex_request 12))
      ≤ node_budget (nc_usable_memory_bytes caps) ∧
    (i = 1%nat → 2%nat = length (p_assignments (pp_plan pl))).
Proof.
  destruct (answers_spec _ _ ex_plan) as (pl & H & Hs & Ha). eexists pl, _. split; [exact H|].
  assert (p_assignments (pp_plan pl) !! 1%nat = Some (MkAssignment (MkNodeId "h") (MkLayerRange 13 24) 1)) as H1
    by (rewrite Ha; reflexivity).
  split; [exact H1|].
  apply (plan_v1_memory_and_head (ex_request 12) pl 1).
  - apply ex_request_ok. lia.
  - exact H.
  - exact Hs.
  - repeat constructor.
  - vm_compute. reflexivity.
  - exact H1.
Defined.

Lemma plan_v1_auto_feasible_witness :
  plan_v1 (ex_request 60) =
    Err (DoesNotFit (mb_ceil (total_required_bytes (pr_dims (ex_request 60)) 4096))
           (mb_floor (u64_sum (cd_budget <$> cands_v1 (ex_request 60))))).
Proof.
  pose proof (plan_v1_auto_feasible (ex_request 60) (ex_request_ok 60 ltac:(lia)) eq_refl) as H.
  cbv zeta in H.
  assert ((total_required_bytes (pr_dims (ex_request 60)) (pr_ctx_len (ex_request 60)) <=?
    node_budget (nc_usable_memory_bytes (pr_head (ex_request 60)))) = false) as E1
    by (vm_compute; reflexivity).
  assert ((md_n_layers (pr_dims (ex_request 60)) <=? cluster_capacity (ex_request 60)) = false) as E2
    by (vm_compute; reflexivity).
  rewrite E1, E2 in H. exact H.
Defined.

Lemma plan_v1_draining_last_resort_witness :
  steady_capacity (ex_request 12) < md_n_layers (pr_dims (ex_request 12)).
Proof.
  destruct (answers_spec _ _ ex_plan) as (pl & H & Hs & Ha).
  apply (plan_v1_draining_last_resort (ex_request 12) pl (MkAssignment (MkNodeId "a") (MkLayerRange 0 13) 0)
    (ex_caps "a" 12 (Some 20) true)).
  - apply ex_request_ok. lia.
  - reflexivity.
  - apply (bool_decide_unpack _). vm_compute. exact I.
  - exact H.
  - exact Hs.
  - rewrite Ha. left.
  - left.
  - reflexivity.
  - reflexivity.
Defined.
