(* ===== verification/SchedV2.v ===== *)
(** * Scheduler v2

    Models [crates/onebrain-scheduler/src/v2.rs]: the pipeline-copy budget, the
    boundary transfer time, the tilt family with its underweighted variants,
    the exhaustive candidate search and [plan_v2]. *)

From Stdlib Require Import ZArith Lia Sorted Permutation.
From stdpp Require Import base list strings.
From S2P Require Import Prelude Float Proto SchedLib Dims SchedV1.

Open Scope Z_scope.

Definition effective_n_ubatch (n_ubatch : Z) : Z := if n_ubatch =? 0 then DEFAULT_N_UBATCH else n_ubatch.

Definition boundary_transfer_ms (n_embd n_ubatch : Z) (bandwidth_mbps : fl) : fl :=
  if fle bandwidth_mbps fzero then fzero
  else
    let bytes := fmul b64 (fmul b64 (of_Z b64 4) (of_Z b64 n_embd)) (of_Z b64 (effective_n_ubatch n_ubatch)) in
    fdiv b64 (fmul b64 bytes (of_Z b64 8)) (fmul b64 bandwidth_mbps f1000).

Definition pipeline_copies (n_embd n_ubatch : Z) : Z :=
  u64_sat_mul (u64_sat_mul 16 n_embd) n_ubatch.

Definition node_budget_v2 (usable_memory_bytes n_embd n_ubatch : Z) : Z :=
  sat_sub usable_memory_bytes
    (u64_sat_add OVERHEAD_RESERVE_BYTES (pipeline_copies n_embd (effective_n_ubatch n_ubatch))).

Definition node_layer_capacity_v2 (usable_memory_bytes : Z) (dims : ModelDims) (ctx_len n_ubatch : Z) : Z :=
  to_u64 (ffloor (fdiv b64 (of_Z b64 (node_budget_v2 usable_memory_bytes (md_n_embd dims) n_ubatch))
                    (per_layer_cost dims ctx_len))).

(** ** The tilt family *)
Definition all_tilts : list Tilt := [Memory; Hybrid; Compute].

Definition tilt_score (t : Tilt) (c : Cand) : fl :=
  match t with
  | Memory => cd_cap_f c
  | Hybrid => fmul b64 (cd_cap_f c) (cd_factor c)
  | Compute => fmax (fsub b64 (fmul b64 ftwo (cd_factor c)) fone) fzero
  end.

Record FamilyCandidate := MkFamily { fc_tilt : Tilt; fc_underweighted : bool; fc_counts : list Z }.

(** The profiled participant with the lowest decode rate, first on ties. *)
Definition slowest_of (cands : list Cand) : res ScheduleError (option nat) :=
  m ← fold_res min_step None
        (omap (λ '(i, c), (λ d, (i, d)) <$> cd_decode c) (enumerate cands));
  Ok (option_map fst m).

(** One layer from the slowest node to the best other node with slack. *)
Definition underweight (slowest : option nat) (scores quotas : list fl) (caps counts : list Z) :
    res ScheduleError (option (list Z)) :=
  match slowest with
  | None => Ok None
  | Some s =>
      cs ← expect (counts !! s);
      if cs <=? 1 then Ok None
      else
        let slots := zip_with (λ '(sc, q) c, MkSlot sc q c) (zip scores quotas) caps in
        Ok (match best_slack (Some s) slots counts with
            | None => None
            | Some r => Some (alter (λ c, u32_add c 1) r (alter (λ c, u32_sub c 1) s counts))
            end)
  end.

Definition family_step (cands : list Cand) (n_layers : Z) (slowest : option nat)
    (out : list FamilyCandidate) (v : bool * Tilt) : res ScheduleError (list FamilyCandidate) :=
  let '(under, tilt) := v in
  let scores := tilt_score tilt <$> cands in
  let caps := cd_cap_layers <$> cands in
  r ← apportion scores caps n_layers;
  match r with
  | None => Ok out
  | Some (counts, quotas) =>
      if under : bool then
        u ← underweight slowest scores quotas caps counts;
        Ok (match u with Some counts => out ++ [MkFamily tilt true counts] | None => out end)
      else Ok (out ++ [MkFamily tilt false counts])
  end.

Definition family_order : list (bool * Tilt) :=
  (pair false <$> all_tilts) ++ (pair true <$> all_tilts).

Definition family_counts (cands : list Cand) (n_layers : Z) : res ScheduleError (list FamilyCandidate) :=
  slowest ← slowest_of cands;
  fold_res (family_step cands n_layers slowest) [] family_order.

(** ** Stage orders *)
Definition enumerate_orders (cands : list Cand) (counts : list Z) (links : list LinkRtt) :
    res ScheduleError (list (list nat)) :=
  active ← active_of counts (length cands);
  if (length active <=? 1)%nat then Ok [active]
  else if (EXACT_ORDER_MAX_NODES <? length active)%nat then
    '(order, _) ← order_stages cands counts links; Ok [order]
  else
    let tail := tail_of cands active in
    Ok (pin_tail tail <$> permutations (movable_of active tail)).

(** ** The search *)
Record V2Eval := MkV2Eval {
  v2_counts : list Z;
  v2_order : list nat;
  v2_boundary_rtts : list fl;
  v2_boundary_transfer : list fl;
  v2_tpt : fl;
  v2_prefill_cost : fl;
  v2_tilt : Tilt;
  v2_underweighted : bool;
  v2_considered : Z;
  v2_variants : Z }.

Section search.
Context (cands : list Cand) (links : list LinkRtt) (dims : ModelDims) (n_ubatch : Z).

Definition hop_cost (w : nat * nat) : res ScheduleError (fl * fl) :=
  ca ← expect (cands !! w.1);
  cb ← expect (cands !! w.2);
  let a := nc_node (cd_caps ca) in
  let b := nc_node (cd_caps cb) in
  Ok (link_rtt links a b,
      match link_bandwidth links a b with
      | Some bw => boundary_transfer_ms (md_n_embd dims) n_ubatch bw
      | None => fzero
      end).

(** Stage compute walks the order: which contiguous range a stage owns
    decides its active units. *)
Definition compute_step (counts : list Z) (st : Z * fl) (i : nat) : res ScheduleError (Z * fl) :=
  let '(cursor, compute_ms) := st in
  n ← expect (counts !! i);
  c ← expect (cands !! i);
  let stop := u32_add cursor n in
  let units := active_compute_units dims cursor stop in
  Ok (stop,
      match cd_tpt_decode c with
      | Some tps => fmax compute_ms (fmul b64 (fdiv b64 units tps) f1000)
      | None => compute_ms
      end).

(** One candidate: a family member with a stage order. *)
Definition price (fc : FamilyCandidate) (variants : Z) (order : list nat) : res ScheduleError V2Eval :=
  hops ← map_res hop_cost (windows2 order);
  '(_, compute_ms) ← fold_res (compute_step (fc_counts fc)) (0, fzero) order;
  let rtt_sum := fsum b64 hops.*1 in
  Ok (MkV2Eval (fc_counts fc) order hops.*1 hops.*2 (fadd b64 compute_ms rtt_sum)
        (fadd b64 rtt_sum (fsum b64 hops.*2)) (fc_tilt fc) (fc_underweighted fc) 0 variants).

Definition v2_better (x y : V2Eval) : bool :=
  flt (v2_tpt x) (v2_tpt y) ||
  (feq (v2_tpt x) (v2_tpt y) && flt (v2_prefill_cost x) (v2_prefill_cost y)).

Definition consider (best : option V2Eval) (x : V2Eval) : option V2Eval :=
  match best with
  | None => Some x
  | Some b => if v2_better x b then Some x else best
  end.

Definition order_step (fc : FamilyCandidate) (variants : Z) (st : Z * option V2Eval) (order : list nat) :
    res ScheduleError (Z * option V2Eval) :=
  x ← price fc variants order;
  Ok (st.1 + 1, consider st.2 x).

Definition variant_step (variants : Z) (st : Z * option V2Eval) (fc : FamilyCandidate) :
    res ScheduleError (Z * option V2Eval) :=
  orders ← enumerate_orders cands (fc_counts fc) links;
  fold_res (order_step fc variants) st orders.

Definition search_v2 (n_layers : Z) : res ScheduleError (option V2Eval) :=
  family ← family_counts cands n_layers;
  let variants := Z.of_nat (length family) in
  '(considered, best) ← fold_res (variant_step variants) (0, None) family;
  Ok (option_map (λ b, MkV2Eval (v2_counts b) (v2_order b) (v2_boundary_rtts b)
                         (v2_boundary_transfer b) (v2_tpt b) (v2_prefill_cost b) (v2_tilt b)
                         (v2_underweighted b) considered (v2_variants b)) best).
End search.

(** ** The planner *)
Definition transfer_lines (input : PlanRequest) (final_set : list Cand) (eval : V2Eval) (n_ubatch : Z) :
    list ExplainLine :=
  let total := fsum b64 (v2_boundary_transfer eval) in
  if flt fzero total then
    let priced := filter (λ p : NodeId * NodeId * fl, flt fzero p.2 = true)
                    (zip (hop_names final_set (v2_order eval)) (v2_boundary_transfer eval)) in
    [XTransfer (div_ceil (u64_mul (u64_mul 4 (md_n_embd (pr_dims input))) n_ubatch) 1024)
       ((λ p : NodeId * NodeId * fl,
           (p.1.1, p.1.2, default fzero (link_bandwidth (pr_links input) p.1.1 p.1.2), p.2)) <$> priced)
       total]
  else [].

Definition moe_lines (dims : ModelDims) : list ExplainLine :=
  if 0 <? md_n_expert dims then
    if (0 <? md_n_expert_used dims) && (md_n_expert_used dims <? md_n_expert dims)
    then [XMoeScaled (md_n_expert dims) (md_n_expert_used dims)]
    else [XMoeDense (md_n_expert dims) (md_n_expert_used dims)]
  else [].

Definition distributed_v2 (input : PlanRequest) (forced : option Z)
    (head_budget required kv_layer : Z) (solo_fits : bool) (n_ubatch : Z) :
    res ScheduleError PlannedPlacement :=
  let dims := pr_dims input in
  let n_layers := md_n_layers dims in
  let cost := per_layer_cost dims (pr_ctx_len input) in
  let budget_of usable := node_budget_v2 usable (md_n_embd dims) n_ubatch in
  let cands := build_cands (pr_workers input ++ [pr_head input]) cost budget_of in
  let pooled_budget := u64_sum (cd_budget <$> cands) in
  let eval_tpt set :=
    (e ← search_v2 set (pr_links input) dims n_ubatch n_layers; Ok (option_map v2_tpt e)) in
  '(selected, notes) ← select_workers cands n_layers (pr_ctx_len input) cost eval_tpt forced;
  final_set ← participants cands selected;
  r ← search_v2 final_set (pr_links input) dims n_ubatch n_layers;
  match r with
  | None => Err (DoesNotFit (mb_ceil required) (mb_floor pooled_budget))
  | Some eval =>
      st ← assemble dims kv_layer final_set (v2_counts eval) (v2_order eval);
      let copies := pipeline_copies (md_n_embd dims) n_ubatch in
      Ok (MkPlaced
            (MkPlan (MkEpoch 0) "" PipelineParallel (as_assignments st) (pr_ctx_len input))
            (as_split st)
            (XPipeline (Z.of_nat (length (as_assignments st)))
               (why_v1 input forced head_budget required solo_fits)
             :: as_prose st
             ++ [XKvBudgetV2 (mb_ceil kv_layer) (pr_ctx_len input) (md_kv_rate dims)
                   (mb_ceil (u64_add OVERHEAD_RESERVE_BYTES copies)) (mb_ceil OVERHEAD_RESERVE_BYTES)
                   (mb_ceil copies) n_ubatch]
             ++ boundary_lines final_set (v2_order eval) (v2_boundary_rtts eval)
             ++ transfer_lines input final_set eval n_ubatch
             ++ [XDecodeCostV2 (v2_tpt eval) (v2_prefill_cost eval)]
             ++ [XCandidateSearch (v2_considered eval) (v2_variants eval) (v2_tilt eval)
                   (v2_underweighted eval)]
             ++ moe_lines dims
             ++ binding_lines (as_assignments st) (as_binding st)
             ++ (XNote <$> notes)
             ++ dropped_lines final_set (v2_counts eval)))
  end.

Definition add_line (line : ExplainLine) (p : PlannedPlacement) : PlannedPlacement :=
  MkPlaced (pp_plan p) (pp_tensor_split p) (pp_explanation p ++ [line]).

Definition plan_v2 (input : PlanRequest) : res ScheduleError PlannedPlacement :=
  let available := u32_add (wrap32 (Z.of_nat (length (pr_workers input)))) 1 in
  let forced := norm_forced (pr_forced_nodes input) in
  let n_ubatch := effective_n_ubatch (pr_n_ubatch input) in
  let dims := pr_dims input in
  let kv_layer := kv_bytes_per_layer dims (pr_ctx_len input) in
  let required := total_required_bytes dims (pr_ctx_len input) in
  let head_budget := node_budget (nc_usable_memory_bytes (pr_head input)) in
  let solo_fits := required <=? head_budget in
  let solo f := add_line (XUbatch n_ubatch) (solo_v1 input head_budget required f) in
  match forced with
  | Some requested =>
      if available <? requested then Err (NotEnoughNodes requested available)
      else if requested =? 1 then
        if solo_fits then Ok (solo true)
        else Err (DoesNotFit (mb_ceil required) (mb_floor head_budget))
      else distributed_v2 input forced head_budget required kv_layer solo_fits n_ubatch
  | None =>
      if solo_fits then Ok (solo false)
      else distributed_v2 input forced head_budget required kv_layer solo_fits n_ubatch
  end.
