(* ===== verification/PlanV2.v ===== *)
(** * The v2 planner

    The correctness of [plan_v2]: the candidate search satisfies the
    evaluator interface of [PlanCore], its winner is minimal among everything
    it considered, and the plans it returns are complete. *)

From Stdlib Require Import ZArith Lia QArith Qabs Qround Lqa Sorted Permutation.
From stdpp Require Import base list strings.
From S2P Require Import Prelude Float FloatFacts Proto SchedLib Dims SchedV1 Apportion StageOrder.
From S2P Require Import PlanCore SchedV2 PlanV1.

Open Scope Z_scope.

(** ** Subtraction *)
Lemma fsub_nn x y :
  nn x → nn y → (fval y <= fval x)%Q → (fval x <= p2 1023)%Q →
  nn_rnd (fval x - fval y) (fsub b64 x y).
Proof.
  destruct x as [| |s m e]; try done. destruct y as [| |t n k]; try done.
  intros Hx Hy. rewrite (fval_signed s m e), (fval_signed t n k) by done. intros Hle Hmax.
  unfold fsub, fneg, fadd. set (g := Z.min e k).
  assert (signed s (m * 2 ^ (e - g)) = m * 2 ^ (e - g)) as ->
    by (destruct Hx as (_ & _ & Hs); destruct s; simpl; [rewrite Hs by done|]; lia).
  assert (signed (negb t) (n * 2 ^ (k - g)) = - (n * 2 ^ (k - g))) as ->
    by (destruct Hy as (_ & _ & Ht); destruct t; simpl; [rewrite Ht by done|]; lia).
  set (z := m * 2 ^ (e - g) + - (n * 2 ^ (k - g))).
  assert (inject_Z z * p2 g == inject_Z m * p2 e - inject_Z n * p2 k)%Q as Hz.
  { unfold z. rewrite inject_Z_plus, inject_Z_opp.
    rewrite <- (scale_p2 m e g), <- (scale_p2 n k g) by lia. ring. }
  assert (0 ≤ z) as Hz0.
  { destruct (Z.le_gt_cases 0 z) as [|Hneg]; [done|exfalso].
    pose proof (inject_lt z 0 Hneg) as Hq. change (inject_Z 0) with 0%Q in Hq. pose proof (p2_pos g).
    assert (inject_Z z * p2 g < 0)%Q by nra. lra. }
  destruct (Z.eqb_spec z 0) as [He|Hne].
  - assert (inject_Z m * p2 e - inject_Z n * p2 k == 0)%Q as ->
      by (rewrite <- Hz, He; change (inject_Z 0) with 0%Q; lra).
    apply nn_zero.
  - rewrite Z.abs_eq by done. destruct (frac_spec z g ltac:(lia)) as (H1 & H2 & H3).
    destruct (frac z g) as [p q]. simpl in H1, H2, H3.
    rewrite (proj2 (Z.ltb_ge _ _)) by done. apply round_nn_rnd; [done|done| |].
    + by rewrite H3.
    + assert (0 <= inject_Z n * p2 k)%Q; [|lra].
      rewrite <- (fval_signed t n k) by done. by apply nn_fval.
Qed.

Lemma ftwo_nn : nn ftwo ∧ (fval ftwo == 2)%Q.
Proof. split; [simpl; lia|reflexivity]. Qed.

(** Doubling is exact. *)
Lemma double_exact f :
  nn f → (1 # 2 <= fval f)%Q → (fval f <= 2)%Q →
  nn (fmul b64 ftwo f) ∧ (fval (fmul b64 ftwo f) == 2 * fval f)%Q.
Proof.
  intros Hf H1 H2. destruct ftwo_nn as [Ht Htv].
  destruct (fmul_nn ftwo f Ht Hf) as [Hd Hr].
  { rewrite Htv. assert (4 <= p2 1023)%Q by discriminate. lra. }
  rewrite Htv in Hr. split; [done|]. apply (rnd_exact _ _ Hr).
  destruct (nn_repr f Hf) as (m & e & Hm & He & Hv). exists m, (e + 1).
  split; [done|]. split; [lia|]. rewrite Hv, p2_add. change (p2 1) with 2%Q. ring.
Qed.

(** A representable value above one exceeds it by at least 2^-52. *)
Lemma repr_gap c : repr b64 c → (1 < c)%Q → (1 + p2 (-52) <= c)%Q.
Proof.
  intros (m & e & Hm & He & Hc) H1. simpl in Hm. rewrite Hc in *.
  assert (-52 ≤ e) as He52.
  { destruct (Z.le_gt_cases (-52) e) as [|Hlt]; [done|exfalso].
    pose proof (p2_le e (-53) ltac:(lia)) as Hp. pose proof (inject_le m (2 ^ 53 - 1) ltac:(lia)) as Hmm.
    pose proof (inject_le 0 m ltac:(lia)) as Hm0. change (inject_Z 0) with 0%Q in Hm0.
    assert (inject_Z m * p2 e <= inject_Z (2 ^ 53 - 1) * p2 (-53))%Q as Hle.
    { apply Qle_trans with (inject_Z m * p2 (-53))%Q; [nra|]. pose proof (p2_pos (-53)). nra. }
    assert (inject_Z (2 ^ 53 - 1) * p2 (-53) < 1)%Q by reflexivity. lra. }
  (* both sides are integers times 2^-52 *)
  pose proof (scale_p2 m e (-52) He52) as Hs. rewrite <- Hs in *.
  set (k := m * 2 ^ (e - -52)) in *. clearbody k.
  assert (2 ^ 52 < k) as Hk.
  { rewrite Zlt_Qlt. pose proof (p2_pos (-52)).
    assert (inject_Z (2 ^ 52) * p2 (-52) == 1)%Q as Hone by reflexivity.
    apply (Qmult_lt_r _ _ (p2 (-52))); [done|]. lra. }
  pose proof (inject_le (2 ^ 52 + 1) k ltac:(lia)) as Hk1. rewrite inject_Z_plus in Hk1.
  assert (inject_Z (2 ^ 52) * p2 (-52) == 1)%Q as Hone by reflexivity.
  change (inject_Z 1) with 1%Q in Hk1. pose proof (p2_pos (-52)).
  apply Qle_trans with ((inject_Z (2 ^ 52) + 1) * p2 (-52))%Q; [lra|].
  apply Qmult_le_compat_r; lra.
Qed.

(** ** Scores of every tilt *)
Lemma compute_tilt_ok c : cand_ok c → score_ok (tilt_score Compute c).
Proof.
  intros Hc. destruct (co_factor c Hc) as (Hf & Hf1 & Hf2).
  destruct (double_exact _ Hf Hf1 Hf2) as [Hd Hdv]. destruct fone_nn as [Ho Hov].
  unfold tilt_score. set (d := fmul b64 ftwo (cd_factor c)) in *.
  destruct (fsub_nn d fone Hd Ho) as [Hs Hr].
  { rewrite Hdv, Hov. lra. }
  { rewrite Hdv. assert (4 <= p2 1023)%Q by discriminate. lra. }
  set (x := fsub b64 d fone) in *. rewrite Hov in Hr.
  assert (score_ok x) as Hx.
  { split; [done|]. destruct (Qlt_le_dec 1 (fval d)) as [Hgt|Hle].
    - right. pose proof (repr_gap _ (nn_repr _ Hd) Hgt) as Hgap. split.
      + apply Qle_trans with (p2 (-52)); [by apply p2_le|].
        apply (rnd_ge _ _ Hr); [by apply repr_p2|]. lra.
      + apply Qle_trans with (p2 2); [|by apply p2_le].
        apply (rnd_le _ _ Hr); [by apply repr_p2|]. change (p2 2) with 4%Q. lra.
    - left. apply (rnd_zero _ _ Hr). lra. }
  assert (nn fzero) as Hz by (simpl; lia).
  destruct (fmax_nn x fzero (proj1 Hx) Hz) as [[-> _]|[-> _]]; [done|].
  split; [done|]. left. reflexivity.
Qed.

Lemma memory_tilt_ok c :
  cand_ok c → score_ok (tilt_score Memory c) ∧
    ((fval (tilt_score Memory c) == 0)%Q → cd_cap_layers c = 0).
Proof.
  intros [_ [Hf Hfv] [Hk0 _] Hkf _ _ _]. simpl. split.
  - split; [done|]. destruct Hfv as [H|[H1 H2]]; [by left|right]. split.
    + eapply Qle_trans; [|exact H1]. by apply p2_le.
    + eapply Qle_trans; [exact H2|]. by apply p2_le.
  - intros Hz. rewrite Hz in Hkf. change 0%Q with (inject_Z 0) in Hkf. rewrite <- Zle_Qle in Hkf. lia.
Qed.

Lemma tilt_ok t c : cand_ok c → score_ok (tilt_score t c).
Proof.
  intros Hc. destruct t; [by apply memory_tilt_ok|by apply hybrid_ok|by apply compute_tilt_ok].
Qed.

(** ** The family *)

(** A family member is a complete distribution of the layers. *)
Definition distributes (set : list Cand) (n : Z) (counts : list Z) : Prop :=
  within counts (caps_of set) ∧ zsum counts = n.

Section family.
Context (set : list Cand) (n : Z) (Hset : set_ok set) (Hn : 1 ≤ n < 2 ^ 32).

Lemma apportion_tilt t :
  (apportion (tilt_score t <$> set) (caps_of set) n = Ok None ∧
    (t = Memory → zsum (caps_of set) < n)) ∨
  ∃ counts quotas, apportion (tilt_score t <$> set) (caps_of set) n = Ok (Some (counts, quotas)) ∧
    distributes set n counts ∧ length quotas = length set.
Proof using Hset Hn.
  destruct Hset as [Hc Hs]. pose proof Hc as Hc'. rewrite list.Forall_forall in Hc'.
  destruct (apportion_spec (tilt_score t <$> set) (caps_of set) n)
    as [[H Hno]|(counts & quotas & H & Hw & Hsum & Hl)].
  - apply Forall_fmap, list.Forall_forall. intros c Hin. by apply tilt_ok, Hc'.
  - by apply caps_of_u32.
  - unfold caps_of. by rewrite !length_fmap.
  - rewrite length_fmap. lia.
  - lia.
  - left. split; [done|]. intros ->. destruct Hno as [Hz|Hlt]; [|done].
    rewrite (no_score_no_cap (tilt_score Memory) set); [lia|..|done]; intros c Hin;
      by apply memory_tilt_ok, Hc'.
  - right. exists counts, quotas. split; [done|]. split; [done|].
    rewrite Hl. unfold caps_of. by rewrite length_fmap.
Qed.

Lemma fold_min_ok keyed :
  Forall (λ x : nat * fl, nn x.2) keyed →
  ∃ m, fold_res min_step None keyed = Ok m ∧ ∀ x, m = Some x → x ∈ keyed.
Proof using.
  intros H. destruct keyed as [|y keyed]; [by exists None|].
  destruct (min_step_ok (y :: keyed) H ltac:(done)) as (x & Hx & Hin).
  exists (Some x). split; [done|]. by intros x' [= <-].
Qed.

Lemma slowest_ok : ∃ s, slowest_of set = Ok s ∧ ∀ i, s = Some i → (i < length set)%nat.
Proof using Hset.
  unfold slowest_of. set (keyed := omap _ (enumerate set)).
  assert (∀ x, x ∈ keyed → nn x.2 ∧ (x.1 < length set)%nat) as Hk.
  { intros x. unfold keyed. rewrite list_elem_of_omap. intros ([i c] & Hin & Hd).
    apply elem_of_enumerate in Hin. destruct (cd_decode c) as [d|] eqn:Ed; [|done].
    simpl in Hd. injection Hd as <-. simpl. split; [|by eapply lookup_lt_Some].
    destruct Hset as [Hc _]. eapply Forall_lookup_1 in Hc; [|exact Hin].
    by apply (co_decode c Hc). }
  destruct (fold_min_ok keyed) as (m & -> & Hm).
  { apply list.Forall_forall. intros x Hx. by apply Hk. }
  cbn [mbind res_bind]. eexists; split; [reflexivity|]. intros i Hi.
  destruct m as [x|]; [|done]. simpl in Hi. injection Hi as <-. by apply Hk, Hm.
Qed.

(** Moving one layer keeps a distribution. *)
Lemma underweight_ok slowest scores quotas counts :
  distributes set n counts → (∀ i, slowest = Some i → (i < length set)%nat) →
  length scores = length set → length quotas = length set →
  ∃ o, underweight slowest scores quotas (caps_of set) counts = Ok o ∧
    ∀ counts', o = Some counts' → distributes set n counts'.
Proof using Hset.
  intros [Hw Hs] Hslow Hls Hlq. unfold underweight. destruct slowest as [s|]; [|by exists None].
  specialize (Hslow s eq_refl). pose proof (Forall2_length _ _ _ Hw) as Hlen.
  unfold caps_of in Hlen. rewrite length_fmap in Hlen.
  destruct (lookup_lt_is_Some_2 counts s ltac:(lia)) as [cs Hcs]. rewrite Hcs. cbn [expect mbind res_bind].
  destruct (Z.leb_spec cs 1) as [H1|H1]; [by exists None|].
  eexists; split; [reflexivity|]. intros counts'.
  destruct (best_slack _ _ _) as [r|] eqn:E; [|done]. intros [= <-].
  apply best_slack_Some in E as (Hne & sl & cr & Hsl & Hcr & Hlt).
  assert (caps_of set !! r = Some (sl_cap sl)) as Hcapr.
  { rewrite <- (slots_caps scores quotas (caps_of set)).
    - by rewrite list_lookup_fmap, Hsl.
    - unfold caps_of. rewrite length_fmap. lia. }
  assert (r ≠ s) as Hrs by congruence.
  pose proof (caps_of_u32 set (proj1 Hset)) as Hu.
  assert (sl_cap sl < 2 ^ 32) as Hc32 by (by eapply Forall_lookup_1 in Hu as [_ ?]; eauto).
  destruct (Forall2_lookup_l _ _ _ _ _ Hw Hcs) as (ks & Hks & Hcsk).
  assert (ks < 2 ^ 32) as Hk32 by (by eapply Forall_lookup_1 in Hu as [_ ?]; eauto).
  destruct (Forall2_lookup_l _ _ _ _ _ Hw Hcr) as (kr & Hkr & Hcrk).
  assert (u32_sub cs 1 = cs - 1) as Hsub by (apply wrap32_small; unfold in_u32; lia).
  assert (u32_add cr 1 = cr + 1) as Hadd by (apply wrap32_small; unfold in_u32; lia).
  set (c1 := alter (λ c, u32_sub c 1) s counts).
  assert (within c1 (caps_of set)) as Hw1.
  { apply Forall2_alter_l; [done|]. intros x y Hx Hy Hxy. assert (x = cs) as -> by congruence.
    rewrite Hsub. lia. }
  assert (c1 !! r = Some cr) as Hc1r by (unfold c1; by rewrite list_lookup_alter_ne).
  split.
  - apply Forall2_alter_l; [done|]. intros x y Hx Hy Hxy. assert (x = cr) as -> by congruence.
    assert (y = sl_cap sl) as -> by congruence. rewrite Hadd. lia.
  - rewrite (alter_zsum _ _ r cr 1 Hc1r) by done. unfold c1.
    rewrite (alter_zsum _ _ s cs (-1) Hcs) by (rewrite Hsub; lia). lia.
Qed.

Lemma family_step_ok slowest out under t :
  (∀ i, slowest = Some i → (i < length set)%nat) → Forall (λ fc, distributes set n (fc_counts fc)) out →
  ∃ out', family_step set n slowest out (under, t) = Ok out' ∧
    Forall (λ fc, distributes set n (fc_counts fc)) out' ∧ (length out ≤ length out')%nat ∧
    ((under, t) = (false, Memory) → out' = [] → zsum (caps_of set) < n).
Proof using Hset Hn.
  intros Hslow Hout. unfold family_step. fold (caps_of set).
  destruct (apportion_tilt t) as [[-> Hno]|(counts & quotas & -> & Hd & Hlq)]; cbn [mbind res_bind].
  { exists out. split; [done|]. split; [done|]. split; [lia|]. intros [= _ ->] _. by apply Hno. }
  assert (∀ fc, distributes set n (fc_counts fc) →
    Forall (λ fc, distributes set n (fc_counts fc)) (out ++ [fc]) ∧ (length out ≤ length (out ++ [fc]))%nat) as Hadd.
  { intros fc Hfc. split; [apply Forall_app; split; [done|by constructor]|rewrite length_app; lia]. }
  destruct under.
  - destruct (underweight_ok slowest (tilt_score t <$> set) quotas counts Hd Hslow) as (o & -> & Ho);
      [by rewrite length_fmap|done|]. cbn [mbind res_bind].
    destruct o as [c'|].
    + eexists; split; [reflexivity|]. destruct (Hadd (MkFamily t true c') (Ho c' eq_refl)). done.
    + exists out. done.
  - eexists; split; [reflexivity|]. destruct (Hadd (MkFamily t false counts) Hd).
    split; [done|]. split; [done|]. intros _ He. by apply app_nil in He as [_ ?].
Qed.

(** The family: every member distributes the layers, and it is empty only
    when the capacities cannot hold the model. *)
Lemma family_counts_ok :
  ∃ family, family_counts set n = Ok family ∧
    Forall (λ fc, distributes set n (fc_counts fc)) family ∧
    (family = [] → zsum (caps_of set) < n).
Proof using Hset Hn.
  unfold family_counts. destruct slowest_ok as (s & -> & Hs). cbn [mbind res_bind].
  assert (∀ vs out, Forall (λ fc, distributes set n (fc_counts fc)) out →
    ∃ out', fold_res (family_step set n s) out vs = Ok out' ∧
      Forall (λ fc, distributes set n (fc_counts fc)) out' ∧ (length out ≤ length out')%nat) as Hloop.
  { intros vs. induction vs as [|[u t] vs IH]; intros out Hout; [by exists out|].
    destruct (family_step_ok s out u t Hs Hout) as (o1 & H1 & H2 & H3 & _).
    cbn [fold_res]. rewrite H1. cbn [mbind res_bind].
    destruct (IH o1 H2) as (o2 & H4 & H5 & H6). exists o2. split; [done|]. split; [done|lia]. }
  unfold family_order, all_tilts. rewrite !fmap_cons. cbn [app].
  destruct (family_step_ok s [] false Memory Hs ltac:(constructor)) as (o1 & H1 & H2 & _ & H4).
  cbn [fold_res]. rewrite H1. cbn [mbind res_bind].
  destruct (Hloop ([(false, Hybrid); (false, Compute)] ++ (pair true <$> [Memory; Hybrid; Compute])) o1 H2)
    as (o2 & H5 & H6 & H7).
  exists o2. split; [exact H5|]. split; [done|]. intros ->. apply H4; [done|].
  by destruct o1; [|simpl in H7; lia].
Qed.
End family.

(** ** Orders *)
Lemma enumerate_orders_ok set counts links :
  links_ok links → length counts = length set → Z.of_nat (length set) ≤ 2 ^ 19 →
  ∃ orders, enumerate_orders set counts links = Ok orders ∧ orders ≠ [] ∧
    Forall (pinned set counts) orders ∧
    ((length (active set counts) ≤ EXACT_ORDER_MAX_NODES)%nat → ∀ o, pinned set counts o → o ∈ orders).
Proof.
  intros Hl Hlen Hs. unfold enumerate_orders. rewrite active_of_eq by done. cbn [mbind res_bind].
  destruct (order_stages_spec set counts links Hl Hlen ltac:(lia)) as (order & rtts & Ho & Hpin & _).
  destruct (Nat.leb_spec (length (active set counts)) 1) as [H1|H1].
  { assert (order = active set counts ∧ ∀ o, pinned set counts o → o = active set counts) as [Hoa Hall].
    { assert (∀ o, pinned set counts o → o = active set counts) as Hall; [|by split; [apply Hall|]].
      intros o [Hp _]. destruct (active set counts) as [|x [|]]; [..|simpl in H1; lia].
      - by apply Permutation_nil_r in Hp.
      - symmetry in Hp. by apply Permutation_singleton_l in Hp. }
    exists [active set counts]. split; [done|]. split; [done|]. rewrite <- Hoa.
    split; [by constructor|]. intros _ o Hop. rewrite (Hall o Hop), Hoa. by left. }
  destruct (Nat.ltb_spec EXACT_ORDER_MAX_NODES (length (active set counts))) as [H8|H8].
  { rewrite Ho. cbn [mbind res_bind]. exists [order]. split; [done|]. split; [done|].
    split; [by constructor|]. lia. }
  fold (the_tail set counts).
  assert (∀ o, o ∈ pin_tail (the_tail set counts) <$> permutations (movable_of (active set counts) (the_tail set counts))
    ↔ pinned set counts o) as Hin.
  { intros o. rewrite list_elem_of_fmap. split.
    - intros (p & -> & Hp). apply pinned_perm. by apply elem_of_permutations.
    - intros (p & Hp & ->)%pinned_inv. exists p. split; [done|]. by apply elem_of_permutations. }
  eexists; split; [reflexivity|]. split; [|split].
  - intros He. apply Hin in Hpin. rewrite He in Hpin. by apply not_elem_of_nil in Hpin.
  - apply list.Forall_forall. intros o. apply Hin.
  - intros _ o. apply Hin.
Qed.

(** ** Pricing and search *)
Lemma map_res_total {E A B} (f : A → res E B) l :
  Forall (λ x, ∃ y, f x = Ok y) l → ∃ ys, map_res f l = Ok ys.
Proof. induction 1 as [|x l [y Hy] _ [ys Hys]]; simpl; [by eexists|]. rewrite Hy, Hys. by eexists. Qed.

Section search.
Context (set : list Cand) (links : list LinkRtt) (dims : ModelDims) (n_ubatch n : Z).
Context (Hset : set_ok set) (Hlinks : links_ok links) (Hn : 1 ≤ n < 2 ^ 32).

Lemma price_ok fc variants order :
  length (fc_counts fc) = length set → valid_chain set order →
  ∃ x, price set links dims n_ubatch fc variants order = Ok x ∧
    v2_counts x = fc_counts fc ∧ v2_order x = order.
Proof using.
  intros Hl Hv. unfold price.
  destruct (map_res_total (hop_cost set links dims n_ubatch) (windows2 order)) as [hops ->].
  { eapply Forall_impl; [apply windows2_Forall, Hv|]. intros [a b] [Ha Hb]. simpl in Ha, Hb.
    unfold hop_cost. simpl. destruct (lookup_lt_is_Some_2 set a Ha) as [ca ->].
    destruct (lookup_lt_is_Some_2 set b Hb) as [cb ->]. by eexists. }
  cbn [mbind res_bind].
  assert (∀ st, ∃ st', fold_res (compute_step set dims (fc_counts fc)) st order = Ok st') as Hc.
  { induction Hv as [|i order Hi _ IH]; intros st; [by eexists|]. cbn [fold_res].
    assert (∃ st1, compute_step set dims (fc_counts fc) st i = Ok st1) as [st1 ->].
    { destruct st as [cursor ms]. unfold compute_step.
      destruct (lookup_lt_is_Some_2 (fc_counts fc) i ltac:(lia)) as [k ->].
      destruct (lookup_lt_is_Some_2 set i Hi) as [c ->]. by eexists. }
    cbn [mbind res_bind]. apply IH. }
  destruct (Hc (0, fzero)) as [[cursor ms] ->]. cbn [mbind res_bind]. by eexists.
Qed.

(** What has been considered so far: every candidate is in the list, the
    best one is one of them. *)
Definition candidate (variants : Z) (x : V2Eval) : Prop :=
  ∃ fc order, distributes set n (fc_counts fc) ∧ pinned set (fc_counts fc) order ∧
    price set links dims n_ubatch fc variants order = Ok x ∧
    v2_counts x = fc_counts fc ∧ v2_order x = order.

Definition seen_inv (variants : Z) (seen : list V2Eval) (st : Z * option V2Eval) : Prop :=
  Forall (candidate variants) seen ∧ st.1 = Z.of_nat (length seen) ∧
  st.2 = foldl consider None seen.

Lemma length_distributes counts : distributes set n counts → length counts = length set.
Proof using.
  intros [Hw _]. apply Forall2_length in Hw. unfold caps_of in Hw. by rewrite length_fmap in Hw.
Qed.

Lemma orders_loop fc variants orders seen st :
  distributes set n (fc_counts fc) → Forall (pinned set (fc_counts fc)) orders →
  seen_inv variants seen st →
  ∃ xs st', fold_res (order_step set links dims n_ubatch fc variants) st orders = Ok st' ∧
    seen_inv variants (seen ++ xs) st' ∧
    Forall2 (λ o x, price set links dims n_ubatch fc variants o = Ok x) orders xs.
Proof using Hset.
  intros Hd Ho. revert seen st. induction Ho as [|o orders Hp Ho IH]; intros seen st HI.
  { exists [], st. rewrite app_nil_r. done. }
  pose proof (length_distributes _ Hd) as Hl.
  destruct (price_ok fc variants o Hl) as (x & Hx & Hxc & Hxo); [by apply (pinned_valid set (fc_counts fc))|].
  assert (order_step set links dims n_ubatch fc variants st o = Ok (st.1 + 1, consider st.2 x)) as Hstep
    by (unfold order_step; by rewrite Hx).
  cbn [fold_res]. rewrite Hstep. cbn [mbind res_bind].
  destruct (IH (seen ++ [x]) (st.1 + 1, consider st.2 x)) as (xs & st' & H1 & H2 & H3).
  { destruct HI as (I1 & I2 & I3). split; [apply Forall_app; split; [done|]|split].
    - constructor; [|constructor]. by exists fc, o.
    - rewrite length_app. simpl. lia.
    - rewrite foldl_app, <- I3. done. }
  exists (x :: xs), st'. split; [done|]. split; [by rewrite cons_middle, app_assoc|by constructor].
Qed.

(** The candidates of a list of variants. *)
Definition covers (variants : Z) (fc : FamilyCandidate) (seen : list V2Eval) : Prop :=
  ∀ orders o x, enumerate_orders set (fc_counts fc) links = Ok orders → o ∈ orders →
    price set links dims n_ubatch fc variants o = Ok x → x ∈ seen.

Lemma variants_loop variants family seen st :
  Forall (λ fc, distributes set n (fc_counts fc)) family → seen_inv variants seen st →
  ∃ xs st', fold_res (variant_step set links dims n_ubatch variants) st family = Ok st' ∧
    seen_inv variants (seen ++ xs) st' ∧ (family ≠ [] → xs ≠ []) ∧
    Forall (λ fc, covers variants fc xs) family.
Proof using Hset Hlinks.
  intros Hf. revert seen st. induction Hf as [|fc family Hd Hf IH]; intros seen st HI.
  { exists [], st. rewrite app_nil_r. done. }
  destruct (enumerate_orders_ok set (fc_counts fc) links Hlinks (length_distributes _ Hd) (proj2 Hset))
    as (orders & Ho & Hne & Hpin & _).
  assert (variant_step set links dims n_ubatch variants st fc =
    fold_res (order_step set links dims n_ubatch fc variants) st orders) as Hstep
    by (unfold variant_step; by rewrite Ho).
  cbn [fold_res]. rewrite Hstep.
  destruct (orders_loop fc variants orders seen st Hd Hpin HI) as (xs & st1 & H1 & H2 & H3).
  rewrite H1. destruct (IH (seen ++ xs) st1 H2) as (ys & st2 & H4 & H5 & _ & H6).
  cbn [mbind res_bind]. exists (xs ++ ys), st2. split; [done|]. split; [by rewrite app_assoc|]. split.
  - intros _ He. apply app_nil in He as [-> _]. inversion H3; subst. done.
  - constructor.
    + intros os o x Hos Hin Hx. assert (os = orders) as -> by congruence.
      apply list_elem_of_lookup in Hin as [k Hk].
      destruct (Forall2_lookup_l _ _ _ _ _ H3 Hk) as (x' & Hk' & Hx').
      assert (x' = x) as -> by congruence. apply elem_of_app. left. by eapply list_elem_of_lookup_2.
    + eapply Forall_impl; [exact H6|]. intros fc' Hc os o x H7 H8 H9. apply elem_of_app. right. by eapply Hc.
Qed.

Lemma consider_elem b xs :
  ∃ x, foldl consider (Some b) xs = Some x ∧ x ∈ b :: xs.
Proof using.
  revert b. induction xs as [|x xs IH]; intros b; simpl; [exists b; split; [done|by left]|].
  destruct (v2_better x b).
  - destruct (IH x) as (y & -> & Hy). exists y. split; [done|]. by right.
  - destruct (IH b) as (y & -> & Hy). exists y. split; [done|].
    apply elem_of_cons in Hy as [->|Hy]; [by left|by right; right].
Qed.
End search.

(** The search: refuses exactly the sets that cannot hold the model; otherwise
    its result is one of the priced candidates. *)
Lemma search_v2_spec set links dims n_ubatch n :
  set_ok set → links_ok links → 1 ≤ n < 2 ^ 32 →
  ∃ family xs, family_counts set n = Ok family ∧
    Forall (λ fc, distributes set n (fc_counts fc)) family ∧
    Forall (candidate set links dims n_ubatch n (Z.of_nat (length family))) xs ∧
    Forall (λ fc, covers set links dims n_ubatch (Z.of_nat (length family)) fc xs) family ∧
    (search_v2 set links dims n_ubatch n = Ok None ∧ zsum (caps_of set) < n ∨
     ∃ b x, search_v2 set links dims n_ubatch n = Ok (Some b) ∧ foldl consider None xs = Some x ∧ x ∈ xs ∧
       v2_counts b = v2_counts x ∧ v2_order b = v2_order x ∧ v2_tpt b = v2_tpt x ∧
       v2_prefill_cost b = v2_prefill_cost x ∧ v2_considered b = Z.of_nat (length xs)).
Proof.
  intros Hset Hlinks Hn. destruct (family_counts_ok set n Hset Hn) as (family & Hfam & Hd & Hempty).
  set (variants := Z.of_nat (length family)).
  destruct (variants_loop set links dims n_ubatch n Hset Hlinks variants family [] (0, None) Hd)
    as (xs & [considered best] & Hloop & (I1 & I2 & I3) & Hne & Hcov); [by split|].
  rewrite app_nil_l in I1, I2, I3. simpl in I2, I3.
  exists family, xs. split; [done|]. split; [done|]. split; [done|]. split; [done|].
  unfold search_v2. rewrite Hfam. cbn [mbind res_bind]. fold variants. rewrite Hloop. cbn [mbind res_bind].
  destruct xs as [|x xs].
  - left. simpl in I3. subst. split; [done|]. apply Hempty.
    destruct family; [done|]. exfalso. by apply Hne.
  - right. simpl in I3. destruct (consider_elem x xs) as (y & Hy & Hin). rewrite Hy in I3. subst best.
    eexists _, y. split; [reflexivity|]. split; [exact Hy|]. done.
Qed.

#[global] Instance search_v2_judges n links dims n_ubatch :
  1 ≤ n < 2 ^ 32 → links_ok links →
  PlacementEval n (λ set, search_v2 set links dims n_ubatch n) v2_counts v2_order.
Proof.
  intros Hn Hlinks set Hset.
  destruct (search_v2_spec set links dims n_ubatch n Hset Hlinks Hn)
    as (family & xs & _ & _ & Hc & _ & [H|(b & x & Hb & _ & Hin & H1 & H2 & _)]); [by left|right].
  exists b. split; [done|]. rewrite H1, H2. rewrite list.Forall_forall in Hc.
  destruct (Hc x Hin) as (fc & order & [Hw Hs] & Hp & _ & -> & ->). done.
Qed.

(** ** The winner is minimal *)

(** The keys of a candidate are ordinary non-negative numbers. *)
Definition keyed (x : V2Eval) : Prop := nn (v2_tpt x) ∧ nn (v2_prefill_cost x).

(** Smaller predicted time per token, then smaller prefill cost. *)
Definition lex_le (x y : V2Eval) : Prop :=
  (fval (v2_tpt x) < fval (v2_tpt y))%Q ∨
  (fval (v2_tpt x) == fval (v2_tpt y))%Q ∧ (fval (v2_prefill_cost x) <= fval (v2_prefill_cost y))%Q.

Lemma feq_nn x y : nn x → nn y → feq x y = true ↔ (fval x == fval y)%Q.
Proof.
  intros Hx Hy. unfold feq. rewrite fcompare_nn by done. rewrite Qeq_alt.
  by destruct (fval x ?= fval y)%Q.
Qed.

Lemma v2_better_spec x y : keyed x → keyed y → if v2_better x y then lex_le x y else lex_le y x.
Proof.
  intros [Hx1 Hx2] [Hy1 Hy2]. unfold v2_better, lex_le.
  destruct (flt (v2_tpt x) (v2_tpt y)) eqn:E1; simpl.
  { left. by apply flt_nn. }
  assert (fval (v2_tpt y) <= fval (v2_tpt x))%Q as Hle.
  { apply Qnot_lt_le. intros H. apply flt_nn in H; [congruence|done..]. }
  destruct (feq (v2_tpt x) (v2_tpt y)) eqn:E2; simpl.
  - apply feq_nn in E2; [|done..]. destruct (flt (v2_prefill_cost x) (v2_prefill_cost y)) eqn:E3.
    + right. split; [done|]. apply flt_nn in E3; [lra|done..].
    + right. split; [lra|]. apply Qnot_lt_le. intros H. apply flt_nn in H; [congruence|done..].
  - left. apply Qle_lteq in Hle as [|Heq]; [done|]. exfalso.
    assert (feq (v2_tpt x) (v2_tpt y) = true) by (apply feq_nn; [done..|]; lra). congruence.
Qed.

Lemma lex_le_trans x y z : lex_le x y → lex_le y z → lex_le x z.
Proof. unfold lex_le. intros [|[? ?]] [|[? ?]]; [left; lra|left; lra|left; lra|right; split; lra]. Qed.
Lemma lex_le_refl x : lex_le x x.
Proof. right. split; [reflexivity|apply Qle_refl]. Qed.

Lemma consider_minimal b xs y :
  keyed b → Forall keyed xs → foldl consider (Some b) xs = Some y → Forall (lex_le y) (b :: xs).
Proof.
  revert b. induction xs as [|x xs IH]; intros b Hb Hxs Hy; simpl in Hy.
  { injection Hy as <-. constructor; [apply lex_le_refl|constructor]. }
  inversion Hxs as [|? ? Hx Hxs']; subst. pose proof (v2_better_spec x b Hx Hb) as Hbet.
  destruct (v2_better x b).
  - pose proof (IH x Hx Hxs' Hy) as Hall. inversion Hall as [|? ? Hyx Hrest]; subst.
    constructor; [by eapply lex_le_trans|done].
  - pose proof (IH b Hb Hxs' Hy) as Hall. inversion Hall as [|? ? Hyb Hrest]; subst.
    constructor; [done|]. constructor; [by eapply lex_le_trans|done].
Qed.

(** Links as the prober reports them: measured round trips, and bandwidths
    that are absent, not positive, or in range. *)
Definition bandwidths_ok (links : list LinkRtt) : Prop :=
  Forall (λ l, ∀ b, lr_bandwidth_mbps l = Some b → flt fzero b = true → rate_ok b) links.

(** A cost below 2^400. *)
Definition cost_ok (x : fl) : Prop := nn x ∧ (fval x <= p2 400)%Q.

Lemma fadd_cost x y : cost_ok x → cost_ok y → nn (fadd b64 x y).
Proof.
  intros [Hx Hx'] [Hy Hy']. apply fadd_nn; [done|done|].
  apply Qle_trans with (p2 400 + p2 400)%Q; [lra|]. discriminate.
Qed.

Lemma fsum_cost l : Forall score_ok l → Z.of_nat (length l) ≤ 2 ^ 20 → cost_ok (fsum b64 l).
Proof.
  intros Hl Hlen. destruct (fsum_inv l Hl Hlen) as (H1 & _ & H2 & _). split; [done|].
  eapply Qle_trans; [exact H2|]. apply Qle_trans with (p2 20 * p2 200)%Q.
  - apply Qmult_le_compat_r; [|apply Qlt_le_weak, p2_pos]. rewrite p2_Z by lia. by apply inject_le.
  - rewrite <- p2_add. by apply p2_le.
Qed.

(** Zero, or between two powers of two. *)
Definition zr (lo hi : Z) (x : fl) : Prop :=
  nn x ∧ ((fval x == 0)%Q ∨ (p2 lo <= fval x)%Q ∧ (fval x <= p2 hi)%Q).

Lemma zr_score x : zr (-200) 200 x ↔ score_ok x.
Proof. done. Qed.
Lemma zr_weaken lo hi lo' hi' x : lo' ≤ lo → hi ≤ hi' → zr lo hi x → zr lo' hi' x.
Proof.
  intros H1 H2 [Hx [Hz|[Hl Hh]]]; split; try done; [by left|right]. split.
  - eapply Qle_trans; [|exact Hl]. by apply p2_le.
  - eapply Qle_trans; [exact Hh|]. by apply p2_le.
Qed.
Lemma zr_rate d : rate_ok d → zr (-100) 100 d ∧ (p2 (-100) <= fval d)%Q.
Proof. intros (H1 & H2 & H3). split; [split; [done|by right]|done]. Qed.

Lemma zr_mul a b c d x y :
  zr a b x → zr c d y → -1022 ≤ a + c → b + d ≤ 1023 → zr (a + c) (b + d) (fmul b64 x y).
Proof.
  intros [Hx Hxv] [Hy Hyv] Hlo Hhi. pose proof (nn_fval x Hx). pose proof (nn_fval y Hy).
  assert ((fval x * fval y == 0)%Q ∨ (p2 (a + c) <= fval x * fval y)%Q ∧ (fval x * fval y <= p2 (b + d))%Q) as Hp.
  { destruct Hxv as [Hz|[H1 H2]]; [left; rewrite Hz; lra|].
    destruct Hyv as [Hz|[H3 H4]]; [left; rewrite Hz; lra|right]. rewrite !p2_add.
    pose proof (p2_pos a). pose proof (p2_pos c). pose proof (p2_pos b). pose proof (p2_pos d). split.
    - apply Qle_trans with (p2 a * fval y)%Q; [nra|]. apply Qmult_le_compat_r; lra.
    - apply Qle_trans with (p2 b * fval y)%Q; [apply Qmult_le_compat_r; lra|nra]. }
  destruct (fmul_nn x y Hx Hy) as [Hf Hr].
  { destruct Hp as [Hz|[_ Hle]]; [rewrite Hz; apply Qlt_le_weak, p2_pos|].
    eapply Qle_trans; [exact Hle|]. by apply p2_le. }
  split; [done|]. destruct Hp as [Hz|[Hl Hh]]; [left; by apply (rnd_zero _ _ Hr)|right]. split.
  - apply (rnd_ge _ _ Hr); [apply repr_p2; lia|done].
  - destruct (Z.le_gt_cases (-1074) (b + d)) as [Hb|Hb].
    + apply (rnd_le _ _ Hr); [by apply repr_p2|done].
    + exfalso. pose proof (p2_lt (b + d) (a + c) ltac:(lia)). lra.
Qed.

Lemma zr_div a b c d x y :
  zr a b x → zr c d y → (p2 c <= fval y)%Q → -1022 ≤ a - d → b - c ≤ 1023 → zr (a - d) (b - c) (fdiv b64 x y).
Proof.
  intros [Hx Hxv] [Hy Hyv] Hyc Hlo Hhi. pose proof (nn_fval x Hx). pose proof (p2_pos c).
  assert (fval y <= p2 d)%Q as Hyd by (destruct Hyv as [Hz|[_ ?]]; [exfalso; lra|done]).
  assert (0 < fval y)%Q as Hy0 by lra.
  assert ((fval x / fval y == 0)%Q ∨ (p2 (a - d) <= fval x / fval y)%Q ∧ (fval x / fval y <= p2 (b - c))%Q) as Hp.
  { destruct Hxv as [Hz|[H1 H2]]; [left; rewrite Hz; field; lra|right]. split.
    - apply Qdiv_ge_l; [done|]. eapply Qle_trans; [|exact H1].
      apply Qle_trans with (p2 (a - d) * p2 d)%Q; [pose proof (p2_pos (a - d)); nra|].
      rewrite <- p2_add. replace (a - d + d) with a by lia. apply Qle_refl.
    - apply Qdiv_le_l; [done|]. eapply Qle_trans; [exact H2|].
      apply Qle_trans with (p2 (b - c) * p2 c)%Q; [|pose proof (p2_pos (b - c)); nra].
      rewrite <- p2_add. replace (b - c + c) with b by lia. apply Qle_refl. }
  destruct (fdiv_nn x y Hx Hy Hy0) as [Hf Hr].
  { destruct Hp as [Hz|[_ Hle]]; [rewrite Hz; apply Qlt_le_weak, p2_pos|].
    eapply Qle_trans; [exact Hle|]. by apply p2_le. }
  split; [done|]. destruct Hp as [Hz|[Hl Hh]]; [left; by apply (rnd_zero _ _ Hr)|right]. split.
  - apply (rnd_ge _ _ Hr); [apply repr_p2; lia|done].
  - destruct (Z.le_gt_cases (-1074) (b - c)) as [Hb|Hb].
    + apply (rnd_le _ _ Hr); [by apply repr_p2|done].
    + exfalso. pose proof (p2_lt (b - c) (a - d) ltac:(lia)). lra.
Qed.

Lemma zr_of_Z n k : 0 ≤ k ≤ 64 → 0 ≤ n < 2 ^ k → zr 0 k (of_Z b64 n).
Proof.
  intros Hk Hn. assert (2 ^ k ≤ 2 ^ 64) as Hk64 by (apply Z.pow_le_mono_r; lia).
  destruct (of_Z_bounds n ltac:(lia)) as (H1 & H2 & _). split; [done|].
  destruct H2 as [[_ Hz]|Hge]; [by left|right]. split; [done|].
  destruct (of_Z_nn n ltac:(lia)) as [_ Hr]. apply (rnd_le _ _ Hr); [apply repr_p2; lia|].
  rewrite p2_Z by lia. apply inject_le. lia.
Qed.

Lemma zr_f1000 : zr 9 10 f1000 ∧ (p2 9 <= fval f1000)%Q.
Proof.
  split; [|by vm_compute]. split; [vm_compute; repeat split; discriminate|]. right. split; by vm_compute.
Qed.

Lemma transfer_ok n_embd n_ubatch bw :
  0 ≤ n_embd < 2 ^ 64 → 0 ≤ n_ubatch < 2 ^ 32 → rate_ok bw → score_ok (boundary_transfer_ms n_embd n_ubatch bw).
Proof.
  intros He Hu Hbw. destruct (zr_rate bw Hbw) as [Hz Hl]. unfold boundary_transfer_ms.
  destruct (fle bw fzero); [split; [simpl; lia|left; reflexivity]|].
  assert (0 ≤ effective_n_ubatch n_ubatch < 2 ^ 32) as Hu'
    by (unfold effective_n_ubatch, DEFAULT_N_UBATCH; case_match; lia).
  destruct zr_f1000 as [H10 H10'].
  assert (zr 0 3 (of_Z b64 4)) as H4 by (apply zr_of_Z; lia).
  assert (zr 0 4 (of_Z b64 8)) as H8 by (apply zr_of_Z; lia).
  pose proof (zr_mul _ _ _ _ _ _ H4 (zr_of_Z n_embd 64 ltac:(lia) He) ltac:(lia) ltac:(lia)) as Hb1.
  pose proof (zr_mul _ _ _ _ _ _ Hb1 (zr_of_Z _ 32 ltac:(lia) Hu') ltac:(lia) ltac:(lia)) as Hb2.
  pose proof (zr_mul _ _ _ _ _ _ Hb2 H8 ltac:(lia) ltac:(lia)) as Hb3.
  pose proof (zr_mul _ _ _ _ _ _ Hz H10 ltac:(lia) ltac:(lia)) as Hd.
  assert (p2 (-100 + 9) <= fval (fmul b64 bw f1000))%Q as Hdl.
  { destruct Hd as [_ [Hdz|[? _]]]; [exfalso|done].
    destruct (fmul_nn bw f1000 (proj1 Hz) (proj1 H10)) as [_ Hr].
    { destruct Hbw as (_ & _ & Hh). destruct H10 as [_ [Hz1|[_ Hh']]].
      - pose proof (p2_pos 9). exfalso. lra.
      - apply Qle_trans with (p2 100 * p2 10)%Q; [|rewrite <- p2_add; by apply p2_le].
        pose proof (p2_pos 9). pose proof (p2_pos 100). pose proof (p2_pos (-100)).
        apply Qle_trans with (p2 100 * fval f1000)%Q; [apply Qmult_le_compat_r; lra|nra]. }
    assert (p2 (-91) <= fval (fmul b64 bw f1000))%Q as Hge.
    { apply (rnd_ge _ _ Hr); [by apply repr_p2|]. change (-91) with (-100 + 9). rewrite p2_add.
      pose proof (p2_pos 9). pose proof (p2_pos (-100)).
      apply Qle_trans with (p2 (-100) * fval f1000)%Q; [nra|]. apply Qmult_le_compat_r; lra. }
    pose proof (p2_pos (-91)). lra. }
  pose proof (zr_div _ _ _ _ _ _ Hb3 Hd Hdl ltac:(lia) ltac:(lia)) as Hq.
  apply zr_score. eapply zr_weaken; [| |exact Hq]; lia.
Qed.

Section keys.
Context (set : list Cand) (links : list LinkRtt) (dims : ModelDims) (n_ubatch n : Z).
Context (Hset : set_ok set) (Hlinks : links_ok links) (Hbw : bandwidths_ok links).
Context (Hdims : dims_ok dims) (Hw53 : Forall (λ w, w < 2 ^ 53) (md_weights dims)).
Context (Hub : 0 ≤ n_ubatch < 2 ^ 32) (Hn : 1 ≤ n ≤ 2 ^ 20).

Lemma fraction_ok layer : score_ok (active_compute_fraction dims layer).
Proof using Hdims Hw53.
  destruct (md_weights dims !! layer) as [w|] eqn:E.
  - assert (w < 2 ^ 53) as Hw by (by eapply Forall_lookup_1 in Hw53; eauto).
    destruct (active_compute_fraction_bounds dims layer w Hdims E Hw) as (H1 & H2 & H3 & _).
    split; [done|right]. split.
    + eapply Qle_trans; [|exact H2]. by apply p2_le.
    + eapply Qle_trans; [exact H3|]. discriminate.
  - unfold active_compute_fraction. rewrite E. simpl. destruct (negb _); [apply score_ok_one|].
    apply score_ok_one.
Qed.

Lemma units_ok start stop :
  0 ≤ start → stop - start ≤ 2 ^ 20 → zr (-200) 220 (active_compute_units dims start stop).
Proof using Hdims Hw53.
  intros Hs Hspan. unfold active_compute_units. set (span := sat_sub stop start).
  assert (0 ≤ span ≤ 2 ^ 20) as Hsp by (unfold span, sat_sub; lia).
  destruct (negb (moe_scaled dims)).
  { eapply zr_weaken; [| |apply (zr_of_Z span 21)]; lia. }
  set (l := active_compute_fraction dims <$> _).
  assert (Forall score_ok l) as Hl.
  { unfold l. apply Forall_fmap, Forall_true. intros i. apply fraction_ok. }
  assert (Z.of_nat (length l) ≤ 2 ^ 20) as Hlen by (unfold l; rewrite length_fmap, length_seq; lia).
  destruct (fsum_inv l Hl Hlen) as (H1 & H2 & H3 & _). split; [done|].
  destruct H2 as [[Hz _]|Hge]; [by left|right]. split; [done|].
  eapply Qle_trans; [exact H3|]. apply Qle_trans with (p2 20 * p2 200)%Q.
  - apply Qmult_le_compat_r; [|apply Qlt_le_weak, p2_pos]. rewrite p2_Z by lia. by apply inject_le.
  - rewrite <- p2_add. apply Qle_refl.
Qed.

Lemma stage_cost_ok units tps :
  zr (-200) 220 units → rate_ok tps → cost_ok (fmul b64 (fdiv b64 units tps) f1000).
Proof using.
  intros Hu Ht. destruct (zr_rate tps Ht) as [Hz Hl]. destruct zr_f1000 as [H10 _].
  pose proof (zr_div _ _ _ _ _ _ Hu Hz Hl ltac:(lia) ltac:(lia)) as Hq.
  pose proof (zr_mul _ _ _ _ _ _ Hq H10 ltac:(lia) ltac:(lia)) as [Hm Hv].
  split; [done|]. destruct Hv as [Hz0|[_ Hh]]; [rewrite Hz0; apply Qlt_le_weak, p2_pos|].
  eapply Qle_trans; [exact Hh|]. by apply p2_le.
Qed.

Lemma compute_fold_ok counts order cursor ms st' :
  Forall (λ c, 0 ≤ c ≤ 2 ^ 20) counts → 0 ≤ cursor → cost_ok ms →
  fold_res (compute_step set dims counts) (cursor, ms) order = Ok st' → cost_ok st'.2.
Proof using Hset Hdims Hw53.
  intros Hc. revert cursor ms. induction order as [|i order IH]; intros cursor ms Hcur Hms H; simpl in H.
  { by injection H as <-. }
  destruct (counts !! i) as [k|] eqn:Ek; [|done]. destruct (set !! i) as [c|] eqn:Ec; [|done].
  cbn [expect mbind res_bind] in H.
  assert (0 ≤ k ≤ 2 ^ 20) as Hk by (by eapply Forall_lookup_1 in Hc; eauto).
  assert (0 ≤ u32_add cursor k ≤ cursor + k) as Hstop.
  { unfold u32_add, wrap32. split; [apply Z.mod_pos_bound; lia|apply Z.mod_le; lia]. }
  eapply IH; [|  |exact H]; [lia|].
  destruct (cd_tpt_decode c) as [tps|] eqn:Et; [|done].
  assert (rate_ok tps) as Ht.
  { destruct Hset as [Hs _]. eapply Forall_lookup_1 in Hs; [|exact Ec]. by apply (co_tpt_decode c Hs). }
  pose proof (stage_cost_ok (active_compute_units dims cursor (u32_add cursor k)) tps
    ltac:(apply units_ok; lia) Ht) as Hst.
  destruct (fmax_nn ms _ (proj1 Hms) (proj1 Hst)) as [[-> _]|[-> _]]; done.
Qed.

Lemma hop_cost_ok w hop : hop_cost set links dims n_ubatch w = Ok hop → score_ok hop.1 ∧ score_ok hop.2.
Proof using Hlinks Hbw Hdims Hub.
  unfold hop_cost. intros H. res_inv. simpl. split; [by apply link_rtt_ok|].
  destruct (link_bandwidth _ _ _) as [bw|] eqn:E; [|split; [simpl; lia|left; reflexivity]].
  apply transfer_ok; [apply (dims_embd dims Hdims)|done|].
  unfold link_bandwidth in E. destruct (find_first _ links) as [l|] eqn:El; simpl in E; [|done].
  destruct (lr_bandwidth_mbps l) as [b|] eqn:Eb; [|done]. destruct (flt fzero b) eqn:Ef; [|done].
  injection E as <-. apply find_first_Some in El as [Hin _].
  unfold bandwidths_ok in Hbw. rewrite list.Forall_forall in Hbw. by apply (Hbw l Hin).
Qed.

(** Every priced candidate has ordinary keys. *)
Lemma price_keyed fc variants order x :
  Forall (λ c, 0 ≤ c ≤ 2 ^ 20) (fc_counts fc) → Z.of_nat (length order) ≤ 2 ^ 20 →
  price set links dims n_ubatch fc variants order = Ok x → keyed x.
Proof using Hset Hlinks Hbw Hdims Hw53 Hub.
  intros Hc Hlen H. unfold price in H.
  destruct (map_res _ _) as [hops| |] eqn:Eh; [|done..]. cbn [mbind res_bind] in H.
  destruct (fold_res _ _ order) as [[cu ms]| |] eqn:Ef; [|done..]. cbn [mbind res_bind] in H.
  injection H as <-. pose proof (map_res_length _ _ _ Eh) as Hl. rewrite length_windows2 in Hl.
  apply map_res_Forall2 in Eh.
  assert (Forall (λ h, score_ok h.1 ∧ score_ok h.2) hops) as Hh.
  { clear -Eh Hlinks Hbw Hdims Hub. induction Eh as [|w h ws hs Hw _ IH]; constructor; [by eapply hop_cost_ok|done]. }
  assert (cost_ok (fsum b64 hops.*1)) as H1.
  { apply fsum_cost; [|rewrite length_fmap; lia]. apply Forall_fmap. eapply Forall_impl; [exact Hh|]. naive_solver. }
  assert (cost_ok (fsum b64 hops.*2)) as H2.
  { apply fsum_cost; [|rewrite length_fmap; lia]. apply Forall_fmap. eapply Forall_impl; [exact Hh|]. naive_solver. }
  assert (cost_ok ms) as H3.
  { apply (compute_fold_ok (fc_counts fc) order 0 fzero (cu, ms)); [done|lia| |done].
    split; [simpl; lia|]. by vm_compute. }
  split; simpl; by apply fadd_cost.
Qed.

Lemma candidate_keyed variants x : candidate set links dims n_ubatch n variants x → keyed x.
Proof using Hset Hlinks Hbw Hdims Hw53 Hub Hn.
  intros (fc & o & [Hw Hs] & [Hp _] & Hx & _).
  assert (Forall (λ c, 0 ≤ c) (fc_counts fc)) as Hnn.
  { clear -Hw. induction Hw; constructor; [lia|done]. }
  eapply price_keyed; [| |exact Hx].
  - rewrite list.Forall_forall. intros c Hc. split; [rewrite list.Forall_forall in Hnn; by apply Hnn|].
    etransitivity; [apply zsum_elem_le; [exact Hnn|exact Hc]|]. lia.
  - rewrite (Permutation_length Hp). destruct Hset as [_ Hsz].
    assert (length (active set (fc_counts fc)) ≤ length set)%nat; [|lia].
    unfold active. rewrite <- (length_seq (length set) 0) at 2. apply length_filter.
Qed.
End keys.

(** C30: the v2 search returns a minimum.  On measured links and rates, when
    the search returns a placement it is complete, and no member of the tilt
    family with any of its stage orders has a smaller predicted time per token,
    or the same one with a smaller prefill cost. *)
Theorem search_v2_minimal set links dims n_ubatch n b :
  set_ok set → links_ok links → bandwidths_ok links → dims_ok dims →
  Forall (λ w, w < 2 ^ 53) (md_weights dims) → 0 ≤ n_ubatch < 2 ^ 32 → 1 ≤ n ≤ 2 ^ 20 →
  search_v2 set links dims n_ubatch n = Ok (Some b) →
  arrangement set n (v2_counts b) (v2_order b) ∧
  ∃ family, family_counts set n = Ok family ∧
    ∀ fc orders order x, fc ∈ family → enumerate_orders set (fc_counts fc) links = Ok orders →
      order ∈ orders →
      price set links dims n_ubatch fc (Z.of_nat (length family)) order = Ok x → lex_le b x.
Proof.
  intros Hset Hlinks Hbw Hdims Hw53 Hub Hn Hb. assert (1 ≤ n < 2 ^ 32) as Hn' by lia.
  destruct (search_v2_spec set links dims n_ubatch n Hset Hlinks Hn')
    as (family & xs & Hfam & Hd & Hc & Hcov & [[H _]|(b' & y & Hb' & Hfold & Hin & H1 & H2 & H3 & H4 & _)]);
    [congruence|]. assert (b' = b) as -> by congruence.
  pose proof Hc as Hc'. rewrite list.Forall_forall in Hc'. split.
  { rewrite H1, H2. destruct (Hc' y Hin) as (fc & order & [Hw Hs] & Hp & _ & -> & ->). done. }
  exists family. split; [done|]. intros fc orders order x Hfc Ho Hor Hx.
  rewrite list.Forall_forall in Hcov. pose proof (Hcov fc Hfc orders order x Ho Hor Hx) as Hxin.
  assert (Forall keyed xs) as Hk by (eapply Forall_impl; [exact Hc|]; intros z; by apply candidate_keyed).
  destruct xs as [|x0 xs]; [by apply not_elem_of_nil in Hin|]. apply Forall_cons in Hk as [Hk0 Hks].
  simpl in Hfold. pose proof (consider_minimal x0 xs y Hk0 Hks Hfold) as Hmin.
  rewrite list.Forall_forall in Hmin. specialize (Hmin x Hxin).
  unfold lex_le in *. rewrite H3, H4. exact Hmin.
Qed.

(** ** Comparison with v1 *)
Lemma family_fold_mem set n slowest vs out out' :
  fold_res (family_step set n slowest) out vs = Ok out' →
  (∀ fc, fc ∈ out → fc ∈ out') ∧
  ∀ t counts quotas, (false, t) ∈ vs →
    apportion (tilt_score t <$> set) (caps_of set) n = Ok (Some (counts, quotas)) →
    MkFamily t false counts ∈ out'.
Proof.
  revert out. induction vs as [|[u t] vs IH]; intros out H; cbn [fold_res] in H.
  { injection H as <-. split; [done|]. intros t counts quotas Hin. by apply not_elem_of_nil in Hin. }
  destruct (family_step set n slowest out (u, t)) as [o1| |] eqn:E; [|done..]. cbn [mbind res_bind] in H.
  destruct (IH o1 H) as [H1 H2].
  assert (∀ fc, fc ∈ out → fc ∈ o1) as Hmono.
  { intros fc Hfc. unfold family_step in E. destruct (apportion _ _ _) as [[[c q]|]| |]; try discriminate E;
      cbn [mbind res_bind] in E; [|by injection E as <-].
    destruct u; [|injection E as <-; apply elem_of_app; by left].
    destruct (underweight _ _ _ _ _) as [o| |]; [|done..]. cbn [mbind res_bind] in E. injection E as <-.
    destruct o; [apply elem_of_app; by left|done]. }
  split; [intros fc Hfc; by apply H1, Hmono|].
  intros t' counts quotas Hin Hap. apply elem_of_cons in Hin as [Heq|Hin]; [|by eapply H2].
  injection Heq as <- <-. apply H1. unfold family_step in E. fold (caps_of set) in E. rewrite Hap in E.
  cbn [mbind res_bind] in E. injection E as <-. apply elem_of_app. right. by left.
Qed.

Lemma hop_cost_rtt set links dims n_ubatch a b h :
  hop_cost set links dims n_ubatch (a, b) = Ok h → hop_rtt set links a b = Ok h.1.
Proof.
  unfold hop_cost, hop_rtt. cbn [fst snd]. destruct (set !! a), (set !! b); cbn [expect mbind res_bind];
    intros H; try discriminate H. by injection H as <-.
Qed.

Lemma hops_rtts set links dims n_ubatch ws hops :
  map_res (hop_cost set links dims n_ubatch) ws = Ok hops →
  map_res (λ '(a, b), hop_rtt set links a b) ws = Ok hops.*1.
Proof.
  revert hops. induction ws as [|[a b] ws IH]; intros hops H; cbn [map_res] in *.
  { by injection H as <-. }
  destruct (hop_cost _ _ _ _ _) as [h| |] eqn:Eh; try discriminate H. cbn [mbind res_bind] in H.
  destruct (map_res _ ws) as [hs| |] eqn:E; try discriminate H. cbn [mbind res_bind] in H. injection H as <-.
  by rewrite (hop_cost_rtt _ _ _ _ _ _ _ Eh), (IH hs eq_refl).
Qed.

Lemma order_stages_rtts set counts links order rtts :
  order_stages set counts links = Ok (order, rtts) → chain_rtts set links order = Ok rtts.
Proof.
  unfold order_stages. intros H.
  destruct (active_of _ _) as [active| |]; try discriminate H. cbn [mbind res_bind] in H.
  destruct (Nat.leb_spec (length active) 1) as [H1|_].
  { injection H as <- <-. by destruct active as [|? [|]]; [..|simpl in H1; lia]. }
  destruct (if (_ <=? EXACT_ORDER_MAX_NODES)%nat then _ else _) as [chain| |]; try discriminate H.
  cbn [mbind res_bind] in H. destruct (chain_rtts set links chain) as [r| |] eqn:E; try discriminate H.
  cbn [mbind res_bind] in H. by injection H as <- <-.
Qed.

Lemma fmax_zero_r x : nn x → fmax x fzero = x.
Proof.
  intros Hx. assert (nn fzero) as Hz by (simpl; lia).
  assert (fmax x fzero = if flt x fzero then fzero else x) as -> by (by destruct x).
  destruct (flt x fzero) eqn:E; [|done]. apply flt_nn in E; [|done..].
  rewrite fval_fzero in E. pose proof (nn_fval x Hx). lra.
Qed.

(** For a dense model the v2 stage costs are the v1 stage costs. *)
Lemma compute_fold_dense set dims counts order cursor ms st' stages :
  set_ok set → moe_scaled dims = false →
  Forall (λ i, 0 ≤ default 0 (counts !! i)) order →
  0 ≤ cursor → cursor + zsum ((λ i, default 0 (counts !! i)) <$> order) ≤ 2 ^ 20 → cost_ok ms →
  map_res (stage_ms set counts) order = Ok stages →
  fold_res (compute_step set dims counts) (cursor, ms) order = Ok st' →
  st'.2 = foldl fmax ms stages.
Proof.
  intros Hset Hmoe Hnn. revert cursor ms stages.
  induction Hnn as [|i order Hi Hnn IH]; intros cursor ms stages Hcur Hsum Hms Hst Hf.
  { simpl in *. injection Hst as <-. by injection Hf as <-. }
  rewrite fmap_cons in Hsum. cbn [zsum] in Hsum. cbn [map_res] in Hst. cbn [fold_res] in Hf.
  destruct (stage_ms set counts i) as [s| |] eqn:Em; try discriminate Hst. cbn [mbind res_bind] in Hst.
  destruct (map_res (stage_ms set counts) order) as [ss| |] eqn:Ems; try discriminate Hst.
  cbn [mbind res_bind] in Hst. injection Hst as <-.
  unfold stage_ms in Em.
  destruct (compute_step set dims counts (cursor, ms) i) as [st1| |] eqn:Ec1; try discriminate Hf.
  cbn [mbind res_bind] in Hf. unfold compute_step in Ec1.
  destruct (counts !! i) as [k|] eqn:Ek; [|by destruct (set !! i)].
  destruct (set !! i) as [c|] eqn:Ec; [|discriminate Em]. cbn [expect mbind res_bind] in Em, Ec1.
  injection Em as <-. injection Ec1 as <-.
  assert (0 ≤ zsum ((λ i, default 0 (counts !! i)) <$> order)) as Hz
    by (apply zsum_nonneg, Forall_fmap; exact Hnn).
  simpl in Hi, Hsum.
  assert (u32_add cursor k = cursor + k) as Hadd by (apply wrap32_small; unfold in_u32; lia).
  rewrite ?Hadd in Hf.
  assert (active_compute_units dims cursor (cursor + k) = of_Z b64 k) as Hu.
  { unfold active_compute_units. rewrite Hmoe. simpl. f_equal. unfold sat_sub. lia. }
  rewrite Hu in Hf. simpl foldl. apply (IH (cursor + k)); [lia|lia| |reflexivity|].
  2: { destruct (cd_tpt_decode c); [exact Hf|]. rewrite fmax_zero_r by apply Hms. exact Hf. }
  destruct (cd_tpt_decode c) as [tps|] eqn:Et; [|by rewrite fmax_zero_r by apply Hms].
  assert (rate_ok tps) as Ht.
  { destruct Hset as [Hs _]. eapply Forall_lookup_1 in Hs; [|exact Ec]. by apply (co_tpt_decode c Hs). }
  assert (zr (-200) 220 (of_Z b64 k)) as Hzk by (eapply zr_weaken; [| |apply (zr_of_Z k 21)]; lia).
  pose proof (stage_cost_ok (of_Z b64 k) tps Hzk Ht) as Hsc.
  destruct (fmax_nn ms _ (proj1 Hms) (proj1 Hsc)) as [[-> _]|[-> _]]; done.
Qed.

(** Hence v2 prices the v1 placement as v1 does. *)
Lemma dense_price set links dims n_ubatch n counts order rtts stages variants x :
  set_ok set → moe_scaled dims = false → n ≤ 2 ^ 20 → arrangement set n counts order →
  chain_rtts set links order = Ok rtts → map_res (stage_ms set counts) order = Ok stages →
  price set links dims n_ubatch (MkFamily Hybrid false counts) variants order = Ok x →
  v2_tpt x = fadd b64 (foldl fmax fzero stages) (fsum b64 rtts).
Proof.
  intros Hset Hmoe Hn Harr Hr Hs Hx. unfold price in Hx.
  destruct (map_res (hop_cost _ _ _ _) _) as [hops| |] eqn:Eh; try discriminate Hx. cbn [mbind res_bind] in Hx.
  destruct (fold_res _ _ order) as [[cu ms]| |] eqn:Ef; try discriminate Hx. cbn [mbind res_bind] in Hx.
  cbn beta iota in Hx. injection Hx as <-. simpl v2_tpt. apply hops_rtts in Eh. unfold chain_rtts in Hr.
  assert (hops.*1 = rtts) as -> by congruence. f_equal.
  apply (compute_fold_dense set dims counts order 0 fzero (cu, ms) stages); try done.
  - apply list.Forall_forall. intros i _. apply (count_at_nonneg set n counts order Harr).
  - pose proof (order_total set n counts order Harr) as Ht. unfold count_at in Ht. lia.
Qed.

(** C32: v2 never predicts worse than v1.  On the same participants, for a
    dense model of at most 2^20 layers and at most eight nodes holding layers,
    the placement found by the v2 search has a predicted time per token no
    larger than the one the v1 evaluation assigns to its own placement. *)
Theorem v2_no_worse_than_v1 set links dims n_ubatch n e b :
  set_ok set → links_ok links → bandwidths_ok links → dims_ok dims → moe_scaled dims = false →
  Forall (λ w, w < 2 ^ 53) (md_weights dims) → 0 ≤ n_ubatch < 2 ^ 32 → 1 ≤ n ≤ 2 ^ 20 →
  evaluate set n links = Ok (Some e) → (length (ev_order e) ≤ EXACT_ORDER_MAX_NODES)%nat →
  search_v2 set links dims n_ubatch n = Ok (Some b) →
  (fval (v2_tpt b) <= fval (ev_tpt e))%Q.
Proof.
  intros Hset Hlinks Hbw Hdims Hmoe Hw53 Hub Hn He Hlen Hb. assert (1 ≤ n < 2 ^ 32) as Hn' by lia.
  destruct (search_v2_spec set links dims n_ubatch n Hset Hlinks Hn')
    as (family & xs & Hfam & Hd & Hc & Hcov & [[H _]|(b' & y & Hb' & Hfold & Hin & _ & _ & H3 & H4 & _)]);
    [congruence|]. assert (b' = b) as -> by congruence.
  (* the v1 placement is a candidate *)
  unfold evaluate, apportion_v1 in He. fold (caps_of set) in He.
  destruct (apportion (hybrid_score <$> set) (caps_of set) n) as [[[counts quotas]|]| |] eqn:Ha; try discriminate He.
  cbn [mbind res_bind option_map fst] in He.
  destruct (order_stages set counts links) as [[order rtts]| |] eqn:Eo; try discriminate He.
  cbn [mbind res_bind] in He.
  destruct (map_res (stage_ms set counts) order) as [stages| |] eqn:Es; try discriminate He.
  cbn [mbind res_bind] in He. injection He as <-. simpl in Hlen. simpl ev_tpt.
  assert (MkFamily Hybrid false counts ∈ family) as Hmem.
  { unfold family_counts in Hfam. destruct (slowest_of set) as [s| |]; try discriminate Hfam.
    cbn [mbind res_bind] in Hfam. destruct (family_fold_mem _ _ _ _ _ _ Hfam) as [_ Hm].
    apply (Hm Hybrid counts quotas); [|exact Ha]. right. by left. }
  pose proof Hd as Hd'. rewrite list.Forall_forall in Hd'. pose proof (Hd' _ Hmem) as [Hw Hsum]. simpl in Hw, Hsum.
  pose proof (length_distributes set n counts (conj Hw Hsum)) as Hlc.
  destruct (order_stages_spec set counts links Hlinks Hlc ltac:(destruct Hset; lia)) as (o' & r' & Eo' & Hpin & _).
  assert (o' = order ∧ r' = rtts) as [-> ->] by (split; congruence).
  destruct (enumerate_orders_ok set counts links Hlinks Hlc (proj2 Hset)) as (orders & Hos & _ & _ & Hall).
  assert (order ∈ orders) as Hoin by (apply Hall; [by rewrite <- (pinned_length _ _ _ Hpin)|done]).
  destruct (price_ok set links dims n_ubatch (MkFamily Hybrid false counts) (Z.of_nat (length family)) order Hlc)
    as (x & Hx & _); [by apply (pinned_valid set counts)|].
  rewrite list.Forall_forall in Hcov. pose proof (Hcov _ Hmem orders order x Hos Hoin Hx) as Hxin.
  assert (Forall keyed xs) as Hk by (eapply Forall_impl; [exact Hc|]; intros z; by apply candidate_keyed).
  destruct xs as [|x0 xs]; [by apply not_elem_of_nil in Hin|]. apply Forall_cons in Hk as [Hk0 Hks].
  simpl in Hfold. pose proof (consider_minimal x0 xs y Hk0 Hks Hfold) as Hmin.
  rewrite list.Forall_forall in Hmin. specialize (Hmin x Hxin).
  rewrite <- (dense_price set links dims n_ubatch n counts order rtts stages (Z.of_nat (length family)) x); try done; [|lia|..].
  - rewrite H3. destruct Hmin as [?|[? _]]; lra.
  - by apply order_stages_rtts in Eo.
Qed.
