(* ===== verification/PlanV2Sound.v ===== *)
(** * Plans of the v2 planner

    [plan_v2] never fails on measured inputs, its plans are complete, and each
    stage of a distributed plan fits the node's budget after the fixed reserve
    and the pipeline copies of the activations are set aside. *)

From Stdlib Require Import ZArith Lia QArith Qabs Qround Lqa Sorted Permutation.
From stdpp Require Import base list strings.
From S2P Require Import Prelude Float FloatFacts Proto SchedLib Dims SchedV1 Apportion StageOrder.
From S2P Require Import PlanCore SchedV2 PlanV1 PlanV2.

Open Scope Z_scope.

Definition ubatch_of (r : PlanRequest) : Z := effective_n_ubatch (pr_n_ubatch r).
Definition budget_v2 (r : PlanRequest) (usable : Z) : Z :=
  node_budget_v2 usable (md_n_embd (pr_dims r)) (ubatch_of r).
Definition cands_v2 (r : PlanRequest) : list Cand :=
  build_cands (pr_workers r ++ [pr_head r]) (per_layer_cost (pr_dims r) (pr_ctx_len r)) (budget_v2 r).

Lemma u64_sat_add_nonneg a b : 0 ≤ a → 0 ≤ b → 0 ≤ u64_sat_add a b.
Proof. unfold u64_sat_add, u64_max. lia. Qed.
Lemma u64_sat_mul_nonneg a b : 0 ≤ a → 0 ≤ b → 0 ≤ u64_sat_mul a b.
Proof. unfold u64_sat_mul, u64_max. nia. Qed.

(** Measured inputs of [plan_v2]. *)
Definition request_v2_ok (r : PlanRequest) : Prop := request_ok r ∧ 0 ≤ pr_n_ubatch r.

Section plan_v2.
Context (r : PlanRequest) (Hr : request_ok r) (Hub : 0 ≤ pr_n_ubatch r).
Let n := md_n_layers (pr_dims r).
Let cands := cands_v2 r.
Let search := λ set, search_v2 set (pr_links r) (pr_dims r) (ubatch_of r) n.

Lemma copies_nonneg :
  0 ≤ u64_sat_add OVERHEAD_RESERVE_BYTES
        (pipeline_copies (md_n_embd (pr_dims r)) (effective_n_ubatch (ubatch_of r))).
Proof using Hr Hub.
  pose proof (dims_embd _ (rq_dims r Hr)) as He. unfold in_u64 in He. apply u64_sat_add_nonneg; [done|].
  unfold pipeline_copies. repeat apply u64_sat_mul_nonneg; try lia.
  unfold ubatch_of, effective_n_ubatch, DEFAULT_N_UBATCH. repeat case_match; lia.
Qed.

Lemma budget_v2_range m : in_u64 m → 0 ≤ budget_v2 r m < 2 ^ 64.
Proof using Hr Hub.
  pose proof copies_nonneg. unfold in_u64, budget_v2, node_budget_v2, sat_sub. lia.
Qed.

Lemma cands_v2_ok : Forall cand_ok cands.
Proof using Hr Hub.
  destruct Hr. apply build_cands_ok; [done|apply per_layer_cost_bounds|apply budget_v2_range].
Qed.

Definition sel_v2 (forced : option Z) : res ScheduleError sel_state :=
  select_workers cands n (pr_ctx_len r) (per_layer_cost (pr_dims r) (pr_ctx_len r))
    (λ set, e ← search set; Ok (option_map v2_tpt e)) forced.

(** A distributed placement succeeds exactly when the selected nodes can
    hold the model, and then it is complete. *)
Lemma distributed_v2_spec forced hb req kv sf :
  ∃ st, sel_v2 forced = Ok st ∧ seen_ok cands st.1 ∧
  (capacity cands st.1 < n ∧ distributed_v2 r forced hb req kv sf (ubatch_of r) =
     Err (DoesNotFit (mb_ceil req) (mb_floor (u64_sum (cd_budget <$> cands)))) ∨
   n ≤ capacity cands st.1 ∧ ∃ pl, distributed_v2 r forced hb req kv sf (ubatch_of r) = Ok pl ∧
     p_strategy (pp_plan pl) = PipelineParallel ∧
     placement_ok n (pp_plan pl) ∧
     length (pp_tensor_split pl) = length (p_assignments (pp_plan pl)) ∧
     ∀ k a, p_assignments (pp_plan pl) !! k = Some a →
       stage_fact (pr_workers r ++ [pr_head r]) (per_layer_cost (pr_dims r) (pr_ctx_len r))
         (budget_v2 r) st.1 (length (p_assignments (pp_plan pl))) k a).
Proof using Hr Hub.
  pose proof cands_v2_ok as Hc. pose proof (all_caps_ne r) as Hne. pose proof (all_caps_size r Hr) as Hs.
  pose proof (n_range r Hr) as Hn. pose proof Hr as [_ _ Hd Hl _].
  pose proof (search_v2_judges n (pr_links r) (pr_dims r) (ubatch_of r) Hn Hl) as Hev.
  assert (length cands = S (length (pr_workers r))) as Hlc.
  { unfold cands, cands_v2. rewrite length_build_cands, length_app. simpl. lia. }
  assert (cands ≠ []) as Hcne by (intros H; apply (f_equal length) in H; by rewrite Hlc in H).
  assert (Z.of_nat (length cands) ≤ 2 ^ 19) as Hcs.
  { rewrite Hlc. rewrite length_app in Hs. simpl in Hs. lia. }
  assert (∃ st, sel_v2 forced = Ok st ∧ seen_ok cands st.1) as (st & Hst & Hseen).
  { destruct forced as [k|].
    - destruct (select_forced_spec cands n (pr_ctx_len r) (per_layer_cost (pr_dims r) (pr_ctx_len r))
        (λ set, e ← search set; Ok (option_map v2_tpt e)) k Hc) as (st & H1 & H2 & _).
      by exists st.
    - destruct (select_auto_spec n search v2_counts v2_order v2_tpt
        cands Hc Hcne Hcs (pr_ctx_len r) (per_layer_cost (pr_dims r) (pr_ctx_len r))) as (st & H1 & H2 & _).
      by exists st. }
  exists st. split; [done|]. split; [done|].
  destruct (selection_outcome n search v2_counts v2_order (pr_dims r) Hd
    eq_refl _ _ _ Hc Hne Hs kv st.1 Hseen) as (parts & Hparts & Hout).
  unfold distributed_v2. fold (budget_v2 r). fold (cands_v2 r). fold cands. fold n.
  change (select_workers cands n (pr_ctx_len r) (per_layer_cost (pr_dims r) (pr_ctx_len r))
    (λ set, e ← search_v2 set (pr_links r) (pr_dims r) (ubatch_of r) n; Ok (option_map v2_tpt e)) forced)
    with (sel_v2 forced). rewrite Hst.
  cbn [mbind res_bind]. destruct st as [selected notes]. cbn [fst] in *.
  change (participants cands selected = Ok parts) in Hparts. rewrite Hparts. cbn [mbind res_bind].
  fold (search parts).
  destruct Hout as [[-> Hlt]|(e & asm & -> & Hge & Hasm & Hinv & Hfact)]; cbn [mbind res_bind].
  - left. done.
  - right. split; [done|]. rewrite Hasm. cbn [mbind res_bind]. eexists; split; [reflexivity|]. simpl.
    destruct Hinv as (H1 & H2 & H3 & _). split; [done|]. split; [by split|]. split; [done|done].
Qed.
End plan_v2.

Lemma plan_v2_places r :
  request_v2_ok r →
  plan_v2 r ≠ Panic ∧
  ∀ pl, plan_v2 r = Ok pl →
    placement_ok (md_n_layers (pr_dims r)) (pp_plan pl) ∧
    length (pp_tensor_split pl) = length (p_assignments (pp_plan pl)).
Proof.
  intros [Hr Hub]. pose proof (n_range r Hr) as Hn.
  assert (∀ forced hb req kv sf, distributed_v2 r forced hb req kv sf (ubatch_of r) ≠ Panic ∧
    ∀ pl, distributed_v2 r forced hb req kv sf (ubatch_of r) = Ok pl →
      placement_ok (md_n_layers (pr_dims r)) (pp_plan pl) ∧
      length (pp_tensor_split pl) = length (p_assignments (pp_plan pl))) as Hd.
  { intros forced hb req kv sf.
    destruct (distributed_v2_spec r Hr Hub forced hb req kv sf) as (st & _ & _ & [[_ ->]|(_ & pl & -> & _ & H1 & H2 & _)]).
    - done.
    - split; [done|]. intros pl' [= <-]. done. }
  assert (∀ l hb req f, placement_ok (md_n_layers (pr_dims r)) (pp_plan (add_line l (solo_v1 r hb req f))) ∧
    length (pp_tensor_split (add_line l (solo_v1 r hb req f))) = 1%nat) as Hs.
  { intros l hb req f. split; [|done]. split; simpl; [lia|done]. }
  unfold plan_v2. fold (ubatch_of r).
  destruct (norm_forced _) as [k|]; repeat case_match; try apply Hd; split; try done;
    intros pl [= <-]; apply Hs.
Qed.

(** C31: every placement of the v2 planner is complete.  On measured inputs
    [plan_v2] never panics, and a plan it returns assigns all layers of the
    model to stages 0, 1, ... in order with non-empty ranges tiling
    [0, n_layers) and one tensor-split fraction per stage. *)
Theorem plan_v2_sound r :
  request_v2_ok r →
  plan_v2 r ≠ Panic ∧
  ∀ pl, plan_v2 r = Ok pl →
    placement_ok (md_n_layers (pr_dims r)) (pp_plan pl) ∧
    length (pp_tensor_split pl) = length (p_assignments (pp_plan pl)).
Proof. apply plan_v2_places. Qed.

Lemma plan_v2_pipeline r pl :
  plan_v2 r = Ok pl → p_strategy (pp_plan pl) = PipelineParallel →
  ∃ forced hb req kv sf, norm_forced (pr_forced_nodes r) = forced ∧
    distributed_v2 r forced hb req kv sf (ubatch_of r) = Ok pl.
Proof.
  intros Hpl Hst. unfold plan_v2 in Hpl. fold (ubatch_of r) in Hpl.
  destruct (norm_forced (pr_forced_nodes r)) as [k|]; repeat case_match; simplify_eq;
    eexists _, _, _, _, _; (split; [reflexivity|exact Hpl]).
Qed.

Lemma plan_v2_stage_fits r pl k a :
  request_v2_ok r → plan_v2 r = Ok pl → p_strategy (pp_plan pl) = PipelineParallel →
  Forall (λ c, nc_usable_memory_bytes c < 2 ^ 53) (pr_workers r ++ [pr_head r]) →
  layer_bytes (pr_dims r) (pr_ctx_len r) < 2 ^ 53 →
  p_assignments (pp_plan pl) !! k = Some a →
  ∃ i caps, (pr_workers r ++ [pr_head r]) !! i = Some caps ∧ a_node a = nc_node caps ∧
    0 < lr_end (a_layers a) - lr_start (a_layers a) ∧
    (lr_end (a_layers a) - lr_start (a_layers a)) * layer_bytes (pr_dims r) (pr_ctx_len r)
      ≤ node_budget_v2 (nc_usable_memory_bytes caps) (md_n_embd (pr_dims r)) (effective_n_ubatch (pr_n_ubatch r)) ∧
    (i = length (pr_workers r) → S k = length (p_assignments (pp_plan pl))).
Proof.
  intros [Hr Hub] Hpl Hst Hmem Hlb Hk.
  destruct (plan_v2_pipeline r pl Hpl Hst) as (forced & hb & req & kv & sf & _ & Hd).
  destruct (distributed_v2_spec r Hr Hub forced hb req kv sf)
    as (st & _ & _ & [[_ He]|(_ & pl' & Hpl' & _ & _ & _ & Hfact)]); [congruence|].
  assert (pl' = pl) as -> by congruence.
  destruct (Hfact k a Hk) as (i & c & Hc & Hnode & _ & Hlen & Hhead).
  apply build_cands_lookup in Hc as (Hi & Hb & _ & Hcap & Hlay).
  exists i, (cd_caps c). split; [done|]. split; [done|]. split; [lia|]. split.
  - fold (ubatch_of r). fold (budget_v2 r (nc_usable_memory_bytes (cd_caps c))).
    assert (in_u64 (nc_usable_memory_bytes (cd_caps c))) as Hu.
    { pose proof (rq_caps r Hr) as Hcs. eapply Forall_lookup_1 in Hcs as [? _]; [|exact Hi]. done. }
    assert (nc_usable_memory_bytes (cd_caps c) < 2 ^ 53) as Hm by (by eapply Forall_lookup_1 in Hmem; eauto).
    pose proof (budget_v2_range r Hr Hub _ Hu) as Hbr.
    pose proof (copies_nonneg r Hr Hub) as Hcp.
    assert (budget_v2 r (nc_usable_memory_bytes (cd_caps c)) < 2 ^ 53) as Hb53.
    { unfold budget_v2, node_budget_v2, sat_sub in *. lia. }
    assert (cd_cap_layers c ≤ budget_v2 r (nc_usable_memory_bytes (cd_caps c)) /
      layer_bytes (pr_dims r) (pr_ctx_len r)) as Hle.
    { rewrite Hlay, Hcap, Hb, fmax_ffloor.
      - rewrite (floor_div_exact _ (layer_bytes (pr_dims r) (pr_ctx_len r))); [lia|..].
        + lia.
        + unfold layer_bytes in *. lia.
        + apply per_layer_cost_bounds.
        + by apply per_layer_cost_exact.
      - eapply cap_f_bounds; [exact Hbr|apply per_layer_cost_bounds..]. }
    assert (0 < layer_bytes (pr_dims r) (pr_ctx_len r)) as Hl0 by (unfold layer_bytes; lia).
    pose proof (Z.mul_div_le (budget_v2 r (nc_usable_memory_bytes (cd_caps c))) _ Hl0). nia.
  - intros Hil. apply Hhead. change (i = head_idx (cands_v2 r)). unfold head_idx, cands_v2.
    rewrite length_build_cands, length_app. simpl. lia.
Qed.

(** Pipeline placements of v2 respect memory and pin the head.  With
    usable memory and per-layer bytes below 2^53, every stage of a distributed
    v2 plan runs on one of the request's nodes; its layers' weights and KV
    cache fit the node's usable memory less the fixed reserve and less the
    activation buffers of the micro-batch; and the head's stage is the last. *)
Theorem plan_v2_memory_and_head r pl k a :
  request_v2_ok r → plan_v2 r = Ok pl → p_strategy (pp_plan pl) = PipelineParallel →
  Forall (λ c, nc_usable_memory_bytes c < 2 ^ 53) (pr_workers r ++ [pr_head r]) →
  layer_bytes (pr_dims r) (pr_ctx_len r) < 2 ^ 53 →
  p_assignments (pp_plan pl) !! k = Some a →
  ∃ i caps, (pr_workers r ++ [pr_head r]) !! i = Some caps ∧ a_node a = nc_node caps ∧
    0 < lr_end (a_layers a) - lr_start (a_layers a) ∧
    (lr_end (a_layers a) - lr_start (a_layers a)) * layer_bytes (pr_dims r) (pr_ctx_len r)
      ≤ node_budget_v2 (nc_usable_memory_bytes caps) (md_n_embd (pr_dims r)) (effective_n_ubatch (pr_n_ubatch r)) ∧
    (i = length (pr_workers r) → S k = length (p_assignments (pp_plan pl))).
Proof. apply plan_v2_stage_fits. Qed.

(** ** An example cluster *)
Lemma ex_plan_v2 : answers (plan_v2 (ex_request 12)) (ex_assignments 9) = true.
Proof. vm_compute. reflexivity. Qed.

Lemma plan_v2_sound_witness :
  ∃ pl, plan_v2 (ex_request 12) = Ok pl ∧ placement_ok 24 (pp_plan pl).
Proof.
  destruct (answers_spec _ _ ex_plan_v2) as (pl & H & _). exists pl. split; [exact H|].
  exact (proj1 (proj2 (plan_v2_sound (ex_request 12) (conj (ex_request_ok 12 ltac:(lia)) (Z.le_refl 0))) _ H)).
Defined.

Lemma plan_v2_memory_and_head_witness :
  ∃ pl a, plan_v2 (ex_request 12) = Ok pl ∧ p_assignments (pp_plan pl) !! 1%nat = Some a ∧
  ∃ i caps, (pr_workers (ex_request 12) ++ [pr_head (ex_request 12)]) !! i = Some caps ∧
    a_node a = nc_node caps ∧ 0 < lr_end (a_layers a) - lr_start (a_layers a) ∧
    (lr_end (a_layers a) - lr_start (a_layers a)) *
      layer_bytes (pr_dims (ex_request 12)) (pr_ctx_len (ex_request 12))
      ≤ node_budget_v2 (nc_usable_memory_bytes caps) (md_n_embd (pr_dims (ex_request 12)))
          (effective_n_ubatch (pr_n_ubatch (ex_request 12))) ∧
    (i = length (pr_workers (ex_request 12)) → 2%nat = length (p_assignments (pp_plan pl))).
Proof.
  destruct (answers_spec _ _ ex_plan_v2) as (pl & H & Hs & Ha). eexists pl, _. split; [exact H|].
  assert (p_assignments (pp_plan pl) !! 1%nat = Some (MkAssignment (MkNodeId "h") (MkLayerRange 9 24) 1)) as H1
    by (rewrite Ha; reflexivity).
  split; [exact H1|].
  apply (plan_v2_memory_and_head (ex_request 12) pl 1).
  - split; [apply ex_request_ok; lia|apply Z.le_refl].
  - exact H.
  - exact Hs.
  - repeat constructor.
  - vm_compute. reflexivity.
  - exact H1.
Defined.

Definition ex_best : V2Eval :=
  MkV2Eval [9; 15] [0; 1]%nat [Fin false 6755399441055744 (-51)] [fzero]
    (Fin false 7969260278120448 (-44)) (Fin false 6755399441055744 (-51)) Compute false 5 5.
Definition ex_eval : Evaluated :=
  MkEvaluated [13; 11] [0; 1]%nat [Fin false 6755399441055744 (-51)] (Fin false 5743848743501824 (-43)).

Definition ex_set : list Cand := cands_v1 (ex_request 12).

Lemma ex_search :
  search_v2 ex_set (pr_links (ex_request 12)) (pr_dims (ex_request 12)) 512 24 = Ok (Some ex_best).
Proof. vm_compute. reflexivity. Qed.
Lemma ex_evaluate : evaluate ex_set 24 (pr_links (ex_request 12)) = Ok (Some ex_eval).
Proof. vm_compute. reflexivity. Qed.

Lemma ex_set_ok : set_ok ex_set.
Proof. split; [apply cands_v1_ok, ex_request_ok; lia|]. vm_compute. discriminate. Qed.

Lemma ex_bandwidths_ok : bandwidths_ok (pr_links (ex_request 12)).
Proof.
  apply Forall_cons. split; [|constructor]. intros b [= <-] _.
  split; [vm_compute; repeat split; (discriminate || done)|split; vm_compute; discriminate].
Qed.

Lemma search_v2_minimal_witness : arrangement ex_set 24 (v2_counts ex_best) (v2_order ex_best).
Proof.
  refine (proj1 (search_v2_minimal ex_set (pr_links (ex_request 12))
    (pr_dims (ex_request 12)) 512 24 ex_best ex_set_ok _ ex_bandwidths_ok _ _ _ _ ex_search)).
  - apply (rq_links _ (ex_request_ok 12 ltac:(lia))).
  - apply (rq_dims _ (ex_request_ok 12 ltac:(lia))).
  - apply (bool_decide_unpack _). vm_compute. exact I.
  - lia.
  - lia.
Defined.

Lemma v2_no_worse_than_v1_witness : (fval (v2_tpt ex_best) <= fval (ev_tpt ex_eval))%Q.
Proof.
  refine (v2_no_worse_than_v1 ex_set (pr_links (ex_request 12))
    (pr_dims (ex_request 12)) 512 24 ex_eval ex_best ex_set_ok _ ex_bandwidths_ok _ _ _ _ _
    ex_evaluate _ ex_search).
  - apply (rq_links _ (ex_request_ok 12 ltac:(lia))).
  - apply (rq_dims _ (ex_request_ok 12 ltac:(lia))).
  - reflexivity.
  - apply (bool_decide_unpack _). vm_compute. exact I.
  - lia.
  - lia.
  - apply Nat.leb_le. reflexivity.
Defined.
