(* ===== verification/Split.v ===== *)
(** * Names of split models

    Models [crates/onebrain-models/src/split.rs]: part file names of the form
    [<prefix>-%05d-of-%05d.gguf], their strict parser, and the derivation of a
    sibling part's URL. *)

From Stdlib Require Import ZArith Lia Ascii String.
From stdpp Require Import base list strings option.
From S2P Require Import Prelude StrUtil.

Open Scope Z_scope.

Record SplitName := MkSplitName { sn_prefix : string; sn_index : Z; sn_count : Z }.

Definition part_file_name (s : SplitName) (index : Z) : string :=
  sn_prefix s +:+ "-" +:+ print_min 5 index +:+ "-of-" +:+ print_min 5 (sn_count s) +:+ ".gguf".

Definition part_file_names (s : SplitName) : list string :=
  (λ k, part_file_name s (Z.of_nat k)) <$> seq 1 (Z.to_nat (sn_count s)).

Definition TAIL : nat := 15.

(** Digits [a..b] of the tail, as a [u32]. *)
Definition tail_digits (tail : string) (a b : nat) : option Z :=
  let s := str_slice a b tail in
  if str_all is_digit s then parse_uint u32_max s else None.

Definition parse_tail (prefix tail : string) : option SplitName :=
  if negb (String.eqb (str_slice 0 1 tail) "-") || negb (String.eqb (str_slice 6 10 tail) "-of-") then None
  else
    index ← tail_digits tail 1 6;
    count ← tail_digits tail 10 15;
    if (index =? 0) || (count =? 0) || (count <? index) then None
    else Some (MkSplitName prefix index count).

Definition parse_split_name (file_name : string) : option SplitName :=
  if negb (ends_with ".gguf" (to_lower file_name)) then None
  else
    let stem := str_take (String.length file_name - 5) file_name in
    let n := String.length stem in
    if (n <=? TAIL)%nat || negb (is_char_boundary (n - TAIL) stem) then None
    else parse_tail (str_take (n - TAIL) stem) (str_drop (n - TAIL) stem).

Definition is_slash (a : ascii) : bool := Ascii.eqb a "/" || Ascii.eqb a "\".

Definition is_split_ref (model_ref : string) : bool :=
  let name := match rsplit_once is_slash model_ref with Some (_, n) => n | None => model_ref end in
  match parse_split_name name with Some _ => true | None => false end.

Definition is_query (a : ascii) : bool := Ascii.eqb a "?" || Ascii.eqb a "#".

Definition sibling_url (url part_file_name : string) : string :=
  let '(path, suffix) := str_span is_query url in
  match rsplit_once (Ascii.eqb "/") path with
  | Some (base, _) => base +:+ "/" +:+ part_file_name +:+ suffix
  | None => part_file_name +:+ suffix
  end.

(** ** The parser is exact *)

(** The tail of a part name. *)
Definition tail_of_part (index count : Z) : string :=
  "-" +:+ print_padded 5 index +:+ "-of-" +:+ print_padded 5 count.

Lemma length_tail_of_part i c : String.length (tail_of_part i c) = TAIL.
Proof. unfold tail_of_part. rewrite !string_length_app, !print_padded_length. done. Qed.

(** A string is the concatenation of its slices. *)
Lemma slices_15 tail :
  String.length tail = TAIL →
  tail = str_slice 0 1 tail +:+ str_slice 1 6 tail +:+ str_slice 6 10 tail +:+ str_slice 10 15 tail ∧
  String.length (str_slice 1 6 tail) = 5%nat ∧ String.length (str_slice 10 15 tail) = 5%nat.
Proof.
  unfold TAIL. intros H.
  do 15 (destruct tail as [|? tail]; [discriminate H|]). destruct tail; [|discriminate H]. done.
Qed.

Lemma slices_of_part i c :
  let t := tail_of_part i c in
  str_slice 0 1 t = "-" ∧ str_slice 1 6 t = print_padded 5 i ∧
  str_slice 6 10 t = "-of-" ∧ str_slice 10 15 t = print_padded 5 c.
Proof.
  intros t. destruct (slices_15 t (length_tail_of_part i c)) as (H & H1 & H2).
  subst t. unfold tail_of_part in H at 1.
  apply str_app_inj in H as [Ha H]; [|done].
  apply str_app_inj in H as [Hb H]; [|by rewrite H1, print_padded_length].
  apply str_app_inj in H as [Hc Hd]; [done|]. done.
Qed.

Lemma parse_tail_exact prefix tail s :
  String.length tail = TAIL →
  parse_tail prefix tail = Some s ↔
  sn_prefix s = prefix ∧ 1 ≤ sn_index s ≤ sn_count s ∧ sn_count s ≤ 99999 ∧
  tail = tail_of_part (sn_index s) (sn_count s).
Proof.
  intros Hl. unfold parse_tail. split.
  - destruct (slices_15 tail Hl) as (Ht & H1 & H2). intros H.
    destruct (String.eqb_spec (str_slice 0 1 tail) "-") as [E0|]; [|discriminate H].
    destruct (String.eqb_spec (str_slice 6 10 tail) "-of-") as [E6|]; [|discriminate H]. simpl in H.
    unfold tail_digits in H.
    destruct (str_all is_digit (str_slice 1 6 tail)) eqn:D1; [|discriminate H].
    destruct (parse_uint u32_max (str_slice 1 6 tail)) as [i|] eqn:P1; [|discriminate H]. simpl in H.
    destruct (str_all is_digit (str_slice 10 15 tail)) eqn:D2; [|discriminate H].
    destruct (parse_uint u32_max (str_slice 10 15 tail)) as [c|] eqn:P2; [|discriminate H]. simpl in H.
    destruct (parse_digits_print _ _ _ D1 P1) as (Hi & _ & Si). rewrite H1 in Hi, Si.
    destruct (parse_digits_print _ _ _ D2 P2) as (Hc & _ & Sc). rewrite H2 in Hc, Sc.
    destruct (Z.eqb_spec i 0); [discriminate H|]. destruct (Z.eqb_spec c 0); [discriminate H|].
    destruct (Z.ltb_spec c i); [discriminate H|]. injection H as <-. simpl.
    change (10 ^ Z.of_nat 5) with 100000 in *.
    split; [done|]. split; [lia|]. split; [lia|]. rewrite Ht, E0, E6, Si, Sc. done.
  - destruct s as [p i c]. simpl. intros (-> & Hi & Hc & ->).
    destruct (slices_of_part i c) as (E0 & E1 & E6 & E10).
    unfold tail_digits. rewrite E0, E1, E6, E10. simpl orb. cbn iota.
    rewrite !print_padded_digits.
    rewrite !parse_padded by (change (10 ^ Z.of_nat 5) with 100000; unfold u32_max; lia). simpl.
    destruct (Z.eqb_spec i 0); [lia|]. destruct (Z.eqb_spec c 0); [lia|].
    destruct (Z.ltb_spec c i); [lia|]. done.
Qed.

(** A part name, with any spelling of the extension. *)
Definition spells (f : string) (s : SplitName) : Prop :=
  sn_prefix s ≠ "" ∧ 1 ≤ sn_index s ≤ sn_count s ∧ sn_count s ≤ 99999 ∧
  ∃ ext, to_lower ext = ".gguf" ∧ f = sn_prefix s +:+ tail_of_part (sn_index s) (sn_count s) +:+ ext.

Lemma str_take_exact n a b : String.length a = n → str_take n (a +:+ b) = a.
Proof. intros <-. apply str_take_app. Qed.
Lemma str_drop_exact n a b : String.length a = n → str_drop n (a +:+ b) = b.
Proof. intros <-. apply str_drop_app. Qed.

Lemma ends_with_lower f :
  ends_with ".gguf" (to_lower f) = true →
  ∃ stem ext, f = stem +:+ ext ∧ to_lower ext = ".gguf" ∧ String.length ext = 5%nat.
Proof.
  unfold ends_with. rewrite andb_true_iff, Nat.leb_le, String.eqb_eq, to_lower_length, to_lower_drop.
  intros [Hl H]. exists (str_take (String.length f - 5) f), (str_drop (String.length f - 5) f).
  split; [by rewrite str_take_drop|]. split; [exact H|]. rewrite str_drop_length. simpl in Hl. lia.
Qed.

Lemma ext_length ext : to_lower ext = ".gguf" → String.length ext = 5%nat.
Proof. intros H. by rewrite <- (to_lower_length ext), H. Qed.

Lemma parse_split_name_spells f s : parse_split_name f = Some s ↔ spells f s.
Proof.
  unfold parse_split_name. split.
  - destruct (ends_with ".gguf" (to_lower f)) eqn:E; [|done]. simpl.
    destruct (ends_with_lower f E) as (stem & ext & -> & Hext & Hlen).
    assert (str_take (String.length (stem +:+ ext) - 5) (stem +:+ ext) = stem) as ->.
    { apply str_take_exact. rewrite string_length_app, Hlen. lia. }
    destruct (Nat.leb_spec (String.length stem) TAIL) as [|Hs]; [done|]. simpl.
    destruct (is_char_boundary _ _); [|done]. simpl. intros H.
    apply parse_tail_exact in H as (Hp & Hi & Hc & Ht); [|rewrite str_drop_length; lia].
    split.
    { rewrite Hp. intros He. apply (f_equal String.length) in He. rewrite str_take_length in He.
      simpl in He. lia. }
    split; [done|]. split; [done|]. exists ext. split; [done|].
    by rewrite <- Ht, Hp, <- string_app_assoc, str_take_drop.
  - intros (Hp & Hi & Hc & ext & Hext & ->). pose proof (ext_length ext Hext) as Hlen.
    set (t := tail_of_part _ _). assert (String.length t = TAIL) as Ht by apply length_tail_of_part.
    assert (ends_with ".gguf" (to_lower (sn_prefix s +:+ t +:+ ext)) = true) as ->.
    { apply ends_with_Some. exists (to_lower (sn_prefix s +:+ t)).
      by rewrite <- string_app_assoc, to_lower_app, Hext. }
    simpl. rewrite <- string_app_assoc.
    assert (str_take (String.length ((sn_prefix s +:+ t) +:+ ext) - 5) ((sn_prefix s +:+ t) +:+ ext)
      = sn_prefix s +:+ t) as ->.
    { apply str_take_exact. rewrite !string_length_app, Hlen. lia. }
    assert (String.length (sn_prefix s +:+ t) - TAIL = String.length (sn_prefix s))%nat as ->
      by (rewrite string_length_app, Ht; lia).
    assert (String.length (sn_prefix s) ≠ 0%nat) as Hne by (destruct (sn_prefix s); done).
    destruct (Nat.leb_spec (String.length (sn_prefix s +:+ t)) TAIL) as [Hbad|_];
      [rewrite string_length_app, Ht in Hbad; lia|]. simpl.
    unfold is_char_boundary. rewrite str_drop_app, str_take_app. simpl.
    change (parse_tail (sn_prefix s) t = Some s). apply parse_tail_exact; [done|]. done.
Qed.

Lemma part_file_name_spells s k :
  sn_prefix s ≠ "" → 1 ≤ k ≤ sn_count s → sn_count s ≤ 99999 →
  spells (part_file_name s k) (MkSplitName (sn_prefix s) k (sn_count s)).
Proof.
  intros Hp Hk Hc. split; [done|]. split; [done|]. split; [done|]. exists ".gguf". split; [done|].
  unfold part_file_name, tail_of_part. simpl sn_prefix. simpl sn_index. simpl sn_count.
  rewrite !print_min_small by (change (10 ^ Z.of_nat 5) with 100000; lia).
  by rewrite !string_app_assoc.
Qed.

(** A reference to any one part names the whole split set.  If a file name
    parses as a part, the derived list has one name per part; each of them
    parses back, with its own index, to the same prefix and count and hence
    derives the same list; and the part referred to is on the list, up to the
    case of its extension. *)
Theorem any_part_names_the_set f s :
  parse_split_name f = Some s →
  Z.of_nat (length (part_file_names s)) = sn_count s ∧
  (∀ k name, part_file_names s !! k = Some name →
     parse_split_name name = Some (MkSplitName (sn_prefix s) (Z.of_nat (S k)) (sn_count s))) ∧
  ∃ name, part_file_names s !! Z.to_nat (sn_index s - 1) = Some name ∧ to_lower name = to_lower f.
Proof.
  intros (Hp & Hi & Hc & ext & Hext & Hf)%parse_split_name_spells.
  assert (∀ k, (k < Z.to_nat (sn_count s))%nat →
    part_file_names s !! k = Some (part_file_name s (Z.of_nat (S k)))) as Hk.
  { intros k Hk. unfold part_file_names. by rewrite list_lookup_fmap, lookup_seq_lt. }
  split; [unfold part_file_names; rewrite length_fmap, length_seq; lia|]. split.
  - intros k name Hn. assert (k < Z.to_nat (sn_count s))%nat as Hlt.
    { apply lookup_lt_Some in Hn. unfold part_file_names in Hn. by rewrite length_fmap, length_seq in Hn. }
    rewrite Hk in Hn by done. injection Hn as <-. apply parse_split_name_spells, part_file_name_spells; lia || done.
  - rewrite Hk by lia. eexists. split; [reflexivity|].
    replace (Z.of_nat (S (Z.to_nat (sn_index s - 1)))) with (sn_index s) by lia.
    rewrite Hf. unfold part_file_name, tail_of_part.
    rewrite !print_min_small by (change (10 ^ Z.of_nat 5) with 100000; lia).
    rewrite !to_lower_app, Hext, !string_app_assoc. done.
Qed.

Lemma any_part_names_the_set_witness :
  part_file_names (MkSplitName "m" 2 3) !! 1%nat = Some "m-00002-of-00003.gguf" ∧
  parse_split_name "m-00003-of-00003.gguf" = Some (MkSplitName "m" 3 3).
Proof.
  destruct (any_part_names_the_set "m-00002-of-00003.GGUF" (MkSplitName "m" 2 3)) as (_ & H & _);
    [vm_compute; reflexivity|].
  split; [vm_compute; reflexivity|]. exact (H 2%nat "m-00003-of-00003.gguf" ltac:(vm_compute; reflexivity)).
Defined.

(** ** Sibling URLs *)

(** The last path segment is swapped; the base and the query or fragment are
    kept. *)
Lemma sibling_url_swaps base name part suffix :
  str_all (λ a, negb (is_query a)) base = true →
  str_all (λ a, negb (is_query a) && negb (Ascii.eqb "/" a)) name = true →
  (∀ x r, suffix = String x r → is_query x = true) →
  sibling_url (base +:+ "/" +:+ name +:+ suffix) part = base +:+ "/" +:+ part +:+ suffix.
Proof.
  intros Hb Hn Hs. unfold sibling_url.
  assert (base +:+ "/" +:+ name +:+ suffix = (base +:+ "/" +:+ name) +:+ suffix) as ->
    by by rewrite !string_app_assoc.
  rewrite str_span_app; [|rewrite !str_all_app, Hb; simpl|done].
  - change ("/" +:+ name) with (String "/" name). rewrite rsplit_once_app; [done|done|]. eapply str_all_impl; [|exact Hn].
    intros a [_ ?]%andb_prop. done.
  - eapply str_all_impl; [|exact Hn]. intros a [? _]%andb_prop. done.
Qed.

(** Every sibling addresses the same set.  Deriving the URL of a part from
    the URL of any other part gives the same URL as deriving it from the
    original reference, provided the file names involved are plain path
    segments. *)
Theorem sibling_url_transfers base name a b suffix :
  str_all (λ x, negb (is_query x)) base = true →
  str_all (λ x, negb (is_query x) && negb (Ascii.eqb "/" x)) name = true →
  str_all (λ x, negb (is_query x) && negb (Ascii.eqb "/" x)) a = true →
  (∀ x r, suffix = String x r → is_query x = true) →
  let url := base +:+ "/" +:+ name +:+ suffix in
  sibling_url url a = base +:+ "/" +:+ a +:+ suffix ∧
  sibling_url (sibling_url url a) b = sibling_url url b.
Proof.
  intros Hb Hn Ha Hs url. unfold url.
  rewrite !(sibling_url_swaps base name) by done. split; [done|]. by apply sibling_url_swaps.
Qed.

Lemma sibling_url_transfers_witness :
  sibling_url "https://h/r/m-00001-of-00002.gguf?dl=1" "m-00002-of-00002.gguf"
    = "https://h/r/m-00002-of-00002.gguf?dl=1".
Proof.
  destruct (sibling_url_transfers "https://h/r" "m-00001-of-00002.gguf" "m-00002-of-00002.gguf" "x" "?dl=1")
    as [H _]; [reflexivity..|intros x r H; injection H as <- _; reflexivity|exact H].
Defined.
