(* ===== verification/Http.v ===== *)
(** * HTTP replies and retries

    What the two downloaders see of the network: the reply to a request is a
    failure to send, or a status, the size headers and a body that arrives in
    chunks and may break off.  The remote server is a parameter of every
    definition that talks to it.  Also the retry constants and the header
    parsing of [crates/onebrain-models/src/download.rs]. *)

From Stdlib Require Import ZArith Lia Ascii String.
From stdpp Require Import base list strings option.
From S2P Require Import Prelude StrUtil Gguf.

Open Scope Z_scope.

Inductive Chunk := Data (b : bytes) | Broken.

Inductive Reply :=
  | SendFailed
  | Response (status : Z) (content_range : option string) (content_length : option Z) (body : list Chunk).

Definition MAX_RETRIES : Z := 3.
Definition ATTEMPTS : nat := Z.to_nat (MAX_RETRIES + 1).

(** Exponential backoff in milliseconds before retry [attempt]. *)
Definition backoff_delay (attempt : Z) : Z := wrap64 (Z.shiftl 250 (attempt mod 64)).

Definition PARTIAL_CONTENT : Z := 206.
Definition STATUS_OK : Z := 200.
Definition RANGE_NOT_SATISFIABLE : Z := 416.
Definition is_server_error (status : Z) : bool := (500 <=? status) && (status <? 600).

(** ASCII white space, trimmed on both sides. *)
Definition is_space (a : ascii) : bool :=
  let v := N_of_ascii a in (v =? 32)%N || ((9 <=? v)%N && (v <=? 13)%N).
Fixpoint trim_start (s : string) : string :=
  match s with String a r => if is_space a then trim_start r else s | EmptyString => "" end.
Fixpoint trim_end (s : string) : string :=
  match s with
  | EmptyString => ""
  | String a r => match trim_end r with
                  | EmptyString => if is_space a then "" else String a ""
                  | r => String a r
                  end
  end.
Definition trim (s : string) : string := trim_end (trim_start s).

(** The total of a [Content-Range: bytes <a>-<b>/<total>] header. *)
Definition content_range_total (header : option string) : option Z :=
  h ← header;
  parse_uint u64_max (trim (match rsplit_once (Ascii.eqb "/") h with Some (_, t) => t | None => h end)).

(** The bytes of a body up to the first break. *)
Fixpoint delivered (body : list Chunk) : bytes :=
  match body with
  | Data b :: body => b ++ delivered body
  | _ => []
  end.

(** The [Content-Range] header of a server that follows the standard carries
    the total size, whatever range it answers with. *)
Lemma content_range_total_spec range total :
  in_u64 total → content_range_total (Some (range +:+ "/" +:+ print_uint total)) = Some total.
Proof.
  intros Ht. unfold content_range_total. simpl.
  change (range +:+ "/" +:+ print_uint total) with (range +:+ String "/" (print_uint total)).
  rewrite rsplit_once_app; [|done|].
  2: { eapply str_all_impl; [|apply print_uint_digits]. intros a Ha.
       destruct (Ascii.eqb_spec "/" a) as [<-|]; [by vm_compute in Ha|done]. }
  assert (∀ s, str_all is_digit s = true → trim s = s) as Htrim.
  { intros s Hs. assert (∀ a, is_digit a = true → is_space a = false) as Hd.
    { intros a. destruct a as [[] [] [] [] [] [] [] []]; by vm_compute. }
    assert (trim_start s = s) as Hst.
    { destruct s as [|a s]; [done|]. simpl in *. apply andb_prop in Hs as [Ha _]. by rewrite Hd. }
    unfold trim. rewrite Hst. clear Hst. induction s as [|a s IH]; [done|]. simpl in *.
    apply andb_prop in Hs as [Ha Hs]. rewrite (IH Hs). destruct s; [by rewrite Hd|done]. }
  rewrite Htrim by apply print_uint_digits. apply parse_print_uint; [done|].
  unfold in_u64 in Ht. unfold u64_max. lia.
Qed.
