(* ===== verification/Registry.v ===== *)
(** * Model references

    Models [crates/onebrain-models/src/registry.rs] and the credential rule of
    [download.rs].  Parameters: the embedded registry (parsed from
    [models.toml] by a library) in key order, the paths that exist, the
    [OB_HF_BASE_URL] override and the URL parser. *)

From Stdlib Require Import ZArith Lia Ascii String.
From stdpp Require Import base list strings option.
From S2P Require Import Prelude StrUtil Gguf Http.

Open Scope Z_scope.

Record RegistryEntry := MkRegistryEntry {
  rg_display_name : string; rg_url : string; rg_file_name : string; rg_license : string;
  rg_min_memory_mb : Z; rg_recommended_ctx : Z; rg_parts : Z;
  rg_moe_total_params : option Z; rg_moe_active_params : option Z; rg_min_pooled_memory_mb : option Z }.

Definition default_recommended_ctx : Z := 8192.
Definition default_parts : Z := 1.

Inductive RegistryError :=
  | UnknownId (id : string) (available : list string)
  | BadHfRef (given : string).

Inductive ModelRef :=
  | RefRegistry (id : string)
  | RefHf (org repo file : string)
  | RefLocal (path : string).

Record DownloadSpec := MkSpec { ds_cache_key : string; ds_url : string; ds_file_name : string }.

Inductive Resolved :=
  | Remote (spec : DownloadSpec)
  | Local (path : string).

Section registry.
Context (registry : list (string * RegistryEntry)) (path_exists : string → bool) (ob_hf_base_url : option string).

Definition reg_get (id : string) : option RegistryEntry :=
  snd <$> find_first (λ p : string * RegistryEntry, String.eqb p.1 id) registry.

Definition is_gguf (s : string) : bool := ends_with ".gguf" (to_lower s).

Definition from_str (s : string) : res RegistryError ModelRef :=
  match strip_prefix "hf:" s with
  | Some rest =>
      match split_once "/" rest with
      | Some (org, r) =>
          match split_once "/" r with
          | Some (repo, file) =>
              if negb (String.eqb org "") && negb (String.eqb repo "") && is_gguf file
              then Ok (RefHf org repo file) else Err (BadHfRef s)
          | None => Err (BadHfRef s)
          end
      | None => Err (BadHfRef s)
      end
  | None =>
      let looks_like_path := (contains "/" s || contains "\" s) && is_gguf s in
      if looks_like_path || path_exists s then Ok (RefLocal s)
      else match reg_get s with
           | Some _ => Ok (RefRegistry s)
           | None => Err (UnknownId s registry.*1)
           end
  end.

(** [trim_end_matches('/')]. *)
Fixpoint trim_slashes (s : string) : string :=
  match s with
  | EmptyString => ""
  | String a r => match trim_slashes r with
                  | EmptyString => if Ascii.eqb a "/" then "" else String a ""
                  | r => String a r
                  end
  end.

Definition hf_base_url : string :=
  match ob_hf_base_url with
  | Some v => let v := trim_slashes (trim v) in if String.eqb v "" then "https://huggingface.co" else v
  | None => "https://huggingface.co"
  end.

(** Letters, digits, [.], [-] and [_]. *)
Definition is_safe (a : ascii) : bool :=
  let v := N_of_ascii a in
  ((48 <=? v) && (v <=? 57) || (65 <=? v) && (v <=? 90) || (97 <=? v) && (v <=? 122))%N
  || Ascii.eqb a "." || Ascii.eqb a "-" || Ascii.eqb a "_".

(** A byte that continues a UTF-8 character. *)
Definition is_continuation (a : ascii) : bool := let v := N_of_ascii a in ((128 <=? v) && (v <? 192))%N.

(** Character by character: an unsafe one becomes a dash, so the bytes that
    continue it are dropped. *)
Fixpoint sanitize_component (s : string) : string :=
  match s with
  | EmptyString => ""
  | String a s =>
      if is_safe a then String a (sanitize_component s)
      else if is_continuation a then sanitize_component s
      else String "-" (sanitize_component s)
  end.

(** [strip_suffix], case-sensitive. *)
Definition strip_gguf (s : string) : string :=
  if ends_with ".gguf" s then str_take (String.length s - 5) s else s.

Definition hf_spec (org repo file : string) : DownloadSpec :=
  let url := hf_base_url +:+ "/" +:+ org +:+ "/" +:+ repo +:+ "/resolve/main/" +:+ file in
  let file_name := match rsplit_once (Ascii.eqb "/") file with Some (_, n) => n | None => file end in
  let stem := strip_gguf file_name in
  MkSpec (sanitize_component ("hf--" +:+ org +:+ "--" +:+ repo +:+ "--" +:+ stem)) url file_name.

Definition resolve (r : ModelRef) : res RegistryError Resolved :=
  match r with
  | RefRegistry id =>
      entry ← ok_or (reg_get id) (UnknownId id registry.*1);
      Ok (Remote (MkSpec id (rg_url entry) (rg_file_name entry)))
  | RefHf org repo file => Ok (Remote (hf_spec org repo file))
  | RefLocal path => Ok (Local path)
  end.
End registry.

(** The [Authorization] value for a URL: the token goes to huggingface.co and
    its subdomains only.  [host_of] is the URL parser. *)
Definition bearer_for (host_of : string → option string) (url : string) (token : option string) : option string :=
  t ← token;
  let t := trim t in
  if String.eqb t "" then None
  else
    h ← host_of url;
    let host := to_lower h in
    if String.eqb host "huggingface.co" || ends_with ".huggingface.co" host
    then Some ("Bearer " +:+ t) else None.

(** ** References *)

(** A single safe path component. *)
Definition single_component (s : string) : Prop :=
  str_all is_safe s = true ∧ s ≠ "" ∧ s ≠ "." ∧ s ≠ "..".

Definition no_slash (s : string) : bool := str_all (λ a, negb (Ascii.eqb "/" a)) s.

Lemma sanitize_safe s : str_all is_safe (sanitize_component s) = true.
Proof.
  induction s as [|a s IH]; simpl; [done|]. destruct (is_safe a) eqn:Ea; simpl; [by rewrite Ea|].
  destruct (is_continuation a); simpl; done.
Qed.

Lemma hf_key_prefix s : ∃ r, sanitize_component ("hf--" +:+ s) = "hf--" +:+ r.
Proof. by exists (sanitize_component s). Qed.

Lemma split_once_Some c s l r : split_once c s = Some (l, r) ↔
  s = l +:+ String c r ∧ str_all (λ a, negb (Ascii.eqb a c)) l = true.
Proof.
  split.
  - revert l. induction s as [|a s IH]; intros l; simpl; [done|].
    destruct (Ascii.eqb_spec a c) as [->|Hne]; [by intros [= <- <-]|].
    destruct (split_once c s) as [[l' r']|] eqn:E; [|done]. intros [= <- <-].
    destruct (IH l' eq_refl) as [-> Hl]. split; [done|]. simpl. apply Ascii.eqb_neq in Hne. by rewrite Hne.
  - intros [-> H]. by apply split_once_app.
Qed.

Lemma rsplit_once_None p s : rsplit_once p s = None → str_all (λ x, negb (p x)) s = true.
Proof.
  induction s as [|a s IH]; simpl; [done|]. destruct (rsplit_once p s) as [[]|]; [done|].
  destruct (p a); [done|]. intros _. by apply IH.
Qed.

Lemma rsplit_once_Some p s l r :
  rsplit_once p s = Some (l, r) → ∃ a, s = l +:+ String a r ∧ p a = true ∧ str_all (λ x, negb (p x)) r = true.
Proof.
  revert l. induction s as [|a s IH]; intros l; simpl; [done|].
  destruct (rsplit_once p s) as [[x y]|] eqn:E.
  - intros [= <- <-]. destruct (IH x eq_refl) as (b & -> & Hb & Hy). by exists b.
  - destruct (p a) eqn:Ea; [|done]. intros [= <- <-]. exists a. split; [done|]. split; [done|]. by apply rsplit_once_None.
Qed.

(** The last component of a path carries its extension. *)
Lemma suffix_after_slash l r x suffix :
  no_slash suffix = true → l +:+ String "/" r = x +:+ suffix → ∃ y, r = y +:+ suffix.
Proof.
  intros Hs. revert x. induction l as [|a l IH]; intros [|b x]; str_simpl.
  - intros <-. by simpl in Hs.
  - intros [= _ ->]. by exists x.
  - intros <-. unfold no_slash in Hs. simpl in Hs. apply andb_prop in Hs as [_ Hs].
    rewrite str_all_app in Hs. apply andb_prop in Hs as [_ Hs]. done.
  - intros [= _ H]. by apply (IH x).
Qed.

Lemma is_gguf_last l r : is_gguf (l +:+ String "/" r) = true → is_gguf r = true.
Proof.
  unfold is_gguf. rewrite !ends_with_Some, to_lower_app. intros [x Hx]. by apply (suffix_after_slash (to_lower l) _ x).
Qed.

(** Hugging Face references.  A text parses as the reference to [file] of
    [org/repo] exactly when it spells [hf:<org>/<repo>/<file>] with non-empty
    slash-free organisation and repository and a [.gguf] extension in any case. *)
Theorem from_str_hf registry path_exists s org repo file :
  from_str registry path_exists s = Ok (RefHf org repo file) ↔
  s = "hf:" +:+ org +:+ "/" +:+ repo +:+ "/" +:+ file ∧ org ≠ "" ∧ repo ≠ "" ∧
  no_slash org = true ∧ no_slash repo = true ∧ is_gguf file = true.
Proof.
  assert (∀ x, no_slash x = str_all (λ a, negb (Ascii.eqb a "/")) x) as Hns.
  { intros x. unfold no_slash. induction x as [|a x IH]; cbn [str_all]; [done|]. rewrite IH. by rewrite Ascii.eqb_sym. }
  rewrite !Hns. unfold from_str. split.
  - destruct (strip_prefix "hf:" s) as [rest|] eqn:Ep.
    2: { destruct (_ || _); [done|]. by destruct (reg_get registry s). }
    apply strip_prefix_Some in Ep as ->.
    destruct (split_once "/" rest) as [[o r]|] eqn:E1; [|done]. destruct (split_once "/" r) as [[p f]|] eqn:E2; [|done].
    apply split_once_Some in E1 as [-> Ho]. apply split_once_Some in E2 as [-> Hp].
    destruct (String.eqb_spec o ""); [done|]. destruct (String.eqb_spec p ""); [done|]. simpl.
    destruct (is_gguf f) eqn:Ef; [|done]. intros [= <- <- <-]. done.
  - intros (-> & Ho & Hr & Hos & Hrs & Hf). rewrite strip_prefix_app.
    change ("/" +:+ repo +:+ "/" +:+ file) with (String "/" (repo +:+ String "/" file)).
    rewrite split_once_app, split_once_app by done.
    apply String.eqb_neq in Ho, Hr. by rewrite Ho, Hr, Hf.
Qed.

(** A Hugging Face reference resolves to a safe download: the cache key is
    one safe path component in the [hf--] name space, the file name is the last
    path component with its [.gguf] extension, and the URL addresses the file
    under the base URL. *)
Theorem hf_resolves_safely registry path_exists base s org repo file :
  from_str registry path_exists s = Ok (RefHf org repo file) →
  ∃ spec, resolve registry base (RefHf org repo file) = Ok (Remote spec) ∧
    single_component (ds_cache_key spec) ∧ starts_with "hf--" (ds_cache_key spec) = true ∧
    no_slash (ds_file_name spec) = true ∧ is_gguf (ds_file_name spec) = true ∧
    (∃ dir, file = dir +:+ ds_file_name spec ∧ (dir = "" ∨ ends_with "/" dir = true)) ∧
    ds_url spec = hf_base_url base +:+ "/" +:+ org +:+ "/" +:+ repo +:+ "/resolve/main/" +:+ file.
Proof.
  intros H. eexists. split; [reflexivity|].
  assert (is_gguf file = true) as Hg.
  { unfold from_str in H. destruct (strip_prefix "hf:" s) as [rest|].
    2: { destruct (_ || _); [done|]. by destruct (reg_get registry s). }
    destruct (split_once "/" rest) as [[o r]|]; [|done]. destruct (split_once "/" r) as [[p f]|]; [|done].
    destruct (is_gguf f) eqn:Ef; [|by rewrite andb_false_r in H]. rewrite andb_true_r in H.
    destruct (_ && _); [|done]. by injection H as _ _ <-. }
  unfold hf_spec. cbn [ds_cache_key ds_file_name ds_url].
  split; [|split].
  - destruct (hf_key_prefix (org +:+ "--" +:+ repo +:+ "--" +:+ strip_gguf
      match rsplit_once (Ascii.eqb "/") file with Some (_, n) => n | None => file end)) as [r Hr].
    split; [apply sanitize_safe|]. rewrite Hr. done.
  - done.
  - destruct (rsplit_once (Ascii.eqb "/") file) as [[l n]|] eqn:E.
    + apply rsplit_once_Some in E as (a & -> & Ha & Hn). apply Ascii.eqb_eq in Ha as <-.
      split; [done|]. split; [by apply is_gguf_last in Hg|]. split; [|done].
      exists (l +:+ "/"). split; [by rewrite string_app_assoc|]. right. apply ends_with_Some. by exists l.
    + apply rsplit_once_None in E. split; [done|]. split; [done|]. split; [|done]. exists "". by split; [|left].
Qed.

Lemma hf_resolves_safely_witness :
  single_component (ds_cache_key (hf_spec None "org" "repo" "q4/m.gguf")) ∧
  ds_file_name (hf_spec None "org" "repo" "q4/m.gguf") = "m.gguf".
Proof.
  split; [|reflexivity].
  destruct (hf_resolves_safely [] (λ _, false) None "hf:org/repo/q4/m.gguf" "org" "repo" "q4/m.gguf")
    as (spec & H & Hs & _); [reflexivity|]. injection H as <-. exact Hs.
Defined.

(** Distinct references may share a cache entry: the key forgets the
    directory of the file, so two files of one repository collide. *)
Theorem hf_cache_key_collides :
  ∃ f1 f2, f1 ≠ f2 ∧
    ds_cache_key (hf_spec None "org" "repo" f1) = ds_cache_key (hf_spec None "org" "repo" f2) ∧
    ds_url (hf_spec None "org" "repo" f1) ≠ ds_url (hf_spec None "org" "repo" f2).
Proof. exists "q4/m.gguf", "q8/m.gguf". split; [done|]. split; [reflexivity|]. vm_compute. congruence. Qed.
