(* ===== verification/Ranges.v ===== *)
(** * The range-level model cache

    Models [crates/onebrain-models/src/ranges.rs]: planning the byte ranges of
    a layer assignment, fetching them over HTTP with resume and verification,
    reading them back, advertising them, and parsing a header from a growing
    prefix.  The state is one download directory; the remote server and the
    BLAKE3 function are parameters.  Local file operations succeed. *)

From Stdlib Require Import ZArith Lia Ascii String.
From stdpp Require Import base list strings option gmap.
From S2P Require Import Prelude StrUtil Gguf Http.

Open Scope Z_scope.

Record ByteRange := MkByteRange { br_start : Z; br_end : Z }.

Definition br_len (r : ByteRange) : Z := sat_sub (br_end r) (br_start r).
Definition br_is_empty (r : ByteRange) : bool := br_len r =? 0.

Record RangeEntry := MkRangeEntry { re_start : Z; re_end : Z; re_blake3 : string }.

Record RangeManifest := MkRangeManifest {
  rm_url : string; rm_total_size : Z; rm_header_len : Z; rm_ranges : list RangeEntry }.

Record RangePlan := MkRangePlan { rp_total_size : Z; rp_header_len : Z; rp_ranges : list ByteRange }.

(** Why an attempt is worth retrying. *)
Inductive Retry :=
  | NoAttempt
  | RequestFailed
  | RangeRejected (from last : Z)
  | ServerError (status : Z)
  | Interrupted (written : Z)
  | ClosedEarly (written len : Z)
  | HashMismatch (expected actual : string)
  | NoTotalSize.

Inductive RangeError :=
  | HttpStatus (status : Z)
  | Exhausted (attempts : Z) (last_error : Retry)
  | EGguf (e : GgufError)
  | HeaderPastEnd
  | InvalidRange (start stop : Z)
  | NotPresent (start stop : Z)
  | RangeUnsupported
  | NoFullFile
  | EIo.

#[global] Instance ByteRange_eq_dec : EqDecision ByteRange.
Proof. solve_decision. Defined.
#[global] Instance RangeEntry_eq_dec : EqDecision RangeEntry.
Proof. solve_decision. Defined.
#[global] Instance Retry_eq_dec : EqDecision Retry.
Proof. solve_decision. Defined.

(** ** Planning *)
Definition tensor_layer (name : string) : option Z :=
  rest ← strip_prefix "blk." name;
  digits ← split_next "." rest;
  parse_uint u64_max digits.

(** Derived lexicographic order of [ByteRange]. *)
Definition cmp_range (a b : ByteRange) : comparison :=
  cmp_then (br_start a ?= br_start b) (br_end a ?= br_end b).

Definition owned (owned_layers : list Z) (tr : TensorRange) : bool :=
  match tensor_layer (tr_name tr) with
  | None => true
  | Some layer => bool_decide (layer ∈ owned_layers)
  end.

Definition plan_ranges (header : GgufHeader) (file_size : Z) (owned_layers : list Z) :
    res GgufError RangePlan :=
  trs ← tensor_ranges header file_size;
  let wanted := filter (λ tr, owned owned_layers tr && (tr_start tr <? tr_end tr) = true) trs in
  let ranges := MkByteRange 0 (gh_data_offset header)
                :: ((λ tr, MkByteRange (tr_start tr) (tr_end tr)) <$> wanted) in
  Ok (MkRangePlan file_size (gh_data_offset header) (sort_by cmp_range ranges)).

Definition plan_all_ranges (header : GgufHeader) (file_size : Z) : res GgufError RangePlan :=
  plan_ranges header file_size (omap (λ t, tensor_layer (ti_name t)) (gh_tensors header)).

(** ** The manifest *)
Definition entry_key (e : RangeEntry) : Z * Z := (re_start e, re_end e).
Definition range_key (r : ByteRange) : Z * Z := (br_start r, br_end r).

Definition cmp_entry (a b : RangeEntry) : comparison :=
  cmp_then (re_start a ?= re_start b) (re_end a ?= re_end b).

(** The recorded hash of a range: the first entry with its bounds. *)
Definition recorded (m : RangeManifest) (k : Z * Z) : option string :=
  re_blake3 <$> find_first (λ e, bool_decide (entry_key e = k)) (rm_ranges m).

Fixpoint replace_first (k : Z * Z) (hash : string) (l : list RangeEntry) : list RangeEntry :=
  match l with
  | [] => []
  | e :: l => if decide (entry_key e = k) then MkRangeEntry (re_start e) (re_end e) hash :: l
              else e :: replace_first k hash l
  end.

Definition upsert_range (m : RangeManifest) (r : ByteRange) (hash : string) : RangeManifest :=
  let ranges :=
    match recorded m (range_key r) with
    | Some _ => replace_first (range_key r) hash (rm_ranges m)
    | None => sort_by cmp_entry (rm_ranges m ++ [MkRangeEntry (br_start r) (br_end r) hash])
    end in
  MkRangeManifest (rm_url m) (rm_total_size m) (rm_header_len m) ranges.

Definition fresh_manifest (url : string) (plan : RangePlan) : RangeManifest :=
  MkRangeManifest url (rp_total_size plan) (rp_header_len plan) [].

(** ** The download directory

    [d_manifest] is [ranges.json] as [load_range_manifest] reads it (missing
    and corrupt are [None]), [d_files] the finished range files, [d_parts] the
    [.part] files, both by their bounds, and [d_model] the complete model file
    [find_model_file] reports. *)
Record Disk := MkDisk {
  d_manifest : option RangeManifest;
  d_files : gmap (Z * Z) bytes;
  d_parts : gmap (Z * Z) bytes;
  d_model : option bytes }.

Definition set_manifest (m : RangeManifest) (d : Disk) : Disk :=
  MkDisk (Some m) (d_files d) (d_parts d) (d_model d).
Definition set_files (f : gmap (Z * Z) bytes) (d : Disk) : Disk :=
  MkDisk (d_manifest d) f (d_parts d) (d_model d).
Definition set_parts (p : gmap (Z * Z) bytes) (d : Disk) : Disk :=
  MkDisk (d_manifest d) (d_files d) p (d_model d).

(** The directory, the number of requests sent and the progress reports. *)
Record World := MkWorld { w_disk : Disk; w_sent : nat; w_progress : list (Z * Z) }.

Definition on_disk (f : Disk → Disk) (w : World) : World := MkWorld (f (w_disk w)) (w_sent w) (w_progress w).
Definition report (p : Z * Z) (w : World) : World := MkWorld (w_disk w) (w_sent w) (w_progress w ++ [p]).
Definition sent (w : World) : World := MkWorld (w_disk w) (S (w_sent w)) (w_progress w).

(** ** Reading *)

(** [len] bytes at [offset], or [None] when the file is missing or short. *)
Definition read_slice (file : option bytes) (offset n : Z) : option bytes :=
  f ← file;
  if offset + n <=? len f then Some (take (Z.to_nat n) (drop (Z.to_nat offset) f)) else None.

Fixpoint read_entries (d : Disk) (start stop : Z) (l : list RangeEntry) : option bytes :=
  match l with
  | [] => None
  | e :: l =>
      if (re_start e <=? start) && (stop <=? re_end e) then
        match read_slice (d_files d !! entry_key e) (start - re_start e) (stop - start) with
        | Some b => Some b
        | None => read_entries d start stop l
        end
      else read_entries d start stop l
  end.

Definition read_model (d : Disk) (start stop : Z) : option bytes :=
  f ← d_model d;
  if stop <=? len f then read_slice (Some f) start (stop - start) else None.

Definition read_range (d : Disk) (start stop : Z) : res RangeError bytes :=
  if stop <=? start then Err (InvalidRange start stop)
  else
    match (m ← d_manifest d; read_entries d start stop (rm_ranges m)) with
    | Some b => Ok b
    | None => ok_or (read_model d start stop) (NotPresent start stop)
    end.

(** The inventory a node advertises. *)
Definition is_present (d : Disk) (e : RangeEntry) : bool :=
  match d_files d !! entry_key e with
  | Some f => len f =? br_len (MkByteRange (re_start e) (re_end e))
  | None => false
  end ||
  match d_model d with
  | Some f => re_end e <=? len f
  | None => false
  end.

Definition present_ranges (d : Disk) : list RangeEntry :=
  match d_manifest d with
  | None => []
  | Some m => sort_by cmp_entry (filter (λ e, is_present d e = true) (rm_ranges m))
  end.

(** ** Fetching *)
Inductive Outcome := Done | Fatal (e : RangeError) | Transient (why : Retry).

Section fetch.
(** The [n]-th request's reply, given the first and last byte asked for. *)
Context (server : nat → Z → Z → Reply).
Context (blake3 : bytes → string).

(** The body is appended until the range is complete; the flag says whether
    the connection broke. *)
Fixpoint stream_loop (prog : Z → Z * Z) (k : Z * Z) (body : list Chunk) (remaining : Z) (buf : bytes)
    (net : Z) (w : World) : bool * Z * bytes * Z * World :=
  if remaining <=? 0 then (false, remaining, buf, net, w)
  else
    match body with
    | [] => (false, remaining, buf, net, w)
    | Broken :: _ => (true, remaining, buf, net, w)
    | Data c :: body =>
        let n := Z.min (len c) remaining in
        let buf := buf ++ take (Z.to_nat n) c in
        let w := on_disk (λ d, set_parts (<[k := buf]> (d_parts d)) d) w in
        stream_loop prog k body (remaining - n) buf (u64_add net n) (report (prog (len buf)) w)
    end.

Definition range_attempt (r : ByteRange) (prog : Z → Z * Z) (w : World) (net : Z) : Outcome * World * Z :=
  let k := range_key r in
  let part := default [] (d_parts (w_disk w) !! k) in
  let overlong := br_len r <=? len part in
  if overlong && bool_decide (d_parts (w_disk w) !! k = None) then (Fatal EIo, w, net)
  else
    let w := if overlong then on_disk (λ d, set_parts (delete k (d_parts d)) d) w else w in
    let part := if overlong then [] else part in
    let from := u64_add (br_start r) (len part) in
    let last := br_end r - 1 in
    let reply := server (w_sent w) from last in
    let w := sent w in
    match reply with
    | SendFailed => (Transient RequestFailed, w, net)
    | Response status _ _ body =>
        let continue part :=
          let w := on_disk (λ d, set_parts (<[k := part]> (d_parts d)) d) w in
          let w := report (prog (len part)) w in
          let '(broken, remaining, buf, net, w) :=
            stream_loop prog k body (br_len r - len part) part net w in
          if broken : bool then (Transient (Interrupted (len buf)), w, net)
          else if 0 <? remaining then (Transient (ClosedEarly (len buf) (br_len r)), w, net)
          else (Done, w, net) in
        if status =? PARTIAL_CONTENT then continue part
        else if status =? STATUS_OK then
          if 0 <? br_start r then (Fatal RangeUnsupported, w, net) else continue []
        else if status =? RANGE_NOT_SATISFIABLE then
          (Transient (RangeRejected from last), on_disk (λ d, set_parts (delete k (d_parts d)) d) w, net)
        else if is_server_error status then (Transient (ServerError status), w, net)
        else (Fatal (HttpStatus status), w, net)
    end.

(** The attempts of one range; a completed part is verified against the
    recorded hash, then renamed into place. *)
Fixpoint fetch_attempts (n : nat) (r : ByteRange) (expected : option string) (prog : Z → Z * Z)
    (last_error : Retry) (w : World) (net : Z) : res RangeError (string * Z) * World :=
  match n with
  | O => (Err (Exhausted (Z.of_nat ATTEMPTS) last_error), w)
  | S n =>
      match range_attempt r prog w net with
      | (Fatal e, w, _) => (Err e, w)
      | (Transient why, w, net) => fetch_attempts n r expected prog why w net
      | (Done, w, net) =>
          let k := range_key r in
          match d_parts (w_disk w) !! k with
          | None => (Err EIo, w)
          | Some content =>
              let actual := blake3 content in
              let bad := match expected with Some e => negb (String.eqb e actual) | None => false end in
              if bad then
                fetch_attempts n r expected prog (HashMismatch (default "" expected) actual)
                  (on_disk (λ d, set_parts (delete k (d_parts d)) d) w) net
              else
                (Ok (actual, net),
                 on_disk (λ d, set_parts (delete k (d_parts d)) (set_files (<[k := content]> (d_files d)) d)) w)
          end
      end
  end.

Definition fetch_one_range (r : ByteRange) (expected : option string) (prog : Z → Z * Z) (w : World) :
    res RangeError (string * Z) * World :=
  fetch_attempts ATTEMPTS r expected prog NoAttempt w 0.

(** The loop state: the manifest in memory, bytes completed, bytes fetched. *)
Record Fetch := MkFetch { f_manifest : RangeManifest; f_completed : Z; f_network : Z }.

Definition download_range (total : Z) (r : ByteRange) (st : Fetch) (w : World) : res RangeError Fetch * World :=
  let prog := λ done, (u64_add (f_completed st) done, total) in
  match fetch_one_range r (recorded (f_manifest st) (range_key r)) prog w with
  | (Err e, w) => (Err e, w)
  | (Panic, w) => (Panic, w)
  | (Ok (hash, n), w) =>
      let m := upsert_range (f_manifest st) r hash in
      let completed := u64_add (f_completed st) (br_len r) in
      (Ok (MkFetch m completed (u64_add (f_network st) n)),
       report (completed, total) (on_disk (set_manifest m) w))
  end.

Definition fetch_step (total : Z) (r : ByteRange) (st : Fetch) (w : World) : res RangeError Fetch * World :=
  let k := range_key r in
  let expected := recorded (f_manifest st) k in
  let drop w := on_disk (λ d, set_files (delete k (d_files d)) d) w in
  match d_files (w_disk w) !! k with
  | None => download_range total r st w
  | Some content =>
      if len content =? br_len r then
        let actual := blake3 content in
        let bad := match expected with Some e => negb (String.eqb e actual) | None => false end in
        if bad then download_range total r st (drop w)
        else
          let m := match expected with Some _ => f_manifest st | None => upsert_range (f_manifest st) r actual end in
          let w := match expected with Some _ => w | None => on_disk (set_manifest m) w end in
          let completed := u64_add (f_completed st) (br_len r) in
          (Ok (MkFetch m completed (f_network st)), report (completed, total) w)
      else download_range total r st (drop w)
  end.

Fixpoint fetch_loop (total : Z) (rs : list ByteRange) (st : Fetch) (w : World) : res RangeError Z * World :=
  match rs with
  | [] => (Ok (f_network st), w)
  | r :: rs =>
      match fetch_step total r st w with
      | (Ok st, w) => fetch_loop total rs st w
      | (Err e, w) => (Err e, w)
      | (Panic, w) => (Panic, w)
      end
  end.

Definition invalid (plan : RangePlan) (r : ByteRange) : bool :=
  (br_end r <=? br_start r) || (rp_total_size plan <? br_end r).

(** The manifest to start from, and the directory: a manifest of another total
    size discards every stored range. *)
Definition starting_manifest (url : string) (plan : RangePlan) (d : Disk) : RangeManifest * Disk :=
  match d_manifest d with
  | Some m =>
      if rm_total_size m =? rp_total_size plan then
        (MkRangeManifest url (rm_total_size m) (rp_header_len plan) (rm_ranges m), d)
      else (fresh_manifest url plan, set_parts ∅ (set_files ∅ d))
  | None => (fresh_manifest url plan, d)
  end.

Definition fetch_ranges (url : string) (plan : RangePlan) (w : World) : res RangeError Z * World :=
  match find_first (invalid plan) (rp_ranges plan) with
  | Some r => (Err (InvalidRange (br_start r) (br_end r)), w)
  | None =>
      let total := u64_sum (br_len <$> rp_ranges plan) in
      let w := report (0, total) w in
      let whole := match d_model (w_disk w) with Some f => len f =? rp_total_size plan | None => false end in
      if whole then (Ok 0, report (total, total) w)
      else
        let '(m, d) := starting_manifest url plan (w_disk w) in
        fetch_loop total (rp_ranges plan) (MkFetch m 0 0) (on_disk (λ _, d) w)
  end.

(** ** Indexing a full file *)

(** The header of a local file from a growing prefix. *)
Fixpoint header_loop (fuel : nat) (file : bytes) (want : Z) : res RangeError GgufHeader :=
  match fuel with
  | O => Panic
  | S fuel =>
      match parse (take (Z.to_nat want) file) with
      | Ok h => Ok h
      | Err (NeedMoreData hint) =>
          if want <? len file then header_loop fuel file (Z.min (Z.max hint (u64_mul want 2)) (len file))
          else Err (EGguf (NeedMoreData hint))
      | Err e => Err (EGguf e)
      | Panic => Panic
      end
  end.

Definition parse_local_header (fuel : nat) (file : bytes) : res RangeError GgufHeader :=
  header_loop fuel file (Z.min (2 ^ 20) (len file)).

Definition index_entry (file : bytes) (r : ByteRange) : res RangeError RangeEntry :=
  b ← ok_or (read_slice (Some file) (br_start r) (br_len r)) EIo;
  Ok (MkRangeEntry (br_start r) (br_end r) (blake3 b)).

Definition index_full_file (fuel : nat) (url : string) (d : Disk) : res RangeError (RangeManifest * Disk) :=
  file ← ok_or (d_model d) NoFullFile;
  header ← parse_local_header fuel file;
  plan ← map_err EGguf (plan_all_ranges header (len file));
  ranges ← map_res (index_entry file) (rp_ranges plan);
  let m := MkRangeManifest url (len file) (rp_header_len plan) ranges in
  Ok (m, set_manifest m d).

(** ** The header of a remote file *)
Inductive PrefixOutcome := PDone (b : bytes) (total : Z) | PFatal (e : RangeError) | PTransient (why : Retry).

(** Take chunks until [needed] bytes are there; the flag says whether the
    connection broke. *)
Fixpoint collect (body : list Chunk) (needed : Z) (acc : bytes) : bool * bytes :=
  if len acc <? needed then
    match body with
    | [] => (false, acc)
    | Broken :: _ => (true, acc)
    | Data c :: body => collect body needed (acc ++ take (Z.to_nat (Z.min (len c) (needed - len acc))) c)
    end
  else (false, acc).

Definition prefix_attempt (reply : Reply) (want : Z) : PrefixOutcome :=
  match reply with
  | SendFailed => PTransient RequestFailed
  | Response status cr cl body =>
      let go total :=
        match total with
        | None => PTransient NoTotalSize
        | Some total =>
            let needed := Z.min want total in
            let '(broken, b) := collect body needed [] in
            if broken : bool then PTransient (Interrupted (len b))
            else if len b <? needed then PTransient (ClosedEarly (len b) needed)
            else PDone b total
        end in
      if status =? PARTIAL_CONTENT then go (content_range_total cr)
      else if status =? STATUS_OK then go cl
      else if is_server_error status then PTransient (ServerError status)
      else PFatal (HttpStatus status)
  end.

(** The reply is threaded with the number of requests sent so far. *)
Fixpoint prefix_attempts (n : nat) (want : Z) (last_error : Retry) (sent : nat) :
    res RangeError (bytes * Z) * nat :=
  match n with
  | O => (Err (Exhausted (Z.of_nat ATTEMPTS) last_error), sent)
  | S n =>
      match prefix_attempt (server sent 0 (sat_sub want 1)) want with
      | PDone b total => (Ok (b, total), S sent)
      | PFatal e => (Err e, S sent)
      | PTransient why => prefix_attempts n want why (S sent)
      end
  end.

Definition fetch_prefix (want : Z) (sent : nat) : res RangeError (bytes * Z) * nat :=
  prefix_attempts ATTEMPTS want NoAttempt sent.

Fixpoint remote_loop (fuel : nat) (want : Z) (sent : nat) : res RangeError (GgufHeader * Z) :=
  match fuel with
  | O => Panic
  | S fuel =>
      match fetch_prefix want sent with
      | (Err e, _) => Err e
      | (Panic, _) => Panic
      | (Ok (b, total), sent) =>
          match parse b with
          | Ok h => Ok (h, total)
          | Err (NeedMoreData hint) =>
              if total <=? len b then Err HeaderPastEnd
              else remote_loop fuel (Z.min (Z.max hint (u64_mul want 2)) total) sent
          | Err e => Err (EGguf e)
          | Panic => Panic
          end
      end
  end.

Definition fetch_remote_header_with (fuel : nat) (initial_want : Z) : res RangeError (GgufHeader * Z) :=
  remote_loop fuel (Z.max initial_want 64) 0.

Definition fetch_remote_header (fuel : nat) : res RangeError (GgufHeader * Z) :=
  fetch_remote_header_with fuel (256 * 1024).
End fetch.
