(* ===== verification/RangeFetch.v ===== *)
(** * Fetching ranges is verified and resumable

    The correctness of [fetch_ranges]: whatever the server does, a successful
    fetch leaves every planned range on disk at its exact length under a
    recorded BLAKE3 that matches its bytes; a second fetch sends no request;
    and with an honest server the bytes are the file's. *)

From Stdlib Require Import ZArith Lia Ascii String.
From stdpp Require Import base list strings option gmap.
From S2P Require Import Prelude StrUtil Gguf Http Ranges.

Open Scope Z_scope.

(** ** The manifest as a map *)
Lemma find_first_filter {A} (p : A → bool) l : find_first p l = head (filter (λ x, p x = true) l).
Proof.
  unfold find_first. induction l as [|x l IH]; [done|].
  rewrite filter_cons. simpl. case_decide; [done|].
  destruct (list_find _ l) as [[i y]|]; simpl in *; done.
Qed.

Lemma recorded_filter m k :
  recorded m k = re_blake3 <$> head (filter (λ e, bool_decide (entry_key e = k) = true) (rm_ranges m)).
Proof. unfold recorded. by rewrite find_first_filter. Qed.

Lemma cmp_entry_key k e f : entry_key e = k → entry_key f = k → cmp_entry e f ≠ Gt.
Proof.
  unfold entry_key, cmp_entry. intros He Hf. rewrite <- Hf in He. injection He as -> ->.
  by rewrite !Z.compare_refl.
Qed.

Lemma recorded_sorted l k :
  filter (λ e, bool_decide (entry_key e = k) = true) (sort_by cmp_entry l)
  = filter (λ e, bool_decide (entry_key e = k) = true) l.
Proof.
  apply sort_by_filter. intros e f He Hf. rewrite bool_decide_eq_true in He, Hf. by eapply cmp_entry_key.
Qed.

Lemma replace_first_head k h l k' :
  head (filter (λ e, bool_decide (entry_key e = k) = true) l) ≠ None →
  re_blake3 <$> head (filter (λ e, bool_decide (entry_key e = k') = true) (replace_first k h l))
  = if decide (k' = k) then Some h
    else re_blake3 <$> head (filter (λ e, bool_decide (entry_key e = k') = true) l).
Proof.
  induction l as [|e l IH]; simpl; [done|]. intros Hne. rewrite !filter_cons in Hne |- *.
  destruct (decide (entry_key e = k)) as [Hk|Hk].
  - rewrite filter_cons. assert (entry_key (MkRangeEntry (re_start e) (re_end e) h) = k) as Hk' by done.
    rewrite Hk'. rewrite Hk in *. destruct (decide (k' = k)) as [->|Hn].
    + by rewrite bool_decide_eq_true_2 by done.
    + by rewrite !bool_decide_eq_false_2 by done.
  - rewrite (bool_decide_eq_false_2 _ Hk) in Hne. simpl in Hne. specialize (IH Hne).
    rewrite filter_cons. destruct (decide (bool_decide (entry_key e = k') = true)) as [Ht|Hf].
    + apply bool_decide_eq_true in Ht. destruct (decide (k' = k)); [congruence|done].
    + exact IH.
Qed.

Lemma recorded_upsert m r h k :
  recorded (upsert_range m r h) k = if decide (k = range_key r) then Some h else recorded m k.
Proof.
  unfold upsert_range. destruct (recorded m (range_key r)) as [h0|] eqn:E;
    rewrite recorded_filter in E |- *; cbn [rm_ranges].
  - rewrite replace_first_head; [by rewrite <- recorded_filter|]. intros Hn. by rewrite Hn in E.
  - rewrite recorded_sorted, filter_app, filter_cons, filter_nil. cbn [entry_key re_start re_end].
    change (br_start r, br_end r) with (range_key r).
    destruct (decide (k = range_key r)) as [->|Hn].
    + rewrite bool_decide_eq_true_2 by done. simpl.
      destruct (filter _ (rm_ranges m)); [done|discriminate E].
    + rewrite bool_decide_eq_false_2 by done. simpl. rewrite app_nil_r. by rewrite recorded_filter.
Qed.

Lemma upsert_ne m r h : rm_ranges (upsert_range m r h) ≠ [].
Proof.
  intros H. pose proof (recorded_upsert m r h (range_key r)) as Hr. rewrite decide_True in Hr by done.
  unfold recorded in Hr. by rewrite H in Hr.
Qed.

(** ** Frames *)

(** Only the [.part] of [k] differs. *)
Record part_only (k : Z * Z) (d d' : Disk) : Prop := {
  po_files : d_files d' = d_files d;
  po_manifest : d_manifest d' = d_manifest d;
  po_model : d_model d' = d_model d;
  po_parts k' : k' ≠ k → d_parts d' !! k' = d_parts d !! k' }.

#[global] Instance part_only_refl k : Reflexive (part_only k).
Proof. by split. Qed.
#[global] Instance part_only_trans k : Transitive (part_only k).
Proof.
  intros d1 d2 d3 [A B C D] [A' B' C' D']. split; try congruence.
  intros k' Hk. rewrite D' by done. by apply D.
Qed.

Lemma part_only_insert k p d : part_only k d (set_parts (<[k := p]> (d_parts d)) d).
Proof. split; try done. intros k' Hk. simpl. by rewrite lookup_insert_ne. Qed.
Lemma part_only_delete k d : part_only k d (set_parts (delete k (d_parts d)) d).
Proof. split; try done. intros k' Hk. simpl. by rewrite lookup_delete_ne. Qed.
#[export] Hint Resolve part_only_insert part_only_delete : onebrain.

(** ** One attempt *)
Section attempt.
Context (server : nat → Z → Z → Reply).

Lemma len_take_le n (c : bytes) : 0 ≤ n ≤ len c → len (take (Z.to_nat n) c) = n.
Proof. unfold len. intros H. rewrite length_take. lia. Qed.

(** The loop appends a prefix of the body, at most what is missing. *)
Lemma stream_loop_spec prog k body remaining buf net w br rem' buf' net' w' :
  0 ≤ remaining → d_parts (w_disk w) !! k = Some buf →
  stream_loop prog k body remaining buf net w = (br, rem', buf', net', w') →
  ∃ x y, buf' = buf ++ x ∧ delivered body = x ++ y ∧ len x + rem' = remaining ∧ 0 ≤ rem' ∧
    d_parts (w_disk w') !! k = Some buf' ∧ part_only k (w_disk w) (w_disk w') ∧ w_sent w' = w_sent w.
Proof using.
  assert (∀ body', ∃ x y : bytes, delivered body' = x ++ y ∧ x = []) as Hnil by (intros b; by exists [], (delivered b)).
  revert remaining buf net w. induction body as [|[c|] body IH]; intros remaining buf net w Hrem Hpart H;
    cbn [stream_loop] in H; destruct (Z.leb_spec remaining 0) as [Hz|Hz];
    try (injection H as <- <- <- <- <-; exists [], (delivered (Broken :: [])); rewrite app_nil_r;
         change (len []) with 0; split; [done|]; split; [done|]; split; [lia|]; done);
    try (injection H as <- <- <- <- <-; eexists [], _; rewrite app_nil_r; change (len []) with 0;
         split; [done|]; split; [reflexivity|]; split; [lia|]; done).
  set (n := Z.min (len c) remaining) in *. pose proof (len_nonneg c) as Hc.
  set (w1 := report _ _) in H.
  apply IH in H as (x & y & -> & Hd & Hl & Hr & Hp & Hpo & Hs); [|lia|simpl; by rewrite lookup_insert_eq].
  assert (len (take (Z.to_nat n) c) = n) as Hn by (apply len_take_le; lia).
  assert (part_only k (w_disk w) (w_disk w1)) as Hpo1 by (apply part_only_insert).
  exists (take (Z.to_nat n) c ++ x), (if Z.leb (len c) remaining then y else drop (Z.to_nat n) c ++ delivered body).
  rewrite app_assoc, len_app, Hn. split; [done|]. split.
  - simpl. destruct (Z.leb_spec (len c) remaining) as [Hle|Hgt].
    + rewrite Hd, take_ge; [by rewrite app_assoc|]. unfold len in *. lia.
    + assert (x = []) as ->. { unfold len in Hl. destruct x; [done|simpl in Hl; lia]. }
      by rewrite app_nil_r, app_assoc, take_drop.
  - split; [lia|]. split; [done|]. split; [done|]. split; [by etransitivity|exact Hs].
Qed.

(** The part on disk before an attempt, as the attempt uses it. *)
Definition usable_part (r : ByteRange) (w : World) : bytes :=
  let part := default [] (d_parts (w_disk w) !! range_key r) in
  if br_len r <=? len part then [] else part.

Lemma range_attempt_spec r prog w net out w' net' :
  br_start r < br_end r →
  range_attempt server r prog w net = (out, w', net') →
  part_only (range_key r) (w_disk w) (w_disk w') ∧
  (d_parts (w_disk w') !! range_key r = None ∨
   d_parts (w_disk w') !! range_key r = d_parts (w_disk w) !! range_key r ∨
   ∃ status cr cl body base x y,
     server (w_sent w) (u64_add (br_start r) (len (usable_part r w))) (br_end r - 1) = Response status cr cl body ∧
     (status = PARTIAL_CONTENT ∧ base = usable_part r w ∨ status = STATUS_OK ∧ br_start r ≤ 0 ∧ base = []) ∧
     d_parts (w_disk w') !! range_key r = Some (base ++ x) ∧ delivered body = x ++ y ∧
     len (base ++ x) ≤ br_len r ∧ (out = Done → len (base ++ x) = br_len r)) ∧
  (out = Done → ∃ p, d_parts (w_disk w') !! range_key r = Some p ∧ len p = br_len r).
Proof using.
  intros Hr H. unfold range_attempt in H. cbv zeta in H.
  set (k := range_key r) in *. set (part := default [] (d_parts (w_disk w) !! k)) in *.
  assert (0 < br_len r) as Hlen by (unfold br_len, sat_sub; lia).
  destruct (_ && bool_decide _) eqn:Eov.
  { apply andb_prop in Eov as [Hov Hn]. apply bool_decide_eq_true in Hn. unfold part in Hov. rewrite Hn in Hov.
    simpl in Hov. apply Z.leb_le in Hov. change (len []) with 0 in Hov. lia. }
  clear Eov. set (w0 := if br_len r <=? len part then _ else w) in H.
  set (base0 := if br_len r <=? len part then [] else part) in *.
  assert (base0 = usable_part r w) as Hb0 by done.
  assert (part_only k (w_disk w) (w_disk w0)) as Hpo0.
  { unfold w0. destruct (br_len r <=? len part); [apply part_only_delete|done]. }
  assert (w_sent w0 = w_sent w) as Hs0 by (unfold w0; by destruct (br_len r <=? len part)).
  assert (d_parts (w_disk w0) !! k = None ∨ d_parts (w_disk w0) !! k = d_parts (w_disk w) !! k) as Hp0.
  { unfold w0. destruct (br_len r <=? len part); [left; simpl; by rewrite lookup_delete_eq|by right]. }
  assert (len base0 < br_len r) as Hbl.
  { unfold base0. destruct (Z.leb_spec (br_len r) (len part)); [change (len []) with 0|]; lia. }
  rewrite Hs0 in H.
  destruct (server (w_sent w) (u64_add (br_start r) (len base0)) (br_end r - 1)) as [|status cr cl body] eqn:Esrv.
  { injection H as <- <- <-. split; [done|]. split; [by destruct Hp0; [left|right; left]|done]. }
  assert (∀ base,
    (let w := on_disk (λ d, set_parts (<[k := base]> (d_parts d)) d) (sent w0) in
     let w := report (prog (len base)) w in
     let '(broken, remaining, buf, net, w) := stream_loop prog k body (br_len r - len base) base net w in
     if broken : bool then (Transient (Interrupted (len buf)), w, net)
     else if 0 <? remaining then (Transient (ClosedEarly (len buf) (br_len r)), w, net)
     else (Done, w, net)) = (out, w', net') → len base < br_len r →
    part_only k (w_disk w) (w_disk w') ∧
    ∃ x y, d_parts (w_disk w') !! k = Some (base ++ x) ∧ delivered body = x ++ y ∧
      len (base ++ x) ≤ br_len r ∧ (out = Done → len (base ++ x) = br_len r)) as Hgo.
  { intros base Hb Hlb. cbv zeta in Hb. set (w1 := report _ _) in Hb.
    destruct (stream_loop prog k body (br_len r - len base) base net w1) as [[[[br rem'] buf] net1] w2] eqn:Es.
    apply stream_loop_spec in Es as (x & y & -> & Hd & Hl & Hrm & Hp & Hpo & _);
      [|lia|simpl; by rewrite lookup_insert_eq].
    assert (part_only k (w_disk w) (w_disk w1)) as Hpo1.
    { etransitivity; [exact Hpo0|]. apply part_only_insert. }
    assert (w' = w2 ∧ (out = Done → ¬ 0 < rem')) as [-> Hdone].
    { destruct br; [by injection Hb as <- <- <-|].
      destruct (Z.ltb_spec 0 rem'); injection Hb as <- <- <-; split; done || lia. }
    split; [by etransitivity|]. exists x, y. rewrite len_app. split; [done|]. split; [done|].
    split; [lia|]. intros Ho. specialize (Hdone Ho). lia. }
  destruct (Z.eqb_spec status PARTIAL_CONTENT) as [->|_].
  { destruct (Hgo base0 H Hbl) as (Hpo & x & y & H1 & H2 & H3 & H4). split; [done|]. split.
    - right; right. exists PARTIAL_CONTENT, cr, cl, body, base0, x, y. naive_solver.
    - intros Ho. eauto. }
  destruct (Z.eqb_spec status STATUS_OK) as [->|_].
  { destruct (Z.ltb_spec 0 (br_start r)) as [Hst|Hst].
    { injection H as <- <- <-. split; [done|]. split; [by destruct Hp0; [left|right; left]|done]. }
    destruct (Hgo [] H) as (Hpo & x & y & H1 & H2 & H3 & H4); [by change (len []) with 0|].
    split; [done|]. split.
    - right; right. exists STATUS_OK, cr, cl, body, [], x, y. split; [done|]. split; [by right|]. done.
    - intros Ho. eauto. }
  destruct (status =? RANGE_NOT_SATISFIABLE).
  { injection H as <- <- <-. split; [etransitivity; [exact Hpo0|apply part_only_delete]|].
    split; [left; simpl; by rewrite lookup_delete_eq|done]. }
  destruct (is_server_error status); injection H as <- <- <-; (split; [done|]);
    (split; [by destruct Hp0; [left|right; left]|done]).
Qed.

(** ** One range *)
Context (blake3 : bytes → string).

(** Only range [k] differs: its part, and its file if [f] is given. *)
Record range_only (k : Z * Z) (f : option bytes) (d d' : Disk) : Prop := {
  ro_files : d_files d' = match f with Some c => <[k := c]> (d_files d) | None => d_files d end;
  ro_manifest : d_manifest d' = d_manifest d;
  ro_model : d_model d' = d_model d;
  ro_parts k' : k' ≠ k → d_parts d' !! k' = d_parts d !! k' }.

Lemma range_only_after k f d d' d'' : part_only k d d' → range_only k f d' d'' → range_only k f d d''.
Proof using.
  intros [A B C D] [A' B' C' D']. split; try congruence.
  - rewrite A'. by rewrite A.
  - intros k' Hk. rewrite D' by done. by apply D.
Qed.

Lemma fetch_attempts_spec n r expected prog last w net o w' :
  br_start r < br_end r →
  fetch_attempts server blake3 n r expected prog last w net = (o, w') →
  o ≠ Panic ∧
  (∀ h net', o = Ok (h, net') → ∃ c, range_only (range_key r) (Some c) (w_disk w) (w_disk w') ∧
     len c = br_len r ∧ blake3 c = h ∧ (∀ e, expected = Some e → h = e)) ∧
  (∀ e, o = Err e → range_only (range_key r) None (w_disk w) (w_disk w')).
Proof using.
  intros Hr. revert last w net. induction n as [|n IH]; intros last w net H; cbn [fetch_attempts] in H.
  { injection H as <- <-. split; [done|]. split; [done|]. done. }
  destruct (range_attempt server r prog w net) as [[out w1] net1] eqn:Ea.
  apply range_attempt_spec in Ea as (Hpo & _ & Hdone); [|done].
  assert (∀ last w2 net2, part_only (range_key r) (w_disk w1) (w_disk w2) →
    fetch_attempts server blake3 n r expected prog last w2 net2 = (o, w') →
    o ≠ Panic ∧
    (∀ h net', o = Ok (h, net') → ∃ c, range_only (range_key r) (Some c) (w_disk w) (w_disk w') ∧
       len c = br_len r ∧ blake3 c = h ∧ (∀ e, expected = Some e → h = e)) ∧
    (∀ e, o = Err e → range_only (range_key r) None (w_disk w) (w_disk w'))) as Hnext.
  { intros l2 w2 net2 Hpo2 H2. apply IH in H2 as (H1 & H2 & H3).
    assert (part_only (range_key r) (w_disk w) (w_disk w2)) as Hp by (by etransitivity).
    split; [done|]. split.
    - intros h net' Ho. destruct (H2 h net' Ho) as (c & Hc & Hrest). exists c. split; [|done].
      by eapply range_only_after.
    - intros e He. eapply range_only_after; [exact Hp|]. by apply (H3 e). }
  destruct out as [|e|why].
  - destruct (Hdone eq_refl) as (p & Hp & Hl). rewrite Hp in H. cbv zeta in H.
    destruct (match expected with Some e => negb (String.eqb e (blake3 p)) | None => false end) eqn:Ebad.
    + eapply Hnext; [|exact H]. apply part_only_delete.
    + injection H as <- <-. split; [done|]. split; [|done]. intros h net' [= <- <-]. exists p.
      destruct Hpo as [A B C D]. split; [|split; [done|split; [done|]]].
      * split; simpl; [by rewrite A|done|done|]. intros k' Hk. rewrite lookup_delete_ne by done. by apply D.
      * intros e ->. apply negb_false_iff, String.eqb_eq in Ebad. done.
  - injection H as <- <-. split; [done|]. split; [done|]. intros e' _. by destruct Hpo.
  - by eapply Hnext.
Qed.

(** ** The loop *)

(** The range is stored at its exact length under a matching hash. *)
Definition stored (m : RangeManifest) (d : Disk) (r : ByteRange) : Prop :=
  ∃ c, d_files d !! range_key r = Some c ∧ len c = br_len r ∧
    recorded m (range_key r) = Some (blake3 c).

(** The manifest on disk holds the entries of the one in memory. *)
Definition synced (m : RangeManifest) (d : Disk) : Prop :=
  ∃ dm, d_manifest d = Some dm ∧ rm_ranges dm = rm_ranges m ∧ rm_total_size dm = rm_total_size m.

(** What a step on [r] keeps: recorded hashes, other ranges, the full file. *)
Record step_ok (r : ByteRange) (m m' : RangeManifest) (d d' : Disk) : Prop := {
  so_synced : synced m d ∨ rm_ranges m = [] → synced m' d' ∨ rm_ranges m' = [];
  so_total : rm_total_size m' = rm_total_size m;
  so_model : d_model d' = d_model d;
  so_files k : k ≠ range_key r → d_files d' !! k = d_files d !! k;
  so_recorded k : k ≠ range_key r → recorded m' k = recorded m k;
  so_kept h : recorded m (range_key r) = Some h → recorded m' (range_key r) = Some h }.

Lemma download_range_spec total r st w o w' :
  br_start r < br_end r →
  download_range server blake3 total r st w = (o, w') →
  o ≠ Panic ∧
  ∀ st', o = Ok st' → stored (f_manifest st') (w_disk w') r ∧
    step_ok r (f_manifest st) (f_manifest st') (w_disk w) (w_disk w').
Proof using.
  intros Hr H. unfold download_range in H. unfold fetch_one_range in H.
  set (k := range_key r) in *. set (m := f_manifest st) in *.
  destruct (fetch_attempts _ _ _ _ _ _ _ _ _) as [o1 w1] eqn:E.
  apply fetch_attempts_spec in E as (Hnp & Hok & _); [|done].
  destruct o1 as [[h n]|e|]; [|by injection H as <- <-|done].
  injection H as <- <-. split; [done|]. intros st' [= <-]. cbn [f_manifest].
  destruct (Hok h n eq_refl) as (c & [A B C D] & Hl & Hh & Hexp). split.
  - exists c. simpl. rewrite A. split; [apply lookup_insert_eq|]. split; [done|].
    rewrite recorded_upsert, decide_True by done. by rewrite Hh.
  - split.
    + intros _. left. eexists. split; [reflexivity|]. done.
    + unfold upsert_range. done.
    + done.
    + intros k' Hk. simpl. rewrite A. by rewrite lookup_insert_ne.
    + intros k' Hk. by rewrite recorded_upsert, decide_False.
    + intros h' Hh'. rewrite recorded_upsert, decide_True by done. f_equal. by apply Hexp.
Qed.

Lemma step_ok_drop r m m' d d' :
  step_ok r m m' (set_files (delete (range_key r) (d_files d)) d) d' → step_ok r m m' d d'.
Proof using.
  intros [A B C D E F]. split; try done. intros k Hk. rewrite (D k Hk). simpl. by rewrite lookup_delete_ne.
Qed.

Lemma fetch_step_spec total r st w o w' :
  br_start r < br_end r →
  fetch_step server blake3 total r st w = (o, w') →
  o ≠ Panic ∧
  ∀ st', o = Ok st' → stored (f_manifest st') (w_disk w') r ∧
    step_ok r (f_manifest st) (f_manifest st') (w_disk w) (w_disk w').
Proof using.
  intros Hr H. unfold fetch_step in H. cbv zeta in H.
  set (k := range_key r) in *. set (m := f_manifest st) in *.
  assert (∀ w1, w_disk w1 = set_files (delete k (d_files (w_disk w))) (w_disk w) →
    download_range server blake3 total r st w1 = (o, w') →
    o ≠ Panic ∧
    ∀ st', o = Ok st' → stored (f_manifest st') (w_disk w') r ∧
      step_ok r (f_manifest st) (f_manifest st') (w_disk w) (w_disk w')) as Hdrop.
  { intros w1 Hw1 Hd. apply download_range_spec in Hd as [H1 H2]; [|done]. split; [done|].
    intros st' Ho. destruct (H2 st' Ho) as [H3 H4]. split; [done|]. rewrite Hw1 in H4. by apply step_ok_drop. }
  destruct (d_files (w_disk w) !! k) as [c|] eqn:Ef; [|by eapply download_range_spec].
  destruct (Z.eqb_spec (len c) (br_len r)) as [Hl|Hl]; [|eapply Hdrop; [|exact H]; done].
  destruct (recorded m k) as [e|] eqn:Er; cbn iota in H.
  - destruct (String.eqb_spec e (blake3 c)) as [->|]; simpl in H; [|eapply Hdrop; [|exact H]; done].
    injection H as <- <-. split; [done|]. intros st' [= <-]. cbn [f_manifest].
    split; [exists c; done|]. by split.
  - injection H as <- <-. split; [done|]. intros st' [= <-]. cbn [f_manifest]. split.
    + exists c. simpl. split; [done|]. split; [done|]. by rewrite recorded_upsert, decide_True.
    + split.
      * intros _. left. eexists. split; [reflexivity|]. done.
      * done.
      * done.
      * done.
      * intros k' Hk. by rewrite recorded_upsert, decide_False.
      * fold k. intros h Hh. congruence.
Qed.

Lemma stored_step r0 r m m' d d' :
  stored m' d' r → step_ok r m m' d d' → stored m d r0 → stored m' d' r0.
Proof using.
  intros Hr [_ _ _ D E _] Hr0. destruct (decide (range_key r0 = range_key r)) as [Hk|Hk].
  - assert (r0 = r) as ->; [|done]. destruct r0, r. unfold range_key in Hk. simpl in Hk. congruence.
  - destruct Hr0 as (c & H1 & H2 & H3). exists c. rewrite D, E by done. done.
Qed.

Lemma recorded_step k h r m m' d d' : step_ok r m m' d d' → recorded m k = Some h → recorded m' k = Some h.
Proof using.
  intros [_ _ _ _ E F] Hh. destruct (decide (k = range_key r)) as [->|Hk]; [by apply F|]. by rewrite E.
Qed.

(** What a run of the loop keeps and establishes. *)
Record run_ok (rs : list ByteRange) (m m' : RangeManifest) (d d' : Disk) : Prop := {
  ru_synced : synced m d ∨ rm_ranges m = [] → synced m' d' ∨ rm_ranges m' = [];
  ru_total : rm_total_size m' = rm_total_size m;
  ru_kept k h : recorded m k = Some h → recorded m' k = Some h;
  ru_stays r : stored m d r → stored m' d' r;
  ru_stored r : r ∈ rs → stored m' d' r }.

Lemma fetch_loop_spec total rs st w o w' :
  Forall (λ r, br_start r < br_end r) rs →
  fetch_loop server blake3 total rs st w = (o, w') →
  o ≠ Panic ∧
  ∀ n, o = Ok n → ∃ m', run_ok rs (f_manifest st) m' (w_disk w) (w_disk w').
Proof using.
  intros Hrs. revert st w. induction Hrs as [|r rs Hr Hrs IH]; intros st w H; cbn [fetch_loop] in H.
  { injection H as <- <-. split; [done|]. intros n _. exists (f_manifest st). split; try done.
    intros r Hr. by apply not_elem_of_nil in Hr. }
  destruct (fetch_step server blake3 total r st w) as [o1 w1] eqn:Es.
  apply fetch_step_spec in Es as [Hnp Hok]; [|done].
  destruct o1 as [st1|e|]; [|by injection H as <- <-|done].
  destruct (Hok st1 eq_refl) as [Hst Hstep]. apply IH in H as [H1 H2]. split; [done|].
  intros n Ho. destruct (H2 n Ho) as (m' & [A B C D E]). exists m'. split.
  - intros Hs. by apply A, (so_synced _ _ _ _ _ Hstep).
  - rewrite B. by apply (so_total _ _ _ _ _ Hstep).
  - intros k h Hh. apply C. by eapply recorded_step.
  - intros r0 Hr0. apply D. by eapply stored_step.
  - intros r0 Hr0. apply elem_of_cons in Hr0 as [->|Hr0]; [by apply D|by apply E].
Qed.

(** Stored ranges are not touched again, whatever the server. *)
Lemma fetch_step_present total r st w :
  stored (f_manifest st) (w_disk w) r →
  ∃ completed, fetch_step server blake3 total r st w =
    (Ok (MkFetch (f_manifest st) completed (f_network st)), report (completed, total) w).
Proof using.
  intros (c & Hf & Hl & Hr). unfold fetch_step. rewrite Hf, Hr, Hl, Z.eqb_refl, String.eqb_refl. simpl.
  by eexists.
Qed.

Lemma fetch_loop_present total rs st w :
  (∀ r, r ∈ rs → stored (f_manifest st) (w_disk w) r) →
  ∃ w', fetch_loop server blake3 total rs st w = (Ok (f_network st), w') ∧
    w_disk w' = w_disk w ∧ w_sent w' = w_sent w.
Proof using.
  revert st w. induction rs as [|r rs IH]; intros st w Hst; [by exists w|]. cbn [fetch_loop].
  destruct (fetch_step_present total r st w) as [c ->]; [apply Hst; by left|].
  destruct (IH (MkFetch (f_manifest st) c (f_network st)) (report (c, total) w)) as (w' & -> & H1 & H2).
  { intros r0 Hr0. apply Hst. by right. }
  by exists w'.
Qed.

Lemma plan_valid plan :
  find_first (invalid plan) (rp_ranges plan) = None →
  Forall (λ r, br_start r < br_end r ∧ br_end r ≤ rp_total_size plan) (rp_ranges plan).
Proof using.
  rewrite find_first_None. intros H. eapply Forall_impl; [exact H|]. intros r. unfold invalid.
  rewrite orb_false_iff, Z.leb_gt, Z.ltb_ge. lia.
Qed.

Lemma starting_ok url plan d :
  let '(m, d1) := starting_manifest url plan d in
  (synced m d1 ∨ rm_ranges m = []) ∧ rm_total_size m = rp_total_size plan ∧ d_model d1 = d_model d ∧
  (∀ m0 k h, d_manifest d = Some m0 → rm_total_size m0 = rp_total_size plan →
     recorded m0 k = Some h → recorded m k = Some h).
Proof using.
  unfold starting_manifest. destruct (d_manifest d) as [m|] eqn:Em.
  - destruct (Z.eqb_spec (rm_total_size m) (rp_total_size plan)) as [Ht|Ht].
    + split; [left; by exists m|]. split; [done|]. split; [done|]. by intros m0 k h [= <-].
    + split; [by right|]. split; [done|]. split; [done|]. intros m0 k h [= <-]. congruence.
  - split; [by right|]. done.
Qed.
End attempt.

Lemma fetch_ranges_outcome server blake3 url plan w o w' :
  fetch_ranges server blake3 url plan w = (o, w') →
  o ≠ Panic ∧
  ∀ n, o = Ok n →
    (∃ f, d_model (w_disk w) = Some f ∧ len f = rp_total_size plan ∧ n = 0) ∨
    ∀ r, r ∈ rp_ranges plan → ∃ m, d_manifest (w_disk w') = Some m ∧ stored blake3 m (w_disk w') r ∧
      ∀ m0 h, d_manifest (w_disk w) = Some m0 → rm_total_size m0 = rp_total_size plan →
        recorded m0 (range_key r) = Some h → recorded m (range_key r) = Some h.
Proof.
  intros H. unfold fetch_ranges in H.
  destruct (find_first (invalid plan) (rp_ranges plan)) as [bad|] eqn:Ei; [by injection H as <- <-|].
  apply plan_valid in Ei. cbv zeta in H. set (total := u64_sum _) in H. cbn [w_disk report] in H.
  destruct (match d_model (w_disk w) with Some f => len f =? rp_total_size plan | None => false end) eqn:Ew.
  { injection H as <- <-. split; [done|]. intros n [= <-]. left.
    destruct (d_model (w_disk w)) as [f|]; [|done]. exists f. apply Z.eqb_eq in Ew. done. }
  pose proof (starting_ok url plan (w_disk w)) as Hst.
  destruct (starting_manifest url plan (w_disk w)) as [m d1]. destruct Hst as (Hs & Ht & _ & Hrec).
  apply fetch_loop_spec in H as [H1 H2]; [|eapply Forall_impl; [exact Ei|]; simpl; lia].
  split; [done|]. intros n Ho. right. intros r Hr. destruct (H2 n Ho) as (m' & [A _ C _ E]).
  destruct (E r Hr) as (c & Hc & Hl & Hh). simpl in A.
  destruct (A Hs) as [(dm & Hdm & Hranges & _)|Hempty]; [|unfold recorded in Hh; by rewrite Hempty in Hh].
  assert (∀ k, recorded dm k = recorded m' k) as Hrd by (intros k; unfold recorded; by rewrite Hranges).
  exists dm. split; [done|]. split; [exists c; by rewrite Hrd|]. intros m0 h Hm0 Htm0 Hr0. simpl in C.
  pose proof (C _ _ (Hrec _ _ _ Hm0 Htm0 Hr0)) as Hkeep. congruence.
Qed.

(** A successful fetch is verified.  Whatever the server answers, a fetch
    never panics; and if it succeeds without a complete model file in place,
    every planned range is on disk at its exact length, listed in the stored
    manifest under the BLAKE3 of its bytes, and identical in hash to what an
    earlier manifest of the same file had recorded for it. *)
Theorem fetch_ranges_verified server blake3 url plan w o w' :
  fetch_ranges server blake3 url plan w = (o, w') →
  o ≠ Panic ∧
  ∀ n, o = Ok n →
    (∃ f, d_model (w_disk w) = Some f ∧ len f = rp_total_size plan ∧ n = 0) ∨
    ∀ r, r ∈ rp_ranges plan → ∃ m, d_manifest (w_disk w') = Some m ∧ stored blake3 m (w_disk w') r ∧
      ∀ m0 h, d_manifest (w_disk w) = Some m0 → rm_total_size m0 = rp_total_size plan →
        recorded m0 (range_key r) = Some h → recorded m (range_key r) = Some h.
Proof. apply fetch_ranges_outcome. Qed.

(** Nothing happened on disk or on the network. *)
Definition quiet (w w' : World) : Prop := w_disk w' = w_disk w ∧ w_sent w' = w_sent w.

(** Nothing is fetched twice.  After a successful fetch, fetching the same
    plan again, from any server and under any URL, succeeds with zero network
    bytes, sends no request and leaves the directory as it was. *)
Theorem fetch_ranges_idempotent server server' blake3 url url' plan w n w' :
  fetch_ranges server blake3 url plan w = (Ok n, w') →
  ∃ w'', fetch_ranges server' blake3 url' plan w' = (Ok 0, w'') ∧ quiet w' w''.
Proof.
  intros H. unfold fetch_ranges in H |- *.
  destruct (find_first (invalid plan) (rp_ranges plan)) as [bad|] eqn:Ei; [done|].
  apply plan_valid in Ei. cbv zeta in H |- *. set (total := u64_sum _) in *. cbn [w_disk report] in H |- *.
  destruct (match d_model (w_disk w) with Some f => len f =? rp_total_size plan | None => false end) eqn:Ew.
  { injection H as _ <-. simpl. rewrite Ew. by eexists. }
  pose proof (starting_ok url plan (w_disk w)) as Hst.
  destruct (starting_manifest url plan (w_disk w)) as [m d1] eqn:Esm. destruct Hst as (Hs & Ht & Hmod & _).
  assert (rp_ranges plan = [] ∨ rp_ranges plan ≠ []) as [Hnil|Hne] by (destruct (rp_ranges plan); auto).
  { rewrite Hnil in H |- *. cbn [fetch_loop] in H |- *. injection H as _ <-. simpl. rewrite Hmod, Ew.
    assert ((starting_manifest url' plan d1).2 = d1) as Hid.
    { unfold starting_manifest in Esm |- *. destruct (d_manifest (w_disk w)) as [m0|] eqn:Em.
      - destruct (Z.eqb_spec (rm_total_size m0) (rp_total_size plan)) as [E0|E0]; injection Esm as <- <-.
        + rewrite Em. by rewrite E0, Z.eqb_refl.
        + simpl. rewrite Em. destruct (Z.eqb_spec (rm_total_size m0) (rp_total_size plan)); done.
      - injection Esm as <- <-. by rewrite Em. }
    destruct (starting_manifest url' plan d1) as [m2 d2]. simpl in Hid. subst d2. by eexists. }
  pose proof H as Hloop. apply fetch_loop_spec in H as [_ H2]; [|eapply Forall_impl; [exact Ei|]; simpl; lia].
  destruct (H2 n eq_refl) as (m' & [A B _ _ E]). simpl in A, B.
  assert (∃ r, r ∈ rp_ranges plan) as [r0 Hr0]. { destruct (rp_ranges plan) as [|r0 l]; [done|]. exists r0. by left. }
  destruct (A Hs) as [(dm & Hdm & Hranges & Hdt)|Hempty].
  2: { destruct (E r0 Hr0) as (c & _ & _ & Hh). unfold recorded in Hh. by rewrite Hempty in Hh. }
  destruct (match d_model (w_disk w') with Some f => len f =? rp_total_size plan | None => false end);
    [by eexists|].
  unfold starting_manifest. rewrite Hdm, Hdt, B, Ht, Z.eqb_refl.
  match goal with |- context [fetch_loop server' blake3 total _ ?st ?w2] =>
    destruct (fetch_loop_present server' blake3 total (rp_ranges plan) st w2) as (w3 & -> & H3 & H4) end.
  - intros r Hr. destruct (E r Hr) as (c & Hc & Hl & Hh). exists c. simpl.
    split; [done|]. split; [done|]. unfold recorded in *. simpl. by rewrite Hranges.
  - by eexists.
Qed.

(** ** An example: a ten-byte file, two ranges, a server that breaks off once *)
Definition ex_file : bytes := list_ascii_of_string "0123456789".
Definition ex_server (n : nat) (from last : Z) : Reply :=
  match n with
  | O => SendFailed
  | S O => Response PARTIAL_CONTENT None None [Data (take 2 (drop (Z.to_nat from) ex_file)); Broken]
  | _ => Response PARTIAL_CONTENT None None
           [Data (take (Z.to_nat (last - from + 1)) (drop (Z.to_nat from) ex_file))]
  end.
Definition ex_hash (b : bytes) : string := string_of_list_ascii b.
Definition ex_range_plan : RangePlan := MkRangePlan 10 4 [MkByteRange 0 4; MkByteRange 4 9].
Definition ex_world : World := MkWorld (MkDisk None ∅ ∅ None) 0 [].
Definition ex_result : res RangeError Z * World := fetch_ranges ex_server ex_hash "u" ex_range_plan ex_world.

Lemma fetch_ranges_verified_witness :
  ex_result.1 = Ok 9 ∧
  ∃ m c, d_manifest (w_disk ex_result.2) = Some m ∧ d_files (w_disk ex_result.2) !! (4, 9) = Some c ∧
    len c = 5 ∧ recorded m (4, 9) = Some (ex_hash c).
Proof.
  destruct (fetch_ranges_verified ex_server ex_hash "u" ex_range_plan ex_world ex_result.1 ex_result.2)
    as [_ H]; [vm_compute; reflexivity|].
  split; [vm_compute; reflexivity|].
  destruct (H 9) as [(f & Hf & _)|H9]; [vm_compute; reflexivity|discriminate Hf|].
  destruct (H9 (MkByteRange 4 9)) as (m & H1 & (c & H2 & H3 & H4) & _); [right; left|].
  exists m, c. split; [exact H1|]. split; [exact H2|]. split; [exact H3|exact H4].
Defined.

Lemma fetch_ranges_idempotent_witness :
  ∃ w, fetch_ranges (λ _ _ _, SendFailed) ex_hash "v" ex_range_plan ex_result.2 = (Ok 0, w) ∧ w_sent w = 4%nat.
Proof.
  destruct (fetch_ranges_idempotent ex_server (λ _ _ _, SendFailed) ex_hash "u" "v" ex_range_plan ex_world 9
    ex_result.2) as (w & H1 & _ & H2); [vm_compute; reflexivity|].
  exists w. split; [exact H1|]. rewrite H2. vm_compute. reflexivity.
Defined.
