(* ===== verification/RangeContent.v ===== *)
(** * Fetched ranges are the file's bytes

    With a server that serves one file honestly, the range store only ever
    holds bytes of that file, at every exit of the fetcher, and what was
    fetched reads back exactly.  Also: everything a node advertises it can
    serve. *)

From Stdlib Require Import ZArith Lia Ascii String.
From stdpp Require Import base list strings option gmap.
From S2P Require Import Prelude StrUtil Gguf Http Ranges RangeFetch.

Open Scope Z_scope.

(** Bytes [[k.1, k.2)] of a file. *)
Definition slice (F : bytes) (k : Z * Z) : bytes := take (Z.to_nat (k.2 - k.1)) (drop (Z.to_nat k.1) F).

(** The server answers a ranged request with bytes of the file from the first
    byte asked for, or with the whole file, possibly cut short. *)
Definition honest (F : bytes) (server : nat → Z → Z → Reply) : Prop :=
  ∀ n from last status cr cl body, server n from last = Response status cr cl body → 0 ≤ from →
    (status = PARTIAL_CONTENT → delivered body `prefix_of` drop (Z.to_nat from) F) ∧
    (status = STATUS_OK → delivered body `prefix_of` F).

(** The directory holds only bytes of the file. *)
Record clean (F : bytes) (d : Disk) : Prop := {
  cl_files k c : d_files d !! k = Some c → 0 ≤ k.1 ∧ c = slice F k;
  cl_parts k p : d_parts d !! k = Some p → p `prefix_of` slice F k;
  cl_model f : d_model d = Some f → f = F }.

(** A range inside the file. *)
Definition inside (F : bytes) (r : ByteRange) : Prop := 0 ≤ br_start r < br_end r ∧ br_end r ≤ len F.

Lemma len_slice F k : 0 ≤ k.1 ≤ k.2 → k.2 ≤ len F → len (slice F k) = k.2 - k.1.
Proof. unfold len, slice. intros H1 H2. rewrite length_take, length_drop. lia. Qed.

Lemma prefix_take_le (p l : bytes) n : p `prefix_of` l → (length p ≤ n)%nat → p `prefix_of` take n l.
Proof.
  intros [q ->] Hn. rewrite take_app_ge by done. by apply prefix_app_r.
Qed.

Lemma prefix_full (p l : bytes) : p `prefix_of` l → len p = len l → p = l.
Proof.
  unfold len. intros [q ->] Hl. rewrite length_app in Hl. destruct q; [by rewrite app_nil_r|simpl in Hl; lia].
Qed.

(** A prefix of a slice extends by the bytes that follow it. *)
Lemma extend_prefix F s L (base x : bytes) :
  base `prefix_of` take L (drop s F) → x `prefix_of` drop (s + length base) F →
  (length (base ++ x) ≤ L)%nat → base ++ x `prefix_of` take L (drop s F).
Proof.
  intros [q Hq] [y Hy] Hl. apply prefix_take_le; [|done].
  assert (drop s F = base ++ drop (s + length base) F) as Hd.
  { rewrite <- drop_drop. rewrite <- (take_drop L (drop s F)) at 1. rewrite Hq.
    rewrite <- (take_drop L (drop s F)) at 2. rewrite Hq, <- !app_assoc.
    f_equal. by rewrite drop_app_length. }
  rewrite Hd, Hy, app_assoc. by apply prefix_app_r.
Qed.

Section content.
Context (server : nat → Z → Z → Reply) (blake3 : bytes → string) (F : bytes).
Context (Hhonest : honest F server) (Hsize : len F < 2 ^ 64).

Lemma clean_part_only r d d' :
  clean F d → part_only (range_key r) d d' →
  (∀ p, d_parts d' !! range_key r = Some p → p `prefix_of` slice F (range_key r)) → clean F d'.
Proof using.
  intros [A B C] [A' B' C' D'] Hp. split.
  - intros k c. rewrite A'. apply A.
  - intros k p. destruct (decide (k = range_key r)) as [->|Hk]; [apply Hp|]. rewrite D' by done. apply B.
  - intros f. rewrite C'. apply C.
Qed.

Lemma range_attempt_clean r prog w net out w' net' :
  inside F r → clean F (w_disk w) → range_attempt server r prog w net = (out, w', net') →
  clean F (w_disk w').
Proof using Hhonest Hsize.
  intros [[Hs0 Hse] Hend] Hc H. apply range_attempt_spec in H as (Hpo & Hpart & _); [|done].
  apply (clean_part_only r _ _ Hc Hpo). intros p Hp.
  destruct Hpart as [H|[H|(status & cr & cl & body & base & x & y & Hsrv & Hbase & H & Hd & Hle & _)]].
  - congruence.
  - rewrite H in Hp. by apply (cl_parts F _ Hc).
  - rewrite H in Hp. injection Hp as <-. unfold slice, range_key, br_len, sat_sub in *. simpl.
    assert (usable_part r w `prefix_of` slice F (range_key r) ∧ len (usable_part r w) ≤ br_end r - br_start r) as [Hu Hul].
    { unfold usable_part. destruct (Z.leb_spec (br_len r) (len (default [] (d_parts (w_disk w) !! range_key r)))) as [|Hlt].
      - change (len []) with 0. split; [apply prefix_nil|lia].
      - unfold br_len, sat_sub in Hlt. destruct (d_parts (w_disk w) !! range_key r) as [q|] eqn:Eq; simpl in *.
        + split; [by apply (cl_parts F _ Hc)|lia].
        + split; [apply prefix_nil|change (len []) with 0; lia]. }
    assert (u64_add (br_start r) (len (usable_part r w)) = br_start r + len (usable_part r w)) as Hfrom.
    { apply wrap64_small. pose proof (len_nonneg (usable_part r w)). unfold in_u64. lia. }
    rewrite Hfrom in Hsrv. pose proof (len_nonneg (usable_part r w)).
    destruct (Hhonest _ _ _ _ _ _ _ Hsrv ltac:(lia)) as [H206 H200].
    assert (x `prefix_of` delivered body) as Hx by (rewrite Hd; by apply prefix_app_r).
    unfold len in Hle.
    destruct Hbase as [[-> ->]|(-> & Hst & ->)].
    + apply extend_prefix; [exact Hu| |lia]. etransitivity; [exact Hx|].
      specialize (H206 eq_refl). unfold len in H206.
      replace (Z.to_nat (br_start r) + length (usable_part r w))%nat
        with (Z.to_nat (br_start r + Z.of_nat (length (usable_part r w)))) by lia. done.
    + simpl in *. assert (br_start r = 0) as -> by lia. rewrite drop_0. apply prefix_take_le; [|lia].
      etransitivity; [exact Hx|]. by apply H200.
Qed.

Lemma fetch_attempts_clean n r expected prog last w net o w' :
  inside F r → clean F (w_disk w) →
  fetch_attempts server blake3 n r expected prog last w net = (o, w') → clean F (w_disk w').
Proof using Hhonest Hsize.
  intros Hr. revert last w net. induction n as [|n IH]; intros last w net Hc H; cbn [fetch_attempts] in H.
  { by injection H as <- <-. }
  destruct (range_attempt server r prog w net) as [[out w1] net1] eqn:Ea.
  pose proof (range_attempt_clean _ _ _ _ _ _ _ Hr Hc Ea) as Hc1.
  apply range_attempt_spec in Ea as (_ & _ & Hdone); [|apply Hr].
  destruct out as [|e|why]; [|by injection H as <- <-|by eapply IH].
  destruct (Hdone eq_refl) as (p & Hp & Hl). rewrite Hp in H. cbv zeta in H.
  destruct (match expected with Some e => negb (String.eqb e (blake3 p)) | None => false end).
  - eapply IH; [|exact H]. eapply (clean_part_only r); [exact Hc1|apply part_only_delete|].
    intros q Hq. simpl in Hq. by rewrite lookup_delete_eq in Hq.
  - injection H as <- <-. destruct Hr as [Hse Hend].
    assert (p = slice F (range_key r)) as ->.
    { apply prefix_full; [by apply (cl_parts F _ Hc1)|]. rewrite len_slice; simpl; try lia.
      rewrite Hl. unfold br_len, sat_sub. lia. }
    destruct Hc1 as [A B C]. split; simpl; [|intros k q Hq|done].
    + intros k c. destruct (decide (k = range_key r)) as [->|Hk].
      * rewrite lookup_insert_eq. intros [= <-]. split; [simpl; lia|done].
      * rewrite lookup_insert_ne by done. apply A.
    + destruct (decide (k = range_key r)) as [->|Hk]; [by rewrite lookup_delete_eq in Hq|].
      rewrite lookup_delete_ne in Hq by done. by apply B.
Qed.

Lemma clean_set_manifest m d : clean F d → clean F (set_manifest m d).
Proof using. by intros [A B C]. Qed.
Lemma clean_delete_file k d : clean F d → clean F (set_files (delete k (d_files d)) d).
Proof using. intros [A B C]. split; simpl; [|done|done]. intros k' c [_ H]%lookup_delete_Some. by apply A. Qed.

Lemma download_range_clean total r st w o w' :
  inside F r → clean F (w_disk w) → download_range server blake3 total r st w = (o, w') → clean F (w_disk w').
Proof using Hhonest Hsize.
  intros Hr Hc H. unfold download_range, fetch_one_range in H.
  destruct (fetch_attempts _ _ _ _ _ _ _ _ _) as [o1 w1] eqn:E.
  apply fetch_attempts_clean in E; [|done..].
  destruct o1 as [[h n]|e|]; injection H as <- <-; try done; by apply clean_set_manifest.
Qed.

Lemma fetch_step_clean total r st w o w' :
  inside F r → clean F (w_disk w) → fetch_step server blake3 total r st w = (o, w') → clean F (w_disk w').
Proof using Hhonest Hsize.
  intros Hr Hc H. unfold fetch_step in H. cbv zeta in H.
  assert (∀ w1, clean F (w_disk w1) → download_range server blake3 total r st w1 = (o, w') → clean F (w_disk w'))
    as Hd by (intros w1 Hc1; by apply download_range_clean).
  destruct (d_files (w_disk w) !! range_key r) as [c|]; [|by eapply Hd].
  destruct (len c =? br_len r); [|eapply Hd; [|exact H]; by apply clean_delete_file].
  destruct (recorded _ _) as [e|]; [destruct (negb _)|]; cbn iota in H.
  - eapply Hd; [|exact H]. by apply clean_delete_file.
  - by injection H as <- <-.
  - injection H as <- <-. by apply clean_set_manifest.
Qed.

Lemma fetch_loop_clean total rs st w o w' :
  Forall (inside F) rs → clean F (w_disk w) → fetch_loop server blake3 total rs st w = (o, w') →
  clean F (w_disk w').
Proof using Hhonest Hsize.
  intros Hrs. revert st w. induction Hrs as [|r rs Hr Hrs IH]; intros st w Hc H; cbn [fetch_loop] in H.
  { by injection H as <- <-. }
  destruct (fetch_step server blake3 total r st w) as [o1 w1] eqn:Es.
  apply fetch_step_clean in Es; [|done..]. destruct o1; [by eapply IH|by injection H as <- <-..].
Qed.
End content.

Lemma clean_discard F d : clean F d → clean F (set_parts ∅ (set_files ∅ d)).
Proof. intros [A B C]. split; simpl; [intros k c H|intros k c H|done]; by rewrite lookup_empty in H. Qed.

Lemma fetch_ranges_clean server blake3 F url plan w o w' :
  honest F server → len F < 2 ^ 64 → rp_total_size plan = len F →
  Forall (λ r, 0 ≤ br_start r) (rp_ranges plan) → clean F (w_disk w) →
  fetch_ranges server blake3 url plan w = (o, w') → clean F (w_disk w').
Proof.
  intros Hh Hs Ht Hnn Hc H. unfold fetch_ranges in H.
  destruct (find_first (invalid plan) (rp_ranges plan)) as [bad|] eqn:Ei; [by injection H as <- <-|].
  apply plan_valid in Ei. cbv zeta in H. cbn [w_disk report] in H.
  destruct (match d_model (w_disk w) with Some f => len f =? rp_total_size plan | None => false end);
    [by injection H as <- <-|].
  destruct (starting_manifest url plan (w_disk w)) as [m d1] eqn:Esm.
  eapply fetch_loop_clean; [exact Hh|exact Hs| | |exact H]; simpl.
  - rewrite list.Forall_forall in *. intros r Hr. destruct (Ei r Hr). specialize (Hnn r Hr). unfold inside. lia.
  - unfold starting_manifest in Esm. destruct (d_manifest (w_disk w)) as [m0|]; [|by injection Esm as <- <-].
    destruct (rm_total_size m0 =? rp_total_size plan); injection Esm as <- <-; [done|by apply clean_discard].
Qed.

(** ** Reading back *)
Lemma slice_slice F k s e :
  0 ≤ k.1 ≤ s → s ≤ e → e ≤ k.2 → (s - k.1) + (e - s) ≤ len (slice F k) →
  take (Z.to_nat (e - s)) (drop (Z.to_nat (s - k.1)) (slice F k)) = slice F (s, e).
Proof.
  intros H1 H2 H3 Hl. unfold slice. simpl. rewrite skipn_firstn_comm, take_take, drop_drop.
  f_equal; [lia|f_equal; lia].
Qed.

Lemma read_entries_sound F d s e l b :
  clean F d → s < e → read_entries d s e l = Some b → b = slice F (s, e).
Proof.
  intros Hc Hse. induction l as [|x l IH]; simpl; [done|].
  destruct (_ && _) eqn:Ec; [|done]. apply andb_prop in Ec as [H1%Z.leb_le H2%Z.leb_le].
  destruct (read_slice (d_files d !! entry_key x) (s - re_start x) (e - s)) as [b'|] eqn:Er; [|done].
  intros [= <-]. unfold read_slice in Er. destruct (d_files d !! entry_key x) as [f|] eqn:Ef; [|done].
  simpl in Er. destruct (Z.leb_spec (s - re_start x + (e - s)) (len f)) as [Hl|]; [|done].
  injection Er as <-. destruct (cl_files F d Hc _ _ Ef) as [H0 ->]. simpl in H0.
  apply (slice_slice F (entry_key x)); simpl; lia || done.
Qed.

Lemma read_entries_found d s e l x b :
  x ∈ l → re_start x ≤ s → e ≤ re_end x →
  read_slice (d_files d !! entry_key x) (s - re_start x) (e - s) = Some b →
  ∃ b', read_entries d s e l = Some b'.
Proof.
  intros Hx H1 H2 Hr. induction l as [|y l IH]; [by apply not_elem_of_nil in Hx|]. simpl.
  apply elem_of_cons in Hx as [<-|Hx].
  - rewrite (proj2 (Z.leb_le _ _) H1), (proj2 (Z.leb_le _ _) H2). simpl. rewrite Hr. by eexists.
  - specialize (IH Hx). destruct (_ && _); [|done]. destruct (read_slice (d_files d !! entry_key y) _ _); [eexists; reflexivity|exact IH].
Qed.

Lemma read_range_sound F d s e b : clean F d → 0 ≤ s → read_range d s e = Ok b → b = slice F (s, e).
Proof.
  intros Hc Hs H. unfold read_range in H. destruct (Z.leb_spec e s); [done|].
  destruct (d_manifest d) as [m|]; simpl in H.
  - destruct (read_entries d s e (rm_ranges m)) as [b'|] eqn:Er.
    { injection H as <-. by eapply read_entries_sound. }
    unfold read_model in H. destruct (d_model d) as [f|] eqn:Ef; [|done]. simpl in H.
    rewrite (cl_model F d Hc _ Ef) in H. destruct (e <=? len F); [|done].
    unfold read_slice in H. simpl in H. destruct (_ <=? _); [|done]. by injection H as <-.
  - unfold read_model in H. destruct (d_model d) as [f|] eqn:Ef; [|done]. simpl in H.
    rewrite (cl_model F d Hc _ Ef) in H. destruct (e <=? len F); [|done].
    unfold read_slice in H. simpl in H. destruct (_ <=? _); [|done]. by injection H as <-.
Qed.

Lemma read_model_found F d s e : d_model d = Some F → 0 ≤ s < e → e ≤ len F → ∃ b, read_range d s e = Ok b.
Proof.
  intros Hm Hse He. unfold read_range. destruct (Z.leb_spec e s); [lia|].
  destruct (m ← d_manifest d; read_entries d s e (rm_ranges m)) as [b|]; [by eexists|].
  unfold read_model. rewrite Hm. simpl. rewrite (proj2 (Z.leb_le _ _) He). unfold read_slice. simpl.
  rewrite (proj2 (Z.leb_le _ _)) by lia. by eexists.
Qed.

Lemma recorded_elem m k h : recorded m k = Some h → ∃ x, x ∈ rm_ranges m ∧ entry_key x = k ∧ re_blake3 x = h.
Proof.
  unfold recorded, find_first. destruct (list_find _ _) as [[i x]|] eqn:E; [|done]. intros [= <-].
  apply list_find_Some in E as (H1 & H2 & _). apply bool_decide_eq_true in H2.
  exists x. split; [by eapply list_elem_of_lookup_2|done].
Qed.

(** What was fetched is the file.  From a server that serves the file
    honestly (its replies may be cut short or fail), into a directory that
    holds only bytes of the file: at every exit of the fetch the directory
    still holds only bytes of the file, and after a successful fetch every
    non-empty sub-range of a planned range reads back as exactly those bytes
    of the file. *)
Theorem fetch_then_read server blake3 F url plan w o w' :
  honest F server → len F < 2 ^ 64 → rp_total_size plan = len F →
  Forall (λ r, 0 ≤ br_start r) (rp_ranges plan) → clean F (w_disk w) →
  fetch_ranges server blake3 url plan w = (o, w') →
  clean F (w_disk w') ∧
  ∀ n r s e, o = Ok n → r ∈ rp_ranges plan → br_start r ≤ s < e → e ≤ br_end r →
    read_range (w_disk w') s e = Ok (slice F (s, e)).
Proof.
  intros Hh Hs Ht Hnn Hc H. pose proof (fetch_ranges_clean _ _ _ _ _ _ _ _ Hh Hs Ht Hnn Hc H) as Hc'.
  split; [done|]. intros n r s e Ho Hr Hse He.
  assert (0 ≤ br_start r) as H0 by (rewrite list.Forall_forall in Hnn; by apply Hnn).
  assert (∃ b, read_range (w_disk w') s e = Ok b) as [b Hb].
  2: { rewrite Hb. f_equal. eapply read_range_sound; [exact Hc'| |exact Hb]. lia. }
  unfold fetch_ranges in H.
  destruct (find_first (invalid plan) (rp_ranges plan)) as [bad|] eqn:Ei; [simplify_eq|].
  apply plan_valid in Ei. cbv zeta in H. cbn [w_disk report] in H.
  rewrite list.Forall_forall in Ei. pose proof (Ei r Hr) as [_ Hend].
  destruct (match d_model (w_disk w) with Some f => len f =? rp_total_size plan | None => false end) eqn:Ew.
  { injection H as _ <-. destruct (d_model (w_disk w)) as [f|] eqn:Ef; [|done].
    eapply (read_model_found F); simpl; [by rewrite Ef, (cl_model F _ Hc _ Ef)|lia|lia]. }
  pose proof (starting_ok url plan (w_disk w)) as Hst.
  destruct (starting_manifest url plan (w_disk w)) as [m d1]. destruct Hst as (Hsy & _).
  apply fetch_loop_spec in H as [_ H2]; [|rewrite list.Forall_forall; intros x Hx; by apply Ei].
  destruct (H2 n Ho) as (m' & [A _ _ _ E]). simpl in A. destruct (E r Hr) as (c & Hf & Hl & Hrec).
  destruct (A Hsy) as [(dm & Hdm & Hranges & _)|Hempty]; [|unfold recorded in Hrec; by rewrite Hempty in Hrec].
  apply recorded_elem in Hrec as (x & Hx & Hk & _). injection Hk as Hk1 Hk2.
  destruct (read_entries_found (w_disk w') s e (rm_ranges dm) x (slice F (s, e))) as [b Hb].
  - by rewrite Hranges.
  - lia.
  - lia.
  - unfold read_slice. change (entry_key x) with (re_start x, re_end x). rewrite Hk1, Hk2.
    change (br_start r, br_end r) with (range_key r). rewrite Hf. simpl.
    unfold br_len, sat_sub in Hl. rewrite (proj2 (Z.leb_le _ _)) by lia. f_equal.
    destruct (cl_files F _ Hc' _ _ Hf) as [_ ->]. apply (slice_slice F (range_key r)); simpl; lia || done.
  - exists b. unfold read_range. destruct (Z.leb_spec e s); [lia|]. rewrite Hdm. simpl. by rewrite Hb.
Qed.

(** A read of the entry returns all of its bytes. *)
Definition servable (d : Disk) (e : RangeEntry) : Prop :=
  ∃ b, read_range d (re_start e) (re_end e) = Ok b ∧ len b = re_end e - re_start e.

(** A node can serve everything it advertises.  Every non-empty entry of
    the inventory reads back, at its exact length, and comes from the stored
    manifest with the hash recorded there. *)
Theorem present_ranges_served d e :
  e ∈ present_ranges d → 0 ≤ re_start e < re_end e →
  servable d e ∧ ∃ m, d_manifest d = Some m ∧ e ∈ rm_ranges m.
Proof.
  intros He Hse. unfold present_ranges in He. destruct (d_manifest d) as [m|] eqn:Em; [|by apply not_elem_of_nil in He].
  rewrite (sort_by_Permutation cmp_entry) in He. apply list_elem_of_filter in He as [Hp Hin].
  split; [|by exists m].
  assert (∀ f off n b, read_slice f off n = Some b → 0 ≤ n → 0 ≤ off → len b = n) as Hlen.
  { intros f off n b Hr Hn Ho. unfold read_slice in Hr. destruct f as [f|]; [|done]. simpl in Hr.
    destruct (Z.leb_spec (off + n) (len f)); [|done]. injection Hr as <-. unfold len in *.
    rewrite length_take, length_drop. lia. }
  assert (∀ l b, read_entries d (re_start e) (re_end e) l = Some b → len b = re_end e - re_start e) as Hre.
  { intros l b. induction l as [|x l IH]; simpl; [done|]. destruct (_ && _) eqn:Ec; [|done].
    apply andb_prop in Ec as [H1%Z.leb_le H2%Z.leb_le].
    destruct (read_slice _ _ _) eqn:Er; [|done]. intros [= <-]. eapply Hlen; [exact Er|lia|lia]. }
  unfold servable, read_range. destruct (Z.leb_spec (re_end e) (re_start e)); [lia|]. rewrite Em. simpl.
  destruct (read_entries d (re_start e) (re_end e) (rm_ranges m)) as [b|] eqn:Er.
  { exists b. split; [done|]. by eapply Hre. }
  unfold is_present in Hp. apply orb_prop in Hp as [Hp|Hp].
  - destruct (d_files d !! entry_key e) as [f|] eqn:Ef; [|done]. apply Z.eqb_eq in Hp.
    unfold br_len, sat_sub in Hp. simpl in Hp.
    destruct (read_entries_found d (re_start e) (re_end e) (rm_ranges m) e
      (take (Z.to_nat (re_end e - re_start e)) (drop (Z.to_nat (re_start e - re_start e)) f))) as [b Hb];
      [done|lia|lia| |congruence].
    rewrite Ef. unfold read_slice. simpl. by rewrite (proj2 (Z.leb_le _ _)) by lia.
  - unfold read_model. destruct (d_model d) as [f|]; [|done]. simpl. rewrite Hp. apply Z.leb_le in Hp.
    destruct (Z.leb_spec (re_start e + (re_end e - re_start e)) (len f)); [|lia]. eexists. split; [reflexivity|].
    unfold len in *. rewrite length_take, length_drop. lia.
Qed.

(** ** Examples *)
Lemma ex_honest : honest ex_file ex_server.
Proof.
  intros n from last status cr cl body H Hf. unfold ex_server in H.
  destruct n as [|[|n]]; [discriminate H|..]; injection H as <- <- <- <-; split; try discriminate;
    intros _; simpl; rewrite app_nil_r; apply prefix_take.
Qed.

Lemma ex_clean : clean ex_file (w_disk ex_world).
Proof. split; simpl; [intros k c H|intros k c H|done]; by rewrite lookup_empty in H. Qed.

Lemma fetch_then_read_witness : read_range (w_disk ex_result.2) 5 8 = Ok (slice ex_file (5, 8)).
Proof.
  destruct (fetch_then_read ex_server ex_hash ex_file "u" ex_range_plan ex_world ex_result.1 ex_result.2)
    as [_ H].
  - exact ex_honest.
  - vm_compute. reflexivity.
  - reflexivity.
  - repeat constructor; simpl; lia.
  - exact ex_clean.
  - vm_compute. reflexivity.
  - apply (H 9 (MkByteRange 4 9) 5 8); [vm_compute; reflexivity|right; left|simpl; lia|simpl; lia].
Defined.

Lemma present_ranges_served_witness :
  present_ranges (w_disk ex_result.2) !! 1%nat = Some (MkRangeEntry 4 9 "45678") ∧
  ∃ b, read_range (w_disk ex_result.2) 4 9 = Ok b ∧ len b = 5.
Proof.
  assert (present_ranges (w_disk ex_result.2) !! 1%nat = Some (MkRangeEntry 4 9 "45678")) as H
    by (vm_compute; reflexivity).
  split; [exact H|].
  exact (proj1 (present_ranges_served (w_disk ex_result.2) (MkRangeEntry 4 9 "45678")
    (list_elem_of_lookup_2 _ _ _ H) ltac:(simpl; lia))).
Defined.
