(* ===== verification/RangePlan.v ===== *)
(** * Range plans and header discovery

    [plan_ranges] cuts out exactly the header, the shared tensors and the
    tensors of the owned layers; the header found in a growing prefix of a
    local or remote file is the header of the whole file. *)

From Stdlib Require Import ZArith Lia Sorted Permutation Ascii String.
From stdpp Require Import base list strings option gmap.
From S2P Require Import Prelude StrUtil Gguf Dims Http Ranges RangeFetch.

Open Scope Z_scope.

(** ** Plans *)
Lemma sort_by_id {A} (cmp : A → A → comparison) l : StronglySorted (cmp_le cmp) l → sort_by cmp l = l.
Proof.
  induction 1 as [|x l _ IH Hx]; simpl; [done|]. rewrite IH. destruct l as [|y l]; [done|].
  inversion Hx as [|? ? Hxy _]; subst. simpl. unfold cmp_le in Hxy. by destruct (cmp x y).
Qed.

Lemma StronglySorted_filter {A} (R : A → A → Prop) (P : A → Prop) `{!∀ x, Decision (P x)} l :
  StronglySorted R l → StronglySorted R (filter P l).
Proof.
  induction 1 as [|x l _ IH Hx]; [constructor|]. rewrite filter_cons. case_decide; [|done].
  constructor; [done|]. rewrite list.Forall_forall in *. intros y [_ Hy]%list_elem_of_filter. by apply Hx.
Qed.

(** The ranges of a chain follow each other. *)
Lemma chained_sorted lo hi rs : chained lo hi rs → StronglySorted (λ a b, tr_end a ≤ tr_start b) rs.
Proof.
  revert lo. induction rs as [|r rs IH]; intros lo H; [constructor|]. destruct H as (_ & Hle & Hrs).
  constructor; [by eapply IH|]. destruct (chained_bounds _ _ _ Hrs) as [_ Hb].
  eapply Forall_impl; [exact Hb|]. simpl. lia.
Qed.

Definition of_tensor (tr : TensorRange) : ByteRange := MkByteRange (tr_start tr) (tr_end tr).

(** The wanted tensor ranges: shared or owned, and not empty. *)
Definition wanted (layers : list Z) (trs : list TensorRange) : list TensorRange :=
  filter (λ tr, owned layers tr && (tr_start tr <? tr_end tr) = true) trs.

Lemma elem_of_wanted layers trs tr :
  tr ∈ wanted layers trs ↔
  tr ∈ trs ∧ tr_start tr < tr_end tr ∧
  (tensor_layer (tr_name tr) = None ∨ ∃ l, tensor_layer (tr_name tr) = Some l ∧ l ∈ layers).
Proof.
  unfold wanted. rewrite list_elem_of_filter, andb_true_iff, Z.ltb_lt. unfold owned.
  destruct (tensor_layer (tr_name tr)) as [l|].
  - rewrite bool_decide_eq_true. split; [intros [[H1 H2] H3]; eauto 6|].
    intros (H1 & H2 & [H3|(l' & [= <-] & H3)]); done.
  - split; [intros [[_ H2] H3]; eauto|]. intros (H1 & H2 & _). done.
Qed.

Lemma byte_ranges_sorted d trs layers :
  0 < d → Forall (λ tr, d ≤ tr_start tr) trs → StronglySorted (λ a b, tr_end a ≤ tr_start b) trs →
  StronglySorted (λ a b, br_start a < br_end a ∧ br_end a ≤ br_start b)
    (MkByteRange 0 d :: (of_tensor <$> wanted layers trs)).
Proof.
  intros Hd Hge Hs. assert (Forall (λ tr, tr_start tr < tr_end tr ∧ d ≤ tr_start tr) (wanted layers trs)) as Hw.
  { rewrite list.Forall_forall in *. intros tr (H1 & H2 & _)%elem_of_wanted. split; [done|by apply Hge]. }
  apply (StronglySorted_filter _ (λ tr, owned layers tr && (tr_start tr <? tr_end tr) = true)) in Hs.
  fold (wanted layers trs) in Hs. constructor.
  - induction Hs as [|tr l _ IH Htr]; [constructor|]. inversion Hw as [|? ? [Hlt _] Hw']; subst.
    rewrite fmap_cons. constructor; [by apply IH|]. apply Forall_fmap.
    eapply Forall_impl; [exact Htr|]. simpl. intros b Hb. split; [exact Hlt|exact Hb].
  - apply Forall_fmap. eapply Forall_impl; [exact Hw|]. simpl. intros b [_ Hb]. lia.
Qed.

Lemma cmp_range_lt a b : br_start a < br_end a → br_end a ≤ br_start b → cmp_le cmp_range a b.
Proof.
  intros H1 H2. unfold cmp_le, cmp_range. destruct (Z.compare_spec (br_start a) (br_start b)); simpl; done || lia.
Qed.

Lemma sorted_cmp_range l :
  StronglySorted (λ a b, br_start a < br_end a ∧ br_end a ≤ br_start b) l → StronglySorted (cmp_le cmp_range) l.
Proof.
  induction 1 as [|a l _ IH Ha]; constructor; [done|].
  eapply Forall_impl; [exact Ha|]. intros b [H1 H2]. by apply cmp_range_lt.
Qed.

Lemma ranges_from_total d fs ts : ranges_from d fs ts ≠ Panic.
Proof.
  induction ts as [|t ts IH]; cbn [ranges_from]; [done|]. case_match; [done|].
  by destruct (ranges_from d fs ts).
Qed.

(** A range plan is exact.  For a header whose tensor offsets do not
    overflow, a plan starts with the header range and continues with the byte
    ranges of exactly those non-empty tensors that belong to no layer or to an
    owned layer; the ranges are non-empty, in file order and disjoint; and if
    the model has tensors they lie in the file, so the fetcher accepts them. *)
Theorem plan_ranges_exact h fs layers plan :
  0 < gh_data_offset h → Forall (λ t, 0 ≤ ti_offset t ∧ abs_offset h t < 2 ^ 64) (gh_tensors h) →
  plan_ranges h fs layers = Ok plan →
  ∃ trs, tensor_ranges h fs = Ok trs ∧
    rp_ranges plan = MkByteRange 0 (gh_data_offset h) :: (of_tensor <$> wanted layers trs) ∧
    StronglySorted (λ a b, br_start a < br_end a ∧ br_end a ≤ br_start b) (rp_ranges plan) ∧
    (gh_tensors h ≠ [] → find_first (invalid plan) (rp_ranges plan) = None).
Proof.
  intros Hd Hoff H. unfold plan_ranges in H.
  destruct (tensor_ranges h fs) as [trs| |] eqn:Etr; try discriminate H. cbn [mbind res_bind] in H.
  injection H as <-. fold (wanted layers trs). fold of_tensor. cbn [rp_ranges].
  exists trs. split; [done|].
  assert (trs = [] ∨ ∃ t, t ∈ gh_tensors h ∧ chained (abs_offset h t) fs trs) as Hch.
  { unfold tensor_ranges in Etr. apply ranges_from_chained in Etr as [->|(t & Ht & Hc)]; [by left|right].
    assert (t ∈ gh_tensors h) as Hin.
    { rewrite <- (sort_by_Permutation (cmp_key ti_offset)). destruct (sort_by _ _); [done|].
      injection Ht as ->. by left. }
    exists t. split; [done|]. rewrite list.Forall_forall in Hoff. destruct (Hoff t Hin) as [H1 H2].
    unfold u64_add in Hc. rewrite wrap64_small in Hc; [done|]. unfold in_u64, abs_offset in *. lia. }
  assert (Forall (λ tr, gh_data_offset h ≤ tr_start tr ∧ tr_end tr ≤ fs) trs ∧
          StronglySorted (λ a b, tr_end a ≤ tr_start b) trs) as [Hb Hs].
  { destruct Hch as [->|(t & Hin & Hc)]; [split; constructor|]. split; [|by eapply chained_sorted].
    destruct (chained_bounds _ _ _ Hc) as [_ Hb]. rewrite list.Forall_forall in Hoff.
    destruct (Hoff t Hin) as [H1 _]. unfold abs_offset in Hb. eapply Forall_impl; [exact Hb|]. simpl. lia. }
  assert (StronglySorted (λ a b, br_start a < br_end a ∧ br_end a ≤ br_start b)
    (MkByteRange 0 (gh_data_offset h) :: (of_tensor <$> wanted layers trs))) as Hsorted.
  { apply byte_ranges_sorted; [done| |done]. eapply Forall_impl; [exact Hb|]. simpl. lia. }
  pose proof (sort_by_id _ _ (sorted_cmp_range _ Hsorted)) as Hid. cbn [sort_by] in Hid. rewrite Hid.
  split; [done|]. split; [done|]. intros Hne. apply find_first_None. unfold invalid. cbn [rp_total_size].
  apply Forall_cons. split.
  - simpl. rewrite (proj2 (Z.leb_gt _ _)) by lia. simpl. apply Z.ltb_ge.
    destruct Hch as [->|(t & Hin & Hc)].
    + destruct (gh_tensors h) as [|t ts] eqn:Et; [done|]. exfalso. unfold tensor_ranges in Etr.
      assert (length (sort_by (cmp_key ti_offset) (gh_tensors h)) ≠ 0%nat) as Hl
        by (rewrite length_sort_by, Et; done).
      destruct (sort_by _ _) as [|u us]; [done|]. cbn [ranges_from] in Etr. by res_inv.
    + destruct (chained_bounds _ _ _ Hc) as [Hle _]. rewrite list.Forall_forall in Hoff.
      destruct (Hoff t Hin) as [H1 _]. unfold abs_offset in Hle. lia.
  - apply Forall_fmap, list.Forall_forall. intros tr (Hin & Hlt & _)%elem_of_wanted. simpl.
    rewrite list.Forall_forall in Hb. destruct (Hb tr Hin) as [_ H2].
    rewrite (proj2 (Z.leb_gt _ _)) by lia. simpl. by apply Z.ltb_ge.
Qed.

(** ** Header discovery *)
Lemma parse_definite bs more : definite (parse bs) → parse (bs ++ more) = parse bs.
Proof.
  intros Hd. unfold parse in *. destruct steady_body as [_ _ X].
  rewrite (X bs 0 more); [done|split; [done|apply len_nonneg]|].
  by destruct (parse_body bs 0) as [[]| |].
Qed.

Lemma parse_total bs : parse bs ≠ Panic.
Proof.
  unfold parse. destruct steady_body as [X _ _].
  specialize (X bs 0 ltac:(split; [lia|apply len_nonneg])). by destruct (parse_body bs 0) as [[]| |].
Qed.

Lemma parse_prefix (p F : bytes) : p `prefix_of` F → definite (parse p) → parse F = parse p.
Proof. intros [q ->] Hd. by apply parse_definite. Qed.

(** What the caller reports for a parse of the whole file. *)
Definition header_of (r : res GgufError GgufHeader) : res RangeError GgufHeader := map_err EGguf r.

Lemma header_loop_exact fuel file want :
  len file < 2 ^ 63 → 0 < want ≤ len file → len file ≤ want * 2 ^ Z.of_nat fuel → (0 < fuel)%nat →
  header_loop (S fuel) file want = header_of (parse file).
Proof.
  intros Hlen. revert want. induction fuel as [|fuel IH]; intros want Hw Hf Hpos; [lia|].
  set (S1 := S fuel) in *. cbn [header_loop].
  assert (take (Z.to_nat want) file `prefix_of` file) as Hp by apply prefix_take.
  destruct (parse (take (Z.to_nat want) file)) as [h|e|] eqn:E.
  - by rewrite (parse_prefix _ _ Hp), E by by rewrite E.
  - destruct e as [| |hint|]; try (by rewrite (parse_prefix _ _ Hp), E by by rewrite E).
    destruct (Z.ltb_spec want (len file)) as [Hlt|Hge].
    2: { rewrite take_ge in E by (unfold len in *; lia). by rewrite E. }
    assert (u64_mul want 2 = want * 2) as Hdouble by (apply wrap64_small; unfold in_u64; lia).
    rewrite Hdouble. set (want' := Z.min _ _).
    assert (want' = len file ∨ want * 2 ≤ want') as Hgrow by (unfold want'; lia).
    assert (0 < want' ≤ len file) as Hw' by (unfold want'; lia).
    unfold S1. destruct fuel as [|fuel'].
    + cbn [header_loop]. unfold S1 in Hf. change (2 ^ Z.of_nat 1) with 2 in Hf.
      assert (want' = len file) as Hwl by lia. rewrite Hwl.
      rewrite take_ge by (unfold len; lia). destruct (parse file) as [h|e|] eqn:Ef; [done| |done].
      destruct e; try done. by rewrite Z.ltb_irrefl.
    + apply IH; [done| |lia]. unfold S1 in Hf. rewrite Nat2Z.inj_succ, Z.pow_succ_r in Hf by lia.
      set (p := 2 ^ Z.of_nat (S fuel')) in *. assert (0 < p) as Hp0 by (apply Z.pow_pos_nonneg; lia).
      clearbody p want'. destruct Hgrow as [->|Hg]; nia.
  - by apply parse_total in E.
Qed.

(** Reading a local header terminates and is exact.  For any file below
    2^63 bytes, 64 rounds of the growing-prefix loop are enough, and the
    outcome is that of parsing the whole file: growing the prefix never turns
    a good file into an error or the other way round. *)
Theorem parse_local_header_exact file :
  len file < 2 ^ 63 → parse_local_header 64 file = header_of (parse file).
Proof.
  intros Hl. unfold parse_local_header. destruct (Z.eq_dec (len file) 0) as [H0|Hn].
  - assert (file = []) as -> by (destruct file; [done|unfold len in H0; simpl in H0; lia]). reflexivity.
  - pose proof (len_nonneg file). change 64%nat with (S 63). apply header_loop_exact; try lia.
Qed.

(** ** Remote headers *)

(** The server serves prefixes of the file and, when it states a total size,
    states the file's. *)
Record serves (F : bytes) (server : nat → Z → Z → Reply) : Prop := {
  sv_partial n last cr cl body : server n 0 last = Response PARTIAL_CONTENT cr cl body →
    delivered body `prefix_of` F ∧ ∀ t, content_range_total cr = Some t → t = len F;
  sv_whole n last cr cl body : server n 0 last = Response STATUS_OK cr cl body →
    delivered body `prefix_of` F ∧ ∀ t, cl = Some t → t = len F }.

Lemma collect_spec body needed acc br b :
  len acc ≤ needed → collect body needed acc = (br, b) →
  ∃ x y, b = acc ++ x ∧ delivered body = x ++ y ∧ len b ≤ needed.
Proof.
  revert acc. induction body as [|[c|] body IH]; intros acc Ha H; cbn [collect] in H;
    destruct (Z.ltb_spec (len acc) needed) as [Hlt|Hge];
    try (injection H as <- <-; eexists [], _; rewrite app_nil_r; split; [done|]; split; [reflexivity|]; lia).
  set (n := Z.min (len c) (needed - len acc)) in *. pose proof (len_nonneg c) as Hc.
  assert (len (take (Z.to_nat n) c) = n) as Hn by (apply len_take_le; lia).
  apply IH in H as (x & y & -> & Hd & Hl); [|rewrite len_app; lia].
  exists (take (Z.to_nat n) c ++ x), (if Z.leb (len c) (needed - len acc) then y else drop (Z.to_nat n) c ++ delivered body).
  split; [by rewrite app_assoc|]. split; [|exact Hl]. simpl.
  rewrite !len_app, Hn in Hl. destruct (Z.leb_spec (len c) (needed - len acc)) as [Hle|Hgt].
  - rewrite Hd, take_ge; [by rewrite app_assoc|]. unfold len in *. lia.
  - assert (len x = 0) as Hx0 by (pose proof (len_nonneg x); lia).
    assert (x = []) as ->. { destruct x; [done|unfold len in Hx0; simpl in Hx0; lia]. }
    by rewrite app_nil_r, app_assoc, take_drop.
Qed.

Section remote.
Context (server : nat → Z → Z → Reply) (F : bytes) (Hserves : serves F server) (Hsize : len F < 2 ^ 63).

Lemma prefix_attempt_done n last want b total :
  0 < want → prefix_attempt (server n 0 last) want = PDone b total →
  b `prefix_of` F ∧ total = len F ∧ len b = Z.min want (len F).
Proof using Hserves.
  intros Hw H. unfold prefix_attempt in H.
  destruct (server n 0 last) as [|status cr cl body] eqn:Es; [done|].
  assert (∀ t : option Z, delivered body `prefix_of` F → (∀ t', t = Some t' → t' = len F) →
    match t with
    | None => PTransient NoTotalSize
    | Some total =>
        let needed := Z.min want total in
        let '(broken, b) := collect body needed [] in
        if broken : bool then PTransient (Interrupted (len b))
        else if len b <? needed then PTransient (ClosedEarly (len b) needed)
        else PDone b total
    end = PDone b total →
    b `prefix_of` F ∧ total = len F ∧ len b = Z.min want (len F)) as Hgo.
  { intros t Hd Ht Hb. destruct t as [t|]; [|done]. specialize (Ht t eq_refl) as ->. cbv zeta in Hb.
    pose proof (len_nonneg F).
    destruct (collect body (Z.min want (len F)) []) as [br b0] eqn:Ec.
    apply collect_spec in Ec as (x & y & -> & Hx & Hl); [|change (len []) with 0; lia].
    destruct br; [done|]. destruct (Z.ltb_spec (len ([] ++ x)) (Z.min want (len F))) as [|Hge]; [done|].
    injection Hb as <- <-. simpl in *. split; [|split; [done|lia]].
    etransitivity; [|exact Hd]. rewrite Hx. by apply prefix_app_r. }
  destruct (Z.eqb_spec status PARTIAL_CONTENT) as [->|_].
  { destruct (sv_partial F server Hserves _ _ _ _ _ Es). by apply (Hgo (content_range_total cr)). }
  destruct (Z.eqb_spec status STATUS_OK) as [->|_].
  { destruct (sv_whole F server Hserves _ _ _ _ _ Es). by apply (Hgo cl). }
  by destruct (is_server_error status).
Qed.

(** Failures of the transfer itself. *)
Definition transport (e : RangeError) : Prop :=
  match e with HttpStatus _ | Exhausted _ _ => True | _ => False end.

Lemma prefix_attempts_spec n want last sent o sent' :
  0 < want → prefix_attempts server n want last sent = (o, sent') →
  match o with
  | Ok (b, total) => b `prefix_of` F ∧ total = len F ∧ len b = Z.min want (len F)
  | Err e => transport e
  | Panic => False
  end.
Proof using Hserves.
  intros Hw. revert last sent. induction n as [|n IH]; intros last sent H; cbn [prefix_attempts] in H.
  { by injection H as <- _. }
  destruct (prefix_attempt (server sent 0 (sat_sub want 1)) want) as [b total|e|why] eqn:E.
  - injection H as <- _. by eapply prefix_attempt_done.
  - injection H as <- _. unfold prefix_attempt in E. destruct (server _ _ _) as [|status cr cl body]; [done|].
    cbv zeta in E. repeat case_match; simplify_eq; done.
  - by eapply IH.
Qed.

(** The outcome of header discovery on a file. *)
Definition discovered (r : res RangeError (GgufHeader * Z)) : Prop :=
  match r with
  | Ok (h, total) => parse F = Ok h ∧ total = len F
  | Err (EGguf e) => parse F = Err e
  | Err HeaderPastEnd => ∃ hint, parse F = Err (NeedMoreData hint)
  | Err e => transport e
  | Panic => False
  end.

Lemma remote_round fuel want sent :
  0 < want →
  (∀ hint sent', want < len F →
     discovered (remote_loop server fuel (Z.min (Z.max hint (u64_mul want 2)) (len F)) sent')) →
  discovered (remote_loop server (S fuel) want sent).
Proof using Hserves.
  intros Hw Hnext. cbn [remote_loop]. destruct (fetch_prefix server want sent) as [o sent'] eqn:Ep.
  apply prefix_attempts_spec in Ep; [|done]. destruct o as [[b total]|e|]; [|by destruct e|done].
  destruct Ep as (Hp & -> & Hl).
  destruct (parse b) as [h|e|] eqn:E; [|destruct e as [| |hint|]|by apply parse_total in E];
    try (simpl; rewrite (parse_prefix _ _ Hp), E by (by rewrite E); done).
  destruct (Z.leb_spec (len F) (len b)) as [Hge|Hlt]; [|apply Hnext; lia].
  exists hint. rewrite <- E. f_equal. destruct Hp as [q Hq]. rewrite Hq, len_app in Hge.
  assert (q = []) as -> by (destruct q; [done|unfold len in Hge; simpl in Hge; lia]).
  by rewrite app_nil_r in Hq.
Qed.

Lemma remote_loop_exact fuel want sent :
  0 < want → len F ≤ want * 2 ^ Z.of_nat fuel → want < 2 ^ 63 → discovered (remote_loop server (S fuel) want sent).
Proof using Hserves Hsize.
  revert want sent. induction fuel as [|fuel IH]; intros want sent Hw Hf Hw63;
    (apply remote_round; [done|]); intros hint sent' Hlt; [simpl in Hf; lia|].
  assert (u64_mul want 2 = want * 2) as -> by (apply wrap64_small; unfold in_u64; lia).
  rewrite Nat2Z.inj_succ, Z.pow_succ_r in Hf by lia.
  set (p := 2 ^ Z.of_nat fuel) in *. assert (0 < p) as Hp0 by (apply Z.pow_pos_nonneg; lia).
  set (want' := Z.min _ _). assert (want' = len F ∨ want * 2 ≤ want') as Hgrow by (unfold want'; lia).
  assert (0 < want' ≤ len F) as Hw' by (unfold want'; lia). clearbody want'.
  apply IH; [lia| |lia]. clearbody p. destruct Hgrow as [->|Hg]; nia.
Qed.
End remote.

Lemma remote_header_discovered server F initial :
  serves F server → len F < 2 ^ 63 → 0 ≤ initial < 2 ^ 63 →
  discovered F (fetch_remote_header_with server 64 initial).
Proof.
  intros Hs Hl Hi. unfold fetch_remote_header_with. change 64%nat with (S 63).
  apply remote_loop_exact; [done|done|lia| |lia]. change (2 ^ Z.of_nat 63) with (2 ^ 63). nia.
Qed.

(** C39: reading a remote header terminates and is exact.  From a server that
    serves prefixes of a file below 2^63 bytes and states its size truthfully
    or not at all, 64 rounds are enough; and unless the transfer itself fails,
    the outcome is that of parsing the whole file, with the file's size. *)
Theorem fetch_remote_header_exact server F initial :
  serves F server → len F < 2 ^ 63 → 0 ≤ initial < 2 ^ 63 →
  discovered F (fetch_remote_header_with server 64 initial).
Proof. apply remote_header_discovered. Qed.

(** ** Examples *)
Definition ex_plan_of : RangePlan :=
  MkRangePlan 700 256 [MkByteRange 0 256; MkByteRange 256 384; MkByteRange 448 700].

Lemma plan_ranges_exact_witness :
  plan_ranges ex_ranges_header 700 [0] = Ok ex_plan_of ∧
  StronglySorted (λ a b, br_start a < br_end a ∧ br_end a ≤ br_start b) (rp_ranges ex_plan_of).
Proof.
  assert (plan_ranges ex_ranges_header 700 [0] = Ok ex_plan_of) as H by (vm_compute; reflexivity).
  split; [exact H|].
  destruct (plan_ranges_exact ex_ranges_header 700 [0] ex_plan_of) as (trs & _ & _ & Hs & _).
  - reflexivity.
  - repeat constructor; unfold abs_offset; simpl; lia.
  - exact H.
  - exact Hs.
Defined.

Lemma parse_local_header_exact_witness : parse_local_header 64 Gguf.ex_file = Ok ex_header.
Proof.
  rewrite (parse_local_header_exact Gguf.ex_file) by (vm_compute; reflexivity). vm_compute. reflexivity.
Defined.

(** A server that hands out the first hundred bytes asked for and then
    everything. *)
Definition ex_header_server (n : nat) (from last : Z) : Reply :=
  Response PARTIAL_CONTENT (Some ("bytes 0-1/" +:+ print_uint (len Gguf.ex_file))) None
    [Data (take (Z.to_nat (last + 1)) Gguf.ex_file)].

Lemma ex_serves : serves Gguf.ex_file ex_header_server.
Proof.
  split; unfold ex_header_server; intros n last cr cl body H; [|discriminate H].
  injection H as <- <- <-. split.
  - simpl delivered. rewrite app_nil_r. apply prefix_take.
  - intros t Ht. assert (content_range_total (Some ("bytes 0-1/" +:+ print_uint (len Gguf.ex_file)))
      = Some (len Gguf.ex_file)) as H by (vm_compute; reflexivity). congruence.
Qed.

Lemma fetch_remote_header_exact_witness :
  discovered Gguf.ex_file (fetch_remote_header_with ex_header_server 64 100) ∧
  match fetch_remote_header_with ex_header_server 64 100 with Ok (_, total) => total = len Gguf.ex_file | _ => False end.
Proof.
  split; [|vm_compute; reflexivity].
  apply (fetch_remote_header_exact ex_header_server Gguf.ex_file 100);
    [exact ex_serves|vm_compute; reflexivity|lia].
Defined.
