(* ===== verification/Download.v ===== *)
(** * Full-file downloads

    Models [crates/onebrain-models/src/download.rs]: the resumable downloader
    with its [.part] file, retries and integrity manifest.  The manifest is a
    JSON object that the cache state shares; the server and BLAKE3 are
    parameters.  Local file operations succeed. *)

From Stdlib Require Import ZArith Lia Ascii String.
From stdpp Require Import base list strings option gmap.
From S2P Require Import Prelude StrUtil Gguf Http Registry.

Open Scope Z_scope.

(** ** The entry manifest *)

(** JSON values, as far as the manifests use them. *)
Inductive jval := JStr (s : string) | JNum (n : Z) | JBool (b : bool) | JOther.

(** [manifest.json]: [None] when it is missing or not a JSON object. *)
Abbreviation jdoc := (option (gmap string jval)).

Record Manifest := MkManifest { mf_url : string; mf_size_bytes : Z; mf_blake3 : string }.

(** The three integrity fields must be there with their types; others are
    ignored. *)
Definition read_manifest (doc : jdoc) : option Manifest :=
  m ← doc;
  match m !! "url", m !! "size_bytes", m !! "blake3" with
  | Some (JStr url), Some (JNum size), Some (JStr hash) =>
      if (0 <=? size) && (size <=? u64_max) then Some (MkManifest url size hash) else None
  | _, _, _ => None
  end.

(** Merge the integrity fields into whatever object is there. *)
Definition write_manifest (doc : jdoc) (m : Manifest) : jdoc :=
  Some (<["url" := JStr (mf_url m)]> (<["size_bytes" := JNum (mf_size_bytes m)]>
    (<["blake3" := JStr (mf_blake3 m)]> (default ∅ doc)))).

(** ** Downloading *)
Inductive DlRetry :=
  | DNoAttempt
  | DRequestFailed
  | DResumeRejected (existing : Z)
  | DServerError (status : Z)
  | DInterrupted (written : Z)
  | DClosedEarly (written total : Z).

Inductive DownloadError :=
  | DHttpStatus (status : Z)
  | DExhausted (attempts : Z) (last_error : DlRetry)
  | DHashMismatch (expected actual : string)
  | DSizeMismatch (expected actual : Z)
  | DBadManifest
  | DIo.

(** Recompute size and hash and compare with the manifest. *)
Definition verify (blake3 : bytes → string) (file : option bytes) (m : Manifest) : res DownloadError unit :=
  f ← ok_or file DIo;
  if negb (len f =? mf_size_bytes m) then Err (DSizeMismatch (mf_size_bytes m) (len f))
  else if negb (String.eqb (blake3 f) (mf_blake3 m)) then Err (DHashMismatch (mf_blake3 m) (blake3 f))
  else Ok tt.

(** The destination directory, the requests sent and the progress reports. *)
Record Dl := MkDl {
  dl_files : gmap string bytes;
  dl_parts : gmap string bytes;
  dl_doc : jdoc;
  dl_sent : nat;
  dl_progress : list (Z * Z) }.

Definition dl_set_part (name : string) (p : option bytes) (w : Dl) : Dl :=
  MkDl (dl_files w) (match p with Some b => <[name := b]> (dl_parts w) | None => delete name (dl_parts w) end)
    (dl_doc w) (dl_sent w) (dl_progress w).
Definition dl_report (p : Z * Z) (w : Dl) : Dl :=
  MkDl (dl_files w) (dl_parts w) (dl_doc w) (dl_sent w) (dl_progress w ++ [p]).
Definition dl_request (w : Dl) : Dl :=
  MkDl (dl_files w) (dl_parts w) (dl_doc w) (S (dl_sent w)) (dl_progress w).

Inductive DlOutcome := DDone | DFatal (e : DownloadError) | DTransient (why : DlRetry).

Section download.
(** The [n]-th request's reply; the offset is zero when no [Range] is sent. *)
Context (server : nat → Z → Reply) (blake3 : bytes → string).

(** Append the whole body; the flag says whether the connection broke. *)
Fixpoint write_body (name : string) (total : Z) (body : list Chunk) (buf : bytes) (w : Dl) : bool * bytes * Dl :=
  match body with
  | [] => (false, buf, w)
  | Broken :: _ => (true, buf, w)
  | Data c :: body =>
      let buf := buf ++ c in
      write_body name total body buf (dl_report (len buf, total) (dl_set_part name (Some buf) w))
  end.

Definition receive (name : string) (base : bytes) (total : option Z) (body : list Chunk) (w : Dl) : DlOutcome * Dl :=
  let w := dl_report (len base, default 0 total) (dl_set_part name (Some base) w) in
  let '(broken, buf, w) := write_body name (default 0 total) body base w in
  if broken : bool then (DTransient (DInterrupted (len buf)), w)
  else
    match total with
    | Some t => if len buf <? t then (DTransient (DClosedEarly (len buf) t), w) else (DDone, w)
    | None => (DDone, w)
    end.

Definition run_attempt (name : string) (w : Dl) : DlOutcome * Dl :=
  let part := default [] (dl_parts w !! name) in
  let existing := len part in
  let reply := server (dl_sent w) existing in
  let w := dl_request w in
  match reply with
  | SendFailed => (DTransient DRequestFailed, w)
  | Response status cr cl body =>
      if (0 <? existing) && (status =? PARTIAL_CONTENT) then
        let total := match content_range_total cr with
                     | Some t => Some t
                     | None => option_map (λ l, u64_add l existing) cl
                     end in
        receive name part total body w
      else if status =? STATUS_OK then receive name [] cl body w
      else if status =? RANGE_NOT_SATISFIABLE then
        (DTransient (DResumeRejected existing), dl_set_part name None w)
      else if is_server_error status then (DTransient (DServerError status), w)
      else (DFatal (DHttpStatus status), w)
  end.

Fixpoint download_attempts (n : nat) (spec : DownloadSpec) (last_error : DlRetry) (w : Dl) :
    res DownloadError unit * Dl :=
  match n with
  | O => (Err (DExhausted (Z.of_nat ATTEMPTS) last_error), w)
  | S n =>
      match run_attempt (ds_file_name spec) w with
      | (DFatal e, w) => (Err e, w)
      | (DTransient why, w) => download_attempts n spec why w
      | (DDone, w) =>
          match dl_parts w !! ds_file_name spec with
          | None => (Err DIo, w)
          | Some f =>
              (Ok tt, MkDl (<[ds_file_name spec := f]> (dl_files w)) (delete (ds_file_name spec) (dl_parts w))
                        (write_manifest (dl_doc w) (MkManifest (ds_url spec) (len f) (blake3 f)))
                        (dl_sent w) (dl_progress w))
          end
      end
  end.

(** This exact file completed earlier. *)
Definition already_complete (spec : DownloadSpec) (w : Dl) : option Z :=
  m ← read_manifest (dl_doc w);
  f ← dl_files w !! ds_file_name spec;
  if String.eqb (mf_url m) (ds_url spec) && (len f =? mf_size_bytes m) then Some (mf_size_bytes m) else None.

Definition download (spec : DownloadSpec) (w : Dl) : res DownloadError unit * Dl :=
  match already_complete spec w with
  | Some size => (Ok tt, dl_report (size, size) w)
  | None => download_attempts ATTEMPTS spec DNoAttempt w
  end.
End download.

(** ** Correctness *)

(** The server serves the file from the requested offset or from the start,
    possibly cut short, and states its size. *)
Record dl_honest (F : bytes) (server : nat → Z → Reply) : Prop := {
  dh_partial n off cr cl body : server n off = Response PARTIAL_CONTENT cr cl body → 0 ≤ off →
    delivered body `prefix_of` drop (Z.to_nat off) F ∧ content_range_total cr = Some (len F);
  dh_whole n off cr cl body : server n off = Response STATUS_OK cr cl body →
    delivered body `prefix_of` F ∧ cl = Some (len F) }.

(** Only the [.part] of [name] differs. *)
Record dl_part_only (name : string) (w w' : Dl) : Prop := {
  dp_files : dl_files w' = dl_files w;
  dp_doc : dl_doc w' = dl_doc w;
  dp_parts n : n ≠ name → dl_parts w' !! n = dl_parts w !! n }.

#[global] Instance dl_part_only_refl name : Reflexive (dl_part_only name).
Proof. by split. Qed.
#[global] Instance dl_part_only_trans name : Transitive (dl_part_only name).
Proof.
  intros w1 w2 w3 [A B C] [A' B' C']. split; try congruence. intros n Hn. rewrite C' by done. by apply C.
Qed.
Lemma dl_part_only_set name p w : dl_part_only name w (dl_set_part name p w).
Proof.
  split; try done. intros n Hn. destruct p; simpl; [by rewrite lookup_insert_ne|by rewrite lookup_delete_ne].
Qed.

Lemma dl_part_only_report name p w w' : dl_part_only name w w' → dl_part_only name w (dl_report p w').
Proof. by intros [A B C]. Qed.

(** Everything written arrived from the body, in order. *)
Lemma write_body_spec name total body buf w br buf' w' :
  dl_parts w !! name = Some buf → write_body name total body buf w = (br, buf', w') →
  (∃ y, buf' ++ y = buf ++ delivered body) ∧ (∃ x, buf' = buf ++ x) ∧
  dl_parts w' !! name = Some buf' ∧ dl_part_only name w w'.
Proof.
  revert buf w. induction body as [|[c|] body IH]; intros buf w Hp H; cbn [write_body] in H.
  - injection H as <- <- <-. split; [exists []; done|]. split; [exists []; by rewrite app_nil_r|]. done.
  - apply IH in H as ([y Hy] & [x ->] & H2 & H3); [|simpl; by rewrite lookup_insert_eq].
    split; [exists y; rewrite Hy; simpl; by rewrite app_assoc|].
    split; [exists (c ++ x); by rewrite app_assoc|]. split; [done|].
    etransitivity; [|exact H3]. apply dl_part_only_report, dl_part_only_set.
  - injection H as <- <- <-. split; [exists []; done|]. split; [exists []; by rewrite app_nil_r|]. done.
Qed.

Lemma receive_spec name base total body w out w' :
  receive name base total body w = (out, w') →
  dl_part_only name w w' ∧ ∃ buf, dl_parts w' !! name = Some buf ∧ (∃ x, buf = base ++ x) ∧
    (∃ y, buf ++ y = base ++ delivered body) ∧
    (out = DDone → ∀ t, total = Some t → t ≤ len buf) ∧ (∀ e, out ≠ DFatal e).
Proof.
  unfold receive. cbv zeta. set (w1 := dl_report _ _). intros H.
  destruct (write_body name (default 0 total) body base w1) as [[br buf] w2] eqn:E.
  apply write_body_spec in E as (Hy & Hx & Hp & Hpo); [|simpl; by rewrite lookup_insert_eq].
  assert (dl_part_only name w w1) as Hw1 by apply dl_part_only_report, dl_part_only_set.
  assert (w' = w2) as -> by (repeat case_match; simplify_eq; done).
  split; [by etransitivity|]. exists buf. split; [done|]. split; [done|]. split; [done|].
  destruct br; [by injection H as <-|]. destruct total as [t|]; [|by injection H as <-].
  destruct (Z.ltb_spec (len buf) t); injection H as <-; (split; [|done]); [done|].
  intros _ t' [= <-]. done.
Qed.

Section correct.
Context (server : nat → Z → Reply) (blake3 : bytes → string) (F : bytes).
Context (Hhonest : dl_honest F server).

(** The partial file is a prefix of the file. *)
Definition dl_clean (name : string) (w : Dl) : Prop :=
  ∀ p, dl_parts w !! name = Some p → p `prefix_of` F.

Lemma run_attempt_spec name w out w' :
  dl_clean name w → run_attempt server name w = (out, w') →
  dl_part_only name w w' ∧ dl_clean name w' ∧
  (out = DDone → dl_parts w' !! name = Some F).
Proof using Hhonest.
  intros Hc H. unfold run_attempt in H. cbv zeta in H.
  set (part := default [] (dl_parts w !! name)) in *.
  assert (part `prefix_of` F) as Hpart.
  { unfold part. destruct (dl_parts w !! name) eqn:E; [by apply Hc|apply prefix_nil]. }
  assert (∀ base total body, base `prefix_of` F → base ++ delivered body `prefix_of` F →
    (∀ t, total = Some t → t = len F) → is_Some total →
    receive name base total body (dl_request w) = (out, w') →
    dl_part_only name w w' ∧ dl_clean name w' ∧ (out = DDone → dl_parts w' !! name = Some F)) as Hgo.
  { intros base total body Hb Hbd Ht [t Hsome] Hr.
    apply receive_spec in Hr as (Hpo & buf & Hbuf & _ & [y Hy] & Hdone & _).
    assert (buf `prefix_of` F) as Hbp.
    { etransitivity; [|exact Hbd]. rewrite <- Hy. by apply prefix_app_r. }
    split; [by destruct Hpo|]. split.
    - intros p Hp. rewrite Hbuf in Hp. by injection Hp as <-.
    - intros Ho. specialize (Hdone Ho t Hsome). rewrite (Ht t Hsome) in Hdone. rewrite Hbuf. f_equal.
      destruct Hbp as [q ->]. rewrite len_app in Hdone. destruct q; [by rewrite app_nil_r|].
      unfold len in Hdone. simpl in Hdone. lia. }
  destruct (server (dl_sent w) (len part)) as [|status cr cl body] eqn:Es.
  { injection H as <- <-. done. }
  destruct ((0 <? len part) && (status =? PARTIAL_CONTENT)) eqn:E206.
  { apply andb_prop in E206 as [_ ->%Z.eqb_eq].
    destruct (dh_partial F server Hhonest _ _ _ _ _ Es (len_nonneg _)) as [Hd Hcr]. rewrite Hcr in H.
    apply (Hgo part (Some (len F)) body); [done| |by intros t [= <-]|by eexists|exact H].
    destruct Hpart as [q HF]. rewrite HF in Hd |- *. unfold len in Hd. rewrite Nat2Z.id, drop_app_length in Hd.
    by apply prefix_app. }
  destruct (Z.eqb_spec status STATUS_OK) as [->|_].
  { destruct (dh_whole F server Hhonest _ _ _ _ _ Es) as [Hd ->].
    apply (Hgo [] (Some (len F)) body); [apply prefix_nil|done|by intros t [= <-]|by eexists|exact H]. }
  destruct (status =? RANGE_NOT_SATISFIABLE).
  { injection H as <- <-. split; [by destruct (dl_part_only_set name None (dl_request w))|]. split; [|done].
    intros p Hp. simpl in Hp. by rewrite lookup_delete_eq in Hp. }
  destruct (is_server_error status); injection H as <- <-; done.
Qed.
End correct.

Lemma download_outcome server blake3 F spec w o w' :
  dl_honest F server → dl_clean F (ds_file_name spec) w → len F < 2 ^ 64 →
  download server blake3 spec w = (o, w') →
  match o with
  | Ok _ =>
      (∃ size, already_complete spec w = Some size ∧ dl_sent w' = dl_sent w ∧ dl_files w' = dl_files w) ∨
      dl_files w' !! ds_file_name spec = Some F ∧
      read_manifest (dl_doc w') = Some (MkManifest (ds_url spec) (len F) (blake3 F)) ∧
      ∀ key, key ∉ ["url"; "size_bytes"; "blake3"] → default ∅ (dl_doc w') !! key = default ∅ (dl_doc w) !! key
  | Err _ => dl_clean F (ds_file_name spec) w' ∧ dl_files w' = dl_files w ∧ dl_doc w' = dl_doc w
  | Panic => False
  end.
Proof.
  intros Hh Hc Hs H. unfold download in H. destruct (already_complete spec w) as [size|].
  { injection H as <- <-. left. by exists size. }
  assert (∀ n last w0, dl_clean F (ds_file_name spec) w0 → dl_part_only (ds_file_name spec) w w0 →
    download_attempts server blake3 n spec last w0 = (o, w') →
    match o with
    | Ok _ => dl_files w' !! ds_file_name spec = Some F ∧
        dl_doc w' = write_manifest (dl_doc w) (MkManifest (ds_url spec) (len F) (blake3 F))
    | Err _ => dl_clean F (ds_file_name spec) w' ∧ dl_files w' = dl_files w ∧ dl_doc w' = dl_doc w
    | Panic => False
    end) as Hloop.
  { clear H Hc. induction n as [|n IH]; intros last w0 Hc0 Hpo H; cbn [download_attempts] in H.
    { injection H as <- <-. split; [done|]. by destruct Hpo. }
    destruct (run_attempt server (ds_file_name spec) w0) as [out w1] eqn:Ea.
    apply (run_attempt_spec server F Hh) in Ea as (Hpo1 & Hc1 & Hdone); [|done].
    assert (dl_part_only (ds_file_name spec) w w1) as Hpo2 by (by etransitivity).
    destruct out as [|e|why].
    - rewrite (Hdone eq_refl) in H. injection H as <- <-. simpl. rewrite lookup_insert_eq.
      split; [done|]. by destruct Hpo2 as [_ -> _].
    - injection H as <- <-. split; [done|]. by destruct Hpo2.
    - by eapply IH. }
  specialize (Hloop _ _ _ Hc ltac:(done) H). destruct o as [[]|e|]; [|done|done]. right.
  destruct Hloop as [H1 H2]. split; [done|]. rewrite H2. split.
  - unfold read_manifest, write_manifest. simpl.
    rewrite !lookup_insert_eq, lookup_insert_ne, lookup_insert_eq by done.
    rewrite !lookup_insert_ne, lookup_insert_eq by done.
    pose proof (len_nonneg F). rewrite (proj2 (Z.leb_le _ _)), (proj2 (Z.leb_le _ _)) by (unfold u64_max; lia). done.
  - intros key Hk. unfold write_manifest. simpl.
    rewrite !lookup_insert_ne; [done|..]; intros <-; apply Hk; set_solver.
Qed.

(** C38: a completed download is the file.  From a server that serves the file
    from the offset asked for or from its start (possibly cut short or failing)
    and states its size, and from a partial file that is a prefix of it:
    [download] never panics; when it succeeds, either the directory already
    recorded this URL at this size and no request was sent, or the stored file
    is the whole file and the manifest records its URL, size and BLAKE3 while
    every other manifest field is kept; when it fails, the partial file is
    still a prefix, ready to resume, and nothing else changed. *)
Theorem download_exact server blake3 F spec w o w' :
  dl_honest F server → dl_clean F (ds_file_name spec) w → len F < 2 ^ 64 →
  download server blake3 spec w = (o, w') →
  match o with
  | Ok _ =>
      (∃ size, already_complete spec w = Some size ∧ dl_sent w' = dl_sent w ∧ dl_files w' = dl_files w) ∨
      dl_files w' !! ds_file_name spec = Some F ∧
      read_manifest (dl_doc w') = Some (MkManifest (ds_url spec) (len F) (blake3 F)) ∧
      ∀ key, key ∉ ["url"; "size_bytes"; "blake3"] → default ∅ (dl_doc w') !! key = default ∅ (dl_doc w) !! key
  | Err _ => dl_clean F (ds_file_name spec) w' ∧ dl_files w' = dl_files w ∧ dl_doc w' = dl_doc w
  | Panic => False
  end.
Proof. apply download_outcome. Qed.

(** ** An example: a resumed download *)
Definition ex_dl_file : bytes := list_ascii_of_string "0123456789".
Definition ex_dl_server (n : nat) (off : Z) : Reply :=
  match n with
  | O => Response STATUS_OK None (Some 10) [Data (take 4 ex_dl_file); Broken]
  | _ => Response PARTIAL_CONTENT (Some "bytes 4-9/10") (Some 6) [Data (drop (Z.to_nat off) ex_dl_file)]
  end.
Definition ex_dl : Dl := MkDl ∅ ∅ (Some {["pinned" := JBool true]}) 0 [].

Lemma ex_dl_honest : dl_honest ex_dl_file ex_dl_server.
Proof.
  split; intros n off cr cl body H; unfold ex_dl_server in H; destruct n as [|n]; try discriminate H;
    injection H as <- <- <-.
  - intros _. split; [|vm_compute; reflexivity]. cbn [delivered]. by rewrite app_nil_r.
  - split; [|reflexivity]. cbn [delivered]. rewrite app_nil_r. apply (prefix_take ex_dl_file 4).
Qed.

Lemma download_exact_witness :
  ∃ w, download ex_dl_server string_of_list_ascii (MkSpec "k" "u" "m.gguf") ex_dl = (Ok tt, w) ∧
    dl_files w !! "m.gguf" = Some ex_dl_file ∧ default ∅ (dl_doc w) !! "pinned" = Some (JBool true).
Proof.
  destruct (download ex_dl_server string_of_list_ascii (MkSpec "k" "u" "m.gguf") ex_dl) as [o w] eqn:E.
  pose proof (download_exact ex_dl_server string_of_list_ascii ex_dl_file (MkSpec "k" "u" "m.gguf") ex_dl o w
    ex_dl_honest ltac:(intros p Hp; discriminate Hp) ltac:(vm_compute; reflexivity) E) as H.
  assert (o = Ok tt) as -> by (vm_compute in E; injection E as <- _; reflexivity).
  destruct H as [(size & Hs & _)|(H1 & _ & H3)]; [discriminate Hs|].
  exists w. split; [reflexivity|]. split; [exact H1|]. rewrite (H3 "pinned") by (vm_compute; set_solver).
  vm_compute. reflexivity.
Defined.
