(* ===== verification/Cache.v ===== *)
(** * The model cache and its garbage collector

    Models [crates/onebrain-models/src/cache.rs] and [run_cache_gc] of
    [crates/onebraind/src/logistics.rs].  The cache root is a directory tree;
    every regular file carries its size and, for a manifest, its JSON object.
    Parameters: the size of a rendered manifest, the entries another process
    holds open, and the clock.  Other file operations succeed. *)

From Stdlib Require Import ZArith Lia Sorted Permutation Ascii String.
From stdpp Require Import base list strings option gmap.
From S2P Require Import Prelude StrUtil Split Download.

Open Scope Z_scope.

(** ** Directory trees *)
Inductive node :=
  | File (size : Z) (doc : jdoc)
  | Dir (entries : list (string * node)).

(** The entries of a directory, in directory order. *)
Abbreviation dir := (list (string * node)).

Definition dir_get (name : string) (d : dir) : option node :=
  snd <$> find_first (λ p : string * node, String.eqb p.1 name) d.

Fixpoint dir_set (name : string) (n : node) (d : dir) : dir :=
  match d with
  | [] => [(name, n)]
  | p :: d => if String.eqb p.1 name then (name, n) :: d else p :: dir_set name n d
  end.

Definition dir_del (name : string) (d : dir) : dir :=
  filter (λ p : string * node, String.eqb p.1 name = false) d.

Definition subdir (name : string) (d : dir) : option dir :=
  match dir_get name d with Some (Dir es) => Some es | _ => None end.

Definition MANIFEST_FILE : string := "manifest.json".
Definition RANGES_MANIFEST_FILE : string := "ranges.json".
Definition PARTS_DIR : string := "parts".

Record CachedModel := MkCachedModel {
  cm_id : string; cm_path : list string; cm_size_bytes : Z; cm_blake3 : option string;
  cm_parts : Z; cm_pinned : bool; cm_last_used_unix : Z }.

Record EntryState := MkEntryState { es_pinned : bool; es_last_used_unix : Z }.

Record EvictionCandidate := MkCandidate { ec_id : string; ec_bytes : Z; ec_last_used_unix : Z }.

Inductive CacheError :=
  | NotCached (id : string)
  | InvalidId (id : string)
  | InUse (id : string)
  | Pinned (id : string)
  | SplitIncomplete (id : string) (found expected : Z).

(** ** Entry state *)

(** An absent field takes its default; a field of the wrong type makes the
    whole document unreadable, which reads as the default state. *)
Definition parse_state (doc : jdoc) : EntryState :=
  match doc with
  | None => MkEntryState false 0
  | Some m =>
      match m !! "pinned", m !! "last_used_unix" with
      | (None | Some (JBool _)) as p, ((None | Some (JNum _)) as l) =>
          let t := match l with Some (JNum n) => n | _ => 0 end in
          if (0 <=? t) && (t <=? u64_max)
          then MkEntryState (match p with Some (JBool b) => b | _ => false end) t
          else MkEntryState false 0
      | _, _ => MkEntryState false 0
      end
  end.

Definition manifest_doc (d : dir) : jdoc :=
  match dir_get MANIFEST_FILE d with Some (File _ doc) => doc | _ => None end.

Definition state_of_dir (d : dir) : EntryState := parse_state (manifest_doc d).

(** ** Sizes *)

(** One directory off the stack: subdirectories are pushed, files counted. *)
Definition size_step (st : list dir * Z) (e : string * node) : list dir * Z :=
  match e.2 with
  | Dir es => (es :: st.1, st.2)
  | File s _ => (st.1, u64_add st.2 s)
  end.

Fixpoint size_loop (fuel : nat) (stack : list dir) (total : Z) : res CacheError Z :=
  match fuel with
  | O => Panic
  | S fuel =>
      match stack with
      | [] => Ok total
      | d :: stack => let '(stack, total) := foldl size_step (stack, total) d in size_loop fuel stack total
      end
  end.

(** The number of directories in a tree, which bounds the walk. *)
Fixpoint count_dirs (n : node) : nat :=
  match n with
  | File _ _ => 0
  | Dir es => S (foldr (λ e acc, count_dirs e.2 + acc)%nat 0%nat es)
  end.

Definition dir_size_bytes (d : dir) : res CacheError Z := size_loop (S (count_dirs (Dir d))) [d] 0.

(** ** Completed models *)

(** The largest regular file that is neither a manifest nor in flight, the
    first one on ties. *)
Definition model_step (best : option (string * Z)) (e : string * node) : option (string * Z) :=
  let '(name, n) := e in
  if String.eqb name MANIFEST_FILE || String.eqb name RANGES_MANIFEST_FILE || ends_with ".part" name then best
  else
    match n with
    | Dir _ => best
    | File size _ =>
        match best with
        | Some (p, s) => if size <=? s then best else Some (name, size)
        | None => Some (name, size)
        end
    end.

Definition find_model_file (d : dir) : option (string * Z) := foldl model_step None d.

Definition cmp_name (a b : string * dir) : comparison := String.compare a.1 b.1.

(** The complete parts under [parts/], in load order: paths and sizes. *)
Definition complete_parts (d : dir) : list (list string * Z) :=
  match subdir PARTS_DIR d with
  | None => []
  | Some ps =>
      let dirs := omap (λ e : string * node, match e.2 with Dir es => Some (e.1, es) | File _ _ => None end) ps in
      omap (λ e : string * dir, '(name, size) ← find_model_file e.2; Some ([PARTS_DIR; e.1; name], size))
        (sort_by cmp_name dirs)
  end.

Definition scan_entry (d : dir) (id : string) : option CachedModel :=
  let state := state_of_dir d in
  match find_model_file d with
  | Some (path, size) =>
      let blake3 := m ← read_manifest (manifest_doc d);
                    if mf_size_bytes m =? size then Some (mf_blake3 m) else None in
      Some (MkCachedModel id [path] size blake3 1 (es_pinned state) (es_last_used_unix state))
  | None =>
      match complete_parts d with
      | [] => None
      | (first, _) :: _ as parts =>
          Some (MkCachedModel id first (u64_sum parts.*2) None (wrap32 (Z.of_nat (length parts)))
                  (es_pinned state) (es_last_used_unix state))
      end
  end.

(** ** The cache root *)

(** [None] is a missing root. *)
Abbreviation croot := (option dir).

Definition entry_dirs (root : croot) : list (string * dir) :=
  omap (λ e : string * node, match e.2 with Dir es => Some (e.1, es) | File _ _ => None end) (default [] root).

Definition cmp_cached (a b : CachedModel) : comparison := String.compare (cm_id a) (cm_id b).

Definition cache_list (root : croot) : list CachedModel :=
  sort_by cmp_cached (omap (λ e : string * dir, scan_entry e.2 e.1) (entry_dirs root)).

Definition validate_id (id : string) : res CacheError unit :=
  if String.eqb id "" || contains "/" id || contains "\" id || String.eqb id "." || String.eqb id ".."
  then Err (InvalidId id) else Ok tt.

(** The directory of an entry. *)
Definition entry_of (root : croot) (id : string) : res CacheError dir :=
  _ ← validate_id id;
  ok_or (d ← root; subdir id d) (NotCached id).

Definition part_stem (part_file_name : string) : string :=
  if ends_with ".gguf" (to_lower part_file_name)
  then str_take (String.length part_file_name - 5) part_file_name else part_file_name.

Definition split_part_dir (id part_file_name : string) : res CacheError (list string) :=
  _ ← validate_id id;
  _ ← validate_id part_file_name;
  Ok [id; PARTS_DIR; part_stem part_file_name].

(** The part count the file names declare, if any. *)
Definition declared_parts (parts : list (list string * Z)) : option Z :=
  foldl (λ acc c, Some (match acc with Some a => Z.max a c | None => c end)) None
    (omap (λ p : list string * Z, name ← last p.1; sn_count <$> parse_split_name name) parts).

Definition split_part_paths (root : croot) (id : string) : res CacheError (list (list string)) :=
  d ← entry_of root id;
  match complete_parts d with
  | [] => '(path, _) ← ok_or (find_model_file d) (NotCached id); Ok [[path]]
  | parts =>
      let found := wrap32 (Z.of_nat (length parts)) in
      match declared_parts parts with
      | Some expected => if found <? expected then Err (SplitIncomplete id found expected) else Ok parts.*1
      | None => Ok parts.*1
      end
  end.

Definition total_cache_bytes (root : croot) : res CacheError Z :=
  match root with Some d => dir_size_bytes d | None => Ok 0 end.

Definition cmp_candidate (a b : EvictionCandidate) : comparison :=
  cmp_then (ec_last_used_unix a ?= ec_last_used_unix b) (String.compare (ec_id a) (ec_id b)).

Definition candidate_step (out : list EvictionCandidate) (e : string * dir) :
    res CacheError (list EvictionCandidate) :=
  let state := state_of_dir e.2 in
  if es_pinned state then Ok out
  else
    bytes ← dir_size_bytes e.2;
    Ok (out ++ [MkCandidate e.1 bytes (es_last_used_unix state)]).

Definition eviction_candidates (root : croot) : res CacheError (list EvictionCandidate) :=
  out ← fold_res candidate_step [] (entry_dirs root);
  Ok (sort_by cmp_candidate out).

Section cache.
(** The rendered size of a manifest, and the entries that are held open. *)
Context (json_size : gmap string jval → Z) (busy : string → bool).

Definition update_entry_state (d : dir) (mutate : gmap string jval → gmap string jval) : dir :=
  let m := mutate (default ∅ (manifest_doc d)) in
  dir_set MANIFEST_FILE (File (json_size m) (Some m)) d.

(** Update the entry [id] of the root. *)
Definition update_entry (root : croot) (id : string) (mutate : gmap string jval → gmap string jval) :
    res CacheError croot :=
  d ← entry_of root id;
  Ok (dir_set id (Dir (update_entry_state d mutate)) <$> root).

Definition set_pinned (root : croot) (id : string) (pinned : bool) : res CacheError croot :=
  update_entry root id (insert "pinned" (JBool pinned)).

Definition touch (root : croot) (id : string) (now_unix : Z) : res CacheError croot :=
  update_entry root id (insert "last_used_unix" (JNum now_unix)).

Definition remove (root : croot) (id : string) : res CacheError croot :=
  _ ← entry_of root id;
  if busy id then Err (InUse id) else Ok (dir_del id <$> root).

Definition evict_entry (root : croot) (id : string) : res CacheError (Z * croot) :=
  d ← entry_of root id;
  if es_pinned (state_of_dir d) then Err (Pinned id)
  else
    freed ← dir_size_bytes d;
    root ← remove root id;
    Ok (freed, root).

(** ** Garbage collection *)
Record Gc := MkGc { gc_root : croot; gc_total : Z; gc_freed : Z }.

(** Over the candidates in order: stop once the cache fits, skip protected
    ids, evict, and skip entries whose eviction fails. *)
Fixpoint gc_loop (max_bytes : Z) (protected_ids : list string) (cs : list EvictionCandidate) (st : Gc) : Gc :=
  match cs with
  | [] => st
  | c :: cs =>
      if gc_total st <=? max_bytes then st
      else if bool_decide (ec_id c ∈ protected_ids) then gc_loop max_bytes protected_ids cs st
      else
        match evict_entry (gc_root st) (ec_id c) with
        | Ok (freed, root) =>
            gc_loop max_bytes protected_ids cs
              (MkGc root (sat_sub (gc_total st) freed) (u64_add (gc_freed st) freed))
        | _ => gc_loop max_bytes protected_ids cs st
        end
  end.

Definition run_cache_gc (root : croot) (max_bytes : Z) (protected_ids : list string) : Z * croot :=
  if max_bytes =? 0 then (0, root)
  else
    match total_cache_bytes root with
    | Ok total =>
        if total <=? max_bytes then (0, root)
        else
          match eviction_candidates root with
          | Ok cs => let st := gc_loop max_bytes protected_ids cs (MkGc root total 0) in (gc_freed st, gc_root st)
          | _ => (0, root)
          end
    | _ => (0, root)
    end.
End cache.
