(* ===== verification/CacheGc.v ===== *)
(** * The garbage collector respects pins and recency

    The walk that sizes a directory terminates with the recursive size; an
    eviction frees exactly what it reports; and a collection keeps pinned and
    protected entries, evicts least recently used first, no more than needed,
    and reaches the cap unless nothing evictable is left. *)

From Stdlib Require Import ZArith Lia Sorted Permutation Ascii String.
From stdpp Require Import base list strings option gmap.
From S2P Require Import Prelude StrUtil Split Download Cache.

Open Scope Z_scope.

#[global] Instance cmp_candidate_ok : CmpOk cmp_candidate.
Proof.
  assert (CmpOk (λ a b, String.compare (ec_id a) (ec_id b))) as Hs.
  { split; [intros x y; apply String.compare_antisym|].
    intros x y z. unfold cmp_le. apply (cmp_trans String.compare). }
  exact (cmp_then_ok _ _ (cmp_key_ok ec_last_used_unix) Hs).
Qed.

(** ** Sizes *)
Fixpoint tree_size (n : node) : Z :=
  match n with
  | File s _ => s
  | Dir es => foldr (λ e acc, tree_size e.2 + acc) 0 es
  end.
Definition dir_size (d : dir) : Z := tree_size (Dir d).

(** Every file size is a size. *)
Fixpoint tree_ok (n : node) : Prop :=
  match n with
  | File s _ => 0 ≤ s
  | Dir es => foldr (λ e acc, tree_ok e.2 ∧ acc) True es
  end.

Lemma tree_ok_dir es : tree_ok (Dir es) ↔ Forall (λ e, tree_ok e.2) es.
Proof.
  simpl. induction es as [|e es IH]; simpl; [by split; [constructor|]|]. rewrite IH, Forall_cons. done.
Qed.

Lemma dir_size_nil : dir_size [] = 0.
Proof. done. Qed.
Lemma dir_size_cons e d : dir_size (e :: d) = tree_size e.2 + dir_size d.
Proof. done. Qed.
Lemma dir_size_app d1 d2 : dir_size (d1 ++ d2) = dir_size d1 + dir_size d2.
Proof.
  induction d1 as [|e d1 IH]; [done|]. rewrite <- app_comm_cons, !dir_size_cons, IH. lia.
Qed.

Fixpoint tree_size_nonneg (n : node) : tree_ok n → 0 ≤ tree_size n.
Proof.
  destruct n as [s doc|es]; simpl; [done|].
  induction es as [|e es IH]; simpl; [done|]. intros [He Hes].
  pose proof (tree_size_nonneg e.2 He). specialize (IH Hes). lia.
Qed.

Lemma dir_size_nonneg d : tree_ok (Dir d) → 0 ≤ dir_size d.
Proof. apply tree_size_nonneg. Qed.

(** The sizes and directories pending on the stack. *)
Definition stack_size (stack : list dir) : Z := foldr (λ d acc, dir_size d + acc) 0 stack.
Definition stack_dirs (stack : list dir) : nat := foldr (λ d acc, count_dirs (Dir d) + acc)%nat 0%nat stack.
Definition stack_ok (stack : list dir) : Prop := Forall (λ d, tree_ok (Dir d)) stack.

Lemma stack_size_nonneg stack : stack_ok stack → 0 ≤ stack_size stack.
Proof. induction 1 as [|d s Hd _ IH]; simpl; [done|]. pose proof (dir_size_nonneg d Hd). lia. Qed.

Lemma size_step_spec d stack total :
  tree_ok (Dir d) → stack_ok stack → 0 ≤ total → total + stack_size stack + dir_size d < 2 ^ 64 →
  let st := foldl size_step (stack, total) d in
  stack_ok st.1 ∧ 0 ≤ st.2 ∧
  st.2 + stack_size st.1 = total + stack_size stack + dir_size d ∧
  S (stack_dirs st.1) = (stack_dirs stack + count_dirs (Dir d))%nat.
Proof.
  revert stack total. induction d as [|[name n] d IH]; intros stack total Hd Hs H0 Hlt.
  { simpl in *. split; [done|]. split; [done|]. split; [change (dir_size []) with 0; lia|lia]. }
  apply tree_ok_dir, Forall_cons in Hd as [Hn Hd%tree_ok_dir]. rewrite dir_size_cons in Hlt |- *. simpl in Hn.
  pose proof (dir_size_nonneg d Hd). pose proof (stack_size_nonneg stack Hs). cbn [foldl].
  destruct n as [s doc|es].
  - change (size_step (stack, total) (name, File s doc)) with (stack, u64_add total s). simpl in Hn, Hlt. assert (u64_add total s = total + s) as -> by (apply wrap64_small; unfold in_u64; lia).
    destruct (IH stack (total + s) Hd Hs ltac:(lia) ltac:(lia)) as (A & B & C & D).
    split; [done|]. split; [done|]. split; [simpl; lia|]. simpl in D |- *. lia.
  - change (size_step (stack, total) (name, Dir es)) with (es :: stack, total).
    change (tree_size (name, Dir es).2) with (dir_size es) in *.
    destruct (IH (es :: stack) total Hd) as (A & B & C & D).
    + constructor; done.
    + done.
    + simpl. lia.
    + split; [done|]. split; [done|]. split; [simpl in C; lia|]. simpl in D |- *. lia.
Qed.

Lemma size_loop_spec fuel stack total :
  stack_ok stack → 0 ≤ total → total + stack_size stack < 2 ^ 64 → (stack_dirs stack < fuel)%nat →
  size_loop fuel stack total = Ok (total + stack_size stack).
Proof.
  revert stack total. induction fuel as [|fuel IH]; intros stack total Hs H0 Hlt Hf; [lia|].
  cbn [size_loop]. destruct stack as [|d stack]; [simpl; f_equal; lia|].
  apply Forall_cons in Hs as [Hd Hs]. simpl in Hlt.
  pose proof (size_step_spec d stack total Hd Hs H0 ltac:(lia)) as Hstep. cbv zeta in Hstep.
  destruct (foldl size_step (stack, total) d) as [stack' total']. destruct Hstep as (A & B & C & D).
  simpl in *. rewrite IH; [f_equal; lia|done|done|lia|lia].
Qed.

(** The walk over a directory terminates with its recursive size. *)
Lemma dir_size_bytes_exact d :
  tree_ok (Dir d) → dir_size d < 2 ^ 64 → dir_size_bytes d = Ok (dir_size d).
Proof.
  intros Hok Hlt. unfold dir_size_bytes. rewrite size_loop_spec; simpl; try lia.
  - f_equal. lia.
  - by constructor.
Qed.

(** ** Entries of a root with distinct names *)
Section root.
Context (d : dir) (Hnd : NoDup d.*1) (Hok : tree_ok (Dir d)) (Hsize : dir_size d < 2 ^ 64).

(** The root without the evicted entries. *)
Definition without (E : list string) : dir := filter (λ p : string * node, p.1 ∉ E) d.

Lemma dir_get_elem d0 id n : NoDup d0.*1 → dir_get id d0 = Some n ↔ (id, n) ∈ d0.
Proof using.
  unfold dir_get, find_first. intros Hd. split.
  - destruct (list_find _ d0) as [[i [k v]]|] eqn:E; [|done]. intros [= <-].
    apply list_find_Some in E as (H1 & H2 & _). simpl in H2. apply String.eqb_eq in H2 as ->.
    by eapply list_elem_of_lookup_2.
  - intros Hin. induction d0 as [|[k v] d0 IH]; [by apply not_elem_of_nil in Hin|].
    rewrite fmap_cons in Hd. apply NoDup_cons in Hd as [Hk Hd]. simpl in Hk. simpl.
    destruct (String.eqb_spec k id) as [->|Hne].
    + rewrite decide_True by done. simpl. apply elem_of_cons in Hin as [[= ->]|Hin]; [done|].
      exfalso. apply Hk. apply list_elem_of_fmap. by exists (id, n).
    + rewrite decide_False by done. apply elem_of_cons in Hin as [[= -> _]|Hin]; [done|].
      specialize (IH Hd Hin). destruct (list_find _ d0) as [[i p]|]; simpl in *; done.
Qed.

Lemma without_names E : NoDup (without E).*1.
Proof using Hnd. eapply sublist_NoDup; [exact Hnd|]. apply fmap_sublist, sublist_filter. Qed.

Lemma without_get E id n : dir_get id (without E) = Some n ↔ dir_get id d = Some n ∧ id ∉ E.
Proof using Hnd.
  rewrite !dir_get_elem by (done || apply without_names). unfold without. rewrite list_elem_of_filter. simpl. naive_solver.
Qed.

Lemma without_del E id : dir_del id (without E) = without (E ++ [id]).
Proof using.
  unfold dir_del, without. rewrite list_filter_filter. apply list_filter_iff. intros [k v]. simpl.
  rewrite String.eqb_neq, not_elem_of_app, list_elem_of_singleton. naive_solver.
Qed.

Lemma subdir_get E id es : subdir id (without E) = Some es ↔ dir_get id d = Some (Dir es) ∧ id ∉ E.
Proof using Hnd.
  rewrite <- without_get. unfold subdir. destruct (dir_get id (without E)) as [[s doc|es']|]; naive_solver.
Qed.

Lemma tree_ok_elem id n : (id, n) ∈ d → tree_ok n.
Proof using Hok. apply tree_ok_dir in Hok. rewrite list.Forall_forall in Hok. intros H. by apply (Hok _ H). Qed.

Lemma size_filter_le (P : string * node → Prop) `{!∀ p, Decision (P p)} d0 :
  tree_ok (Dir d0) → 0 ≤ dir_size (filter P d0) ≤ dir_size d0.
Proof using.
  intros Hd0%tree_ok_dir. induction Hd0 as [|e d0 He _ IH]; [done|]. rewrite filter_cons.
  pose proof (tree_size_nonneg e.2 He). case_decide; rewrite ?dir_size_cons; lia.
Qed.

(** Deleting an entry takes its size away. *)
Lemma size_delete d0 id n :
  NoDup d0.*1 → (id, n) ∈ d0 →
  dir_size d0 = tree_size n + dir_size (dir_del id d0).
Proof using.
  unfold dir_del. induction d0 as [|[k v] d0 IH]; intros Hd Hin; [by apply not_elem_of_nil in Hin|].
  rewrite fmap_cons in Hd. apply NoDup_cons in Hd as [Hk Hd]. rewrite dir_size_cons, filter_cons. simpl in Hk |- *.
  destruct (String.eqb_spec k id) as [->|Hne].
  - rewrite decide_False by done. apply elem_of_cons in Hin as [[= ->]|Hin].
    + f_equal. f_equal. symmetry. clear IH Hd. induction d0 as [|[k' v'] d0 IH]; [done|]. rewrite filter_cons. simpl.
      rewrite fmap_cons in Hk. apply not_elem_of_cons in Hk as [Hk1 Hk2]. simpl in Hk1.
      rewrite decide_True by (by apply String.eqb_neq). f_equal. by apply IH.
    + exfalso. apply Hk. apply list_elem_of_fmap. by exists (id, n).
  - rewrite decide_True by done. apply elem_of_cons in Hin as [[= -> _]|Hin]; [done|].
    rewrite dir_size_cons, (IH Hd Hin). simpl. lia.
Qed.

(** ** One eviction *)
Context (busy : string → bool).

(** An entry the collector may evict. *)
Definition evictable (protected_ids : list string) (id : string) (es : dir) : Prop :=
  dir_get id d = Some (Dir es) ∧ es_pinned (state_of_dir es) = false ∧ id ∉ protected_ids ∧
  busy id = false ∧ validate_id id = Ok tt.

Lemma evict_spec E id es :
  dir_get id d = Some (Dir es) → id ∉ E → es_pinned (state_of_dir es) = false →
  match evict_entry busy (Some (without E)) id with
  | Ok (freed, root) => root = Some (without (E ++ [id])) ∧ freed = dir_size es ∧
      busy id = false ∧ validate_id id = Ok tt ∧ dir_size (without E) = freed + dir_size (without (E ++ [id]))
  | Err _ => busy id = true ∨ validate_id id ≠ Ok tt
  | Panic => False
  end.
Proof using Hnd Hok Hsize.
  intros Hget HE Hpin. unfold evict_entry, remove, entry_of.
  destruct (validate_id id) as [[]|e|] eqn:Ev; cbn [mbind res_bind]; [|by right|].
  2: { unfold validate_id in Ev. by destruct (_ || _). }
  assert (subdir id (without E) = Some es) as Hsub by (by apply subdir_get). simpl. rewrite Hsub.
  cbn [ok_or mbind res_bind]. rewrite Hpin.
  assert ((id, Dir es) ∈ d) as Hin by (by apply dir_get_elem).
  pose proof (tree_ok_elem _ _ Hin) as Htes.
  pose proof (size_delete d id (Dir es) Hnd Hin) as Hsz. change (tree_size (Dir es)) with (dir_size es) in Hsz.
  pose proof (size_filter_le (λ p : string * node, String.eqb p.1 id = false) d Hok) as Hnn. fold (dir_del id d) in Hnn.
  rewrite dir_size_bytes_exact; [|done|lia]. cbn [mbind res_bind].
  destruct (busy id) eqn:Eb; cbn [mbind res_bind]; [by left|].
  simpl. rewrite without_del. split; [done|]. split; [done|]. split; [done|]. split; [done|].
  rewrite <- without_del. apply (size_delete (without E) id (Dir es)); [apply without_names|].
  apply dir_get_elem; [apply without_names|]. by apply without_get.
Qed.

(** ** Candidates *)
Definition cand (id : string) (es : dir) : EvictionCandidate :=
  MkCandidate id (dir_size es) (es_last_used_unix (state_of_dir es)).

Definition is_candidate (c : EvictionCandidate) : Prop :=
  ∃ es, dir_get (ec_id c) d = Some (Dir es) ∧ es_pinned (state_of_dir es) = false ∧ c = cand (ec_id c) es.

Lemma subdir_size id es : dir_get id d = Some (Dir es) → tree_ok (Dir es) ∧ dir_size es < 2 ^ 64.
Proof using Hnd Hok Hsize.
  intros Hin%dir_get_elem; [|done]. split; [by apply (tree_ok_elem id)|].
  pose proof (size_delete d id (Dir es) Hnd Hin) as Hsz. change (tree_size (Dir es)) with (dir_size es) in Hsz.
  pose proof (size_filter_le (λ p : string * node, String.eqb p.1 id = false) d Hok) as Hnn. fold (dir_del id d) in Hnn. lia.
Qed.

Lemma candidates_fold l out :
  (∀ id es, (id, es) ∈ l → dir_get id d = Some (Dir es)) →
  ∃ cs, fold_res candidate_step out l = Ok (out ++ cs) ∧ Forall is_candidate cs ∧
    ec_id <$> cs `sublist_of` l.*1 ∧
    (∀ id es, (id, es) ∈ l → es_pinned (state_of_dir es) = false → cand id es ∈ cs).
Proof using Hnd Hok Hsize.
  revert out. induction l as [|[id es] l IH]; intros out Hl.
  { exists []. rewrite app_nil_r. split; [done|]. split; [done|]. split; [done|].
    intros ? ? H. by apply not_elem_of_nil in H. }
  assert (dir_get id d = Some (Dir es)) as Hget by (apply Hl; left).
  destruct (subdir_size id es Hget) as [Hok' Hlt].
  assert (∀ id es, (id, es) ∈ l → dir_get id d = Some (Dir es)) as Hl' by (intros; apply Hl; by right).
  cbn [fold_res]. unfold candidate_step at 2. simpl.
  destruct (es_pinned (state_of_dir es)) eqn:Hpin; cbn [mbind res_bind].
  - destruct (IH out Hl') as (cs & H1 & H2 & H3 & H4). exists cs. rewrite H1. split; [done|]. split; [done|].
    split; [by constructor|]. intros i e [[= -> ->]|Hin]%elem_of_cons Hp; [congruence|eauto].
  - rewrite dir_size_bytes_exact by done. cbn [mbind res_bind].
    destruct (IH (out ++ [cand id es]) Hl') as (cs & H1 & H2 & H3 & H4). exists (cand id es :: cs).
    change (MkCandidate _ _ _) with (cand id es). rewrite H1, <- app_assoc. split; [done|].
    split; [constructor; [by exists es|done]|]. split; [by constructor|].
    intros i e [[= -> ->]|Hin]%elem_of_cons Hp; [left|right; eauto].
Qed.

Lemma entry_dirs_names (d0 : dir) : (entry_dirs (Some d0)).*1 `sublist_of` d0.*1.
Proof using.
  unfold entry_dirs. simpl. induction d0 as [|[k [s doc|es]] d0 IH]; simpl; [done|by constructor|by constructor].
Qed.

Lemma entry_dirs_elem id es : (id, es) ∈ entry_dirs (Some d) ↔ dir_get id d = Some (Dir es).
Proof using Hnd.
  rewrite dir_get_elem by done. unfold entry_dirs. simpl. rewrite list_elem_of_omap. split.
  - intros ([k [s doc|es']] & Hin & Heq); simpl in Heq; by simplify_eq.
  - intros Hin. by exists (id, Dir es).
Qed.

(** The candidates are the unpinned entries, least recently used first. *)
Lemma eviction_candidates_spec :
  ∃ cs, eviction_candidates (Some d) = Ok cs ∧ Forall is_candidate cs ∧ NoDup (ec_id <$> cs) ∧
    StronglySorted (cmp_le cmp_candidate) cs ∧
    (∀ id es, dir_get id d = Some (Dir es) → es_pinned (state_of_dir es) = false → cand id es ∈ cs).
Proof using Hnd Hok Hsize.
  destruct (candidates_fold (entry_dirs (Some d)) []) as (cs & H1 & H2 & H3 & H4).
  { intros id es. apply entry_dirs_elem. }
  unfold eviction_candidates. rewrite H1. cbn [mbind res_bind app].
  exists (sort_by cmp_candidate cs). pose proof (sort_by_Permutation cmp_candidate cs) as Hp. split; [done|].
  split; [by rewrite Hp|]. split; [|split].
  - rewrite Hp. eapply sublist_NoDup; [exact Hnd|]. etrans; [exact H3|apply entry_dirs_names].
  - apply sort_by_Sorted, _.
  - intros id es Hget Hpin. rewrite Hp. apply H4; [by apply entry_dirs_elem|done].
Qed.

(** ** The collection *)

(** [F] is evicted after [E]: only evictable entries, each while the cache
    was still over the cap. *)
Definition evicts (max_bytes : Z) (protected_ids : list string) (E F : list string) : Prop :=
  (∀ id, id ∈ F → ∃ es, evictable protected_ids id es) ∧
  (∀ F1 id F2, F = F1 ++ id :: F2 → max_bytes < dir_size (without (E ++ F1))).

(** [F] starts with the least recently used of the evictable candidates. *)
Definition lru_first (protected_ids : list string) (cs : list EvictionCandidate) (F : list string) : Prop :=
  ∀ id es id' es', id ∈ F → evictable protected_ids id es →
    cand id' es' ∈ cs → evictable protected_ids id' es' → id' ∉ F →
    cmp_candidate (cand id es) (cand id' es') ≠ Gt.

Definition gc_state (E : list string) : Gc :=
  MkGc (Some (without E)) (dir_size (without E)) (dir_size d - dir_size (without E)).

Lemma evicts_nil max_bytes protected_ids E : evicts max_bytes protected_ids E [].
Proof using. split; [intros id H; by apply not_elem_of_nil in H|by intros [|] ? ?]. Qed.

Lemma evicts_cons max_bytes protected_ids E id es F :
  evictable protected_ids id es → max_bytes < dir_size (without E) →
  evicts max_bytes protected_ids (E ++ [id]) F → evicts max_bytes protected_ids E (id :: F).
Proof using.
  intros Hev Hlt [H1 H2]. split.
  - intros x [->|Hx]%elem_of_cons; [by exists es|auto].
  - intros [|y F1] x F2 [= -> ->]; [by rewrite app_nil_r|]. specialize (H2 F1 x F2 eq_refl). by rewrite <- app_assoc in H2.
Qed.

Lemma evictable_fun protected_ids id es es' :
  evictable protected_ids id es → evictable protected_ids id es' → es = es'.
Proof using. intros (H1 & _) (H2 & _). congruence. Qed.

(** A skipped candidate was not evictable. *)
Lemma lru_first_skip protected_ids c cs F :
  (∀ es, ¬ evictable protected_ids (ec_id c) es) →
  lru_first protected_ids cs F → lru_first protected_ids (c :: cs) F.
Proof using.
  intros Hne H id es id' es' H1 H2 [<-|H3]%elem_of_cons H4 H5; [by destruct (Hne es')|by apply (H id es id' es')].
Qed.

Lemma lru_first_evict protected_ids c es cs F :
  c = cand (ec_id c) es → evictable protected_ids (ec_id c) es → Forall (cmp_le cmp_candidate c) cs →
  lru_first protected_ids cs F → lru_first protected_ids (c :: cs) (ec_id c :: F).
Proof using.
  intros Hc Hev Hle H id e id' es' H1 H2 H3 H4 [H5 H6]%not_elem_of_cons.
  apply elem_of_cons in H3 as [H3|H3]; [by rewrite <- H3 in H5|].
  apply elem_of_cons in H1 as [->|H1]; [|by apply (H id e id' es')].
  rewrite (evictable_fun _ _ _ _ H2 Hev), <- Hc. rewrite list.Forall_forall in Hle. by apply Hle.
Qed.

(** What the loop does from the state after evicting [E]: it evicts [F] and
    ends with the cache under the cap or with nothing evictable left. *)
Definition collects (max_bytes : Z) (protected_ids : list string) (cs : list EvictionCandidate)
    (E : list string) (st : Gc) (F : list string) : Prop :=
  st = gc_state (E ++ F) ∧
  evicts max_bytes protected_ids E F ∧ lru_first protected_ids cs F ∧
  (dir_size (without (E ++ F)) ≤ max_bytes ∨
   ∀ id es, cand id es ∈ cs → evictable protected_ids id es → id ∈ F).

Lemma collects_skip max_bytes protected_ids c cs E st F :
  (∀ e, ¬ evictable protected_ids (ec_id c) e) →
  collects max_bytes protected_ids cs E st F → collects max_bytes protected_ids (c :: cs) E st F.
Proof using.
  intros Hno (H1 & H2 & H3 & H4). split; [done|]. split; [done|]. split; [by apply lru_first_skip|].
  destruct H4 as [H4|H4]; [by left|right]. intros id e [<-|Hin]%elem_of_cons Hev; [by destruct (Hno e)|eauto].
Qed.

Lemma collects_evict max_bytes protected_ids c es cs E st F :
  c = cand (ec_id c) es → evictable protected_ids (ec_id c) es → Forall (cmp_le cmp_candidate c) cs →
  max_bytes < dir_size (without E) →
  collects max_bytes protected_ids cs (E ++ [ec_id c]) st F →
  collects max_bytes protected_ids (c :: cs) E st (ec_id c :: F).
Proof using.
  intros Hc Hev Hle Hover (H1 & H2 & H3 & H4).
  unfold collects. rewrite (app_assoc E [ec_id c] F : E ++ ec_id c :: F = _).
  split; [done|]. split; [by apply (evicts_cons _ _ _ _ es)|]. split; [by apply (lru_first_evict _ _ es)|].
  destruct H4 as [H4|H4]; [by left|right]. intros id e [<-|Hin]%elem_of_cons Hev'; [left|right; eauto].
Qed.

Lemma collects_stop max_bytes protected_ids cs E :
  dir_size (without E) ≤ max_bytes ∨ cs = [] → collects max_bytes protected_ids cs E (gc_state E) [].
Proof using.
  intros H. unfold collects. rewrite app_nil_r. split; [done|]. split; [apply evicts_nil|].
  split; [intros ? ? ? ? H0; by apply not_elem_of_nil in H0|].
  destruct H as [H | ->]; [by left|right]. intros ? ? H. by apply not_elem_of_nil in H.
Qed.

(** The state after one more eviction. *)
Lemma gc_state_evict E id es freed :
  dir_get id d = Some (Dir es) → freed = dir_size es →
  dir_size (without E) = freed + dir_size (without (E ++ [id])) →
  MkGc (Some (without (E ++ [id]))) (sat_sub (dir_size (without E)) freed) (u64_add (gc_freed (gc_state E)) freed) =
  gc_state (E ++ [id]).
Proof using Hnd Hok Hsize.
  intros Hget Hfreed Hsz.
  pose proof (size_filter_le (λ p : string * node, p.1 ∉ E ++ [id]) d Hok) as Hn1. fold (without (E ++ [id])) in Hn1.
  pose proof (size_filter_le (λ p : string * node, p.1 ∉ E) d Hok) as Hn2. fold (without E) in Hn2.
  destruct (subdir_size _ _ Hget) as [Hokes Hltes]. pose proof (dir_size_nonneg es Hokes).
  unfold gc_state. simpl. f_equal; [unfold sat_sub; lia|]. unfold u64_add. rewrite wrap64_small; [lia|unfold in_u64; lia].
Qed.

Lemma gc_loop_spec max_bytes protected_ids cs E :
  Forall is_candidate cs → NoDup (ec_id <$> cs) → StronglySorted (cmp_le cmp_candidate) cs →
  (∀ c, c ∈ cs → ec_id c ∉ E) →
  ∃ F, collects max_bytes protected_ids cs E (gc_loop busy max_bytes protected_ids cs (gc_state E)) F.
Proof using Hnd Hok Hsize.
  revert E. induction cs as [|c cs IH]; intros E Hc Hdup Hs HE.
  { exists []. apply collects_stop. by right. }
  apply Forall_cons in Hc as [(es & Hget & Hpin & Hcand) Hc].
  rewrite fmap_cons in Hdup. apply NoDup_cons in Hdup as [Hid Hdup]. apply StronglySorted_inv in Hs as [Hs Hle].
  assert (ec_id c ∉ E) as HcE by (apply HE; left).
  assert (∀ x, x ∈ cs → ec_id x ∉ E) as HE' by (intros; apply HE; by right).
  destruct (IH E Hc Hdup Hs HE') as (F & HF). cbn [gc_loop].
  change (gc_total (gc_state E)) with (dir_size (without E)).
  destruct (Z.leb_spec (dir_size (without E)) max_bytes) as [Hfit|Hover].
  { exists []. apply collects_stop. by left. }
  case_bool_decide as Hprot.
  { exists F. apply collects_skip; [|done]. intros e (_ & _ & Hp & _); done. }
  pose proof (evict_spec E (ec_id c) es Hget HcE Hpin) as Hspec.
  change (gc_root (gc_state E)) with (Some (without E)).
  destruct (evict_entry busy (Some (without E)) (ec_id c)) as [[freed root]|e|]; [|..|done].
  2: { exists F. apply collects_skip; [|done]. intros e' (_ & _ & _ & Hb & Hv). destruct Hspec; congruence. }
  destruct Hspec as (-> & Hfreed & Hb & Hv & Hsz). rewrite (gc_state_evict E (ec_id c) es freed Hget Hfreed Hsz).
  destruct (IH (E ++ [ec_id c]) Hc Hdup Hs) as (F' & HF').
  { intros x Hx [?|Heq%list_elem_of_singleton]%elem_of_app; [by destruct (HE' x)|].
    apply Hid, list_elem_of_fmap. by exists x. }
  exists (ec_id c :: F'). by apply (collects_evict _ _ _ es).
Qed.

Lemma without_nil : without [] = d.
Proof using.
  unfold without. clear. induction d as [|e l IH]; [done|]. rewrite filter_cons, decide_True, IH; [done|apply not_elem_of_nil].
Qed.
End root.


(** A cache of three entries: an old one, a pinned one and a recent one. *)
Definition ex_entry (pinned : bool) (used size : Z) : node :=
  Dir [("model.gguf", File size None);
       (MANIFEST_FILE, File 10 (Some (<["pinned" := JBool pinned]> (<["last_used_unix" := JNum used]> ∅))))].
Definition ex_cache : dir :=
  [("recent", ex_entry false 300 50); ("pinned", ex_entry true 100 70); ("old", ex_entry false 200 40)].


(** ** Pins *)
Lemma dir_get_set name name' n d :
  dir_get name' (dir_set name n d) = if String.eqb name name' then Some n else dir_get name' d.
Proof.
  unfold dir_get, find_first.
  induction d as [|[k v] d IH]; simpl; [by destruct (String.eqb name name')|].
  destruct (String.eqb_spec k name) as [->|Hne]; simpl.
  - destruct (String.eqb_spec name name') as [->|Hne']; simpl; [done|]. by destruct (list_find _ d) as [[]|].
  - destruct (String.eqb_spec k name') as [->|Hne']; simpl.
    + destruct (String.eqb_spec name name') as [->|_]; done.
    + destruct (list_find _ (dir_set name n d)) as [[]|], (list_find _ d) as [[]|]; simpl in *; done.
Qed.

(** The recorded time of use is absent or a 64-bit number. *)
Definition readable_use (es : dir) : Prop :=
  match default ∅ (manifest_doc es) !! "last_used_unix" with
  | None => True
  | Some (JNum t) => 0 ≤ t ≤ u64_max
  | _ => False
  end.

Lemma pinned_state js es :
  readable_use es → es_pinned (state_of_dir (update_entry_state js es (insert "pinned" (JBool true)))) = true.
Proof.
  unfold readable_use, state_of_dir, update_entry_state, manifest_doc. rewrite dir_get_set. simpl.
  rewrite lookup_insert, lookup_insert_ne by done. simpl.
  destruct (default ∅ _ !! "last_used_unix") as [[]|]; try done.
  intros H. replace (_ && _) with true; [done|]. symmetry. apply andb_true_intro. split; lia.
Qed.

Lemma entry_of_set root id n id' :
  id ≠ id' → entry_of (Some (dir_set id n root)) id' = entry_of (Some root) id'.
Proof. intros Hne. unfold entry_of, subdir. simpl. rewrite dir_get_set. by rewrite (proj2 (String.eqb_neq id id')). Qed.

(** Pinning a cached entry takes effect: until it is unpinned an eviction
    of that entry is refused with [Pinned], whoever holds it open, and every
    other entry reads as before. *)
Theorem set_pinned_protects js busy root id root' :
  set_pinned js (Some root) id true = Ok root' →
  (∀ es, subdir id root = Some es → readable_use es) →
  evict_entry busy root' id = Err (Pinned id) ∧
  ∀ id', id ≠ id' → entry_of root' id' = entry_of (Some root) id'.
Proof.
  unfold set_pinned, update_entry, evict_entry. intros H Hread. unfold entry_of in H at 1.
  destruct (validate_id id) as [[]|e|] eqn:Ev; cbn [mbind res_bind] in H; try discriminate H. simpl in H.
  destruct (subdir id root) as [es|] eqn:Es; try discriminate H. cbn [ok_or mbind res_bind] in H. injection H as <-.
  specialize (Hread es eq_refl). split; [|intros; by apply entry_of_set].
  unfold entry_of. rewrite Ev. simpl. unfold subdir. rewrite dir_get_set, String.eqb_refl. simpl.
  by rewrite pinned_state.
Qed.

Lemma set_pinned_protects_witness :
  ∃ root', set_pinned (λ _, 10) (Some ex_cache) "old" true = Ok root' ∧
    evict_entry (λ _, false) root' "old" = Err (Pinned "old").
Proof.
  eexists. split; [vm_compute; reflexivity|].
  refine (proj1 (set_pinned_protects (λ _, 10) (λ _, false) ex_cache "old" _ _ _)).
  - vm_compute. reflexivity.
  - intros es [= <-]. vm_compute. split; discriminate.
Defined.
