(* ===== verification/StopScan.v ===== *)
(** * Stop-string scanning

    Models [StopScan] of [crates/onebraind/src/engine_host.rs]: pieces of
    generated text are admitted until one completes a stop string, and only a
    bounded tail of the text is kept.  The theorem compares it with scanning
    the whole text. *)

From Stdlib Require Import ZArith Lia Ascii String.
From stdpp Require Import base list strings option.
From S2P Require Import Prelude StrUtil.

Open Scope nat_scope.

Record StopScan := MkStopScan { ss_stops : list string; ss_tail : string; ss_keep : nat }.

Definition longest (l : list string) : nat := foldr (λ s n, Nat.max (String.length s) n) 0 l.

Definition stop_scan_new (stops : list string) : StopScan :=
  let stops := filter (λ s, s ≠ "") stops in
  MkStopScan stops "" (longest stops - 1).

(** The first character boundary at or after [cut]. *)
Fixpoint next_boundary (fuel cut : nat) (s : string) : nat :=
  match fuel with
  | O => cut
  | S fuel => if is_char_boundary cut s then cut else next_boundary fuel (S cut) s
  end.

(** [admit]: the verdict and the updated scan. *)
Definition scan_admit (sc : StopScan) (piece : string) : bool * StopScan :=
  match ss_stops sc with
  | [] => (true, sc)
  | _ =>
      let tail := ss_tail sc +:+ piece in
      if existsb (λ s, contains s tail) (ss_stops sc) then (false, MkStopScan (ss_stops sc) tail (ss_keep sc))
      else if (ss_keep sc <? String.length tail)%nat then
        let cut := next_boundary (String.length tail) (String.length tail - ss_keep sc) tail in
        (true, MkStopScan (ss_stops sc) (str_drop cut tail) (ss_keep sc))
      else (true, MkStopScan (ss_stops sc) tail (ss_keep sc))
  end.

(** Feed pieces in order; [None] once one is refused. *)
Fixpoint feed (sc : StopScan) (ps : list string) : option StopScan :=
  match ps with
  | [] => Some sc
  | p :: ps => match scan_admit sc p with (true, sc) => feed sc ps | (false, _) => None end
  end.

Lemma feed_app sc ps qs : feed sc (ps ++ qs) = feed sc ps ≫= λ sc, feed sc qs.
Proof. revert sc. induction ps as [|p ps IH]; intros sc; simpl; [done|]. destruct (scan_admit sc p) as [[] sc']; [apply IH|done]. Qed.

Lemma feed_no_stops sc ps sc' : ss_stops sc = [] → feed sc ps = Some sc' → sc' = sc.
Proof.
  intros Hs. induction ps as [|p ps IH]; simpl; [by intros [= ->]|]. unfold scan_admit. by rewrite Hs.
Qed.

(** ** Occurrences *)
Lemma starts_with_Some p s : starts_with p s = true ↔ ∃ r, s = p +:+ r.
Proof.
  unfold starts_with. destruct (strip_prefix p s) as [r|] eqn:E.
  - apply strip_prefix_Some in E as ->. split; [by exists r|done].
  - split; [done|]. intros [r ->]. by rewrite strip_prefix_app in E.
Qed.

Lemma contains_Some needle s : contains needle s = true ↔ ∃ a b, s = a +:+ needle +:+ b.
Proof.
  induction s as [|x s IH].
  - simpl. rewrite orb_false_r, starts_with_Some. split.
    + intros [r Hr]. by exists "", r.
    + intros (a & b & H). exists b. by destruct a.
  - simpl. rewrite orb_true_iff, starts_with_Some, IH. split.
    + intros [[r ->]|(a & b & ->)]; [by exists "", r|by exists (String x a), b].
    + intros ([|y a] & b & H); [left; by exists b|right]. injection H as -> ->. by exists a, b.
Qed.

Lemma contains_app_l needle s t : contains needle s = true → contains needle (s +:+ t) = true.
Proof. rewrite !contains_Some. intros (a & b & ->). exists a, (b +:+ t). by rewrite !string_app_assoc. Qed.

(** A string that starts a character. *)
Definition starts_char (s : string) : Prop := s = "" ∨ is_char_boundary 0 s = true.

(** ** The bounded tail *)

(** [tail] stands for [text]: what was dropped cannot start a match that
    reaches past the end of [text]. *)
Definition stands_for (keep : nat) (tail text : string) : Prop :=
  ∃ dropped, text = dropped +:+ tail ∧
    ∀ o, (String.length text - keep ≤ o < String.length dropped)%nat → is_char_boundary o text = false.

Lemma boundary_app n s t : (n < String.length s)%nat → is_char_boundary n (s +:+ t) = is_char_boundary n s.
Proof.
  unfold is_char_boundary. revert n. induction s as [|a s IH]; intros n Hn; simpl in Hn; [lia|].
  destruct n as [|n]; [done|]. simpl. specialize (IH n ltac:(lia)).
  destruct (str_drop n s) as [|x r] eqn:E.
  - pose proof (str_drop_length n s) as Hl. rewrite E in Hl. simpl in Hl. lia.
  - destruct (str_drop n (s +:+ t)) as [|y r'] eqn:E'; [|done].
    pose proof (str_drop_length n (s +:+ t)) as Hl. rewrite E', string_length_app in Hl. simpl in Hl. lia.
Qed.

Lemma boundary_shift n s t : is_char_boundary (String.length s + n) (s +:+ t) = is_char_boundary n t.
Proof.
  unfold is_char_boundary. rewrite string_length_app.
  replace (str_drop (String.length s + n) (s +:+ t)) with (str_drop n t).
  - destruct (str_drop n t); [|done]. destruct (Nat.eqb_spec n (String.length t)) as [->|H]; [apply Nat.eqb_refl|].
    apply Nat.eqb_neq. lia.
  - induction s as [|a s IH]; [done|]. exact IH.
Qed.

Lemma next_boundary_spec fuel cut s :
  (cut ≤ String.length s)%nat → (String.length s - cut ≤ fuel)%nat →
  let c := next_boundary fuel cut s in
  (cut ≤ c ≤ String.length s)%nat ∧ is_char_boundary c s = true ∧
  ∀ o, (cut ≤ o < c)%nat → is_char_boundary o s = false.
Proof.
  assert (is_char_boundary (String.length s) s = true) as Hend.
  { rewrite <- (string_app_nil_r s) at 2. replace (String.length s) with (String.length s + 0)%nat at 1 by lia.
    by rewrite boundary_shift. }
  revert cut. induction fuel as [|fuel IH]; intros cut Hc Hf; simpl.
  - assert (cut = String.length s) as -> by lia. split; [lia|]. split; [done|]. intros; lia.
  - destruct (is_char_boundary cut s) eqn:E; [split; [lia|]; split; [done|]; intros; lia|].
    assert (cut ≠ String.length s) by (intros ->; congruence).
    destruct (IH (S cut) ltac:(lia) ltac:(lia)) as (H1 & H2 & H3). split; [lia|]. split; [done|].
    intros o Ho. destruct (decide (o = cut)) as [->|]; [done|]. apply H3. lia.
Qed.

Lemma stands_for_app keep tail text p : stands_for keep tail text → stands_for keep (tail +:+ p) (text +:+ p).
Proof.
  intros (dropped & -> & H). exists dropped. rewrite string_app_assoc. split; [done|].
  rewrite !string_length_app in *. intros o Ho. rewrite <- string_app_assoc, boundary_app by (rewrite string_length_app; lia).
  apply H. lia.
Qed.

(** Dropping up to the first boundary that leaves at most [keep] bytes. *)
Lemma stands_for_cut keep tail text :
  stands_for keep tail text → (keep < String.length tail)%nat →
  let cut := next_boundary (String.length tail) (String.length tail - keep) tail in
  stands_for keep (str_drop cut tail) text.
Proof.
  intros (dropped & -> & H) Hk. cbv zeta.
  destruct (next_boundary_spec (String.length tail) (String.length tail - keep) tail) as (H1 & _ & H3); [lia|lia|].
  set (cut := next_boundary _ _ _) in *. exists (dropped +:+ str_take cut tail).
  rewrite string_app_assoc, str_take_drop. split; [done|]. rewrite !string_length_app, str_take_length in *.
  intros o Ho. destruct (decide (o < String.length dropped)%nat) as [Hd|Hd]; [apply H; lia|].
  replace o with (String.length dropped + (o - String.length dropped))%nat by lia. rewrite boundary_shift. apply H3. lia.
Qed.

Lemma str_app_split a b c d : a +:+ b = c +:+ d → (String.length a ≤ String.length c)%nat → ∃ m, c = a +:+ m ∧ b = m +:+ d.
Proof.
  revert c. induction a as [|x a IH]; intros c H Hl; [by exists c|].
  destruct c as [|y c]; simpl in Hl; [lia|]. injection H as -> H.
  destruct (IH c H ltac:(lia)) as (m & -> & ->). by exists m.
Qed.

(** A match in the text and the next piece is a match in the tail and it. *)
Lemma stands_for_match keep tail text p needle :
  stands_for keep tail text → starts_char needle → needle ≠ "" → (String.length needle ≤ S keep)%nat →
  contains needle text = false → contains needle (text +:+ p) = true → contains needle (tail +:+ p) = true.
Proof.
  intros (dropped & -> & H) Hc Hne Hk Hno (a & b & Hab)%contains_Some.
  destruct Hc as [->|Hc]; [done|].
  destruct (decide (String.length dropped ≤ String.length a)%nat) as [Hge|Hlt].
  - rewrite string_app_assoc in Hab. destruct (str_app_split _ _ _ _ Hab Hge) as (m & -> & Hm).
    apply contains_Some. by exists m, b.
  - exfalso. destruct (decide (String.length (dropped +:+ tail) < String.length a + String.length needle)%nat) as [Hin|Hout].
    + assert (is_char_boundary (String.length a) (dropped +:+ tail) = false) as Hf by (apply H; lia).
      rewrite <- (boundary_app _ _ p) in Hf by (rewrite string_length_app; lia).
      rewrite Hab in Hf. replace (String.length a) with (String.length a + 0)%nat in Hf by lia.
      rewrite boundary_shift, boundary_app, Hc in Hf; [done|]. destruct needle; [done|simpl; lia].
    + assert (contains needle (dropped +:+ tail) = true) as Ht; [|congruence].
      assert (String.length (a +:+ needle) ≤ String.length (dropped +:+ tail))%nat as Hle by (rewrite string_length_app; lia).
      rewrite <- string_app_assoc in Hab. symmetry in Hab.
      destruct (str_app_split _ _ _ _ Hab Hle) as (m & Hm & _). apply contains_Some. exists a, m. by rewrite Hm, string_app_assoc.
Qed.

Lemma contains_suffix needle a b : contains needle b = true → contains needle (a +:+ b) = true.
Proof. rewrite !contains_Some. intros (x & y & ->). exists (a +:+ x), y. by rewrite !string_app_assoc. Qed.

Lemma longest_ge s l : s ∈ l → String.length s ≤ longest l.
Proof. induction l as [|x l IH]; [by intros H%not_elem_of_nil|]. simpl. intros [->|H]%elem_of_cons; [lia|]. specialize (IH H). lia. Qed.

(** ** Scanning the whole text *)
Definition text_of (ps : list string) : string := foldr String.append "" ps.

(** Some client-supplied stop string occurs in the text. *)
Definition stop_hit (stops : list string) (text : string) : Prop :=
  ∃ s, s ∈ stops ∧ s ≠ "" ∧ contains s text = true.

Lemma text_of_app ps qs : text_of (ps ++ qs) = text_of ps +:+ text_of qs.
Proof. induction ps as [|p ps IH]; simpl; [done|]. by rewrite IH, string_app_assoc. Qed.

(** The scan after [ps], with the text it stands for. *)
Definition scan_ok (stops : list string) (text : string) (sc : StopScan) : Prop :=
  ss_stops sc = filter (λ s, s ≠ "") stops ∧ ss_keep sc = longest (ss_stops sc) - 1 ∧
  (ss_stops sc = [] ∨ stands_for (ss_keep sc) (ss_tail sc) text ∧ String.length (ss_tail sc) ≤ ss_keep sc) ∧
  ¬ stop_hit stops text.

Lemma stop_hit_filter stops text :
  stop_hit stops text ↔ ∃ s, s ∈ filter (λ s, s ≠ "") stops ∧ contains s text = true.
Proof. unfold stop_hit. setoid_rewrite list_elem_of_filter. naive_solver. Qed.

Lemma scan_new_ok stops : scan_ok stops "" (stop_scan_new stops).
Proof.
  split; [done|]. split; [done|]. split.
  - right. split; [exists ""; split; [done|]; simpl; intros; lia|simpl; lia].
  - intros (s & _ & Hne & (a & b & H)%contains_Some). by destruct a, s.
Qed.

Lemma existsb_iff {A} (f : A → bool) l : existsb f l = true ↔ ∃ x, x ∈ l ∧ f x = true.
Proof. rewrite existsb_exists. by setoid_rewrite list_elem_of_In. Qed.

(** One piece: the verdict is that of scanning the whole text. *)
Lemma scan_admit_ok stops text sc p :
  Forall starts_char stops → scan_ok stops text sc →
  match scan_admit sc p with
  | (true, sc') => scan_ok stops (text +:+ p) sc'
  | (false, _) => stop_hit stops (text +:+ p)
  end.
Proof.
  intros Hcs (Hst & Hk & Htail & Hno). unfold scan_admit.
  destruct (ss_stops sc) as [|s0 ss] eqn:Es.
  { split; [by rewrite Es|]. split; [by rewrite Es|]. split; [by left|].
    rewrite stop_hit_filter, <- Hst. intros (s & H & _). by apply not_elem_of_nil in H. }
  destruct Htail as [?|[Hsf Hlen]]; [done|]. rewrite <- Es in Hst, Hk |- *. clear Es s0 ss.
  assert (∀ s, s ∈ ss_stops sc → contains s (text +:+ p) = true → contains s (ss_tail sc +:+ p) = true) as Hmatch.
  { intros s Hs Hc. rewrite Hst in Hs. apply list_elem_of_filter in Hs as [Hne Hs].
    apply (stands_for_match (ss_keep sc) (ss_tail sc) text); [done| |done| | |done].
    - rewrite list.Forall_forall in Hcs. by apply Hcs.
    - rewrite Hk. assert (s ∈ ss_stops sc) as Hin by (rewrite Hst; by apply list_elem_of_filter).
      pose proof (longest_ge s _ Hin). destruct s; [done|]. simpl in *. lia.
    - apply not_true_is_false. intros Ht. apply Hno. by exists s. }
  destruct (existsb (λ s, contains s (ss_tail sc +:+ p)) (ss_stops sc)) eqn:Ex.
  { apply existsb_iff in Ex as (s & Hs & Hc). apply stop_hit_filter. exists s. rewrite <- Hst. split; [done|].
    destruct Hsf as (dropped & -> & _). rewrite string_app_assoc. by apply contains_suffix. }
  assert (¬ stop_hit stops (text +:+ p)) as Hno'.
  { rewrite stop_hit_filter, <- Hst. intros (s & Hs & Hc). apply (Hmatch s Hs) in Hc.
    assert (existsb (λ s, contains s (ss_tail sc +:+ p)) (ss_stops sc) = true); [|congruence].
    apply existsb_iff. by exists s. }
  pose proof (stands_for_app _ _ _ p Hsf) as Hsf'.
  destruct (Nat.ltb_spec (ss_keep sc) (String.length (ss_tail sc +:+ p))) as [Hlt|Hge].
  - split; [done|]. split; [done|]. split; [right|done]. split; [by apply stands_for_cut|]. simpl.
    destruct (next_boundary_spec (String.length (ss_tail sc +:+ p)) (String.length (ss_tail sc +:+ p) - ss_keep sc)
      (ss_tail sc +:+ p)) as (H1 & _); [lia|lia|]. rewrite str_drop_length. lia.
  - split; [done|]. split; [done|]. split; [right; split; [done|simpl; lia]|done].
Qed.

Lemma feed_ok stops text sc ps :
  Forall starts_char stops → scan_ok stops text sc →
  match feed sc ps with
  | Some sc' => scan_ok stops (text +:+ text_of ps) sc'
  | None => stop_hit stops (text +:+ text_of ps)
  end.
Proof.
  intros Hcs. revert text sc. induction ps as [|p ps IH]; intros text sc Hok; simpl; [by rewrite string_app_nil_r|].
  pose proof (scan_admit_ok stops text sc p Hcs Hok) as H. destruct (scan_admit sc p) as [[] sc'].
  - rewrite <- string_app_assoc. by apply IH.
  - destruct H as (s & H1 & H2 & H3). exists s. split; [done|]. split; [done|].
    rewrite <- string_app_assoc. by apply contains_app_l.
Qed.

(** C6: stop strings are found exactly.  For stop strings that begin a
    character, feeding the pieces of a text one by one refuses a piece exactly
    when a non-empty stop string occurs in the whole text so far, however the
    text is cut into pieces; while none does, the scanner keeps no more bytes
    than one less than the longest stop string. *)
Theorem stop_scan_exact stops ps :
  Forall starts_char stops →
  match feed (stop_scan_new stops) ps with
  | Some sc => ¬ stop_hit stops (text_of ps) ∧ String.length (ss_tail sc) ≤ longest stops - 1
  | None => stop_hit stops (text_of ps)
  end.
Proof.
  intros Hcs. pose proof (feed_ok stops "" (stop_scan_new stops) ps Hcs (scan_new_ok stops)) as H.
  destruct (feed (stop_scan_new stops) ps) as [sc|] eqn:E; [|done].
  destruct H as (Hst & Hk & Ht & Hno). split; [done|].
  assert (longest (filter (λ s, s ≠ "") stops) ≤ longest stops) as Hl.
  { clear. induction stops as [|s l IH]; [done|]. rewrite filter_cons. case_decide; simpl; lia. }
  destruct Ht as [Ht|[_ Ht]]; [|rewrite Hk, Hst in Ht; lia].
  rewrite (feed_no_stops (stop_scan_new stops) ps sc); [simpl; lia| |done].
  rewrite Ht in Hst. by symmetry.
Qed.

Lemma stop_scan_exact_witness :
  feed (stop_scan_new ["END"; ""]) ["a"; "bE"; "N"] = Some (MkStopScan ["END"] "EN" 2) ∧
  stop_hit ["END"; ""] (text_of ["a"; "bE"; "N"; "Dx"]).
Proof.
  split; [reflexivity|].
  pose proof (stop_scan_exact ["END"; ""] ["a"; "bE"; "N"; "Dx"]) as H.
  simpl feed in H. apply H. constructor; [right; reflexivity|]. constructor; [left; reflexivity|constructor].
Defined.
