(* ===== verification/Engine.v ===== *)
(** * The engine as its clients see it

    The interface of [crates/onebrain-engine/src/lib.rs] over the native
    engine (a git submodule, so a parameter): tokens, sampler chains, and a
    session whose KV memory holds one token history per sequence.  A decoded
    batch yields one row of logits per requested position; a row is determined
    by the history of its position, or zeroed when a remote was torn. *)

From Stdlib Require Import ZArith Lia.
From stdpp Require Import base list strings option gmap.
From S2P Require Import Prelude Float.

Open Scope nat_scope.

Abbreviation Token := Z.
Abbreviation SeqId := Z.

Record SamplerParams := MkSampler { sp_temperature : fl; sp_top_p : fl; sp_top_k : Z; sp_seed : Z }.

(** [temperature <= 0] selects greedy decoding. *)
Definition is_greedy (p : SamplerParams) : bool := fle (sp_temperature p) fzero.

(** What the native engine computes for one loaded model: a sampler chain is
    created from parameters, and draws the next token from the logits after a
    token history; [sample_zeroed] is the draw from zeroed logits. *)
Class Engine := {
  Chain : Type;
  sampler_new : SamplerParams → option Chain;
  sample : Chain → list Token → Token * Chain;
  sample_zeroed : Chain → Token * Chain;
  token_to_piece : Token → option string;
  is_eog : Token → bool;
  tokenize : string → option (list Token);
  (** [None] is an error, [Some None] a model without a template. *)
  apply_chat_template : list (string * string) → option (option string);
  (** The draft model of speculative decoding. *)
  draft_greedy : list Token → Token;
  draft_is_eog : Token → bool }.

(** The documented behaviour of greedy chains: sampling does not change them.
    A draft model shares the vocabulary of its target; here also its ends of
    generation. *)
Class EngineLaws (E : Engine) : Prop := {
  greedy_stateless p c h : is_greedy p = true → sampler_new p = Some c → (sample c h).2 = c;
  draft_same_ends t : draft_is_eog t = false → is_eog t = false }.

(** ** Batches *)
Record Entry := MkEntry { e_token : Token; e_pos : nat; e_seq : SeqId; e_logits : bool }.
Abbreviation Batch := (list Entry).

(** [Batch::push]: the index of the token, or a full batch or bad sequence. *)
Definition batch_push (capacity : nat) (n_seq_max : Z) (b : Batch) (e : Entry) : option (nat * Batch) :=
  if (length b <? capacity) && (0 <=? e_seq e)%Z && (e_seq e <? n_seq_max)%Z
  then Some (length b, b ++ [e]) else None.

(** ** Sessions *)
Abbreviation Kv := (gmap SeqId (list Token)).

(** The tokens in the KV memory of a sequence, in position order. *)
Definition kv_of (kv : Kv) (s : SeqId) : list Token := default [] (kv !! s).

Inductive Row := Real (history : list Token) | Zeroed.

(** One batch entry: its position must continue its sequence. *)
Definition decode_entry (st : Kv * list (option Row)) (e : Entry) : option (Kv * list (option Row)) :=
  let '(kv, rows) := st in
  let h := kv_of kv (e_seq e) in
  if e_pos e =? length h then
    let h := h ++ [e_token e] in
    Some (<[e_seq e := h]> kv, rows ++ [if e_logits e then Some (Real h) else None])
  else None.

Fixpoint decode_entries (st : Kv * list (option Row)) (b : Batch) : option (Kv * list (option Row)) :=
  match b with
  | [] => Some st
  | e :: b => st ← decode_entry st e; decode_entries st b
  end.

Definition zero_row (r : option Row) : option Row := match r with Some _ => Some Zeroed | None => None end.

(** [seq_rm(seq, p0, -1)]. *)
Definition kv_truncate (s : SeqId) (n : nat) (kv : Kv) : Kv := <[s := take n (kv_of kv s)]> kv.

Lemma kv_of_insert kv s h s' : kv_of (<[s := h]> kv) s' = if decide (s = s') then h else kv_of kv s'.
Proof. unfold kv_of. rewrite lookup_insert. by case_decide. Qed.

Lemma kv_of_delete kv s s' : kv_of (delete s kv) s' = if decide (s = s') then [] else kv_of kv s'.
Proof. unfold kv_of. rewrite lookup_delete. by case_decide. Qed.

Lemma decode_entries_app st b1 b2 : decode_entries st (b1 ++ b2) = decode_entries st b1 ≫= λ st, decode_entries st b2.
Proof. revert st. induction b1 as [|e b IH]; intros st; simpl; [done|]. destruct (decode_entry st e); [apply IH|done]. Qed.
