(* ===== verification/GenOps.v ===== *)
(** * The engine host: state and generation operations

    Models the multi-sequence serving loop of
    [crates/onebraind/src/engine_host.rs]: the data of a generation, and the
    operations that deliver pieces, finish, fail or cancel a sequence.
    [usize] counters of in-memory lists are [nat]; wall-clock fields, the
    test-only decode delay and log lines are left out.

    The outside world is an environment indexed by a tick that every
    interaction advances: whether a client is gone or has room, whether a
    decode or a partial trim succeeds, whether a remote was torn, and what a
    failed decode leaves in the KV memory. *)

From Stdlib Require Import ZArith Lia.
From stdpp Require Import base list strings option gmap.
From S2P Require Import Prelude Float StrUtil StopScan Engine.

Open Scope nat_scope.

(** ** Jobs and events *)
Inductive PromptInput :=
  | Raw (text : string)
  | Chat (messages : list (string * string)).

Record GenParams := MkParams {
  gp_max_tokens : nat; gp_temperature : fl; gp_top_p : fl; gp_top_k : Z; gp_seed : option Z; gp_stop : list string }.

(** [jb_id] stands for the client's channel. *)
Record Job := MkJob { jb_id : nat; jb_model : string; jb_prompt : PromptInput; jb_params : GenParams }.

Inductive FinishKind := Stop | Length | Abort.
#[global] Instance FinishKind_eq_dec : EqDecision FinishKind.
Proof. solve_decision. Defined.

Record DoneStats := MkDone {
  ds_prompt_tokens : Z; ds_completion_tokens : Z; ds_finish : FinishKind; ds_drafted : Z; ds_accepted : Z }.

Inductive GenError :=
  | ErrBatch | ErrModelNotLoaded | ErrTemplate | ErrTokenize | ErrEmptyPrompt | ErrContext
  | ErrSampler | ErrRender | ErrPush | ErrDecode | ErrRollback.

Inductive TokenEvent :=
  | EvToken (piece : string)
  | EvDone (stats : DoneStats)
  | EvError (e : GenError).

Record ResumeState := MkResume {
  rs_prompt_tokens : list Token; rs_generated_tokens : list Token; rs_pieces_sent : nat;
  rs_scan : StopScan; rs_finish : option FinishKind }.

(** [InterruptedGen] is the job with its resume state ([into_retry]). *)
Inductive GenOutcome :=
  | Finished
  | Interrupted (job : Job) (resume : ResumeState).

Record SupervisedGenerate := MkSup { sg_job : Job; sg_resume : option ResumeState }.

Definition SEED_RANDOM : Z := 0xFFFFFFFF.
Definition REUSE_FLOOR : nat := 64.
Definition SPEC_K : nat := 8.

Inductive PendingTok :=
  | Unsent (tok : Token) (piece : string)
  | Sent (tok : Token) (admitted : bool).

Definition pending_tok (p : PendingTok) : Token :=
  match p with Unsent t _ => t | Sent t _ => t end.

Inductive DeferredTerminal :=
  | DtFinish (kind : FinishKind)
  | DtError (e : GenError).

Record RetainedSlot := MkSlotKv { rt_seq : SeqId; rt_history : list Token }.

Section host.
Context {E : Engine}.

Record PreparedGen := MkPrepared {
  pg_job : Job; pg_prompt_tokens : list Token; pg_prior_generated : list Token; pg_prior_pieces : nat;
  pg_scan : StopScan; pg_remaining : nat; pg_budget : nat; pg_resumed : bool;
  pg_unsent : list string; pg_finish : option FinishKind }.

(** The fields of an active sequence that never change. *)
Record GenFix := MkFix {
  gf_seq : SeqId; gf_uid : nat; gf_job : Job; gf_prompt_tokens : list Token;
  gf_prior_generated : list Token; gf_prefix : list Token; gf_reused : nat; gf_budget : nat;
  gf_sampler : SamplerParams }.

Record ActiveGen := MkGen {
  g_fix : GenFix; g_outcome : bool; g_scan : StopScan; g_prefill_done : nat; g_kv_len : nat;
  g_attempt : list Token; g_pending : option PendingTok; g_held : list string;
  g_terminal : option DeferredTerminal; g_remaining : nat; g_pieces_sent : nat; g_chain : Chain;
  g_drafted : nat; g_accepted : nat; g_kv_suspect : bool; g_stalled : bool; g_done : bool }.

Definition set_outcome (v : bool) (g : ActiveGen) : ActiveGen :=
  MkGen (g_fix g) v (g_scan g) (g_prefill_done g) (g_kv_len g) (g_attempt g) (g_pending g) (g_held g)
    (g_terminal g) (g_remaining g) (g_pieces_sent g) (g_chain g) (g_drafted g) (g_accepted g) (g_kv_suspect g)
    (g_stalled g) (g_done g).
Definition set_scan (v : StopScan) (g : ActiveGen) : ActiveGen :=
  MkGen (g_fix g) (g_outcome g) v (g_prefill_done g) (g_kv_len g) (g_attempt g) (g_pending g) (g_held g)
    (g_terminal g) (g_remaining g) (g_pieces_sent g) (g_chain g) (g_drafted g) (g_accepted g) (g_kv_suspect g)
    (g_stalled g) (g_done g).
Definition set_prefill_done (v : nat) (g : ActiveGen) : ActiveGen :=
  MkGen (g_fix g) (g_outcome g) (g_scan g) v (g_kv_len g) (g_attempt g) (g_pending g) (g_held g) (g_terminal g)
    (g_remaining g) (g_pieces_sent g) (g_chain g) (g_drafted g) (g_accepted g) (g_kv_suspect g) (g_stalled g)
    (g_done g).
Definition set_kv_len (v : nat) (g : ActiveGen) : ActiveGen :=
  MkGen (g_fix g) (g_outcome g) (g_scan g) (g_prefill_done g) v (g_attempt g) (g_pending g) (g_held g)
    (g_terminal g) (g_remaining g) (g_pieces_sent g) (g_chain g) (g_drafted g) (g_accepted g) (g_kv_suspect g)
    (g_stalled g) (g_done g).
Definition set_attempt (v : list Token) (g : ActiveGen) : ActiveGen :=
  MkGen (g_fix g) (g_outcome g) (g_scan g) (g_prefill_done g) (g_kv_len g) v (g_pending g) (g_held g)
    (g_terminal g) (g_remaining g) (g_pieces_sent g) (g_chain g) (g_drafted g) (g_accepted g) (g_kv_suspect g)
    (g_stalled g) (g_done g).
Definition set_pending (v : option PendingTok) (g : ActiveGen) : ActiveGen :=
  MkGen (g_fix g) (g_outcome g) (g_scan g) (g_prefill_done g) (g_kv_len g) (g_attempt g) v (g_held g)
    (g_terminal g) (g_remaining g) (g_pieces_sent g) (g_chain g) (g_drafted g) (g_accepted g) (g_kv_suspect g)
    (g_stalled g) (g_done g).
Definition set_held (v : list string) (g : ActiveGen) : ActiveGen :=
  MkGen (g_fix g) (g_outcome g) (g_scan g) (g_prefill_done g) (g_kv_len g) (g_attempt g) (g_pending g) v
    (g_terminal g) (g_remaining g) (g_pieces_sent g) (g_chain g) (g_drafted g) (g_accepted g) (g_kv_suspect g)
    (g_stalled g) (g_done g).
Definition set_terminal (v : option DeferredTerminal) (g : ActiveGen) : ActiveGen :=
  MkGen (g_fix g) (g_outcome g) (g_scan g) (g_prefill_done g) (g_kv_len g) (g_attempt g) (g_pending g)
    (g_held g) v (g_remaining g) (g_pieces_sent g) (g_chain g) (g_drafted g) (g_accepted g) (g_kv_suspect g)
    (g_stalled g) (g_done g).
Definition set_remaining (v : nat) (g : ActiveGen) : ActiveGen :=
  MkGen (g_fix g) (g_outcome g) (g_scan g) (g_prefill_done g) (g_kv_len g) (g_attempt g) (g_pending g)
    (g_held g) (g_terminal g) v (g_pieces_sent g) (g_chain g) (g_drafted g) (g_accepted g) (g_kv_suspect g)
    (g_stalled g) (g_done g).
Definition set_pieces_sent (v : nat) (g : ActiveGen) : ActiveGen :=
  MkGen (g_fix g) (g_outcome g) (g_scan g) (g_prefill_done g) (g_kv_len g) (g_attempt g) (g_pending g)
    (g_held g) (g_terminal g) (g_remaining g) v (g_chain g) (g_drafted g) (g_accepted g) (g_kv_suspect g)
    (g_stalled g) (g_done g).
Definition set_chain (v : Chain) (g : ActiveGen) : ActiveGen :=
  MkGen (g_fix g) (g_outcome g) (g_scan g) (g_prefill_done g) (g_kv_len g) (g_attempt g) (g_pending g)
    (g_held g) (g_terminal g) (g_remaining g) (g_pieces_sent g) v (g_drafted g) (g_accepted g) (g_kv_suspect g)
    (g_stalled g) (g_done g).
Definition set_drafted (v : nat) (g : ActiveGen) : ActiveGen :=
  MkGen (g_fix g) (g_outcome g) (g_scan g) (g_prefill_done g) (g_kv_len g) (g_attempt g) (g_pending g)
    (g_held g) (g_terminal g) (g_remaining g) (g_pieces_sent g) (g_chain g) v (g_accepted g) (g_kv_suspect g)
    (g_stalled g) (g_done g).
Definition set_accepted (v : nat) (g : ActiveGen) : ActiveGen :=
  MkGen (g_fix g) (g_outcome g) (g_scan g) (g_prefill_done g) (g_kv_len g) (g_attempt g) (g_pending g)
    (g_held g) (g_terminal g) (g_remaining g) (g_pieces_sent g) (g_chain g) (g_drafted g) v (g_kv_suspect g)
    (g_stalled g) (g_done g).
Definition set_kv_suspect (v : bool) (g : ActiveGen) : ActiveGen :=
  MkGen (g_fix g) (g_outcome g) (g_scan g) (g_prefill_done g) (g_kv_len g) (g_attempt g) (g_pending g)
    (g_held g) (g_terminal g) (g_remaining g) (g_pieces_sent g) (g_chain g) (g_drafted g) (g_accepted g) v
    (g_stalled g) (g_done g).
Definition set_stalled (v : bool) (g : ActiveGen) : ActiveGen :=
  MkGen (g_fix g) (g_outcome g) (g_scan g) (g_prefill_done g) (g_kv_len g) (g_attempt g) (g_pending g)
    (g_held g) (g_terminal g) (g_remaining g) (g_pieces_sent g) (g_chain g) (g_drafted g) (g_accepted g)
    (g_kv_suspect g) v (g_done g).
Definition set_done (v : bool) (g : ActiveGen) : ActiveGen :=
  MkGen (g_fix g) (g_outcome g) (g_scan g) (g_prefill_done g) (g_kv_len g) (g_attempt g) (g_pending g)
    (g_held g) (g_terminal g) (g_remaining g) (g_pieces_sent g) (g_chain g) (g_drafted g) (g_accepted g)
    (g_kv_suspect g) (g_stalled g) v.

Definition g_seq (g : ActiveGen) : SeqId := gf_seq (g_fix g).
Definition g_job (g : ActiveGen) : Job := gf_job (g_fix g).
Definition g_id (g : ActiveGen) : nat := jb_id (g_job g).
Definition g_prefix (g : ActiveGen) : list Token := gf_prefix (g_fix g).
Definition g_prior (g : ActiveGen) : list Token := gf_prior_generated (g_fix g).

(** ** The environment *)
Class Env := {
  gone : nat → nat → bool;
  room : nat → bool;
  decode_ok : nat → bool;
  tear : nat → bool;
  junk : nat → Kv;
  trim_ok : nat → bool;
  grace_over : nat → bool;
  draft_ok : nat → bool;
  draft_trim_ok : nat → bool }.
Context {W : Env}.

(** The configuration of one serving phase. *)
Record HostCfg := MkCfg {
  hc_name : string; hc_reference : string; hc_n_ctx : nat; hc_n_batch : nat; hc_n_seq_max : nat;
  hc_distributed : bool; hc_draft : bool; hc_kv_reuse : bool; hc_batch_error : bool }.

(** What every operation of the loop may touch: the session (its KV memory,
    whether a remote was torn, the rows of the last decode), the free slots,
    parked terminals, retained prefixes, and the logs of what clients received
    and which outcomes were reported. *)
Record Ctx := MkCtx {
  cx_kv : Kv; cx_torn : bool; cx_rows : list (option Row); cx_free : list SeqId;
  cx_outbox : list (nat * TokenEvent); cx_retained : list RetainedSlot; cx_tick : nat;
  cx_out : list (nat * TokenEvent); cx_reports : list (nat * GenOutcome) }.

(** State passing; [None] is a panic. *)
Definition M (A : Type) : Type := Ctx → option (A * Ctx).
#[global] Instance M_ret : MRet M := λ A a cx, Some (a, cx).
#[global] Instance M_bind : MBind M := λ A B f m cx,
  match m cx with Some (a, cx) => f a cx | None => None end.

Definition panic {A} : M A := λ _, None.
Definition unwrap {A} (o : option A) : M A := match o with Some a => mret a | None => panic end.
Definition get {A} (f : Ctx → A) : M A := λ cx, Some (f cx, cx).

Definition upd_kv (v : Kv) (cx : Ctx) : Ctx :=
  MkCtx v (cx_torn cx) (cx_rows cx) (cx_free cx) (cx_outbox cx) (cx_retained cx) (cx_tick cx) (cx_out cx) (cx_reports cx).
Definition upd_torn (v : bool) (cx : Ctx) : Ctx :=
  MkCtx (cx_kv cx) v (cx_rows cx) (cx_free cx) (cx_outbox cx) (cx_retained cx) (cx_tick cx) (cx_out cx) (cx_reports cx).
Definition upd_rows (v : list (option Row)) (cx : Ctx) : Ctx :=
  MkCtx (cx_kv cx) (cx_torn cx) v (cx_free cx) (cx_outbox cx) (cx_retained cx) (cx_tick cx) (cx_out cx) (cx_reports cx).
Definition upd_free (v : list SeqId) (cx : Ctx) : Ctx :=
  MkCtx (cx_kv cx) (cx_torn cx) (cx_rows cx) v (cx_outbox cx) (cx_retained cx) (cx_tick cx) (cx_out cx) (cx_reports cx).
Definition upd_outbox (v : list (nat * TokenEvent)) (cx : Ctx) : Ctx :=
  MkCtx (cx_kv cx) (cx_torn cx) (cx_rows cx) (cx_free cx) v (cx_retained cx) (cx_tick cx) (cx_out cx) (cx_reports cx).
Definition upd_retained (v : list RetainedSlot) (cx : Ctx) : Ctx :=
  MkCtx (cx_kv cx) (cx_torn cx) (cx_rows cx) (cx_free cx) (cx_outbox cx) v (cx_tick cx) (cx_out cx) (cx_reports cx).
Definition upd_out (v : list (nat * TokenEvent)) (cx : Ctx) : Ctx :=
  MkCtx (cx_kv cx) (cx_torn cx) (cx_rows cx) (cx_free cx) (cx_outbox cx) (cx_retained cx) (cx_tick cx) v (cx_reports cx).
Definition upd_reports (v : list (nat * GenOutcome)) (cx : Ctx) : Ctx :=
  MkCtx (cx_kv cx) (cx_torn cx) (cx_rows cx) (cx_free cx) (cx_outbox cx) (cx_retained cx) (cx_tick cx) (cx_out cx) v.
Definition upd_tick (v : nat) (cx : Ctx) : Ctx :=
  MkCtx (cx_kv cx) (cx_torn cx) (cx_rows cx) (cx_free cx) (cx_outbox cx) (cx_retained cx) v (cx_out cx) (cx_reports cx).

Definition put {A} (upd : A → Ctx → Ctx) (v : A) : M unit := λ cx, Some (tt, upd v cx).
Definition tick : M nat := λ cx, Some (cx_tick cx, upd_tick (S (cx_tick cx)) cx).

Inductive SendRes := SOk | SFull | SClosed.

(** [tx.try_send] and [tx.is_closed]. *)
Definition try_send (j : nat) (ev : TokenEvent) : M SendRes :=
  n ← tick;
  if gone j n then mret SClosed
  else if room n then out ← get cx_out; _ ← put upd_out (out ++ [(j, ev)]); mret SOk
  else mret SFull.

Definition is_closed (j : nat) : M bool := n ← tick; mret (gone j n).

(** [seq_rm] of a whole sequence never fails; of a suffix it may. *)
Definition seq_rm_all (s : SeqId) : M unit := kv ← get cx_kv; put upd_kv (delete s kv).
Definition seq_rm_from (s : SeqId) (p : nat) : M bool :=
  n ← tick;
  if trim_ok n then kv ← get cx_kv; _ ← put upd_kv (kv_truncate s p kv); mret true else mret false.

Definition sample_row (c : Chain) (r : Row) : Token * Chain :=
  match r with Real h => sample c h | Zeroed => sample_zeroed c end.

(** [sample_ith_with] of the sequence's own chain. *)
Definition sample_ith (g : ActiveGen) (index : nat) : M (Token * ActiveGen) :=
  rows ← get cx_rows;
  r ← unwrap (mjoin (rows !! index));
  let '(t, c) := sample_row (g_chain g) r in
  mret (t, set_chain c g).

Definition report (j : nat) (o : GenOutcome) : M unit := rs ← get cx_reports; put upd_reports (rs ++ [(j, o)]).

(** Report on the outcome channel, once. *)
Definition report_gen (g : ActiveGen) (o : GenOutcome) : M ActiveGen :=
  if g_outcome g then _ ← report (g_id g) o; mret (set_outcome false g) else mret g.

(** [usize -= 1]. *)
Definition dec (n : nat) : M nat := match n with S n => mret n | O => panic end.

(** ** Delivery *)
Definition deliver_terminal (j : nat) (ev : TokenEvent) : M unit :=
  r ← try_send j ev;
  match r with
  | SFull => ob ← get cx_outbox; put upd_outbox (ob ++ [(j, ev)])
  | _ => mret tt
  end.

Definition deliver_piece (g : ActiveGen) (piece : string) : M ActiveGen :=
  match g_held g with
  | _ :: _ => mret (set_held (g_held g ++ [piece]) g)
  | [] =>
      r ← try_send (g_id g) (EvToken piece);
      mret (match r with
            | SOk => set_stalled false (set_pieces_sent (S (g_pieces_sent g)) g)
            | SFull => set_stalled true (set_held [piece] g)
            | SClosed => g
            end)
  end.

Definition stage_pending (distributed : bool) (g : ActiveGen) (tok : Token) (piece : string) : M ActiveGen :=
  if distributed then mret (set_pending (Some (Unsent tok piece)) g)
  else
    let '(admitted, sc) := scan_admit (g_scan g) piece in
    g ← (if admitted : bool then deliver_piece (set_scan sc g) piece else mret (set_scan sc g));
    mret (set_pending (Some (Sent tok admitted)) g).

(** ** Ends of a sequence *)
Definition release_seq (g : ActiveGen) : M ActiveGen :=
  _ ← seq_rm_all (g_seq g);
  free ← get cx_free;
  _ ← put upd_free (free ++ [g_seq g]);
  mret (set_done true g).

Definition done_stats (g : ActiveGen) (finish : FinishKind) : DoneStats :=
  MkDone (wrap32 (Z.of_nat (length (gf_prompt_tokens (g_fix g)))))
    (wrap32 (Z.of_nat (length (g_prior g) + length (g_attempt g)))) finish
    (wrap32 (Z.of_nat (g_drafted g))) (wrap32 (Z.of_nat (g_accepted g))).

Definition finish_seq (g : ActiveGen) (finish : FinishKind) (retain : bool) : M ActiveGen :=
  _ ← deliver_terminal (g_id g) (EvDone (done_stats g finish));
  g ← report_gen g Finished;
  if retain then
    rt ← get cx_retained;
    _ ← put upd_retained (rt ++ [MkSlotKv (g_seq g) (g_prefix g ++ g_attempt g)]);
    free ← get cx_free;
    _ ← put upd_free (free ++ [g_seq g]);
    mret (set_done true g)
  else release_seq g.

Definition fail_seq (g : ActiveGen) (e : GenError) : M ActiveGen :=
  match g_held g with
  | _ :: _ =>
      mret (match g_terminal g with None => set_terminal (Some (DtError e)) g | Some _ => g end)
  | [] =>
      _ ← deliver_terminal (g_id g) (EvError e);
      g ← report_gen g Finished;
      release_seq g
  end.

Definition cancel_seq (g : ActiveGen) : M ActiveGen :=
  g ← report_gen g Finished;
  release_seq g.

(** Finish now, or behind the pieces still held. *)
Definition finish_or_defer (g : ActiveGen) (finish : FinishKind) (retain : bool) : M ActiveGen :=
  match g_held g with
  | [] => finish_seq g finish retain
  | _ :: _ => mret (set_terminal (Some (DtFinish finish)) g)
  end.

(** A freshly sampled token: end of generation, or the next pending token. *)
Definition next_token (cfg : HostCfg) (g : ActiveGen) (tok : Token) (defer : bool) : M ActiveGen :=
  if is_eog tok then
    (if defer then finish_or_defer g Stop (hc_kv_reuse cfg) else finish_seq g Stop (hc_kv_reuse cfg))
  else
    match token_to_piece tok with
    | Some piece => stage_pending (hc_distributed cfg) g tok piece
    | None => fail_seq g ErrRender
    end.
End host.
