(* ===== verification/GenLoop.v ===== *)
(** * The engine host: sweeps, message pump and admission

    Phases 1 to 6 of the [serve_model] loop of
    [crates/onebraind/src/engine_host.rs] with the functions they call:
    retries of parked terminals and held pieces, validation of arriving
    generations, disconnect and stall sweeps, and admission to sequence slots
    with prefix reuse and eviction. *)

From Stdlib Require Import ZArith Lia.
From stdpp Require Import base list strings option gmap.
From S2P Require Import Prelude Float StrUtil StopScan Engine GenOps.

Open Scope nat_scope.

(** ** [Vec] operations *)
Definition position {A} (p : A → bool) (l : list A) : option nat :=
  fst <$> list_find (λ x, p x = true) l.

Definition rposition {A} (p : A → bool) (l : list A) : option nat :=
  (λ i, length l - S i) <$> position p (reverse l).

(** [Vec::remove]: a panic out of range. *)
Definition vec_remove {A} (i : nat) (l : list A) : option (A * list A) :=
  x ← l !! i; Some (x, take i l ++ drop (S i) l).

(** [Vec::swap_remove]: the last element takes the place of the removed one. *)
Definition swap_remove {A} (i : nat) (l : list A) : option (A * list A) :=
  x ← l !! i;
  z ← last l;
  Some (x, removelast (<[i := z]> l)).

Definition common_prefix_len (a b : list Token) : nat :=
  (fix go (l : list (Token * Token)) : nat :=
     match l with
     | (x, y) :: l => if (x =? y)%Z then S (go l) else 0
     | [] => 0
     end) (zip a b).

(** ** Messages *)
Inductive HostMsg :=
  | Models
  | Generate (sup : SupervisedGenerate)
  | Embed
  | Load
  | LoadDistributed
  | Unload
  | ServeShard
  | Shutdown.

Section loop.
Context {E : Engine} {W : Env}.
Variable cfg : HostCfg.

(** The speculative draft session: its KV memory and the stream it follows. *)
Record DraftCtx := MkDraft { dr_kv : list Token; dr_synced : option (nat * nat) }.

(** The local state of [serve_model], with the messages its channel holds. *)
Record Host := MkHost {
  h_active : list ActiveGen; h_queue : list PreparedGen; h_next_uid : nat; h_spec_disabled : bool;
  h_ctrl : option HostMsg; h_draft : DraftCtx; h_inbox : list HostMsg }.

Definition set_active (v : list ActiveGen) (h : Host) : Host :=
  MkHost v (h_queue h) (h_next_uid h) (h_spec_disabled h) (h_ctrl h) (h_draft h) (h_inbox h).
Definition set_queue (v : list PreparedGen) (h : Host) : Host :=
  MkHost (h_active h) v (h_next_uid h) (h_spec_disabled h) (h_ctrl h) (h_draft h) (h_inbox h).
Definition set_spec (disabled : bool) (d : DraftCtx) (h : Host) : Host :=
  MkHost (h_active h) (h_queue h) (h_next_uid h) disabled (h_ctrl h) d (h_inbox h).
Definition set_rx (ctrl : option HostMsg) (inbox : list HostMsg) (h : Host) : Host :=
  MkHost (h_active h) (h_queue h) (h_next_uid h) (h_spec_disabled h) ctrl (h_draft h) inbox.
Definition set_admitted (active : list ActiveGen) (queue : list PreparedGen) (uid : nat) (h : Host) : Host :=
  MkHost active queue uid (h_spec_disabled h) (h_ctrl h) (h_draft h) (h_inbox h).

(** [for g in active.iter_mut()]. *)
Fixpoint each (f : ActiveGen → M ActiveGen) (l : list ActiveGen) : M (list ActiveGen) :=
  match l with
  | [] => mret []
  | g :: l => g ← f g; l ← each f l; mret (g :: l)
  end.

(** [active.retain(|g| !g.done)]. *)
Definition live (l : list ActiveGen) : list ActiveGen := filter (λ g, g_done g = false) l.

(** ** 1. Parked terminals *)
Fixpoint retry_terminals (ob : list (nat * TokenEvent)) : M (list (nat * TokenEvent)) :=
  match ob with
  | [] => mret []
  | (j, ev) :: ob =>
      r ← try_send j ev;
      ob ← retry_terminals ob;
      mret (match r with SFull => (j, ev) :: ob | _ => ob end)
  end.

Definition retry_outbox : M unit := ob ← get cx_outbox; ob ← retry_terminals ob; put upd_outbox ob.

(** ** 2. Held pieces *)
Fixpoint drain_held (held : list string) (g : ActiveGen) : M ActiveGen :=
  match held with
  | [] => mret (set_held [] g)
  | piece :: held =>
      r ← try_send (g_id g) (EvToken piece);
      match r with
      | SOk => drain_held held (set_stalled false (set_pieces_sent (S (g_pieces_sent g)) g))
      | SFull => mret (set_stalled true (set_held (piece :: held) g))
      | SClosed => mret (set_held held g)
      end
  end.

Definition retain_after_drain (g : ActiveGen) : bool :=
  hc_kv_reuse cfg && (length (g_prefix g) <=? g_prefill_done g) && negb (g_kv_suspect g).

Definition sweep_held (g : ActiveGen) : M ActiveGen :=
  g ← drain_held (g_held g) g;
  match g_held g with
  | _ :: _ => mret g
  | [] =>
      if g_done g then mret g else
      match g_terminal g with
      | Some (DtFinish k) => let g := set_terminal None g in finish_seq g k (retain_after_drain g)
      | Some (DtError e) => fail_seq (set_terminal None g) e
      | None => mret g
      end
  end.

(** ** 3. Arriving generations *)
Definition fallback_prompt (turns : list (string * string)) : string :=
  (fold_right (λ '(role, content) rest, "<|" ++ role ++ "|>" ++ "
" ++ content ++ "
" ++ rest) "<|assistant|>
" turns)%string.

Definition render_prompt (p : PromptInput) : option string :=
  match p with
  | Raw text => Some text
  | Chat turns =>
      match apply_chat_template turns with
      | Some (Some rendered) => Some rendered
      | Some None => Some (fallback_prompt turns)
      | None => None
      end
  end.

(** The prompt tokens of a fresh request, or why it is rejected. *)
Definition fresh_prompt (job : Job) : GenError + list Token :=
  match render_prompt (jb_prompt job) with
  | None => inl ErrTemplate
  | Some text =>
      match tokenize text with
      | None => inl ErrTokenize
      | Some [] => inl ErrEmptyPrompt
      | Some toks =>
          if hc_n_ctx cfg <? length toks + gp_max_tokens (jb_params job) then inl ErrContext else inr toks
      end
  end.

Definition finish_error (j : nat) (e : GenError) : M (option PreparedGen) :=
  _ ← try_send j (EvError e); _ ← report j Finished; mret None.

(** Done at validation time; a full channel loses the event. *)
Definition finish_early (j : nat) (prompt generated : list Token) (kind : FinishKind) : M (option PreparedGen) :=
  _ ← try_send j (EvDone (MkDone (wrap32 (Z.of_nat (length prompt))) (wrap32 (Z.of_nat (length generated))) kind 0 0));
  _ ← report j Finished;
  mret None.

(** The queue entry of a validated request, or its end when nothing is left
    to decode or deliver. *)
Definition enqueue (sup : SupervisedGenerate) (prompt prior : list Token) (pieces : nat) (scan : StopScan)
    (unsent : list string) (finish : option FinishKind) : M (option PreparedGen) :=
  let job := sg_job sup in
  let max_tokens := gp_max_tokens (jb_params job) in
  let remaining := max_tokens - length prior in
  let early := match finish, unsent with
               | Some k, [] => Some k
               | None, [] => if remaining =? 0 then Some Length else None
               | _, _ => None
               end in
  match early with
  | Some k => finish_early (jb_id job) prompt prior k
  | None =>
      mret (Some (MkPrepared job prompt prior pieces scan remaining (length prompt + max_tokens)
                    (match sg_resume sup with Some _ => true | None => false end) unsent finish))
  end.

Definition prepare_generation (sup : SupervisedGenerate) : M (option PreparedGen) :=
  let job := sg_job sup in
  let j := jb_id job in
  if hc_batch_error cfg then finish_error j ErrBatch else
  closed ← is_closed j;
  if (closed : bool) then _ ← report j Finished; mret None else
  if negb (String.eqb (jb_model job) (hc_name cfg)) && negb (String.eqb (jb_model job) (hc_reference cfg))
  then finish_error j ErrModelNotLoaded else
  match sg_resume sup with
  | Some st =>
      match mapM token_to_piece (drop (rs_pieces_sent st) (rs_generated_tokens st)) with
      | None => finish_error j ErrRender
      | Some unsent =>
          enqueue sup (rs_prompt_tokens st) (rs_generated_tokens st) (rs_pieces_sent st) (rs_scan st) unsent (rs_finish st)
      end
  | None =>
      match fresh_prompt job with
      | inl e => finish_error j e
      | inr toks => enqueue sup toks [] 0 (stop_scan_new (gp_stop (jb_params job))) [] None
      end
  end.

Inductive Pumped := PumpHandled (queue : list PreparedGen) | PumpCtrl | PumpExit.

(** [Models] and [Embed] answer on their own channels. *)
Definition pump_msg (m : HostMsg) (queue : list PreparedGen) : M Pumped :=
  match m with
  | Models | Embed => mret (PumpHandled queue)
  | Generate sup =>
      p ← prepare_generation sup;
      mret (PumpHandled (match p with Some p => queue ++ [p] | None => queue end))
  | Shutdown => mret PumpExit
  | Load | LoadDistributed | Unload | ServeShard => mret PumpCtrl
  end.

(** Messages are taken until one replaces the model; [None] ends the phase. *)
Fixpoint pump (hung_up : bool) (inbox : list HostMsg) (queue : list PreparedGen)
  : M (option (option HostMsg * list HostMsg * list PreparedGen)) :=
  match inbox with
  | [] => mret (if hung_up then None else Some (None, [], queue))
  | m :: inbox =>
      r ← pump_msg m queue;
      match r with
      | PumpHandled queue => pump hung_up inbox queue
      | PumpCtrl => mret (Some (Some m, inbox, queue))
      | PumpExit => mret None
      end
  end.

(** ** 4. Disconnected and stalled clients *)
Definition sweep_closed (g : ActiveGen) : M ActiveGen :=
  if g_done g then mret g else
  closed ← is_closed (g_id g);
  if (closed : bool) then cancel_seq g else mret g.

Fixpoint sweep_queue (queue : list PreparedGen) : M (list PreparedGen) :=
  match queue with
  | [] => mret []
  | p :: queue =>
      closed ← is_closed (jb_id (pg_job p));
      if (closed : bool) then _ ← report (jb_id (pg_job p)) Finished; sweep_queue queue
      else queue ← sweep_queue queue; mret (p :: queue)
  end.

Definition sweep_stalled (g : ActiveGen) : M ActiveGen :=
  if g_done g || negb (g_stalled g) then mret g else
  n ← tick;
  if grace_over n then
    g ← cancel_seq g;
    ob ← get cx_outbox;
    _ ← put upd_outbox (filter (λ e, e.1 ≠ g_id g) ob);
    mret g
  else mret g.

(** ** 5. Admission *)
Definition is_slot (s : option SeqId) (r : RetainedSlot) : bool := bool_decide (s = Some (rt_seq r)).

(** The retained slot with the longest common prefix, first among equals. *)
Fixpoint find_reuse (prompt : list Token) (idx : nat) (slots : list RetainedSlot) (best : option (nat * nat))
  : option (nat * nat) :=
  match slots with
  | [] => best
  | r :: slots =>
      let lcp := min (common_prefix_len (rt_history r) prompt) (length prompt - 1) in
      let better := (REUSE_FLOOR <=? lcp) && match best with None => true | Some (_, b) => b <? lcp end in
      find_reuse prompt (S idx) slots (if better then Some (idx, lcp) else best)
  end.

Definition choose_reuse (front : PreparedGen) : M (option (nat * nat)) :=
  rt ← get cx_retained;
  mret (if hc_kv_reuse cfg && negb (pg_resumed front) then find_reuse (pg_prompt_tokens front) 0 rt None else None).

Definition reuse_seq (reuse : option (nat * nat)) : M (option SeqId) :=
  match reuse with
  | None => mret None
  | Some (idx, _) => rt ← get cx_retained; r ← unwrap (rt !! idx); mret (Some (rt_seq r))
  end.

Definition cached (keep : option SeqId) : M nat :=
  rt ← get cx_retained;
  mret (sum_list_with (λ r, length (rt_history r)) (filter (λ r, is_slot keep r = false) rt)).

Definition fits (used budget : nat) (reuse : option (nat * nat)) : M bool :=
  keep ← reuse_seq reuse;
  c ← cached keep;
  mret (used + budget + c <=? hc_n_ctx cfg).

(** Evict oldest first until the job fits. *)
Fixpoint evict (fuel : nat) (used budget : nat) (reuse : option (nat * nat)) : M (option (nat * nat)) :=
  match fuel with
  | O => panic
  | S fuel =>
      ok ← fits used budget reuse;
      if (ok : bool) then mret reuse else
      keep ← reuse_seq reuse;
      rt ← get cx_retained;
      match position (λ r, negb (is_slot keep r)) rt with
      | None => mret reuse
      | Some v =>
          '(victim, rt) ← unwrap (vec_remove v rt);
          _ ← put upd_retained rt;
          _ ← seq_rm_all (rt_seq victim);
          evict fuel used budget
            (match reuse with
             | Some (idx, lcp) => if v <? idx then Some (idx - 1, lcp) else reuse
             | None => None
             end)
      end
  end.

(** The slot of a job: its reuse match, else a slot without a cache, else the
    oldest cache. *)
Definition choose_slot (reuse : option (nat * nat)) : M (SeqId * nat) :=
  match reuse with
  | Some (idx, lcp) =>
      rt ← get cx_retained;
      '(slot, rt) ← unwrap (vec_remove idx rt);
      _ ← put upd_retained rt;
      free ← get cx_free;
      _ ← put upd_free (filter (λ s, s ≠ rt_seq slot) free);
      trimmed ← seq_rm_from (rt_seq slot) lcp;
      if (trimmed : bool) then mret (rt_seq slot, lcp)
      else _ ← seq_rm_all (rt_seq slot); mret (rt_seq slot, 0)
  | None =>
      rt ← get cx_retained;
      free ← get cx_free;
      pos ← (match rposition (λ s, negb (existsb (λ r, (rt_seq r =? s)%Z) rt)) free with
             | Some pos => mret pos
             | None =>
                 '(oldest, rt) ← unwrap (vec_remove 0 rt);
                 _ ← put upd_retained rt;
                 unwrap (position (λ s, (s =? rt_seq oldest)%Z) free)
             end);
      '(s, free) ← unwrap (swap_remove pos free);
      _ ← put upd_free free;
      rt ← get cx_retained;
      _ ← put upd_retained (filter (λ r, rt_seq r ≠ s) rt);
      _ ← seq_rm_all s;
      mret (s, 0)
  end.

Definition sampler_of (p : GenParams) : SamplerParams :=
  MkSampler (gp_temperature p) (gp_top_p p) (gp_top_k p) (default SEED_RANDOM (gp_seed p)).

Definition admit_gen (p : PreparedGen) (sampler : SamplerParams) (chain : Chain) (s : SeqId) (reused uid : nat) : ActiveGen :=
  let prefix := pg_prompt_tokens p ++ pg_prior_generated p in
  MkGen (MkFix s uid (pg_job p) (pg_prompt_tokens p) (pg_prior_generated p) prefix reused (pg_budget p) sampler)
    true (pg_scan p) reused reused [] None (pg_unsent p)
    (match pg_finish p with
     | Some k => Some (DtFinish k)
     | None => if pg_remaining p =? 0 then Some (DtFinish Length) else None
     end)
    (pg_remaining p) (pg_prior_pieces p) chain 0 0 false false false.

Fixpoint admission (queue : list PreparedGen) (active : list ActiveGen) (uid : nat)
  : M (list ActiveGen * list PreparedGen * nat) :=
  match queue with
  | [] => mret (active, [], uid)
  | p :: rest =>
      if hc_n_seq_max cfg <=? length active then mret (active, queue, uid) else
      let used := sum_list_with (λ g, gf_budget (g_fix g)) active in
      reuse ← choose_reuse p;
      rt ← get cx_retained;
      reuse ← evict (S (length rt)) used (pg_budget p) reuse;
      ok ← fits used (pg_budget p) reuse;
      if negb ok then mret (active, queue, uid) else
      let sampler := sampler_of (jb_params (pg_job p)) in
      match sampler_new sampler with
      | None =>
          _ ← deliver_terminal (jb_id (pg_job p)) (EvError ErrSampler);
          _ ← report (jb_id (pg_job p)) Finished;
          admission rest active uid
      | Some chain =>
          '(s, reused) ← choose_slot reuse;
          admission rest (active ++ [admit_gen p sampler chain s reused uid]) (S uid)
      end
  end.
End loop.
