(* ===== verification/GenStep.v ===== *)
(** * The engine host: one step

    Phases 7 to 11 of the [serve_model] loop of
    [crates/onebraind/src/engine_host.rs]: the batch of a step (a speculative
    round, or one pending token per decodable sequence and one prefill chunk),
    its decode with both failure postures, and the work after it; then the
    whole iteration. *)

From Stdlib Require Import ZArith Lia.
From stdpp Require Import base list strings option gmap.
From S2P Require Import Prelude Float StrUtil StopScan Engine GenOps GenLoop.

Open Scope nat_scope.

Section step.
Context {E : Engine} {W : Env}.
Variable cfg : HostCfg.

Definition n_batch : nat := max 1 (hc_n_batch cfg).
Definition push (b : Batch) (e : Entry) : option (nat * Batch) :=
  batch_push n_batch (Z.of_nat (hc_n_seq_max cfg)) b e.

(** ** The draft session *)

(** What an error leaves in the draft's KV memory is never read: the caller
    stands speculation down for the phase. *)
Definition draft_decode (kv : list Token) (toks : list Token) : M (option (list Token)) :=
  n ← tick; mret (if draft_ok n then Some (kv ++ toks) else None).

(** Draft until the end of the proposal; the last draft is not decoded. *)
Fixpoint draft_loop (k : nat) (kv : list Token) : M (option (list Token * list Token)) :=
  match k with
  | O => mret (Some ([], kv))
  | S k =>
      let t := draft_greedy kv in
      if draft_is_eog t then mret (Some ([], kv)) else
      match k with
      | O => mret (Some ([t], kv))
      | S _ =>
          r ← draft_decode kv [t];
          match r with
          | None => mret None
          | Some kv =>
              r ← draft_loop k kv;
              mret (match r with Some (ds, kv) => Some (t :: ds, kv) | None => None end)
          end
      end
  end.

Record SpecStep := MkSpec { st_indexes : list nat; st_drafts : list Token; st_draft_kv : nat }.

Fixpoint push_drafts (b : Batch) (s : SeqId) (pos : nat) (ds : list Token) : option (list nat * Batch) :=
  match ds with
  | [] => Some ([], b)
  | d :: ds =>
      '(i, b) ← push b (MkEntry d pos s true);
      '(ixs, b) ← push_drafts b s (S pos) ds;
      Some (i :: ixs, b)
  end.

(** [None] is a draft-side error. *)
Definition build_spec_step (d : DraftCtx) (g : ActiveGen) : M (option (DraftCtx * Batch * SpecStep)) :=
  p ← unwrap (g_pending g);
  let tok := pending_tok p in
  let confirmed := g_kv_len g in
  let '(synced, kv) :=
    match dr_synced d with
    | Some (uid, n) => if (uid =? gf_uid (g_fix g)) && (n <=? confirmed) then (n, dr_kv d) else (0, [])
    | None => (0, [])
    end in
  let stream := g_prefix g ++ g_attempt g in
  _ ← unwrap (if (confirmed <=? length stream) || (confirmed <=? synced) then Some tt else None);
  let catchup := drop synced (take confirmed stream) ++ [tok] in
  r ← draft_decode kv catchup;
  match r with
  | None => mret None
  | Some kv =>
      let k_max := min (min SPEC_K (g_remaining g - 1)) (n_batch - 1) in
      r ← draft_loop k_max kv;
      match r with
      | None => mret None
      | Some (drafts, kv) =>
          let draft_kv := confirmed + 1 + (if length drafts =? k_max then length drafts - 1 else length drafts) in
          mret (
            '(indexes, b) ← push_drafts [] (g_seq g) confirmed (tok :: drafts);
            Some (MkDraft kv (Some (gf_uid (g_fix g), draft_kv)), b, MkSpec indexes drafts draft_kv))
      end
  end.

(** ** The plain step *)
Definition paused (g : ActiveGen) : bool :=
  match g_held g, g_terminal g with [], None => false | _, _ => true end.
Definition prefilling (g : ActiveGen) : bool := g_prefill_done g <? length (g_prefix g).

(** One pending token per decodable sequence; [inl i] is a failed push. *)
Fixpoint build_decodes (i : nat) (active : list ActiveGen) (b : Batch) (ds : list (nat * nat))
  : nat + Batch * list (nat * nat) :=
  match active with
  | [] => inr (b, ds)
  | g :: active =>
      if paused g || prefilling g then build_decodes (S i) active b ds else
      match g_pending g with
      | None => build_decodes (S i) active b ds
      | Some p =>
          match push b (MkEntry (pending_tok p) (g_kv_len g) (g_seq g) true) with
          | Some (index, b) => build_decodes (S i) active b (ds ++ [(i, index)])
          | None => inl i
          end
      end
  end.

Fixpoint push_chunk (b : Batch) (g : ActiveGen) (j : nat) (toks : list Token) (tail : option nat)
  : option (Batch * option nat) :=
  match toks with
  | [] => Some (b, tail)
  | t :: toks =>
      let is_tail := g_prefill_done g + j + 1 =? length (g_prefix g) in
      '(index, b) ← push b (MkEntry t (g_kv_len g + j) (g_seq g) is_tail);
      push_chunk b g (S j) toks (if is_tail then Some index else tail)
  end.

Record Prefill := MkPrefill { pf_index : nat; pf_chunk : nat; pf_tail : option nat }.

(** The first sequence still prefilling gets the rest of the batch. *)
Fixpoint build_prefill (i : nat) (active : list ActiveGen) (b : Batch) : nat + Batch * option Prefill :=
  match active with
  | [] => inr (b, None)
  | g :: active =>
      if paused g || negb (prefilling g) then build_prefill (S i) active b else
      let space := n_batch - length b in
      if space =? 0 then inr (b, None) else
      let stop := min (g_prefill_done g + space) (length (g_prefix g)) in
      match push_chunk b g 0 (take (stop - g_prefill_done g) (drop (g_prefill_done g) (g_prefix g))) None with
      | Some (b, tail) => inr (b, Some (MkPrefill i (stop - g_prefill_done g) tail))
      | None => inl i
      end
  end.

(** ** The decode *)

(** A torn remote answers one decode with zeroed rows; every later decode of
    the session fails.  A failed decode leaves anything in the KV memory. *)
Definition decode_batch (b : Batch) : M bool :=
  n ← tick;
  kv ← get cx_kv;
  torn ← get cx_torn;
  match (if decode_ok n && negb torn then decode_entries (kv, []) b else None) with
  | Some (kv, rows) =>
      _ ← put upd_kv kv;
      if hc_distributed cfg && tear n
      then _ ← put upd_torn true; _ ← put upd_rows (zero_row <$> rows); mret true
      else _ ← put upd_rows rows; mret true
  | None => _ ← put upd_kv (junk n); mret false
  end.

Definition interrupt (g : ActiveGen) : M ActiveGen :=
  report_gen g (Interrupted (g_job g)
    (MkResume (gf_prompt_tokens (g_fix g)) (g_prior g ++ g_attempt g) (g_pieces_sent g) (g_scan g)
       (match g_terminal g with Some (DtFinish k) => Some k | _ => None end))).

Definition slots (n : nat) : list SeqId := reverse (Z.of_nat <$> seq 0 n).

Fixpoint drop_retained (rt : list RetainedSlot) : M unit :=
  match rt with [] => mret tt | r :: rt => _ ← seq_rm_all (rt_seq r); drop_retained rt end.

Definition decode_failed (active : list ActiveGen) : M (list ActiveGen) :=
  rt ← get cx_retained;
  _ ← (if hc_distributed cfg then mret tt else drop_retained rt);
  _ ← put upd_retained [];
  active ←
    (if hc_distributed cfg then _ ← each interrupt active; mret []
     else active ← each (λ g, fail_seq (set_kv_suspect true g) ErrDecode) active; mret (live active));
  _ ← put upd_free (filter (λ s, ¬ s ∈ map g_seq active) (slots (hc_n_seq_max cfg)));
  mret active.

(** ** After the decode *)
Definition emit_confirmed (g : ActiveGen) (piece : string) : M (ActiveGen * bool) :=
  r ← try_send (g_id g) (EvToken piece);
  match r with
  | SOk => mret (set_stalled false (set_pieces_sent (S (g_pieces_sent g)) g), true)
  | SFull => mret (set_stalled true (set_held (g_held g ++ [piece]) g), true)
  | SClosed => g ← cancel_seq g; mret (g, false)
  end.

(** Confirm the pending token, emit its piece, sample the next. *)
Definition post_decode (index : nat) (g : ActiveGen) : M ActiveGen :=
  p ← unwrap (g_pending g);
  remaining ← dec (g_remaining g);
  let g := set_remaining remaining (set_attempt (g_attempt g ++ [pending_tok p])
             (set_pending None (set_kv_len (S (g_kv_len g)) g))) in
  let continue g :=
    if g_remaining g =? 0 then finish_or_defer g Length (hc_kv_reuse cfg)
    else '(next, g) ← sample_ith g index; next_token cfg g next true in
  match p with
  | Sent _ false => finish_seq g Stop (hc_kv_reuse cfg)
  | Sent _ true => continue g
  | Unsent _ piece =>
      let '(admitted, sc) := scan_admit (g_scan g) piece in
      let g := set_scan sc g in
      if (admitted : bool) then
        '(g, alive) ← emit_confirmed g piece;
        if (alive : bool) then continue g else mret g
      else finish_seq g Stop (hc_kv_reuse cfg)
  end.

(** [active[i]], updated. *)
Definition at_index (i : nat) (f : ActiveGen → M ActiveGen) (active : list ActiveGen) : M (list ActiveGen) :=
  g ← unwrap (active !! i); g ← f g; mret (<[i := g]> active).

Fixpoint post_decodes (ds : list (nat * nat)) (active : list ActiveGen) : M (list ActiveGen) :=
  match ds with
  | [] => mret active
  | (i, index) :: ds => active ← at_index i (post_decode index) active; post_decodes ds active
  end.

Definition post_prefill (pf : Prefill) (g : ActiveGen) : M ActiveGen :=
  if g_done g then mret g else
  let g := set_prefill_done (g_prefill_done g + pf_chunk pf) (set_kv_len (g_kv_len g + pf_chunk pf) g) in
  if g_prefill_done g =? length (g_prefix g) then
    index ← unwrap (pf_tail pf);
    '(first, g) ← sample_ith g index;
    next_token cfg g first false
  else mret g.

(** ** Speculative verification *)
Inductive Walk := WNext (t : Token) | WAll | WRenderError.

(** The longest prefix of the drafts that the target's choices reproduce. *)
Fixpoint spec_walk (indexes : list nat) (drafts : list Token) (g : ActiveGen)
  : M (ActiveGen * list (Token * string) * Walk) :=
  match drafts with
  | [] => mret (g, [], WAll)
  | d :: drafts =>
      index ← unwrap (head indexes);
      '(t, g) ← sample_ith g index;
      if (t =? d)%Z then
        match token_to_piece t with
        | Some piece =>
            '(g, confirmed, w) ← spec_walk (tail indexes) drafts g;
            mret (g, (t, piece) :: confirmed, w)
        | None => mret (g, [], WRenderError)
        end
      else mret (g, [], WNext t)
  end.

(** The accepted drafts in stream order, until a stop match or the budget. *)
Fixpoint emit_drafts (confirmed : list (Token * string)) (g : ActiveGen) (kept : nat)
  : M (ActiveGen * nat * option FinishKind) :=
  match confirmed with
  | [] => mret (g, kept, None)
  | (t, piece) :: confirmed =>
      remaining ← dec (g_remaining g);
      let g := set_remaining remaining (set_attempt (g_attempt g ++ [t]) g) in
      let '(admitted, sc) := scan_admit (g_scan g) piece in
      let g := set_scan sc g in
      if (admitted : bool) then
        g ← deliver_piece g piece;
        if g_remaining g =? 0 then mret (g, S kept, Some Length) else emit_drafts confirmed g (S kept)
      else mret (g, S kept, Some Stop)
  end.

Definition emit_pending (p : PendingTok) (g : ActiveGen) : M (ActiveGen * option FinishKind) :=
  match p with
  | Sent _ admitted => mret (g, if admitted then None else Some Stop)
  | Unsent _ piece =>
      let '(admitted, sc) := scan_admit (g_scan g) piece in
      let g := set_scan sc g in
      if (admitted : bool) then g ← deliver_piece g piece; mret (g, None) else mret (g, Some Stop)
  end.

Definition draft_reset : DraftCtx := MkDraft [] None.

Definition resync (d : DraftCtx) (uid : nat) (draft_kv kv_len : nat) : M DraftCtx :=
  let matched := min draft_kv kv_len in
  if matched <? draft_kv then
    n ← tick;
    mret (if draft_trim_ok n then MkDraft (take matched (dr_kv d)) (Some (uid, matched)) else draft_reset)
  else mret (MkDraft (dr_kv d) (Some (uid, matched))).

(** Roll rejected positions back, emit in stream order, trim what lies past a
    stop, resync the draft, then end or stage the next token; the third
    component reports a failed rollback. *)
Definition settle_round (d : DraftCtx) (step : SpecStep) (p : PendingTok) (confirmed : list (Token * string))
    (next : Token) (g : ActiveGen) : M (ActiveGen * DraftCtx * bool) :=
  let old_confirmed := g_kv_len g in
  let keep := old_confirmed + 1 + length confirmed in
  ok ← (if length confirmed <? length (st_drafts step) then seq_rm_from (g_seq g) keep else mret true);
  if negb ok then mret (g, draft_reset, true) else
  remaining ← dec (g_remaining g);
  let g := set_remaining remaining (set_attempt (g_attempt g ++ [pending_tok p]) (set_kv_len keep g)) in
  '(g, finish) ← emit_pending p g;
  '(g, kept, finish) ← (match finish with
                        | Some k => mret (g, 1, Some k)
                        | None => emit_drafts confirmed g 1
                        end);
  let cut := old_confirmed + kept in
  ok ← (if kept <? 1 + length confirmed then seq_rm_from (g_seq g) cut else mret true);
  if negb ok then mret (g, draft_reset, true) else
  let g := if kept <? 1 + length confirmed then set_kv_len cut g else g in
  d ← resync d (gf_uid (g_fix g)) (st_draft_kv step) (g_kv_len g);
  match finish with
  | Some k => g ← finish_or_defer g k (hc_kv_reuse cfg); mret (g, d, false)
  | None => g ← next_token cfg g next true; mret (g, d, false)
  end.

Definition process_spec_step (d : DraftCtx) (step : SpecStep) (g : ActiveGen) : M (ActiveGen * DraftCtx * bool) :=
  p ← unwrap (g_pending g);
  '(g, confirmed, w) ← spec_walk (st_indexes step) (st_drafts step) (set_pending None g);
  let g := set_accepted (g_accepted g + length confirmed) (set_drafted (g_drafted g + length (st_drafts step)) g) in
  match w with
  | WRenderError => g ← fail_seq g ErrRender; mret (g, draft_reset, false)
  | WNext t => settle_round d step p confirmed t g
  | WAll =>
      index ← unwrap (st_indexes step !! length (st_drafts step));
      '(t, g) ← sample_ith g index;
      settle_round d step p confirmed t g
  end.

(** ** One iteration *)
Definition spec_eligible (h : Host) : option ActiveGen :=
  match h_active h with
  | [g] =>
      if negb (h_spec_disabled h) && hc_draft cfg && negb (paused g) && negb (prefilling g)
         && (match g_pending g with None | Some (Sent _ false) => false | _ => true end)
         && (1 <? g_remaining g) && is_greedy (gf_sampler (g_fix g))
      then Some g else None
  | _ => None
  end.

(** The loop goes on, or returns with the messages left in its channel. *)
Inductive Next := Continue (h : Host) | Return (ctrl : option HostMsg) (rest : list HostMsg).

(** A speculative round. *)
Definition spec_round (g : ActiveGen) (h : Host) : M Host :=
  r ← build_spec_step (h_draft h) g;
  match r with
  | None => mret (set_spec true (MkDraft (dr_kv (h_draft h)) None) h)
  | Some (d, b, step) =>
      ok ← decode_batch b;
      if negb ok then
        active ← decode_failed [g];
        mret (set_active active (set_spec (h_spec_disabled h) (MkDraft (dr_kv d) None) h))
      else
        '(g, d, bad) ← process_spec_step d step g;
        g ← (if (bad : bool) then (if g_done g then mret g else fail_seq g ErrRollback) else mret g);
        mret (set_active (live [g]) (set_spec (h_spec_disabled h || bad) d h))
  end.

Inductive Stepped := Blocked | Stepped_to (active : list ActiveGen) (resync : bool).

(** A plain step; the flag clears the draft's sync mark. *)
Definition plain_step (active : list ActiveGen) : M Stepped :=
  let failed i := active ← at_index i (λ g, fail_seq g ErrPush) active; mret (Stepped_to (live active) false) in
  match build_decodes 0 active [] [] with
  | inl i => failed i
  | inr (b, ds) =>
      match build_prefill 0 active b with
      | inl i => failed i
      | inr (b, pf) =>
          match ds, pf with
          | [], None => mret Blocked
          | _, _ =>
              ok ← decode_batch b;
              if negb ok then active ← decode_failed active; mret (Stepped_to active true)
              else
                active ← post_decodes ds active;
                active ← (match pf with
                          | Some pf => at_index (pf_index pf) (post_prefill pf) active
                          | None => mret active
                          end);
                mret (Stepped_to (live active) false)
          end
      end
  end.

(** The messages the channel gets before the pump and before a blocked wait
    ends, and whether its senders are gone. *)
Record Arrivals := MkArrivals { ar_early : list HostMsg; ar_late : list HostMsg; ar_hung_up : bool }.

Definition blocked_wait (ar : Arrivals) (h : Host) : M Next :=
  match h_ctrl h with
  | Some _ => mret (Continue (set_rx (h_ctrl h) (h_inbox h ++ ar_late ar) h))
  | None =>
      match h_inbox h ++ ar_late ar with
      | [] => mret (if ar_hung_up ar then Return None [] else Continue (set_rx None [] h))
      | m :: inbox =>
          r ← pump_msg cfg m (h_queue h);
          mret (match r with
                | PumpHandled queue => Continue (set_rx None inbox (set_queue queue h))
                | PumpCtrl => Continue (set_rx (Some m) inbox h)
                | PumpExit => Return None inbox
                end)
      end
  end.

(** Phase 3: the pump; an idle host without messages waits. *)
Definition pump_phase (ar : Arrivals) (h : Host) : M (option Host) :=
  let inbox := h_inbox h ++ ar_early ar in
  match h_ctrl h with
  | Some _ => mret (Some (set_rx (h_ctrl h) inbox h))
  | None =>
      r ← pump cfg (ar_hung_up ar) inbox (h_queue h);
      mret (match r with
            | Some (ctrl, inbox, queue) => Some (set_rx ctrl inbox (set_queue queue h))
            | None => None
            end)
  end.

(** Phases 4 and 5. *)
Definition sweep_phase (h : Host) : M Host :=
  active ← each sweep_closed (h_active h);
  let active := live active in
  queue ← sweep_queue (h_queue h);
  active ← (match h_ctrl h with
            | Some _ => active ← each sweep_stalled active; mret (live active)
            | None => mret active
            end);
  '(active, queue, uid) ← admission cfg queue active (h_next_uid h);
  mret (set_admitted active queue uid h).

(** Phases 7 to 11. *)
Definition step_phase (ar : Arrivals) (h : Host) : M Next :=
  if hc_batch_error cfg then mret (Continue (set_rx (h_ctrl h) (h_inbox h ++ ar_late ar) h)) else
  match spec_eligible h with
  | Some g => h ← spec_round g h; mret (Continue (set_rx (h_ctrl h) (h_inbox h ++ ar_late ar) h))
  | None =>
      r ← plain_step (h_active h);
      match r with
      | Blocked => blocked_wait ar h
      | Stepped_to active clear =>
          let d := if (clear : bool) then MkDraft (dr_kv (h_draft h)) None else h_draft h in
          mret (Continue (set_rx (h_ctrl h) (h_inbox h ++ ar_late ar)
                            (set_active active (set_spec (h_spec_disabled h) d h))))
      end
  end.

Definition serve_iter (ar : Arrivals) (h : Host) : M Next :=
  _ ← retry_outbox;
  active ← each (sweep_held cfg) (h_active h);
  r ← pump_phase ar (set_active (live active) h);
  match r with
  | None => mret (Return None [])
  | Some h =>
      h ← sweep_phase h;
      match h_ctrl h, h_active h, h_queue h with
      | Some m, [], [] => mret (Return (Some m) (h_inbox h ++ ar_late ar))
      | _, _, _ => step_phase ar h
      end
  end.

Definition host_init : Host := MkHost [] [] 0 false None draft_reset [].

(** The session and bookkeeping at the start of a phase; the logs go on. *)
Definition phase_ctx (t : nat) (out : list (nat * TokenEvent)) (reports : list (nat * GenOutcome)) : Ctx :=
  MkCtx ∅ false [] (slots (hc_n_seq_max cfg)) [] [] t out reports.
End step.
