(* ===== verification/GenRef.v ===== *)
(** * The engine host: reference generator and invariant

    What a generation should produce, one token at a time on a session of its
    own ([ref_run]); what the logs say of a job; and the invariant that ties
    every generation the host holds to its reference. *)

From Stdlib Require Import ZArith Lia.
From stdpp Require Import base list strings option gmap.
From S2P Require Import Prelude Float StrUtil StopScan Engine GenOps GenLoop GenStep.

Open Scope nat_scope.

(** ** Running the host's operations *)
Section wp.
Context {E : Engine}.

(** [m] does not panic and ends in [Q]. *)
Definition wp {A} (m : M A) (Q : A → Ctx → Prop) (cx : Ctx) : Prop :=
  match m cx with Some (a, cx) => Q a cx | None => False end.

Lemma wp_ret {A} (a : A) Q cx : Q a cx → wp (mret a) Q cx.
Proof. done. Qed.
Lemma wp_bind {A B} (m : M A) (f : A → M B) Q cx : wp m (λ a, wp (f a) Q) cx → wp (m ≫= f) Q cx.
Proof. unfold wp, mbind, M_bind. by destruct (m cx) as [[a cx']|]. Qed.
Lemma wp_mono {A} (m : M A) (Q Q' : A → Ctx → Prop) cx :
  wp m Q cx → (∀ a cx', Q a cx' → Q' a cx') → wp m Q' cx.
Proof. unfold wp. destruct (m cx) as [[a cx']|]; naive_solver. Qed.
Lemma wp_get {A} (f : Ctx → A) Q cx : Q (f cx) cx → wp (get f) Q cx.
Proof. done. Qed.
Lemma wp_put {A} (upd : A → Ctx → Ctx) v (Q : unit → Ctx → Prop) cx : Q tt (upd v cx) → wp (put upd v) Q cx.
Proof. done. Qed.
Lemma wp_tick Q cx : Q (cx_tick cx) (upd_tick (S (cx_tick cx)) cx) → wp tick Q cx.
Proof. done. Qed.
Lemma wp_unwrap {A} (o : option A) a Q cx : o = Some a → Q a cx → wp (unwrap o) Q cx.
Proof. by intros ->. Qed.
Lemma wp_dec n (Q : nat → Ctx → Prop) cx : 0 < n → Q (n - 1) cx → wp (dec n) Q cx.
Proof. destruct n; [lia|]. intros _. by replace (S n - 1) with n by lia. Qed.
End wp.

(** Peel the primitives off a [wp] goal. *)
Ltac wp :=
  repeat (cbv beta; match goal with
  | |- wp (_ ≫= _) _ _ => apply wp_bind
  | |- wp (mret _) _ _ => apply wp_ret
  | |- wp (get _) _ _ => apply wp_get
  | |- wp (put _ _) _ _ => apply wp_put
  | |- wp tick _ _ => apply wp_tick
  | |- wp (unwrap (Some _)) _ _ => apply wp_ret
  end).

(** ** The reference generator *)
Inductive RefEnd := RFin (kind : FinishKind) | RFail.
Record RefOut := MkOut { ro_pieces : list string; ro_tokens : list Token; ro_end : RefEnd }.

Definition prepend (ps : list string) (ts : list Token) (o : RefOut) : RefOut :=
  MkOut (ps ++ ro_pieces o) (ts ++ ro_tokens o) (ro_end o).

Section ref.
Context {E : Engine}.

(** At most [n] tokens after [h], with the sampler [c] and the stop scan [s]:
    a stop match withholds the piece that completes it and counts its token. *)
Fixpoint ref_run (n : nat) (h : list Token) (c : Chain) (s : StopScan) : RefOut :=
  match n with
  | O => MkOut [] [] (RFin Length)
  | S n =>
      let '(t, c) := sample c h in
      if is_eog t then MkOut [] [] (RFin Stop) else
      match token_to_piece t with
      | None => MkOut [] [] RFail
      | Some piece =>
          let '(admitted, s) := scan_admit s piece in
          if (admitted : bool) then prepend [piece] [t] (ref_run n (h ++ [t]) c s)
          else MkOut [] [t] (RFin Stop)
      end
  end.

(** The rest of a run whose next token is known. *)
Definition ref_emit (n : nat) (h : list Token) (c : Chain) (s : StopScan) (t : Token) (piece : string) : RefOut :=
  let '(admitted, s) := scan_admit s piece in
  if (admitted : bool) then prepend [piece] [t] (ref_run n (h ++ [t]) c s) else MkOut [] [t] (RFin Stop).

Lemma ref_run_sample n h c s :
  0 < n →
  ref_run n h c s =
    if is_eog (sample c h).1 then MkOut [] [] (RFin Stop)
    else match token_to_piece (sample c h).1 with
         | None => MkOut [] [] RFail
         | Some piece => ref_emit (n - 1) h (sample c h).2 s (sample c h).1 piece
         end.
Proof.
  destruct n as [|n]; [lia|]. intros _. simpl. destruct (sample c h) as [t c']. simpl.
  destruct (is_eog t); [done|]. destruct (token_to_piece t); [|done].
  unfold ref_emit. by replace (n - 0) with n by lia.
Qed.

Lemma prepend_prepend ps ts ps' ts' o : prepend ps ts (prepend ps' ts' o) = prepend (ps ++ ps') (ts ++ ts') o.
Proof. unfold prepend. simpl. by rewrite <- !app_assoc. Qed.
Lemma prepend_nil o : prepend [] [] o = o.
Proof. by destruct o. Qed.
Lemma prepend_out ps ts ps' ts' e : prepend ps ts (MkOut ps' ts' e) = MkOut (ps ++ ps') (ts ++ ts') e.
Proof. done. Qed.
Lemma prepend_prefix ps ts o : ps `prefix_of` ro_pieces (prepend ps ts o).
Proof. by exists (ro_pieces o). Qed.

(** The reference of a request: its prompt on a fresh sampler and scan. *)
Definition tokens_of (job : Job) : option (list Token) := text ← render_prompt (jb_prompt job); tokenize text.
Definition chain_of (job : Job) : option Chain := sampler_new (sampler_of (jb_params job)).
Definition job_greedy (job : Job) : bool := is_greedy (sampler_of (jb_params job)).

Definition reference (job : Job) : option RefOut :=
  toks ← tokens_of job;
  match gp_max_tokens (jb_params job) with
  | O => Some (MkOut [] [] (RFin Length))
  | n => c ← chain_of job; Some (ref_run n toks c (stop_scan_new (gp_stop (jb_params job))))
  end.
End ref.

(** ** Logs *)
Lemma filter_all {A} (P : A → Prop) `{!∀ x, Decision (P x)} (l : list A) : (∀ x, x ∈ l → P x) → filter P l = l.
Proof.
  induction l as [|x l IH]; intros HP; [done|]. rewrite filter_cons_True by (apply HP; set_solver).
  f_equal. apply IH. set_solver.
Qed.

(** The events of one job, in order. *)
Definition evs (j : nat) (out : list (nat * TokenEvent)) : list TokenEvent := snd <$> filter (λ e, e.1 = j) out.

Lemma evs_app j a b : evs j (a ++ b) = evs j a ++ evs j b.
Proof. unfold evs. by rewrite filter_app, fmap_app. Qed.
Lemma evs_snoc_eq j out ev : evs j (out ++ [(j, ev)]) = evs j out ++ [ev].
Proof. rewrite evs_app. unfold evs at 2. by rewrite filter_cons_True. Qed.
Lemma evs_snoc_ne j j' out ev : j ≠ j' → evs j (out ++ [(j', ev)]) = evs j out.
Proof. intros. rewrite evs_app. unfold evs at 2. rewrite filter_cons_False by (simpl; congruence). apply app_nil_r. Qed.

Section inv.
Context {E : Engine} {W : Env}.
Variable jobs : nat → Job.
Variable cfg : HostCfg.

(** The request [j], and its reference when it has one. *)
Definition target (j : nat) : RefOut := default (MkOut [] [] RFail) (reference (jobs j)).
Definition prompt (j : nat) : list Token := default [] (tokens_of (jobs j)).
Definition max_tokens (j : nat) : nat := gp_max_tokens (jb_params (jobs j)).

(** A terminal event fits what was delivered before it. *)
Definition done_ok (j : nat) (st : DoneStats) : Prop :=
  ro_end (target j) = RFin (ds_finish st)
  ∧ ds_completion_tokens st = wrap32 (Z.of_nat (length (ro_tokens (target j))))
  ∧ ds_prompt_tokens st = wrap32 (Z.of_nat (length (prompt j))).

Definition term_ok (j : nat) (ps : list string) (ev : TokenEvent) : Prop :=
  match ev with
  | EvDone st => ps = ro_pieces (target j) ∧ done_ok j st
  | EvError _ => ps `prefix_of` ro_pieces (target j)
  | EvToken _ => False
  end.

(** Still streaming, after the pieces [ps]. *)
Definition streamed (j : nat) (ps : list string) (cx : Ctx) : Prop := evs j (cx_out cx) = EvToken <$> ps.

Definition log_ok (j : nat) (es : list TokenEvent) : Prop :=
  ∃ ps, ps `prefix_of` ro_pieces (target j) ∧
  (es = EvToken <$> ps ∨ ∃ ev, es = (EvToken <$> ps) ++ [ev] ∧ term_ok j ps ev).

(** ** Generations *)
Definition g_gen (g : ActiveGen) : list Token := g_prior g ++ g_attempt g.
Definition g_hist (g : ActiveGen) : list Token := g_prefix g ++ g_attempt g.

(** The rest of the run of [g], which has emitted [P]: the reference of its
    job.  [sound] is false when the pending token may come from a torn row. *)
Definition promise (sound : bool) (g : ActiveGen) (P : list string) : Prop :=
  let R := target (g_id g) in
  match g_terminal g, g_pending g with
  | Some (DtFinish k), _ => R = MkOut P (g_gen g) (RFin k)
  | Some (DtError _), _ => True
  | None, None => R = prepend P (g_gen g) (ref_run (g_remaining g) (g_hist g) (g_chain g) (g_scan g))
  | None, Some (Unsent t piece) =>
      sound = true →
      R = prepend P (g_gen g) (ref_emit (g_remaining g - 1) (g_hist g) (g_chain g) (g_scan g) t piece)
  | None, Some (Sent t true) =>
      R = prepend P (g_gen g ++ [t]) (ref_run (g_remaining g - 1) (g_hist g ++ [t]) (g_chain g) (g_scan g))
  | None, Some (Sent t false) => R = MkOut P (g_gen g ++ [t]) (RFin Stop)
  end.

(** No finish has been decided. *)
Definition undecided (t : option DeferredTerminal) : Prop :=
  match t with Some (DtFinish _) => False | _ => True end.

(** A distributed generation can be resumed from its confirmed tokens. *)
Definition resumable (sound : bool) (g : ActiveGen) (P : list string) : Prop :=
  hc_distributed cfg = true →
  mapM token_to_piece (g_gen g) = Some P
  ∧ (job_greedy (jobs (g_id g)) = true → ∃ c,
      chain_of (jobs (g_id g)) = Some c ∧ (sound = true → g_chain g = c)
      ∧ (undecided (g_terminal g) →
         target (g_id g) = prepend P (g_gen g) (ref_run (g_remaining g) (g_hist g) c (g_scan g)))).

(** What was delivered and what is held make up what was emitted, unless the
    client left. *)
Definition delivered (cx : Ctx) (g : ActiveGen) (P : list string) : Prop :=
  ∃ ps, streamed (g_id g) ps cx ∧ length ps = g_pieces_sent g ∧ ps `prefix_of` P
        ∧ (gone (g_id g) (cx_tick cx) = false → ps ++ g_held g = P).

(** The fields that never change. *)
Definition fix_ok (g : ActiveGen) : Prop :=
  g_job g = jobs (g_id g)
  ∧ gf_prompt_tokens (g_fix g) = prompt (g_id g)
  ∧ g_prefix g = prompt (g_id g) ++ g_prior g
  ∧ prompt (g_id g) ≠ []
  ∧ gf_sampler (g_fix g) = sampler_of (jb_params (jobs (g_id g))).

(** Where a sequence is in its prefill and decode; [next] says that a
    decodable sequence has a pending token. *)
Definition phase_ok (g : ActiveGen) : Prop :=
  g_prefill_done g ≤ length (g_prefix g)
  ∧ (prefilling g = true → g_attempt g = [] ∧ g_pending g = None)
  ∧ (g_terminal g = None → prefilling g = false → g_pending g ≠ None)
  ∧ (g_terminal g = None → 0 < g_remaining g)
  ∧ (undecided (g_terminal g) → g_remaining g = max_tokens (g_id g) - length (g_gen g))
  ∧ (g_kv_suspect g = true → g_terminal g ≠ None)
  ∧ (∀ p, g_pending g = Some p → match p with
       | Unsent t piece => hc_distributed cfg = true ∧ token_to_piece t = Some piece
       | Sent _ _ => hc_distributed cfg = false
       end).

(** The KV memory of a sequence mirrors its confirmed tokens. *)
Definition kv_ok (cx : Ctx) (g : ActiveGen) : Prop :=
  g_kv_suspect g = false → (∀ e, g_terminal g ≠ Some (DtError e)) →
  kv_of (cx_kv cx) (g_seq g) = take (g_kv_len g) (g_hist g)
  ∧ g_kv_len g = if prefilling g then g_prefill_done g else length (g_hist g).

(** The stream of a generation, without its KV memory. *)
Definition stream_ok (sound : bool) (cx : Ctx) (g : ActiveGen) : Prop :=
  g_outcome g = true ∧ fix_ok g
  ∧ ∃ P, P `prefix_of` ro_pieces (target (g_id g)) ∧ delivered cx g P ∧ promise sound g P ∧ resumable sound g P.

Definition gen_ok (sound : bool) (cx : Ctx) (g : ActiveGen) : Prop :=
  stream_ok sound cx g ∧ phase_ok g ∧ kv_ok cx g.
End inv.

(** Derived fields of a generation do not see the setters of other fields. *)
Ltac gs_step f g' :=
  match g' with
  | ?s ?v ?g => let a := constr:(f g') in let b := constr:(f g) in
      first [progress change a with b | match goal with H : context [a] |- _ => progress change a with b in H end]
  end.

Ltac gs :=
  repeat (match goal with
  | |- context [g_seq ?x] => gs_step (g_seq (E := _)) x
  | |- context [g_id ?x] => gs_step (g_id (E := _)) x
  | |- context [g_job ?x] => gs_step (g_job (E := _)) x
  | |- context [g_prefix ?x] => gs_step (g_prefix (E := _)) x
  | |- context [g_prior ?x] => gs_step (g_prior (E := _)) x
  | |- context [g_gen ?x] => gs_step (g_gen (E := _)) x
  | |- context [g_hist ?x] => gs_step (g_hist (E := _)) x
  | |- context [prefilling ?x] => gs_step (prefilling (E := _)) x
  end; cbn beta); simpl.
