(* ===== verification/GenInv.v ===== *)
(** * The engine host: what an operation on one sequence may change

    An operation on a sequence changes the log of its own client and the KV
    memory of its own slot; it leaves the sequence in good order, or ends it:
    slot freed, outcome reported, and a terminal event that fits the
    reference sent, parked or (client gone) dropped. *)

From Stdlib Require Import ZArith Lia.
From stdpp Require Import base list strings option gmap.
From S2P Require Import Prelude Float StrUtil StopScan Engine GenOps GenLoop GenStep GenRef.

Open Scope nat_scope.

(** A client that left stays away. *)
Class EnvLaws `{E : Engine} (W : Env) : Prop :=
  gone_mono : ∀ j n m, n ≤ m → gone j n = true → gone j m = true.

Section inv.
Context {E : Engine} {W : Env} {L : EnvLaws W}.
Variable jobs : nat → Job.
Variable cfg : HostCfg.

Abbreviation target := (target jobs).
Abbreviation gen_ok := (gen_ok jobs cfg).
Abbreviation stream_ok := (stream_ok jobs cfg).
Abbreviation log_ok := (log_ok jobs).
Abbreviation term_ok := (term_ok jobs).

(** ** Frames *)
Record local (j : nat) (s : SeqId) (cx cx' : Ctx) : Prop := {
  lo_tick : cx_tick cx ≤ cx_tick cx';
  lo_torn : cx_torn cx' = cx_torn cx;
  lo_rows : cx_rows cx' = cx_rows cx;
  lo_evs : ∀ j', j' ≠ j → evs j' (cx_out cx') = evs j' (cx_out cx);
  lo_kv : ∀ s', s' ≠ s → kv_of (cx_kv cx') s' = kv_of (cx_kv cx) s' }.

Record shared (cx cx' : Ctx) : Prop := {
  sh_free : cx_free cx' = cx_free cx;
  sh_retained : cx_retained cx' = cx_retained cx;
  sh_outbox : cx_outbox cx' = cx_outbox cx;
  sh_reports : cx_reports cx' = cx_reports cx }.

(** Only the log of [j] grows. *)
Record quiet (j : nat) (cx cx' : Ctx) : Prop := {
  qu_shared : shared cx cx';
  qu_kv : cx_kv cx' = cx_kv cx;
  qu_local : ∀ s, local j s cx cx' }.

Lemma local_refl j s cx : local j s cx cx.
Proof. by split. Qed.
Lemma local_trans j s a b c : local j s a b → local j s b c → local j s a c.
Proof.
  intros [A1 A2 A3 A4 A5] [B1 B2 B3 B4 B5]. split; [lia|congruence|congruence| |].
  - intros. rewrite B4, A4; done.
  - intros. rewrite B5, A5; done.
Qed.
Lemma shared_refl cx : shared cx cx.
Proof. by split. Qed.
Lemma shared_trans a b c : shared a b → shared b c → shared a c.
Proof. intros [] []. split; congruence. Qed.
Lemma quiet_refl j cx : quiet j cx cx.
Proof. split; [apply shared_refl|done|]. intros; apply local_refl. Qed.
Lemma quiet_trans j a b c : quiet j a b → quiet j b c → quiet j a c.
Proof.
  intros [A1 A2 A3] [B1 B2 B3].
  split; [eapply shared_trans; eauto|congruence|]. intros s. eapply local_trans; eauto.
Qed.

Definition ticked (cx : Ctx) : Ctx := upd_tick (S (cx_tick cx)) cx.
Definition sent (j : nat) (ev : TokenEvent) (cx : Ctx) : Ctx := upd_out (cx_out cx ++ [(j, ev)]) (ticked cx).

Lemma quiet_ticked j cx : quiet j cx (ticked cx).
Proof. split; [by split|done|]. intros s. split; simpl; auto. Qed.
Lemma quiet_sent j ev cx : quiet j cx (sent j ev cx).
Proof. split; [by split|done|]. intros s. split; simpl; auto. intros. by apply evs_snoc_ne. Qed.

Lemma try_send_spec j ev (Q : SendRes → Ctx → Prop) cx :
  (gone j (cx_tick cx) = true → Q SClosed (ticked cx)) →
  (gone j (cx_tick cx) = false → Q SFull (ticked cx)) →
  (gone j (cx_tick cx) = false → Q SOk (sent j ev cx)) → wp (try_send j ev) Q cx.
Proof.
  intros. unfold try_send. wp. destruct (gone j (cx_tick cx)); wp; [auto|].
  destruct (room (cx_tick cx)); wp; auto.
Qed.

Lemma gone_later j cx cx' s i : local j s cx cx' → gone i (cx_tick cx') = false → gone i (cx_tick cx) = false.
Proof using L.
  intros [? _ _ _ _] H'. destruct (gone i (cx_tick cx)) eqn:Eg; [|done].
  pose proof (gone_mono _ _ (cx_tick cx') lo_tick0 Eg). congruence.
Qed.

Lemma gone_ticked j cx : gone j (cx_tick cx) = true → gone j (cx_tick (ticked cx)) = false → False.
Proof.
  intros Hg Hg'. pose proof (gone_mono j _ (S (cx_tick cx)) (Nat.le_succ_diag_r _) Hg). simpl in Hg'. congruence.
Qed.

(** ** Streams are stable under the work of others *)
Lemma streamed_local j s cx cx' i ps : local j s cx cx' → i ≠ j → streamed i ps cx → streamed i ps cx'.
Proof. intros Hl Hn Hs. unfold streamed. by rewrite (lo_evs _ _ _ _ Hl) by done. Qed.

Lemma delivered_local j s cx cx' g P : local j s cx cx' → g_id g ≠ j → delivered cx g P → delivered cx' g P.
Proof using L.
  intros Hl Hn (ps & H1 & H2 & H3 & H4). exists ps. split_and!; [|done|done|].
  - eapply streamed_local; eauto.
  - intros Hg. apply H4. eapply gone_later; eauto.
Qed.

Lemma stream_ok_local b j s cx cx' g : local j s cx cx' → g_id g ≠ j → stream_ok b cx g → stream_ok b cx' g.
Proof using L.
  intros Hl Hn (? & ? & P & ? & ? & ? & ?). split_and!; [done|done|]. exists P. split_and!; [done| |done|done].
  eapply delivered_local; eauto.
Qed.

Lemma kv_ok_local j s cx cx' g : local j s cx cx' → g_seq g ≠ s → kv_ok cx g → kv_ok cx' g.
Proof. intros Hl Hn Hk H1 H2. rewrite (lo_kv _ _ _ _ Hl) by done. auto. Qed.

Lemma gen_ok_local b j s cx cx' g : local j s cx cx' → g_id g ≠ j → g_seq g ≠ s → gen_ok b cx g → gen_ok b cx' g.
Proof using L.
  intros ??? (? & ? & ?). split_and!; [eapply stream_ok_local; eauto|done|eapply kv_ok_local; eauto].
Qed.

Lemma gen_ok_mono b cx g : gen_ok true cx g → gen_ok b cx g.
Proof.
  intros Hg. destruct b; [exact Hg|]. destruct Hg as ((Ho & Hf & P & H1 & H2 & H3 & H4) & H5 & H6).
  split_and!; [|done|done]. split_and!; [done|done|]. exists P. split_and!; [done|done| |].
  - unfold promise in *. destruct (g_terminal g) as [[]|]; [done|done|]. destruct (g_pending g) as [[]|]; done.
  - intros Hd. destruct (H4 Hd) as [Hm Hg]. split; [done|]. intros Hj. destruct (Hg Hj) as (c & ? & ? & ?). by exists c.
Qed.

(** ** The end of a sequence *)

(** What becomes of the terminal event of [j]. *)
Definition settled (j : nat) (cx cx' : Ctx) : Prop :=
  (cx_outbox cx' = cx_outbox cx ∧ log_ok j (evs j (cx_out cx')))
  ∨ ∃ ps ev, cx_outbox cx' = cx_outbox cx ++ [(j, ev)] ∧ streamed j ps cx' ∧ term_ok j ps ev.

Definition kept_slot (s : SeqId) (cx cx' : Ctx) : Prop :=
  cx_retained cx' = cx_retained cx
  ∨ ∃ h, cx_retained cx' = cx_retained cx ++ [MkSlotKv s h] ∧ kv_of (cx_kv cx') s = h.

Record ended (g : ActiveGen) (cx cx' : Ctx) : Prop := {
  en_free : cx_free cx' = cx_free cx ++ [g_seq g];
  en_kept : kept_slot (g_seq g) cx cx';
  en_reports : cx_reports cx' = cx_reports cx ++ [(g_id g, Finished)];
  en_settled : settled (g_id g) cx cx' }.

Record gstep (b : bool) (cx : Ctx) (g : ActiveGen) (g' : ActiveGen) (cx' : Ctx) : Prop := {
  gs_local : local (g_id g) (g_seq g) cx cx';
  gs_fix : g_fix g' = g_fix g;
  gs_end : if g_done g' then ended g cx cx' else shared cx cx' ∧ gen_ok b cx' g' }.

Lemma gstep_mono b cx g g' cx' : gstep true cx g g' cx' → gstep b cx g g' cx'.
Proof.
  intros [H1 H2 H3]. split; [done|done|]. destruct (g_done g'); [done|]. destruct H3. split; [done|]. by apply gen_ok_mono.
Qed.

(** Work on the same sequence before an operation. *)
Lemma gstep_after b cx cx0 g0 g g' cx' :
  local (g_id g) (g_seq g) cx cx0 → shared cx cx0 → g_fix g0 = g_fix g → gstep b cx0 g0 g' cx' → gstep b cx g g' cx'.
Proof.
  intros Hl Hs Hf [H1 H2 H3].
  assert (Hi : g_id g0 = g_id g) by (unfold g_id, g_job; by rewrite Hf).
  assert (Hse : g_seq g0 = g_seq g) by (unfold g_seq; by rewrite Hf).
  rewrite Hi, Hse in H1.
  split; [eapply local_trans; eauto|congruence|]. destruct Hs as [S1 S2 S3 S4]. destruct (g_done g').
  - destruct H3 as [F1 F2 F3 F4]. rewrite Hi in F3, F4. rewrite Hse in F1, F2.
    split; [congruence| |congruence|].
    + unfold kept_slot in *. by rewrite <- S2.
    + unfold settled in *. by rewrite <- S3.
  - destruct H3 as [T1 T2]. split; [|done]. eapply shared_trans; [|done]. by split.
Qed.

(** Delivery before an operation on the same sequence. *)
Lemma gstep_quiet b cx cx0 g0 g g' cx' :
  quiet (g_id g) cx cx0 → g_fix g0 = g_fix g → gstep b cx0 g0 g' cx' → gstep b cx g g' cx'.
Proof. intros [Hs Hk Hl] Hf HG. by eapply gstep_after. Qed.
End inv.
