(* ===== verification/GenOpsOk.v ===== *)
(** * The engine host: the operations on one sequence are correct *)

From Stdlib Require Import ZArith Lia.
From stdpp Require Import base list strings option gmap.
From S2P Require Import Prelude Float StrUtil StopScan Engine GenOps GenLoop GenStep GenRef GenInv.

Open Scope nat_scope.

Section ops.
Context {E : Engine} {W : Env} {EL : EngineLaws E} {L : EnvLaws W}.
Variable jobs : nat → Job.
Variable cfg : HostCfg.

Abbreviation target := (target jobs).
Abbreviation gen_ok := (gen_ok jobs cfg).
Abbreviation stream_ok := (stream_ok jobs cfg).
Abbreviation log_ok := (log_ok jobs).
Abbreviation term_ok := (term_ok jobs).
Abbreviation gstep := (gstep jobs cfg).
Abbreviation promise := (promise jobs).
Abbreviation resumable := (resumable jobs cfg).

(** ** Pieces *)
Definition redeliver (h : list string) (n : nat) (b : bool) (g : ActiveGen) : ActiveGen :=
  set_stalled b (set_pieces_sent n (set_held h g)).

Lemma redeliver_id g : redeliver (g_held g) (g_pieces_sent g) (g_stalled g) g = g.
Proof. by destruct g. Qed.

(** The next piece goes out after everything emitted so far. *)
Lemma deliver_piece_spec g piece P cx :
  delivered cx g P →
  wp (deliver_piece g piece)
    (λ g' cx', (∃ h n b, g' = redeliver h n b g) ∧ delivered cx' g' (P ++ [piece]) ∧ quiet (g_id g) cx cx') cx.
Proof using L.
  intros (ps & H1 & H2 & H3 & H4). unfold deliver_piece.
  destruct (g_held g) as [|p held] eqn:Eh.
  - wp. apply try_send_spec; intros Hg; wp; simpl.
    + split_and!; [eexists _, _, _; symmetry; apply redeliver_id| |apply quiet_ticked].
      exists ps. split_and!; [done|done|by apply prefix_app_r|].
      intros Hg'. destruct (gone_ticked _ _ Hg Hg').
    + split_and!; [by exists [piece], (g_pieces_sent g), true; destruct g| |apply quiet_ticked].
      specialize (H4 Hg). rewrite app_nil_r in H4. subst ps.
      exists P. split_and!; [done|done|by apply prefix_app_r|done].
    + split_and!; [by exists [], (S (g_pieces_sent g)), false; destruct g; simpl in *; subst| |apply quiet_sent].
      specialize (H4 Hg). rewrite app_nil_r in H4. subst ps.
      exists (P ++ [piece]). split_and!.
      * unfold streamed in *. simpl. change (g_id _) with (g_id g). rewrite evs_snoc_eq, H1. by rewrite fmap_app.
      * rewrite length_app. simpl. lia.
      * done.
      * intros _. simpl. rewrite Eh. by rewrite app_nil_r.
  - wp. split_and!; [by eexists (p :: held ++ [piece]), (g_pieces_sent g), (g_stalled g); destruct g| |apply quiet_refl].
    exists ps. split_and!; [done|done|by apply prefix_app_r|].
    intros Hg. specialize (H4 Hg). simpl. change (p :: held ++ [piece]) with ((p :: held) ++ [piece]).
    by rewrite app_assoc, H4.
Qed.

(** ** Terminal events *)
Record settles (j : nat) (cx cx' : Ctx) : Prop := {
  st_settled : settled jobs j cx cx';
  st_local : ∀ s, local j s cx cx';
  st_kv : cx_kv cx' = cx_kv cx;
  st_free : cx_free cx' = cx_free cx;
  st_retained : cx_retained cx' = cx_retained cx;
  st_reports : cx_reports cx' = cx_reports cx }.

Lemma streamed_log j ps cx : streamed j ps cx → ps `prefix_of` ro_pieces (target j) → log_ok j (evs j (cx_out cx)).
Proof. intros. exists ps. eauto. Qed.

Lemma term_log j ps ev cx :
  streamed j ps cx → ps `prefix_of` ro_pieces (target j) → term_ok j ps ev → log_ok j (evs j (cx_out cx) ++ [ev]).
Proof. intros Hs ??. exists ps. split; [done|]. right. exists ev. by rewrite <- Hs. Qed.

Lemma deliver_terminal_spec j ev ps cx :
  streamed j ps cx → ps `prefix_of` ro_pieces (target j) → (gone j (cx_tick cx) = false → term_ok j ps ev) →
  wp (deliver_terminal j ev) (λ _ cx', settles j cx cx') cx.
Proof.
  intros Hs Hp Ht. unfold deliver_terminal. wp. apply try_send_spec; intros Hg; wp.
  - split; try done; [|apply quiet_ticked]. left. split; [done|]. by eapply streamed_log.
  - split; try done; simpl.
    + right. exists ps, ev. auto.
    + intros s. by split; simpl; auto.
  - split; try done; [|apply quiet_sent]. left. split; [done|]. simpl. rewrite evs_snoc_eq.
    eapply term_log; eauto.
Qed.

(** ** Ends *)
Lemma release_seq_spec b g cx cx1 :
  g_outcome g = true → settles (g_id g) cx cx1 →
  wp (report_gen g Finished) (λ g', wp (release_seq g') (gstep b cx g)) cx1.
Proof.
  intros Ho [S1 S2 S3 S4 S5 S6]. unfold report_gen, report, release_seq, seq_rm_all. rewrite Ho. wp. simpl.
  change (g_seq (set_outcome false g)) with (g_seq g). rewrite S4, S6. split; [|done|].
  - destruct (S2 (g_seq g)) as [L1 L2 L3 L4 L5]. split; simpl; auto.
    intros s' Hn. rewrite kv_of_delete. case_decide; [congruence|]. by rewrite S3.
  - simpl. split; simpl; auto. left. exact S5.
Qed.

Lemma cancel_seq_spec b g cx P :
  g_outcome g = true → P `prefix_of` ro_pieces (target (g_id g)) → delivered cx g P →
  wp (cancel_seq g) (gstep b cx g) cx.
Proof.
  intros Ho Hp (ps & H1 & H2 & H3 & H4). unfold cancel_seq. wp. apply release_seq_spec; [done|].
  split; try done. left. split; [done|]. eapply streamed_log; [done|]. by etrans.
Qed.

Lemma finish_seq_spec b g k retain cx P :
  g_outcome g = true → fix_ok jobs g → delivered cx g P → g_held g = [] →
  target (g_id g) = MkOut P (g_gen g) (RFin k) →
  (retain = true → kv_of (cx_kv cx) (g_seq g) = g_hist g) →
  wp (finish_seq g k retain) (gstep b cx g) cx.
Proof.
  intros Ho Hf (ps & H1 & H2 & H3 & H4) Hh Hr Hk. unfold finish_seq. wp.
  eapply wp_mono; [eapply (deliver_terminal_spec _ _ ps)|].
  - done.
  - by rewrite Hr.
  - intros Hg. specialize (H4 Hg). rewrite Hh, app_nil_r in H4. subst ps. simpl. rewrite Hr. split; [done|].
    destruct Hf as (_ & Hpt & _). unfold done_ok, done_stats. rewrite Hr. simpl. rewrite Hpt. unfold g_gen.
    by rewrite length_app.
  - intros [] cx1 Hs. cbv beta in *. destruct retain.
    + destruct Hs as [S1 S2 S3 S4 S5 S6].
      unfold report_gen, report. rewrite Ho. wp. simpl.
      change (g_seq (set_outcome false g)) with (g_seq g). rewrite S4, S5, S6. split; [|done|].
      * destruct (S2 (g_seq g)) as [L1 L2 L3 L4 L5]. by split.
      * simpl. split; simpl; auto. right. eexists. split; [reflexivity|]. simpl. rewrite S3. by apply Hk.
    + wp. by apply release_seq_spec.
Qed.

Lemma fail_seq_spec b g e cx :
  g_done g = false →
  match g_terminal g with
  | None => gen_ok b cx (set_terminal (Some (DtError e)) g)
  | Some _ => gen_ok b cx g
  end →
  wp (fail_seq g e) (gstep b cx g) cx.
Proof.
  intros Hd Hg. unfold fail_seq. destruct (g_held g) as [|p held] eqn:Eh.
  - assert (∃ P, g_outcome g = true ∧ P `prefix_of` ro_pieces (target (g_id g)) ∧ delivered cx g P) as (P & Ho & Hp & Hdel).
    { destruct (g_terminal g); destruct Hg as ((Ho & _ & P & Hp & Hdel & _) & _); exists P; split_and!; done. }
    destruct Hdel as (ps & H1 & H2 & H3 & H4).
    wp. eapply wp_mono; [eapply (deliver_terminal_spec _ _ ps); [done|by etrans|intros _; simpl; by etrans]|].
    intros [] cx1 Hs. cbv beta in *. wp. by apply release_seq_spec.
  - wp. destruct (g_terminal g) as [t|] eqn:Et.
    + split; [apply local_refl|done|]. rewrite Hd. split; [apply shared_refl|done].
    + split; [apply local_refl|done|]. simpl. rewrite Hd. split; [apply shared_refl|done].
Qed.

(** ** The next token *)

(** Every token of the history is confirmed and nothing is pending. *)
Record confirmed (cx : Ctx) (g : ActiveGen) (P : list string) : Prop := {
  co_outcome : g_outcome g = true;
  co_fix : fix_ok jobs g;
  co_prefix : P `prefix_of` ro_pieces (target (g_id g));
  co_delivered : delivered cx g P;
  co_resumable : resumable true g P;
  co_terminal : g_terminal g = None;
  co_pending : g_pending g = None;
  co_done : g_done g = false;
  co_prefilled : g_prefill_done g = length (g_prefix g);
  co_count : g_remaining g = max_tokens jobs (g_id g) - length (g_gen g);
  co_suspect : g_kv_suspect g = false;
  co_kv : kv_of (cx_kv cx) (g_seq g) = g_hist g;
  co_kv_len : g_kv_len g = length (g_hist g) }.

Lemma not_prefilling g : g_prefill_done g = length (g_prefix g) → prefilling g = false.
Proof. unfold prefilling. intros ->. apply Nat.ltb_irrefl. Qed.

(** A decided end, or an error, waiting behind held pieces. *)
Lemma confirmed_deferred b cx g P dt :
  confirmed cx g P → match dt with DtFinish k => target (g_id g) = MkOut P (g_gen g) (RFin k) | DtError _ => True end →
  gen_ok b cx (set_terminal (Some dt) g).
Proof.
  intros [C1 C2 C3 C4 C5 C6 C7 C8 C9 Hcount C10 C11 C12] Hk. split_and!.
  - split_and!; [done|done|]. exists P. split_and!; [done|done| |].
    + unfold promise. simpl. destruct dt; done.
    + intros Hd. destruct (C5 Hd) as [Hm Hg]. split; [done|]. intros Hj. destruct (Hg Hj) as (c & Hc & Hch & Hr).
      exists c. split_and!; [done|intros _; by apply Hch|]. intros _. apply Hr. by rewrite C6.
  - pose proof (not_prefilling _ C9) as Hpf. split_and!; gs; try done; [lia|congruence|congruence].
  - intros _ _. gs. rewrite (not_prefilling _ C9), C11, C12. split; [|done]. by rewrite take_ge.
Qed.

Lemma finish_or_defer_spec b cx g P k retain :
  confirmed cx g P → target (g_id g) = MkOut P (g_gen g) (RFin k) →
  wp (finish_or_defer g k retain) (gstep b cx g) cx.
Proof.
  intros Hc Hk. unfold finish_or_defer. destruct (g_held g) as [|p held] eqn:Eh.
  - destruct Hc. eapply finish_seq_spec; eauto.
  - wp. split; [apply local_refl|done|]. simpl. rewrite (co_done _ _ _ Hc).
    split; [apply shared_refl|]. by eapply confirmed_deferred.
Qed.

Lemma confirmed_fail_spec b cx g P e : confirmed cx g P → wp (fail_seq g e) (gstep b cx g) cx.
Proof.
  intros Hc. apply fail_seq_spec; [by destruct Hc|]. rewrite (co_terminal _ _ _ Hc). by eapply confirmed_deferred.
Qed.

(** The confirmed history of [g] leads to the rest of its reference. *)
Record going (g : ActiveGen) (P : list string) : Prop := {
  go_left : 0 < g_remaining g;
  go_rest : target (g_id g) = prepend P (g_gen g) (ref_run (g_remaining g) (g_hist g) (g_chain g) (g_scan g)) }.

(** A token from a sound row, about to be staged. *)
Lemma stage_pending_spec b cx g P c t piece :
  confirmed cx g P → 0 < g_remaining g →
  token_to_piece t = Some piece →
  (b = true →
     target (g_id g) = prepend P (g_gen g) (ref_emit (g_remaining g - 1) (g_hist g) c (g_scan g) t piece)
     ∧ (hc_distributed cfg = true → job_greedy (jobs (g_id g)) = true → c = g_chain g)) →
  (hc_distributed cfg = false → b = true) →
  wp (stage_pending (hc_distributed cfg) (set_chain c g) t piece) (gstep b cx g) cx.
Proof using L.
  intros Hco Hleft Hpiece Hrest Hb. destruct Hco as [C1 C2 C3 C4 C5 C6 C7 C8 C9 Hcount C10 C11 C12].
  pose proof (not_prefilling _ C9) as Hpf.
  unfold stage_pending. destruct (hc_distributed cfg) eqn:Ed.
  - wp. split; [apply local_refl|done|]. simpl. rewrite C8. split; [apply shared_refl|]. split_and!.
    + split_and!; [done|done|]. exists P. split_and!; [done|done| |].
      * unfold promise. gs. rewrite C6. intros Hbt. destruct (Hrest Hbt) as [Hr _]. done.
      * intros _. destruct (C5 Ed) as [Hm Hg]. split; [done|]. intros Hj. destruct (Hg Hj) as (c0 & Hc0 & Hch & Ht).
        exists c0. split_and!; [done| |done]. gs. intros Hbt. destruct (Hrest Hbt) as [_ Hcc].
        rewrite Hcc by done. by apply Hch.
    + split_and!; gs; try done; try congruence; [lia|]. intros p [= <-]. by rewrite Ed.
    + intros _ _. gs. rewrite Hpf, C11, C12. split; [|done]. by rewrite take_ge.
  - specialize (Hb eq_refl). subst b. destruct (Hrest eq_refl) as [Hr _]. clear Hrest. simpl.
    unfold ref_emit in Hr. destruct (scan_admit (g_scan g) piece) as [[] sc] eqn:Es.
    + wp. eapply wp_mono; [apply (deliver_piece_spec _ _ P); exact C4|].
      intros g' cx' ((h & n & st & ->) & Hdel & Hq). wp. rewrite prepend_prepend in Hr.
      split; [by apply Hq|done|]. simpl. rewrite C8. split; [apply Hq|]. split_and!.
      * split_and!; [done|done|]. exists (P ++ [piece]).
        split_and!; [gs; rewrite Hr; apply prepend_prefix|exact Hdel| |by intros; congruence].
        unfold promise. gs. rewrite C6. exact Hr.
      * split_and!; gs; try done; try congruence; [lia|]. intros p [= <-]. done.
      * intros _ _. gs. rewrite (qu_kv _ _ _ Hq). gs. rewrite Hpf, C11, C12. split; [|done]. by rewrite take_ge.
    + wp. split; [apply local_refl|done|]. simpl. rewrite C8. split; [apply shared_refl|]. split_and!.
      * split_and!; [done|done|]. exists P. split_and!; [done|done| |by intros; congruence].
        unfold promise. gs. rewrite C6. rewrite Hr, prepend_out. by rewrite app_nil_r.
      * split_and!; gs; try done; try congruence; [lia|]. intros p [= <-]. done.
      * intros _ _. gs. rewrite Hpf, C11, C12. split; [|done]. by rewrite take_ge.
Qed.

Lemma wp_same_fix b cx g0 g (m : M ActiveGen) : g_fix g0 = g_fix g → wp m (gstep b cx g0) cx → wp m (gstep b cx g) cx.
Proof. intros. eapply wp_mono; [done|]. intros. eapply gstep_quiet; eauto. apply quiet_refl. Qed.

(** A row of the last decode: the logits after [h], or zeroed by a tear. *)
Definition row_of (cx : Ctx) (index : nat) (h : list Token) : Prop :=
  cx_rows cx !! index = Some (Some (Real h))
  ∨ (cx_rows cx !! index = Some (Some Zeroed) ∧ cx_torn cx = true ∧ hc_distributed cfg = true).

(** A zeroed row never looks like an end of generation. *)
Hypothesis zeroed_text : ∀ c, is_eog (sample_zeroed c).1 = false.

(** The token sampled after a confirmed history ends the run or goes on. *)
Lemma next_token_spec cx g P t c defer :
  confirmed cx g P → going g P → sample (g_chain g) (g_hist g) = (t, c) → (defer = true ∨ g_held g = []) →
  wp (next_token cfg (set_chain c g) t defer) (gstep true cx g) cx.
Proof using L EL.
  intros Hco [G1 G3] Es Hdef. unfold next_token. rewrite ref_run_sample, Es in G3 by done. simpl in G3.
  assert (Hch : hc_distributed cfg = true → job_greedy (jobs (g_id g)) = true → c = g_chain g).
  { intros Hd Hj. destruct (co_resumable _ _ _ Hco Hd) as [_ Hg]. destruct (Hg Hj) as (c0 & Hc0 & Hch & _).
    rewrite Hch in * by done. change c with (t, c).2. rewrite <- Es. by eapply greedy_stateless. }
  assert (Hco' : confirmed cx (set_chain c g) P).
  { destruct Hco as [C1 C2 C3 C4 C5 C6 C7 C8 C9 Hcount C10 C11 C12]. split; try done.
    intros Hd. destruct (C5 Hd) as [Hm Hg]. split; [done|]. intros Hj.
    rewrite Hch by done. by apply Hg. }
  destruct (is_eog t).
  - rewrite prepend_out, !app_nil_r in G3. destruct defer.
    + apply (wp_same_fix _ _ (set_chain c g)); [done|]. by eapply finish_or_defer_spec.
    + destruct Hdef as [?|Hh]; [done|]. destruct Hco'. apply (wp_same_fix _ _ (set_chain c g)); [done|]. by eapply finish_seq_spec.
  - destruct (token_to_piece t) as [piece|] eqn:Ep.
    + eapply (stage_pending_spec true); eauto.
    + apply (wp_same_fix _ _ (set_chain c g)); [done|]. by eapply confirmed_fail_spec.
Qed.

(** Sample after a confirmed history, and end or go on. *)
Lemma advance_spec cx g P index defer :
  confirmed cx g P → going g P → row_of cx index (g_hist g) → (defer = true ∨ g_held g = []) →
  wp ('(next, g') ← sample_ith g index; next_token cfg g' next defer) (gstep (negb (cx_torn cx)) cx g) cx.
Proof using L EL zeroed_text.
  intros Hco Hgo Hrow Hdef. unfold sample_ith. wp.
  destruct Hrow as [Hrow|(Hrow & Htorn & Hdist)]; (eapply wp_unwrap; [by rewrite Hrow|]); simpl.
  - destruct (sample (g_chain g) (g_hist g)) as [t c] eqn:Es. wp.
    eapply wp_mono; [by eapply next_token_spec|]. intros. by apply gstep_mono.
  - destruct Hgo as [G1 G3]. destruct (sample_zeroed (g_chain g)) as [t c] eqn:Es. wp. unfold next_token.
    pose proof (zeroed_text (g_chain g)) as Hz. rewrite Es in Hz. simpl in Hz. rewrite Hz, Htorn. simpl.
    destruct (token_to_piece t) as [piece|] eqn:Ep.
    + eapply (stage_pending_spec false); [done|done|done|done|congruence].
    + apply (wp_same_fix _ _ (set_chain c g)); [done|]. eapply fail_seq_spec; [by destruct Hco|]. gs. rewrite (co_terminal _ _ _ Hco).
      pose proof (confirmed_deferred false cx g P (DtError ErrRender) Hco I) as ((H1 & H2 & P' & H3 & H4 & H5 & H6) & H7 & H8).
      split_and!; [|done|done]. split_and!; [done|done|]. exists P'. split_and!; [done|done|done|].
      intros Hd. destruct (H6 Hd) as [Hm Hg]. split; [done|]. intros Hj. destruct (Hg Hj) as (c0 & Hc0 & _ & Ht). by exists c0.
Qed.
End ops.
