(* ===== verification/GenWorld.v ===== *)
(** * The engine host: the invariant of a serving phase

    Every submission is in the channel, queued, active or reported, exactly
    once; every slot is free or owned by one active sequence; the prefixes
    retained for reuse mirror the KV memory; and whatever a client has
    received or will receive fits the reference of its request. *)

From Stdlib Require Import ZArith Lia.
From stdpp Require Import base list strings option gmap.
From S2P Require Import Prelude Float StrUtil StopScan Engine GenOps GenLoop GenStep GenRef GenInv GenOpsOk.

Open Scope nat_scope.

Section world.
Context {E : Engine} {W : Env} {L : EnvLaws W}.
Variable jobs : nat → Job.
Variable cfg : HostCfg.

Abbreviation target := (target jobs).
Abbreviation gen_ok := (gen_ok jobs cfg).
Abbreviation log_ok := (log_ok jobs).
Abbreviation term_ok := (term_ok jobs).
Abbreviation gstep := (gstep jobs cfg).

(** ** Waiting requests *)

(** The rest of a run that has emitted [P] for the tokens [gen]. *)
Definition rest_ok (j : nat) (P : list string) (gen : list Token) (scan : StopScan) (finish : option FinishKind) : Prop :=
  match finish with
  | Some k => target j = MkOut P gen (RFin k)
  | None =>
      (max_tokens jobs j - length gen = 0 → target j = MkOut P gen (RFin Length))
      ∧ ∀ c, chain_of (jobs j) = Some c →
          target j = prepend P gen (ref_run (max_tokens jobs j - length gen) (prompt jobs j ++ gen) c scan)
  end.

Definition resume_ok (cx : Ctx) (j : nat) (st : ResumeState) : Prop :=
  rs_prompt_tokens st = prompt jobs j ∧ prompt jobs j ≠ []
  ∧ ∃ ps P, streamed j ps cx ∧ length ps = rs_pieces_sent st ∧ ps `prefix_of` P ∧ P `prefix_of` ro_pieces (target j)
            ∧ mapM token_to_piece (rs_generated_tokens st) = Some P
            ∧ (job_greedy (jobs j) = true → rest_ok j P (rs_generated_tokens st) (rs_scan st) (rs_finish st)).

(** A submission is fresh, or resumes an interrupted greedy generation. *)
Definition sup_ok (cx : Ctx) (sup : SupervisedGenerate) : Prop :=
  let j := jb_id (sg_job sup) in
  sg_job sup = jobs j
  ∧ match sg_resume sup with
    | None => streamed j [] cx
    | Some st => job_greedy (jobs j) = true ∧ resume_ok cx j st
    end.

Definition msg_ok (cx : Ctx) (m : HostMsg) : Prop := match m with Generate sup => sup_ok cx sup | _ => True end.
Definition msg_ids (inbox : list HostMsg) : list nat :=
  omap (λ m, match m with Generate sup => Some (jb_id (sg_job sup)) | _ => None end) inbox.

Lemma msg_ids_in j m inbox : j ∈ msg_ids [m] → m ∈ inbox → j ∈ msg_ids inbox.
Proof.
  unfold msg_ids. intros Hin Hm. apply list_elem_of_omap in Hin as (m' & ->%list_elem_of_singleton & Hm').
  apply list_elem_of_omap. by exists m.
Qed.

Definition pg_id (p : PreparedGen) : nat := jb_id (pg_job p).

Definition prep_ok (cx : Ctx) (p : PreparedGen) : Prop :=
  let j := pg_id p in
  pg_job p = jobs j ∧ pg_prompt_tokens p = prompt jobs j ∧ prompt jobs j ≠ []
  ∧ pg_remaining p = max_tokens jobs j - length (pg_prior_generated p)
  ∧ ∃ ps, streamed j ps cx ∧ length ps = pg_prior_pieces p ∧ ps ++ pg_unsent p `prefix_of` ro_pieces (target j)
          ∧ mapM token_to_piece (pg_prior_generated p) = Some (ps ++ pg_unsent p)
          ∧ rest_ok j (ps ++ pg_unsent p) (pg_prior_generated p) (pg_scan p) (pg_finish p).

Definition report_ok (cx : Ctx) (r : nat * GenOutcome) : Prop :=
  match r.2 with
  | Finished => True
  | Interrupted job st => job = jobs r.1 ∧ resume_ok cx r.1 st
  end.

(** ** The invariant *)
Definition slot_ok (cx : Ctx) (r : RetainedSlot) : Prop :=
  rt_seq r ∈ cx_free cx ∧ kv_of (cx_kv cx) (rt_seq r) = rt_history r.

Definition owners (active : list ActiveGen) (queue : list PreparedGen) (inbox : list HostMsg) (cx : Ctx) : list nat :=
  (g_id <$> live active) ++ (pg_id <$> queue) ++ msg_ids inbox ++ (cx_reports cx).*1.

(** [Φ i] is what the sequence at index [i] satisfies; [sub] are the jobs
    submitted so far. *)
Record Inv (Φ : nat → Ctx → ActiveGen → Prop) (sub : list nat) (active : list ActiveGen) (queue : list PreparedGen)
    (inbox : list HostMsg) (cx : Ctx) : Prop := {
  i_slots : (g_seq <$> live active) ++ cx_free cx ≡ₚ slots (hc_n_seq_max cfg);
  i_retained : Forall (slot_ok cx) (cx_retained cx);
  i_retained_nodup : NoDup (rt_seq <$> cx_retained cx);
  i_gens : ∀ i g, active !! i = Some g → g_done g = false → Φ i cx g;
  i_queue : Forall (prep_ok cx) queue;
  i_inbox : Forall (msg_ok cx) inbox;
  i_outbox : Forall (λ e, ((e.1, Finished) ∈ cx_reports cx) ∧ ∃ ps, streamed e.1 ps cx ∧ term_ok e.1 ps e.2) (cx_outbox cx);
  i_outbox_nodup : NoDup (cx_outbox cx).*1;
  i_reports : Forall (report_ok cx) (cx_reports cx);
  i_account : owners active queue inbox cx ≡ₚ sub;
  i_sub : NoDup sub;
  i_new : ∀ j, j ∉ sub → evs j (cx_out cx) = [];
  i_log : ∀ j, log_ok j (evs j (cx_out cx)) }.

(** ** Stability *)
Lemma slots_NoDup n : NoDup (slots n).
Proof. unfold slots. rewrite reverse_Permutation. apply NoDup_fmap; [apply _|apply NoDup_seq]. Qed.

Lemma live_app a b : live (a ++ b) = live a ++ live b.
Proof. apply filter_app. Qed.
Lemma live_cons g l : live (g :: l) = if g_done g then live l else g :: live l.
Proof. unfold live. rewrite filter_cons. case_decide as Hd; destruct (g_done g); congruence. Qed.
Lemma live_elem l i g : l !! i = Some g → g_done g = false → g ∈ live l.
Proof. intros Hi Hd. unfold live. apply list_elem_of_filter. split; [done|]. by eapply list_elem_of_lookup_2. Qed.

Section foreign.
Context (j : nat) (s : SeqId) (cx cx' : Ctx) (Hl : local j s cx cx').

Lemma resume_ok_local i st : i ≠ j → resume_ok cx i st → resume_ok cx' i st.
Proof.
  intros Hn (H1 & H2 & ps & P & H3 & H). split_and!; [done|done|]. exists ps, P. split; [|done]. by eapply streamed_local.
Qed.

Lemma msg_ok_local m : j ∉ msg_ids [m] → msg_ok cx m → msg_ok cx' m.
Proof.
  destruct m as [|sup| | | | | |]; try done. simpl. intros Hn [H1 H2]. split; [done|].
  assert (jb_id (sg_job sup) ≠ j) by (intros Hj; apply Hn; rewrite <- Hj; unfold msg_ids; simpl; set_solver).
  destruct (sg_resume sup) as [st|]; [|by eapply streamed_local].
  destruct H2. split; [done|]. by apply resume_ok_local.
Qed.

Lemma prep_ok_local p : pg_id p ≠ j → prep_ok cx p → prep_ok cx' p.
Proof.
  intros Hn (H1 & H2 & H3 & H4 & ps & H5 & H). split_and!; [done|done|done|done|]. exists ps. split; [|done].
  by eapply streamed_local.
Qed.

Lemma report_ok_local r : r.1 ≠ j → report_ok cx r → report_ok cx' r.
Proof.
  destruct r as [i [|job st]]; [done|]. unfold report_ok. simpl. intros Hn [H1 H2]. split; [done|]. by apply resume_ok_local.
Qed.
End foreign.

Definition stable (Φ : nat → Ctx → ActiveGen → Prop) : Prop :=
  ∀ i j s cx cx' g, local j s cx cx' → g_id g ≠ j → g_seq g ≠ s → Φ i cx g → Φ i cx' g.

Lemma gen_ok_stable b : stable (λ _, gen_ok b).
Proof. intros i j s cx cx' g. apply gen_ok_local. Qed.

(** Nobody else owns the job or the slot of a live sequence. *)
Section owner.
Context {Φ : nat → Ctx → ActiveGen → Prop} {sub : list nat} {l1 l2 : list ActiveGen} {g : ActiveGen}.
Context {queue : list PreparedGen} {inbox : list HostMsg} {cx : Ctx}.
Context (HI : Inv Φ sub (l1 ++ g :: l2) queue inbox cx) (Hd : g_done g = false).

Lemma owner_ids :
  NoDup (g_id g :: (g_id <$> live (l1 ++ l2)) ++ (pg_id <$> queue) ++ msg_ids inbox ++ (cx_reports cx).*1).
Proof.
  eapply NoDup_Permutation_proper; [|eapply (i_sub _ _ _ _ _ _ HI)].
  rewrite <- (i_account _ _ _ _ _ _ HI). unfold owners.
  rewrite !live_app, live_cons, Hd, !fmap_app, fmap_cons, <- !app_assoc. simpl.
  apply Permutation_middle.
Qed.

Lemma owner_slots : NoDup (g_seq g :: (g_seq <$> live (l1 ++ l2)) ++ cx_free cx).
Proof.
  eapply NoDup_Permutation_proper; [|apply (slots_NoDup (hc_n_seq_max cfg))].
  rewrite <- (i_slots _ _ _ _ _ _ HI). rewrite !live_app, live_cons, Hd, !fmap_app, fmap_cons, <- !app_assoc. simpl.
  apply Permutation_middle.
Qed.

Lemma not_parked e : e ∈ cx_outbox cx → e.1 ≠ g_id g.
Proof.
  pose proof owner_ids as Hn. inversion Hn as [|? ? Hnot _]; subst. rewrite !not_elem_of_app in Hnot.
  intros Hin Heq. apply Hnot. pose proof (proj1 (list.Forall_forall _ _) (i_outbox _ _ _ _ _ _ HI) e Hin) as [Hr _].
  apply (list_elem_of_fmap_2 fst) in Hr. simpl in Hr. by rewrite <- Heq.
Qed.

Lemma other_gen i g' : (l1 ++ g :: l2) !! i = Some g' → i ≠ length l1 → g_done g' = false →
  g_id g' ≠ g_id g ∧ g_seq g' ≠ g_seq g.
Proof.
  intros Hi Hn Hd'. assert (Hin : g' ∈ live (l1 ++ l2)).
  { apply list_elem_of_filter. split; [done|].
    apply lookup_app_Some in Hi as [Hi|[Hle Hi]]; [apply list_elem_of_lookup_2 in Hi; set_solver|].
    destruct (i - length l1) as [|k] eqn:Ek; [lia|]. simpl in Hi. apply list_elem_of_lookup_2 in Hi. set_solver. }
  pose proof owner_ids as H1. pose proof owner_slots as H2. inversion H1; inversion H2; subst.
  split; intros Heq.
  - apply H3. apply elem_of_app; left. rewrite <- Heq. by apply list_elem_of_fmap_2.
  - apply H7. apply elem_of_app; left. rewrite <- Heq. by apply list_elem_of_fmap_2.
Qed.
End owner.

Section gstep.
Context {Φ : nat → Ctx → ActiveGen → Prop} {sub : list nat} {l1 l2 : list ActiveGen} {g g' : ActiveGen}.
Context {queue : list PreparedGen} {inbox : list HostMsg} {cx cx' : Ctx} {b : bool}.
Context (HI : Inv Φ sub (l1 ++ g :: l2) queue inbox cx) (Hd : g_done g = false) (HG : gstep b cx g g' cx').

Lemma gs_seq_eq : g_seq g' = g_seq g.
Proof. unfold g_seq. by rewrite (gs_fix _ _ _ _ _ _ _ HG). Qed.
Lemma gs_id_eq : g_id g' = g_id g.
Proof. unfold g_id, g_job. by rewrite (gs_fix _ _ _ _ _ _ _ HG). Qed.

Lemma gstep_slots : (g_seq <$> live (l1 ++ g' :: l2)) ++ cx_free cx' ≡ₚ slots (hc_n_seq_max cfg).
Proof.
  rewrite <- (i_slots _ _ _ _ _ _ HI), !live_app, !live_cons, Hd. pose proof (gs_end _ _ _ _ _ _ _ HG) as He.
  destruct (g_done g').
  - rewrite (en_free _ _ _ _ He), !fmap_app. simpl. rewrite <- !app_assoc. apply Permutation_app_head.
    rewrite app_assoc. symmetry. apply Permutation_cons_append.
  - destruct He as [Hs _]. rewrite (sh_free _ _ Hs), !fmap_app. simpl. by rewrite gs_seq_eq.
Qed.

Lemma gstep_slot_old r : slot_ok cx r → slot_ok cx' r.
Proof.
  intros [H1 H2]. pose proof (owner_slots HI Hd) as Hn. inversion Hn as [|? ? Hnot _]; subst.
  assert (rt_seq r ≠ g_seq g) by (intros Heq; apply Hnot, elem_of_app; right; by rewrite <- Heq).
  split; [|by rewrite (lo_kv _ _ _ _ (gs_local _ _ _ _ _ _ _ HG))].
  pose proof (gs_end _ _ _ _ _ _ _ HG) as He. destruct (g_done g').
  - rewrite (en_free _ _ _ _ He). set_solver.
  - destruct He as [Hs _]. by rewrite (sh_free _ _ Hs).
Qed.

Lemma gstep_retained : Forall (slot_ok cx') (cx_retained cx') ∧ NoDup (rt_seq <$> cx_retained cx').
Proof.
  pose proof (gs_end _ _ _ _ _ _ _ HG) as He.
  assert (Hold : Forall (slot_ok cx') (cx_retained cx)).
  { eapply Forall_impl; [exact (i_retained _ _ _ _ _ _ HI)|]. intros r. apply gstep_slot_old. }
  pose proof (i_retained_nodup _ _ _ _ _ _ HI) as Hnd.
  destruct (g_done g'); [|destruct He as [Hs _]; by rewrite (sh_retained _ _ Hs)].
  destruct (en_kept _ _ _ _ He) as [Hk|(h & Hk & Hkv)]; rewrite Hk; [done|].
  pose proof (owner_slots HI Hd) as Hn. inversion Hn as [|? ? Hnot _]; subst.
  split.
  - apply Forall_app. split; [done|]. apply Forall_singleton. split; simpl; [|done].
    rewrite (en_free _ _ _ _ He). set_solver.
  - rewrite fmap_app. apply NoDup_app. split_and!; [done| |apply NoDup_singleton].
    simpl. intros s Hs ->%list_elem_of_singleton. apply Hnot, elem_of_app. right.
    apply list_elem_of_fmap in Hs as (r & Hseq & Hr). rewrite Hseq.
    by apply (proj1 (list.Forall_forall _ _) (i_retained _ _ _ _ _ _ HI)).
Qed.

Lemma gstep_account : owners (l1 ++ g' :: l2) queue inbox cx' ≡ₚ sub.
Proof.
  rewrite <- (i_account _ _ _ _ _ _ HI). unfold owners. rewrite !live_app, !live_cons, Hd.
  pose proof (gs_end _ _ _ _ _ _ _ HG) as He. destruct (g_done g').
  - rewrite (en_reports _ _ _ _ He), !fmap_app, fmap_cons. simpl. rewrite <- !app_assoc. apply Permutation_app_head.
    rewrite !app_assoc. symmetry. apply Permutation_cons_append.
  - destruct He as [Hs _]. rewrite (sh_reports _ _ Hs), !fmap_app, !fmap_cons. by rewrite gs_id_eq.
Qed.

Lemma gstep_reports_sub r : r ∈ cx_reports cx → r ∈ cx_reports cx'.
Proof.
  intros Hr. pose proof (gs_end _ _ _ _ _ _ _ HG) as He. destruct (g_done g').
  - rewrite (en_reports _ _ _ _ He). set_solver.
  - destruct He as [Hs _]. by rewrite (sh_reports _ _ Hs).
Qed.

Lemma gstep_reports : Forall (report_ok cx') (cx_reports cx').
Proof.
  pose proof (owner_ids HI Hd) as Hn. inversion Hn as [|? ? Hnot _]; subst. rewrite !not_elem_of_app in Hnot.
  assert (Hold : Forall (report_ok cx') (cx_reports cx)).
  { apply list.Forall_forall. intros r Hr. eapply report_ok_local; [apply (gs_local _ _ _ _ _ _ _ HG)| |].
    - intros Heq. apply Hnot. rewrite <- Heq. by apply list_elem_of_fmap_2.
    - by apply (proj1 (list.Forall_forall _ _) (i_reports _ _ _ _ _ _ HI)). }
  pose proof (gs_end _ _ _ _ _ _ _ HG) as He. destruct (g_done g').
  - rewrite (en_reports _ _ _ _ He). apply Forall_app. split; [done|]. by apply Forall_singleton.
  - destruct He as [Hs _]. by rewrite (sh_reports _ _ Hs).
Qed.

Lemma gstep_outbox :
  Forall (λ e, (e.1, Finished) ∈ cx_reports cx' ∧ ∃ ps, streamed e.1 ps cx' ∧ term_ok e.1 ps e.2) (cx_outbox cx')
  ∧ NoDup (cx_outbox cx').*1.
Proof.
  pose proof (not_parked HI Hd) as Hne.
  assert (Hold : Forall (λ e, (e.1, Finished) ∈ cx_reports cx' ∧ ∃ ps, streamed e.1 ps cx' ∧ term_ok e.1 ps e.2) (cx_outbox cx)).
  { apply list.Forall_forall. intros e Hin.
    pose proof (proj1 (list.Forall_forall _ _) (i_outbox _ _ _ _ _ _ HI) e Hin) as (Hr & ps & Hs & Ht).
    split; [by apply gstep_reports_sub|]. exists ps. split; [|done].
    eapply streamed_local; [apply (gs_local _ _ _ _ _ _ _ HG)|by apply Hne|done]. }
  pose proof (i_outbox_nodup _ _ _ _ _ _ HI) as Hnd.
  pose proof (gs_end _ _ _ _ _ _ _ HG) as He. destruct (g_done g').
  - destruct (en_settled _ _ _ _ He) as [[Ho _]|(ps & ev & Ho & Hs & Ht)]; rewrite Ho; [done|]. split.
    + apply Forall_app. split; [done|]. apply Forall_singleton. simpl.
      split; [|by exists ps]. rewrite (en_reports _ _ _ _ He). set_solver.
    + rewrite fmap_app. apply NoDup_app. split_and!; [done| |apply NoDup_singleton].
      simpl. intros j Hj Hj'%list_elem_of_singleton. apply list_elem_of_fmap in Hj as (e & Heq & Hin). apply (Hne e); congruence.
  - destruct He as [Hs _]. by rewrite (sh_outbox _ _ Hs).
Qed.

Lemma gstep_log j : log_ok j (evs j (cx_out cx')).
Proof.
  destruct (decide (j = g_id g)) as [->|Hn].
  - pose proof (gs_end _ _ _ _ _ _ _ HG) as He. destruct (g_done g').
    + destruct (en_settled _ _ _ _ He) as [[_ Hl]|(ps & ev & Ho & Hs & Ht)]; [done|]. eapply streamed_log; [done|].
      destruct ev; [done|destruct Ht; by subst|done].
    + destruct He as [_ ((_ & _ & P & H1 & (ps & H2 & _ & H3 & _) & _) & _)]. rewrite <- gs_id_eq.
      eapply streamed_log; [done|]. by etrans.
  - rewrite (lo_evs _ _ _ _ (gs_local _ _ _ _ _ _ _ HG)) by done. apply (i_log _ _ _ _ _ _ HI).
Qed.

(** An operation on one sequence keeps the invariant. *)
Lemma inv_gstep Φ' :
  stable Φ → (∀ i cx g, i ≠ length l1 → Φ i cx g → Φ' i cx g) → (gen_ok b cx' g' → Φ' (length l1) cx' g') →
  Inv Φ' sub (l1 ++ g' :: l2) queue inbox cx'.
Proof.
  intros Hst Hoth Hthis. pose proof (owner_ids HI Hd) as Hn. inversion Hn as [|? ? Hnot _]; subst.
  rewrite !not_elem_of_app in Hnot. destruct Hnot as (Hn1 & Hn2 & Hn3 & Hn4).
  pose proof (gs_local _ _ _ _ _ _ _ HG) as Hl.
  split.
  - apply gstep_slots.
  - apply gstep_retained.
  - apply gstep_retained.
  - intros i gi Hi Hdi. destruct (decide (i = length l1)) as [->|Hne].
    + rewrite list_lookup_middle in Hi by done. injection Hi as ->. apply Hthis.
      pose proof (gs_end _ _ _ _ _ _ _ HG) as He. rewrite Hdi in He. apply He.
    + assert (Hi' : (l1 ++ g :: l2) !! i = Some gi).
      { apply lookup_app_Some in Hi as [Hi|[Hle Hi]]; [by apply lookup_app_l_Some|].
        rewrite lookup_app_r by done. by destruct (i - length l1) eqn:Ek; [lia|]. }
      apply Hoth; [done|]. destruct (other_gen HI Hd i gi) as [? ?]; [done..|].
      eapply Hst; [exact Hl|done|done|]. by apply (i_gens _ _ _ _ _ _ HI).
  - apply list.Forall_forall. intros p Hp. eapply prep_ok_local; [exact Hl| |].
    + intros Heq. apply Hn2. rewrite <- Heq. by apply list_elem_of_fmap_2.
    + by apply (proj1 (list.Forall_forall _ _) (i_queue _ _ _ _ _ _ HI)).
  - apply list.Forall_forall. intros m Hm. eapply msg_ok_local; [exact Hl| |].
    + intros Hin. apply Hn3. by eapply msg_ids_in.
    + by apply (proj1 (list.Forall_forall _ _) (i_inbox _ _ _ _ _ _ HI)).
  - apply gstep_outbox.
  - apply gstep_outbox.
  - apply gstep_reports.
  - apply gstep_account.
  - apply (i_sub _ _ _ _ _ _ HI).
  - intros j Hj. rewrite (lo_evs _ _ _ _ Hl); [by apply (i_new _ _ _ _ _ _ HI)|]. intros ->. apply Hj.
    rewrite <- (i_account _ _ _ _ _ _ HI). unfold owners. rewrite live_app, live_cons, Hd. set_solver.
  - apply gstep_log.
Qed.
End gstep.
End world.
