(* ===== verification/GenSweep.v ===== *)
(** * The engine host: the sweeps and the pump keep the invariant

    Phases 1 to 4 of the loop. *)

From Stdlib Require Import ZArith Lia.
From stdpp Require Import base list strings option gmap.
From S2P Require Import Prelude Float StrUtil StopScan Engine GenOps GenLoop GenStep GenRef GenInv GenOpsOk GenWorld.

Open Scope nat_scope.

Section sweep.
Context {E : Engine} {W : Env} {EL : EngineLaws E} {L : EnvLaws W}.
Variable jobs : nat → Job.
Variable cfg : HostCfg.

Abbreviation target := (target jobs).
Abbreviation gen_ok := (gen_ok jobs cfg).
Abbreviation log_ok := (log_ok jobs).
Abbreviation term_ok := (term_ok jobs).
Abbreviation gstep := (gstep jobs cfg).
Abbreviation Inv := (Inv jobs cfg).
Abbreviation prep_ok := (prep_ok jobs).
Abbreviation msg_ok := (msg_ok jobs).
Abbreviation report_ok := (report_ok jobs).

(** Between the steps of a session, its sequences are sound unless torn. *)
Definition good (_ : nat) (cx : Ctx) (g : ActiveGen) : Prop := gen_ok (negb (cx_torn cx)) cx g.

Lemma good_stable : stable good.
Proof. intros i j s cx cx' g Hl ? ? Hg. unfold good. rewrite (lo_torn _ _ _ _ Hl). by eapply gen_ok_local. Qed.

(** ** Loops over the active sequences *)
Definition keeps (f : ActiveGen → M ActiveGen) : Prop :=
  ∀ g cx, g_done g = false → (∀ e, e ∈ cx_outbox cx → e.1 ≠ g_id g) → gen_ok (negb (cx_torn cx)) cx g → wp (f g) (gstep (negb (cx_torn cx)) cx g) cx.

Lemma each_spec f sub queue inbox l2 l1 cx :
  keeps f → Forall (λ g, g_done g = false) l2 → Inv good sub (l1 ++ l2) queue inbox cx →
  wp (each f l2) (λ l2' cx', Inv good sub (l1 ++ l2') queue inbox cx' ∧ cx_torn cx' = cx_torn cx) cx.
Proof.
  intros Hf. revert l1 cx. induction l2 as [|g l2 IH]; intros l1 cx Hd HI; simpl; [by wp|].
  inversion Hd as [|? ? Hg Hd']; subst. wp. eapply wp_mono.
  { apply Hf; [done|by apply (not_parked jobs cfg HI)|]. apply (i_gens _ _ _ _ _ _ _ _ HI (length l1)); [|done]. by apply list_lookup_middle. }
  intros g' cx' HG. pose proof (lo_torn _ _ _ _ (gs_local _ _ _ _ _ _ _ HG)) as Ht.
  assert (HI' : Inv good sub (l1 ++ g' :: l2) queue inbox cx').
  { eapply (inv_gstep jobs cfg HI Hg HG); [apply good_stable|done|]. intros Hgo. unfold good. by rewrite Ht. }
  rewrite cons_middle, app_assoc in HI'. wp. eapply wp_mono; [apply (IH (l1 ++ [g'])); done|].
  intros l2' cx'' [HI'' Ht'']. wp. rewrite <- app_assoc in HI''. split; [done|congruence].
Qed.

Lemma live_idemp l : live (live l) = live l.
Proof. unfold live. by rewrite list_filter_filter_l. Qed.
Lemma live_all l : Forall (λ g, g_done g = false) (live l).
Proof. apply list.Forall_forall. intros g Hg. unfold live in Hg. by apply list_elem_of_filter in Hg as [? _]. Qed.
Lemma live_id l : Forall (λ g, g_done g = false) l → live l = l.
Proof. intros Hl. apply filter_all. by apply list.Forall_forall. Qed.

Lemma inv_live Φ sub active queue inbox cx :
  Inv (λ _, Φ) sub active queue inbox cx → Inv (λ _, Φ) sub (live active) queue inbox cx.
Proof.
  intros [I1 I2 I3 I4 I5 I6 I7 I8 I9 I10 I11 I12 I13]. split; try done.
  - by rewrite live_idemp.
  - intros i g Hi Hd. apply list_elem_of_lookup_2 in Hi. apply list_elem_of_filter in Hi as [_ Hi].
    apply list_elem_of_lookup in Hi as [k Hk]. by eapply I4.
  - unfold owners in *. by rewrite live_idemp.
Qed.

Lemma inv_live_good sub active queue inbox cx :
  Inv good sub active queue inbox cx → Inv good sub (live active) queue inbox cx.
Proof. exact (inv_live (good 0) sub active queue inbox cx). Qed.

(** ** Changes that concern one job outside the active sequences *)
Record moved (j : nat) (cx cx' : Ctx) : Prop := {
  mv_local : ∀ s, local j s cx cx';
  mv_kv : cx_kv cx' = cx_kv cx;
  mv_free : cx_free cx' = cx_free cx;
  mv_retained : cx_retained cx' = cx_retained cx }.

Lemma inv_move Φ sub active queue inbox cx queue' inbox' cx' j :
  stable Φ → Inv Φ sub active queue inbox cx → moved j cx cx' → j ∈ sub → j ∉ (g_id <$> live active) →
  Forall (λ p, (p ∈ queue ∧ pg_id p ≠ j) ∨ prep_ok cx' p) queue' →
  Forall (λ m, (m ∈ inbox ∧ j ∉ msg_ids [m]) ∨ msg_ok cx' m) inbox' →
  Forall (λ r, (r ∈ cx_reports cx ∧ r.1 ≠ j) ∨ report_ok cx' r) (cx_reports cx') →
  Forall (λ e, ((e.1, Finished) ∈ cx_reports cx')
             ∧ ((e ∈ cx_outbox cx ∧ e.1 ≠ j) ∨ ∃ ps, streamed e.1 ps cx' ∧ term_ok e.1 ps e.2)) (cx_outbox cx') →
  NoDup (cx_outbox cx').*1 →
  owners active queue' inbox' cx' ≡ₚ sub → log_ok j (evs j (cx_out cx')) →
  Inv Φ sub active queue' inbox' cx'.
Proof.
  intros Hst [I1 I2 I3 I4 I5 I6 I7 I8 I9 I10 I11 I12 I13] [M1 M2 M3 M4] Hj Hna Hq Hi Hr Ho Hond Hown Hlog.
  rewrite list.Forall_forall in I5. rewrite list.Forall_forall in I6. rewrite list.Forall_forall in I7. rewrite list.Forall_forall in I9.
  split; try done.
  - by rewrite M3.
  - rewrite M4. eapply Forall_impl; [exact I2|]. intros r. unfold slot_ok. by rewrite M2, M3.
  - by rewrite M4.
  - intros i g Hgi Hgd.
    assert (g_id g ≠ j) by (intros <-; apply Hna; apply list_elem_of_fmap_2; by eapply live_elem).
    eapply (Hst _ j (g_seq g + 1)%Z); [apply M1|done|lia|]. by apply I4.
  - eapply Forall_impl; [exact Hq|]. intros p [[Hp ?]|Hp]; [|done]. eapply prep_ok_local; [apply (M1 0%Z)|done|by apply I5].
  - eapply Forall_impl; [exact Hi|]. intros m [[Hm ?]|Hm]; [|done]. eapply msg_ok_local; [apply (M1 0%Z)|done|by apply I6].
  - eapply Forall_impl; [exact Ho|]. intros e (Hrep & [[He Hne]|He]); (split; [done|]); [|done].
    destruct (I7 _ He) as (_ & ps & Hs & Ht). exists ps. split; [|done]. eapply streamed_local; [apply (M1 0%Z)|done|done].
  - eapply Forall_impl; [exact Hr|]. intros r [[Hr' ?]|Hr']; [|done]. eapply report_ok_local; [apply (M1 0%Z)|done|by apply I9].
  - intros i Hni. rewrite (lo_evs _ _ _ _ (M1 0%Z)); [by apply I12|]. intros ->. done.
  - intros i. destruct (decide (i = j)) as [->|Hne]; [done|]. rewrite (lo_evs _ _ _ _ (M1 0%Z)) by done. apply I13.
Qed.

(** ** 1. Parked terminals *)
Lemma inv_unpark Φ sub active queue inbox cx cx' k r j ev :
  stable Φ → Inv Φ sub active queue inbox (upd_outbox (k ++ (j, ev) :: r) cx) →
  quiet j cx cx' → (evs j (cx_out cx') = evs j (cx_out cx) ∨ evs j (cx_out cx') = evs j (cx_out cx) ++ [ev]) →
  Inv Φ sub active queue inbox (upd_outbox (k ++ r) cx').
Proof.
  intros Hst HI Hq Hout. pose proof HI as [I1 I2 I3 I4 I5 I6 I7 I8 I9 I10 I11 I12 I13]. simpl in *.
  rewrite Forall_app, Forall_cons in I7. destruct I7 as (I7k & (Hrep & ps & Hs & Ht) & I7r). simpl in *.
  rewrite fmap_app, fmap_cons in I8. simpl in I8. rewrite <- Permutation_middle in I8. inversion I8 as [|? ? Hnj Hnd]; subst.
  assert (Hown : NoDup (owners active queue inbox cx)) by (by rewrite I10).
  assert (Hrin : j ∈ (cx_reports cx).*1) by (by apply (list_elem_of_fmap_2 fst) in Hrep).
  unfold owners in Hown. rewrite !NoDup_app in Hown. destruct Hown as (_ & Hna & _ & Hnq & _ & Hnm & Hnr).
  destruct Hq as [[Q1 Q2 Q3 Q4] Qk Ql].
  apply (inv_move _ _ _ _ _ _ _ _ _ j Hst HI); simpl.
  - split; simpl; try done. intros s. destruct (Ql s). by split.
  - rewrite <- I10. unfold owners. set_solver.
  - intros Hin. apply (Hna _ Hin). set_solver.
  - apply list.Forall_forall. intros p Hp. left. split; [done|]. intros <-.
    apply (Hnq (pg_id p)); [by apply list_elem_of_fmap_2|set_solver].
  - apply list.Forall_forall. intros m Hm. left. split; [done|]. intros Hin.
    apply (Hnm j); [|done]. by apply (msg_ids_in j m).
  - rewrite Q4. rewrite list.Forall_forall in I9 |- *. intros [i o] Hr.
    destruct (decide (i = j)) as [->|]; [right|by left].
    assert (o = Finished) as ->; [|done].
    apply list_elem_of_lookup in Hr as [x Hx]. apply list_elem_of_lookup in Hrep as [y Hy].
    assert (x = y) as <-; [|congruence].
    eapply NoDup_lookup; [exact Hnr| |]; rewrite list_lookup_fmap; [by rewrite Hx|by rewrite Hy].
  - rewrite Q4. apply list.Forall_forall. intros e He.
    assert (He' : e ∈ k ++ (j, ev) :: r) by set_solver.
    assert (e.1 ≠ j).
    { intros <-. apply Hnj. rewrite <- fmap_app. by apply list_elem_of_fmap_2. }
    split; [|by left]. rewrite list.Forall_forall in I7k. rewrite list.Forall_forall in I7r.
    apply elem_of_app in He as [He|He]; [by apply I7k|by apply I7r].
  - by rewrite fmap_app.
  - unfold owners in *. simpl in *. by rewrite Q4.
  - unfold streamed in Hs. destruct Hout as [->| ->]; [apply I13|]. eapply (term_log _ _ ps ev); [exact Hs| |done].
    destruct ev; [done|destruct Ht; by subst|done].
Qed.

Lemma inv_ticked Φ sub active queue inbox cx :
  stable Φ → Inv Φ sub active queue inbox cx → Inv Φ sub active queue inbox (ticked cx).
Proof.
  intros Hst [I1 I2 I3 I4 I5 I6 I7 I8 I9 I10 I11 I12 I13]. split; try done. intros i g Hi Hd.
  eapply (Hst _ (S (g_id g)) (g_seq g + 1)%Z cx); [apply quiet_ticked|lia|lia|]. by apply I4.
Qed.

Lemma retry_terminals_spec Φ sub active queue inbox r k cx :
  stable Φ → Inv Φ sub active queue inbox (upd_outbox (k ++ r) cx) →
  wp (retry_terminals r) (λ r' cx', Inv Φ sub active queue inbox (upd_outbox (k ++ r') cx') ∧ cx_torn cx' = cx_torn cx) cx.
Proof.
  intros Hst. revert k cx. induction r as [|[j ev] r IH]; intros k cx HI; simpl; [by wp|]. wp.
  apply try_send_spec; intros Hg; wp.
  - eapply wp_mono; [apply (IH k)|intros r' cx' H'; by wp].
    eapply inv_unpark; [done|done|apply quiet_ticked|by left].
  - eapply wp_mono; [apply (IH (k ++ [(j, ev)]))|].
    + rewrite <- app_assoc. by apply (inv_ticked _ _ _ _ _ _ Hst) in HI.
    + intros r' cx' [H' ?]. wp. by rewrite <- app_assoc in H'.
  - eapply wp_mono; [apply (IH k)|intros r' cx' H'; by wp].
    eapply inv_unpark; [done|done|apply quiet_sent|]. right. simpl. by rewrite evs_snoc_eq.
Qed.

Lemma retry_outbox_spec sub active queue inbox cx :
  Inv good sub active queue inbox cx →
  wp retry_outbox (λ _ cx', Inv good sub active queue inbox cx' ∧ cx_torn cx' = cx_torn cx) cx.
Proof.
  intros HI. unfold retry_outbox. wp. eapply wp_mono.
  { apply (retry_terminals_spec good sub active queue inbox _ []); [apply good_stable|]. by destruct cx. }
  intros ob cx' [HI' Ht]. by wp.
Qed.

(** ** 2. Held pieces *)
Lemma drain_held_spec held g P cx :
  delivered cx (set_held held g) P →
  wp (drain_held held g)
    (λ g' cx', (∃ h n b, g' = redeliver h n b g) ∧ delivered cx' g' P ∧ quiet (g_id g) cx cx') cx.
Proof.
  revert g cx. induction held as [|p held IH]; intros g cx Hdel; simpl.
  - wp. split_and!; [by exists [], (g_pieces_sent g), (g_stalled g); destruct g|done|apply quiet_refl].
  - destruct Hdel as (ps & H1 & H2 & H3 & H4). simpl in *.
    wp. apply try_send_spec; intros Hg; wp.
    + split_and!; [by exists held, (g_pieces_sent g), (g_stalled g); destruct g| |apply quiet_ticked].
      exists ps. split_and!; [done|done|done|]. intros Hg'. destruct (gone_ticked _ _ Hg Hg').
    + split_and!; [by exists (p :: held), (g_pieces_sent g), true; destruct g| |apply quiet_ticked].
      exists ps. split_and!; [done|done|done|]. intros _. by apply H4.
    + specialize (H4 Hg). eapply wp_mono; [apply IH|].
      * exists (ps ++ [p]). split_and!.
        -- unfold streamed in *. simpl. gs. change (g_id (set_held _ g)) with (g_id g) in H1. rewrite evs_snoc_eq, H1. by rewrite fmap_app.
        -- rewrite length_app. simpl. lia.
        -- rewrite <- H4. exists held. by rewrite <- app_assoc.
        -- intros _. simpl. by rewrite <- app_assoc.
      * intros g' cx' ((h & n & st & ->) & Hdel & Hq). cbv beta.
        split_and!; [by exists h, n, st; destruct g|done|]. eapply quiet_trans; [apply quiet_sent|done].
Qed.

Lemma sweep_held_keeps : keeps (sweep_held cfg).
Proof.
  intros g cx Hd _ ((Ho & Hf & P & H1 & H2 & H3 & H4) & Hph & Hkv). unfold sweep_held. wp.
  eapply wp_mono; [apply (drain_held_spec _ _ P); by destruct g|].
  intros g' cx' ((h & n & st & ->) & Hdel & Hq). cbv beta.
  assert (Hok : gen_ok (negb (cx_torn cx)) cx' (redeliver h n st g)).
  { split_and!; [split_and!; [done|done|]; exists P; by split_and!|done|].
    intros S1 S2. rewrite (qu_kv _ _ _ Hq). by apply Hkv. }
  assert (Hstay : gstep (negb (cx_torn cx)) cx g (redeliver h n st g) cx').
  { split; [apply Hq|done|]. simpl. rewrite Hd. split; [apply Hq|done]. }
  destruct (g_held (redeliver h n st g)) eqn:Eh; [|by wp]. simpl g_done. rewrite Hd.
  destruct (g_terminal (redeliver h n st g)) as [[k|e]|] eqn:Et; [| |by wp].
  - eapply wp_mono; [apply (finish_seq_spec jobs cfg (negb (cx_torn cx)) _ k _ cx' P)|].
    + done.
    + done.
    + done.
    + done.
    + unfold promise in H3. simpl in Et. by rewrite Et in H3.
    + unfold retain_after_drain. rewrite !andb_true_iff. intros [[_ Hpre] Hsus]. gs.
      destruct Hok as (_ & _ & Hkv'). destruct Hkv' as [K1 K2].
      * by apply negb_true_iff.
      * intros e. rewrite Et. done.
      * unfold prefilling in K2. replace (_ <? _) with false in K2; [|symmetry; by apply Nat.ltb_ge, Nat.leb_le].
        etrans; [exact K1|]. apply take_ge. by rewrite K2.
    + intros g' cx'' HG. eapply gstep_quiet; [exact Hq| |exact HG]; done.
  - eapply wp_mono; [apply (fail_seq_spec jobs cfg (negb (cx_torn cx)))|].
    + done.
    + gs. destruct Hok as (Hs & Hph' & Hkv'). simpl in Et. destruct g; simpl in *. by subst.
    + intros g' cx'' HG. eapply gstep_quiet; [exact Hq| |exact HG]; done.
Qed.

(** ** 4. Disconnected and stalled clients *)
Lemma sweep_closed_keeps : keeps sweep_closed.
Proof.
  intros g cx Hd _ Hg. unfold sweep_closed, is_closed. rewrite Hd. wp.
  destruct (gone (g_id g) (cx_tick cx)).
  - destruct Hg as ((Ho & Hf & P & H1 & H2 & _) & _).
    eapply wp_mono; [apply (cancel_seq_spec jobs cfg (negb (cx_torn cx)) g (ticked cx) P); [done|done|]|].
    + eapply (delivered_local (S (g_id g)) 0%Z cx); [apply quiet_ticked|lia|done].
    + intros g' cx' HG. eapply gstep_quiet; [apply quiet_ticked| |exact HG]; done.
  - wp. split; [apply quiet_ticked|done|]. rewrite Hd. split; [by apply (quiet_ticked 0)|].
    eapply (gen_ok_local _ _ _ (S (g_id g)) (g_seq g + 1)%Z cx); [apply quiet_ticked|lia|lia|done].
Qed.

Lemma sweep_stalled_keeps : keeps sweep_stalled.
Proof.
  intros g cx Hd Hnp Hg. unfold sweep_stalled. rewrite Hd. simpl.
  assert (Hstay : gstep (negb (cx_torn cx)) cx g g (ticked cx)).
  { split; [apply quiet_ticked|done|]. rewrite Hd. split; [by apply (quiet_ticked 0)|].
    eapply (gen_ok_local _ _ _ (S (g_id g)) (g_seq g + 1)%Z cx); [apply quiet_ticked|lia|lia|done]. }
  destruct (negb (g_stalled g)); wp.
  { split; [apply local_refl|done|]. rewrite Hd. split; [apply shared_refl|done]. }
  destruct (grace_over (cx_tick cx)); [|by wp].
  destruct Hg as ((Ho & Hf & P & H1 & H2 & _) & _). unfold cancel_seq, report_gen, report, release_seq, seq_rm_all.
  rewrite Ho. wp. simpl. gs. rewrite filter_all by done. split; [|done|].
  - split; simpl; auto. intros s' Hn. rewrite kv_of_delete. case_decide; congruence.
  - simpl. split; simpl; auto; [by left|]. left. split; [done|]. destruct H2 as (ps & Hs & _ & Hp & _).
    eapply streamed_log; [exact Hs|]. by etrans.
Qed.

(** ** The end of a request that is not active *)
Lemma inv_settle Φ sub active queue inbox queue' inbox' cx cx' j :
  stable Φ → Inv Φ sub active queue inbox cx → settles jobs j cx cx' → queue' ⊆ queue → inbox' ⊆ inbox →
  j :: owners active queue' inbox' cx ≡ₚ owners active queue inbox cx →
  Inv Φ sub active queue' inbox' (upd_reports (cx_reports cx' ++ [(j, Finished)]) cx').
Proof.
  intros Hst HI [Hse Ql Qk Q1 Q2 Q4] Hsq Hsi Hone. pose proof HI as [I1 I2 I3 I4 I5 I6 I7 I8 I9 I10 I11 I12 I13].
  assert (Hown : NoDup (j :: owners active queue' inbox' cx)) by (by rewrite Hone, I10).
  inversion Hown as [|? ? Hnot _]; subst. unfold owners in Hnot. rewrite !not_elem_of_app in Hnot.
  destruct Hnot as (N1 & N2 & N3 & N4).
  assert (Hne : ∀ e, e ∈ cx_outbox cx → ((e.1, Finished) ∈ cx_reports cx) ∧ e.1 ≠ j).
  { intros e He. destruct (proj1 (list.Forall_forall _ _) I7 _ He) as [Hr _]. split; [done|]. intros Heq. apply N4.
    rewrite <- Heq. by apply (list_elem_of_fmap_2 fst) in Hr. }
  apply (inv_move _ _ _ _ _ _ _ _ _ j Hst HI); simpl; rewrite ?Q4.
  - split; simpl; try done. intros s. destruct (Ql s). by split.
  - rewrite <- I10, <- Hone. set_solver.
  - done.
  - apply list.Forall_forall. intros p Hp. left. split; [by apply Hsq|]. intros Heq.
    apply N2. rewrite <- Heq. by apply list_elem_of_fmap_2.
  - apply list.Forall_forall. intros m Hm. left. split; [by apply Hsi|]. intros Hin. apply N3. by apply (msg_ids_in j m).
  - apply Forall_app. split; [|by apply Forall_singleton; right]. apply list.Forall_forall. intros r Hr. left.
    split; [done|]. intros Heq. apply N4. rewrite <- Heq. by apply list_elem_of_fmap_2.
  - assert (Hold : Forall (λ e, (e.1, Finished) ∈ cx_reports cx ++ [(j, Finished)]
             ∧ ((e ∈ cx_outbox cx ∧ e.1 ≠ j) ∨ ∃ ps, streamed e.1 ps cx' ∧ term_ok e.1 ps e.2)) (cx_outbox cx)).
    { apply list.Forall_forall. intros e He. destruct (Hne e He). split; [set_solver|by left]. }
    destruct Hse as [[-> _]|(ps & ev & -> & Hs & Ht)]; [done|]. apply Forall_app. split; [done|].
    apply Forall_singleton. simpl. split; [set_solver|]. right. by exists ps.
  - destruct Hse as [[-> _]|(ps & ev & -> & Hs & Ht)]; [done|]. rewrite fmap_app. apply NoDup_app.
    split_and!; [done| |apply NoDup_singleton]. simpl. intros i Hi Hij%list_elem_of_singleton.
    apply list_elem_of_fmap in Hi as (e & Heq & He). destruct (Hne e He). congruence.
  - rewrite <- I10, <- Hone. unfold owners. simpl. rewrite fmap_app. simpl. rewrite !app_assoc. symmetry.
    apply Permutation_cons_append.
  - destruct Hse as [[_ Hl]|(ps & ev & _ & Hs & Ht)]; [done|]. eapply streamed_log; [done|].
    destruct ev; [done|destruct Ht; by subst|done].
Qed.

Lemma quiet_settles j cx cx' ps Φ sub active queue inbox :
  Inv Φ sub active queue inbox cx → quiet j cx cx' → streamed j ps cx →
  (evs j (cx_out cx') = evs j (cx_out cx) ∨ ∃ ev, evs j (cx_out cx') = evs j (cx_out cx) ++ [ev] ∧ term_ok j ps ev) →
  settles jobs j cx cx'.
Proof.
  intros HI [[Q1 Q2 Q3 Q4] Qk Ql] Hs Hev. split; try done. left. split; [done|].
  destruct Hev as [->|(ev & -> & Ht)]; [apply (i_log _ _ _ _ _ _ _ _ HI)|]. eapply term_log; [done| |done].
  destruct ev; [done|destruct Ht; by subst|done].
Qed.
End sweep.
