(* ===== verification/GenPump.v ===== *)
(** * The engine host: arriving and queued requests keep the invariant *)

From Stdlib Require Import ZArith Lia.
From stdpp Require Import base list strings option gmap.
From S2P Require Import Prelude Float StrUtil StopScan Engine GenOps GenLoop GenStep GenRef GenInv GenOpsOk GenWorld GenSweep.

Open Scope nat_scope.

Section pump.
Context {E : Engine} {W : Env} {EL : EngineLaws E} {L : EnvLaws W}.
Variable jobs : nat → Job.
Variable cfg : HostCfg.

Abbreviation target := (target jobs).
Abbreviation term_ok := (term_ok jobs).
Abbreviation Inv := (Inv jobs cfg).
Abbreviation good := (good jobs cfg).
Abbreviation prep_ok := (prep_ok jobs).
Abbreviation sup_ok := (sup_ok jobs).
Abbreviation rest_ok := (rest_ok jobs).

Section phi.
Context {Φ : nat → Ctx → ActiveGen → Prop} (Hst : stable Φ) {sub : list nat} {active : list ActiveGen}.

(** ** The queue *)
Lemma sweep_queue_spec inbox q k cx :
  Inv Φ sub active (k ++ q) inbox cx →
  wp (sweep_queue q) (λ q' cx', Inv Φ sub active (k ++ q') inbox cx' ∧ cx_torn cx' = cx_torn cx) cx.
Proof.
  revert k cx. induction q as [|p q IH]; intros k cx HI; simpl; [by wp|]. unfold is_closed. wp.
  destruct (gone _ _).
  - unfold report. wp. eapply wp_mono; [apply (IH k)|by intros]. simpl.
    assert (Hp : prep_ok cx p) by (pose proof (i_queue _ _ _ _ _ _ _ _ HI) as Hq; rewrite Forall_app, Forall_cons in Hq; tauto).
    destruct Hp as (_ & _ & _ & _ & ps & Hs & _).
    apply (inv_settle jobs cfg _ _ _ _ _ _ _ cx (ticked cx) (pg_id p) Hst HI);
      [|set_solver|done|].
    { eapply quiet_settles; [exact HI|apply quiet_ticked|exact Hs|by left]. }
    unfold owners. rewrite !fmap_app, fmap_cons, <- !app_assoc. simpl. rewrite <- !Permutation_middle. done.
  - wp. eapply wp_mono; [apply (IH (k ++ [p]))|].
    + rewrite <- app_assoc. by apply inv_ticked.
    + intros q' cx' [HI' ?]. wp. by rewrite <- app_assoc in HI'.
Qed.

(** ** The inbox *)
Section msg.
Context {queue : list PreparedGen} {inbox : list HostMsg} {sup : SupervisedGenerate}.

Lemma head_msg cx : Inv Φ sub active queue (Generate sup :: inbox) cx → sup_ok cx sup.
Proof. intros HI. pose proof (i_inbox _ _ _ _ _ _ _ _ HI) as Hm. by inversion Hm. Qed.

Lemma owners_head cx :
  jb_id (sg_job sup) :: owners active queue inbox cx ≡ₚ owners active queue (Generate sup :: inbox) cx.
Proof. unfold owners, msg_ids. simpl. by rewrite <- !Permutation_middle. Qed.

(** The request ends here, with an event that fits or none. *)
Lemma end_msg cx cx' ps :
  Inv Φ sub active queue (Generate sup :: inbox) cx → quiet (jb_id (sg_job sup)) cx cx' → streamed (jb_id (sg_job sup)) ps cx →
  (evs (jb_id (sg_job sup)) (cx_out cx') = evs (jb_id (sg_job sup)) (cx_out cx)
   ∨ ∃ ev, evs (jb_id (sg_job sup)) (cx_out cx') = evs (jb_id (sg_job sup)) (cx_out cx) ++ [ev]
           ∧ term_ok (jb_id (sg_job sup)) ps ev) →
  Inv Φ sub active queue inbox (upd_reports (cx_reports cx' ++ [(jb_id (sg_job sup), Finished)]) cx').
Proof.
  intros HI Hq Hs Hev. eapply (inv_settle jobs cfg _ _ _ _ _ _ _ _ _ _ Hst HI);
    [by eapply quiet_settles|done|set_solver|apply owners_head].
Qed.

Lemma finish_with_spec cx ev ps :
  Inv Φ sub active queue (Generate sup :: inbox) cx → streamed (jb_id (sg_job sup)) ps cx →
  term_ok (jb_id (sg_job sup)) ps ev →
  wp (_ ← try_send (jb_id (sg_job sup)) ev; _ ← report (jb_id (sg_job sup)) Finished; mret (@None PreparedGen))
    (λ o cx', Inv Φ sub active (queue ++ option_list o) inbox cx' ∧ cx_torn cx' = cx_torn cx) cx.
Proof.
  intros HI Hs Ht. unfold report. wp. apply try_send_spec; intros Hg; wp; simpl; rewrite app_nil_r; (split; [|done]).
  - apply (end_msg cx (ticked cx) ps); [done|apply quiet_ticked|done|by left].
  - apply (end_msg cx (ticked cx) ps); [done|apply quiet_ticked|done|by left].
  - apply (end_msg cx (sent _ ev cx) ps); [done|apply quiet_sent|done|].
    right. exists ev. split; [|done]. simpl. by rewrite evs_snoc_eq.
Qed.

Lemma sup_streamed cx : sup_ok cx sup →
  ∃ ps, streamed (jb_id (sg_job sup)) ps cx ∧ ps `prefix_of` ro_pieces (target (jb_id (sg_job sup))).
Proof.
  intros [_ Hr]. destruct (sg_resume sup) as [st|].
  - destruct Hr as (_ & _ & _ & ps & P & H1 & _ & H2 & H3 & _). exists ps. split; [done|]. by etrans.
  - exists []. split; [done|]. apply prefix_nil.
Qed.

Lemma finish_error_spec cx e :
  Inv Φ sub active queue (Generate sup :: inbox) cx →
  wp (finish_error (jb_id (sg_job sup)) e)
    (λ o cx', Inv Φ sub active (queue ++ option_list o) inbox cx' ∧ cx_torn cx' = cx_torn cx) cx.
Proof. intros HI. destruct (sup_streamed cx (head_msg cx HI)) as (ps & Hs & Hp). by apply (finish_with_spec _ _ ps). Qed.

Lemma enqueue_spec cx toks prior scan ps unsent finish :
  Inv Φ sub active queue (Generate sup :: inbox) cx →
  let j := jb_id (sg_job sup) in
  toks = prompt jobs j → toks ≠ [] → streamed j ps cx → ps ++ unsent `prefix_of` ro_pieces (target j) →
  mapM token_to_piece prior = Some (ps ++ unsent) → rest_ok j (ps ++ unsent) prior scan finish →
  wp (enqueue sup toks prior (length ps) scan unsent finish)
    (λ o cx', Inv Φ sub active (queue ++ option_list o) inbox cx' ∧ cx_torn cx' = cx_torn cx) cx.
Proof.
  intros HI j -> Hne Hs Hp Hm Hr. destruct (head_msg cx HI) as [Hjob _]. fold j in Hjob. unfold enqueue.
  assert (Hmax : gp_max_tokens (jb_params (sg_job sup)) = max_tokens jobs j) by (unfold max_tokens; by rewrite <- Hjob).
  rewrite Hmax. fold j.
  destruct (match finish, unsent with
            | Some k, [] => Some k | None, [] => if max_tokens jobs j - length prior =? 0 then Some Length else None
            | _, _ => None end) as [k|] eqn:Ee.
  - assert (unsent = [] ∧ target j = MkOut ps prior (RFin k)) as [-> Hk].
    { destruct finish as [k'|], unsent; try done.
      - injection Ee as ->. rewrite app_nil_r in Hr. done.
      - destruct (_ =? 0) eqn:E0; [|done]. injection Ee as <-. apply Nat.eqb_eq in E0. destruct Hr as [Hr _].
        rewrite app_nil_r in Hr. split; [done|]. by apply Hr. }
    apply (finish_with_spec _ _ ps); [done|done|]. simpl. fold j. rewrite Hk. simpl. split; [done|].
    unfold done_ok. rewrite Hk. done.
  - wp. simpl. split; [|done].
    eapply (inv_move jobs cfg _ _ _ _ _ _ _ _ _ j Hst HI).
    + by split.
    + rewrite <- (i_account _ _ _ _ _ _ _ _ HI), <- owners_head. set_solver.
    + intros Hin. pose proof (i_sub _ _ _ _ _ _ _ _ HI) as Hnd.
      rewrite <- (i_account _ _ _ _ _ _ _ _ HI), <- owners_head in Hnd. inversion Hnd as [|? ? Hn]; subst.
      apply Hn. unfold owners. set_solver.
    + apply Forall_app. split.
      * apply list.Forall_forall. intros p Hq. right. by apply (proj1 (list.Forall_forall _ _) (i_queue _ _ _ _ _ _ _ _ HI)).
      * apply Forall_singleton. right. split_and!; try done. exists ps. by split_and!.
    + pose proof (i_inbox _ _ _ _ _ _ _ _ HI) as Hib. inversion Hib; subst. eapply Forall_impl; [done|]. auto.
    + eapply Forall_impl; [apply (i_reports _ _ _ _ _ _ _ _ HI)|]. auto.
    + eapply Forall_impl; [apply (i_outbox _ _ _ _ _ _ _ _ HI)|]. intros e []. auto.
    + apply (i_outbox_nodup _ _ _ _ _ _ _ _ HI).
    + rewrite <- (i_account _ _ _ _ _ _ _ _ HI), <- owners_head. unfold owners. rewrite fmap_app, <- !app_assoc. simpl.
      by rewrite <- !Permutation_middle.
    + apply (i_log _ _ _ _ _ _ _ _ HI).
Qed.

Lemma fresh_prompt_spec cx toks :
  sup_ok cx sup → fresh_prompt cfg (sg_job sup) = inr toks →
  let j := jb_id (sg_job sup) in
  toks = prompt jobs j ∧ toks ≠ [] ∧ rest_ok j [] [] (stop_scan_new (gp_stop (jb_params (sg_job sup)))) None.
Proof.
  intros [Hjob _] Hf j. unfold fresh_prompt in Hf.
  destruct (render_prompt _) as [text|] eqn:Er; [|done]. destruct (tokenize text) as [[|t ts]|] eqn:Et; [done| |done].
  destruct (_ <? _); [done|]. injection Hf as <-.
  assert (Ht : tokens_of (jobs j) = Some (t :: ts)).
  { unfold tokens_of. unfold j. rewrite <- Hjob, Er. done. }
  split_and!; [unfold prompt; by rewrite Ht|done|].
  unfold rest_ok, GenRef.target, reference. rewrite Ht. unfold prompt. rewrite Ht. simpl.
  rewrite Nat.sub_0_r, app_nil_r. unfold max_tokens. split.
  - intros ->. done.
  - intros c Hc. rewrite Hc. rewrite prepend_nil. rewrite Hjob. fold j. by destruct (gp_max_tokens _).
Qed.

Lemma prepare_generation_spec cx :
  Inv Φ sub active queue (Generate sup :: inbox) cx →
  wp (prepare_generation cfg sup)
    (λ o cx', Inv Φ sub active (queue ++ option_list o) inbox cx' ∧ cx_torn cx' = cx_torn cx) cx.
Proof.
  intros HI. unfold prepare_generation, is_closed. destruct (hc_batch_error cfg); [by apply finish_error_spec|]. wp.
  destruct (gone _ _).
  - unfold report. wp. simpl. rewrite app_nil_r. split; [|done]. destruct (sup_streamed cx (head_msg cx HI)) as (ps & Hs & _).
    apply (end_msg cx (ticked cx) ps); [done|apply quiet_ticked|done|by left].
  - change (cx_torn cx) with (cx_torn (ticked cx)). pose proof (inv_ticked jobs cfg _ _ _ _ _ _ Hst HI) as HI'.
    clear HI. fold (ticked cx). generalize dependent (ticked cx). clear cx. intros cx HI.
    pose proof (head_msg cx HI) as Hsup.
    destruct (negb _ && negb _); [by apply finish_error_spec|].
    destruct (sg_resume sup) as [st|] eqn:Er.
    + destruct Hsup as [_ Hr]. rewrite Er in Hr. destruct Hr as (Hg & R1 & R2 & ps & P & R3 & R4 & R5 & R6 & R7 & R8).
      destruct (mapM token_to_piece (drop _ _)) as [unsent|] eqn:Eu; [|by apply finish_error_spec].
      rewrite <- R4 in *. assert (ps ++ unsent = P) as HP.
      { assert (mapM token_to_piece (drop (length ps) (rs_generated_tokens st)) = Some (drop (length ps) P)) as Hd
          by (apply mapM_Some, Forall2_drop; by apply mapM_Some).
        rewrite Hd in Eu. injection Eu as <-. destruct R5 as [k ->]. by rewrite drop_app_length. }
      subst P. rewrite R1. by apply enqueue_spec; auto.
    + destruct (fresh_prompt cfg (sg_job sup)) as [e|toks] eqn:Ef; [by apply finish_error_spec|].
      destruct (fresh_prompt_spec cx toks Hsup Ef) as (-> & Hne & Hrest). destruct Hsup as [_ Hs]. rewrite Er in Hs.
      apply (enqueue_spec cx _ [] _ [] []); try done. apply prefix_nil.
Qed.

Lemma skip_msg m cx : msg_ids [m] = [] → Inv Φ sub active queue (m :: inbox) cx → Inv Φ sub active queue inbox cx.
Proof.
  intros Hm [I1 I2 I3 I4 I5 I6 I7 I8 I9 I10 I11 I12 I13]. split; try done; [by inversion I6|].
  rewrite <- I10. unfold owners, msg_ids in *. simpl in *. by destruct m.
Qed.
End msg.

Lemma pump_msg_spec queue inbox m cx :
  Inv Φ sub active queue (m :: inbox) cx →
  wp (pump_msg cfg m queue)
    (λ r cx', match r with
              | PumpHandled queue' => Inv Φ sub active queue' inbox cx' ∧ cx_torn cx' = cx_torn cx
              | PumpCtrl | PumpExit => Inv Φ sub active queue inbox cx' ∧ cx_torn cx' = cx_torn cx
              end) cx.
Proof.
  intros HI. destruct m as [|sup| | | | | |]; simpl; try (wp; split; [eapply skip_msg; [|exact HI]; done|done]). wp.
  eapply wp_mono; [exact (prepare_generation_spec cx HI)|].
  intros [p|] cx' [HI' Ht]; wp; [done|]. simpl in HI'. by rewrite app_nil_r in HI'.
Qed.

(** [more] are messages behind those the pump sees. *)
Lemma pump_spec hung_up queue inbox more cx :
  Inv Φ sub active queue (inbox ++ more) cx →
  wp (pump cfg hung_up inbox queue)
    (λ r cx', match r with
              | Some (_, inbox', queue') => Inv Φ sub active queue' (inbox' ++ more) cx' ∧ cx_torn cx' = cx_torn cx
              | None => True
              end) cx.
Proof.
  revert queue cx. induction inbox as [|m inbox IH]; intros queue cx HI; simpl.
  - wp. by destruct hung_up.
  - wp. eapply wp_mono; [by apply (pump_msg_spec _ (inbox ++ more))|]. intros [queue'| |] cx' [HI' Ht]; wp; [|done|done].
    eapply wp_mono; [by apply IH|]. intros [[[c i] q]|] cx''; [|done]. intros [? ?]. split; [done|congruence].
Qed.
End phi.
End pump.
