(* ===== verification/GenAdmit.v ===== *)
(** * The engine host: admission keeps the invariant

    Phase 5 of the loop: prefix matching, eviction, the choice of a slot. *)

From Stdlib Require Import ZArith Lia.
From stdpp Require Import base list strings option gmap.
From S2P Require Import Prelude Float StrUtil StopScan Engine GenOps GenLoop GenStep GenRef GenInv GenOpsOk GenWorld GenSweep GenPump.

Open Scope nat_scope.

(** ** [Vec] operations *)
Lemma position_Some {A} (p : A → bool) l i : position p l = Some i → ∃ x, l !! i = Some x ∧ p x = true.
Proof.
  unfold position. intros Hp. apply fmap_Some in Hp as ([k x] & Hf & ->). apply list_find_Some in Hf as (? & ? & _). eauto.
Qed.
Lemma position_None {A} (p : A → bool) l : position p l = None → ∀ x, x ∈ l → p x = false.
Proof.
  unfold position. intros Hp x Hx. apply fmap_None, list_find_None in Hp. rewrite list.Forall_forall in Hp.
  specialize (Hp x Hx). by destruct (p x).
Qed.
Lemma position_elem {A} (p : A → bool) l x : x ∈ l → p x = true → ∃ i, position p l = Some i.
Proof.
  intros Hx Hp. destruct (position p l) eqn:Ep; [eauto|]. pose proof (position_None _ _ Ep x Hx). congruence.
Qed.

Lemma rposition_Some {A} (p : A → bool) l i : rposition p l = Some i → ∃ x, l !! i = Some x ∧ p x = true.
Proof.
  unfold rposition. intros Hp. apply fmap_Some in Hp as (k & Hp & ->). apply position_Some in Hp as (x & Hx & ?).
  exists x. split; [|done]. apply reverse_lookup_Some in Hx. by destruct Hx.
Qed.
Lemma rposition_None {A} (p : A → bool) l : rposition p l = None → ∀ x, x ∈ l → p x = false.
Proof.
  unfold rposition. intros Hp%fmap_None x Hx. eapply position_None; [done|]. by apply elem_of_reverse.
Qed.

Lemma vec_remove_Some {A} i (l : list A) x : l !! i = Some x →
  ∃ l', vec_remove i l = Some (x, l') ∧ l ≡ₚ x :: l' ∧ length l = S (length l') ∧
    (∀ k, k < i → l' !! k = l !! k) ∧ (∀ k, i < k → l' !! (k - 1) = l !! k) ∧ l' `sublist_of` l.
Proof.
  intros Hi. unfold vec_remove. rewrite Hi. simpl. eexists. split; [done|].
  pose proof (take_drop_middle l i x Hi) as Hl. pose proof (lookup_lt_Some _ _ _ Hi). split_and!.
  - rewrite <- Hl at 1. symmetry. apply Permutation_middle.
  - rewrite <- Hl at 1. rewrite !length_app. simpl. lia.
  - intros k Hk. rewrite lookup_app_l by (rewrite length_take; lia). by apply lookup_take_lt.
  - intros k Hk. rewrite lookup_app_r by (rewrite length_take; lia). rewrite length_take, lookup_drop. f_equal. lia.
  - rewrite <- Hl at 3. apply sublist_app; [done|]. by apply sublist_cons.
Qed.

Lemma swap_remove_Some {A} i (l : list A) x : l !! i = Some x → ∃ l', swap_remove i l = Some (x, l') ∧ l ≡ₚ x :: l'.
Proof.
  intros Hi. unfold swap_remove. rewrite Hi. simpl. pose proof (lookup_lt_Some _ _ _ Hi).
  destruct l as [|y l _] using rev_ind; [done|]. rewrite last_snoc. simpl. eexists. split; [done|].
  rewrite length_app in H. simpl in H. destruct (decide (i = length l)) as [->|Hne].
  - rewrite list_lookup_middle in Hi by done. injection Hi as ->.
    replace (<[length l := x]> (l ++ [x])) with (l ++ [x]); [|symmetry; rewrite insert_app_r_alt by done; by rewrite Nat.sub_diag].
    rewrite removelast_last. symmetry. apply Permutation_cons_append.
  - rewrite lookup_app_l in Hi by lia. rewrite insert_app_l by lia. rewrite removelast_last.
    pose proof (insert_take_drop l i y ltac:(lia)) as ->. rewrite <- (take_drop_middle l i x Hi) at 1.
    rewrite <- app_assoc. simpl. rewrite <- (Permutation_middle (take i l) _ x).
    apply Permutation_cons; [done|]. apply Permutation_app_head. symmetry. apply Permutation_cons_append.
Qed.

Lemma common_prefix_take a b n : n ≤ common_prefix_len a b → take n a = take n b ∧ n ≤ length a ∧ n ≤ length b.
Proof.
  unfold common_prefix_len. revert b n. induction a as [|x a IH]; intros [|y b] [|n] Hn; simpl in *; try (by split_and!; try lia); try lia.
  destruct (x =? y)%Z eqn:Exy; [|lia]. apply Z.eqb_eq in Exy as ->.
  destruct (IH b n ltac:(lia)) as (? & ? & ?). split_and!; [by f_equal|lia|lia].
Qed.

Section admit_gen.
Context {E : Engine} {W : Env} {EL : EngineLaws E} {L : EnvLaws W}.
Variable jobs : nat → Job.
Variable cfg : HostCfg.

Abbreviation target := (target jobs).
Abbreviation gen_ok := (gen_ok jobs cfg).
Abbreviation Inv := (Inv jobs cfg).
Abbreviation good := (good jobs cfg).
Abbreviation prep_ok := (prep_ok jobs).

(** ** Matching *)
Definition reuse_ok (rt : list RetainedSlot) (p : PreparedGen) (reuse : option (nat * nat)) : Prop :=
  match reuse with
  | None => True
  | Some (idx, lcp) => ∃ r, rt !! idx = Some r ∧ pg_resumed p = false ∧ take lcp (rt_history r) = take lcp (pg_prompt_tokens p)
                            ∧ lcp ≤ length (rt_history r) ∧ lcp < length (pg_prompt_tokens p)
  end.

Lemma find_reuse_ok p slots idx best rt :
  pg_resumed p = false → pg_prompt_tokens p ≠ [] → drop idx rt = slots →
  reuse_ok rt p best → reuse_ok rt p (find_reuse (pg_prompt_tokens p) idx slots best).
Proof.
  intros Hr Hne. revert idx best. induction slots as [|r slots IH]; intros idx best Hd Hb; simpl; [done|].
  assert (Hl : rt !! idx = Some r) by (rewrite <- (Nat.add_0_r idx), <- lookup_drop, Hd; done).
  apply IH.
  - pose proof (drop_S _ _ _ Hl) as Hs. rewrite Hd in Hs. by injection Hs.
  - destruct (_ && _) eqn:Eb; [|done]. exists r.
    destruct (common_prefix_take (rt_history r) (pg_prompt_tokens p)
               (min (common_prefix_len (rt_history r) (pg_prompt_tokens p)) (length (pg_prompt_tokens p) - 1)) ltac:(lia)) as (? & ? & ?).
    split_and!; try done. destruct (pg_prompt_tokens p); simpl in *; [done|lia].
Qed.

(** ** The pool of free slots *)
Record pooled (s : SeqId) (cx cx' : Ctx) : Prop := {
  po_local : ∀ j, local j s cx cx';
  po_out : cx_out cx' = cx_out cx;
  po_outbox : cx_outbox cx' = cx_outbox cx;
  po_reports : cx_reports cx' = cx_reports cx }.

(** The KV memory of a free slot, and the retained slots, may change. *)
Lemma inv_pool Φ sub active queue inbox cx cx' s :
  stable Φ → Inv Φ sub active queue inbox cx → pooled s cx cx' → s ∈ cx_free cx → cx_free cx' = cx_free cx →
  Forall (slot_ok cx') (cx_retained cx') → NoDup (rt_seq <$> cx_retained cx') →
  Inv Φ sub active queue inbox cx'.
Proof.
  intros Hst [I1 I2 I3 I4 I5 I6 I7 I8 I9 I10 I11 I12 I13] [Pl Po Pb Pr] Hs Hf Hret Hnd.
  assert (Hstream : ∀ i ps, streamed i ps cx → streamed i ps cx') by (intros; unfold streamed; by rewrite Po).
  assert (Hres : ∀ i st, resume_ok jobs cx i st → resume_ok jobs cx' i st).
  { intros i st (? & ? & ps & P & ? & ?). split_and!; [done|done|]. exists ps, P. auto. }
  split; try done.
  - by rewrite Hf.
  - intros i g Hi Hd. eapply (Hst _ (S (g_id g)) s); [apply Pl|lia| |by apply I4].
    intros Heq. pose proof (slots_NoDup (hc_n_seq_max cfg)) as Hn. rewrite <- I1, NoDup_app in Hn.
    destruct Hn as (_ & Hn & _). apply (Hn (g_seq g)); [|by rewrite Heq]. apply list_elem_of_fmap_2. by eapply live_elem.
  - eapply Forall_impl; [done|]. intros p (?&?&?&?& ps & ? & ?). split_and!; eauto.
  - eapply Forall_impl; [done|]. intros [|sup| | | | | |]; try done. intros [? Hr]. split; [done|].
    destruct (sg_resume sup); [|by apply Hstream]. destruct Hr. auto.
  - rewrite Pb, Pr. eapply Forall_impl; [done|]. intros e (? & ps & ? & ?). eauto.
  - by rewrite Pb.
  - rewrite Pr. eapply Forall_impl; [done|]. intros [i [|job st]]; [done|]. intros [? ?].
    split; [done|]. by apply Hres.
  - unfold owners in *. by rewrite Pr.
  - by rewrite Po.
  - by rewrite Po.
Qed.

Definition valid (rt : list RetainedSlot) (reuse : option (nat * nat)) : Prop :=
  match reuse with None => True | Some (idx, _) => is_Some (rt !! idx) end.
Definition keep_of (rt : list RetainedSlot) (reuse : option (nat * nat)) : option SeqId :=
  match reuse with None => None | Some (idx, _) => rt_seq <$> rt !! idx end.

Lemma reuse_valid rt p reuse : reuse_ok rt p reuse → valid rt reuse.
Proof. destruct reuse as [[idx lcp]|]; [|done]. intros (r & Hr & _). simpl. by rewrite Hr. Qed.

Lemma reuse_seq_spec reuse (Q : option SeqId → Ctx → Prop) cx :
  valid (cx_retained cx) reuse → Q (keep_of (cx_retained cx) reuse) cx → wp (reuse_seq reuse) Q cx.
Proof.
  unfold reuse_seq. destruct reuse as [[idx lcp]|]; simpl; [|by intros; wp]. intros [r Hr] HQ. wp.
  eapply wp_unwrap; [exact Hr|]. wp. by rewrite Hr in HQ.
Qed.

Lemma fits_spec used budget reuse (Q : bool → Ctx → Prop) cx :
  valid (cx_retained cx) reuse → (∀ b, Q b cx) → wp (fits cfg used budget reuse) Q cx.
Proof. intros Hv HQ. unfold fits, cached. wp. apply reuse_seq_spec; [done|]. wp. apply HQ. Qed.

(** Dropping a retained slot and its KV memory. *)
Lemma inv_evict Φ sub active queue inbox cx rt v x :
  stable Φ → Inv Φ sub active queue inbox cx → cx_retained cx ≡ₚ x :: rt → v = rt_seq x →
  Inv Φ sub active queue inbox (upd_kv (delete v (cx_kv cx)) (upd_retained rt cx)).
Proof.
  intros Hst HI Hp ->. pose proof (i_retained _ _ _ _ _ _ _ _ HI) as Hr. pose proof (i_retained_nodup _ _ _ _ _ _ _ _ HI) as Hn.
  rewrite Hp in Hr. rewrite Hp in Hn. inversion Hr as [|? ? [Hx _] Hrt]; subst. inversion Hn as [|? ? Hnx Hnrt]; subst.
  eapply (inv_pool _ _ _ _ _ _ _ (rt_seq x) Hst HI); try done.
  - split; try done. intros j. split; try done. intros s' Hs'. simpl. rewrite kv_of_delete. case_decide; congruence.
  - apply list.Forall_forall. intros r Hin. rewrite list.Forall_forall in Hrt. destruct (Hrt r Hin) as [H1 H2].
    split; [done|]. simpl. rewrite kv_of_delete. case_decide as Heq; [|done].
    destruct Hnx. rewrite Heq. by apply list_elem_of_fmap_2.
Qed.

Lemma evict_keeps Φ sub active queue inbox p used budget fuel reuse cx :
  stable Φ → Inv Φ sub active queue inbox cx → reuse_ok (cx_retained cx) p reuse → length (cx_retained cx) < fuel →
  wp (evict cfg fuel used budget reuse)
    (λ reuse' cx', Inv Φ sub active queue inbox cx' ∧ reuse_ok (cx_retained cx') p reuse' ∧ cx_torn cx' = cx_torn cx
                   ∧ cx_free cx' = cx_free cx) cx.
Proof.
  intros Hst. revert reuse cx. induction fuel as [|fuel IH]; intros reuse cx HI Hr Hf; [lia|]. simpl. wp.
  pose proof (reuse_valid _ _ _ Hr) as Hv.
  apply fits_spec; [done|]. intros [].
  { by wp. }
  wp. apply reuse_seq_spec; [done|]. wp.
  destruct (position _ _) as [v|] eqn:Ep; [|by wp].
  apply position_Some in Ep as (x & Hx & Hnot). destruct (vec_remove_Some _ _ _ Hx) as (rt & Hrm & Hp & Hlen & Hlo & Hhi & _).
  wp. eapply wp_unwrap; [exact Hrm|]. cbn beta iota. unfold seq_rm_all. wp.
  eapply wp_mono; [apply IH|by intros].
  - exact (inv_evict Φ _ _ _ _ cx rt _ x Hst HI Hp eq_refl).
  - simpl. destruct reuse as [[idx lcp]|]; [|done]. destruct Hr as (r & Hri & Hrest).
    assert (v ≠ idx).
    { intros ->. rewrite Hri in Hx. injection Hx as <-. unfold is_slot in Hnot. simpl in Hnot. rewrite Hri in Hnot. simpl in Hnot.
      by rewrite bool_decide_eq_true_2 in Hnot. }
    destruct (v <? idx) eqn:Ev; [apply Nat.ltb_lt in Ev|apply Nat.ltb_ge in Ev]; exists r; (split; [|done]).
    + by rewrite Hhi.
    + rewrite Hlo by lia. done.
  - simpl. lia.
Qed.

(** ** The choice of a slot *)
Record chosen (p : PreparedGen) (cx : Ctx) (s : SeqId) (reused : nat) (cx' : Ctx) : Prop := {
  ch_pooled : pooled s cx cx';
  ch_free : cx_free cx ≡ₚ s :: cx_free cx';
  ch_retained : Forall (slot_ok cx') (cx_retained cx');
  ch_nodup : NoDup (rt_seq <$> cx_retained cx');
  ch_kv : kv_of (cx_kv cx') s = take reused (pg_prompt_tokens p);
  ch_reused : reused < length (pg_prompt_tokens p) }.

Lemma filter_ne_perm (s : SeqId) l : NoDup l → s ∈ l → l ≡ₚ s :: filter (λ x, x ≠ s) l.
Proof.
  intros Hn Hs. apply list_elem_of_split in Hs as (l1 & l2 & ->). rewrite filter_app, filter_cons_False by naive_solver.
  apply NoDup_app in Hn as (_ & Hn1 & Hn2). inversion Hn2; subst.
  rewrite !filter_all; [by rewrite Permutation_middle| |]; intros x Hx ->; [done|]. apply (Hn1 s); set_solver.
Qed.

(** The other retained slots survive the loss of one free slot. *)
Lemma others_kept cx cx' s rt :
  Forall (slot_ok cx) (cx_retained cx) → NoDup (rt_seq <$> cx_retained cx) → pooled s cx cx' →
  cx_free cx ≡ₚ s :: cx_free cx' → rt `sublist_of` cx_retained cx → s ∉ (rt_seq <$> rt) →
  Forall (slot_ok cx') rt ∧ NoDup (rt_seq <$> rt).
Proof.
  intros Hr Hn Hp Hf Hsub Hs. split; [|by eapply sublist_NoDup; [exact Hn|]; apply fmap_sublist].
  apply list.Forall_forall. intros r Hin.
  assert (rt_seq r ≠ s) by (intros <-; apply Hs; by apply list_elem_of_fmap_2).
  destruct (proj1 (list.Forall_forall _ _) Hr r) as [H1 H2]; [by eapply elem_of_sublist|].
  split; [rewrite Hf in H1; set_solver|]. by rewrite (lo_kv _ _ _ _ (po_local _ _ _ Hp 0)).
Qed.

Lemma choose_slot_spec Φ sub active queue inbox p reuse cx :
  Inv Φ sub active queue inbox cx → reuse_ok (cx_retained cx) p reuse → pg_prompt_tokens p ≠ [] → cx_free cx ≠ [] →
  wp (choose_slot reuse) (λ r cx', chosen p cx r.1 r.2 cx') cx.
Proof.
  intros HI Hr Hne Hfree. pose proof (i_retained _ _ _ _ _ _ _ _ HI) as Hret. pose proof (i_retained_nodup _ _ _ _ _ _ _ _ HI) as Hnd.
  assert (Hnf : NoDup (cx_free cx)).
  { pose proof (slots_NoDup (hc_n_seq_max cfg)) as Hn. rewrite <- (i_slots _ _ _ _ _ _ _ _ HI), NoDup_app in Hn. tauto. }
  assert (Hpos : 0 < length (pg_prompt_tokens p)) by (destruct (pg_prompt_tokens p); simpl; [done|lia]).
  unfold choose_slot. destruct reuse as [[idx lcp]|].
  - destruct Hr as (r & Hri & Hres & Hhist & Hle & Hlt).
    destruct (vec_remove_Some _ _ _ Hri) as (rt & Hrm & Hp & _ & _ & _ & Hsub).
    assert (Hin : rt_seq r ∈ cx_free cx ∧ kv_of (cx_kv cx) (rt_seq r) = rt_history r).
    { apply (proj1 (list.Forall_forall _ _) Hret). rewrite Hp. set_solver. }
    destruct Hin as [Hin Hkv].
    assert (Hnot : rt_seq r ∉ (rt_seq <$> rt)) by (rewrite Hp in Hnd; by inversion Hnd).
    pose proof (filter_ne_perm _ _ Hnf Hin) as Hperm.
    wp. eapply wp_unwrap; [exact Hrm|]. cbn beta iota. unfold seq_rm_from, seq_rm_all. wp.
    assert (Hgen : ∀ kv t, (∀ s', s' ≠ rt_seq r → kv_of kv s' = kv_of (cx_kv cx) s') → cx_tick cx ≤ t →
      ∀ n, kv_of kv (rt_seq r) = take n (pg_prompt_tokens p) → n < length (pg_prompt_tokens p) →
      chosen p cx (rt_seq r) n (upd_kv kv (upd_tick t (upd_free (filter (λ s, s ≠ rt_seq r) (cx_free cx)) (upd_retained rt cx))))).
    { intros kv t Hk Ht n Hn Hlt'. set (cx' := upd_kv _ _).
      assert (Hpo : pooled (rt_seq r) cx cx') by (split; try done; intros j; by split).
      destruct (others_kept cx cx' (rt_seq r) rt Hret Hnd Hpo Hperm Hsub Hnot). by split. }
    destruct (trim_ok _); wp.
    + apply Hgen; [|simpl; lia| |done].
      * intros s' Hs'. simpl. unfold kv_truncate. rewrite kv_of_insert. case_decide; congruence.
      * simpl. unfold kv_truncate. rewrite kv_of_insert. case_decide; [|done]. by rewrite Hkv.
    + apply Hgen; [|simpl; lia| |done].
      * intros s' Hs'. simpl. rewrite kv_of_delete. case_decide; congruence.
      * simpl. rewrite kv_of_delete. by case_decide.
  - assert (Hgen : ∀ s rt free', cx_free cx ≡ₚ s :: free' → rt `sublist_of` cx_retained cx →
      chosen p cx s 0 (upd_kv (delete s (cx_kv cx)) (upd_retained (filter (λ r, rt_seq r ≠ s) rt) (upd_free free' (upd_retained rt cx))))).
    { intros s rt free' Hp Hsub. set (cx' := upd_kv _ _).
      assert (Hpo : pooled s cx cx').
      { split; try done. intros j. split; try done. intros s' Hs'. simpl. rewrite kv_of_delete. case_decide; congruence. }
      destruct (others_kept cx cx' s (filter (λ r, rt_seq r ≠ s) rt) Hret Hnd Hpo Hp).
      - etrans; [apply sublist_filter|done].
      - intros Hin. apply list_elem_of_fmap in Hin as (r & Heq & Hin). apply list_elem_of_filter in Hin. naive_solver.
      - split; try done. simpl. rewrite kv_of_delete. by case_decide. }
    wp. destruct (rposition _ _) as [pos|] eqn:Ep; wp.
    + apply rposition_Some in Ep as (s & Hs & _). destruct (swap_remove_Some _ _ _ Hs) as (free' & Hsw & Hp).
      eapply wp_unwrap; [exact Hsw|]. cbn beta iota. unfold seq_rm_all. wp.
      specialize (Hgen s (cx_retained cx) free' Hp ltac:(done)). by destruct cx.
    + pose proof (rposition_None _ _ Ep) as Hall. destruct (cx_free cx) as [|s0 fr] eqn:Ef; [done|].
      assert (∃ x rt, cx_retained cx = x :: rt) as (x & rt & Hrt).
      { specialize (Hall s0 ltac:(set_solver)). destruct (cx_retained cx); [done|eauto]. }
      rewrite Hrt in Hret. inversion Hret as [|? ? [Hx _] _]; subst.
      rewrite Hrt. eapply (wp_unwrap _ (x, rt)); [reflexivity|]. cbn beta iota. wp. rewrite <- Ef.
      destruct (position_elem (λ s, (s =? rt_seq x)%Z) (cx_free cx) (rt_seq x) Hx (Z.eqb_refl _)) as (i & Hi).
      eapply wp_unwrap; [exact Hi|]. wp. apply position_Some in Hi as (s & Hs & _).
      destruct (swap_remove_Some _ _ _ Hs) as (free' & Hsw & Hp).
      eapply wp_unwrap; [exact Hsw|]. cbn beta iota. unfold seq_rm_all. wp.
      rewrite <- Ef in Hgen. apply Hgen; [done|]. rewrite Hrt. by apply sublist_cons.
Qed.

(** ** The admitted sequence *)
Lemma admit_ok b cx cx' p s reused uid c :
  prep_ok cx p → chosen p cx s reused cx' → chain_of (jobs (pg_id p)) = Some c →
  gen_ok b cx' (admit_gen p (sampler_of (jb_params (pg_job p))) c s reused uid).
Proof.
  intros (Hj & Hpt & Hne & Hrem & ps & Hs & Hlen & Hpre & Hm & Hrest) [[Cl Co Cb Cr] Cf Cret Cnd Ckv Cre] Hc.
  set (g := admit_gen _ _ _ _ _ _).
  assert (Hid : g_id g = pg_id p) by done.
  assert (Hpf : prefilling g = true).
  { unfold prefilling, g, admit_gen, g_prefix. simpl. apply Nat.ltb_lt. rewrite length_app. lia. }
  assert (Hgen : g_gen g = pg_prior_generated p) by (unfold g_gen, g, admit_gen, g_prior; simpl; by rewrite app_nil_r).
  assert (Hhist : g_hist g = prompt jobs (pg_id p) ++ pg_prior_generated p).
  { unfold g_hist, g, admit_gen, g_prefix. simpl. by rewrite app_nil_r, Hpt. }
  assert (Hprefix : g_prefix g = prompt jobs (pg_id p) ++ pg_prior_generated p).
  { unfold g, admit_gen, g_prefix. simpl. by rewrite Hpt. }
  split_and!; [split_and!|..].
  - done.
  - split_and!; [done|done|done|done|]. rewrite Hid, <- Hj. done.
  - exists (ps ++ pg_unsent p). split_and!; [done| | |].
    + exists ps. split_and!; [unfold streamed; by rewrite Co|done|by apply prefix_app_r|done].
    + unfold promise. rewrite Hgen, Hhist, Hid. unfold g, admit_gen. simpl.
      destruct (pg_finish p) as [k|]; [done|]. destruct Hrest as [Hr0 Hr]. rewrite Hrem.
      destruct (_ =? 0) eqn:E0; [apply Hr0; by apply Nat.eqb_eq|]. by apply Hr.
    + intros _. rewrite Hgen, Hhist, Hid. split; [done|]. intros _. exists c. split_and!; [done|done|].
      unfold g, admit_gen. simpl. destruct (pg_finish p) as [k|]; [done|]. rewrite Hrem.
      destruct (_ =? 0) eqn:E0; [done|]. intros _. by apply Hrest.
  - unfold phase_ok. rewrite Hpf, Hprefix, Hgen, Hid. unfold g, admit_gen. simpl. rewrite Hpt in Cre.
    split_and!; try done.
    + rewrite length_app. lia.
    + destruct (pg_finish p); [done|]. destruct (_ =? 0) eqn:E0; [done|]. apply Nat.eqb_neq in E0. lia.
  - intros _ _. rewrite Hpf, Hhist. unfold g, admit_gen, g_seq. simpl. split; [|done]. rewrite Ckv, <- Hpt.
    by rewrite take_app_le by lia.
Qed.

Lemma inv_admit sub active p rest inbox cx cx' s reused uid c :
  Inv good sub active (p :: rest) inbox cx → Forall (λ g, g_done g = false) active →
  chosen p cx s reused cx' → chain_of (jobs (pg_id p)) = Some c →
  Inv good sub (active ++ [admit_gen p (sampler_of (jb_params (pg_job p))) c s reused uid]) rest inbox cx'.
Proof.
  intros HI Hlive Hch Hc. pose proof HI as [I1 I2 I3 I4 I5 I6 I7 I8 I9 I10 I11 I12 I13].
  inversion I5 as [|? ? Hp Hrest]; subst.
  pose proof (admit_ok (negb (cx_torn cx')) cx cx' p s reused uid c Hp Hch Hc) as Hg.
  set (g := admit_gen _ _ _ _ _ _) in *. destruct Hch as [[Pl Po Pb Pr] Cf Cret Cnd Ckv Cre].
  assert (Hstream : ∀ i ps, streamed i ps cx → streamed i ps cx') by (intros; unfold streamed; by rewrite Po).
  assert (Hres : ∀ i st, resume_ok jobs cx i st → resume_ok jobs cx' i st).
  { intros i st (? & ? & ps & P & ? & ?). split_and!; [done|done|]. exists ps, P. auto. }
  assert (Hl : live (active ++ [g]) = active ++ [g]).
  { apply live_id, Forall_app. split; [done|]. by apply Forall_singleton. }
  rewrite (live_id _ Hlive) in I1. split; try done.
  - rewrite Hl, <- I1, Cf, fmap_app, <- app_assoc. simpl. apply Permutation_app_head. done.
  - intros i gi Hi Hd. apply lookup_app_Some in Hi as [Hi|[Hle Hi]].
    + eapply (good_stable _ _ i (S (g_id gi)) s cx); [apply Pl|lia| |by apply I4].
      intros Heq. pose proof (slots_NoDup (hc_n_seq_max cfg)) as Hn. rewrite <- I1, NoDup_app in Hn.
      destruct Hn as (_ & Hn & _). apply (Hn (g_seq gi)); [apply list_elem_of_fmap_2; by eapply list_elem_of_lookup_2|].
      rewrite Heq, Cf. set_solver.
    + apply list_lookup_singleton_Some in Hi as [_ <-]. exact Hg.
  - eapply Forall_impl; [done|]. intros q (?&?&?&?& ps & ? & ?). split_and!; eauto.
  - eapply Forall_impl; [done|]. intros [|sup| | | | | |]; try done. intros [? Hr]. split; [done|].
    destruct (sg_resume sup); [|by apply Hstream]. destruct Hr. auto.
  - rewrite Pb, Pr. eapply Forall_impl; [done|]. intros e (? & ps & ? & ?). eauto.
  - by rewrite Pb.
  - rewrite Pr. eapply Forall_impl; [done|]. intros [i [|job st]]; [done|]. intros [? ?]. split; [done|]. by apply Hres.
  - rewrite <- I10. unfold owners. rewrite Hl, (live_id _ Hlive), Pr, fmap_app, <- app_assoc. simpl. done.
  - by rewrite Po.
  - by rewrite Po.
Qed.

Lemma free_slot Φ sub active queue inbox cx :
  Inv Φ sub active queue inbox cx → Forall (λ g, g_done g = false) active → length active < hc_n_seq_max cfg → cx_free cx ≠ [].
Proof.
  intros HI Hlive Hlt Hf. pose proof (i_slots _ _ _ _ _ _ _ _ HI) as Hp. apply Permutation_length in Hp.
  rewrite (live_id _ Hlive), length_app, length_fmap, Hf in Hp. unfold slots in Hp.
  rewrite length_reverse, length_fmap, length_seq in Hp. simpl in Hp. lia.
Qed.

Lemma admission_spec sub inbox queue active uid cx :
  Inv good sub active queue inbox cx → Forall (λ g, g_done g = false) active →
  wp (admission cfg queue active uid)
    (λ r cx', Inv good sub r.1.1 r.1.2 inbox cx' ∧ Forall (λ g, g_done g = false) r.1.1 ∧ cx_torn cx' = cx_torn cx) cx.
Proof.
  revert active uid cx. induction queue as [|p rest IH]; intros active uid cx HI Hlive; cbn [admission]; [by wp|].
  destruct (_ <=? _) eqn:Eroom; [by wp|]. apply Nat.leb_gt in Eroom.
  assert (Hp : prep_ok cx p) by (pose proof (i_queue _ _ _ _ _ _ _ _ HI) as Hq; by inversion Hq).
  destruct Hp as (Hj & Hpt & Hne & _ & ps & Hs & _ & Hpre & _). rewrite <- Hpt in Hne.
  wp. unfold choose_reuse. wp.
  eapply wp_mono; [apply (evict_keeps good sub active (p :: rest) inbox p)|].
  - apply good_stable.
  - done.
  - destruct (_ && _) eqn:Ek; [|done]. apply andb_true_iff in Ek as [_ Ek]. apply negb_true_iff in Ek.
    by apply find_reuse_ok.
  - lia.
  - intros reuse cx1 (HI1 & Hr1 & Ht1 & Hf1). wp. apply fits_spec; [by eapply reuse_valid|]. intros [|]; simpl; [|by wp].
    destruct (sampler_new _) as [c|] eqn:Ec.
    + wp. eapply wp_mono; [eapply (choose_slot_spec good sub active (p :: rest) inbox p reuse cx1); [done|done|done|]|].
      * by eapply free_slot.
      * intros [s reused] cx2 Hch. simpl in Hch. cbv beta iota.
        eapply wp_mono; [apply IH|].
        -- eapply inv_admit; [exact HI1|done|exact Hch|]. unfold chain_of. rewrite <- Hj. exact Ec.
        -- apply Forall_app. split; [done|]. by apply Forall_singleton.
        -- intros r cx3 (? & ? & Ht). split_and!; [done|done|]. rewrite Ht. destruct Hch as [[Pl _ _ _] _ _ _ _ _].
           rewrite (lo_torn _ _ _ _ (Pl 0)). done.
    + assert (Hs1 : prep_ok cx1 p) by (pose proof (i_queue _ _ _ _ _ _ _ _ HI1) as Hq; by inversion Hq).
      destruct Hs1 as (_ & _ & _ & _ & ps1 & Hs1 & _ & Hpre1 & _).
      wp. eapply wp_mono; [apply (deliver_terminal_spec jobs _ _ ps1); [exact Hs1|by etrans; [apply prefix_app_r|]|]|].
      * intros _. simpl. by etrans; [apply prefix_app_r|].
      * intros [] cx2 Hset. unfold report. wp.
        eapply wp_mono; [apply IH|].
        -- apply (inv_settle jobs cfg _ _ _ _ _ _ _ cx1 cx2 (pg_id p) (good_stable jobs cfg) HI1 Hset); [set_solver|done|].
           unfold owners. simpl. by rewrite <- !Permutation_middle.
        -- done.
        -- intros r cx3 (? & ? & Ht). split_and!; [done|done|]. rewrite Ht. simpl.
           destruct Hset as [_ Hl _ _ _ _]. rewrite (lo_torn _ _ _ _ (Hl 0%Z)). done.
Qed.
End admit_gen.
