(* ===== verification/GenDecode.v ===== *)
(** * The engine host: the batch of a plain step *)

From Stdlib Require Import ZArith Lia.
From stdpp Require Import base list strings option gmap.
From S2P Require Import Prelude Float StrUtil StopScan Engine GenOps GenLoop GenStep GenRef.

Open Scope nat_scope.

(** The tokens a batch adds to a sequence. *)
Definition toks_of (s : SeqId) (b : Batch) : list Token := e_token <$> filter (λ e, e_seq e = s) b.

Lemma toks_of_app s a b : toks_of s (a ++ b) = toks_of s a ++ toks_of s b.
Proof. unfold toks_of. by rewrite filter_app, fmap_app. Qed.
Lemma toks_of_cons s e b : toks_of s (e :: b) = (if decide (e_seq e = s) then [e_token e] else []) ++ toks_of s b.
Proof. unfold toks_of. rewrite filter_cons. by case_decide. Qed.
Lemma toks_of_other s b : (∀ e, e ∈ b → e_seq e ≠ s) → toks_of s b = [].
Proof.
  induction b as [|e b IH]; intros He; [done|]. rewrite toks_of_cons. rewrite decide_False by (apply He; set_solver).
  apply IH. set_solver.
Qed.

(** What a decoded batch leaves in the KV memory, and its rows. *)
Lemma decode_entries_spec b kv rows kv' rows' :
  decode_entries (kv, rows) b = Some (kv', rows') →
  (∀ s, kv_of kv' s = kv_of kv s ++ toks_of s b) ∧
  (∀ i e, b !! i = Some e → e_logits e = true →
     rows' !! (length rows + i) = Some (Some (Real (kv_of kv (e_seq e) ++ toks_of (e_seq e) (take (S i) b))))) ∧
  (∃ more, rows' = rows ++ more).
Proof.
  revert kv rows. induction b as [|e b IH]; intros kv rows Hd; cbn [decode_entries] in Hd.
  - injection Hd as <- <-. split_and!.
    + intros s. unfold toks_of. simpl. by rewrite app_nil_r.
    + intros i e Hi. by rewrite lookup_nil in Hi.
    + exists []. by rewrite app_nil_r.
  - destruct (decode_entry (kv, rows) e) as [[kv1 rows1]|] eqn:Ed; [|discriminate Hd].
    change (decode_entries (kv1, rows1) b = Some (kv', rows')) in Hd.
    unfold decode_entry in Ed. destruct (_ =? _); [|discriminate Ed]. injection Ed as <- <-.
    destruct (IH _ _ Hd) as (H1 & H2 & more & H3). split_and!.
    + intros s. rewrite H1, kv_of_insert, toks_of_cons. repeat case_decide; try congruence; subst; try done.
      by rewrite <- app_assoc.
    + intros [|i] e' Hi Hl; simpl in Hi.
      * injection Hi as ->. rewrite Nat.add_0_r. rewrite H3, <- app_assoc. rewrite lookup_app_r by lia.
        rewrite Nat.sub_diag. simpl. rewrite Hl. unfold toks_of. rewrite take_0.
        rewrite filter_cons_True by done. done.
      * specialize (H2 i e' Hi Hl). rewrite length_app in H2. simpl in H2.
        replace (length rows + S i) with (length rows + 1 + i) by lia. rewrite H2. do 3 f_equal.
        simpl. rewrite toks_of_cons, kv_of_insert. repeat case_decide; try congruence; subst; try done.
        rewrite <- app_assoc. congruence.
    + exists ([if e_logits e then Some (Real (kv_of kv (e_seq e) ++ [e_token e])) else None] ++ more).
      rewrite H3. by rewrite <- app_assoc.
Qed.

Section build.
Context {E : Engine}.
Variable cfg : HostCfg.

Lemma push_Some b e i b' : push cfg b e = Some (i, b') → i = length b ∧ b' = b ++ [e].
Proof. unfold push, batch_push. destruct (_ && _); [|done]. by intros [= <- <-]. Qed.

(** ** Decodes *)
Definition decodable (g : ActiveGen) (p : PendingTok) : Prop :=
  paused g = false ∧ prefilling g = false ∧ g_pending g = Some p.

Record decodes_of (i : nat) (active : list ActiveGen) (b : Batch) (bs : Batch) (dl : list (nat * nat)) : Prop := {
  do_in : ∀ k index, (k, index) ∈ dl → ∃ k' g p, k = i + k' ∧ active !! k' = Some g ∧ decodable g p
            ∧ toks_of (g_seq g) bs = [pending_tok p]
            ∧ ∃ m, index = length b + m ∧ bs !! m = Some (MkEntry (pending_tok p) (g_kv_len g) (g_seq g) true)
                   ∧ toks_of (g_seq g) (take (S m) bs) = [pending_tok p];
  do_out : ∀ k g, active !! k = Some g → i + k ∉ dl.*1 → toks_of (g_seq g) bs = [];
  do_nodup : NoDup dl.*1;
  do_seqs : ∀ e, e ∈ bs → ∃ g, g ∈ active ∧ e_seq e = g_seq g }.

Lemma decodes_skip i g active b bs dl :
  g_seq g ∉ (g_seq <$> active) → decodes_of (S i) active b bs dl → decodes_of i (g :: active) b bs dl.
Proof.
  intros Hn [D1 D2 D3 D4]. split; [| |done|].
  - intros k index Hin. destruct (D1 _ _ Hin) as (k' & g' & p & -> & Hl & H). exists (S k'), g', p. split_and!; [lia|done|apply H..].
  - intros [|k] g' Hl Hk; simpl in Hl.
    + injection Hl as <-. apply toks_of_other. intros e He. destruct (D4 e He) as (g' & Hg' & ->). intros Heq.
      apply Hn. rewrite <- Heq. by apply list_elem_of_fmap_2.
    + apply (D2 k); [done|]. by replace (S i + k) with (i + S k) by lia.
  - intros e He. destruct (D4 e He) as (g' & ? & ?). exists g'. split; [set_solver|done].
Qed.

Lemma decodes_take i g active b bs dl p :
  g_seq g ∉ (g_seq <$> active) → decodable g p →
  decodes_of (S i) active (b ++ [MkEntry (pending_tok p) (g_kv_len g) (g_seq g) true]) bs dl →
  decodes_of i (g :: active) b (MkEntry (pending_tok p) (g_kv_len g) (g_seq g) true :: bs) ((i, length b) :: dl).
Proof.
  intros Hn Hdec [D1 D2 D3 D4]. set (e := MkEntry _ _ _ _).
  assert (Hno : toks_of (g_seq g) bs = []).
  { apply toks_of_other. intros e' He. destruct (D4 e' He) as (g' & Hg' & ->). intros Heq.
    apply Hn. rewrite <- Heq. by apply list_elem_of_fmap_2. }
  assert (Hlow : ∀ k index, (k, index) ∈ dl → i < k).
  { intros k index Hin. destruct (D1 _ _ Hin) as (k' & _ & _ & -> & _). lia. }
  assert (Hoth : ∀ g', g' ∈ active → g_seq g ≠ g_seq g') by (intros g' ? Heq; apply Hn; rewrite Heq; by apply list_elem_of_fmap_2).
  split.
  - intros k index Hin. apply elem_of_cons in Hin as [Heq|Hin].
    + injection Heq as -> ->. exists 0, g, p. split_and!; [lia|done|done| |].
      * rewrite toks_of_cons, Hno. rewrite decide_True by done. done.
      * exists 0. split_and!; [lia|done|]. simpl. rewrite toks_of_cons. rewrite decide_True by done. by rewrite take_0.
    + destruct (D1 _ _ Hin) as (k' & g' & p' & -> & Hl & Hd & Ht & m & -> & Hm & Htm).
      assert (g_seq g ≠ g_seq g') by (apply Hoth; by eapply list_elem_of_lookup_2).
      exists (S k'), g', p'. split_and!; [lia|done|done| |].
      * rewrite toks_of_cons, Ht. by rewrite decide_False.
      * exists (S m). rewrite length_app. simpl. split_and!; [lia|done|]. rewrite toks_of_cons, Htm. by rewrite decide_False.
  - intros [|k] g' Hl Hk; simpl in Hl.
    + injection Hl as <-. exfalso. apply Hk. simpl. rewrite Nat.add_0_r. set_solver.
    + rewrite toks_of_cons, decide_False by (simpl; apply Hoth; by eapply list_elem_of_lookup_2). simpl.
      apply (D2 k); [done|]. intros Hin. apply Hk. simpl. replace (i + S k) with (S i + k) by lia. set_solver.
  - simpl. apply NoDup_cons. split; [|done]. intros Hin. apply list_elem_of_fmap in Hin as ([k index] & -> & Hin).
    apply Hlow in Hin. simpl in Hin. lia.
  - intros e' He. apply elem_of_cons in He as [->|He]; [exists g; split; [set_solver|done]|].
    destruct (D4 _ He) as (g' & ? & ?). exists g'. split; [set_solver|done].
Qed.

Lemma build_decodes_spec active i b ds :
  NoDup (g_seq <$> active) →
  match build_decodes cfg i active b ds with
  | inr (b', ds') => ∃ bs dl, b' = b ++ bs ∧ ds' = ds ++ dl ∧ decodes_of i active b bs dl
  | inl k => ∃ k' g, k = i + k' ∧ active !! k' = Some g ∧ paused g = false
  end.
Proof.
  revert i b ds. induction active as [|g active IH]; intros i b ds Hn; cbn [build_decodes].
  - exists [], []. rewrite !app_nil_r. split_and!; [done|done|]. split; try set_solver. apply NoDup_nil_2.
  - apply NoDup_cons in Hn as [Hng Hn].
    assert (Hskip : match build_decodes cfg (S i) active b ds with
      | inr (b', ds') => ∃ bs dl, b' = b ++ bs ∧ ds' = ds ++ dl ∧ decodes_of i (g :: active) b bs dl
      | inl k => ∃ k' g', k = i + k' ∧ (g :: active) !! k' = Some g' ∧ paused g' = false end).
    { specialize (IH (S i) b ds Hn). destruct (build_decodes cfg (S i) active b ds) as [k|[b' ds']].
      - destruct IH as (k' & g' & -> & ? & ?). exists (S k'), g'. split_and!; [lia|done|done].
      - destruct IH as (bs & dl & -> & -> & H). exists bs, dl. split_and!; [done|done|]. by apply decodes_skip. }
    destruct (paused g || prefilling g) eqn:Ep; [done|]. apply orb_false_iff in Ep as [Ep1 Ep2].
    destruct (g_pending g) as [p|] eqn:Epp; [|done]. clear Hskip.
    destruct (push cfg b _) as [[index b1]|] eqn:Epush; [|by exists 0, g; rewrite Nat.add_0_r].
    apply push_Some in Epush as [-> ->]. specialize (IH (S i) (b ++ [MkEntry (pending_tok p) (g_kv_len g) (g_seq g) true]) (ds ++ [(i, length b)]) Hn).
    destruct (build_decodes cfg (S i) active _ _) as [k|[b' ds']].
    + destruct IH as (k' & g' & -> & ? & ?). exists (S k'), g'. split_and!; [lia|done|done].
    + destruct IH as (bs & dl & -> & -> & H). eexists _, _. rewrite <- !app_assoc. split_and!; [done|done|].
      by apply decodes_take.
Qed.

(** ** Prefill *)
Lemma push_chunk_spec g toks b j tl b' tl' :
  push_chunk cfg b g j toks tl = Some (b', tl') →
  ∃ bs, b' = b ++ bs ∧ length bs = length toks ∧ (∀ e, e ∈ bs → e_seq e = g_seq g) ∧ toks_of (g_seq g) bs = toks
    ∧ (toks ≠ [] → g_prefill_done g + j + length toks = length (g_prefix g) →
       ∃ index e, tl' = Some index ∧ S index = length b' ∧ b' !! index = Some e ∧ e_logits e = true ∧ e_seq e = g_seq g).
Proof.
  revert b j tl. induction toks as [|t toks IH]; intros b j tl Hp; cbn [push_chunk] in Hp.
  - injection Hp as <- <-. exists []. rewrite app_nil_r. split_and!; try done. set_solver.
  - destruct (push cfg b _) as [[index b1]|] eqn:Epush; [|discriminate Hp]. apply push_Some in Epush as [-> ->].
    cbn in Hp. destruct (IH _ _ _ Hp) as (bs & Hb & Hlen & Hseq & Htoks & Htail). rewrite <- app_assoc in Hb.
    eexists. split; [exact Hb|]. split_and!.
    + simpl. lia.
    + intros e He. simpl in He. apply elem_of_cons in He as [->|He]; [done|by apply Hseq].
    + simpl. rewrite toks_of_cons, decide_True, Htoks by done. done.
    + intros _ Hend. simpl in Hend. destruct toks as [|t' toks].
      * simpl in Hend. cbn [push_chunk] in Hp. injection Hp as <- <-.
        replace (g_prefill_done g + j + 1 =? length (g_prefix g)) with true by (symmetry; apply Nat.eqb_eq; lia).
        eexists _, _. split_and!; [done|rewrite length_app; simpl; lia| | |].
        -- by apply list_lookup_middle.
        -- done.
        -- done.
      * apply Htail; [done|]. simpl in *. lia.
Qed.

Record prefill_of (i : nat) (active : list ActiveGen) (b : Batch) (b' : Batch) (pf : Prefill) : Prop := {
  pr_gen : ∃ k g bs, pf_index pf = i + k ∧ active !! k = Some g ∧ paused g = false ∧ prefilling g = true
    ∧ b' = b ++ bs ∧ (∀ e, e ∈ bs → e_seq e = g_seq g)
    ∧ g_prefill_done g + pf_chunk pf ≤ length (g_prefix g) ∧ 0 < pf_chunk pf
    ∧ toks_of (g_seq g) bs = take (pf_chunk pf) (drop (g_prefill_done g) (g_prefix g))
    ∧ (g_prefill_done g + pf_chunk pf = length (g_prefix g) →
       ∃ index e, pf_tail pf = Some index ∧ S index = length b' ∧ b' !! index = Some e ∧ e_logits e = true
                  ∧ e_seq e = g_seq g) }.

Lemma build_prefill_spec active i b :
  match build_prefill cfg i active b with
  | inr (b', None) => b' = b
  | inr (b', Some pf) => prefill_of i active b b' pf
  | inl k => ∃ k' g, k = i + k' ∧ active !! k' = Some g ∧ paused g = false
  end.
Proof.
  revert i. induction active as [|g active IH]; intros i; cbn [build_prefill]; [done|].
  destruct (paused g || negb (prefilling g)) eqn:Ep.
  - specialize (IH (S i)). destruct (build_prefill cfg (S i) active b) as [k|[b' [pf|]]]; [| |done].
    + destruct IH as (k' & g' & -> & ? & ?). exists (S k'), g'. split_and!; [lia|done|done].
    + destruct IH as [(k & g' & bs & Hk & H)]. split. exists (S k), g', bs. split; [lia|done].
  - apply orb_false_iff in Ep as [Ep1 Ep2]. apply negb_false_iff in Ep2.
    destruct (n_batch cfg - length b =? 0) eqn:Espace; [done|]. apply Nat.eqb_neq in Espace.
    pose proof Ep2 as Hpf. unfold prefilling in Hpf. apply Nat.ltb_lt in Hpf.
    set (stop := min _ _). assert (g_prefill_done g < stop ≤ length (g_prefix g)) by lia.
    destruct (push_chunk _ _ _ _ _ _) as [[b' tl]|] eqn:Echunk; [|by exists 0, g; rewrite Nat.add_0_r].
    destruct (push_chunk_spec _ _ _ _ _ _ _ Echunk) as (bs & -> & Hlen & Hseq & Htoks & Htail).
    assert (Hl : length (take (stop - g_prefill_done g) (drop (g_prefill_done g) (g_prefix g))) = stop - g_prefill_done g).
    { rewrite length_take, length_drop. lia. }
    split. exists 0, g, bs. simpl. split_and!; try done; try lia.
    intros Hend. apply Htail; [|lia]. intros Hnil. rewrite Hnil in Hl. simpl in Hl. lia.
Qed.
End build.
