(* ===== verification/GenPost.v ===== *)
(** * The engine host: the work after a decode *)

From Stdlib Require Import ZArith Lia.
From stdpp Require Import base list strings option gmap.
From S2P Require Import Prelude Float StrUtil StopScan Engine GenOps GenLoop GenStep GenRef GenInv GenOpsOk GenWorld GenSweep GenDecode.

Open Scope nat_scope.

Lemma mapM_snoc {A B} (f : A → option B) l k x y : mapM f l = Some k → f x = Some y → mapM f (l ++ [x]) = Some (k ++ [y]).
Proof. intros Hl Hx. apply mapM_Some in Hl. apply mapM_Some. apply Forall2_app; [done|]. by constructor. Qed.

Section post.
Context {E : Engine} {W : Env} {EL : EngineLaws E} {L : EnvLaws W}.
Variable jobs : nat → Job.
Variable cfg : HostCfg.
Hypothesis zeroed_text : ∀ c, is_eog (sample_zeroed c).1 = false.

Abbreviation target := (target jobs).
Abbreviation gen_ok := (gen_ok jobs cfg).
Abbreviation stream_ok := (stream_ok jobs cfg).
Abbreviation phase_ok := (phase_ok jobs cfg).
Abbreviation gstep := (gstep jobs cfg).
Abbreviation confirmed := (confirmed jobs cfg).
Abbreviation row_of := (row_of cfg).

(** A sequence whose pending token was just decoded at [index]. *)
Record stepped (index : nat) (cx : Ctx) (g : ActiveGen) (p : PendingTok) : Prop := {
  sd_stream : stream_ok true cx g;
  sd_phase : phase_ok g;
  sd_done : g_done g = false;
  sd_held : g_held g = [];
  sd_terminal : g_terminal g = None;
  sd_prefilled : g_prefill_done g = length (g_prefix g);
  sd_pending : g_pending g = Some p;
  sd_kv : kv_of (cx_kv cx) (g_seq g) = g_hist g ++ [pending_tok p];
  sd_kv_len : g_kv_len g = length (g_hist g);
  sd_row : row_of cx index (g_hist g ++ [pending_tok p]) }.

(** The generation with its pending token confirmed. *)
Definition confirm (p : PendingTok) (g : ActiveGen) : ActiveGen :=
  set_remaining (g_remaining g - 1) (set_attempt (g_attempt g ++ [pending_tok p])
    (set_pending None (set_kv_len (S (g_kv_len g)) g))).

Lemma confirm_gen p g : g_gen (confirm p g) = g_gen g ++ [pending_tok p].
Proof. unfold g_gen, confirm. simpl. by rewrite app_assoc. Qed.
Lemma confirm_hist p g : g_hist (confirm p g) = g_hist g ++ [pending_tok p].
Proof. unfold g_hist, confirm. simpl. by rewrite app_assoc. Qed.

Lemma not_suspect g : phase_ok g → g_terminal g = None → g_kv_suspect g = false.
Proof. intros (_ & _ & _ & _ & _ & H & _) Ht. destruct (g_kv_suspect g); [|done]. destruct (H eq_refl). done. Qed.

(** After the confirmation, the budget may be spent; else the next token. *)
Definition go_on (index : nat) (g : ActiveGen) : M ActiveGen :=
  if g_remaining g =? 0 then finish_or_defer g Length (hc_kv_reuse cfg)
  else '(next, g) ← sample_ith g index; next_token cfg g next true.

Lemma go_on_spec index cx g P :
  confirmed cx g P → row_of cx index (g_hist g) →
  target (g_id g) = prepend P (g_gen g) (ref_run (g_remaining g) (g_hist g) (g_chain g) (g_scan g)) →
  wp (go_on index g) (gstep (negb (cx_torn cx)) cx g) cx.
Proof.
  intros Hc Hrow Hr. unfold go_on. destruct (g_remaining g =? 0) eqn:E0.
  - apply Nat.eqb_eq in E0. eapply finish_or_defer_spec; [exact Hc|]. rewrite Hr, E0. simpl.
    by rewrite prepend_out, !app_nil_r.
  - apply Nat.eqb_neq in E0. eapply advance_spec; [done|exact Hc| |done|by left]. split; [lia|done].
Qed.

(** The state after a confirmed piece went out (or was withheld at once). *)
Lemma confirm_confirmed index cx cx' g p P P' h n st sc :
  stepped index cx g p → quiet (g_id g) cx cx' → delivered cx' (redeliver h n st (set_scan sc (confirm p g))) P' →
  P' `prefix_of` ro_pieces (target (g_id g)) →
  (hc_distributed cfg = true → resumable jobs cfg true g P → ∃ piece, P' = P ++ [piece] ∧ token_to_piece (pending_tok p) = Some piece
     ∧ target (g_id g) = prepend P' (g_gen g ++ [pending_tok p])
         (ref_run (g_remaining g - 1) (g_hist g ++ [pending_tok p]) (g_chain g) sc)) →
  (hc_distributed cfg = true → resumable jobs cfg true g P) →
  confirmed cx' (redeliver h n st (set_scan sc (confirm p g))) P'.
Proof.
  intros [S1 S2 S3 S4 S5 S6 S7 S8 S9 S10] Hq Hdel Hpre Hres Hres0. destruct S1 as (Ho & Hf & _).
  set (g' := redeliver _ _ _ _).
  assert (Hgen : g_gen g' = g_gen g ++ [pending_tok p]) by apply confirm_gen.
  assert (Hhist : g_hist g' = g_hist g ++ [pending_tok p]) by apply confirm_hist.
  split; try done.
  - intros Hd. destruct (Hres Hd (Hres0 Hd)) as (piece & -> & Hpc & Ht). destruct (Hres0 Hd Hd) as [Hm Hg].
    rewrite Hgen. split; [by apply mapM_snoc|]. intros Hj. destruct (Hg Hj) as (c & Hc & Hch & _). exists c.
    split_and!; [done|done|]. intros _. rewrite Hhist. rewrite <- (Hch eq_refl). exact Ht.
  - rewrite Hgen, length_app. unfold g'. simpl. destruct S2 as (_ & _ & _ & _ & Hcount & _).
    change (g_id (redeliver _ _ _ _)) with (g_id g). rewrite Hcount by (by rewrite S5). lia.
  - exact (not_suspect g S2 S5).
  - rewrite (qu_kv _ _ _ Hq), Hhist. exact S8.
  - rewrite Hhist, length_app. unfold g'. simpl. rewrite S9. lia.
Qed.

Lemma post_decode_eq index g p :
  g_pending g = Some p → 0 < g_remaining g →
  ∀ Q cx,
  wp (match p with
      | Sent _ false => finish_seq (confirm p g) Stop (hc_kv_reuse cfg)
      | Sent _ true => go_on index (confirm p g)
      | Unsent _ piece =>
          let '(admitted, sc) := scan_admit (g_scan g) piece in
          if (admitted : bool) then
            '(g, alive) ← emit_confirmed (set_scan sc (confirm p g)) piece;
            if (alive : bool) then go_on index g else mret g
          else finish_seq (set_scan sc (confirm p g)) Stop (hc_kv_reuse cfg)
      end) Q cx → wp (post_decode cfg index g) Q cx.
Proof.
  intros Hp Hr Q cx Hw. unfold post_decode. wp. eapply wp_unwrap; [exact Hp|]. wp. apply wp_dec; [done|].
  destruct p as [t piece|t []]; exact Hw.
Qed.

Lemma post_decode_spec index cx g p :
  stepped index cx g p → wp (post_decode cfg index g) (gstep (negb (cx_torn cx)) cx g) cx.
Proof.
  intros Hst. pose proof Hst as [S1 S2 S3 S4 S5 S6 S7 S8 S9 S10].
  destruct S1 as (Ho & Hf & P & Hpre & Hdel & Hprom & Hres).
  pose proof S2 as (_ & _ & _ & Hleft & _ & _ & Hkind). specialize (Hleft S5). specialize (Hkind _ S7).
  eapply post_decode_eq; [exact S7|done|]. unfold promise in Hprom. rewrite S5, S7 in Hprom.
  assert (Hend : ∀ sc, target (g_id g) = MkOut P (g_gen g ++ [pending_tok p]) (RFin Stop) →
    wp (finish_seq (set_scan sc (confirm p g)) Stop (hc_kv_reuse cfg)) (gstep (negb (cx_torn cx)) cx g) cx).
  { intros sc Ht. eapply wp_same_fix; [|eapply finish_seq_spec]; try done.
    - change (g_gen (set_scan sc (confirm p g))) with (g_gen (confirm p g)). rewrite confirm_gen. exact Ht.
    - intros _. change (g_hist (set_scan sc (confirm p g))) with (g_hist (confirm p g)). rewrite confirm_hist. exact S8. }
  destruct p as [t piece|t [|]]; simpl in *.
  - destruct Hkind as [Hd Hpc]. specialize (Hprom eq_refl). unfold ref_emit in Hprom.
    destruct (scan_admit (g_scan g) piece) as [[] sc] eqn:Es; [|apply Hend; by rewrite Hprom, prepend_out, app_nil_r].
    rewrite prepend_prepend in Hprom.
    destruct Hdel as (ps & D1 & D2 & D3 & D4).
    assert (Hconf : ∀ cx' h n st, quiet (g_id g) cx cx' →
      delivered cx' (redeliver h n st (set_scan sc (confirm (Unsent t piece) g))) (P ++ [piece]) →
      wp (go_on index (redeliver h n st (set_scan sc (confirm (Unsent t piece) g)))) (gstep (negb (cx_torn cx)) cx g) cx').
    { intros cx' h n st Hq Hdel'. pose proof (qu_local _ _ _ Hq (g_seq g)) as Hl.
      rewrite <- (lo_torn _ _ _ _ Hl). eapply wp_mono.
      - eapply go_on_spec.
        + eapply (confirm_confirmed index cx cx' g (Unsent t piece) P (P ++ [piece]) h n st sc Hst Hq Hdel').
          * rewrite Hprom. apply prepend_prefix.
          * intros _ _. exists piece. by split_and!.
          * done.
        + change (g_hist (redeliver _ _ _ _)) with (g_hist (confirm (Unsent t piece) g)). rewrite confirm_hist.
          unfold GenOpsOk.row_of. rewrite (lo_rows _ _ _ _ Hl), (lo_torn _ _ _ _ Hl). exact S10.
        + change (g_hist (redeliver _ _ _ _)) with (g_hist (confirm (Unsent t piece) g)).
          change (g_gen (redeliver _ _ _ _)) with (g_gen (confirm (Unsent t piece) g)).
          rewrite confirm_hist, confirm_gen. exact Hprom.
      - intros g' cx'' HG. eapply gstep_quiet; [exact Hq| |exact HG]. done. }
    unfold emit_confirmed. wp. apply try_send_spec; intros Hg; wp.
    + eapply wp_mono; [apply (cancel_seq_spec jobs cfg (negb (cx_torn cx)) _ (ticked cx) P)|]; [done|done| |].
      * exists ps. split_and!; try done. intros Hg'. destruct (gone_ticked _ _ Hg Hg').
      * intros g' cx' HG. wp. eapply gstep_quiet; [apply quiet_ticked| |exact HG]. done.
    + specialize (D4 Hg). rewrite S4, app_nil_r in D4. subst ps. simpl. rewrite S4. simpl.
      apply (Hconf (ticked cx) [piece] (g_pieces_sent g) true); [apply quiet_ticked|].
      exists P. split_and!; [done|done|by apply prefix_app_r|done].
    + specialize (D4 Hg). rewrite S4, app_nil_r in D4. subst ps. cbn beta iota.
      assert (Hx : ∀ g1, g_held g1 = [] → set_stalled false (set_pieces_sent (S (g_pieces_sent g1)) g1) = redeliver [] (S (g_pieces_sent g1)) false g1).
      { intros [] Hh. simpl in Hh. by subst. }
      rewrite (Hx (set_scan sc (confirm (Unsent t piece) g))) by done.
      apply (Hconf (sent _ _ cx)); [apply quiet_sent|].
      exists (P ++ [piece]). split_and!; [| |done|intros _; by rewrite app_nil_r].
      * unfold streamed in *. simpl. change (g_id (redeliver _ _ _ _)) with (g_id g).
        change (g_id (set_scan _ _)) with (g_id g). rewrite evs_snoc_eq, D1. by rewrite fmap_app.
      * rewrite length_app. simpl. change (g_pieces_sent (set_scan _ _)) with (g_pieces_sent g). lia.
  - eapply wp_same_fix; [|eapply go_on_spec]; [done| | |].
    + rewrite <- (redeliver_id (confirm (Sent t true) g)).
      assert (Hsc : confirm (Sent t true) g = set_scan (g_scan g) (confirm (Sent t true) g)) by (by destruct g).
      rewrite Hsc at 4. eapply (confirm_confirmed index cx cx g (Sent t true) P P); [done|apply quiet_refl| |done| |].
      * rewrite <- Hsc, redeliver_id. exact Hdel.
      * intros; congruence.
      * intros; congruence.
    + rewrite confirm_hist. exact S10.
    + rewrite confirm_hist, confirm_gen. exact Hprom.
  - specialize (Hend (g_scan g) Hprom). by destruct g.
Qed.

(** A sequence whose next prefill chunk was just decoded. *)
Record chunked (pf : Prefill) (cx : Ctx) (g : ActiveGen) : Prop := {
  cd_stream : stream_ok true cx g;
  cd_phase : phase_ok g;
  cd_held : g_held g = [];
  cd_terminal : g_terminal g = None;
  cd_prefilling : prefilling g = true;
  cd_chunk : g_prefill_done g + pf_chunk pf ≤ length (g_prefix g);
  cd_kv : kv_of (cx_kv cx) (g_seq g) = take (g_prefill_done g + pf_chunk pf) (g_prefix g);
  cd_kv_len : g_kv_len g = g_prefill_done g;
  cd_row : g_prefill_done g + pf_chunk pf = length (g_prefix g) →
    ∃ index, pf_tail pf = Some index ∧ row_of cx index (g_prefix g) }.

Lemma post_prefill_spec pf cx g :
  g_done g = false → chunked pf cx g → wp (post_prefill cfg pf g) (gstep (negb (cx_torn cx)) cx g) cx.
Proof.
  intros Hd [C1 C2 C3 C4 C5 C6 C7 C8 C9]. unfold post_prefill. rewrite Hd.
  set (g' := set_prefill_done _ _).
  pose proof C2 as (Ph1 & Ph2 & Ph3 & Ph4 & Ph5 & Ph6 & Ph7). destruct (Ph2 C5) as [Hatt Hpend].
  assert (Hhist : g_hist g = g_prefix g) by (unfold g_hist; by rewrite Hatt, app_nil_r).
  change (g_prefix g') with (g_prefix g). change (g_prefill_done g') with (g_prefill_done g + pf_chunk pf).
  destruct (_ =? _) eqn:Eend; [apply Nat.eqb_eq in Eend|apply Nat.eqb_neq in Eend].
  - destruct (C9 Eend) as (index & Htail & Hrow). rewrite Eend, take_ge in C7 by lia.
    destruct C1 as (Ho & Hf & P & Hpre & Hdel & Hprom & Hres).
    wp. eapply wp_unwrap; [exact Htail|].
    eapply (wp_same_fix jobs cfg _ _ g'); [done|].
    eapply (advance_spec jobs cfg zeroed_text cx g' P index false); [| | |by right].
    + split; try done.
      * apply Ph5. by rewrite C4.
      * exact (not_suspect g C2 C4).
      * change (g_hist g') with (g_hist g). by rewrite Hhist.
      * change (g_hist g') with (g_hist g). rewrite Hhist. unfold g'. simpl. lia.
    + split; [by apply Ph4|]. unfold promise in Hprom. rewrite C4, Hpend in Hprom. exact Hprom.
    + change (g_hist g') with (g_hist g). by rewrite Hhist.
  - wp. apply gstep_mono. split; [apply local_refl|done|]. unfold g' at 1. simpl. rewrite Hd. split; [apply shared_refl|].
    assert (Hpf : prefilling g' = true) by (unfold prefilling, g'; simpl; apply Nat.ltb_lt; gs; lia).
    split_and!; [exact C1| |].
    + split_and!; try done. congruence.
    + intros _ _. rewrite Hpf. change (g_hist g') with (g_hist g). change (g_seq g') with (g_seq g). unfold g'. simpl.
      rewrite Hhist, C7, C8. done.
Qed.

(** ** All sequences of a step *)

(** [ds] and [pf] are the parts of the step still to be worked off. *)
Definition in_step (ds : list (nat * nat)) (pf : option Prefill) (i : nat) (cx : Ctx) (g : ActiveGen) : Prop :=
  (∃ index p, (i, index) ∈ ds ∧ stepped index cx g p)
  ∨ (i ∉ ds.*1 ∧ match pf with
                 | Some pf => if decide (i = pf_index pf) then chunked pf cx g else good jobs cfg i cx g
                 | None => good jobs cfg i cx g
                 end).

Lemma stepped_stable index p j s cx cx' g :
  local j s cx cx' → g_id g ≠ j → g_seq g ≠ s → stepped index cx g p → stepped index cx' g p.
Proof.
  intros Hl Hj Hs [S1 S2 S3 S4 S5 S6 S7 S8 S9 S10]. split; try done.
  - by eapply stream_ok_local.
  - by rewrite (lo_kv _ _ _ _ Hl).
  - unfold GenOpsOk.row_of. by rewrite (lo_rows _ _ _ _ Hl), (lo_torn _ _ _ _ Hl).
Qed.

Lemma chunked_stable pf j s cx cx' g :
  local j s cx cx' → g_id g ≠ j → g_seq g ≠ s → chunked pf cx g → chunked pf cx' g.
Proof.
  intros Hl Hj Hs [C1 C2 C3 C4 C5 C6 C7 C8 C9]. split; try done.
  - by eapply stream_ok_local.
  - by rewrite (lo_kv _ _ _ _ Hl).
  - unfold GenOpsOk.row_of. by rewrite (lo_rows _ _ _ _ Hl), (lo_torn _ _ _ _ Hl).
Qed.

Lemma in_step_stable ds pf : stable (in_step ds pf).
Proof.
  intros i j s cx cx' g Hl Hj Hs [(index & p & Hin & Hst)|[Hn Hg]].
  - left. exists index, p. split; [done|]. by eapply stepped_stable.
  - right. split; [done|]. destruct pf as [pf|]; [case_decide|]; [by eapply chunked_stable|by eapply good_stable|by eapply good_stable].
Qed.

Abbreviation Inv := (Inv jobs cfg).

Lemma at_index_spec Φ Φ' b f sub active queue inbox i g cx :
  stable Φ → (∀ k cx g, k ≠ i → Φ k cx g → Φ' k cx g) → (∀ cx' g', cx_torn cx' = cx_torn cx → gen_ok b cx' g' → Φ' i cx' g') →
  Inv Φ sub active queue inbox cx → active !! i = Some g → g_done g = false → wp (f g) (gstep b cx g) cx →
  wp (at_index i f active)
    (λ active' cx', Inv Φ' sub active' queue inbox cx' ∧ (∀ k, k ≠ i → active' !! k = active !! k)
                    ∧ length active' = length active ∧ cx_torn cx' = cx_torn cx) cx.
Proof.
  intros Hst Hoth Hthis HI Hi Hd Hf. unfold at_index. wp. eapply wp_unwrap; [exact Hi|]. wp.
  eapply wp_mono; [exact Hf|]. intros g' cx' HG. wp.
  pose proof (lookup_lt_Some _ _ _ Hi) as Hlt. pose proof (lo_torn _ _ _ _ (gs_local _ _ _ _ _ _ _ HG)) as Ht.
  split_and!; [|intros k Hk; by rewrite list_lookup_insert_ne|by rewrite length_insert|done].
  rewrite insert_take_drop by done.
  assert (Hlen : length (take i active) = i) by (rewrite length_take; lia).
  rewrite <- (take_drop_middle _ _ _ Hi) in HI.
  eapply (inv_gstep jobs cfg HI Hd HG); rewrite ?Hlen; auto.
Qed.

Lemma post_decodes_spec sub pf queue inbox ds active cx :
  Inv (in_step ds pf) sub active queue inbox cx → NoDup ds.*1 →
  (∀ i, i ∈ ds.*1 → ∃ g, active !! i = Some g ∧ g_done g = false) →
  (∀ pf', pf = Some pf' → pf_index pf' ∉ ds.*1) →
  wp (post_decodes cfg ds active)
    (λ active' cx', Inv (in_step [] pf) sub active' queue inbox cx' ∧ length active' = length active
                    ∧ cx_torn cx' = cx_torn cx) cx.
Proof.
  revert active cx. induction ds as [|[i index] ds IH]; intros active cx HI Hn Hlive Hpf; cbn [post_decodes]; [by wp|].
  simpl in Hn. apply NoDup_cons in Hn as [Hni Hn].
  destruct (Hlive i ltac:(set_solver)) as (g & Hi & Hd).
  assert (Hst : ∃ p, stepped index cx g p).
  { destruct (i_gens _ _ _ _ _ _ _ _ HI i g Hi Hd) as [(index' & p & Hin & Hs)|[Hni' _]]; [|simpl in Hni'; set_solver].
    exists p. apply elem_of_cons in Hin as [Heq|Hin]; [by injection Heq as ->|].
    destruct Hni. by apply (list_elem_of_fmap_2 fst) in Hin. }
  destruct Hst as [p Hst]. wp.
  eapply wp_mono; [eapply (at_index_spec (in_step ((i, index) :: ds) pf) (in_step ds pf) (negb (cx_torn cx)) (post_decode cfg index)
                            sub active queue inbox i g cx)|].
  - apply in_step_stable.
  - intros k cx' g' Hk [(index' & p' & Hin & Hs)|[Hnk Hg]]; [left|right].
    + apply elem_of_cons in Hin as [Heq|Hin]; [congruence|]. eauto.
    + simpl in Hnk. split; [set_solver|done].
  - intros cx' g' Ht Hg. right. split; [done|]. destruct pf as [pf|]; [rewrite decide_False|]; [by unfold good; rewrite Ht| |by unfold good; rewrite Ht].
    intros ->. apply (Hpf pf eq_refl). simpl. set_solver.
  - done.
  - done.
  - done.
  - by eapply post_decode_spec.
  - intros active' cx' (HI' & Hsame & Hlen & Ht).
    eapply wp_mono; [apply IH; [done|done| |]|].
    + intros k Hk. destruct (Hlive k ltac:(simpl; set_solver)) as (gk & Hgk & Hdk). exists gk.
      split; [|done]. rewrite Hsame; [done|]. intros ->. done.
    + intros pf' ->. specialize (Hpf _ eq_refl). simpl in Hpf. set_solver.
    + intros active'' cx'' (? & ? & ?). split_and!; [done|lia|congruence].
Qed.

Lemma post_prefill_phase sub pf queue inbox active cx :
  Inv (in_step [] pf) sub active queue inbox cx →
  (∀ pf', pf = Some pf' → is_Some (active !! pf_index pf')) →
  wp (match pf with
      | Some pf => at_index (pf_index pf) (post_prefill cfg pf) active
      | None => mret active
      end)
    (λ active' cx', Inv (good jobs cfg) sub active' queue inbox cx' ∧ cx_torn cx' = cx_torn cx) cx.
Proof.
  intros HI Hin. destruct pf as [pf|].
  - destruct (Hin pf eq_refl) as [g Hi].
    assert (Hoth : ∀ k cx g, k ≠ pf_index pf → in_step [] (Some pf) k cx g → good jobs cfg k cx g).
    { intros k cx' g' Hk [(? & ? & Hx & _)|[_ Hg]]; [set_solver|]. by rewrite decide_False in Hg. }
    destruct (g_done g) eqn:Hd.
    + unfold at_index, post_prefill. wp. eapply wp_unwrap; [exact Hi|]. rewrite Hd. wp. rewrite list_insert_id by done.
      split; [|done]. destruct HI as [I1 I2 I3 I4 I5 I6 I7 I8 I9 I10 I11 I12 I13]. split; try done.
      intros i g' Hi' Hd'. apply Hoth; [|by apply I4]. intros ->. congruence.
    + eapply wp_mono; [eapply (at_index_spec (in_step [] (Some pf)) (good jobs cfg) (negb (cx_torn cx)) (post_prefill cfg pf)
                              sub active queue inbox (pf_index pf) g cx)|].
      * apply in_step_stable.
      * done.
      * intros cx' g' Ht Hg. unfold good. by rewrite Ht.
      * done.
      * done.
      * done.
      * apply post_prefill_spec; [done|]. destruct (i_gens _ _ _ _ _ _ _ _ HI _ g Hi Hd) as [(? & ? & Hx & _)|[_ Hg]]; [set_solver|].
        by rewrite decide_True in Hg.
      * intros active' cx' (? & _ & _ & ?). done.
  - wp. split; [|done]. destruct HI as [I1 I2 I3 I4 I5 I6 I7 I8 I9 I10 I11 I12 I13]. split; try done.
    intros i g' Hi' Hd'. destruct (I4 i g' Hi' Hd') as [(? & ? & Hx & _)|[_ Hg]]; [set_solver|done].
Qed.
End post.
