(* ===== verification/GenPlain.v ===== *)
(** * The engine host: a plain step keeps the invariant *)

From Stdlib Require Import ZArith Lia.
From stdpp Require Import base list strings option gmap.
From S2P Require Import Prelude Float StrUtil StopScan Engine GenOps GenLoop GenStep GenRef GenInv GenOpsOk GenWorld GenSweep GenDecode GenPost.

Open Scope nat_scope.

Section plain.
Context {E : Engine} {W : Env} {EL : EngineLaws E} {L : EnvLaws W}.
Variable jobs : nat → Job.
Variable cfg : HostCfg.

Abbreviation target := (target jobs).
Abbreviation gen_ok := (gen_ok jobs cfg).
Abbreviation stream_ok := (stream_ok jobs cfg).
Abbreviation phase_ok := (phase_ok jobs cfg).
Abbreviation gstep := (gstep jobs cfg).
Abbreviation row_of := (row_of cfg).
Abbreviation Inv := (Inv jobs cfg).
Abbreviation good := (good jobs cfg).

(** ** Changes to the session *)
Record session_only (cx cx' : Ctx) : Prop := {
  so_tick : cx_tick cx ≤ cx_tick cx';
  so_out : cx_out cx' = cx_out cx;
  so_outbox : cx_outbox cx' = cx_outbox cx;
  so_reports : cx_reports cx' = cx_reports cx;
  so_free : cx_free cx' = cx_free cx }.

Lemma stream_ok_session b cx cx' g : session_only cx cx' → stream_ok b cx g → stream_ok b cx' g.
Proof.
  intros [S1 S2 _ _ _] (Ho & Hf & P & Hp & (ps & D1 & D2 & D3 & D4) & H). split_and!; [done|done|]. exists P.
  split_and!; [done| |apply H..]. exists ps. split_and!; [unfold streamed; by rewrite S2|done|done|].
  intros Hg. apply D4. destruct (gone (g_id g) (cx_tick cx)) eqn:Eg; [|done].
  pose proof (gone_mono _ _ _ S1 Eg). congruence.
Qed.

Lemma inv_session Φ Φ' sub active queue inbox cx cx' :
  Inv Φ sub active queue inbox cx → session_only cx cx' →
  Forall (slot_ok cx') (cx_retained cx') → NoDup (rt_seq <$> cx_retained cx') →
  (∀ i g, active !! i = Some g → g_done g = false → Φ i cx g → Φ' i cx' g) →
  Inv Φ' sub active queue inbox cx'.
Proof.
  intros [I1 I2 I3 I4 I5 I6 I7 I8 I9 I10 I11 I12 I13] [S1 S2 S3 S4 S5] Hr Hn Hg.
  assert (Hstream : ∀ i ps, streamed i ps cx → streamed i ps cx') by (intros; unfold streamed; by rewrite S2).
  assert (Hres : ∀ i st, resume_ok jobs cx i st → resume_ok jobs cx' i st).
  { intros i st (? & ? & ps & P & ? & ?). split_and!; [done|done|]. exists ps, P. auto. }
  split; try done.
  - by rewrite S5.
  - intros i g Hi Hd. apply Hg; auto.
  - eapply Forall_impl; [done|]. intros q (?&?&?&?& ps & ? & ?). split_and!; eauto.
  - eapply Forall_impl; [done|]. intros [|sup| | | | | |]; try done. intros [? Hr']. split; [done|].
    destruct (sg_resume sup); [|by apply Hstream]. destruct Hr'. auto.
  - rewrite S3, S4. eapply Forall_impl; [done|]. intros e (? & ps & ? & ?). eauto.
  - by rewrite S3.
  - rewrite S4. eapply Forall_impl; [done|]. intros [i [|job st]]; [done|]. intros [? ?]. split; [done|]. by apply Hres.
  - unfold owners in *. by rewrite S4.
  - by rewrite S2.
  - by rewrite S2.
Qed.

(** ** The decode *)
Definition rows_ok (b : Batch) (cx cx' : Ctx) : Prop :=
  ∀ i e, b !! i = Some e → e_logits e = true →
    row_of cx' i (kv_of (cx_kv cx) (e_seq e) ++ toks_of (e_seq e) (take (S i) b)).

Lemma decode_batch_spec b (Q : bool → Ctx → Prop) cx :
  (∀ cx', cx_torn cx = false → session_only cx cx' → cx_retained cx' = cx_retained cx →
     (∀ s, kv_of (cx_kv cx') s = kv_of (cx_kv cx) s ++ toks_of s b) → rows_ok b cx cx' → Q true cx') →
  (∀ cx', session_only cx cx' → cx_torn cx' = cx_torn cx → Q false cx') →
  wp (decode_batch cfg b) Q cx.
Proof.
  intros Hok Hbad. unfold decode_batch. wp. cbn [cx_kv cx_torn upd_tick].
  destruct (decode_ok (cx_tick cx) && negb (cx_torn cx)) eqn:Ed.
  - apply andb_true_iff in Ed as [_ Et]. apply negb_true_iff in Et.
    destruct (decode_entries (cx_kv cx, []) b) as [[kv rows]|] eqn:Edec.
    + destruct (decode_entries_spec _ _ _ _ _ Edec) as (H1 & H2 & _).
      wp. destruct (hc_distributed cfg && tear (cx_tick cx)) eqn:Etear; wp; (apply Hok; [done|split; simpl; lia || done|done|exact H1|]).
      * apply andb_true_iff in Etear as [Hd _]. intros i e Hi Hl. right. simpl. split_and!; [|done|done].
        rewrite list_lookup_fmap. specialize (H2 i e Hi Hl). simpl in H2. by rewrite H2.
      * intros i e Hi Hl. left. by apply H2.
    + wp. apply Hbad; [split; simpl; lia || done|done].
  - wp. apply Hbad; [split; simpl; lia || done|done].
Qed.

(** ** A failed decode *)
Definition shaken (_ : nat) (cx : Ctx) (g : ActiveGen) : Prop := stream_ok (negb (cx_torn cx)) cx g ∧ phase_ok g.

Lemma drop_retained_spec rt cx (Q : unit → Ctx → Prop) :
  (∀ kv, Q tt (upd_kv kv cx)) → wp (drop_retained rt) Q cx.
Proof.
  revert cx. induction rt as [|r rt IH]; intros cx HQ; simpl.
  - wp. specialize (HQ (cx_kv cx)). by destruct cx.
  - unfold seq_rm_all. wp. apply IH. intros kv. specialize (HQ kv). by destruct cx.
Qed.

(** A failed solo decode: the sequence is suspect and fails, or drains first. *)
Lemma fail_suspect_spec cx g :
  hc_distributed cfg = false → g_done g = false → shaken 0 cx g →
  wp (fail_seq (set_kv_suspect true g) ErrDecode) (gstep (negb (cx_torn cx)) cx g) cx.
Proof.
  intros Hs Hd [(Ho & Hf & P & Hp & Hdel & Hprom & Hres) Hph].
  apply (wp_same_fix jobs cfg _ _ (set_kv_suspect true g)); [done|]. apply fail_seq_spec; [done|].
  destruct Hph as (P1 & P2 & P3 & P4 & P5 & P6 & P7).
  destruct (g_terminal (set_kv_suspect true g)) as [t|] eqn:Et; simpl in Et.
  - split_and!; [|split_and!; simpl; try done; by rewrite Et|intros Hx; discriminate Hx].
    split_and!; [done|done|]. exists P. by split_and!.
  - split_and!; [|split_and!; simpl; try done; by intros _; apply P5; rewrite Et|intros Hx; discriminate Hx].
    split_and!; [done|done|]. exists P. split_and!; [done|done|done|]. intros; congruence.
Qed.

(** [each] from an intermediate property of the sequences to [good]. *)
Definition mix (n : nat) (Φ : nat → Ctx → ActiveGen → Prop) (i : nat) : Ctx → ActiveGen → Prop :=
  if i <? n then good i else Φ i.

Lemma mix_stable n Φ : stable Φ → stable (mix n Φ).
Proof. intros Hst i j s cx cx' g. unfold mix. destruct (i <? n); [apply good_stable|apply Hst]. Qed.

Lemma each_from Φ f sub queue inbox l2 l1 cx :
  stable Φ → (∀ i cx g, g_done g = false → Φ i cx g → wp (f g) (gstep (negb (cx_torn cx)) cx g) cx) →
  Forall (λ g, g_done g = false) l2 → Inv (mix (length l1) Φ) sub (l1 ++ l2) queue inbox cx →
  wp (each f l2) (λ l2' cx', Inv good sub (l1 ++ l2') queue inbox cx' ∧ cx_torn cx' = cx_torn cx) cx.
Proof.
  intros Hst Hf. revert l1 cx. induction l2 as [|g l2 IH]; intros l1 cx Hd HI; simpl.
  - wp. split; [|done]. rewrite app_nil_r in *. destruct HI as [I1 I2 I3 I4 I5 I6 I7 I8 I9 I10 I11 I12 I13]. split; try done.
    intros i g Hi Hgd. specialize (I4 i g Hi Hgd). unfold mix in I4.
    rewrite (proj2 (Nat.ltb_lt _ _) (lookup_lt_Some _ _ _ Hi)) in I4. done.
  - inversion Hd as [|? ? Hg Hd']; subst. wp. eapply wp_mono.
    { apply (Hf (length l1)); [done|].
      pose proof (i_gens _ _ _ _ _ _ _ _ HI (length l1) g ltac:(by apply list_lookup_middle) Hg) as Hm.
      unfold mix in Hm. by rewrite Nat.ltb_irrefl in Hm. }
    intros g' cx' HG. pose proof (lo_torn _ _ _ _ (gs_local _ _ _ _ _ _ _ HG)) as Ht.
    assert (HI' : Inv (mix (length (l1 ++ [g'])) Φ) sub ((l1 ++ [g']) ++ l2) queue inbox cx').
    { rewrite <- app_assoc. eapply (inv_gstep jobs cfg HI Hg HG); [by apply mix_stable| |].
      - intros i cx0 g0 Hi. unfold mix. rewrite length_app. simpl.
        destruct (i <? length l1) eqn:E1; destruct (i <? length l1 + 1) eqn:E2; try done.
        + apply Nat.ltb_lt in E1. apply Nat.ltb_ge in E2. lia.
        + apply Nat.ltb_ge in E1. apply Nat.ltb_lt in E2. lia.
      - intros Hgo. unfold mix. rewrite length_app. simpl. rewrite (proj2 (Nat.ltb_lt _ _)) by lia. unfold GenSweep.good. by rewrite Ht. }
    wp. eapply wp_mono; [apply (IH (l1 ++ [g'])); done|].
    intros l2' cx'' [HI'' Ht'']. wp. rewrite <- app_assoc in HI''. split; [done|congruence].
Qed.

(** An interrupted sequence leaves its confirmed tokens behind. *)
Lemma interrupt_resume b cx g :
  hc_distributed cfg = true → stream_ok b cx g → phase_ok g →
  resume_ok jobs cx (g_id g)
    (MkResume (gf_prompt_tokens (g_fix g)) (g_prior g ++ g_attempt g) (g_pieces_sent g) (g_scan g)
       (match g_terminal g with Some (DtFinish k) => Some k | _ => None end)).
Proof.
  intros Hd (Ho & (F1 & F2 & F3 & F4 & F5) & P & Hp & (ps & D1 & D2 & D3 & D4) & Hprom & Hres) (_ & _ & _ & _ & Hcount & _).
  destruct (Hres Hd) as [Hm Hg]. split_and!; [done|done|]. exists ps, P. split_and!; try done.
  intros Hj. destruct (Hg Hj) as (c & Hc & _ & Ht). simpl. fold (g_gen g).
  assert (Hund : undecided (g_terminal g) → rest_ok jobs (g_id g) P (g_gen g) (g_scan g) None).
  { intros Hu. specialize (Ht Hu). specialize (Hcount Hu).
    assert (Hh : g_hist g = prompt jobs (g_id g) ++ g_gen g) by (unfold g_hist, g_gen; by rewrite F3, app_assoc).
    rewrite Hh, Hcount in Ht. split.
    - intros H0. rewrite Ht, H0. simpl. by rewrite prepend_out, !app_nil_r.
    - intros c' Hc'. rewrite Hc in Hc'. injection Hc' as <-. exact Ht. }
  unfold promise in Hprom. destruct (g_terminal g) as [[k|e]|]; [exact Hprom|by apply Hund|by apply Hund].
Qed.

Lemma inv_interrupt sub g l queue inbox cx f st :
  Inv shaken sub (g :: l) queue inbox (upd_free f cx) → g_done g = false → cx_retained cx = [] →
  resume_ok jobs cx (g_id g) st → g_job g = jobs (g_id g) →
  Inv shaken sub l queue inbox
    (upd_free (f ++ [g_seq g]) (upd_reports (cx_reports cx ++ [(g_id g, Interrupted (g_job g) st)]) cx)).
Proof.
  intros [I1 I2 I3 I4 I5 I6 I7 I8 I9 I10 I11 I12 I13] Hd Hret Hres Hjob. simpl in *.
  rewrite live_cons, Hd in I1. split; try done; simpl.
  - rewrite <- I1. simpl. rewrite app_assoc. symmetry. apply Permutation_cons_append.
  - by rewrite Hret.
  - intros i g' Hi Hd'. exact (I4 (S i) g' Hi Hd').
  - eapply Forall_impl; [exact I7|]. intros e (Hr & ?). split; [set_solver|done].
  - apply Forall_app. split; [exact I9|]. by apply Forall_singleton.
  - rewrite <- I10. unfold owners. simpl. rewrite live_cons, Hd, fmap_app. simpl. rewrite !app_assoc. symmetry.
    apply Permutation_cons_append.
Qed.

Lemma interrupt_all_spec sub queue inbox l cx f :
  hc_distributed cfg = true → Forall (λ g, g_done g = false) l → cx_retained cx = [] →
  Inv shaken sub l queue inbox (upd_free f cx) →
  wp (each (interrupt) l)
    (λ _ cx', ∃ f', Inv shaken sub [] queue inbox (upd_free f' cx') ∧ cx_torn cx' = cx_torn cx) cx.
Proof.
  intros Hdist. revert cx f. induction l as [|g l IH]; intros cx f Hd Hret HI; simpl; [wp; eauto|].
  inversion Hd as [|? ? Hg Hd']; subst.
  destruct (i_gens _ _ _ _ _ _ _ _ HI 0 g eq_refl Hg) as [Hs Hph].
  pose proof Hs as (Ho & (Hjob & _) & _).
  pose proof (interrupt_resume _ _ g Hdist Hs Hph) as Hres.
  set (st := MkResume _ _ _ _ _) in Hres. change (interrupt g) with (report_gen g (Interrupted (g_job g) st)).
  unfold report_gen, report. rewrite Ho. wp.
  eapply wp_mono; [eapply (IH _ (f ++ [g_seq g])); [done|done|]|].
  - apply (inv_interrupt sub g l queue inbox cx f); done.
  - intros l' cx' (f' & ? & ?). wp. eauto.
Qed.

Lemma inv_free Φ sub active queue inbox cx f f' :
  (∀ cx g i, Φ i cx g → Φ i (upd_free f' cx) g) →
  Inv Φ sub active queue inbox (upd_free f cx) → f' ≡ₚ f → Inv Φ sub active queue inbox (upd_free f' cx).
Proof.
  intros HΦ [I1 I2 I3 I4 I5 I6 I7 I8 I9 I10 I11 I12 I13] Hp. split; try done; simpl in *.
  - by rewrite Hp.
  - eapply Forall_impl; [exact I2|]. intros r [H1 H2]. split; [|done]. simpl in *. by rewrite Hp.
  - intros i g Hi Hd. specialize (I4 i g Hi Hd). apply (HΦ _ _ _) in I4. exact I4.
Qed.

Lemma free_rest Φ sub active queue inbox cx :
  Inv Φ sub active queue inbox cx → Forall (λ g, g_done g = false) active →
  filter (λ s, ¬ s ∈ map g_seq active) (slots (hc_n_seq_max cfg)) ≡ₚ cx_free cx.
Proof.
  intros HI Hl. pose proof (slots_NoDup (hc_n_seq_max cfg)) as Hn. pose proof (i_slots _ _ _ _ _ _ _ _ HI) as Hp.
  rewrite (live_id _ Hl) in Hp. rewrite <- Hp in *. rewrite filter_app.
  assert (Hnil : filter (λ s, ¬ s ∈ map g_seq active) (g_seq <$> active) = []).
  { apply elem_of_nil_inv. intros s Hs. apply list_elem_of_filter in Hs as [Hs1 Hs2]. done. }
  rewrite Hnil. simpl. rewrite filter_all; [done|]. intros s Hs Hin. apply NoDup_app in Hn as (_ & Hn & _).
  apply (Hn s); [|done]. exact Hin.
Qed.

Lemma decode_failed_spec sub active queue inbox cx0 cx :
  Inv good sub active queue inbox cx0 → Forall (λ g, g_done g = false) active →
  session_only cx0 cx → cx_torn cx = cx_torn cx0 →
  wp (decode_failed cfg active)
    (λ active' cx', Inv good sub active' queue inbox cx' ∧ Forall (λ g, g_done g = false) active'
                    ∧ cx_torn cx' = cx_torn cx) cx.
Proof.
  intros HI Hl Hso Ht.
  assert (Hsh : ∀ kv, Inv shaken sub active queue inbox (upd_retained [] (upd_kv kv cx))).
  { intros kv. eapply (inv_session _ _ _ _ _ _ _ _ HI).
    - destruct Hso. by split.
    - by constructor.
    - by constructor.
    - intros i g Hi Hd (Hs & Hph & _). split; [|done]. eapply (stream_ok_session _ cx0); [destruct Hso; by split|].
      simpl. by rewrite Ht. }
  unfold decode_failed. wp. destruct (hc_distributed cfg) eqn:Hdist; wp.
  - eapply wp_mono; [eapply (interrupt_all_spec sub queue inbox active _ (cx_free cx)); [done|done|done|]|].
    + specialize (Hsh (cx_kv cx)). by destruct cx.
    + intros l cx' (f' & HI' & Ht'). wp. split_and!; [|done|exact Ht'].
      pose proof (free_rest _ _ _ _ _ _ HI' ltac:(done)) as Hf.
      assert (Hg : Inv good sub [] queue inbox (upd_free f' cx')) by (destruct HI'; split; try done; intros; done).
      by eapply (inv_free _ _ _ _ _ _ f').
  - apply drop_retained_spec. intros kv. wp.
    eapply wp_mono; [eapply (each_from shaken _ sub queue inbox active [])|].
    + intros i j s c c' g Hlo Hj Hs [H1 H2]. split; [|done]. rewrite (lo_torn _ _ _ _ Hlo). by eapply stream_ok_local.
    + intros i c g Hd Hs. by apply fail_suspect_spec.
    + done.
    + apply Hsh.
    + intros l cx' [HI' Ht']. wp. split_and!; [|apply live_all|exact Ht']. simpl in HI'.
      apply inv_live_good in HI'. pose proof (free_rest _ _ _ _ _ _ HI' (live_all _)) as Hf.
      eapply (inv_free _ _ _ _ _ _ (cx_free cx')); [|by destruct cx'|done].
      intros c g i Hg. exact Hg.
Qed.

(** ** A decoded step *)
Section decoded.
Context {sub : list nat} {active : list ActiveGen} {queue : list PreparedGen} {inbox : list HostMsg} {cx cx' : Ctx}.
Context (HI : Inv good sub active queue inbox cx) (Hlive : Forall (λ g, g_done g = false) active).
Context (Htorn : cx_torn cx = false) (Hso : session_only cx cx') (Hret : cx_retained cx' = cx_retained cx).
Context {b : Batch} (Hkv : ∀ s, kv_of (cx_kv cx') s = kv_of (cx_kv cx) s ++ toks_of s b) (Hrows : rows_ok b cx cx').

Lemma gen_at i g : active !! i = Some g → g_done g = false ∧ gen_ok true cx g.
Proof.
  intros Hi. assert (Hd : g_done g = false) by (by apply (proj1 (Forall_lookup _ _) Hlive i)).
  split; [done|]. pose proof (i_gens _ _ _ _ _ _ _ _ HI i g Hi Hd) as Hg. unfold GenSweep.good in Hg. by rewrite Htorn in Hg.
Qed.

Lemma seqs_nodup : NoDup (g_seq <$> active).
Proof.
  pose proof (slots_NoDup (hc_n_seq_max cfg)) as Hn. rewrite <- (i_slots _ _ _ _ _ _ _ _ HI), (live_id _ Hlive), NoDup_app in Hn.
  tauto.
Qed.

Lemma seq_inj i k g g' : active !! i = Some g → active !! k = Some g' → g_seq g = g_seq g' → i = k.
Proof.
  intros Hi Hk Heq. eapply NoDup_lookup; [apply seqs_nodup| |]; rewrite list_lookup_fmap; [by rewrite Hi|].
  rewrite Hk. simpl. by rewrite Heq.
Qed.

Lemma untouched i g : active !! i = Some g → toks_of (g_seq g) b = [] → good i cx' g.
Proof.
  intros Hi Hno. destruct (gen_at i g Hi) as [Hd Hg]. apply gen_ok_mono. destruct Hg as (Hs & Hph & Hk).
  split_and!; [by eapply stream_ok_session|done|]. intros S1 S2. rewrite Hkv, Hno, app_nil_r. by apply Hk.
Qed.

Lemma not_paused g : paused g = false → g_held g = [] ∧ g_terminal g = None.
Proof. unfold paused. by destruct (g_held g), (g_terminal g). Qed.

Lemma prefilled g : phase_ok g → prefilling g = false → g_prefill_done g = length (g_prefix g).
Proof. intros (H & _) Hp. unfold prefilling in Hp. apply Nat.ltb_ge in Hp. lia. Qed.

Lemma was_stepped i g p index e :
  active !! i = Some g → decodable g p → toks_of (g_seq g) b = [pending_tok p] →
  b !! index = Some e → e_logits e = true → e_seq e = g_seq g → toks_of (g_seq g) (take (S index) b) = [pending_tok p] →
  stepped jobs cfg index cx' g p.
Proof.
  intros Hi (Hpa & Hpf & Hpe) Htoks He Hlog Hseq Htake. destruct (gen_at i g Hi) as [Hd (Hs & Hph & Hk)].
  destruct (not_paused _ Hpa) as [Hh Ht]. destruct (Hk (not_suspect jobs cfg g Hph Ht)) as [K1 K2]; [by rewrite Ht|].
  rewrite Hpf in K2. rewrite K2, take_ge in K1 by done.
  split; try done.
  - by eapply stream_ok_session.
  - by apply prefilled.
  - by rewrite Hkv, Htoks, K1.
  - specialize (Hrows index e He Hlog). by rewrite Hseq, Htake, K1 in Hrows.
Qed.

Lemma was_chunked i g pf :
  active !! i = Some g → paused g = false → prefilling g = true → g_prefill_done g + pf_chunk pf ≤ length (g_prefix g) →
  toks_of (g_seq g) b = take (pf_chunk pf) (drop (g_prefill_done g) (g_prefix g)) →
  (g_prefill_done g + pf_chunk pf = length (g_prefix g) →
     ∃ index e, pf_tail pf = Some index ∧ S index = length b ∧ b !! index = Some e ∧ e_logits e = true ∧ e_seq e = g_seq g) →
  chunked jobs cfg pf cx' g.
Proof.
  intros Hi Hpa Hpf Hle Htoks Htail. destruct (gen_at i g Hi) as [Hd (Hs & Hph & Hk)].
  destruct (not_paused _ Hpa) as [Hh Ht]. destruct (Hk (not_suspect jobs cfg g Hph Ht)) as [K1 K2]; [by rewrite Ht|].
  pose proof Hph as (_ & H2 & _). destruct (H2 Hpf) as [Hatt _].
  assert (Hhist : g_hist g = g_prefix g) by (unfold g_hist; by rewrite Hatt, app_nil_r).
  rewrite Hpf in K2. rewrite Hhist, K2 in K1.
  assert (Hnew : kv_of (cx_kv cx) (g_seq g) ++ toks_of (g_seq g) b = take (g_prefill_done g + pf_chunk pf) (g_prefix g)).
  { by rewrite K1, Htoks, take_take_drop. }
  split; try done.
  - by eapply stream_ok_session.
  - by rewrite Hkv, Hnew.
  - intros Hend. destruct (Htail Hend) as (index & e & Ht1 & Ht2 & Ht3 & Ht4 & Ht5). exists index. split; [done|].
    specialize (Hrows index e Ht3 Ht4). rewrite Ht5, (take_ge b) in Hrows by lia. rewrite Hnew, Hend, take_ge in Hrows by lia.
    exact Hrows.
Qed.

(** The entries of the batch belong to active sequences. *)
Definition batch_of (dl : list (nat * nat)) (pf : option Prefill) : Prop :=
  ∃ bs, decodes_of 0 active [] bs dl
        ∧ match pf with None => b = bs | Some pf => prefill_of 0 active bs b pf end.

Lemma batch_free dl pf s : batch_of dl pf → s ∈ cx_free cx → toks_of s b = [].
Proof.
  intros (bs & [_ _ _ D4] & Hpf) Hs. apply toks_of_other. intros e He Heq.
  assert (∃ g, g ∈ active ∧ e_seq e = g_seq g) as (g & Hg & Hseq).
  { destruct pf as [pf|]; [|subst; by apply D4].
    destruct Hpf as [(k & g & bs2 & _ & Hk & _ & _ & -> & Hb2 & _)]. apply elem_of_app in He as [He|He]; [by apply D4|].
    exists g. split; [by eapply list_elem_of_lookup_2|by apply Hb2]. }
  pose proof (slots_NoDup (hc_n_seq_max cfg)) as Hn.
  rewrite <- (i_slots _ _ _ _ _ _ _ _ HI), (live_id _ Hlive), NoDup_app in Hn. destruct Hn as (_ & Hn & _).
  apply (Hn s); [|done]. rewrite <- Heq, Hseq. by apply list_elem_of_fmap_2.
Qed.

Lemma decoded_stepped dl pf i g index : batch_of dl pf → active !! i = Some g → (i, index) ∈ dl → ∃ p, stepped jobs cfg index cx' g p.
Proof.
  intros (bs & HD & Hpf) Hi Hin.
  destruct (do_in _ _ _ _ _ HD _ _ Hin) as (k' & g' & p & -> & Hk & Hdec & Ht & m & -> & Hm & Htm).
  simpl in *. rewrite Hi in Hk. injection Hk as <-.
  assert (∃ bs2, b = bs ++ bs2 ∧ toks_of (g_seq g) bs2 = []) as (bs2 & Hb & Hno).
  { destruct pf as [pf|]; [|exists []; subst; by rewrite app_nil_r].
    destruct Hpf as [(k & g2 & bs2 & _ & Hk & _ & Hpfl & Hbb & Hb2 & _)]. exists bs2. split; [done|].
    apply toks_of_other. intros e He Heq. rewrite (Hb2 e He) in Heq. pose proof (seq_inj _ _ _ _ Hk Hi Heq) as ->.
    rewrite Hi in Hk. injection Hk as <-. destruct Hdec as (_ & Hnp & _). congruence. }
  pose proof (lookup_lt_Some _ _ _ Hm). exists p.
  apply (was_stepped k' g p m (MkEntry (pending_tok p) (g_kv_len g) (g_seq g) true)); [done|done| | |done|done|].
  - rewrite Hb, toks_of_app, Ht, Hno. done.
  - rewrite Hb. by apply lookup_app_l_Some.
  - rewrite Hb, take_app_le by lia. done.
Qed.

Lemma inv_decoded dl pf : batch_of dl pf → Inv (in_step jobs cfg dl pf) sub active queue inbox cx'.
Proof.
  intros Hb. eapply (inv_session _ _ _ _ _ _ _ _ HI Hso).
  - rewrite Hret. eapply Forall_impl; [apply (i_retained _ _ _ _ _ _ _ _ HI)|]. intros r [H1 H2].
    split; [by rewrite (so_free _ _ Hso)|]. by rewrite Hkv, (batch_free dl pf), app_nil_r.
  - rewrite Hret. apply (i_retained_nodup _ _ _ _ _ _ _ _ HI).
  - intros i g Hi Hd _. destruct (decide (i ∈ dl.*1)) as [Hin|Hn]; [left|right].
    + apply list_elem_of_fmap in Hin as ([i' index] & Heq & Hin). simpl in Heq. subst i'.
      destruct (decoded_stepped dl pf i g index Hb Hi Hin) as [p Hs]. eauto.
    + split; [done|]. destruct Hb as (bs & HD & Hpf). pose proof (do_out _ _ _ _ _ HD i g Hi Hn) as Hno.
      destruct pf as [pf|]; [|apply untouched; [done|by rewrite Hpf]].
      destruct Hpf as [(k & g2 & bs2 & Hidx & Hk & Hpa & Hpfl & Hbb & Hb2 & Hle & _ & Htoks & Htail)]. simpl in Hidx.
      case_decide as Hip.
      * subst k. rewrite Hip in Hi. rewrite Hk in Hi. injection Hi as <-.
        eapply was_chunked; [exact Hk|done|done|done| |done]. by rewrite Hbb, toks_of_app, Hno.
      * apply untouched; [done|]. rewrite Hbb, toks_of_app, Hno. simpl. apply toks_of_other. intros e He Heq.
        rewrite (Hb2 e He) in Heq. pose proof (seq_inj _ _ _ _ Hk Hi Heq). congruence.
Qed.
End decoded.

(** ** The step *)
Hypothesis zeroed_text : ∀ c, is_eog (sample_zeroed c).1 = false.

Lemma push_failed_spec sub active queue inbox i g cx :
  Inv good sub active queue inbox cx → Forall (λ g, g_done g = false) active → active !! i = Some g → paused g = false →
  wp (active ← at_index i (λ g, fail_seq g ErrPush) active; mret (Stepped_to (live active) false))
    (λ r cx', match r with
              | Blocked => False
              | Stepped_to active' _ => Inv good sub active' queue inbox cx' ∧ Forall (λ g, g_done g = false) active'
              end) cx.
Proof.
  intros HI Hl Hi Hpa. assert (Hd : g_done g = false) by (by apply (proj1 (Forall_lookup _ _) Hl i)).
  pose proof (i_gens _ _ _ _ _ _ _ _ HI i g Hi Hd) as ((Ho & Hf & P & Hp & Hdel & Hprom & Hres) & Hph & Hkv).
  unfold paused in Hpa. destruct (g_held g) eqn:Eh; [|done]. destruct (g_terminal g) eqn:Et; [done|].
  wp. eapply wp_mono; [eapply (at_index_spec jobs cfg good good (negb (cx_torn cx)) (λ g, fail_seq g ErrPush)
                             sub active queue inbox i g cx)|].
  - apply good_stable.
  - done.
  - intros cx' g' Ht Hg. unfold GenSweep.good. by rewrite Ht.
  - done.
  - done.
  - done.
  - apply fail_seq_spec; [done|]. rewrite Et. destruct Hph as (P1 & P2 & P3 & P4 & P5 & P6 & P7). split_and!.
    + split_and!; [done|done|]. exists P. split_and!; [done|done|done|]. intros Hdi. destruct (Hres Hdi) as [Hm Hg].
      split; [done|]. intros Hj. destruct (Hg Hj) as (c & ? & ? & Ht). exists c. split_and!; [done|done|].
      intros _. apply Ht. by rewrite Et.
    + split_and!; simpl; try done. intros _. apply P5. by rewrite Et.
    + intros _ Hx. destruct (Hx ErrPush). done.
  - intros active' cx' (HI' & _). wp. split; [by apply inv_live_good|apply live_all].
Qed.

Lemma plain_step_spec sub active queue inbox cx :
  Inv good sub active queue inbox cx → Forall (λ g, g_done g = false) active →
  wp (plain_step cfg active)
    (λ r cx', match r with
              | Blocked => cx' = cx
              | Stepped_to active' _ => Inv good sub active' queue inbox cx' ∧ Forall (λ g, g_done g = false) active'
              end) cx.
Proof.
  intros HI Hl. unfold plain_step. pose proof (seqs_nodup HI Hl) as Hn.
  pose proof (build_decodes_spec cfg active 0 [] [] Hn) as Hdec.
  destruct (build_decodes cfg 0 active [] []) as [i|[b ds]].
  { destruct Hdec as (k & g & -> & Hi & Hpa). eapply wp_mono; [by eapply push_failed_spec|]. by intros []. }
  destruct Hdec as (bs & dl & -> & -> & HD). simpl.
  pose proof (build_prefill_spec cfg active 0 bs) as Hpre.
  destruct (build_prefill cfg 0 active bs) as [i|[b pf]].
  { destruct Hpre as (k & g & -> & Hi & Hpa). eapply wp_mono; [by eapply push_failed_spec|]. by intros []. }
  assert (Hb : batch_of (active := active) (b := b) dl pf) by (exists bs; split; [done|]; by destruct pf).
  assert (Hmain : wp (ok ← decode_batch cfg b;
              if negb ok then active ← decode_failed cfg active; mret (Stepped_to active true)
              else
                active ← post_decodes cfg dl active;
                active ← (match pf with
                          | Some pf => at_index (pf_index pf) (post_prefill cfg pf) active
                          | None => mret active
                          end);
                mret (Stepped_to (live active) false))
    (λ r cx', match r with
              | Blocked => cx' = cx
              | Stepped_to active' _ => Inv good sub active' queue inbox cx' ∧ Forall (λ g, g_done g = false) active'
              end) cx).
  { wp. apply decode_batch_spec; cbn [negb].
    - intros cx' Ht Hso Hret Hkv Hrows. wp.
      pose proof (inv_decoded HI Hl Ht Hso Hret Hkv Hrows dl pf Hb) as HI'.
      eapply wp_mono; [apply (post_decodes_spec jobs cfg zeroed_text sub pf queue inbox dl active cx' HI' (do_nodup _ _ _ _ _ HD))|].
      + intros i Hin. apply list_elem_of_fmap in Hin as ([k index] & -> & Hin).
        destruct (do_in _ _ _ _ _ HD _ _ Hin) as (k' & g & p & -> & Hk & _). simpl. exists g. split; [done|].
        by apply (proj1 (Forall_lookup _ _) Hl k').
      + intros pf' -> Hin. destruct Hpre as [(k & g & bs2 & Hidx & Hk & _ & Hpfl & _)]. rewrite Hidx in Hin.
        apply list_elem_of_fmap in Hin as ([k1 index] & Heq & Hin). simpl in Heq. subst k1.
        destruct (do_in _ _ _ _ _ HD _ _ Hin) as (k' & g' & p & Heq & Hk' & (_ & Hnp & _) & _). simpl in Heq. subst k'.
        rewrite Hk in Hk'. injection Hk' as <-. congruence.
      + intros active' cx'' (HI'' & Hlen & _). wp.
        eapply wp_mono; [apply (post_prefill_phase jobs cfg zeroed_text sub pf queue inbox active' cx'' HI'')|].
        * intros pf' ->. destruct Hpre as [(k & g & bs2 & Hidx & Hk & _)]. rewrite Hidx. apply lookup_lt_is_Some. rewrite Hlen.
          by apply lookup_lt_Some in Hk.
        * intros active'' cx3 [HI3 _]. wp. split; [by apply inv_live_good|apply live_all].
    - intros cx' Hso Ht. wp. eapply wp_mono; [by eapply decode_failed_spec|]. intros active' cx'' (? & ? & _). by wp. }
  destruct dl, pf; [exact Hmain|by wp|exact Hmain|exact Hmain].
Qed.
End plain.
