(* ===== verification/GenSpec.v ===== *)
(** * The engine host: a speculative round keeps the invariant

    A round verifies drafted tokens with the choices of the target model, so
    whatever the draft model proposes, the stream is the reference's. *)

From Stdlib Require Import ZArith Lia.
From stdpp Require Import base list strings option gmap.
From S2P Require Import Prelude Float StrUtil StopScan Engine GenOps GenLoop GenStep GenRef GenInv GenOpsOk GenWorld GenSweep GenDecode GenPost GenPlain.

Open Scope nat_scope.

(** ** Building the round *)
Fixpoint entries (s : SeqId) (pos : nat) (ds : list Token) : Batch :=
  match ds with [] => [] | d :: ds => MkEntry d pos s true :: entries s (S pos) ds end.

Lemma entries_length s pos ds : length (entries s pos ds) = length ds.
Proof. revert pos. induction ds as [|d ds IH]; intros pos; simpl; [done|by rewrite IH]. Qed.
Lemma entries_toks s pos ds : toks_of s (entries s pos ds) = ds.
Proof.
  revert pos. induction ds as [|d ds IH]; intros pos; simpl; [done|]. rewrite toks_of_cons, decide_True, IH by done. done.
Qed.
Lemma entries_other s s' pos ds : s ≠ s' → toks_of s' (entries s pos ds) = [].
Proof.
  intros Hn. revert pos. induction ds as [|d ds IH]; intros pos; simpl; [done|].
  rewrite toks_of_cons, decide_False, IH by done. done.
Qed.
Lemma entries_take s pos ds n : take n (entries s pos ds) = entries s pos (take n ds).
Proof. revert pos n. induction ds as [|d ds IH]; intros pos [|n]; simpl; [done..|]. by rewrite IH. Qed.
Lemma entries_lookup s pos ds i : i < length ds → ∃ e, entries s pos ds !! i = Some e ∧ e_logits e = true ∧ e_seq e = s.
Proof.
  revert pos i. induction ds as [|d ds IH]; intros pos [|i] Hi; simpl in *; try lia; [eauto|]. apply IH. lia.
Qed.

Section spec.
Context {E : Engine} {W : Env} {EL : EngineLaws E} {L : EnvLaws W}.
Variable jobs : nat → Job.
Variable cfg : HostCfg.

Abbreviation target := (target jobs).
Abbreviation gen_ok := (gen_ok jobs cfg).
Abbreviation phase_ok := (phase_ok jobs cfg).
Abbreviation gstep := (gstep jobs cfg).
Abbreviation confirmed := (confirmed jobs cfg).

(** Only time passes. *)
Definition later (cx cx' : Ctx) : Prop := ∃ t, cx_tick cx ≤ t ∧ cx' = upd_tick t cx.

Lemma later_refl cx : later cx cx.
Proof. exists (cx_tick cx). split; [lia|by destruct cx]. Qed.
Lemma later_ticked cx : later cx (ticked cx).
Proof. exists (S (cx_tick cx)). split; [lia|done]. Qed.
Lemma later_trans a b c : later a b → later b c → later a c.
Proof. intros (t & Ht & ->) (t' & Ht' & ->). simpl in Ht'. exists t'. split; [lia|done]. Qed.

Lemma draft_loop_spec k kv cx :
  wp (draft_loop k kv)
    (λ r cx', later cx cx' ∧ match r with
                             | Some (ds, _) => length ds ≤ k ∧ Forall (λ t, draft_is_eog t = false) ds
                             | None => True
                             end) cx.
Proof.
  revert kv cx. induction k as [|k IH]; intros kv cx; cbn [draft_loop].
  - wp. split; [apply later_refl|]. split; [simpl; lia|done].
  - destruct (draft_is_eog (draft_greedy kv)) eqn:Ee.
    + wp. split; [apply later_refl|]. split; [simpl; lia|done].
    + destruct k as [|k]; [wp; split; [apply later_refl|]; split; [simpl; lia|by constructor]|].
      unfold draft_decode. wp. destruct (draft_ok _); wp; [|split; [apply later_ticked|done]].
      eapply wp_mono; [apply IH|]. intros [[ds kv']|] cx' [Hl H]; wp; (split; [eapply later_trans; [apply later_ticked|done]|]); [|done].
      destruct H as [H1 H2]. split; [simpl; lia|by constructor].
Qed.

Lemma push_drafts_spec s ds b pos ixs b' :
  push_drafts cfg b s pos ds = Some (ixs, b') → ixs = seq (length b) (length ds) ∧ b' = b ++ entries s pos ds.
Proof.
  revert b pos ixs b'. induction ds as [|d ds IH]; intros b pos ixs b' Hp; cbn [push_drafts] in Hp.
  - injection Hp as <- <-. by rewrite app_nil_r.
  - destruct (push cfg b _) as [[i b1]|] eqn:E1; [|discriminate Hp]. cbn in Hp. apply push_Some in E1 as [-> ->].
    destruct (push_drafts cfg _ s (S pos) ds) as [[ixs1 b2]|] eqn:E2; [|discriminate Hp]. cbn in Hp. injection Hp as <- <-.
    apply IH in E2 as [-> ->]. rewrite length_app. simpl. rewrite Nat.add_1_r, <- app_assoc. done.
Qed.

(** The step of a round: the pending token and the drafts, in order. *)
Record round (g : ActiveGen) (p : PendingTok) (b : Batch) (step : SpecStep) : Prop := {
  ro_indexes : st_indexes step = seq 0 (S (length (st_drafts step)));
  ro_batch : b = entries (g_seq g) (g_kv_len g) (pending_tok p :: st_drafts step);
  ro_budget : length (st_drafts step) ≤ g_remaining g - 1;
  ro_ends : Forall (λ t, draft_is_eog t = false) (st_drafts step) }.

Lemma build_spec_step_spec d g p cx :
  g_pending g = Some p → g_kv_len g = length (g_hist g) →
  wp (build_spec_step cfg d g)
    (λ r cx', later cx cx' ∧ match r with Some (_, b, step) => round g p b step | None => True end) cx.
Proof.
  intros Hp Hk. unfold build_spec_step. wp. eapply wp_unwrap; [exact Hp|].
  destruct (match dr_synced d with
            | Some (uid, n) => if (uid =? gf_uid (g_fix g)) && (n <=? g_kv_len g) then (n, dr_kv d) else (0, [])
            | None => (0, []) end) as [synced kv].
  fold (g_hist g). rewrite Hk, Nat.leb_refl. cbn [orb]. wp. unfold draft_decode. wp.
  destruct (draft_ok _); wp; [|split; [apply later_ticked|done]].
  eapply wp_mono; [apply draft_loop_spec|]. intros [[ds kv']|] cx' [Hl H]; wp;
    (split; [eapply later_trans; [apply later_ticked|done]|]); [|done].
  destruct (push_drafts _ _ _ _ _) as [[ixs b]|] eqn:Epd; [|done]. cbn.
  apply push_drafts_spec in Epd as [-> ->]. destruct H as [H1 H2]. split; simpl; try done; [by rewrite Hk|]. lia.
Qed.

(** ** Verification *)

(** Tokens the target itself chooses, one after the other. *)
Inductive walks : Chain → list Token → list (Token * string) → Chain → Prop :=
  | walks_nil c h : walks c h [] c
  | walks_cons c h t piece c1 cs c2 :
      sample c h = (t, c1) → is_eog t = false → token_to_piece t = Some piece → walks c1 (h ++ [t]) cs c2 →
      walks c h ((t, piece) :: cs) c2.

Definition rows_from (cx : Ctx) (indexes : list nat) (h : list Token) (drafts : list Token) : Prop :=
  ∀ i, i ≤ length drafts → ∃ index, indexes !! i = Some index ∧ cx_rows cx !! index = Some (Some (Real (h ++ take i drafts))).

Lemma rows_from_cons cx indexes h d drafts :
  rows_from cx indexes h (d :: drafts) → rows_from cx (tail indexes) (h ++ [d]) drafts.
Proof.
  intros Hr i Hi. destruct (Hr (S i) ltac:(simpl; lia)) as (index & H1 & H2). exists index.
  rewrite lookup_tail. split; [done|]. simpl in H2. by rewrite <- app_assoc.
Qed.

Lemma sample_ith_real g index h (Q : Token * ActiveGen → Ctx → Prop) cx :
  cx_rows cx !! index = Some (Some (Real h)) →
  Q ((sample (g_chain g) h).1, set_chain (sample (g_chain g) h).2 g) cx → wp (sample_ith g index) Q cx.
Proof.
  intros Hr HQ. unfold sample_ith. wp. eapply wp_unwrap; [by rewrite Hr|]. simpl. destruct (sample _ _) as [t c]. by wp.
Qed.

Lemma spec_walk_spec drafts indexes g h cx :
  rows_from cx indexes h drafts → Forall (λ t, draft_is_eog t = false) drafts →
  wp (spec_walk indexes drafts g)
    (λ r cx', cx' = cx ∧ let '(g', cs, w) := r in
       ∃ c, walks (g_chain g) h cs c ∧ cs.*1 = take (length cs) drafts ∧ length cs ≤ length drafts
         ∧ match w with
           | WNext t => length cs < length drafts ∧ ∃ c', sample c (h ++ cs.*1) = (t, c') ∧ g' = set_chain c' g
           | WAll => length cs = length drafts ∧ g' = set_chain c g
           | WRenderError => ∃ c', g' = set_chain c' g
           end) cx.
Proof.
  revert indexes g h. induction drafts as [|d drafts IH]; intros indexes g h Hr Hd; cbn [spec_walk].
  - wp. split; [done|]. exists (g_chain g). split_and!; [constructor|done|done|done|by destruct g].
  - inversion Hd as [|? ? Hde Hd']; subst. destruct (Hr 0 ltac:(simpl; lia)) as (index & Hi & Hrow).
    rewrite take_0, app_nil_r in Hrow. wp. eapply wp_unwrap; [by rewrite head_lookup|].
    wp. eapply sample_ith_real; [exact Hrow|]. destruct (sample (g_chain g) h) as [t c1] eqn:Es. cbn.
    destruct (t =? d)%Z eqn:Etd.
    + apply Z.eqb_eq in Etd as ->. destruct (token_to_piece d) as [piece|] eqn:Ep.
      * wp. eapply wp_mono; [apply (IH _ _ (h ++ [d])); [by apply rows_from_cons|done]|].
        intros [[g' cs] w] cx' (-> & c & H1 & H2 & H3 & H4). wp. split; [done|]. exists c. split_and!.
        -- eapply walks_cons; [exact Es|by apply draft_same_ends|done|exact H1].
        -- simpl. f_equal. exact H2.
        -- simpl. lia.
        -- simpl. rewrite <- app_assoc in H4. simpl in H4.
           destruct w; [destruct H4 as (? & c' & ? & ->); split; [lia|]; by exists c'
                       |destruct H4 as (? & ->); split; [lia|done]|destruct H4 as (c' & ->); by exists c'].
      * wp. split; [done|]. exists (g_chain g). split_and!; [constructor|done|simpl; lia|by exists c1].
    + wp. split; [done|]. exists (g_chain g). split_and!; [constructor|done|simpl; lia|simpl; lia|].
      exists c1. by rewrite app_nil_r.
Qed.

(** ** Emission *)

(** [g'] is [g] with the tokens [ts] confirmed and their pieces delivered. *)
Definition extends (g g' : ActiveGen) (ts : list Token) : Prop :=
  ∃ h n st sc, g' = redeliver h n st (set_scan sc (set_attempt (g_attempt g ++ ts)
                                        (set_remaining (g_remaining g - length ts) g))).

Lemma extends_refl g : extends g g [].
Proof.
  exists (g_held g), (g_pieces_sent g), (g_stalled g), (g_scan g). destruct g. unfold redeliver. simpl.
  by rewrite app_nil_r, Nat.sub_0_r.
Qed.
Lemma extends_trans g g1 g2 ts1 ts2 : extends g g1 ts1 → extends g1 g2 ts2 → extends g g2 (ts1 ++ ts2).
Proof.
  intros (h & n & st & sc & ->) (h' & n' & st' & sc' & ->). exists h', n', st', sc'. destruct g. unfold redeliver. simpl.
  by rewrite <- app_assoc, length_app, Nat.sub_add_distr.
Qed.
Lemma extends_gen g g' ts : extends g g' ts → g_gen g' = g_gen g ++ ts.
Proof. intros (h & n & st & sc & ->). unfold g_gen. simpl. apply app_assoc. Qed.
Lemma extends_hist g g' ts : extends g g' ts → g_hist g' = g_hist g ++ ts.
Proof. intros (h & n & st & sc & ->). unfold g_hist. simpl. apply app_assoc. Qed.

Lemma emit_drafts_spec cs g kept c c' P cx :
  delivered cx g P → walks c (g_hist g) cs c' → 0 < g_remaining g → length cs ≤ g_remaining g →
  target (g_id g) = prepend P (g_gen g) (ref_run (g_remaining g) (g_hist g) c (g_scan g)) →
  wp (emit_drafts cs g kept)
    (λ r cx', let '(g', kept', fin) := r in
       ∃ m P', kept' = kept + m ∧ m ≤ length cs ∧ extends g g' (take m cs.*1) ∧ quiet (g_id g) cx cx' ∧ delivered cx' g' P'
         ∧ match fin with
           | None => m = length cs ∧ 0 < g_remaining g'
                     ∧ target (g_id g) = prepend P' (g_gen g') (ref_run (g_remaining g') (g_hist g') c' (g_scan g'))
           | Some k => target (g_id g) = MkOut P' (g_gen g') (RFin k)
           end) cx.
Proof.
  revert g kept c P cx. induction cs as [|[t piece] cs IH]; intros g kept c P cx Hdel Hw Hpos Hlen Ht; cbn [emit_drafts].
  - inversion Hw; subst. wp. exists 0, P. split_and!; [lia|simpl; lia|apply extends_refl|apply quiet_refl|done|done|done|done].
  - inversion Hw as [|? ? ? ? c1 ? ? Es Heog Hpc Hw']; subst. wp. apply wp_dec; [done|].
    rewrite ref_run_sample, Es in Ht by done. simpl in Ht. rewrite Heog, Hpc in Ht. unfold ref_emit in Ht.
    set (g1 := set_remaining _ _). change (g_scan g1) with (g_scan g).
    assert (Hext : ∀ h n st sc, extends g (redeliver h n st (set_scan sc g1)) [t]).
    { intros h n st sc. exists h, n, st, sc. done. }
    destruct (scan_admit (g_scan g) piece) as [[] sc] eqn:Esc.
    + rewrite prepend_prepend in Ht. wp.
      eapply wp_mono; [apply (deliver_piece_spec (set_scan sc g1) piece P); exact Hdel|].
      intros g2 cx1 ((h & n & st & ->) & Hdel' & Hq). pose proof (Hext h n st sc) as Hx.
      set (g2 := redeliver _ _ _ _) in *. cbv beta.
      change (g_remaining g2) with (g_remaining g - 1).
      destruct (g_remaining g - 1 =? 0) eqn:E0.
      * apply Nat.eqb_eq in E0. wp. exists 1, (P ++ [piece]). simpl. rewrite take_0.
        split_and!; [lia|lia|done|exact Hq|done|]. rewrite Ht, E0. simpl. rewrite prepend_out, !app_nil_r.
        by rewrite (extends_gen _ _ _ Hx).
      * apply Nat.eqb_neq in E0.
        eapply wp_mono; [apply (IH g2 (S kept) c1 (P ++ [piece]) cx1)|].
        -- done.
        -- rewrite (extends_hist _ _ _ Hx). done.
        -- change (g_remaining g2) with (g_remaining g - 1). lia.
        -- change (g_remaining g2) with (g_remaining g - 1). simpl in Hlen. lia.
        -- rewrite (extends_gen _ _ _ Hx), (extends_hist _ _ _ Hx). exact Ht.
        -- intros [[g' kept'] fin] cx' (m & P' & -> & Hm & Hx' & Hq' & Hd' & Hfin).
           exists (S m), P'. split_and!; [lia|simpl; lia| | |done|].
           ++ simpl. exact (extends_trans _ _ _ _ _ Hx Hx').
           ++ by eapply quiet_trans.
           ++ destruct fin as [k|]; [exact Hfin|]. destruct Hfin as (-> & ?). simpl. by split.
    + rewrite prepend_out, app_nil_r in Ht. wp. exists 1, P. simpl. rewrite take_0.
      assert (Hself : set_scan sc g1 = redeliver (g_held g) (g_pieces_sent g) (g_stalled g) (set_scan sc g1)) by (by destruct g).
      split_and!; [lia|lia|rewrite Hself; apply Hext|apply quiet_refl|exact Hdel|].
      rewrite Hself, (extends_gen _ _ _ (Hext _ _ _ _)). exact Ht.
Qed.

(** ** Settling a round *)

(** A solo sequence that can only fail: its KV memory is not trusted. *)
Record broken (cx : Ctx) (g : ActiveGen) : Prop := {
  br_outcome : g_outcome g = true;
  br_fix : fix_ok jobs g;
  br_stream : ∃ P, P `prefix_of` ro_pieces (target (g_id g)) ∧ delivered cx g P;
  br_terminal : g_terminal g = None;
  br_pending : g_pending g = None;
  br_done : g_done g = false;
  br_prefilled : g_prefill_done g = length (g_prefix g);
  br_count : g_remaining g = max_tokens jobs (g_id g) - length (g_gen g) }.

Hypothesis solo : hc_distributed cfg = false.

Lemma fail_broken_spec b cx g e : broken cx g → wp (fail_seq g e) (gstep b cx g) cx.
Proof.
  intros [B1 B2 (P & Hp & Hdel) B4 B5 B6 B7 B8]. apply fail_seq_spec; [done|]. rewrite B4.
  pose proof (not_prefilling _ B7) as Hpf. split_and!.
  - split_and!; [done|done|]. exists P. split_and!; [done|done|done|]. intros; congruence.
  - split_and!; gs; try done; try congruence; lia.
  - intros _ Hx. by destruct (Hx e).
Qed.

(** The verified tokens of a round, before they are emitted. *)
Record verified (cx : Ctx) (g : ActiveGen) (P : list string) (t : Token) (drafts : list Token) (cs : list (Token * string))
    (next : Token) : Prop := {
  ve_outcome : g_outcome g = true;
  ve_fix : fix_ok jobs g;
  ve_delivered : delivered cx g P;
  ve_terminal : g_terminal g = None;
  ve_pending : g_pending g = None;
  ve_done : g_done g = false;
  ve_prefilled : g_prefill_done g = length (g_prefix g);
  ve_suspect : g_kv_suspect g = false;
  ve_count : g_remaining g = max_tokens jobs (g_id g) - length (g_gen g);
  ve_kv_len : g_kv_len g = length (g_hist g);
  ve_kv : kv_of (cx_kv cx) (g_seq g) = g_hist g ++ t :: drafts;
  ve_drafts : cs.*1 = take (length cs) drafts;
  ve_left : 1 < g_remaining g;
  ve_budget : length cs ≤ g_remaining g - 1;
  ve_walk : ∃ c0 c, walks c0 (g_hist g ++ [t]) cs c ∧ sample c (g_hist g ++ [t] ++ cs.*1) = (next, g_chain g)
            ∧ target (g_id g) = prepend P (g_gen g ++ [t]) (ref_run (g_remaining g - 1) (g_hist g ++ [t]) c0 (g_scan g)) }.

Lemma verified_prefix cx g P t drafts cs next : verified cx g P t drafts cs next → P `prefix_of` ro_pieces (target (g_id g)).
Proof. intros Hv. destruct (ve_walk _ _ _ _ _ _ _ Hv) as (c0 & c & _ & _ & ->). apply prepend_prefix. Qed.

Lemma verified_broken cx g P t drafts cs next : verified cx g P t drafts cs next → broken cx g.
Proof. intros Hv. pose proof (verified_prefix _ _ _ _ _ _ _ Hv). destruct Hv. split; try done. by exists P. Qed.

(** A partial trim: done, or reported and nothing changed but time. *)
Lemma seq_rm_from_spec s n (Q : bool → Ctx → Prop) cx :
  Q false (ticked cx) → Q true (upd_kv (kv_truncate s n (cx_kv cx)) (ticked cx)) → wp (seq_rm_from s n) Q cx.
Proof. intros H1 H2. unfold seq_rm_from. wp. destruct (trim_ok _); wp; done. Qed.

Lemma local_truncate j s n cx : local j s cx (upd_kv (kv_truncate s n (cx_kv cx)) (ticked cx)).
Proof.
  split; simpl; auto. intros s' Hn. unfold kv_truncate. rewrite kv_of_insert. case_decide; congruence.
Qed.

(** Trim to [n] tokens, or keep them when nothing lies beyond. *)
Lemma trim_spec (needed : bool) s n keepl rest (Q : bool → Ctx → Prop) cx j :
  kv_of (cx_kv cx) s = keepl ++ rest → n = length keepl → (needed = false → rest = []) →
  (∀ cx', local j s cx cx' → shared cx cx' → cx_out cx' = cx_out cx → kv_of (cx_kv cx') s = keepl → Q true cx') →
  (∀ cx', local j s cx cx' → shared cx cx' → cx_out cx' = cx_out cx → Q false cx') →
  wp (if needed then seq_rm_from s n else mret true) Q cx.
Proof.
  intros Hkv -> Hneed Hok Hbad. destruct needed.
  - apply seq_rm_from_spec.
    + apply Hbad; [apply quiet_ticked|by apply (quiet_ticked j)|done].
    + apply Hok; [apply local_truncate|by split|done|]. simpl. unfold kv_truncate. rewrite kv_of_insert.
      case_decide; [|done]. rewrite Hkv. by rewrite take_app_length.
  - wp. rewrite (Hneed eq_refl), app_nil_r in Hkv. apply Hok; [apply local_refl|apply shared_refl|done|done].
Qed.

Lemma delivered_later cx cx' g P : cx_out cx' = cx_out cx → cx_tick cx ≤ cx_tick cx' → delivered cx g P → delivered cx' g P.
Proof.
  intros Ho Ht (ps & D1 & D2 & D3 & D4). exists ps. split_and!; [unfold streamed; by rewrite Ho|done|done|].
  intros Hg. apply D4. destruct (gone (g_id g) (cx_tick cx)) eqn:Eg; [|done]. pose proof (gone_mono _ _ _ Ht Eg). congruence.
Qed.

Lemma resync_spec d uid n m (Q : DraftCtx → Ctx → Prop) cx :
  (∀ d' cx', later cx cx' → Q d' cx') → wp (resync d uid n m) Q cx.
Proof.
  intros HQ. unfold resync. destruct (_ <? _); wp; apply HQ; [apply later_ticked|apply later_refl].
Qed.

(** What a round leaves: the sequence in good order or ended, or broken. *)
Definition round_end (cx : Ctx) (g : ActiveGen) (r : ActiveGen * DraftCtx * bool) (cx' : Ctx) : Prop :=
  let '(g', _, bad) := r in
  if (bad : bool)
  then local (g_id g) (g_seq g) cx cx' ∧ shared cx cx' ∧ g_fix g' = g_fix g ∧ broken cx' g'
  else gstep true cx g g' cx'.

(** The last part: the emitted tokens are confirmed, and the KV trimmed. *)
Lemma settle_tail cx cx' g g3 d uid dk P' fin next c :
  local (g_id g) (g_seq g) cx cx' → shared cx cx' → g_fix g3 = g_fix g → confirmed cx' g3 P' →
  match fin with
  | Some k => target (g_id g3) = MkOut P' (g_gen g3) (RFin k)
  | None => 0 < g_remaining g3 ∧ sample c (g_hist g3) = (next, g_chain g3)
            ∧ target (g_id g3) = prepend P' (g_gen g3) (ref_run (g_remaining g3) (g_hist g3) c (g_scan g3))
  end →
  wp (d ← resync d uid dk (g_kv_len g3);
      match fin with
      | Some k => g ← finish_or_defer g3 k (hc_kv_reuse cfg); mret (g, d, false)
      | None => g ← next_token cfg g3 next true; mret (g, d, false)
      end) (round_end cx g) cx'.
Proof.
  intros Hl Hs Hf Hc Hfin. wp. apply resync_spec. intros d' cx4 (tk & Htk & ->).
  set (cx4 := upd_tick tk cx') in *.
  assert (Hl4 : local (g_id g) (g_seq g) cx cx4).
  { eapply local_trans; [exact Hl|]. by split. }
  assert (Hs4 : shared cx cx4) by (eapply shared_trans; [exact Hs|by split]).
  assert (Hc4 : confirmed cx4 g3 P').
  { destruct Hc as [C1 C2 C3 C4 C5 C6 C7 C8 C9 Hcount C10 C11 C12]. split; try done. by apply (delivered_later cx'). }
  destruct fin as [k|]; wp.
  - eapply wp_mono; [eapply (finish_or_defer_spec jobs cfg true); [exact Hc4|exact Hfin]|].
    intros g' cx5 HG. wp. exact (gstep_after jobs cfg true cx cx4 g3 g g' cx5 Hl4 Hs4 Hf HG).
  - destruct Hfin as (Hpos & Hsam & Ht).
    assert (Hw : wp (next_token cfg (set_chain (g_chain g3) (set_chain c g3)) next true) (gstep true cx4 (set_chain c g3)) cx4).
    { apply (next_token_spec jobs cfg cx4 (set_chain c g3) P'); [|by split|done|by left].
      destruct Hc4 as [C1 C2 C3 C4 C5 C6 C7 C8 C9 Hcount C10 C11 C12]. split; try done. intros Hd. congruence. }
    replace (set_chain (g_chain g3) (set_chain c g3)) with g3 in Hw by (by destruct g3).
    eapply wp_mono; [exact Hw|]. intros g' cx5 HG. wp.
    exact (gstep_after jobs cfg true cx cx4 (set_chain c g3) g g' cx5 Hl4 Hs4 Hf HG).
Qed.

(** After the emission: trim past a stop match, then end or go on. *)
Lemma settle_emitted cx cx2 g g2 d step P' t (cs : list (Token * string)) m fin next c :
  let kept := 1 + m in
  local (g_id g) (g_seq g) cx cx2 → shared cx cx2 → g_fix g2 = g_fix g →
  broken cx2 g2 → delivered cx2 g2 P' → g_kv_suspect g2 = false →
  m ≤ length cs → kv_of (cx_kv cx2) (g_seq g) = g_hist g ++ t :: cs.*1 → g_hist g2 = g_hist g ++ t :: take m cs.*1 →
  g_kv_len g = length (g_hist g) → g_kv_len g2 = g_kv_len g + 1 + length cs →
  match fin with
  | Some k => target (g_id g2) = MkOut P' (g_gen g2) (RFin k)
  | None => m = length cs ∧ 0 < g_remaining g2 ∧ sample c (g_hist g2) = (next, g_chain g2)
            ∧ target (g_id g2) = prepend P' (g_gen g2) (ref_run (g_remaining g2) (g_hist g2) c (g_scan g2))
  end →
  wp (ok ← (if kept <? 1 + length cs then seq_rm_from (g_seq g2) (g_kv_len g + kept) else mret true);
      if negb ok then mret (g2, draft_reset, true) else
      let g := if kept <? 1 + length cs then set_kv_len (g_kv_len g + kept) g2 else g2 in
      d ← resync d (gf_uid (g_fix g)) (st_draft_kv step) (g_kv_len g);
      match fin with
      | Some k => g ← finish_or_defer g k (hc_kv_reuse cfg); mret (g, d, false)
      | None => g ← next_token cfg g next true; mret (g, d, false)
      end) (round_end cx g) cx2.
Proof.
  intros kept Hl Hs Hf Hb Hdel Hsus Hm Hkv Hhist Hkl Hkl2 Hfin.
  assert (Hseq : g_seq g2 = g_seq g) by (unfold g_seq; by rewrite Hf).
  assert (Hid : g_id g2 = g_id g) by (unfold g_id, g_job; by rewrite Hf).
  assert (Hpre : P' `prefix_of` ro_pieces (target (g_id g2))).
  { destruct fin; [by rewrite Hfin|]. destruct Hfin as (_ & _ & _ & ->). apply prepend_prefix. }
  wp. rewrite Hseq.
  eapply (trim_spec _ _ _ (g_hist g ++ t :: take m cs.*1) (drop m cs.*1) _ _ (g_id g)).
  - rewrite Hkv, <- app_assoc. simpl. by rewrite take_drop.
  - rewrite length_app. simpl. rewrite length_take, length_fmap. unfold kept. lia.
  - intros Hk. apply Nat.ltb_ge in Hk. unfold kept in Hk. apply drop_ge. rewrite length_fmap. lia.
  - intros cx3 Hl3 Hs3 Hout Hkv3. cbn [negb].
    set (g3 := if kept <? 1 + length cs then set_kv_len (g_kv_len g + kept) g2 else g2).
    assert (Hlen : g_kv_len g3 = length (g_hist g2)).
    { rewrite Hhist, length_app. simpl. rewrite length_take, length_fmap. unfold g3, kept.
      destruct (_ <? _) eqn:Ek; [apply Nat.ltb_lt in Ek|apply Nat.ltb_ge in Ek]; simpl; lia. }
    assert (Hc : confirmed cx3 g3 P').
    { assert (Hdel3 : delivered cx3 g2 P') by (apply (delivered_later cx2); [done|apply Hl3|done]).
      destruct Hb as [B1 B2 B3 B4 B5 B6 B7 B8].
      assert (Hg3 : ∀ v, confirmed cx3 (set_kv_len v g2) P' ∨ v ≠ length (g_hist g2)).
      { intros v. destruct (decide (v = length (g_hist g2))) as [->|]; [left|by right]. split; try done.
        - intros Hd; congruence.
        - change (g_seq (set_kv_len _ g2)) with (g_seq g2). rewrite Hseq, Hkv3. gs. by rewrite Hhist. }
      destruct (Hg3 (g_kv_len g3)) as [Hx|Hx]; [|done]. revert Hx. unfold g3. destruct (_ <? _); [done|].
      replace (set_kv_len (g_kv_len g2) g2) with g2 by (by destruct g2). done. }
    eapply (settle_tail cx cx3 g g3 d _ _ P' fin next c).
    + by eapply local_trans.
    + by eapply shared_trans.
    + unfold g3. by destruct (_ <? _).
    + done.
    + assert (Hsame : g_gen g3 = g_gen g2 ∧ g_hist g3 = g_hist g2 ∧ g_id g3 = g_id g2 ∧ g_remaining g3 = g_remaining g2
        ∧ g_chain g3 = g_chain g2 ∧ g_scan g3 = g_scan g2) by (unfold g3; by destruct (_ <? _)).
      destruct Hsame as (-> & -> & -> & -> & -> & ->). destruct fin; [done|]. by destruct Hfin as (_ & ?).
  - intros cx3 Hl3 Hs3 Hout. wp. split_and!; [by eapply local_trans|by eapply shared_trans|done|].
    destruct Hb as [B1 B2 B3 B4 B5 B6 B7 B8]. split; try done. exists P'. split; [done|].
    apply (delivered_later cx2); [done|apply Hl3|done].
Qed.

Lemma settle_round_spec d step g P t cs next cx :
  verified cx g P t (st_drafts step) cs next → length cs ≤ length (st_drafts step) →
  wp (settle_round cfg d step (Sent t true) cs next g) (round_end cx g) cx.
Proof.
  intros Hv Hcs. pose proof Hv as [V1 V2 V3 V4 V5 V6 V7 V8 V9 V10 V11 V12 V13 V14 (c0 & c & Vw & Vs & Vt)].
  pose proof (verified_prefix _ _ _ _ _ _ _ Hv) as Vp. pose proof (verified_broken _ _ _ _ _ _ _ Hv) as Vb.
  unfold settle_round. wp. set (keep := g_kv_len g + 1 + length cs).
  eapply (trim_spec _ _ keep (g_hist g ++ t :: cs.*1) (drop (length cs) (st_drafts step)) _ _ (g_id g)).
  - rewrite V11, V12, <- app_assoc. simpl. by rewrite take_drop.
  - rewrite length_app. simpl. rewrite length_fmap. unfold keep. lia.
  - intros Hk. apply Nat.ltb_ge in Hk. apply drop_ge. lia.
  - intros cx1 Hl1 Hs1 Hout Hkv1. cbn [negb]. wp. apply wp_dec; [lia|].
    set (g1 := set_remaining _ _). cbn [pending_tok] in g1. cbn [emit_pending]. wp. cbv beta iota.
    assert (Hgen1 : g_gen g1 = g_gen g ++ [t]) by (unfold g_gen, g1; simpl; by rewrite app_assoc).
    assert (Hhist1 : g_hist g1 = g_hist g ++ [t]) by (unfold g_hist, g1; simpl; by rewrite app_assoc).
    assert (Hdel1 : delivered cx1 g1 P) by (apply (delivered_later cx); [done|apply Hl1|exact V3]).
    wp. eapply wp_mono; [apply (emit_drafts_spec cs g1 1 c0 c P cx1)|].
    + done.
    + by rewrite Hhist1.
    + unfold g1. simpl. lia.
    + unfold g1. simpl. lia.
    + rewrite Hgen1, Hhist1. exact Vt.
    + intros [[g2 kept] fin] cx2 (m & P' & -> & Hm & Hx & Hq & Hdel2 & Hfin). cbv beta iota.
      pose proof (extends_gen _ _ _ Hx) as Hgen2. pose proof (extends_hist _ _ _ Hx) as Hhist2.
      rewrite Hgen1, <- app_assoc in Hgen2. rewrite Hhist1, <- app_assoc in Hhist2. simpl in Hgen2, Hhist2.
      destruct Hx as (h & n & st & sc & Hg2).
      assert (Hlt : length (take m cs.*1) = m) by (rewrite length_take, length_fmap; lia).
      change (1 + m) with (S m). 
      apply (settle_emitted cx cx2 g g2 d step P' t cs m fin next c).
      * eapply local_trans; [exact Hl1|]. apply Hq.
      * eapply shared_trans; [exact Hs1|]. apply Hq.
      * by subst g2.
      * destruct Vb as [B1 B2 B3 B4 B5 B6 B7 B8]. subst g2. split; try done.
        -- exists P'. split; [|done]. change (g_id (redeliver _ _ _ _)) with (g_id g1). destruct fin as [k|]; [by rewrite Hfin|].
           destruct Hfin as (_ & _ & ->). apply prepend_prefix.
        -- rewrite Hgen2. rewrite length_app. simpl. change (g_id (redeliver _ _ _ _)) with (g_id g). rewrite Hlt. lia.
      * done.
      * by subst g2.
      * done.
      * rewrite (qu_kv _ _ _ Hq). exact Hkv1.
      * exact Hhist2.
      * done.
      * subst g2. done.
      * assert (Hidc : g_id g2 = g_id g1 ∧ g_chain g2 = g_chain g) by (by subst g2). destruct Hidc as [-> Hch].
        destruct fin as [k|]; [exact Hfin|]. destruct Hfin as (-> & Hpos & Ht). split_and!; [done|done| |done].
        rewrite Hch, Hhist2. rewrite take_ge by (by rewrite length_fmap). exact Vs.
  - intros cx1 Hl1 Hs1 Hout. wp. split_and!; [done|done|done|]. destruct Vb as [B1 B2 B3 B4 B5 B6 B7 B8]. split; try done.
    exists P. split; [done|]. apply (delivered_later cx); [done|apply Hl1|done].
Qed.

(** ** A round *)

(** The round was decoded: the target's choices are at hand. *)
Record verifying (cx : Ctx) (g : ActiveGen) (t : Token) (step : SpecStep) : Prop := {
  vy_stream : stream_ok jobs cfg true cx g;
  vy_phase : phase_ok g;
  vy_done : g_done g = false;
  vy_terminal : g_terminal g = None;
  vy_prefilled : g_prefill_done g = length (g_prefix g);
  vy_pending : g_pending g = Some (Sent t true);
  vy_kv : kv_of (cx_kv cx) (g_seq g) = g_hist g ++ t :: st_drafts step;
  vy_kv_len : g_kv_len g = length (g_hist g);
  vy_rows : rows_from cx (st_indexes step) (g_hist g ++ [t]) (st_drafts step);
  vy_ends : Forall (λ t, draft_is_eog t = false) (st_drafts step);
  vy_left : 1 < g_remaining g;
  vy_budget : length (st_drafts step) ≤ g_remaining g - 1 }.

(** The same sequence with its counters and chain moved on. *)
Definition sampled (a n : nat) (c : Chain) (g : ActiveGen) : ActiveGen :=
  set_accepted a (set_drafted n (set_chain c (set_pending None g))).

Lemma verifying_verified cx g t step cs c c' a n next :
  verifying cx g t step → walks (g_chain g) (g_hist g ++ [t]) cs c → cs.*1 = take (length cs) (st_drafts step) →
  length cs ≤ length (st_drafts step) → sample c ((g_hist g ++ [t]) ++ cs.*1) = (next, c') →
  ∃ P, verified cx (sampled a n c' g) P t (st_drafts step) cs next.
Proof.
  intros [Y1 Y2 Y3 Y4 Y5 Y6 Y7 Y8 Y9 Y10 Y11 Y12] Hw Hd Hlen Hs.
  destruct Y1 as (Ho & Hf & P & Hp & Hdel & Hprom & _). exists P.
  unfold promise in Hprom. rewrite Y4, Y6 in Hprom. pose proof Y2 as (_ & _ & _ & _ & Hcount & _).
  split; try done; simpl.
  - exact (not_suspect jobs cfg g Y2 Y4).
  - apply Hcount. by rewrite Y4.
  - lia.
  - exists (g_chain g), c. split_and!; [exact Hw| |exact Hprom]. rewrite <- app_assoc in Hs. exact Hs.
Qed.

Lemma verifying_broken cx g t step a n c : verifying cx g t step → broken cx (sampled a n c g).
Proof.
  intros [Y1 Y2 Y3 Y4 Y5 Y6 Y7 Y8 Y9 Y10 Y11 Y12]. destruct Y1 as (Ho & Hf & P & Hp & Hdel & _).
  pose proof Y2 as (_ & _ & _ & _ & Hcount & _). split; try done; [by exists P|]. apply Hcount. by rewrite Y4.
Qed.

Lemma round_end_fix cx g g0 r cx' : g_fix g0 = g_fix g → round_end cx g0 r cx' → round_end cx g r cx'.
Proof.
  intros Hf. destruct r as [[g' d] bad]. unfold round_end.
  assert (Hi : g_id g0 = g_id g) by (unfold g_id, g_job; by rewrite Hf).
  assert (Hse : g_seq g0 = g_seq g) by (unfold g_seq; by rewrite Hf).
  destruct bad.
  - rewrite Hi, Hse, Hf. done.
  - intros HG. eapply gstep_quiet; [apply quiet_refl|exact Hf|exact HG].
Qed.

Lemma process_spec_step_spec d step g t cx :
  verifying cx g t step → wp (process_spec_step cfg d step g) (round_end cx g) cx.
Proof.
  intros Hv. pose proof Hv as [Y1 Y2 Y3 Y4 Y5 Y6 Y7 Y8 Y9 Y10 Y11 Y12]. unfold process_spec_step. wp.
  eapply wp_unwrap; [exact Y6|]. wp.
  eapply wp_mono; [apply (spec_walk_spec _ _ (set_pending None g) (g_hist g ++ [t])); [exact Y9|done]|].
  intros [[g1 cs] w] cx' (-> & c & Hw & Hd & Hlen & Hres). simpl in Hw. cbv beta iota.
  destruct w as [next| |].
  - destruct Hres as (_ & c' & Hs & ->).
    edestruct (verifying_verified cx g t step cs c c' (g_accepted g + length cs) (g_drafted g + length (st_drafts step)) next) as (P & Hver);
      [done..|].
    eapply wp_mono; [apply (settle_round_spec d step _ P t cs next cx Hver Hlen)|]. intros r cx'. by apply round_end_fix.
  - destruct Hres as (Hall & ->). destruct (Y9 (length (st_drafts step)) ltac:(lia)) as (index & Hi & Hrow).
    wp. eapply wp_unwrap; [exact Hi|]. wp. eapply sample_ith_real; [exact Hrow|].
    rewrite take_ge by lia. assert (Hcs : cs.*1 = st_drafts step) by (rewrite Hd; apply take_ge; lia).
    destruct (sample (g_chain _) _) as [next c'] eqn:Es. cbn. change (g_chain (set_accepted _ _)) with c in Es.
    edestruct (verifying_verified cx g t step cs c c' (g_accepted g + length cs) (g_drafted g + length (st_drafts step)) next) as (P & Hver);
      [done..|by rewrite Hcs|].
    eapply wp_mono; [apply (settle_round_spec d step _ P t cs next cx Hver Hlen)|]. intros r cx'. by apply round_end_fix.
  - destruct Hres as (c' & ->). wp.
    eapply wp_mono; [apply (fail_broken_spec true cx (sampled (g_accepted g + length cs) (g_drafted g + length (st_drafts step)) c' g))|].
    + by eapply verifying_broken.
    + intros g' cx' HG. wp. unfold round_end. eapply gstep_quiet; [apply quiet_refl| |exact HG]. done.
Qed.

Abbreviation Inv := (Inv jobs cfg).
Abbreviation good := (good jobs cfg).

(** The decoded batch of a round. *)
Lemma round_verifying cx cx' g t b step :
  gen_ok true cx g → g_done g = false → paused g = false → prefilling g = false → g_pending g = Some (Sent t true) →
  1 < g_remaining g → round g (Sent t true) b step → session_only cx cx' →
  (∀ s, kv_of (cx_kv cx') s = kv_of (cx_kv cx) s ++ toks_of s b) → rows_ok cfg b cx cx' → verifying cx' g t step.
Proof.
  intros (Hs & Hph & Hkv) Hd Hpa Hpf Hpe Hlt [R1 R2 R3 R4] Hso Hnew Hrows.
  destruct (not_paused g Hpa) as [Hh Ht]. destruct (Hkv (not_suspect jobs cfg g Hph Ht)) as [K1 K2]; [by rewrite Ht|].
  rewrite Hpf in K2. rewrite K2, take_ge in K1 by done. simpl in R2.
  split; try done.
  - by eapply stream_ok_session.
  - exact (prefilled jobs cfg g Hph Hpf).
  - rewrite Hnew, K1, R2. f_equal. apply (entries_toks _ (g_kv_len g) (t :: st_drafts step)).
  - intros i Hi. exists i. rewrite R1. split; [by apply lookup_seq; lia|].
    destruct (entries_lookup (g_seq g) (g_kv_len g) (t :: st_drafts step) i ltac:(simpl; lia)) as (e & He & Hlog & Hseq).
    destruct (Hrows i e) as [Hr|(_ & _ & Hdist)]; [by rewrite R2|done| |congruence].
    rewrite Hr, Hseq, K1, R2. do 3 f_equal. 
    change (MkEntry t (g_kv_len g) (g_seq g) true :: entries (g_seq g) (S (g_kv_len g)) (st_drafts step))
      with (entries (g_seq g) (g_kv_len g) (t :: st_drafts step)).
    rewrite entries_take, entries_toks. simpl. by rewrite <- app_assoc.
Qed.

Lemma spec_eligible_spec h g : spec_eligible cfg h = Some g →
  h_active h = [g] ∧ hc_draft cfg = true ∧ paused g = false ∧ prefilling g = false
  ∧ (∃ p, g_pending g = Some p ∧ ∀ t, p ≠ Sent t false) ∧ 1 < g_remaining g.
Proof.
  unfold spec_eligible. destruct (h_active h) as [|g' [|]]; [done| |done]. destruct (_ && _) eqn:Ec; [|done]. intros [= ->].
  rewrite !andb_true_iff, !negb_true_iff, Nat.ltb_lt in Ec. destruct Ec as ((((((_ & ?) & ?) & ?) & Hp) & ?) & _).
  split_and!; try done. destruct (g_pending g) as [[t piece|t []]|]; [| |done|done]; eexists; (split; [done|]); intros; congruence.
Qed.

Lemma spec_round_spec sub queue inbox g h cx :
  spec_eligible cfg h = Some g → Inv good sub [g] queue inbox cx → g_done g = false →
  wp (spec_round cfg g h)
    (λ h' cx', Inv good sub (h_active h') queue inbox cx' ∧ Forall (λ g, g_done g = false) (h_active h')
               ∧ h_queue h' = h_queue h ∧ h_inbox h' = h_inbox h ∧ h_ctrl h' = h_ctrl h) cx.
Proof.
  intros Hel HI Hd. destruct (spec_eligible_spec _ _ Hel) as (Hact & _ & Hpa & Hpf & (p & Hp & Hnf) & Hlt).
  pose proof (i_gens _ _ _ _ _ _ _ _ HI 0 g eq_refl Hd) as Hg.
  assert (∃ t, p = Sent t true) as (t & ->).
  { destruct Hg as (_ & (_ & _ & _ & _ & _ & _ & Hk) & _). specialize (Hk _ Hp). destruct p as [t' pc|t' []]; [|eauto|].
    - destruct Hk. congruence.
    - by destruct (Hnf t'). }
  assert (Hkl : g_kv_len g = length (g_hist g)).
  { destruct Hg as (_ & Hph & Hk). destruct (not_paused g Hpa) as [_ Ht].
    destruct (Hk (not_suspect jobs cfg g Hph Ht)) as [_ K2]; [by rewrite Ht|]. by rewrite Hpf in K2. }
  unfold spec_round. wp. eapply wp_mono; [by apply (build_spec_step_spec _ g (Sent t true))|].
  intros [[[d b] step]|] cx1 [(tk & Htk & ->) Hr].
  - assert (HI1 : Inv good sub [g] queue inbox (upd_tick tk cx)).
    { eapply (inv_session jobs cfg _ _ _ _ _ _ _ _ HI); [by split|apply (i_retained _ _ _ _ _ _ _ _ HI)|apply (i_retained_nodup _ _ _ _ _ _ _ _ HI)|].
      intros i g' _ _ (Hs & Hph & Hk). split_and!; [|done|done]. eapply (stream_ok_session _ _ _ cx); [by split|done]. }
    wp. apply decode_batch_spec.
    + intros cx2 Ht Hso Hret Hkv Hrows. cbn [negb]. wp.
      assert (HT : Inv (λ i _ _, i = 0) sub [g] queue inbox cx2).
      { eapply (inv_session jobs cfg _ _ _ _ _ _ _ _ HI1 Hso); [|rewrite Hret; apply (i_retained_nodup _ _ _ _ _ _ _ _ HI1)|by intros [|]].
        rewrite Hret. eapply Forall_impl; [apply (i_retained _ _ _ _ _ _ _ _ HI1)|]. intros r [H1 H2].
        split; [by rewrite (so_free _ _ Hso)|]. rewrite Hkv, (ro_batch _ _ _ _ Hr), entries_other, app_nil_r; [done|].
        intros Heq. pose proof (owner_slots jobs cfg (l1 := []) (l2 := []) HI1 Hd) as Hn. inversion Hn as [|? ? Hnot _]; subst.
        apply Hnot. simpl. by rewrite Heq. }
      assert (Hver : verifying cx2 g t step).
      { eapply (round_verifying (upd_tick tk cx)); try done.
        pose proof (i_gens _ _ _ _ _ _ _ _ HI1 0 g eq_refl Hd) as Hg1. unfold GenSweep.good in Hg1. by rewrite Ht in Hg1. }
      eapply wp_mono; [by eapply process_spec_step_spec|]. intros [[g' d'] bad] cx3 Hend. cbv beta iota.
      assert (Hfinal : ∀ g3 cx4, gstep true cx2 g g3 cx4 →
        Inv good sub (live [g3]) queue inbox cx4 ∧ Forall (λ g, g_done g = false) (live [g3])).
      { intros g3 cx4 HG. split; [|apply live_all]. apply inv_live_good.
        eapply (inv_gstep jobs cfg (l1 := []) (l2 := []) HT Hd HG good); [by intros i j s0 c0 c1 g0| |].
        - intros i c g0 Hi Hi0. done.
        - intros Hgo. by apply gen_ok_mono. }
      assert (Hgo : wp (if (bad : bool) then (if g_done g' then mret g' else fail_seq g' ErrRollback) else mret g') (gstep true cx2 g) cx3).
      { destruct bad; [|wp; exact Hend]. destruct Hend as (Hl & Hs & Hf & Hb). rewrite (br_done _ _ Hb).
        eapply wp_mono; [by apply (fail_broken_spec true)|]. intros g3 cx4 HG.
        exact (gstep_after jobs cfg true cx2 cx3 g' g g3 cx4 Hl Hs Hf HG). }
      wp. eapply wp_mono; [exact Hgo|]. intros g3 cx4 HG. wp. destruct (Hfinal _ _ HG). by split_and!.
    + intros cx2 Hso Ht. cbn [negb]. wp.
      eapply wp_mono; [eapply (decode_failed_spec jobs cfg sub [g] queue inbox _ cx2 HI1); [by constructor|done|done]|].
      intros active' cx3 (? & ? & _). wp. by split_and!.
  - wp. simpl. rewrite Hact. split_and!; try done; [|by constructor].
    eapply (inv_session jobs cfg _ _ _ _ _ _ _ _ HI); [by split|apply (i_retained _ _ _ _ _ _ _ _ HI)|apply (i_retained_nodup _ _ _ _ _ _ _ _ HI)|].
    intros i g' _ _ (Hs & Hph & Hk). split_and!; [|done|done]. eapply (stream_ok_session _ _ _ cx); [by split|done].
Qed.
End spec.
