(* ===== verification/GenToy.v ===== *)
(** * A small engine, and environments, for concrete runs

    The engine continues a history with its own length, ends at token 7, and
    renders tokens as letters.  The draft proposes the same tokens but
    for one.  Environments: a calm one, and rough ones. *)

From Stdlib Require Import ZArith Lia.
From stdpp Require Import base list strings option gmap.
From S2P Require Import Prelude Float StrUtil StopScan Engine GenOps GenLoop GenStep GenRef GenInv.

Open Scope nat_scope.

Definition toy_piece (t : Token) : option string :=
  match t with
  | 0 => Some "z" | 1 => Some "a" | 2 => Some "b" | 3 => Some "c" | 4 => Some "d" | 5 => Some "e" | 6 => Some "f" | 7 => Some "g"
  | _ => if (t <? 0)%Z then None else Some "x"
  end%Z%string.

Definition toy_next (h : list Token) : Token := Z.of_nat (length h).

(** The draft model ends at [draft_end]; a zeroed row samples [zeroed]. *)
Definition toy (draft_end : Token) (zeroed : Token) : Engine := {|
  Chain := unit;
  sampler_new _ := Some tt;
  sample _ h := (toy_next h, tt);
  sample_zeroed _ := (zeroed, tt);
  token_to_piece := toy_piece;
  is_eog t := (t =? 7)%Z;
  tokenize _ := Some [1; 1; 1]%Z;
  apply_chat_template _ := Some None;
  draft_greedy h := if length h =? 4 then 0%Z else toy_next h;
  draft_is_eog t := (t =? draft_end)%Z |}.

#[global] Instance toy_laws z : EngineLaws (toy 7 z).
Proof. split; [by intros ? [] ?|done]. Qed.

(** Every operation succeeds. *)
Definition calm {E : Engine} : Env := {|
  gone _ _ := false; room _ := true; decode_ok _ := true; tear _ := false; junk _ := ∅; trim_ok _ := true;
  grace_over _ := false; draft_ok _ := true; draft_trim_ok _ := true |}.

#[global] Instance calm_laws {E : Engine} : EnvLaws calm.
Proof. done. Qed.

(** Clients have room, and decodes succeed, before the given ticks; the remote
    is torn at the given tick. *)
Definition rough {E : Engine} (room_until decode_until torn_at : nat) : Env := {|
  gone _ _ := false; room m := m <? room_until; decode_ok m := m <? decode_until; tear m := m =? torn_at; junk _ := ∅;
  trim_ok _ := true; grace_over _ := false; draft_ok _ := true; draft_trim_ok _ := true |}.

Definition toy_job (stop : list string) (j : nat) : Job :=
  MkJob j "m" (Raw "") (MkParams 8 fzero fzero 0 None stop).

Definition toy_cfg (distributed draft : bool) : HostCfg := MkCfg "m" "hf:m" 64 16 2 distributed draft true false.
