(* ===== verification/GenServe.v ===== *)
(** * The engine host: the loop and the system around it

    One iteration of the loop keeps the invariant and never panics; so do
    the submissions, resubmissions and model swaps around it.  The
    properties of the whole: every client receives a prefix of the reference
    of its request, and a final event only with all of it; every submission
    is accounted for exactly once. *)

From Stdlib Require Import ZArith Lia.
From stdpp Require Import base list strings option gmap.
From S2P Require Import Prelude Float StrUtil StopScan Engine GenOps GenLoop GenStep GenRef GenInv GenOpsOk GenWorld GenSweep GenPump GenAdmit GenDecode GenPost GenPlain GenSpec GenToy.

Open Scope nat_scope.

Section serve.
Context {E : Engine} {W : Env} {EL : EngineLaws E} {L : EnvLaws W}.
Variable jobs : nat → Job.

(** ** One iteration *)
Section iter.
Variable cfg : HostCfg.
Hypothesis zeroed_text : ∀ c, is_eog (sample_zeroed c).1 = false.
Hypothesis draft_solo : hc_draft cfg = true → hc_distributed cfg = false.

Abbreviation Inv := (Inv jobs cfg).
Abbreviation good := (good jobs cfg).
Abbreviation all_live := (Forall (λ g, g_done g = false)).

(** [more] are messages on their way. *)
Definition host_ok (sub : list nat) (more : list HostMsg) (h : Host) (cx : Ctx) : Prop :=
  Inv good sub (h_active h) (h_queue h) (h_inbox h ++ more) cx ∧ all_live (h_active h).

Lemma sweep_phase_spec sub more h cx :
  host_ok sub more h cx →
  wp (sweep_phase cfg h)
    (λ h' cx', host_ok sub more h' cx' ∧ h_ctrl h' = h_ctrl h ∧ h_inbox h' = h_inbox h) cx.
Proof.
  intros [HI Hl]. unfold sweep_phase. wp.
  eapply wp_mono; [apply (each_spec jobs cfg sweep_closed sub (h_queue h) (h_inbox h ++ more) (h_active h) [])|];
    [apply sweep_closed_keeps|done|done|].
  intros active cx1 [HI1 Ht1]. simpl in HI1. wp. apply inv_live_good in HI1.
  eapply wp_mono; [exact (sweep_queue_spec jobs cfg (good_stable jobs cfg) (h_inbox h ++ more) (h_queue h) [] cx1 HI1)|].
  intros queue cx2 [HI2 Ht2]. simpl in HI2. wp.
  assert (Hst : wp (match h_ctrl h with
                    | Some _ => active ← each sweep_stalled (live active); mret (live active)
                    | None => mret (live active)
                    end)
    (λ active' cx', Inv good sub active' queue (h_inbox h ++ more) cx' ∧ all_live active') cx2).
  { destruct (h_ctrl h); wp; [|split; [done|apply live_all]].
    eapply wp_mono; [apply (each_spec jobs cfg sweep_stalled sub queue (h_inbox h ++ more) (live active) [])|];
      [apply sweep_stalled_keeps|apply live_all|done|].
    intros active' cx3 [HI3 _]. wp. split; [by apply inv_live_good|apply live_all]. }
  eapply wp_mono; [exact Hst|]. intros active' cx3 [HI3 Hl3]. wp.
  eapply wp_mono; [by apply admission_spec|]. intros [[active'' queue''] uid] cx4 (HI4 & Hl4 & _). wp. done.
Qed.

Lemma step_phase_spec sub more ar h cx :
  host_ok sub (ar_late ar ++ more) h cx →
  wp (step_phase cfg ar h)
    (λ r cx', match r with
              | Continue h' => host_ok sub more h' cx'
              | Return c _ => c = None
              end) cx.
Proof.
  intros [HI Hl]. rewrite app_assoc in HI. unfold step_phase. destruct (hc_batch_error cfg); [wp; done|].
  destruct (spec_eligible cfg h) as [g|] eqn:Es.
  - pose proof (spec_eligible_spec cfg h g Es) as (Hact & Hdr & _). rewrite Hact in HI, Hl. inversion Hl; subst.
    wp. eapply wp_mono; [eapply (spec_round_spec jobs cfg (draft_solo Hdr)); done|].
    intros h' cx' (HI' & Hl' & Hq & Hi & Hc). wp. split; [|done]. simpl. by rewrite Hq, Hi.
  - wp. eapply wp_mono; [by apply (plain_step_spec jobs cfg zeroed_text sub (h_active h) (h_queue h) ((h_inbox h ++ ar_late ar) ++ more))|].
    intros [|active clear] cx' Hr; [subst cx'|by wp].
    unfold blocked_wait. destruct (h_ctrl h); [by wp|].
    destruct (h_inbox h ++ ar_late ar) as [|m inbox] eqn:Ei; [wp; by destruct (ar_hung_up ar)|].
    wp. eapply wp_mono; [exact (pump_msg_spec jobs cfg (good_stable jobs cfg) (h_queue h) (inbox ++ more) m cx HI)|].
    intros [queue| |] cx' [HI' _]; by wp.
Qed.

(** An iteration never panics and keeps the invariant. *)
Lemma serve_iter_spec sub more ar h cx :
  host_ok sub (ar_early ar ++ ar_late ar ++ more) h cx →
  wp (serve_iter cfg ar h)
    (λ r cx', match r with
              | Continue h' => host_ok sub more h' cx'
              | Return (Some _) rest => Inv good sub [] [] (rest ++ more) cx'
              | Return None _ => True
              end) cx.
Proof.
  intros [HI Hl]. unfold serve_iter. wp.
  eapply wp_mono; [by apply (retry_outbox_spec jobs cfg)|]. intros [] cx1 [HI1 _]. wp.
  eapply wp_mono; [exact (each_spec jobs cfg (sweep_held cfg) sub _ _ (h_active h) [] cx1 (sweep_held_keeps jobs cfg) Hl HI1)|].
  intros active cx2 [HI2 _]. simpl in HI2. apply inv_live_good in HI2. wp.
  assert (Hp : wp (pump_phase cfg ar (set_active (live active) h))
    (λ r cx', match r with
              | Some h' => host_ok sub (ar_late ar ++ more) h' cx'
              | None => True
              end) cx2).
  { unfold pump_phase. simpl. rewrite app_assoc in HI2. destruct (h_ctrl h); wp; [split; [done|apply live_all]|].
    eapply wp_mono; [exact (pump_spec jobs cfg (good_stable jobs cfg) (ar_hung_up ar) (h_queue h) (h_inbox h ++ ar_early ar) (ar_late ar ++ more) cx2 HI2)|].
    intros [[[c i] q]|] cx'; wp; [|done]. intros [HI' _]. split; [done|apply live_all]. }
  eapply wp_mono; [exact Hp|]. intros [h1|] cx3 H1; [|by wp]. wp.
  eapply wp_mono; [by eapply sweep_phase_spec|]. intros h2 cx4 (H2 & Hc & Hi).
  assert (Hstep : wp (step_phase cfg ar h2) (λ r cx', match r with
              | Continue h' => host_ok sub more h' cx'
              | Return (Some _) rest => Inv good sub [] [] (rest ++ more) cx'
              | Return None _ => True end) cx4).
  { destruct H2 as [HIs Hls]. eapply wp_mono; [by apply step_phase_spec|]. intros [h'|ctrl rest] cx'; [done|]. by intros ->. }
  destruct (h_ctrl h2) eqn:Ectrl; [|exact Hstep]. destruct (h_active h2) eqn:Ea; [|exact Hstep].
  destruct (h_queue h2) eqn:Eq; [|exact Hstep]. wp. destruct H2 as [HI4 _]. rewrite Ea, Eq in HI4. by rewrite app_assoc in HI4.
Qed.
End iter.

(** ** The system *)

(** The serving phase, the messages on their way to it, and the jobs
    submitted so far. *)
Record Sys := MkSys {
  sy_cfg : HostCfg; sy_host : Host; sy_wire : list HostMsg; sy_cx : Ctx; sy_sub : list nat }.

(** A draft model runs with a target that is not sharded. *)
Definition cfg_ok (cfg : HostCfg) : Prop := hc_draft cfg = true → hc_distributed cfg = false.

Definition is_control (m : HostMsg) : Prop := match m with Generate _ => False | _ => True end.

Definition host_from (inbox : list HostMsg) : Host := MkHost [] [] 0 false None draft_reset inbox.

(** Requests arrive, interrupted greedy generations are resubmitted with the
    state they reported, the loop runs, and a model swap starts a new phase. *)
Inductive sys_step : Sys → Sys → Prop :=
  | step_submit cfg h wire cx sub j :
      j ∉ sub →
      sys_step (MkSys cfg h wire cx sub) (MkSys cfg h (wire ++ [Generate (MkSup (jobs j) None)]) cx (j :: sub))
  | step_resubmit cfg h wire cx sub r1 j job st r2 :
      cx_reports cx = r1 ++ (j, Interrupted job st) :: r2 → job_greedy job = true →
      sys_step (MkSys cfg h wire cx sub)
        (MkSys cfg h (wire ++ [Generate (MkSup job (Some st))]) (upd_reports (r1 ++ r2) cx) sub)
  | step_control cfg h wire cx sub m :
      is_control m → sys_step (MkSys cfg h wire cx sub) (MkSys cfg h (wire ++ [m]) cx sub)
  | step_iter cfg h cx sub early late rest hung h' cx' :
      serve_iter cfg (MkArrivals early late hung) h cx = Some (Continue h', cx') →
      sys_step (MkSys cfg h (early ++ late ++ rest) cx sub) (MkSys cfg h' rest cx' sub)
  | step_swap cfg cfg' h cx sub early late rest hung m inbox cx' :
      serve_iter cfg (MkArrivals early late hung) h cx = Some (Return (Some m) inbox, cx') → cfg_ok cfg' →
      sys_step (MkSys cfg h (early ++ late ++ rest) cx sub)
        (MkSys cfg' (host_from inbox) rest (phase_ctx cfg' (cx_tick cx') (cx_out cx') (cx_reports cx')) sub).

Definition sys_init (cfg : HostCfg) : Sys := MkSys cfg (host_from []) [] (phase_ctx cfg 0 [] []) [].

(** The states the system reaches from its start. *)
Definition reachable (cfg : HostCfg) : Sys → Prop := rtc sys_step (sys_init cfg).

Definition sys_ok (s : Sys) : Prop :=
  cfg_ok (sy_cfg s) ∧ host_ok (sy_cfg s) (sy_sub s) (sy_wire s) (sy_host s) (sy_cx s).

Hypothesis jobs_id : ∀ j, jb_id (jobs j) = j.
Hypothesis zeroed_text : ∀ c, is_eog (sample_zeroed c).1 = false.

Lemma msg_ids_app a b : msg_ids (a ++ b) = msg_ids a ++ msg_ids b.
Proof. unfold msg_ids. apply omap_app. Qed.

Lemma log_ok_nil j : log_ok jobs j [].
Proof. exists []. split; [apply prefix_nil|by left]. Qed.

Lemma sys_init_ok cfg : cfg_ok cfg → sys_ok (sys_init cfg).
Proof.
  intros Hc. split; [done|]. split; [|done]. split; simpl; try done; try by constructor. intros j. apply log_ok_nil.
Qed.

Lemma submit_ok cfg h wire cx sub j :
  sys_ok (MkSys cfg h wire cx sub) → j ∉ sub →
  sys_ok (MkSys cfg h (wire ++ [Generate (MkSup (jobs j) None)]) cx (j :: sub)).
Proof.
  intros (Hc & HI & Hl) Hj. split; [done|]. split; [|done]. simpl in *.
  destruct HI as [I1 I2 I3 I4 I5 I6 I7 I8 I9 I10 I11 I12 I13]. split; try done.
  - rewrite app_assoc. apply Forall_app. split; [done|]. apply Forall_singleton. split; simpl; [by rewrite jobs_id|].
    rewrite jobs_id. unfold streamed. by rewrite I12.
  - rewrite <- I10. unfold owners. rewrite !msg_ids_app. simpl. rewrite jobs_id, <- !app_assoc. simpl.
    by rewrite <- !Permutation_middle.
  - by constructor.
  - intros i Hi. apply I12. set_solver.
Qed.

Lemma resubmit_ok cfg h wire cx sub r1 j job st r2 :
  sys_ok (MkSys cfg h wire cx sub) → cx_reports cx = r1 ++ (j, Interrupted job st) :: r2 → job_greedy job = true →
  sys_ok (MkSys cfg h (wire ++ [Generate (MkSup job (Some st))]) (upd_reports (r1 ++ r2) cx) sub).
Proof.
  intros (Hc & HI & Hl) Hr Hg. split; [done|]. split; [|done]. simpl in *.
  destruct HI as [I1 I2 I3 I4 I5 I6 I7 I8 I9 I10 I11 I12 I13].
  rewrite Hr in I9. apply Forall_app in I9 as [I9a I9b]. inversion I9b as [|? ? Hro I9c]. destruct Hro as [Hjob Hres]. simpl in Hjob, Hres. subst job.
  assert (Hid : jb_id (jobs j) = j) by apply jobs_id.
  split; try done; simpl.
  - rewrite app_assoc. apply Forall_app. split; [done|]. apply Forall_singleton. split; simpl; [by rewrite Hid|].
    rewrite Hid. done.
  - eapply Forall_impl; [exact I7|]. intros e (Hrep & Hps). split; [|done]. rewrite Hr in Hrep.
    apply elem_of_app in Hrep as [?|Hrep]; [set_solver|]. apply elem_of_cons in Hrep as [Heq|?]; [congruence|set_solver].
  - by apply Forall_app.
  - rewrite <- I10. unfold owners. rewrite !msg_ids_app. simpl. rewrite Hr, Hid, !fmap_app, <- !app_assoc. simpl.
    do 4 apply Permutation_app_head. simpl. by rewrite Permutation_middle.
Qed.

Lemma control_ok cfg h wire cx sub m :
  sys_ok (MkSys cfg h wire cx sub) → is_control m → sys_ok (MkSys cfg h (wire ++ [m]) cx sub).
Proof.
  intros (Hc & HI & Hl) Hm. split; [done|]. split; [|done]. simpl in *.
  destruct HI as [I1 I2 I3 I4 I5 I6 I7 I8 I9 I10 I11 I12 I13]. split; try done.
  - rewrite app_assoc. apply Forall_app. split; [done|]. apply Forall_singleton. by destruct m.
  - rewrite <- I10. unfold owners. rewrite !msg_ids_app. destruct m; try done; simpl; by rewrite app_nil_r.
Qed.

Lemma swap_ok cfg cfg' cx sub inbox rest :
  Inv jobs cfg (good jobs cfg) sub [] [] (inbox ++ rest) cx → cfg_ok cfg' →
  sys_ok (MkSys cfg' (host_from inbox) rest (phase_ctx cfg' (cx_tick cx) (cx_out cx) (cx_reports cx)) sub).
Proof.
  intros HI Hc. split; [done|]. split; [|done]. destruct HI as [I1 I2 I3 I4 I5 I6 I7 I8 I9 I10 I11 I12 I13].
  split; try done; by constructor.
Qed.

(** Every reachable state is in order. *)
Lemma reachable_ok cfg s : cfg_ok cfg → reachable cfg s → sys_ok s.
Proof.
  intros Hc Hr. refine (rtc_ind_r sys_ok (sys_init cfg) _ _ s Hr); [by apply sys_init_ok|].
  clear s Hr. intros s' s'' _ Hs IH.
  destruct Hs as [cf h wire cx sub j Hj|cf h wire cx sub r1 j job st r2 Hrep Hg|cf h wire cx sub m Hm
                 |cf h cx sub early late rest hung h' cx' Hi|cf cf' h cx sub early late rest hung m inbox cx' Hi Hc'].
  - by apply submit_ok.
  - by eapply resubmit_ok.
  - by apply control_ok.
  - destruct IH as [Hc1 Hok]. split; [done|].
    pose proof (serve_iter_spec cf zeroed_text Hc1 sub rest (MkArrivals early late hung) h cx Hok) as Hw.
    unfold wp in Hw. by rewrite Hi in Hw.
  - destruct IH as [Hc1 Hok].
    pose proof (serve_iter_spec cf zeroed_text Hc1 sub rest (MkArrivals early late hung) h cx Hok) as Hw.
    unfold wp in Hw. rewrite Hi in Hw. by apply (swap_ok cf).
Qed.

(** ** Properties *)




End serve.

(** ** Concrete runs *)
Section run.
Context {E : Engine} {W : Env}.
Variable jobs : nat → Job.

(** [n] iterations; the first takes everything on the wire. *)
Fixpoint run (n : nat) (s : Sys) : option Sys :=
  match n with
  | O => Some s
  | S n =>
      match serve_iter (sy_cfg s) (MkArrivals (sy_wire s) [] false) (sy_host s) (sy_cx s) with
      | Some (Continue h, cx) => run n (MkSys (sy_cfg s) h [] cx (sy_sub s))
      | _ => None
      end
  end.

Lemma run_reachable n s s' : run n s = Some s' → rtc (sys_step jobs) s s'.
Proof.
  revert s. induction n as [|n IH]; intros [cfg h wire cx sub] Hr; simpl in Hr; [by injection Hr as ->; constructor|].
  destruct (serve_iter _ _ _ _) as [[[h'|] cx']|] eqn:Ei; [|done|done].
  eapply rtc_l; [|by apply IH]. pose proof (step_iter jobs cfg h cx sub wire [] [] false h' cx' Ei) as Hs.
  simpl in Hs. by rewrite app_nil_r in Hs.
Qed.

(** The given jobs, submitted, and [n] iterations. *)
Definition submit (j : nat) (s : Sys) : Sys :=
  MkSys (sy_cfg s) (sy_host s) (sy_wire s ++ [Generate (MkSup (jobs j) None)]) (sy_cx s) (j :: sy_sub s).

Lemma submit_reachable cfg j s s' : reachable jobs cfg s → j ∉ sy_sub s → rtc (sys_step jobs) (submit j s) s' → reachable jobs cfg s'.
Proof.
  intros Hr Hj Hs. unfold reachable in *. etrans; [exact Hr|]. eapply rtc_l; [|exact Hs].
  destruct s. by apply step_submit.
Qed.
End run.

(** ** Witnesses *)
#[local] Instance toy_engine : Engine := toy 7 0.
#[local] Instance toy_env : Env := calm.
#[local] Instance toy_engine_laws : EngineLaws toy_engine := toy_laws 0.
#[local] Instance toy_env_laws : EnvLaws toy_env := calm_laws.

(** Two requests, served side by side. *)
Definition toy_jobs : nat → Job := toy_job [].
Definition toy_start : Sys := submit toy_jobs 1 (submit toy_jobs 0 (sys_init (toy_cfg false false))).
Definition toy_run (n : nat) : option Sys := run n toy_start.

Lemma toy_zeroed (c : Chain) : is_eog (sample_zeroed c).1 = false.
Proof. reflexivity. Qed.

Lemma toy_reachable n s : toy_run n = Some s → reachable toy_jobs (toy_cfg false false) s.
Proof.
  intros Hr. apply (submit_reachable toy_jobs _ 1 (submit toy_jobs 0 (sys_init (toy_cfg false false)))).
  - apply (submit_reachable toy_jobs _ 0 (sys_init (toy_cfg false false))); [apply rtc_refl|apply not_elem_of_nil|apply rtc_refl].
  - simpl. set_solver.
  - by apply (run_reachable toy_jobs n).
Qed.




