(* ===== verification/GenFindings.v ===== *)
(** * The engine host: where its contract needs its conditions

    Concrete runs in which the hypotheses of the properties fail, or in which
    the code departs from what its comments and [docs/resilience.md] say: a
    draft model with other ends of generation, a tear that looks like an end
    of generation, drafts verified against a torn remote, a stop match
    resumed behind held pieces, and an event that finds a full channel. *)

From Stdlib Require Import ZArith Lia.
From stdpp Require Import base list strings option gmap.
From S2P Require Import Prelude Float StrUtil StopScan Engine GenOps GenLoop GenStep GenRef GenInv GenWorld GenSweep GenPump GenServe GenToy.

Open Scope nat_scope.

(** What job 0 received after [n] iterations. *)
Definition received {E : Engine} {W : Env} (cfg : HostCfg) (stop : list string) (n : nat) : option (list TokenEvent) :=
  s ← run n (submit (toy_job stop) 0 (sys_init cfg)); Some (evs 0 (cx_out (sy_cx s))).

(** The vocabulary check of a draft model compares no ends of generation: a
    drafted token that ends generation for the target only is accepted and
    streamed, and the generation runs on past its end. *)
Theorem draft_end_streamed :
  reference (E := toy 100 0) (toy_job [] 0) = Some (MkOut ["c"; "d"; "e"; "f"] [3; 4; 5; 6]%Z (RFin Stop))
  ∧ received (E := toy 100 0) (W := calm (E := toy 100 0)) (toy_cfg false true) [] 5
    = Some ((EvToken <$> ["c"; "d"; "e"; "f"; "g"; "x"; "x"; "x"]) ++ [EvDone (MkDone 3 8 Length 13 6)]).
Proof. split; vm_compute; reflexivity. Qed.

(** On a sharded model, zeroed logits that sample an end of generation finish
    the stream with [Stop] at once: an end is never confirmed by a decode. *)
Theorem torn_end_truncates :
  reference (E := toy 7 7) (toy_job [] 0) = Some (MkOut ["c"; "d"; "e"; "f"] [3; 4; 5; 6]%Z (RFin Stop))
  ∧ received (E := toy 7 7) (W := rough (E := toy 7 7) 100 100 4) (toy_cfg true false) [] 5
    = Some ((EvToken <$> ["c"]) ++ [EvDone (MkDone 3 1 Stop 0 0)]).
Proof. split; vm_compute; reflexivity. Qed.

(** A speculative round on a sharded model whose remote is torn accepts a
    draft that equals the token sampled from zeroed logits and streams it in
    the same step, with no decode after the tear to confirm it. *)
Theorem torn_draft_streamed :
  reference (E := toy 7 0) (toy_job [] 0) = Some (MkOut ["c"; "d"; "e"; "f"] [3; 4; 5; 6]%Z (RFin Stop))
  ∧ received (E := toy 7 0) (W := rough (E := toy 7 0) 100 100 8) (toy_cfg true true) [] 5
    = Some (EvToken <$> ["c"; "z"]).
Proof. split; vm_compute; reflexivity. Qed.

(** The resume states reported after job 0 ran for [n] iterations and job 1
    then arrived. *)
Definition interrupted {E : Engine} {W : Env} (cfg : HostCfg) (stop : list string) (n m : nat) : list (nat * ResumeState) :=
  match s ← run n (submit (toy_job stop) 0 (sys_init cfg)); run m (submit (toy_job stop) 1 s) with
  | Some s => omap (λ r, match r.2 with Interrupted _ st => Some (r.1, st) | Finished => None end) (cx_reports (sy_cx s))
  | None => []
  end.

(** A stop match found in a speculative round on a sharded model, behind a
    held piece, and then interrupted: the resume renders every carried token
    that was not sent, the withheld stop piece included, and sends it. *)
Definition stop_resume : option (list string) :=
  let E := toy 7 0 in
  match interrupted (E := E) (W := rough (E := E) 11 19 100) (toy_cfg true true) ["e"] 4 2 with
  | (0, st) :: _ =>
      match prepare_generation (E := E) (W := calm (E := E)) (toy_cfg true true) (MkSup (toy_job ["e"] 0) (Some st))
              (phase_ctx (toy_cfg true true) 0 [] []) with
      | Some (Some p, _) => Some (pg_unsent p)
      | _ => None
      end
  | _ => None
  end.

Theorem stop_piece_resent :
  reference (E := toy 7 0) (toy_job ["e"] 0) = Some (MkOut ["c"; "d"] [3; 4; 5]%Z (RFin Stop))
  ∧ stop_resume = Some ["d"; "e"].
Proof. split; vm_compute; reflexivity. Qed.

(** An event that ends a resumed request at validation time is tried once:
    when the client's channel is full the client never gets it, although the
    request is reported finished.  (The code takes the channel for fresh,
    which a resumed request's is not.) *)
Theorem resume_error_lost {E : Engine} {W : Env} (cfg : HostCfg) (job : Job) (st : ResumeState) (cx : Ctx) :
  let j := jb_id job in
  hc_batch_error cfg = false → jb_model job ≠ hc_name cfg → jb_model job ≠ hc_reference cfg →
  (∀ n, gone j n = false) → room (S (cx_tick cx)) = false →
  ∃ cx', prepare_generation cfg (MkSup job (Some st)) cx = Some (None, cx')
         ∧ cx_out cx' = cx_out cx ∧ cx_outbox cx' = cx_outbox cx ∧ cx_reports cx' = cx_reports cx ++ [(j, Finished)].
Proof.
  intros j Hb Hn1 Hn2 Hgone Hroom.
  unfold prepare_generation, is_closed, finish_error, try_send, report, mbind, M_bind, tick, get, put. simpl.
  rewrite Hb. fold j. rewrite Hgone.
  apply String.eqb_neq in Hn1. apply String.eqb_neq in Hn2. simpl. rewrite Hn1, Hn2. simpl. rewrite Hgone, Hroom. simpl.
  eexists. split; [reflexivity|]. done.
Qed.
