(* ===== verification/GenLive.v ===== *)
(** * The engine host: every accepted request comes to an end

    While clients stay connected and keep reading, every iteration of the
    loop with work to do takes some of it away, whatever decodes, remotes,
    trims and the draft model do: the loop never wedges. *)

From Stdlib Require Import ZArith Lia.
From stdpp Require Import base list strings option gmap.
From S2P Require Import Prelude Float StrUtil StopScan Engine GenOps GenLoop GenStep GenRef GenInv GenOpsOk GenWorld GenSweep GenPump GenAdmit GenDecode GenPost GenPlain GenSpec GenToy GenServe.

Open Scope nat_scope.

(** Clients stay connected and keep reading. *)
Class Responsive `{E : Engine} (W : Env) : Prop := {
  stays : ∀ j n, gone j n = false;
  reads : ∀ n, room n = true }.

(** ** Results of operations that return *)
Section wlp.
Context {E : Engine}.

Definition wlp {A} (m : M A) (Q : A → Prop) : Prop := ∀ cx a cx', m cx = Some (a, cx') → Q a.

Lemma wlp_ret {A} (a : A) Q : Q a → wlp (mret a) Q.
Proof. intros HQ cx a' cx' [= <- _]. done. Qed.
Lemma wlp_bind {A B} (m : M A) (f : A → M B) Q : wlp m (λ a, wlp (f a) Q) → wlp (m ≫= f) Q.
Proof.
  intros Hm cx b cx' Hr. unfold mbind, M_bind in Hr. destruct (m cx) as [[a cx1]|] eqn:Em; [|done].
  eapply Hm; eauto.
Qed.
Lemma wlp_any {A} (m : M A) (Q : A → Prop) : (∀ a, Q a) → wlp m Q.
Proof. intros HQ cx a cx' _. apply HQ. Qed.
Lemma wlp_mono {A} (m : M A) (Q Q' : A → Prop) : wlp m Q → (∀ a, Q a → Q' a) → wlp m Q'.
Proof. intros Hm HQ cx a cx' Hr. apply HQ. eapply Hm; eauto. Qed.
Lemma wlp_unwrap {A} (o : option A) (Q : A → Prop) : (∀ a, o = Some a → Q a) → wlp (unwrap o) Q.
Proof. intros HQ cx a cx'. destruct o as [x|]; [|done]. intros [= <- _]. by apply HQ. Qed.
Lemma wlp_dec n (Q : nat → Prop) : (∀ m, n = S m → Q m) → wlp (dec n) Q.
Proof. intros HQ cx a cx'. destruct n; [done|]. intros [= <- _]. by apply HQ. Qed.
Lemma wlp_panic {A} (Q : A → Prop) : wlp panic Q.
Proof. by intros cx a cx'. Qed.

Lemma wp_and {A} (m : M A) (Q : A → Ctx → Prop) (R : A → Prop) cx :
  wp m Q cx → wlp m R → wp m (λ a cx', Q a cx' ∧ R a) cx.
Proof.
  unfold wp. destruct (m cx) as [[a cx']|] eqn:Em; [|done]. intros HQ HR. split; [done|]. eapply HR; eauto.
Qed.
End wlp.

(** Peel the primitives off a [wlp] goal; reads of the state give anything. *)
Ltac wlp :=
  repeat (cbv beta; match goal with
  | |- wlp (_ ≫= _) _ => apply wlp_bind
  | |- wlp (mret _) _ => apply wlp_ret
  | |- wlp panic _ => apply wlp_panic
  | |- wlp (get _) _ => apply wlp_any; intros ?
  | |- wlp (put _ _) _ => apply wlp_any; intros ?
  | |- wlp tick _ => apply wlp_any; intros ?
  | |- wlp (unwrap _) _ => apply wlp_unwrap; intros ? ?
  end).

(** ** Work *)
Section live.
Context {E : Engine} {W : Env}.
Variable cfg : HostCfg.

(** What is left to do for a sequence, and for a queued request. *)
Definition work (g : ActiveGen) : nat :=
  if g_done g then 0 else 1 + (length (g_prefix g) - g_prefill_done g) + g_remaining g.
Definition works (l : list ActiveGen) : nat := sum_list_with work l.
Definition queued_work (p : PreparedGen) : nat :=
  2 + length (pg_prompt_tokens p) + length (pg_prior_generated p) + pg_remaining p.

Lemma works_app a b : works (a ++ b) = works a + works b.
Proof. apply sum_list_with_app. Qed.
Lemma works_live l : works (live l) = works l.
Proof.
  unfold works. induction l as [|g l IH]; [done|]. rewrite live_cons. simpl. unfold work at 2.
  destruct (g_done g) eqn:Ed; simpl; [done|]. rewrite IH. unfold work. by rewrite Ed.
Qed.
Lemma works_insert l i g g' : l !! i = Some g → works (<[i := g']> l) + work g = works l + work g'.
Proof.
  intros Hi. rewrite insert_take_drop by (by eapply lookup_lt_Some). rewrite <- (take_drop_middle l i g Hi) at 3.
  rewrite !works_app. unfold works. simpl. lia.
Qed.

(** The sequence ended, or has no more work than before. *)
Definition no_more (g g' : ActiveGen) : Prop := work g' ≤ work g.
(** The sequence ended, or has less work than before. *)
Definition less (g g' : ActiveGen) : Prop := work g' < work g.

Lemma release_seq_done g : wlp (release_seq g) (λ g', g_done g' = true).
Proof. unfold release_seq, seq_rm_all. wlp. done. Qed.

Lemma report_gen_any g o Q : Q g → Q (set_outcome false g) → wlp (report_gen g o) Q.
Proof. intros H1 H2. unfold report_gen, report. destruct (g_outcome g); wlp; done. Qed.

Lemma deliver_terminal_any j ev : wlp (deliver_terminal j ev) (λ _, True).
Proof. by apply wlp_any. Qed.

Lemma finish_seq_done g k retain : wlp (finish_seq g k retain) (λ g', g_done g' = true).
Proof.
  unfold finish_seq. wlp. eapply wlp_mono; [apply deliver_terminal_any|]. intros _ _. wlp.
  eapply wlp_mono; [apply (report_gen_any g Finished (λ _, True)); done|]. intros g' _. destruct retain; [wlp; done|].
  apply release_seq_done.
Qed.

Lemma fail_seq_done g e : g_held g = [] → wlp (fail_seq g e) (λ g', g_done g' = true).
Proof.
  intros Hh. unfold fail_seq. rewrite Hh. wlp. eapply wlp_mono; [apply deliver_terminal_any|]. intros _ _. wlp.
  eapply wlp_mono; [apply (report_gen_any g Finished (λ _, True)); done|]. intros g' _. apply release_seq_done.
Qed.

(** The fields work is made of. *)
Definition same_work (g g' : ActiveGen) : Prop :=
  g_done g' = g_done g ∧ g_fix g' = g_fix g ∧ g_prefill_done g' = g_prefill_done g ∧ g_remaining g' = g_remaining g.

Lemma same_work_eq g g' : same_work g g' → work g' = work g.
Proof. intros (H1 & H2 & H3 & H4). unfold work, g_prefix. by rewrite H1, H2, H3, H4. Qed.

Lemma done_work g : g_done g = true → work g = 0.
Proof. unfold work. by intros ->. Qed.
Lemma live_work g : g_done g = false → 0 < work g.
Proof. unfold work. intros ->. lia. Qed.

Context {R : Responsive W}.

Lemma try_send_ok j ev (Q : SendRes → Prop) : Q SOk → wlp (try_send j ev) Q.
Proof. intros HQ. unfold try_send. wlp. rewrite stays, reads. by wlp. Qed.

Lemma deliver_piece_live g piece :
  g_held g = [] → wlp (deliver_piece g piece) (λ g', g_held g' = [] ∧ same_work g g').
Proof. intros Hh. unfold deliver_piece. rewrite Hh. wlp. apply try_send_ok. wlp. split; [exact Hh|by split_and!]. Qed.

Lemma stage_pending_live g t piece :
  g_held g = [] → wlp (stage_pending (hc_distributed cfg) g t piece) (λ g', same_work g g').
Proof.
  intros Hh. unfold stage_pending. destruct (hc_distributed cfg); [wlp; by split_and!|].
  destruct (scan_admit (g_scan g) piece) as [[] sc]; wlp; [|by split_and!].
  eapply wlp_mono; [by apply (deliver_piece_live (set_scan sc g))|]. intros g' [_ Hs]. by wlp.
Qed.

(** Ended, or the same work. *)
Definition done_or_same (g g' : ActiveGen) : Prop := g_done g' = true ∨ same_work g g'.

Lemma finish_or_defer_live g k retain : g_held g = [] → wlp (finish_or_defer g k retain) (λ g', g_done g' = true).
Proof. intros Hh. unfold finish_or_defer. rewrite Hh. apply finish_seq_done. Qed.

Lemma next_token_live g t defer : g_held g = [] → wlp (next_token cfg g t defer) (done_or_same g).
Proof.
  intros Hh. unfold next_token. destruct (is_eog t).
  - apply (wlp_mono _ (λ g', g_done g' = true)); [|by left].
    destruct defer; [by apply finish_or_defer_live|apply finish_seq_done].
  - destruct (token_to_piece t).
    + eapply wlp_mono; [by apply stage_pending_live|]. intros a Ha. by right.
    + eapply wlp_mono; [by apply fail_seq_done|]. intros a Ha. by left.
Qed.

Lemma sample_then_next_live g g0 index defer :
  g_held g = [] → same_work g0 g →
  wlp ('(next, g) ← sample_ith g index; next_token cfg g next defer) (done_or_same g0).
Proof.
  intros Hh Hs. unfold sample_ith. wlp. destruct (sample_row (g_chain g) _) as [t c]. wlp.
  eapply wlp_mono; [by apply (next_token_live (set_chain c g))|]. intros g' [Hd|Hsw]; [by left|right].
  destruct Hs as (? & ? & ? & ?), Hsw as (? & ? & ? & ?). simpl in *. unfold same_work. repeat split; congruence.
Qed.

(** ** Steps take work away *)
Lemma done_or_same_less g g1 g' : g_done g = false → work g1 < work g → done_or_same g1 g' → less g g'.
Proof.
  intros Hd Hlt [Hd'|Hs]; unfold less; [rewrite (done_work _ Hd'); by apply live_work|by rewrite (same_work_eq _ _ Hs)].
Qed.
Lemma done_less g g' : g_done g = false → g_done g' = true → less g g'.
Proof. intros Hd Hd'. unfold less. rewrite (done_work _ Hd'). by apply live_work. Qed.

Lemma cancel_seq_done g : wlp (cancel_seq g) (λ g', g_done g' = true).
Proof.
  unfold cancel_seq. wlp. eapply wlp_mono; [apply (report_gen_any g Finished (λ _, True)); done|]. intros g' _. apply release_seq_done.
Qed.

Lemma post_decode_less index g : g_done g = false → g_held g = [] → wlp (post_decode cfg index g) (less g).
Proof.
  intros Hd Hh. unfold post_decode. wlp. rename a into p. apply wlp_dec. intros m Hm.
  set (g1 := set_remaining m _).
  assert (Hlt : work g1 < work g).
  { unfold work, g1, g_prefix. simpl. rewrite Hd, Hm. lia. }
  assert (Hgo : ∀ g2, g_held g2 = [] → same_work g1 g2 →
    wlp (if g_remaining g2 =? 0 then finish_or_defer g2 Length (hc_kv_reuse cfg)
         else '(next, g) ← sample_ith g2 index; next_token cfg g next true) (less g)).
  { intros g2 Hh2 Hs2. destruct (_ =? 0).
    - eapply wlp_mono; [by apply finish_or_defer_live|]. intros. by apply done_less.
    - eapply wlp_mono; [by apply (sample_then_next_live g2 g1)|]. intros. by eapply done_or_same_less. }
  assert (Hfin : ∀ g2 k r, wlp (finish_seq g2 k r) (less g)).
  { intros. eapply wlp_mono; [apply finish_seq_done|]. intros. by apply done_less. }
  destruct p as [t piece|t [|]].
  - destruct (scan_admit _ piece) as [[] sc]; [|apply Hfin]. unfold emit_confirmed. wlp.
    apply try_send_ok. wlp. by apply Hgo.
  - by apply Hgo.
  - apply Hfin.
Qed.

Lemma post_prefill_less pf g :
  g_done g = false → g_held g = [] → 0 < pf_chunk pf → g_prefill_done g + pf_chunk pf ≤ length (g_prefix g) →
  wlp (post_prefill cfg pf g) (less g).
Proof.
  intros Hd Hh Hc Hle. unfold post_prefill. rewrite Hd. set (g1 := set_prefill_done _ _).
  assert (Hlt : work g1 < work g).
  { unfold work, g1. gs. rewrite Hd. lia. }
  destruct (_ =? _); [|by apply wlp_ret]. apply wlp_bind, wlp_unwrap. intros index _.
  eapply wlp_mono; [by apply (sample_then_next_live g1 g1)|]. intros. by eapply done_or_same_less.
Qed.

(** ** Steps over all sequences *)
Lemma at_index_works i f active g :
  active !! i = Some g → wlp (f g) (less g) →
  wlp (at_index i f active) (λ active', works active' < works active ∧ ∀ k, k ≠ i → active' !! k = active !! k).
Proof.
  intros Hi Hf. unfold at_index. wlp. rewrite Hi in H. injection H as <-. eapply wlp_mono; [exact Hf|]. intros g' Hl. wlp.
  pose proof (works_insert active i g g' Hi). unfold less in Hl. split; [lia|]. intros k Hk. by apply list_lookup_insert_ne.
Qed.

Lemma post_decodes_works ds active :
  NoDup ds.*1 → (∀ i, i ∈ ds.*1 → ∃ g, active !! i = Some g ∧ g_done g = false ∧ g_held g = []) →
  wlp (post_decodes cfg ds active)
    (λ active', works active' + length ds ≤ works active ∧ ∀ k, k ∉ ds.*1 → active' !! k = active !! k).
Proof.
  revert active. induction ds as [|[i index] ds IH]; intros active Hn Hall; cbn [post_decodes].
  - wlp. simpl. split; [lia|done].
  - simpl in Hn. apply NoDup_cons in Hn as [Hni Hn]. destruct (Hall i ltac:(set_solver)) as (g & Hi & Hd & Hh).
    wlp. eapply wlp_mono; [apply (at_index_works i _ active g Hi); by apply post_decode_less|]. intros active1 [Hw Hsame].
    eapply wlp_mono; [apply IH; [done|]|].
    + intros k Hk. destruct (Hall k ltac:(simpl; set_solver)) as (gk & ? & ? & ?). exists gk. split; [|done].
      rewrite Hsame; [done|]. by intros ->.
    + intros active' [Hw' Hsame']. simpl. split; [lia|]. intros k Hk. rewrite Hsame', Hsame; [done|set_solver|set_solver].
Qed.

Lemma each_works f l (P : ActiveGen → Prop) :
  Forall P l → (∀ g, P g → wlp (f g) (no_more g)) → wlp (each f l) (λ l', works l' ≤ works l).
Proof.
  intros Hl Hf. induction Hl as [|g l Hg Hl IH]; cbn [each]; [by wlp|]. wlp.
  eapply wlp_mono; [by apply Hf|]. intros g' Hg'. wlp. eapply wlp_mono; [exact IH|]. intros l' Hl'. wlp.
  unfold works, no_more in *. simpl. lia.
Qed.

(** A failed decode ends every sequence that could be stepped. *)
Lemma fail_suspect_works g :
  g_done g = false → wlp (fail_seq (set_kv_suspect true g) ErrDecode) (λ g', no_more g g' ∧ (g_held g = [] → less g g')).
Proof.
  intros Hd. destruct (g_held g) as [|p held] eqn:Eh.
  - eapply wlp_mono; [by apply (fail_seq_done (set_kv_suspect true g))|]. intros g' Hd'.
    pose proof (done_less g g' Hd Hd'). unfold less, no_more in *. split; [lia|done].
  - unfold fail_seq. simpl. rewrite Eh. wlp. split; [|done]. unfold no_more, work. destruct (g_terminal _); gs; done.
Qed.

Lemma each_less f l :
  Forall (λ g, g_done g = false) l → (∃ g, g ∈ l ∧ g_held g = []) →
  (∀ g, g_done g = false → wlp (f g) (λ g', no_more g g' ∧ (g_held g = [] → less g g'))) →
  wlp (each f l) (λ l', works l' < works l).
Proof.
  intros Hl Hex Hf. induction Hl as [|g l Hg Hl IH]; [destruct Hex as (? & Hx & _); set_solver|]. cbn [each]. wlp.
  eapply wlp_mono; [by apply Hf|]. intros g' [Hn Hlt]. wlp.
  destruct (g_held g) eqn:Eh.
  - eapply wlp_mono; [apply (each_works f l (λ g, g_done g = false) Hl)|].
    + intros g0 Hd0. eapply wlp_mono; [by apply Hf|]. by intros ? [].
    + intros l' Hl'. wlp. specialize (Hlt eq_refl). unfold works, less in *. simpl. lia.
  - eapply wlp_mono; [apply IH|].
    + destruct Hex as (g0 & Hin & Hh). apply elem_of_cons in Hin as [->|Hin]; [congruence|eauto].
    + intros l' Hl'. wlp. unfold works, no_more in *. simpl. lia.
Qed.

Lemma decode_failed_works active :
  Forall (λ g, g_done g = false) active → (∃ g, g ∈ active ∧ g_held g = []) →
  wlp (decode_failed cfg active) (λ active', works active' < works active).
Proof.
  intros Hl Hex.
  assert (Hpos : 0 < works active).
  { destruct Hex as (g & Hin & _). apply list_elem_of_split in Hin as (l1 & l2 & ->). rewrite works_app. unfold works. simpl.
    rewrite Forall_app, Forall_cons in Hl. pose proof (live_work g ltac:(tauto)). lia. }
  unfold decode_failed. wlp. apply wlp_any. intros _. wlp. destruct (hc_distributed cfg); wlp.
  - apply wlp_any. intros _. wlp. unfold works. simpl. done.
  - eapply wlp_mono; [apply (each_less _ active Hl Hex)|].
    + intros g Hd. by apply fail_suspect_works.
    + intros l' Hl'. wlp. by rewrite works_live.
Qed.

(** ** The plain step *)
Lemma paused_false g : paused g = false → g_held g = [] ∧ g_terminal g = None.
Proof. unfold paused. destruct (g_held g), (g_terminal g); done. Qed.

(** A batch with nothing in it has seen no sequence it could step. *)
Lemma build_decodes_none i active b ds :
  build_decodes cfg i active b ds = inr (b, ds) → Forall (λ g, paused g = true ∨ prefilling g = true ∨ g_pending g = None) active.
Proof.
  assert (Hgrow : ∀ l i b ds b' ds', build_decodes cfg i l b ds = inr (b', ds') → length ds ≤ length ds').
  { induction l as [|g l IH]; intros i0 b0 ds0 b' ds' Hb; cbn [build_decodes] in Hb; [by injection Hb as <- <-|].
    destruct (paused g || prefilling g); [by eapply IH|]. destruct (g_pending g); [|by eapply IH].
    destruct (push cfg b0 _) as [[ix b1]|]; [|done]. apply IH in Hb. rewrite length_app in Hb. simpl in Hb. lia. }
  revert i. induction active as [|g active IH]; intros i Hb; [done|]. cbn [build_decodes] in Hb.
  destruct (paused g || prefilling g) eqn:Ep.
  { apply orb_true_iff in Ep. constructor; [tauto|by eapply IH]. }
  destruct (g_pending g) eqn:Eg; [|constructor; [tauto|by eapply IH]].
  destruct (push cfg b _) as [[ix b1]|]; [|done]. apply Hgrow in Hb. rewrite length_app in Hb. simpl in Hb. lia.
Qed.

Lemma build_prefill_none i active b : build_prefill cfg i active [] = inr (b, None) → Forall (λ g, paused g = true ∨ prefilling g = false) active.
Proof.
  revert i. induction active as [|g active IH]; intros i Hb; [done|]. cbn [build_prefill] in Hb.
  destruct (paused g || negb (prefilling g)) eqn:Ep.
  { apply orb_true_iff in Ep. constructor; [|by eapply IH]. destruct Ep as [?|?%negb_true_iff]; tauto. }
  simpl in Hb. unfold n_batch in Hb. destruct (_ =? 0) eqn:E0; [apply Nat.eqb_eq in E0; lia|].
  destruct (push_chunk _ _ _ _ _ _) as [[? ?]|]; done.
Qed.

(** Sequences as the loop steps them. *)
Definition steady (g : ActiveGen) : Prop :=
  g_done g = false ∧ (g_terminal g = None → prefilling g = false → g_pending g ≠ None).

(** Without an entry in the batch, every sequence waits for its client. *)
Lemma nothing_to_step active bs b :
  Forall steady active → build_decodes cfg 0 active [] [] = inr (bs, []) → decodes_of 0 active [] bs [] →
  build_prefill cfg 0 active bs = inr (b, None) → Forall (λ g, paused g = true) active.
Proof.
  intros Hs Eb HD Epf.
  assert (bs = []) as ->.
  { destruct bs as [|e bs]; [done|]. exfalso.
    destruct (do_seqs _ _ _ _ _ HD e ltac:(set_solver)) as (g0 & Hg0 & Hseq). apply list_elem_of_lookup in Hg0 as [k Hk].
    pose proof (do_out _ _ _ _ _ HD k g0 Hk ltac:(set_solver)) as Ht. rewrite toks_of_cons, decide_True in Ht by done. done. }
  apply build_decodes_none in Eb. apply build_prefill_none in Epf. apply list.Forall_forall. intros g Hg.
  rewrite list.Forall_forall in Eb, Epf, Hs. specialize (Eb g Hg). specialize (Epf g Hg). destruct (Hs g Hg) as [_ H3].
  destruct (paused g) eqn:Ep; [done|]. apply paused_false in Ep as [_ Ht]. exfalso.
  destruct Eb as [?|[?|Hp]]; [done| |]; destruct Epf as [?|Hf]; try congruence. by apply (H3 Ht Hf).
Qed.

Lemma failed_push_works active i g (Q : Stepped → Prop) :
  active !! i = Some g → g_done g = false → paused g = false →
  (∀ active', works active' < works active → Q (Stepped_to active' false)) →
  wlp (active ← at_index i (λ g, fail_seq g ErrPush) active; mret (Stepped_to (live active) false)) Q.
Proof.
  intros Hi Hd [Hh _]%paused_false HQ. wlp. eapply wlp_mono.
  - apply (at_index_works i _ active g Hi). eapply wlp_mono; [by apply fail_seq_done|]. intros g' Hg'. by apply done_less.
  - intros active' [Hw _]. wlp. apply HQ. by rewrite works_live.
Qed.

(** A decoded batch, or a failed decode, takes work away. *)
Lemma stepped_works active dl pf b :
  Forall (λ g, g_done g = false) active → NoDup dl.*1 → (dl ≠ [] ∨ pf ≠ None) →
  (∀ i, i ∈ dl.*1 → ∃ g, active !! i = Some g ∧ paused g = false ∧ prefilling g = false) →
  (∀ pf', pf = Some pf' → ∃ g, active !! pf_index pf' = Some g ∧ paused g = false ∧ prefilling g = true
    ∧ 0 < pf_chunk pf' ∧ g_prefill_done g + pf_chunk pf' ≤ length (g_prefix g)) →
  wlp (ok ← decode_batch cfg b;
       if negb ok then active ← decode_failed cfg active; mret (Stepped_to active true)
       else
         active ← post_decodes cfg dl active;
         active ← (match pf with
                   | Some pf => at_index (pf_index pf) (post_prefill cfg pf) active
                   | None => mret active
                   end);
         mret (Stepped_to (live active) false))
    (λ r, match r with Blocked => Forall (λ g, paused g = true) active | Stepped_to active' _ => works active' < works active end).
Proof.
  intros Hd HD Hne Hin Hpf. wlp. apply wlp_any. intros [|]; cbn [negb]; wlp.
  - eapply wlp_mono; [apply post_decodes_works; [done|]|].
    + intros i Hi. destruct (Hin i Hi) as (g & Hg & [Hh _]%paused_false & _). exists g. split_and!; [done| |done].
      by apply (proj1 (Forall_lookup _ _) Hd i).
    + intros active1 [Hw Hsame]. wlp. destruct pf as [pf|].
      * destruct (Hpf pf eq_refl) as (g & Hg & [Hh _]%paused_false & Hpfl & Hpos & Hle).
        assert (Hni : pf_index pf ∉ dl.*1).
        { intros Hi. destruct (Hin _ Hi) as (g' & Hg' & _ & Hnp). congruence. }
        eapply wlp_mono; [apply (at_index_works (pf_index pf) _ active1 g); [by rewrite Hsame|]|].
        -- apply post_prefill_less; try done. by apply (proj1 (Forall_lookup _ _) Hd (pf_index pf)).
        -- intros active2 [Hw2 _]. wlp. rewrite works_live. lia.
      * wlp. rewrite works_live. destruct dl; [tauto|]. simpl in Hw. lia.
  - eapply wlp_mono; [apply decode_failed_works; [done|]|intros active' Hw; by wlp].
    assert (∃ i g, active !! i = Some g ∧ paused g = false) as (i & g & Hg & [Hh _]%paused_false).
    { destruct dl as [|[i index] dl].
      - destruct pf as [pf|]; [|tauto]. destruct (Hpf pf eq_refl) as (g & Hg & Hp & _). eauto.
      - destruct (Hin i ltac:(simpl; set_solver)) as (g & Hg & Hp & _). eauto. }
    exists g. split; [by eapply list_elem_of_lookup_2|done].
Qed.

(** A step takes work away, unless every sequence waits for its client. *)
Lemma plain_step_works active :
  NoDup (g_seq <$> active) → Forall steady active →
  wlp (plain_step cfg active)
    (λ r, match r with
          | Blocked => Forall (λ g, paused g = true) active
          | Stepped_to active' _ => works active' < works active
          end).
Proof.
  intros Hn Hs. unfold plain_step.
  assert (Hd : Forall (λ g, g_done g = false) active) by (eapply Forall_impl; [exact Hs|]; by intros g []).
  pose proof (build_decodes_spec cfg active 0 [] [] Hn) as Hdec.
  destruct (build_decodes cfg 0 active [] []) as [i|[b ds]] eqn:Eb.
  { destruct Hdec as (k & g & -> & Hi & Hpa). eapply failed_push_works; try done. by apply (proj1 (Forall_lookup _ _) Hd k). }
  destruct Hdec as (bs & dl & -> & -> & HD). simpl in *.
  pose proof (build_prefill_spec cfg active 0 bs) as Hpre.
  destruct (build_prefill cfg 0 active bs) as [i|[b pf]] eqn:Epf.
  { destruct Hpre as (k & g & -> & Hi & Hpa). eapply failed_push_works; try done. by apply (proj1 (Forall_lookup _ _) Hd k). }
  destruct (decide (dl = [] ∧ pf = None)) as [[-> ->]|Hne].
  { wlp. by eapply nothing_to_step. }
  assert (Hstep := stepped_works active dl pf b Hd (do_nodup _ _ _ _ _ HD)).
  assert (Hin : ∀ i, i ∈ dl.*1 → ∃ g, active !! i = Some g ∧ paused g = false ∧ prefilling g = false).
  { intros i ([k index] & -> & Hin)%list_elem_of_fmap.
    destruct (do_in _ _ _ _ _ HD _ _ Hin) as (k' & g & p & -> & Hk & (Hp1 & Hp2 & _) & _). by exists g. }
  destruct dl as [|d dl], pf as [pf|]; try tauto; (apply Hstep; [by left + by right|done|]); [..|done];
    intros pf' [= <-]; destruct Hpre as [(k & g & bs2 & Hidx & Hk & Hpa & Hpfl & _ & _ & Hle & Hpos & _)]; rewrite Hidx; by exists g.
Qed.
(** ** The speculative round *)

(** The same sequence further on, with no piece held back. *)
Definition onward (g g' : ActiveGen) : Prop :=
  g_held g' = [] ∧ g_done g' = g_done g ∧ g_fix g' = g_fix g ∧ g_prefill_done g' = g_prefill_done g
  ∧ g_remaining g' ≤ g_remaining g.

Lemma onward_refl g : g_held g = [] → onward g g.
Proof. intros; by split_and!. Qed.
Lemma onward_trans g g1 g2 : onward g g1 → onward g1 g2 → onward g g2.
Proof. intros (? & ? & ? & ? & ?) (? & ? & ? & ? & ?). split_and!; [done|congruence..|lia]. Qed.
Lemma onward_work g g' : onward g g' → work g' ≤ work g.
Proof. intros (_ & H1 & H2 & H3 & H4). unfold work, g_prefix. rewrite H1, H2, H3. destruct (g_done g); lia. Qed.
Lemma onward_same g g' : g_held g' = [] → same_work g g' → onward g g'.
Proof. intros Hh (? & ? & ? & ?). split_and!; [done..|lia]. Qed.

Lemma spec_walk_live indexes drafts g :
  g_held g = [] → wlp (spec_walk indexes drafts g) (λ '(g', _, _), onward g g').
Proof.
  revert indexes g. induction drafts as [|d drafts IH]; intros indexes g Hh; cbn [spec_walk]; [wlp; by apply onward_refl|].
  unfold sample_ith. wlp. destruct (sample_row (g_chain g) _) as [t c]. wlp.
  assert (Hc : onward g (set_chain c g)) by (by split_and!). destruct (t =? d)%Z; [|by wlp].
  destruct (token_to_piece t); [|by wlp]. wlp. eapply wlp_mono; [by apply (IH (tail indexes) (set_chain c g))|].
  intros [[g' cs] w] Hg'. wlp. eapply onward_trans; [exact Hc|exact Hg'].
Qed.

Lemma emit_drafts_live cs g kept : g_held g = [] → wlp (emit_drafts cs g kept) (λ '(g', _, _), onward g g').
Proof.
  revert g kept. induction cs as [|[t piece] cs IH]; intros g kept Hh; cbn [emit_drafts]; [wlp; by apply onward_refl|].
  apply wlp_bind, wlp_dec. intros m Hm. destruct (scan_admit _ piece) as [[] sc]; [|wlp; split_and!; simpl; done || lia].
  set (g1 := set_scan sc _). assert (H1 : onward g g1) by (split_and!; simpl; done || lia). wlp.
  eapply wlp_mono; [by apply deliver_piece_live|]. intros g2 [Hh2 Hs2].
  assert (H2 : onward g g2) by (by eapply onward_trans, onward_same).
  destruct (_ =? 0); [by wlp|]. eapply wlp_mono; [by apply IH|]. intros [[g3 k] fin] H3. by eapply onward_trans.
Qed.

Lemma emit_pending_live p g : g_held g = [] → wlp (emit_pending p g) (λ '(g', _), onward g g').
Proof.
  intros Hh. destruct p as [t piece|t a]; cbn [emit_pending]; [|wlp; by apply onward_refl].
  destruct (scan_admit _ piece) as [[] sc]; [|wlp; by split_and!]. wlp.
  eapply wlp_mono; [by apply (deliver_piece_live (set_scan sc g))|]. intros g' [Hh' Hs']. wlp. by apply onward_same.
Qed.

(** A round takes work away, or leaves a sequence that can fail at once. *)
Definition round_less (g : ActiveGen) (r : ActiveGen * DraftCtx * bool) : Prop :=
  let '(g', _, bad) := r in if (bad : bool) then g_held g' = [] else less g g'.

Lemma settle_round_less d step p cs next g :
  g_done g = false → g_held g = [] → wlp (settle_round cfg d step p cs next g) (round_less g).
Proof.
  intros Hd Hh. unfold settle_round. wlp. apply wlp_any. intros [|]; cbn [negb]; [|by wlp]. wlp.
  apply wlp_dec. intros m Hm. set (g1 := set_remaining m _).
  assert (Hlt : work g1 < work g) by (unfold work, g1, g_prefix; simpl; rewrite Hd, Hm; lia). wlp.
  eapply wlp_mono; [by apply (emit_pending_live p g1)|]. intros [g2 fin] H2. wlp.
  apply (wlp_mono _ (λ '(g', _, _), onward g2 g')).
  { destruct fin; [wlp; by apply onward_refl, H2|]. apply emit_drafts_live, H2. }
  intros [[g3 kept] fin'] H3. wlp. apply wlp_any. intros [|]; cbn [negb]; [|wlp; apply H3]. wlp. apply wlp_any. intros d'.
  set (g4 := if kept <? _ then _ else g3). assert (H4 : onward g3 g4) by (destruct H3 as [Hh3 _]; unfold g4; destruct (_ <? _); by split_and!).
  assert (H14 : onward g1 g4) by (eapply onward_trans; [exact H2|]; by eapply onward_trans).
  pose proof (onward_work _ _ H14) as Hw. destruct H4 as [Hh4 _]. destruct fin' as [k|]; wlp.
  - eapply wlp_mono; [by apply finish_or_defer_live|]. intros g5 H5. wlp. by apply done_less.
  - eapply wlp_mono; [by apply next_token_live|]. intros g5 H5. wlp. eapply done_or_same_less; [done| |exact H5]. lia.
Qed.

Lemma process_spec_step_less d step g :
  g_done g = false → g_held g = [] → wlp (process_spec_step cfg d step g) (round_less g).
Proof.
  intros Hd Hh. unfold process_spec_step. wlp.
  eapply wlp_mono; [by apply (spec_walk_live _ _ (set_pending None g))|]. intros [[g1 cs] w] H1.
  set (g2 := set_accepted _ _). assert (H2 : onward g g2) by (destruct H1 as (? & ? & ? & ? & ?); by split_and!).
  assert (Hgo : ∀ g3 t, onward g g3 → wlp (settle_round cfg d step a cs t g3) (round_less g)).
  { intros g3 t H3. pose proof (onward_work _ _ H3) as Hw. destruct H3 as (Hh3 & Hd3 & _).
    eapply wlp_mono; [apply settle_round_less; [congruence|done]|]. intros [[g' d'] []]; simpl; [done|]. unfold less. lia. }
  destruct w as [t| |].
  - by apply Hgo.
  - unfold sample_ith. wlp. destruct (sample_row _ _) as [t c]. wlp. apply Hgo. eapply onward_trans; [exact H2|]. split_and!; [apply H2|done..].
  - wlp. eapply wlp_mono; [apply fail_seq_done, H2|]. intros g' Hg'. wlp. by apply done_less.
Qed.

(** A round takes work away, or stands speculation down for the phase. *)
Lemma spec_round_works g h :
  h_active h = [g] → g_done g = false → paused g = false →
  wlp (spec_round cfg g h)
    (λ h', h_queue h' = h_queue h ∧ h_ctrl h' = h_ctrl h ∧ h_inbox h' = h_inbox h
           ∧ (works (h_active h') < works (h_active h) ∧ (h_spec_disabled h = true → h_spec_disabled h' = true)
              ∨ h_active h' = h_active h ∧ h_spec_disabled h' = true)).
Proof.
  intros Ha Hd [Hh _]%paused_false. unfold spec_round. rewrite Ha. wlp. apply wlp_any. intros [[[d b] step]|]; wlp; [|simpl; tauto].
  apply wlp_any. intros [|]; cbn [negb]; wlp.
  - eapply wlp_mono; [by apply process_spec_step_less|]. intros [[g1 d1] bad] H1. wlp.
    apply (wlp_mono _ (less g)).
    { destruct bad; [|by wlp]. destruct (g_done g1) eqn:E1; [wlp; by apply done_less|].
      eapply wlp_mono; [by apply fail_seq_done|]. intros g' Hg'. by apply done_less. }
    intros g2 H2. wlp. simpl. split_and!; try done. left. rewrite works_live. unfold works, less in *. simpl.
    split; [lia|]. by intros ->.
  - eapply wlp_mono; [apply (decode_failed_works [g]); [by constructor|exists g; set_solver]|]. intros active' Hw. wlp. simpl. tauto.
Qed.
End live.
