(* ===== verification/GenDrain.v ===== *)
(** * The engine host: every accepted request comes to an end

    Every iteration of a loop with responsive clients takes work away, so the
    loop drains: the queue empties, every sequence ends, and every submission
    has its outcome reported. *)

From Stdlib Require Import ZArith Lia.
From stdpp Require Import base list strings option gmap.
From S2P Require Import Prelude Float StrUtil StopScan Engine GenOps GenLoop GenStep GenRef GenInv GenOpsOk GenWorld GenSweep GenPump GenAdmit GenDecode GenPost GenPlain GenSpec GenToy GenServe GenLive.

Open Scope nat_scope.

Section drain.
Context {E : Engine} {W : Env} {R : Responsive W}.
Variable cfg : HostCfg.

(** ** Sweeps *)
Lemma drain_held_live held g :
  wlp (drain_held held g) (λ g', g_held g' = [] ∧ g_terminal g' = g_terminal g ∧ same_work g g').
Proof.
  revert g. induction held as [|piece held IH]; intros g; cbn [drain_held]; [wlp; by split_and!|].
  wlp. apply try_send_ok. eapply wlp_mono; [apply IH|]. done.
Qed.

(** The sweep ends a sequence or leaves it ready to be stepped. *)
Lemma sweep_held_live g : wlp (sweep_held cfg g) (λ g', g_done g' = true ∨ paused g' = false ∧ same_work g g').
Proof.
  unfold sweep_held. wlp. eapply wlp_mono; [apply drain_held_live|]. intros g1 (Hh & Ht & Hs). rewrite Hh.
  destruct (g_done g1) eqn:Ed; [wlp; by left|]. destruct (g_terminal g1) as [[k|e]|] eqn:Et.
  - eapply wlp_mono; [apply finish_seq_done|]. by left.
  - eapply wlp_mono; [by apply fail_seq_done|]. by left.
  - wlp. right. split; [|done]. unfold paused. by rewrite Hh, Et.
Qed.

Lemma sweep_all_live l :
  wlp (each (sweep_held cfg) l) (λ l', works (live l') ≤ works l ∧ Forall (λ g, paused g = false) (live l')).
Proof.
  induction l as [|g l IH]; cbn [each]; [by wlp|]. wlp. eapply wlp_mono; [apply sweep_held_live|]. intros g' Hg'. wlp.
  eapply wlp_mono; [exact IH|]. intros l' [Hw Hp]. wlp. rewrite live_cons. unfold works in *. simpl.
  destruct Hg' as [Hd|[Hpa Hs]]; [rewrite Hd; split; [lia|done]|]. pose proof (same_work_eq _ _ Hs) as Hwk.
  destruct (g_done g'); [split; [lia|done]|]. simpl. split; [lia|by constructor].
Qed.

Lemma sweep_closed_live l : wlp (each sweep_closed l) (λ l', l' = l).
Proof.
  induction l as [|g l IH]; cbn [each]; [by wlp|]. wlp. apply (wlp_mono _ (λ g', g' = g)).
  { unfold sweep_closed, is_closed. destruct (g_done g); [by wlp|]. wlp. rewrite stays. by wlp. }
  intros g' ->. wlp. eapply wlp_mono; [exact IH|]. intros l' ->. by wlp.
Qed.

Lemma sweep_queue_live queue : wlp (sweep_queue queue) (λ queue', queue' = queue).
Proof.
  induction queue as [|p queue IH]; cbn [sweep_queue]; [by wlp|]. unfold is_closed. wlp. rewrite stays. wlp.
  eapply wlp_mono; [exact IH|]. intros queue' ->. by wlp.
Qed.

(** ** Admission *)
Definition queue_work (queue : list PreparedGen) : nat := sum_list_with queued_work queue.

Lemma queue_work_cons p queue : queue_work (p :: queue) = queued_work p + queue_work queue.
Proof. done. Qed.
Lemma works_one g : works [g] = work g.
Proof. unfold works. simpl. lia. Qed.

Lemma admit_work p sampler chain s reused uid : S (work (admit_gen p sampler chain s reused uid)) ≤ queued_work p.
Proof. unfold work, queued_work, admit_gen, g_prefix. simpl. rewrite length_app. lia. Qed.

(** A request is admitted or dropped off the queue's head, in order. *)
Lemma admission_works queue active uid :
  wlp (admission cfg queue active uid)
    (λ '(active', queue', _), queue' `suffix_of` queue
       ∧ (queue' = queue ∧ active' = active ∨ works active' + queue_work queue' < works active + queue_work queue)).
Proof.
  revert active uid. induction queue as [|p queue IH]; intros active uid; cbn [admission]; [wlp; by split; [|left]|].
  destruct (_ <=? _); [wlp; by split; [|left]|]. wlp. do 2 (apply wlp_any; intros ?; wlp). apply wlp_any. intros [|]; cbn [negb]; [|wlp; by split; [|left]].
  destruct (sampler_new _) as [chain|]; wlp.
  - apply wlp_any. intros [s reused]. eapply wlp_mono; [apply IH|]. intros [[active' queue'] uid'] [Hsuf Hw].
    split; [by apply suffix_cons_r|right]. rewrite works_app, works_one in Hw. rewrite queue_work_cons.
    pose proof (admit_work p (sampler_of (jb_params (pg_job p))) chain s reused uid) as Hadm.
    destruct Hw as [[-> ->]|Hw]; [rewrite works_app, works_one|]; lia.
  - do 2 (apply wlp_any; intros ?; wlp). eapply wlp_mono; [apply IH|]. intros [[active' queue'] uid'] [Hsuf Hw].
    split; [by apply suffix_cons_r|right]. rewrite queue_work_cons. assert (0 < queued_work p) by (unfold queued_work; lia).
    destruct Hw as [[-> ->]|Hw]; lia.
Qed.

(** An empty cache leaves room for any job within the context. *)
Lemma fits_at used budget reuse cx keep :
  reuse_seq reuse cx = Some (keep, cx) →
  fits cfg used budget reuse cx
  = Some (used + budget + sum_list_with (λ r, length (rt_history r)) (filter (λ r, is_slot keep r = false) (cx_retained cx)) <=? hc_n_ctx cfg, cx).
Proof. intros Hk. unfold fits, mbind, M_bind. rewrite Hk. done. Qed.

Lemma reuse_seq_keeps reuse cx : wp (reuse_seq reuse) (λ _ cx', cx' = cx) cx ∨ reuse_seq reuse cx = None.
Proof.
  unfold reuse_seq. destruct reuse as [[idx lcp]|]; [|left; by wp]. destruct (cx_retained cx !! idx) as [r|] eqn:Er.
  - left. wp. by eapply wp_unwrap.
  - right. unfold mbind, M_bind, get. by rewrite Er.
Qed.

Lemma evict_fits fuel used budget reuse cx reuse' cx' :
  used + budget ≤ hc_n_ctx cfg → evict cfg fuel used budget reuse cx = Some (reuse', cx') →
  fits cfg used budget reuse' cx' = Some (true, cx').
Proof.
  intros Hle. revert reuse cx. induction fuel as [|fuel IH]; intros reuse cx Hr; [done|]. cbn [evict] in Hr.
  unfold mbind at 1, M_bind at 1 in Hr. destruct (reuse_seq_keeps reuse cx) as [Hk|Hk].
  - unfold wp in Hk. destruct (reuse_seq reuse cx) as [[keep cx1]|] eqn:Ek; [|done]. subst cx1.
    pose proof (fits_at used budget reuse cx keep Ek) as Hf. rewrite Hf in Hr.
    destruct (_ <=? _) eqn:El; [injection Hr as <- <-; by rewrite Hf|]. unfold mbind at 1, M_bind at 1 in Hr. rewrite Ek in Hr.
    unfold mbind at 1, M_bind at 1, get at 1 in Hr. destruct (position _ _) as [v|] eqn:Ep.
    + unfold mbind at 1, M_bind at 1 in Hr. destruct (vec_remove v _) as [[victim rt]|]; [|done]. by apply IH in Hr.
    + injection Hr as <- <-. apply Nat.leb_gt in El.
      assert (filter (λ r, is_slot keep r = false) (cx_retained cx) = []) as Hnil; [|rewrite Hnil in El; simpl in El; lia].
      unfold position in Ep. destruct (list_find _ _) as [|] eqn:Efind; [done|]. apply list_find_None in Efind.
      clear -Efind. induction Efind as [|r l Hr _ IH]; [done|]. rewrite filter_cons_False; [done|]. by destruct (is_slot keep r).
  - unfold fits in Hr. unfold mbind at 1, M_bind at 1 in Hr. by rewrite Hk in Hr.
Qed.

(** With no sequence running, the head of the queue leaves it. *)
Lemma admission_head p queue uid :
  0 < hc_n_seq_max cfg → pg_budget p ≤ hc_n_ctx cfg →
  wlp (admission cfg (p :: queue) [] uid) (λ '(_, queue', _), queue' `suffix_of` queue).
Proof.
  intros Hseq Hb cx a cx' Hr. cbn [admission length] in Hr.
  destruct (_ <=? 0) eqn:El; [apply Nat.leb_le in El; lia|]. unfold mbind at 1, M_bind at 1 in Hr.
  destruct (choose_reuse cfg p cx) as [[reuse cx1]|]; [|done]. unfold mbind at 1, M_bind at 1, get at 1 in Hr.
  unfold mbind at 1, M_bind at 1 in Hr.
  destruct (evict cfg _ _ _ reuse cx1) as [[reuse' cx2]|] eqn:Ee; [|done].
  apply evict_fits in Ee; [|simpl; lia]. unfold mbind at 1, M_bind at 1 in Hr. rewrite Ee in Hr. cbn [negb] in Hr.
  refine ((_ : wlp _ (λ '(_, queue', _), queue' `suffix_of` queue)) cx2 a cx' Hr).
  destruct (sampler_new _) as [chain|]; wlp.
  - apply wlp_any. intros [s reused]. eapply wlp_mono; [apply admission_works|]. by intros [[? ?] ?] [? _].
  - do 2 (apply wlp_any; intros ?; wlp). eapply wlp_mono; [apply admission_works|]. by intros [[? ?] ?] [? _].
Qed.

(** ** The iteration *)

(** No message waits, and every queued request fits the context. *)
Definition quiet_host (h : Host) : Prop :=
  h_ctrl h = None ∧ h_inbox h = [] ∧ Forall (λ p, pg_budget p ≤ hc_n_ctx cfg) (h_queue h).

Definition spec_left (h : Host) : nat := if h_spec_disabled h then 0 else 1.
Definition total (h : Host) : nat := works (h_active h) + queue_work (h_queue h) + spec_left h.

Definition unpaused (l : list ActiveGen) : Prop := Forall (λ g, paused g = false) l.

Lemma suffix_Forall {A} (P : A → Prop) l k : l `suffix_of` k → Forall P k → Forall P l.
Proof. intros [z ->]. rewrite Forall_app. tauto. Qed.

(** Sweeps and admission leave less work, or sequences that can be stepped,
    or nothing to do. *)
Lemma sweep_phase_drains h :
  0 < hc_n_seq_max cfg → quiet_host h → Forall (λ g, g_done g = false) (h_active h) → unpaused (h_active h) →
  wlp (sweep_phase cfg h)
    (λ h', quiet_host h' ∧ spec_left h' = spec_left h
           ∧ (total h' < total h
              ∨ total h' = total h ∧ unpaused (h_active h') ∧ (h_active h' = [] → h_queue h' = []))).
Proof.
  intros Hseq (Hc & Hi & Hb) Hd Hp. unfold sweep_phase. rewrite Hc. wlp.
  eapply wlp_mono; [apply sweep_closed_live|]. intros ? ->. rewrite (live_id _ Hd). wlp.
  eapply wlp_mono; [apply sweep_queue_live|]. intros ? ->. wlp.
  assert (Hhead : wlp (admission cfg (h_queue h) (h_active h) (h_next_uid h))
    (λ '(active', queue', _), h_active h = [] → h_queue h ≠ [] → queue' ≠ h_queue h)).
  { destruct (h_active h) as [|g l] eqn:Ea; [|by apply wlp_any; intros [[? ?] ?]].
    destruct (h_queue h) as [|p queue] eqn:Eq; [by apply wlp_any; intros [[? ?] ?]|].
    eapply wlp_mono; [apply admission_head; [done|by inversion Hb]|]. intros [[? queue'] ?] Hs _ _ ->.
    apply suffix_length in Hs. simpl in Hs. lia. }
  intros cx [[active' queue'] uid'] cx' Ea.
  pose proof (admission_works _ _ _ _ _ _ Ea) as [Hs Hw]. pose proof (Hhead _ _ _ Ea) as Hh. simpl in Hh. wlp.
  split; [split_and!; [done|done|by eapply suffix_Forall]|]. split; [done|]. unfold total, spec_left. simpl.
  destruct Hw as [[-> ->]|Hw]; [right|left; destruct (h_spec_disabled h); lia].
  split_and!; [done|done|]. intros Ha. destruct (h_queue h); [done|]. by destruct (Hh Ha).
Qed.

(** A step leaves less work, unless every sequence waits for its client. *)
Lemma step_phase_drains h :
  hc_batch_error cfg = false → quiet_host h → NoDup (g_seq <$> h_active h) → Forall steady (h_active h) →
  wlp (step_phase cfg (MkArrivals [] [] false) h)
    (λ r, match r with
          | Return _ _ => False
          | Continue h' => quiet_host h' ∧ (total h' < total h
                             ∨ total h' = total h ∧ h_active h' = h_active h ∧ h_queue h' = h_queue h
                               ∧ Forall (λ g, paused g = true) (h_active h))
          end).
Proof.
  intros He (Hc & Hi & Hb) Hn Hs. unfold step_phase. rewrite He, Hc, Hi. destruct (spec_eligible cfg h) as [g|] eqn:Es.
  - assert (Hoff : h_spec_disabled h = false).
    { unfold spec_eligible in Es. destruct (h_active h) as [|? [|]]; [done| |done]. by destruct (h_spec_disabled h). }
    apply spec_eligible_spec in Es as (Ha & _ & Hp & _). rewrite Ha in Hs. inversion Hs as [|? ? [Hd _] _]. wlp.
    eapply wlp_mono; [by apply spec_round_works|]. intros h' (Hq & Hc' & Hi' & Hw). wlp.
    rewrite <- Hc' in Hc. rewrite <- Hi' in Hi. unfold quiet_host, total, spec_left in *. simpl. rewrite Hq, Hc, Hi, Hoff in *.
    split; [done|left]. destruct Hw as [[Hw _]|[-> ->]]; [destruct (h_spec_disabled h')|]; lia.
  - wlp. eapply wlp_mono; [by apply plain_step_works|]. intros [|active' clear] Hw.
    + unfold blocked_wait. rewrite Hc, Hi. simpl. wlp. split; [by split_and!|]. right. done.
    + wlp. split; [by split_and!|left]. unfold total, spec_left. simpl. destruct (h_spec_disabled h); lia.
Qed.
End drain.

(** ** The loop *)
Section loop.
Context {E : Engine} {W : Env} {R : Responsive W} {EL : EngineLaws E} {L : EnvLaws W}.
Variable jobs : nat → Job.
Hypothesis zeroed_text : ∀ c, is_eog (sample_zeroed c).1 = false.

Definition at_rest (h : Host) : Prop := h_active h = [] ∧ h_queue h = [].

Lemma inv_steady cfg sub active queue inbox cx :
  Inv jobs cfg (good jobs cfg) sub active queue inbox cx → Forall (λ g, g_done g = false) active → Forall steady active.
Proof.
  intros HI Hl. apply Forall_lookup. intros i g Hi. assert (Hd : g_done g = false) by (by apply (proj1 (Forall_lookup _ _) Hl i)).
  destruct (i_gens _ _ _ _ _ _ _ _ HI i g Hi Hd) as (_ & (_ & _ & Hp & _) & _). done.
Qed.

(** An iteration without messages leaves less to do, or nothing. *)
Lemma serve_iter_drains cfg sub h cx :
  cfg_ok cfg → hc_batch_error cfg = false → 0 < hc_n_seq_max cfg → quiet_host cfg h → host_ok jobs cfg sub [] h cx →
  wp (serve_iter cfg (MkArrivals [] [] false) h)
    (λ r cx', match r with
              | Return _ _ => False
              | Continue h' => quiet_host cfg h' ∧ host_ok jobs cfg sub [] h' cx' ∧ (total h' < total h ∨ at_rest h')
              end) cx.
Proof.
  intros Hcf He Hseq (Hc & Hi & Hb) [HI Hl]. unfold serve_iter. wp.
  eapply wp_mono; [by apply (retry_outbox_spec jobs cfg)|]. intros [] cx1 [HI1 _]. wp.
  eapply wp_mono; [apply wp_and; [exact (each_spec jobs cfg (sweep_held cfg) sub _ _ (h_active h) [] cx1 (sweep_held_keeps jobs cfg) Hl HI1)|apply sweep_all_live]|].
  intros active cx2 [[HI2 _] [Hw Hp]]. simpl in HI2. apply inv_live_good in HI2. wp.
  unfold pump_phase. simpl. rewrite Hc, Hi. simpl. wp. set (h1 := set_rx None [] _).
  assert (H1 : host_ok jobs cfg sub [] h1 cx2) by (rewrite Hi in HI2; split; [exact HI2|apply live_all]).
  eapply wp_mono; [apply wp_and; [by apply (sweep_phase_spec jobs cfg sub [])|apply sweep_phase_drains; [done|by split_and!|apply live_all|done]]|].
  intros h2 cx3 (([HI3 Hl3] & Hc2 & Hi2) & Hq2 & _ & Ht2). rewrite Hc2. simpl.
  eapply wp_mono; [apply wp_and; [apply (step_phase_spec jobs cfg zeroed_text Hcf sub [] (MkArrivals [] [] false)); by split|]|].
  - apply step_phase_drains; [done|done| |by eapply inv_steady]. by eapply seqs_nodup.
  - intros [h'|] cx'; [|by intros [_ []]]. intros (Hok & Hq & Ht). split_and!; [done|done|].
    assert (total h1 ≤ total h) by (unfold total, spec_left; simpl; lia).
    destruct Ht2 as [Ht2|(Ht2 & Hp2 & Hrest)]; [left; destruct Ht as [?|[? _]]; lia|].
    destruct Ht as [?|(_ & Ha & Hqu & Hpa)]; [left; lia|right].
    assert (h_active h2 = []) as Hnil.
    { destruct (h_active h2) as [|g l]; [done|]. inversion Hpa; inversion Hp2; congruence. }
    split; [by rewrite Ha|rewrite Hqu; by apply Hrest].
Qed.

End loop.

(** ** Witness *)
#[local] Instance toy_engine : Engine := toy 7 0.
#[local] Instance toy_env : Env := calm.
#[local] Instance toy_engine_laws : EngineLaws toy_engine := toy_laws 0.
#[local] Instance toy_env_laws : EnvLaws toy_env := calm_laws.
#[local] Instance toy_responsive : Responsive toy_env.
Proof. done. Qed.

