(* ===== verification/Cluster.v ===== *)
(** * The cluster state and the epoch protocol

    Models [crates/onebraind/src/cluster.rs]: the state a daemon keeps about
    plans and epochs, the worker's answer to a proposal, the fencing of RPC
    streams, and what peer events do.  Locks around single fields make every
    method one atomic step; an RPC stream's two updates and the debounced
    retirement of the shard record are separate steps, as they run on
    different tasks.  Join handles, notifications, range fetching and the
    byte pumps are left out. *)

From Stdlib Require Import ZArith Lia.
From stdpp Require Import base list strings option gmap.
From S2P Require Import Prelude Float Proto.

Open Scope Z_scope.

(** ** The shared state of a daemon *)
Record ActivePlanView := MkView { av_role : string; av_plan : Plan }.

Record AckResult := MkAck { ack_ready : bool; ack_detail : option string }.

Record LoadedSource := MkLoadedSource {
  ls_reference : string; ls_name : string; ls_paths : list string; ls_size_bytes : Z; ls_draft_reference : option string }.

(** A head bridge is named by the worker it leads to. *)
Record ClusterState := MkCluster {
  cs_epoch_counter : Z;
  cs_active : option ActivePlanView;
  cs_acks : gmap (string * Z) AckResult;
  cs_head_bridges : list string;
  cs_failed : gmap Z (gset string);
  cs_loaded_source : option LoadedSource;
  cs_rejoin_requested : bool;
  cs_worker_shard : option (Z * string) }.

Definition cluster_new : ClusterState := MkCluster 0 None ∅ [] ∅ None false None.

Definition next_epoch (s : ClusterState) : Z * ClusterState :=
  let e := u64_add (cs_epoch_counter s) 1 in
  (e, MkCluster e (cs_active s) (cs_acks s) (cs_head_bridges s) (cs_failed s) (cs_loaded_source s)
        (cs_rejoin_requested s) (cs_worker_shard s)).

Definition set_active (v : option ActivePlanView) (s : ClusterState) : ClusterState :=
  MkCluster (cs_epoch_counter s) v (cs_acks s) (cs_head_bridges s) (cs_failed s) (cs_loaded_source s)
    (cs_rejoin_requested s) (cs_worker_shard s).

Definition record_ack (peer : string) (epoch : Z) (ready : bool) (detail : option string) (s : ClusterState) : ClusterState :=
  MkCluster (cs_epoch_counter s) (cs_active s) (<[(peer, epoch) := MkAck ready detail]> (cs_acks s)) (cs_head_bridges s)
    (cs_failed s) (cs_loaded_source s) (cs_rejoin_requested s) (cs_worker_shard s).

Definition replace_head_bridges (tasks : list string) (s : ClusterState) : ClusterState :=
  MkCluster (cs_epoch_counter s) (cs_active s) (cs_acks s) tasks (cs_failed s) (cs_loaded_source s)
    (cs_rejoin_requested s) (cs_worker_shard s).

Definition teardown_head_bridges : ClusterState → ClusterState := replace_head_bridges [].

Definition set_failed (v : gmap Z (gset string)) (s : ClusterState) : ClusterState :=
  MkCluster (cs_epoch_counter s) (cs_active s) (cs_acks s) (cs_head_bridges s) v (cs_loaded_source s)
    (cs_rejoin_requested s) (cs_worker_shard s).

(** The flag reports new information. *)
Definition mark_epoch_failed (epoch : Z) (lost_peer : option string) (s : ClusterState) : bool * ClusterState :=
  match cs_failed s !! epoch with
  | None => (true, set_failed (<[epoch := match lost_peer with Some p => {[p]} | None => ∅ end]> (cs_failed s)) s)
  | Some lost =>
      match lost_peer with
      | Some p => (negb (bool_decide (p ∈ lost)), set_failed (<[epoch := {[p]} ∪ lost]> (cs_failed s)) s)
      | None => (false, s)
      end
  end.

Definition is_epoch_failed (epoch : Z) (s : ClusterState) : bool :=
  match cs_failed s !! epoch with Some _ => true | None => false end.

Definition epoch_lost_peers (epoch : Z) (s : ClusterState) : gset string := default ∅ (cs_failed s !! epoch).

Definition set_loaded (v : option LoadedSource) (s : ClusterState) : ClusterState :=
  MkCluster (cs_epoch_counter s) (cs_active s) (cs_acks s) (cs_head_bridges s) (cs_failed s) v
    (cs_rejoin_requested s) (cs_worker_shard s).
Definition note_loaded (source : LoadedSource) : ClusterState → ClusterState := set_loaded (Some source).
Definition clear_loaded : ClusterState → ClusterState := set_loaded None.

Definition set_rejoin (v : bool) (s : ClusterState) : ClusterState :=
  MkCluster (cs_epoch_counter s) (cs_active s) (cs_acks s) (cs_head_bridges s) (cs_failed s) (cs_loaded_source s)
    v (cs_worker_shard s).
Definition request_rejoin_replan : ClusterState → ClusterState := set_rejoin true.
Definition defer_rejoin_request : ClusterState → ClusterState := set_rejoin true.
Definition take_rejoin_request (s : ClusterState) : bool * ClusterState := (cs_rejoin_requested s, set_rejoin false s).

Definition set_worker_shard (v : option (Z * string)) (s : ClusterState) : ClusterState :=
  MkCluster (cs_epoch_counter s) (cs_active s) (cs_acks s) (cs_head_bridges s) (cs_failed s) (cs_loaded_source s)
    (cs_rejoin_requested s) v.

Definition clear_worker_shard_for (epoch : Z) (s : ClusterState) : ClusterState :=
  match cs_worker_shard s with
  | Some (e, _) => if e =? epoch then set_worker_shard None s else s
  | None => s
  end.

(** ** Waiting for acknowledgements *)
Inductive AckCheck := AllReady | Nacked (label : string) (detail : option string) | Missing (label : string).

(** One pass over the workers, given as ids with display labels. *)
Fixpoint check_acks (acks : gmap (string * Z) AckResult) (epoch : Z) (workers : list (string * string))
    (missing : option string) : AckCheck :=
  match workers with
  | [] => match missing with None => AllReady | Some label => Missing label end
  | (id, label) :: workers =>
      match acks !! (id, epoch) with
      | Some ack => if ack_ready ack then check_acks acks epoch workers missing else Nacked label (ack_detail ack)
      | None => check_acks acks epoch workers (match missing with Some m => Some m | None => Some label end)
      end
  end.

Inductive AckError := AckRejected (label : string) (detail : option string) | AckTimeout (label : string).

(** The acknowledgements seen at each wake-up; the last is at the deadline. *)
Fixpoint await_acks (epoch : Z) (workers : list (string * string)) (seen : list (gmap (string * Z) AckResult))
    (last : gmap (string * Z) AckResult) : AckError + unit :=
  match seen with
  | [] =>
      match check_acks last epoch workers None with
      | AllReady => inr tt
      | Nacked label detail => inl (AckRejected label detail)
      | Missing label => inl (AckTimeout label)
      end
  | acks :: seen =>
      match check_acks acks epoch workers None with
      | AllReady => inr tt
      | Nacked label detail => inl (AckRejected label detail)
      | Missing _ => await_acks epoch workers seen last
      end
  end.

(** ** The worker *)
Inductive ProposalDecision := Ignore | Reject | Adopt.

Definition decide_proposal (active : option Z) (sender_paired : bool) (proposed : Z) : ProposalDecision :=
  if negb sender_paired then Ignore else
  match active with
  | Some current => if proposed <=? current then Reject else Adopt
  | None => Adopt
  end.

(** An RPC stream offered to the worker. *)
Record RpcStream := MkRpcStream { rs_peer : string; rs_epoch : Z }.

(** [ap_id] is the identity of the plan's stream counter, which outlives it. *)
Record AdoptedPlan := MkAdopted { ap_epoch : Z; ap_head : string; ap_serves : list RpcStream; ap_id : nat }.

(** What a daemon sends: control messages, and requests to its engine host. *)
Inductive Action := SendControl (to : string) (m : Message) | HostServeShard (epoch : Z).

(** A daemon: its shared state, the plan it adopted, the live streams of each
    adoption, and the retirements and acceptances in flight.  [nd_life] counts
    its starts and [nd_history] lists its adoptions, newest first. *)
Record Node := MkNode {
  nd_state : ClusterState;
  nd_adopted : option AdoptedPlan;
  nd_live : gmap nat nat;
  nd_accepting : list nat;
  nd_waiting : list (nat * Z);
  nd_retiring : list Z;
  nd_life : nat;
  nd_history : list (string * Z) }.

Definition node_start (life : nat) : Node := MkNode cluster_new None ∅ [] [] [] life [].

Definition with_state (s : ClusterState) (n : Node) : Node :=
  MkNode s (nd_adopted n) (nd_live n) (nd_accepting n) (nd_waiting n) (nd_retiring n) (nd_life n) (nd_history n).

(** [paired] is the answer of the peer store, [None] when it fails. *)
Definition handle_proposal (paired : option (list string)) (sender : string) (plan : Plan) (n : Node) : Node * list Action :=
  let sender_paired := match paired with Some l => bool_decide (sender ∈ l) | None => false end in
  let epoch := epoch_num (p_epoch plan) in
  match decide_proposal (ap_epoch <$> nd_adopted n) sender_paired epoch with
  | Ignore => (n, [])
  | Reject => (n, [SendControl sender (MPlanAck (p_epoch plan) false (Some "stale plans are fenced"))])
  | Adopt =>
      let s := set_worker_shard (Some (epoch, sender)) (set_active (Some (MkView "worker" plan)) (nd_state n)) in
      let id := length (nd_history n) in
      (MkNode s (Some (MkAdopted epoch sender [] id)) (<[id := 0%nat]> (nd_live n)) (nd_accepting n) (nd_waiting n)
         (nd_retiring n) (nd_life n) ((sender, epoch) :: nd_history n),
       [HostServeShard epoch; SendControl sender (MPlanAck (p_epoch plan) true None)])
  end.

(** Fencing of an RPC stream; [starts] is whether a serve session starts. *)
Definition handle_rpc_stream (starts : bool) (stream : RpcStream) (n : Node) : option Node :=
  match nd_adopted n with
  | None => None
  | Some a =>
      if negb (rs_epoch stream =? ap_epoch a) || negb (String.eqb (rs_peer stream) (ap_head a)) then None
      else if negb starts then None
      else Some (MkNode (set_worker_shard (Some (ap_epoch a, ap_head a)) (nd_state n))
                   (Some (MkAdopted (ap_epoch a) (ap_head a) (ap_serves a ++ [stream]) (ap_id a))) (nd_live n)
                   (nd_accepting n ++ [ap_id a]) (nd_waiting n) (nd_retiring n) (nd_life n) (nd_history n))
  end.

(** The count of an accepted stream goes up. *)
Definition count_stream (id : nat) (n : Node) : Node :=
  MkNode (nd_state n) (nd_adopted n) (<[id := S (default 0%nat (nd_live n !! id))]> (nd_live n)) (nd_accepting n)
    (nd_waiting n) (nd_retiring n) (nd_life n) (nd_history n).

(** A stream of the adoption [id] ends by itself: the last one starts the
    grace period. *)
Definition end_stream (id : nat) (epoch : Z) (n : Node) : Node :=
  let live := default 0%nat (nd_live n !! id) in
  MkNode (nd_state n) (nd_adopted n) (<[id := (live - 1)%nat]> (nd_live n)) (nd_accepting n)
    (if (live =? 1)%nat then nd_waiting n ++ [(id, epoch)] else nd_waiting n) (nd_retiring n) (nd_life n) (nd_history n).

(** After the grace period: without a live stream, the record is retired. *)
Definition grace_over (id : nat) (epoch : Z) (n : Node) : Node :=
  if (default 0%nat (nd_live n !! id) =? 0)%nat
  then MkNode (nd_state n) (nd_adopted n) (nd_live n) (nd_accepting n) (nd_waiting n) (nd_retiring n ++ [epoch])
         (nd_life n) (nd_history n)
  else n.

Definition retire (epoch : Z) (n : Node) : Node := with_state (clear_worker_shard_for epoch (nd_state n)) n.

(** ** Control messages and peer events *)
Definition handle_control (paired : option (list string)) (sender : string) (m : Message) (n : Node) : Node * list Action :=
  match m with
  | MPlanProposal plan => handle_proposal paired sender plan n
  | MPlanAck epoch ready detail => (with_state (record_ack sender (epoch_num epoch) ready detail (nd_state n)) n, [])
  | _ => (n, [])
  end.

Inductive PeerState := Unknown | Reachable | Connected | Suspect | Down | Incompatible | Draining.

(** What the supervisor is told. *)
Inductive Nudge := NudgeEpochFailed (epoch : Z) | NudgePeerRejoined.

Definition handle_peer_event (peer : string) (state : PeerState) (s : ClusterState) : ClusterState * list Nudge :=
  match state with
  | Down | Draining =>
      match cs_active s with
      | None => (s, [])
      | Some a =>
          if negb (String.eqb (av_role a) "head") || bool_decide (p_strategy (av_plan a) = Solo) then (s, []) else
          if negb (existsb (λ x, String.eqb (node_str (a_node x)) peer) (p_assignments (av_plan a))) then (s, []) else
          let epoch := epoch_num (p_epoch (av_plan a)) in
          ((mark_epoch_failed epoch (Some peer) s).2, [NudgeEpochFailed epoch])
      end
  | Connected =>
      let is_head := match cs_active s with Some a => String.eqb (av_role a) "head" | None => false end in
      match cs_loaded_source s with
      | Some _ => if is_head then (request_rejoin_replan s, [NudgePeerRejoined]) else (s, [])
      | None => (s, [])
      end
  | _ => (s, [])
  end.
