(* ===== verification/ClusterNet.v ===== *)
(** * Daemons on a network: what acknowledgements and epochs mean

    Heads stamp plans with their own epoch counters, send proposals and collect
    acknowledgements; workers adopt, fence streams and retire shard records;
    messages are delivered in any order or lost, and daemons restart with an
    empty state.  The mesh authenticates senders. *)

From Stdlib Require Import ZArith Lia Sorted.
From stdpp Require Import base list strings option gmap.
From S2P Require Import Prelude Float Proto Cluster.

Open Scope Z_scope.

(** [nt_log] records every adoption: the worker, its life, the head and the
    epoch. *)
Record Net := MkNet {
  nt_nodes : gmap string Node;
  nt_wire : list (string * string * Message);
  nt_log : list (string * nat * string * Z) }.

Definition with_epoch (e : Z) (p : Plan) : Plan :=
  MkPlan (MkEpoch e) (p_model p) (p_strategy p) (p_assignments p) (p_ctx_len p).

(** The workers of a plan, without its head. *)
Definition plan_workers (own : string) (p : Plan) : list string :=
  filter (λ w, w ≠ own) (node_str ∘ a_node <$> p_assignments p).

Definition to_wire (from : string) (acts : list Action) : list (string * string * Message) :=
  omap (λ a, match a with SendControl to m => Some (from, to, m) | HostServeShard _ => None end) acts.

(** What other parts of a daemon do leaves its counter, its acknowledgements
    and its shard record alone. *)
Definition unrelated (s s' : ClusterState) : Prop :=
  cs_epoch_counter s' = cs_epoch_counter s ∧ cs_acks s' = cs_acks s ∧ cs_worker_shard s' = cs_worker_shard s.

(** The adoptions a step adds. *)
Definition adoptions (w : string) (n n' : Node) : list (string * nat * string * Z) :=
  (λ '(h, e), (w, nd_life n, h, e)) <$> take (length (nd_history n') - length (nd_history n)) (nd_history n').

(** One daemon's own steps. *)
Inductive node_step : Node → Node → Prop :=
  | node_local n s : unrelated (nd_state n) s → node_step n (with_state s n)
  | node_stream n starts stream n' : handle_rpc_stream starts stream n = Some n' → node_step n n'
  | node_count n l1 id l2 :
      nd_accepting n = l1 ++ id :: l2 →
      node_step n (count_stream id (MkNode (nd_state n) (nd_adopted n) (nd_live n) (l1 ++ l2) (nd_waiting n)
                                      (nd_retiring n) (nd_life n) (nd_history n)))
  | node_end n id epoch : node_step n (end_stream id epoch n)
  | node_grace n l1 id epoch l2 :
      nd_waiting n = l1 ++ (id, epoch) :: l2 →
      node_step n (grace_over id epoch (MkNode (nd_state n) (nd_adopted n) (nd_live n) (nd_accepting n) (l1 ++ l2)
                                          (nd_retiring n) (nd_life n) (nd_history n)))
  | node_retire n l1 epoch l2 :
      nd_retiring n = l1 ++ epoch :: l2 →
      node_step n (retire epoch (MkNode (nd_state n) (nd_adopted n) (nd_live n) (nd_accepting n) (nd_waiting n)
                                   (l1 ++ l2) (nd_life n) (nd_history n))).

Inductive net_step : Net → Net → Prop :=
  | net_node nodes wire log i n n' :
      nodes !! i = Some n → node_step n n' → net_step (MkNet nodes wire log) (MkNet (<[i := n']> nodes) wire log)
  (** A head stamps a plan and sends it to its workers; a failed send stops. *)
  | net_propose nodes wire log h n plan k e s :
      nodes !! h = Some n → next_epoch (nd_state n) = (e, s) →
      net_step (MkNet nodes wire log)
        (MkNet (<[h := with_state s n]> nodes)
           (wire ++ ((λ w, (h, w, MPlanProposal (with_epoch e plan))) <$> take k (plan_workers h plan))) log)
  | net_deliver nodes w1 from to m w2 log n paired n' acts :
      nodes !! to = Some n → handle_control paired from m n = (n', acts) →
      net_step (MkNet nodes (w1 ++ (from, to, m) :: w2) log)
        (MkNet (<[to := n']> nodes) (w1 ++ w2 ++ to_wire to acts)
           (log ++ adoptions to n n'))
  | net_lose nodes w1 x w2 log : net_step (MkNet nodes (w1 ++ x :: w2) log) (MkNet nodes (w1 ++ w2) log)
  (** A restart breaks the sessions of a daemon and forgets its state. *)
  | net_restart nodes wire log i n :
      nodes !! i = Some n →
      net_step (MkNet nodes wire log)
        (MkNet (<[i := node_start (S (nd_life n))]> nodes)
           (filter (λ x, x.1.1 ≠ i ∧ x.1.2 ≠ i) wire) log).

Definition net_init (ids : list string) : Net :=
  MkNet (list_to_map ((λ i, (i, node_start 0)) <$> ids)) [] [].

Definition net_reachable (ids : list string) : Net → Prop := rtc net_step (net_init ids).

(** ** A worker's order of epochs *)
Definition newer (a b : string * Z) : Prop := b.2 < a.2.

Record node_ok (n : Node) : Prop := {
  no_sorted : StronglySorted newer (nd_history n);
  no_adopted : match nd_adopted n with
               | None => nd_history n = []
               | Some a => head (nd_history n) = Some (ap_head a, ap_epoch a)
                           ∧ Forall (λ s, rs_peer s = ap_head a ∧ rs_epoch s = ap_epoch a) (ap_serves a)
               end;
  no_shard : ∀ e h, cs_worker_shard (nd_state n) = Some (e, h) →
             ∃ a, nd_adopted n = Some a ∧ ap_epoch a = e ∧ ap_head a = h }.

Lemma node_start_ok life : node_ok (node_start life).
Proof. split; [constructor|done|done]. Qed.

Lemma node_ok_same n n' :
  nd_adopted n' = nd_adopted n → nd_history n' = nd_history n →
  (cs_worker_shard (nd_state n') = cs_worker_shard (nd_state n) ∨ cs_worker_shard (nd_state n') = None) →
  node_ok n → node_ok n'.
Proof.
  intros Ha Hh Hs [N1 N2 N3]. split; rewrite ?Ha, ?Hh; [done|done|]. intros e h He. destruct Hs as [Hs|Hs]; rewrite Hs in He; [by apply N3|done].
Qed.

Lemma node_step_ok n n' : node_step n n' → node_ok n → node_ok n'.
Proof.
  intros Hst. destruct Hst as [n s (_ & _ & Hu)|n starts stream n' Hr|n l1 id l2 Hl|n id epoch|n l1 id epoch l2 Hl|n l1 epoch l2 Hl];
    try (apply node_ok_same; [done|done|left; done]).
  - intros [N1 N2 N3]. unfold handle_rpc_stream in Hr. destruct (nd_adopted n) as [a|] eqn:Ea; [|done].
    destruct (_ || _) eqn:Ef; [done|]. destruct starts; [|done]. injection Hr as <-.
    apply orb_false_iff in Ef as [He%negb_false_iff%Z.eqb_eq Hp%negb_false_iff%String.eqb_eq].
    destruct N2 as [N2 N2']. split; simpl; [done| |].
    + split; [done|]. apply Forall_app. split; [done|]. by apply Forall_singleton.
    + intros e h [= <- <-]. eexists. by split_and!.
  - unfold grace_over. destruct (_ =? 0)%nat; (apply node_ok_same; [done|done|by left]).
  - apply node_ok_same; [done|done|]. unfold retire, clear_worker_shard_for. simpl.
    destruct (cs_worker_shard (nd_state n)) as [[e h]|] eqn:Es; [|by right]. destruct (e =? epoch); [by right|by left].
Qed.

Lemma newer_all h e l : StronglySorted newer l → (∀ x, head l = Some x → x.2 < e) → StronglySorted newer ((h, e) :: l).
Proof.
  intros Hs Hh. constructor; [done|]. destruct l as [|x l]; [done|]. specialize (Hh x eq_refl).
  inversion Hs as [|? ? _ Hall]; subst. constructor; [done|]. eapply Forall_impl; [exact Hall|]. unfold newer. simpl. lia.
Qed.

(** A proposal is adopted when it is newer, and only then. *)
Lemma handle_proposal_cases paired sender plan n :
  let e := epoch_num (p_epoch plan) in
  (∃ acts, handle_proposal paired sender plan n = (n, acts) ∧ ∀ to m, SendControl to m ∈ acts → ∃ d, m = MPlanAck (p_epoch plan) false d)
  ∨ (∃ n', handle_proposal paired sender plan n = (n', [HostServeShard e; SendControl sender (MPlanAck (p_epoch plan) true None)])
         ∧ (∀ a, nd_adopted n = Some a → ap_epoch a < e)
         ∧ nd_history n' = (sender, e) :: nd_history n ∧ nd_life n' = nd_life n
         ∧ cs_acks (nd_state n') = cs_acks (nd_state n) ∧ cs_epoch_counter (nd_state n') = cs_epoch_counter (nd_state n)
         ∧ (∃ id, nd_adopted n' = Some (MkAdopted e sender [] id)) ∧ cs_worker_shard (nd_state n') = Some (e, sender)).
Proof.
  intros e. unfold handle_proposal, decide_proposal. fold e. destruct (negb _).
  { left. eexists. split; [done|]. set_solver. }
  destruct (nd_adopted n) as [a|] eqn:Ea; simpl.
  - destruct (e <=? ap_epoch a) eqn:El.
    + left. eexists. split; [done|]. intros to m [= _ ->]%list_elem_of_singleton. by eexists.
    + apply Z.leb_gt in El. right. eexists. split_and!; [done|by intros ? [= <-]|done..|eauto|done].
  - right. eexists. split_and!; [done..|eauto|done].
Qed.

Lemma handle_proposal_ok paired sender plan n : node_ok n → node_ok (handle_proposal paired sender plan n).1.
Proof.
  intros Hn. destruct (handle_proposal_cases paired sender plan n) as [(acts & -> & _)|(n' & -> & Hnew & Hh & _ & _ & _ & (id & Ha) & Hs)]; [done|].
  simpl. destruct Hn as [N1 N2 N3]. split.
  - rewrite Hh. apply newer_all; [done|]. intros x Hx. destruct (nd_adopted n) as [a|] eqn:Ea; [|by rewrite N2 in Hx].
    destruct N2 as [N2 _]. rewrite N2 in Hx. injection Hx as <-. by apply Hnew.
  - rewrite Ha, Hh. by split.
  - intros e h. rewrite Hs. intros [= <- <-]. eexists. by split_and!.
Qed.

(** ** The network *)
Definition adopted_by (log : list (string * nat * string * Z)) (w h : string) (e : Z) : Prop :=
  ∃ life, (w, life, h, e) ∈ log.

Record net_ok (s : Net) : Prop := {
  nk_nodes : ∀ i n, nt_nodes s !! i = Some n → node_ok n;
  nk_log : ∀ w l h e n, (w, l, h, e) ∈ nt_log s → nt_nodes s !! w = Some n →
           (l ≤ nd_life n)%nat ∧ (l = nd_life n → (h, e) ∈ nd_history n);
  nk_wire : ∀ w h e d, (w, h, MPlanAck e true d) ∈ nt_wire s → adopted_by (nt_log s) w h (epoch_num e);
  nk_acks : ∀ h n w e a, nt_nodes s !! h = Some n → cs_acks (nd_state n) !! (w, e) = Some a → ack_ready a = true →
            adopted_by (nt_log s) w h e }.

Lemma adopted_by_app log log' w h e : adopted_by log w h e → adopted_by (log ++ log') w h e.
Proof. intros [l Hl]. exists l. set_solver. Qed.

Lemma net_init_ok ids : net_ok (net_init ids).
Proof.
  assert (Hn : ∀ i n, (list_to_map ((λ i, (i, node_start 0)) <$> ids) : gmap string Node) !! i = Some n → n = node_start 0).
  { intros i n Hi%elem_of_list_to_map_2. by apply list_elem_of_fmap in Hi as (? & [= -> ->] & _). }
  split; simpl; [|set_solver|set_solver|].
  - intros i n ->%Hn. apply node_start_ok.
  - intros h n w e a ->%Hn. done.
Qed.

(** A step of one node that keeps its acknowledgements, history and life. *)
Lemma net_ok_node nodes wire log i n n' :
  net_ok (MkNet nodes wire log) → nodes !! i = Some n → node_ok n' →
  cs_acks (nd_state n') = cs_acks (nd_state n) → nd_history n' = nd_history n → nd_life n' = nd_life n →
  net_ok (MkNet (<[i := n']> nodes) wire log).
Proof.
  intros [K1 K2 K3 K4] Hi Hok Ha Hh Hl. split; simpl in *; [| |done|].
  - intros j m [[-> ->]|[_ Hj]]%lookup_insert_Some; [done|by eapply K1].
  - intros w l h e m Hin [[<- <-]|[_ Hj]]%lookup_insert_Some; [rewrite Hl, Hh; by eapply K2|by eapply K2].
  - intros h m w e a [[<- <-]|[_ Hj]]%lookup_insert_Some; [rewrite Ha; by eapply K4|by eapply K4].
Qed.

Lemma node_step_keeps n n' : node_step n n' →
  cs_acks (nd_state n') = cs_acks (nd_state n) ∧ nd_history n' = nd_history n ∧ nd_life n' = nd_life n.
Proof.
  intros Hst. destruct Hst as [n s (_ & Hu & _)|n starts stream n' Hr|n l1 id l2 Hl|n id epoch|n l1 id epoch l2 Hl|n l1 epoch l2 Hl]; try done.
  - unfold handle_rpc_stream in Hr. destruct (nd_adopted n); [|done]. destruct (_ || _); [done|]. destruct starts; [|done]. by injection Hr as <-.
  - unfold grace_over. by destruct (_ =? 0)%nat.
  - unfold retire, clear_worker_shard_for. simpl. destruct (cs_worker_shard _) as [[e h]|]; [|done]. by destruct (e =? epoch).
Qed.

Lemma net_ok_wire nodes wire wire' log :
  net_ok (MkNet nodes wire log) → (∀ w h e d, (w, h, MPlanAck e true d) ∈ wire' → (w, h, MPlanAck e true d) ∈ wire) →
  net_ok (MkNet nodes wire' log).
Proof. intros [K1 K2 K3 K4] Hw. split; simpl in *; [done|done| |done]. intros w h e d Hin. eapply K3, Hw, Hin. Qed.

Lemma net_ok_deliver nodes w1 from to m w2 log n paired n' acts :
  net_ok (MkNet nodes (w1 ++ (from, to, m) :: w2) log) → nodes !! to = Some n → handle_control paired from m n = (n', acts) →
  net_ok (MkNet (<[to := n']> nodes) (w1 ++ w2 ++ to_wire to acts) (log ++ adoptions to n n')).
Proof.
  intros Hok Hi Hh. pose proof Hok as [K1 K2 K3 K4]. simpl in *.
  assert (Hquiet : n' = n → (∀ w e d, SendControl w (MPlanAck e true d) ∉ acts) →
    net_ok (MkNet (<[to := n']> nodes) (w1 ++ w2 ++ to_wire to acts) (log ++ adoptions to n n'))).
  { intros -> Hno. assert (adoptions to n n = []) as -> by (unfold adoptions; by rewrite Nat.sub_diag). rewrite app_nil_r.
    eapply net_ok_wire; [eapply (net_ok_node _ _ _ to n n Hok Hi); [by eapply K1|done..]|].
    intros w h e d Hin. rewrite !elem_of_app in Hin. destruct Hin as [?|[?|Hin]]; [set_solver..|].
    exfalso. unfold to_wire in Hin. apply list_elem_of_omap in Hin as ([w' m'|] & Hin & [= -> -> ->]). by eapply Hno. }
  destruct m as [|plan|e ready detail| | | | | | | |]; simpl in Hh; try (injection Hh as <- <-; apply Hquiet; [done|set_solver]).
  - destruct (handle_proposal_cases paired from plan n) as [(acts' & Heq & Hno)|(n1 & Heq & Hnew & Hhist & Hlife & Hacks & _ & _ & _)];
      rewrite Heq in Hh; injection Hh as <- <-.
    + apply Hquiet; [done|]. intros w e d Hin. by destruct (Hno _ _ Hin).
    + assert (Hn1 : node_ok n1).
      { pose proof (handle_proposal_ok paired from plan n (K1 _ _ Hi)) as Hp. by rewrite Heq in Hp. }
      assert (adoptions to n n1 = [(to, nd_life n, from, epoch_num (p_epoch plan))]) as ->.
      { unfold adoptions. rewrite Hhist. cbn [length]. by replace (S (length (nd_history n)) - length (nd_history n))%nat with 1%nat by lia. }
      split; simpl.
      * intros i m [[-> ->]|[_ Hj]]%lookup_insert_Some; [done|by eapply K1].
      * intros w l h e m Hin Hm. apply elem_of_app in Hin as [Hin|Hin]; apply lookup_insert_Some in Hm as [[Hw Hm]|[Hne Hj]].
        -- subst m w. rewrite Hlife, Hhist. destruct (K2 _ _ _ _ _ Hin Hi) as [? Hl]. split; [done|]. set_solver.
        -- by eapply K2.
        -- apply list_elem_of_singleton in Hin as [= _ -> -> ->]. subst m. rewrite Hlife, Hhist. split; [done|]. set_solver.
        -- by apply list_elem_of_singleton in Hin as [= -> _ _ _].
      * intros w h e d Hin. rewrite !elem_of_app in Hin. destruct Hin as [Hin|[Hin|Hin]].
        1,2: apply adopted_by_app, (K3 w h e d); set_solver.
        simpl in Hin. apply list_elem_of_singleton in Hin as [= -> -> -> ->]. exists (nd_life n). set_solver.
      * intros h m w e a [[<- <-]|[_ Hj]]%lookup_insert_Some Ha Hr; [rewrite Hacks in Ha|]; apply adopted_by_app; by eapply K4.
  - injection Hh as <- <-. assert (adoptions to n (with_state (record_ack from (epoch_num e) ready detail (nd_state n)) n) = []) as ->.
    { unfold adoptions. simpl. by rewrite Nat.sub_diag. }
    rewrite !app_nil_r. split; simpl; [| | |].
    + intros i m [[-> <-]|[_ Hj]]%lookup_insert_Some; [|by eapply K1]. apply (node_ok_same n); [done|done|by left|by eapply K1].
    + intros w l h e' m Hin [[<- <-]|[_ Hj]]%lookup_insert_Some; [exact (K2 _ _ _ _ _ Hin Hi)|by eapply K2].
    + intros w h e' d Hin. apply (K3 w h e' d). set_solver.
    + intros h m w e' a [[<- <-]|[_ Hj]]%lookup_insert_Some Ha Hr; [|by eapply K4]. simpl in Ha.
      apply lookup_insert_Some in Ha as [[[= <- <-] <-]|[_ Ha]]; [|by eapply K4]. simpl in Hr. subst ready.
      apply (K3 from to e detail). set_solver.
Qed.

Lemma net_step_ok s s' : net_step s s' → net_ok s → net_ok s'.
Proof.
  intros Hst Hok. destruct Hst as [nodes wire log i n n' Hi Hn|nodes wire log h n plan k e s Hi He|nodes w1 from to m w2 log n paired n' acts Hi Hh
                                  |nodes w1 x w2 log|nodes wire log i n Hi]; pose proof Hok as [K1 K2 K3 K4]; simpl in *.
  - destruct (node_step_keeps _ _ Hn) as (? & ? & ?). eapply net_ok_node; [done|exact Hi| |done..]. eapply node_step_ok; [done|by eapply K1].
  - injection He as <- <-. eapply net_ok_wire; [eapply (net_ok_node nodes wire log h n); [done|done| |done..]|].
    + apply (node_ok_same n); [done|done|by left|by eapply K1].
    + intros w h' e d Hin. apply elem_of_app in Hin as [?|Hin]; [done|]. by apply list_elem_of_fmap in Hin as (? & ? & _).
  - by eapply net_ok_deliver.
  - eapply net_ok_wire; [done|]. set_solver.
  - split; simpl.
    + intros j m [[-> <-]|[_ Hj]]%lookup_insert_Some; [apply node_start_ok|by eapply K1].
    + intros w l h e m Hin [[<- <-]|[_ Hj]]%lookup_insert_Some; [|by eapply K2]. destruct (K2 _ _ _ _ _ Hin Hi). simpl. lia.
    + intros w h e d Hin. apply (K3 w h e d). by apply list_elem_of_filter in Hin as [_ ?].
    + intros h m w e a [[<- <-]|[_ Hj]]%lookup_insert_Some Ha Hr; [done|by eapply K4].
Qed.

Lemma net_reachable_ok ids s : net_reachable ids s → net_ok s.
Proof.
  intros Hr. refine (rtc_ind_r net_ok (net_init ids) _ _ s Hr); [apply net_init_ok|]. intros s1 s2 _ Hs. by apply net_step_ok.
Qed.

Lemma check_acks_ready acks e ws missing :
  check_acks acks e ws missing = AllReady → missing = None ∧ Forall (λ w, ∃ a, acks !! (w.1, e) = Some a ∧ ack_ready a = true) ws.
Proof.
  revert missing. induction ws as [|[id label] ws IH]; intros missing Hc; simpl in Hc; [by destruct missing|].
  destruct (acks !! (id, e)) as [a|] eqn:Ea.
  - destruct (ack_ready a) eqn:Er; [|done]. destruct (IH _ Hc). split; [done|]. constructor; [by exists a|done].
  - destruct (IH _ Hc) as [Hm _]. by destruct missing.
Qed.

Lemma await_acks_ready e ws seen last :
  await_acks e ws seen last = inr tt → ∃ acks, acks ∈ seen ++ [last] ∧ check_acks acks e ws None = AllReady.
Proof.
  induction seen as [|acks seen IH]; simpl; destruct (check_acks _ e ws None) eqn:Ec; try done.
  - intros _. exists last. set_solver.
  - intros _. exists acks. set_solver.
  - intros Ha. destruct (IH Ha) as (acks' & Hin & Hc). exists acks'. set_solver.
Qed.

Lemma history_newest h e hd t : StronglySorted newer (hd :: t) → (h, e) ∈ hd :: t → e ≤ hd.2 ∧ (hd.2 = e → hd.1 = h).
Proof.
  intros Hs [<-|Hin]%elem_of_cons; [simpl; split; [lia|done]|].
  inversion Hs as [|? ? _ Hall]; subst. rewrite list.Forall_forall in Hall. specialize (Hall _ Hin). unfold newer in Hall. simpl in Hall. lia.
Qed.

Lemma net_log_grows s s' x : rtc net_step s s' → x ∈ nt_log s → x ∈ nt_log s'.
Proof.
  intros Hr Hx. induction Hr as [|s1 s2 s3 Hst _ IH]; [done|]. apply IH. destruct Hst; simpl in *; try done. set_solver.
Qed.

(** The acknowledgements a head has seen at a moment of the run up to [s]. *)
Definition seen_by (ids : list string) (h : string) (s : Net) (acks : gmap (string * Z) AckResult) : Prop :=
  ∃ s0 n0, net_reachable ids s0 ∧ rtc net_step s0 s ∧ nt_nodes s0 !! h = Some n0 ∧ cs_acks (nd_state n0) = acks.

(** C7: When a head that waits for the acknowledgements of an epoch succeeds,
    every worker of the plan has adopted this epoch for this head, and as long
    as that worker has not restarted, the plan it has adopted now is not older,
    and is this head's if it has the same epoch; whatever other heads proposed
    and whatever was delivered out of order, lost or restarted in between. *)
Theorem acks_mean_adoption ids s h e ws seen last w label :
  Forall (seen_by ids h s) (seen ++ [last]) → await_acks e ws seen last = inr tt → (w, label) ∈ ws →
  ∃ life, (w, life, h, e) ∈ nt_log s
    ∧ ∀ nw, nt_nodes s !! w = Some nw → nd_life nw = life →
        ∃ a, nd_adopted nw = Some a ∧ e ≤ ap_epoch a ∧ (ap_epoch a = e → ap_head a = h).
Proof.
  intros Hseen Ha Hw. apply await_acks_ready in Ha as (acks & Hin & Hc). rewrite list.Forall_forall in Hseen.
  destruct (Hseen _ Hin) as (s0 & n & Hr0 & Hrs & Hh & <-).
  apply check_acks_ready in Hc as [_ Hall]. rewrite list.Forall_forall in Hall. destruct (Hall _ Hw) as (a & Hl & Hready). simpl in Hl.
  destruct (nk_acks _ (net_reachable_ok ids s0 Hr0) _ _ _ _ _ Hh Hl Hready) as [life Hlog].
  apply (net_log_grows _ _ _ Hrs) in Hlog. exists life. split; [done|]. intros nw Hnw Hlife.
  assert (Hr : net_reachable ids s) by (unfold net_reachable in *; by etrans). destruct (net_reachable_ok ids s Hr) as [K1 K2 _ _].
  destruct (K2 _ _ _ _ _ Hlog Hnw) as [_ Hhist]. specialize (Hhist (eq_sym Hlife)).
  destruct (K1 _ _ Hnw) as [N1 N2 _]. destruct (nd_adopted nw) as [ad|]; [|rewrite N2 in Hhist; set_solver].
  destruct N2 as [N2 _]. destruct (nd_history nw) as [|hd t]; [done|]. injection N2 as ->.
  exists ad. split; [done|]. exact (history_newest h e _ t N1 Hhist).
Qed.

(** C8: From its start on, a daemon adopts epochs in strictly increasing order;
    the plan it serves is the last one it adopted, all its serve sessions were
    opened by that plan's head for that epoch, and its shard record, if any,
    names that head and epoch: no step of any interleaving of proposals,
    streams and retirements breaks this. *)
Theorem epochs_fenced ids s w n :
  net_reachable ids s → nt_nodes s !! w = Some n →
  StronglySorted newer (nd_history n)
  ∧ (∀ a, nd_adopted n = Some a →
       head (nd_history n) = Some (ap_head a, ap_epoch a)
       ∧ Forall (λ st, rs_peer st = ap_head a ∧ rs_epoch st = ap_epoch a) (ap_serves a))
  ∧ ∀ e h, cs_worker_shard (nd_state n) = Some (e, h) → ∃ a, nd_adopted n = Some a ∧ ap_epoch a = e ∧ ap_head a = h.
Proof.
  intros Hr Hn. destruct (nk_nodes _ (net_reachable_ok ids s Hr) _ _ Hn) as [N1 N2 N3]. split_and!; [done| |done].
  intros a Ha. by rewrite Ha in N2.
Qed.

(** ** Concrete runs *)
Definition ex_plan : Plan :=
  MkPlan (MkEpoch 0) "m" PipelineParallel
    [MkAssignment (MkNodeId "w") (MkLayerRange 0 4) 0; MkAssignment (MkNodeId "h") (MkLayerRange 4 8) 1] 512.

(** Scripts: every command takes the first message or task it applies to. *)
Inductive Cmd :=
  | CPropose (h : string) (plan : Plan)
  | CDeliver (paired : list string)
  | CRestart (i : string)
  | CStream (w : string) (stream : RpcStream)
  | CCount (w : string)
  | CEnd (w : string) (id : nat) (epoch : Z)
  | CGrace (w : string)
  | CRetire (w : string).

Definition set_node (i : string) (n : Node) (s : Net) : Net := MkNet (<[i := n]> (nt_nodes s)) (nt_wire s) (nt_log s).

Definition exec (c : Cmd) (s : Net) : option Net :=
  match c with
  | CPropose h plan =>
      n ← nt_nodes s !! h;
      let '(e, st) := next_epoch (nd_state n) in
      Some (MkNet (<[h := with_state st n]> (nt_nodes s))
              (nt_wire s ++ ((λ w, (h, w, MPlanProposal (with_epoch e plan))) <$> plan_workers h plan)) (nt_log s))
  | CDeliver paired =>
      match nt_wire s with
      | (from, to, m) :: wire =>
          n ← nt_nodes s !! to;
          let '(n', acts) := handle_control (Some paired) from m n in
          Some (MkNet (<[to := n']> (nt_nodes s)) (wire ++ to_wire to acts) (nt_log s ++ adoptions to n n'))
      | [] => None
      end
  | CRestart i =>
      n ← nt_nodes s !! i;
      Some (MkNet (<[i := node_start (S (nd_life n))]> (nt_nodes s)) (filter (λ x, x.1.1 ≠ i ∧ x.1.2 ≠ i) (nt_wire s)) (nt_log s))
  | CStream w stream => n ← nt_nodes s !! w; n' ← handle_rpc_stream true stream n; Some (set_node w n' s)
  | CCount w =>
      n ← nt_nodes s !! w;
      match nd_accepting n with
      | id :: l =>
          Some (set_node w (count_stream id (MkNode (nd_state n) (nd_adopted n) (nd_live n) l (nd_waiting n)
                                               (nd_retiring n) (nd_life n) (nd_history n))) s)
      | [] => None
      end
  | CEnd w id epoch => n ← nt_nodes s !! w; Some (set_node w (end_stream id epoch n) s)
  | CGrace w =>
      n ← nt_nodes s !! w;
      match nd_waiting n with
      | (id, epoch) :: l =>
          Some (set_node w (grace_over id epoch (MkNode (nd_state n) (nd_adopted n) (nd_live n) (nd_accepting n) l
                                                   (nd_retiring n) (nd_life n) (nd_history n))) s)
      | [] => None
      end
  | CRetire w =>
      n ← nt_nodes s !! w;
      match nd_retiring n with
      | epoch :: l =>
          Some (set_node w (retire epoch (MkNode (nd_state n) (nd_adopted n) (nd_live n) (nd_accepting n) (nd_waiting n) l
                                            (nd_life n) (nd_history n))) s)
      | [] => None
      end
  end.

Lemma exec_step c s s' : exec c s = Some s' → net_step s s'.
Proof.
  destruct s as [nodes wire log]. intros He.
  destruct c as [h plan|paired|i|w stream|w|w id epoch|w|w]; cbn [exec nt_nodes nt_wire nt_log] in He.
  2: destruct wire as [|[[from to] m] wire]; [done|].
  all: match type of He with context [?N !! ?i] => destruct (N !! i) as [n|] eqn:Ei; [|done] end; cbn [mbind option_bind] in He.
  - destruct (next_epoch (nd_state n)) as [e st] eqn:Ee. injection He as <-.
    pose proof (net_propose nodes wire log h n plan (length (plan_workers h plan)) e st Ei Ee) as Hs. by rewrite firstn_all in Hs.
  - destruct (handle_control _ from m n) as [n' acts] eqn:Eh. injection He as <-. exact (net_deliver nodes [] from to m wire log n _ n' acts Ei Eh).
  - injection He as <-. by apply net_restart.
  - destruct (handle_rpc_stream true stream n) as [n'|] eqn:Er; [|done]. injection He as <-. eapply net_node; [done|]. by eapply node_stream.
  - destruct (nd_accepting n) as [|id l] eqn:El; [done|]. injection He as <-. eapply net_node; [done|]. by apply (node_count n [] id l).
  - injection He as <-. eapply net_node; [done|]. apply node_end.
  - destruct (nd_waiting n) as [|[id epoch] l] eqn:El; [done|]. injection He as <-. eapply net_node; [done|]. by apply (node_grace n [] id epoch l).
  - destruct (nd_retiring n) as [|epoch l] eqn:El; [done|]. injection He as <-. eapply net_node; [done|]. by apply (node_retire n [] epoch l).
Qed.

Fixpoint exec_all (cs : list Cmd) (s : Net) : option Net :=
  match cs with [] => Some s | c :: cs => s ← exec c s; exec_all cs s end.

Lemma exec_all_steps cs s s' : exec_all cs s = Some s' → rtc net_step s s'.
Proof.
  revert s. induction cs as [|c cs IH]; intros s He; simpl in He; [by injection He as ->; constructor|].
  destruct (exec c s) as [s1|] eqn:E1; [|done]. eapply rtc_l; [by eapply exec_step|by apply IH].
Qed.

(** A head proposes a plan, the worker adopts it, and the head hears of it. *)
Definition ex_propose : list Cmd := [CPropose "h" ex_plan; CDeliver ["h"]; CDeliver ["w"]].
Definition ex_net (cs : list Cmd) : option Net := exec_all cs (net_init ["h"; "w"]).

Definition acks_at (i : string) (s : Net) : gmap (string * Z) AckResult :=
  match nt_nodes s !! i with Some n => cs_acks (nd_state n) | None => ∅ end.

Lemma acks_mean_adoption_witness :
  match ex_net ex_propose with
  | Some s => await_acks 1 [("w", "worker")] [] (acks_at "h" s) = inr tt ∧ ∃ life, ("w", life, "h", 1) ∈ nt_log s
  | None => False
  end.
Proof.
  destruct (ex_net ex_propose) as [s|] eqn:Es; [|vm_compute in Es; discriminate Es].
  assert (Ha : await_acks 1 [("w", "worker")] [] (acks_at "h" s) = inr tt) by (vm_compute in Es; injection Es as <-; reflexivity).
  split; [exact Ha|].
  destruct (acks_mean_adoption ["h"; "w"] s "h" 1 [("w", "worker")] [] (acks_at "h" s) "w" "worker") as (life & Hlog & _); [|exact Ha| |by exists life].
  - apply Forall_singleton. destruct (nt_nodes s !! "h") as [n|] eqn:En; [|vm_compute in Es; injection Es as <-; discriminate En].
    exists s, n. split_and!; [by apply (exec_all_steps ex_propose)|apply rtc_refl|exact En|]. unfold acks_at. by rewrite En.
  - by apply list_elem_of_singleton.
Defined.

Lemma epochs_fenced_witness :
  match ex_net (ex_propose ++ ex_propose) with
  | Some s => match nt_nodes s !! "w" with
              | Some n => nd_history n = [("h", 2); ("h", 1)] ∧ StronglySorted newer (nd_history n)
              | None => False
              end
  | None => False
  end.
Proof.
  destruct (ex_net (ex_propose ++ ex_propose)) as [s|] eqn:Es; [|vm_compute in Es; discriminate Es].
  destruct (nt_nodes s !! "w") as [n|] eqn:En; [|vm_compute in Es; injection Es as <-; discriminate En]. split.
  - vm_compute in Es. injection Es as <-. vm_compute in En. by injection En as <-.
  - apply (epochs_fenced ["h"; "w"] s "w" n); [by apply (exec_all_steps (ex_propose ++ ex_propose))|exact En].
Defined.

(** A worker's view: whom it serves, which epoch it fences by, how many
    streams are live. *)
Definition worker_view (w : string) (s : Net) : option (option (Z * string) * option Z * nat) :=
  n ← nt_nodes s !! w;
  Some (cs_worker_shard (nd_state n), ap_epoch <$> nd_adopted n,
        match nd_adopted n with Some a => default 0%nat (nd_live n !! ap_id a) | None => 0%nat end).

(** An adopted plan is never forgotten: a worker whose last stream ended long
    ago, and which serves nobody, still turns down the plans of its restarted
    head, whose epochs start again at 1. *)
Theorem restarted_head_rejected :
  let streamed := [CStream "w" (MkRpcStream "h" 2); CCount "w"; CEnd "w" 1 2; CGrace "w"; CRetire "w"] in
  match ex_net (ex_propose ++ ex_propose ++ streamed ++ [CRestart "h"] ++ ex_propose) with
  | Some s => worker_view "w" s = Some (None, Some 2, 0%nat)
              ∧ check_acks (acks_at "h" s) 1 [("w", "worker")] None = Nacked "worker" (Some "stale plans are fenced")
  | None => False
  end.
Proof. vm_compute. done. Qed.

(** The retirement reads the stream count and clears the record in two steps,
    and so does an accepted stream: a stream accepted in between leaves a
    worker that serves without a record. *)
Theorem retired_under_stream :
  let st := CStream "w" (MkRpcStream "h" 1) in
  match ex_net (ex_propose ++ [st; CCount "w"; CEnd "w" 0 1; CGrace "w"; st; CCount "w"; CRetire "w"]) with
  | Some s => worker_view "w" s = Some (None, Some 1, 1%nat)
  | None => False
  end.
Proof. vm_compute. done. Qed.
