(* ===== verification/PlanLoad.v ===== *)
(** * Planning a load

    Models [plan_load] of [crates/onebraind/src/server.rs], the one way a
    model gets a plan: which peers are eligible, what of their reports goes
    into the request, the header of the model file ([read_gguf_header] of
    [cluster.rs]), the scheduler's answer, the epoch stamp, and the figures
    shown for the plan.  The measurements, the peers at each poll, the model
    file and the configuration are a record of inputs; the explanation stays
    structured. *)

From Stdlib Require Import ZArith Lia QArith.
From stdpp Require Import base list strings option gmap.
From S2P Require Import Prelude Float FloatFacts Proto SchedLib Gguf StrUtil Dims SchedV1 Apportion StageOrder.
From S2P Require Import PlanCore SchedV2 PlanV1 PlanV2 PlanV2Sound Http Ranges RangePlan Cluster.

Open Scope Z_scope.

#[global] Instance PeerState_eq_dec : EqDecision PeerState.
Proof. solve_decision. Defined.

(** What the mesh knows about a peer, as far as planning reads it. *)
Record PeerStatus := MkPeer {
  ps_name : string;
  ps_id : string;
  ps_state : PeerState;
  ps_rtt_ms : option fl;
  ps_bandwidth_mbps : option fl;
  ps_usable_memory_bytes : option Z;
  ps_prefill_tps : option fl;
  ps_decode_tps : option fl;
  ps_draining : bool }.

(** [le_polls] are the answers of the mesh before the deadline for budgets,
    [le_deadline] the first after it. *)
Record LoadEnv := MkLoadEnv {
  le_head_usable : option Z;
  le_polls : list (option (list PeerStatus));
  le_deadline : option (list PeerStatus);
  le_file : option bytes;
  le_profile : option ComputeProfile;
  le_decode_override : option fl;
  le_draining : bool;
  le_ctx_len : Z;
  le_n_ubatch : Z }.

Inductive PlanLoadError := LoadDoesNotFit (required_mb available_mb : Z) | LoadOther.

Record PlannedLoad := MkPlannedLoad {
  pl_plan : Plan;
  pl_tensor_split : list fl;
  pl_explanation : list ExplainLine;
  pl_predicted_tpt_ms : option fl;
  pl_predicted_prefill_ms : option fl }.

(** ** The peers *)
Definition eligible (exclude : gset string) (exclude_draining : bool) (p : PeerStatus) : bool :=
  bool_decide (ps_state p = Connected) && negb (bool_decide (ps_id p ∈ exclude)) && negb (exclude_draining && ps_draining p).

Definition missing_budget (p : PeerStatus) : bool := match ps_usable_memory_bytes p with None => true | Some _ => false end.

(** Wait for the budgets of the eligible peers until the deadline. *)
Fixpoint poll_peers (ok : PeerStatus → bool) (polls : list (option (list PeerStatus))) (deadline : option (list PeerStatus)) :
    option (list PeerStatus) :=
  match polls with
  | [] => filter (λ p, ok p = true) <$> deadline
  | None :: _ => None
  | Some all :: polls =>
      let connected := filter (λ p, ok p = true) all in
      if existsb missing_budget connected then poll_peers ok polls deadline else Some connected
  end.

(** ** The model file *)
Fixpoint read_header_loop (fuel : nat) (file : bytes) (want : Z) : res GgufError GgufHeader :=
  match fuel with
  | O => Panic
  | S fuel =>
      match parse (take (Z.to_nat want) file) with
      | Err (NeedMoreData hint) =>
          if want <? len file then read_header_loop fuel file (Z.min (Z.max hint (u64_sat_mul want 2)) (len file))
          else Err (NeedMoreData hint)
      | r => r
      end
  end.

Definition read_gguf_header (file : bytes) : res GgufError GgufHeader :=
  read_header_loop 64 file (Z.min (2 ^ 20) (len file)).

(** ** The request *)
Definition positive (d : fl) : bool := flt fzero d.

Definition head_compute (override : option fl) (stored : option ComputeProfile) : option ComputeProfile :=
  match override, stored with
  | Some decode, _ => Some (MkCompute (match stored with Some p => cp_prefill_tps p | None => fzero end) decode)
  | None, Some p => Some (MkCompute (cp_prefill_tps p) (cp_decode_tps p))
  | None, None => None
  end.

Definition worker_caps (p : PeerStatus) (bytes : Z) : NodeCaps :=
  MkCaps (MkNodeId (ps_id p)) bytes
    (decode ← ps_decode_tps p; if positive decode then Some (MkCompute (default fzero (ps_prefill_tps p)) decode) else None)
    (ps_draining p).

Definition worker_link (own_id : string) (p : PeerStatus) : option LinkRtt :=
  rtt_ms ← ps_rtt_ms p;
  Some (MkLink (MkNodeId own_id) (MkNodeId (ps_id p)) rtt_ms (bw ← ps_bandwidth_mbps p; if positive bw then Some bw else None)).

(** A peer without a budget is skipped, with its link. *)
Definition budgeted (peers : list PeerStatus) : list (PeerStatus * Z) :=
  omap (λ p, bytes ← ps_usable_memory_bytes p; Some (p, bytes)) peers.

Definition load_request (own_id : string) (env : LoadEnv) (forced : option Z) (head_usable : Z) (dims : ModelDims)
    (peers : list PeerStatus) : PlanRequest :=
  MkRequest
    (MkCaps (MkNodeId own_id) head_usable (head_compute (le_decode_override env) (le_profile env)) (le_draining env))
    ((λ x : PeerStatus * Z, worker_caps x.1 x.2) <$> budgeted peers)
    dims (le_ctx_len env) forced
    (omap (λ x : PeerStatus * Z, worker_link own_id x.1) (budgeted peers))
    (le_n_ubatch env).

(** ** The figures shown for a plan *)
Definition min_decode (request : PlanRequest) : fl := foldl fmin NaN (omap pos_decode (pr_head request :: pr_workers request)).

Definition decode_of (request : PlanRequest) (id : NodeId) : option fl :=
  match find_first (λ c, bool_decide (nc_node c = id)) (pr_head request :: pr_workers request) ≫= pos_decode with
  | Some d => Some d
  | None => if is_finite (min_decode request) then Some (min_decode request) else None
  end.

Definition stage_compute_ms (request : PlanRequest) (a : Assignment) : fl :=
  match decode_of request (a_node a) with
  | Some tps =>
      fmul b64 (fdiv b64 (active_compute_units (pr_dims request) (lr_start (a_layers a)) (lr_end (a_layers a))) tps) f1000
  | None => fzero
  end.

Definition predicted_tpt_ms (assignments : list Assignment) (request : PlanRequest) : fl :=
  let compute_ms := foldl fmax fzero (stage_compute_ms request <$> assignments) in
  let boundary_ms := fsum b64 ((λ w : Assignment * Assignment, link_rtt (pr_links request) (a_node w.1) (a_node w.2)) <$> windows2 assignments) in
  fadd b64 compute_ms boundary_ms.

Definition boundary_prefill_ms (request : PlanRequest) (w : Assignment * Assignment) : fl :=
  let link := find_first (link_matches (a_node w.1) (a_node w.2)) (pr_links request) in
  let rtt := match link with Some l => lr_rtt_ms l | None => DEFAULT_LINK_RTT_MS end in
  let transfer := match link ≫= lr_bandwidth_mbps with
                  | Some bw => boundary_transfer_ms (md_n_embd (pr_dims request)) (pr_n_ubatch request) bw
                  | None => fzero
                  end in
  fadd b64 rtt transfer.

Definition predicted_prefill_ms (assignments : list Assignment) (request : PlanRequest) : fl :=
  fsum b64 (boundary_prefill_ms request <$> windows2 assignments).

(** ** The plan *)
Definition stamp (model_name : string) (p : Plan) (cl : ClusterState) : Plan * ClusterState :=
  if bool_decide (p_strategy p = Solo) then (MkPlan (p_epoch p) model_name (p_strategy p) (p_assignments p) (p_ctx_len p), cl)
  else let '(e, cl) := next_epoch cl in (MkPlan (MkEpoch e) model_name (p_strategy p) (p_assignments p) (p_ctx_len p), cl).

Definition plan_load (own_id : string) (env : LoadEnv) (model_name : string) (size_bytes : Z) (forced : option Z)
    (exclude : gset string) (exclude_draining : bool) (cl : ClusterState) : res PlanLoadError PlannedLoad * ClusterState :=
  let result :=
    head_usable ← ok_or (le_head_usable env) LoadOther;
    peers ← ok_or (poll_peers (eligible exclude exclude_draining) (le_polls env) (le_deadline env)) LoadOther;
    file ← ok_or (le_file env) LoadOther;
    header ← map_err (λ _, LoadOther) (read_gguf_header file);
    dims ← map_err (λ _, LoadOther) (model_dims header size_bytes);
    let request := load_request own_id env forced head_usable dims peers in
    placed ← map_err (λ e, match e with DoesNotFit r a => LoadDoesNotFit r a | _ => LoadOther end) (plan_v2 request);
    Ok (request, placed) in
  match result with
  | Ok (request, placed) =>
      let '(plan, cl) := stamp model_name (pp_plan placed) cl in
      let solo := bool_decide (p_strategy plan = Solo) in
      (Ok (MkPlannedLoad plan (pp_tensor_split placed) (pp_explanation placed)
             (if solo then None else Some (predicted_tpt_ms (p_assignments plan) request))
             (if solo then None else Some (predicted_prefill_ms (p_assignments plan) request))), cl)
  | Err e => (Err e, cl)
  | Panic => (Panic, cl)
  end.

(** ** Reading the header *)
Lemma read_header_loop_same fuel file want :
  len file < 2 ^ 63 → 0 ≤ want ≤ len file → header_loop fuel file want = map_err EGguf (read_header_loop fuel file want).
Proof.
  intros Hlen. revert want. induction fuel as [|fuel IH]; intros want Hw; simpl; [done|].
  destruct (parse _) as [h|e|]; [done| |done]. destruct e; try done. destruct (Z.ltb_spec want (len file)) as [Hlt|]; [|done].
  assert (u64_mul want 2 = want * 2) as -> by (apply wrap64_small; unfold in_u64; lia).
  assert (u64_sat_mul want 2 = want * 2) as -> by (unfold u64_sat_mul, u64_max; lia). apply IH. lia.
Qed.

Lemma read_gguf_header_exact file : len file < 2 ^ 63 → read_gguf_header file = parse file.
Proof.
  intros Hlen. pose proof (len_nonneg file) as H0. unfold read_gguf_header. destruct (Z.eq_dec (len file) 0) as [E|Hn].
  { assert (file = []) as -> by (destruct file; [done|unfold len in E; simpl in E; lia]). reflexivity. }
  pose proof (read_header_loop_same 64 file (Z.min (2 ^ 20) (len file)) Hlen ltac:(lia)) as H.
  rewrite (header_loop_exact 63 file) in H by lia. destruct (parse file) as [h|e|] eqn:Ep, (read_header_loop _ _ _) as [h'|e'|];
    simpl in H; try discriminate; try congruence.
Qed.

Lemma parse_fields file header : len file < 2 ^ 63 → parse file = Ok header → fields_wf header.
Proof.
  intros Hlen Hp. destruct steady_body as [_ M _]. unfold parse in Hp. destruct (parse_body file 0) as [[h pos]| |] eqn:E; [|done..].
  injection Hp as <-. by destruct (M _ _ _ _ (conj (Z.le_refl 0) (len_nonneg file)) E) as [_ Hf].
Qed.

(** ** The eligible peers *)
Definition polled (env : LoadEnv) (all : list PeerStatus) : Prop := Some all ∈ le_polls env ∨ le_deadline env = Some all.

Lemma poll_peers_from ok polls deadline l :
  poll_peers ok polls deadline = Some l →
  ∃ all, (Some all ∈ polls ∨ deadline = Some all) ∧ l = filter (λ p, ok p = true) all.
Proof.
  induction polls as [|[all|] polls IH]; simpl; [| |done].
  - destruct deadline as [all|]; [|done]. intros [= <-]. exists all. by split; [right|].
  - destruct (existsb _ _).
    + intros (all' & Hin & ->)%IH. exists all'. split; [|done]. destruct Hin; [left; by right|by right].
    + intros [= <-]. exists all. split; [left; by left|done].
Qed.

(** ** Measured inputs *)
Record peer_ok (p : PeerStatus) : Prop := {
  pk_memory : ∀ m, ps_usable_memory_bytes p = Some m → in_u64 m;
  pk_decode : ∀ d, ps_decode_tps p = Some d → positive d = true → rate_ok d;
  pk_rtt : ∀ r, ps_rtt_ms p = Some r → score_ok r }.

Record env_ok (env : LoadEnv) (size_bytes : Z) (forced : option Z) : Prop := {
  ek_file : ∀ f, le_file env = Some f → len f < 2 ^ 63;
  ek_size : 0 ≤ size_bytes < 2 ^ 64;
  ek_head : ∀ m, le_head_usable env = Some m → in_u64 m;
  ek_rate : ∀ c, head_compute (le_decode_override env) (le_profile env) = Some c → positive (cp_decode_tps c) = true → rate_ok (cp_decode_tps c);
  ek_peers : ∀ all, polled env all → Z.of_nat (length all) < 2 ^ 19 ∧ Forall peer_ok all;
  ek_forced : ∀ k, forced = Some k → in_u32 k;
  ek_ubatch : 0 ≤ le_n_ubatch env }.

Lemma pos_decode_caps node m draining c d :
  pos_decode (MkCaps node m c draining) = Some d → ∃ k, c = Some k ∧ cp_decode_tps k = d ∧ positive d = true.
Proof.
  unfold pos_decode, positive. simpl. destruct c as [k|]; [|done]. destruct (flt fzero (cp_decode_tps k)) eqn:E; [|done]. intros [= <-]. eauto.
Qed.

Lemma budgeted_elem peers x : x ∈ budgeted peers → x.1 ∈ peers ∧ ps_usable_memory_bytes x.1 = Some x.2.
Proof.
  unfold budgeted. rewrite list_elem_of_omap. intros (p & Hp & Hx). destruct (ps_usable_memory_bytes p) eqn:E; [|done]. by injection Hx as <-.
Qed.

Lemma length_budgeted peers : (length (budgeted peers) ≤ length peers)%nat.
Proof. induction peers as [|p peers IH]; simpl; [done|]. destruct (ps_usable_memory_bytes p); simpl; lia. Qed.

Lemma load_request_ok own_id env size_bytes forced head_usable dims peers :
  env_ok env size_bytes forced → le_head_usable env = Some head_usable → dims_ok dims →
  Forall peer_ok peers → Z.of_nat (length peers) < 2 ^ 19 →
  request_v2_ok (load_request own_id env forced head_usable dims peers).
Proof.
  intros [E1 E2 E3 E4 E5 E6 E7] Hh Hd Hp Hlen. rewrite list.Forall_forall in Hp. split; [|done]. split; simpl; [| |done| |done].
  - apply Forall_app. split; [|apply Forall_singleton; split; [by apply E3|]].
    + apply Forall_fmap, list.Forall_forall. intros x (Hx & Hm)%budgeted_elem. destruct (Hp _ Hx) as [P1 P2 P3]. split; [by apply P1|].
      intros d (k & Hk & <- & Hpos)%pos_decode_caps. destruct (ps_decode_tps x.1) as [r|]; simpl in Hk; [|done].
      destruct (positive r) eqn:Er; [|done]. injection Hk as <-. by apply P2.
    + intros d (k & Hk & <- & Hpos)%pos_decode_caps. by apply E4.
  - rewrite length_fmap. eapply Z.le_lt_trans; [|exact Hlen]. apply inj_le. by apply length_budgeted.
  - unfold links_ok. apply list.Forall_forall. intros l (x & (Hx & _)%budgeted_elem & Hl)%list_elem_of_omap.
    unfold worker_link in Hl. destruct (ps_rtt_ms x.1) as [r|] eqn:Er; [|done]. injection Hl as <-. by apply (pk_rtt _ (Hp _ Hx)).
Qed.

(** ** The answers of the scheduler *)
Definition head_only (r : PlanRequest) (pl : PlannedPlacement) : Prop :=
  p_strategy (pp_plan pl) = Solo
  ∧ p_assignments (pp_plan pl) = [MkAssignment (nc_node (pr_head r)) (MkLayerRange 0 (md_n_layers (pr_dims r))) 0].

Definition on_nodes (r : PlanRequest) (pl : PlannedPlacement) : Prop :=
  p_strategy (pp_plan pl) = PipelineParallel
  ∧ ∀ a, a ∈ p_assignments (pp_plan pl) → ∃ caps, caps ∈ pr_workers r ++ [pr_head r] ∧ a_node a = nc_node caps.

Lemma plan_v2_answers r :
  request_v2_ok r → plan_v2 r ≠ Panic ∧
  ∀ pl, plan_v2 r = Ok pl → placement_ok (md_n_layers (pr_dims r)) (pp_plan pl) ∧ (head_only r pl ∨ on_nodes r pl).
Proof.
  intros [Hr Hub]. pose proof (n_range r Hr) as Hn.
  assert (Hd : ∀ forced hb req kv sf, distributed_v2 r forced hb req kv sf (ubatch_of r) ≠ Panic ∧
    ∀ pl, distributed_v2 r forced hb req kv sf (ubatch_of r) = Ok pl →
      placement_ok (md_n_layers (pr_dims r)) (pp_plan pl) ∧ (head_only r pl ∨ on_nodes r pl)).
  { intros forced hb req kv sf.
    destruct (distributed_v2_spec r Hr Hub forced hb req kv sf) as (st & _ & _ & [[_ ->]|(_ & pl & -> & Hst & H1 & _ & H2)]); [done|].
    split; [done|]. intros pl' [= <-]. split; [done|]. right. split; [done|]. intros a [k Hk]%list_elem_of_lookup.
    destruct (H2 k a Hk) as (i & c & Hc & Hnode & _). apply build_cands_lookup in Hc as (Hi & _).
    exists (cd_caps c). split; [by eapply list_elem_of_lookup_2|done]. }
  assert (Hs : ∀ l hb req f, placement_ok (md_n_layers (pr_dims r)) (pp_plan (add_line l (solo_v1 r hb req f))) ∧
    (head_only r (add_line l (solo_v1 r hb req f)) ∨ on_nodes r (add_line l (solo_v1 r hb req f)))).
  { intros l hb req f. split; [|by left]. split; simpl; [lia|done]. }
  unfold plan_v2. fold (ubatch_of r).
  destruct (norm_forced _) as [k|]; repeat case_match; try apply Hd; split; try done; intros pl [= <-]; apply Hs.
Qed.

(** ** No panics *)
Lemma bind_safe {E A B} (m : res E A) (f : A → res E B) : m ≠ Panic → (∀ a, m = Ok a → f a ≠ Panic) → (m ≫= f) ≠ Panic.
Proof. destruct m; simpl; intros Hm Hf; [by apply Hf|done|done]. Qed.
Lemma map_err_safe {E F A} (f : E → F) (r : res E A) : r ≠ Panic → map_err f r ≠ Panic.
Proof. by destruct r. Qed.
Lemma ok_or_safe {E A} (o : option A) (e : E) : ok_or o e ≠ Panic.
Proof. by destruct o. Qed.
Lemma fold_res_safe {E A S} (f : S → A → res E S) s l : (∀ s x, f s x ≠ Panic) → fold_res f s l ≠ Panic.
Proof. intros Hf. revert s. induction l as [|x l IH]; intros s; simpl; [done|]. apply bind_safe; [done|]. intros s' _. apply IH. Qed.

Lemma ranges_from_safe d fs ts : ranges_from d fs ts ≠ Panic.
Proof. induction ts as [|t ts IH]; simpl; [done|]. destruct (_ || _); [done|]. by apply bind_safe. Qed.

Lemma dims_step_safe n acc r : dims_step n acc r ≠ Panic.
Proof.
  unfold dims_step, dims_slot. apply bind_safe; [|by intros []]. destruct (strip_prefix _ _) as [rest|]; [|by destruct (starts_with _ _)].
  apply bind_safe; [apply ok_or_safe|]. intros idx _. by destruct (n <=? idx).
Qed.

Lemma model_dims_safe header size : model_dims header size ≠ Panic.
Proof.
  assert (Hx : ∀ arch suffix, expert_u32 header arch suffix ≠ Panic).
  { intros arch suffix. unfold expert_u32. destruct (meta_pos _ _) as [v|]; [by destruct (v <=? u32_max)|done]. }
  unfold model_dims. apply bind_safe; [apply ok_or_safe|]. intros arch _. apply bind_safe; [apply ok_or_safe|]. intros n _.
  destruct (u32_max <? n); [done|]. apply bind_safe; [apply ok_or_safe|]. intros w _. cbv zeta.
  apply bind_safe; [apply Hx|]. intros e _. apply bind_safe; [apply Hx|]. intros u _. destruct (_ && _); [done|].
  apply bind_safe; [apply map_err_safe, ranges_from_safe|]. intros rs _. apply bind_safe; [|done]. apply fold_res_safe, dims_step_safe.
Qed.

(** ** What a planned load guarantees *)

(** An assignment's node may take part: it is the head, or a peer that a poll
    showed eligible with a budget. *)
Definition may_serve (own_id : string) (env : LoadEnv) (exclude : gset string) (exclude_draining : bool) (node : string) : Prop :=
  node = own_id ∨
  ∃ all p, polled env all ∧ p ∈ all ∧ ps_id p = node ∧ ps_state p = Connected ∧ missing_budget p = false
    ∧ node ∉ exclude ∧ (exclude_draining = true → ps_draining p = false).

Lemma eligible_spec exclude exclude_draining p :
  eligible exclude exclude_draining p = true →
  ps_state p = Connected ∧ ps_id p ∉ exclude ∧ (exclude_draining = true → ps_draining p = false).
Proof.
  unfold eligible. intros [[H1%bool_decide_eq_true H2]%andb_true_iff H3]%andb_true_iff. split; [done|].
  apply negb_true_iff, bool_decide_eq_false in H2. split; [done|]. intros ->. by apply negb_true_iff in H3.
Qed.

Lemma load_request_nodes own_id env exclude exclude_draining forced hu dims peers caps :
  poll_peers (eligible exclude exclude_draining) (le_polls env) (le_deadline env) = Some peers →
  let r := load_request own_id env forced hu dims peers in
  caps ∈ pr_workers r ++ [pr_head r] → may_serve own_id env exclude exclude_draining (node_str (nc_node caps)).
Proof.
  intros Hp. apply poll_peers_from in Hp as (all & Hall & ->). simpl. rewrite elem_of_app, list_elem_of_singleton.
  intros [(x & -> & (Hx & Hm)%budgeted_elem)%list_elem_of_fmap| ->]; [|by left]. right.
  apply list_elem_of_filter in Hx as [(H1 & H2 & H3)%eligible_spec Hx]. exists all, x.1. split_and!; try done.
  unfold missing_budget. by rewrite Hm.
Qed.

(** C11: Planning a load on measured inputs never panics, and a plan it returns
    covers all layers of the model file, gives layers only to the head and to
    peers that some poll showed connected, with a budget, not among the
    excluded nodes and, when draining ones are dropped, not draining; a
    distributed plan carries the next epoch, which is then used up, and a solo
    plan runs on the head and uses none. *)
Theorem plan_load_sound own_id env name size forced exclude exclude_draining cl :
  env_ok env size forced →
  (plan_load own_id env name size forced exclude exclude_draining cl).1 ≠ Panic ∧
  ∀ pl cl', plan_load own_id env name size forced exclude exclude_draining cl = (Ok pl, cl') →
    (∃ file header dims, le_file env = Some file ∧ parse file = Ok header ∧ model_dims header size = Ok dims
       ∧ placement_ok (md_n_layers dims) (pl_plan pl))
    ∧ (∀ a, a ∈ p_assignments (pl_plan pl) → may_serve own_id env exclude exclude_draining (node_str (a_node a)))
    ∧ p_model (pl_plan pl) = name
    ∧ (if bool_decide (p_strategy (pl_plan pl) = Solo)
       then cl' = cl ∧ ∀ a, a ∈ p_assignments (pl_plan pl) → node_str (a_node a) = own_id
       else p_epoch (pl_plan pl) = MkEpoch (u64_add (cs_epoch_counter cl) 1) ∧ cl' = (next_epoch cl).2).
Proof.
  intros He. unfold plan_load.
  destruct (le_head_usable env) as [hu|] eqn:Eh; [|done]. cbn [ok_or mbind res_bind].
  destruct (poll_peers _ _ _) as [peers|] eqn:Ep; [|done]. cbn [ok_or mbind res_bind].
  destruct (le_file env) as [file|] eqn:Ef; [|done]. cbn [ok_or mbind res_bind]. pose proof (ek_file _ _ _ He _ Ef) as Hlen.
  rewrite read_gguf_header_exact by done. destruct (parse file) as [header|e|] eqn:Eparse; [|done|by apply parse_total in Eparse].
  cbn [map_err mbind res_bind]. pose proof (model_dims_safe header size) as Hsafe.
  destruct (model_dims header size) as [dims|e|] eqn:Ed; [|done|done]. cbn [map_err mbind res_bind].
  destruct (model_dims_spec header size dims (parse_fields file header Hlen Eparse) (ek_size _ _ _ He) Ed) as [Hd _].
  assert (Hr : request_v2_ok (load_request own_id env forced hu dims peers)).
  { apply poll_peers_from in Ep as Hp. destruct Hp as (all & Hall & ->). destruct (ek_peers _ _ _ He all Hall) as [Hn Hok].
    rewrite list.Forall_forall in Hok. eapply load_request_ok; [done|done|done| |].
    { apply list.Forall_forall. intros p [_ Hp]%list_elem_of_filter. by apply Hok. }
    pose proof (length_filter (λ p, eligible exclude exclude_draining p = true) all). lia. }
  destruct (plan_v2_answers _ Hr) as [Hnp Hok]. set (r := load_request own_id env forced hu dims peers) in *.
  destruct (plan_v2 r) as [placed|e|] eqn:Epl; [|done|done]. cbn [map_err mbind res_bind]. destruct (Hok placed eq_refl) as [Hpl Hwhere].
  unfold stamp. destruct Hwhere as [[Hs Ha]|[Hs Hn]]; rewrite Hs; simpl; (split; [done|]); intros pl cl' [= <- <-]; simpl;
    (split; [by exists file, header, dims|]).
  - rewrite Ha. split; [|split; [done|split; [done|]]]; intros a ->%list_elem_of_singleton; [by left|done].
  - split; [|done]. intros a (caps & Hc & ->)%Hn. by eapply load_request_nodes.
Qed.

(** ** Examples *)
Definition ex_peer (id : string) (state : PeerState) (memory : option Z) (draining : bool) : PeerStatus :=
  MkPeer id id state (Some (of_Z b64 3)) (Some (of_Z b64 900)) memory None (Some (of_Z b64 20)) draining.

(** A head without memory, one good worker, and peers that are lost, draining
    or suspect; the worker's budget arrives at the second poll. *)
Definition ex_peers (memory : option Z) : list PeerStatus :=
  [ex_peer "w" Connected memory false; ex_peer "x" Connected (Some (2 ^ 33)) false; ex_peer "d" Connected (Some (2 ^ 33)) true;
   ex_peer "s" Suspect (Some (2 ^ 33)) false].
Definition ex_env : LoadEnv :=
  MkLoadEnv (Some 0) [Some (ex_peers None); Some (ex_peers (Some (2 ^ 33)))] None (Some ex_moe_file) None None false 4096 0.

Definition ex_load : res PlanLoadError PlannedLoad * ClusterState :=
  plan_load "h" ex_env "m" (len ex_moe_file) None {["x"]} true cluster_new.

Lemma ex_peer_ok id state memory draining : (∀ m, memory = Some m → in_u64 m) → peer_ok (ex_peer id state memory draining).
Proof.
  intros Hm. split; simpl; [done| |].
  - intros d [= <-] _. refine (pos_decode_ok (MkCaps (MkNodeId id) 0 (Some (MkCompute (of_Z b64 20) (of_Z b64 20))) false) _ _ _);
      vm_compute; done.
  - intros d [= <-]. score_ok_tac.
Qed.

Lemma ex_env_ok : env_ok ex_env (len ex_moe_file) None.
Proof.
  assert (Hp : ∀ memory, (∀ m, memory = Some m → in_u64 m) → Forall peer_ok (ex_peers memory)).
  { intros memory Hm. unfold ex_peers.
    repeat (apply Forall_cons; split; [apply ex_peer_ok; (done || (intros m [= <-]; unfold in_u64; lia))|]). constructor. }
  assert (Hlen : len ex_moe_file < 2 ^ 63) by (apply Z.ltb_lt; vm_compute; reflexivity).
  pose proof (len_nonneg ex_moe_file) as Hpos. split.
  - intros f Hf. unfold ex_env in Hf. cbn [le_file] in Hf. injection Hf as <-. exact Hlen.
  - lia.
  - intros m Hm. unfold ex_env in Hm. cbn [le_head_usable] in Hm. injection Hm as <-. unfold in_u64. lia.
  - done.
  - intros all [Hin|Hd]; [|done]. unfold ex_env in Hin. cbn [le_polls] in Hin. rewrite !elem_of_cons, elem_of_nil in Hin.
    destruct Hin as [Hin|[Hin|[]]]; injection Hin as ->; (split; [cbn; lia|apply Hp; intros m Hm]); [done|].
    injection Hm as <-. unfold in_u64. lia.
  - done.
  - cbn [ex_env le_n_ubatch]. lia.
Qed.

Definition assigns (o : res PlanLoadError PlannedLoad * ClusterState) (epoch : Z) (l : list Assignment) : bool :=
  match o with
  | (Ok pl, _) => bool_decide (p_assignments (pl_plan pl) = l) && (epoch_num (p_epoch (pl_plan pl)) =? epoch)
  | _ => false
  end.
Lemma assigns_spec o epoch l :
  assigns o epoch l = true →
  ∃ pl cl', o = (Ok pl, cl') ∧ p_assignments (pl_plan pl) = l ∧ epoch_num (p_epoch (pl_plan pl)) = epoch.
Proof. destruct o as [[pl| |] cl']; try done. simpl. rewrite andb_true_iff, bool_decide_eq_true, Z.eqb_eq. by exists pl, cl'. Qed.

Lemma ex_load_assigns : assigns ex_load 1 [MkAssignment (MkNodeId "w") (MkLayerRange 0 2) 0] = true.
Proof. vm_compute. reflexivity. Qed.

Lemma plan_load_sound_witness :
  ∃ pl cl', ex_load = (Ok pl, cl') ∧ p_assignments (pl_plan pl) = [MkAssignment (MkNodeId "w") (MkLayerRange 0 2) 0]
    ∧ epoch_num (p_epoch (pl_plan pl)) = 1
    ∧ ∀ a, a ∈ p_assignments (pl_plan pl) → may_serve "h" ex_env {["x"]} true (node_str (a_node a)).
Proof.
  destruct (assigns_spec _ _ _ ex_load_assigns) as (pl & cl' & E & Ha & He). exists pl, cl'. split; [exact E|]. split; [exact Ha|]. split; [exact He|].
  exact (proj1 (proj2 (proj2 (plan_load_sound "h" ex_env "m" (len ex_moe_file) None {["x"]} true cluster_new ex_env_ok) pl cl' E))).
Defined.
