(* ===== verification/PlanFigures.v ===== *)
(** * The figures shown for a plan

    [predicted_tpt_ms] of [server.rs] recomputes the scheduler's time per
    token from the final assignments and the request.  It is the very number
    the search of [v2.rs] ranked the plan by. *)

From Stdlib Require Import ZArith Lia QArith.
From stdpp Require Import base list strings option gmap.
From S2P Require Import Prelude Float FloatFacts Proto SchedLib Dims SchedV1 Apportion StageOrder.
From S2P Require Import PlanCore SchedV2 PlanV1 PlanV2 PlanV2Sound PlanLoad.

Open Scope Z_scope.

(** ** The slowest rate does not depend on the order of the nodes *)

(** Rates that compare equal are the same double. *)
Definition canonical (l : list fl) : Prop := ∀ x y, x ∈ l → y ∈ l → feq x y = true → x = y.

Definition least (m : fl) (l : list fl) : Prop := m ∈ l ∧ ∀ x, x ∈ l → (fval m <= fval x)%Q.

Lemma fmin_cases x y : nn x → nn y → (fmin x y = x ∧ fval x <= fval y)%Q ∨ (fmin x y = y ∧ fval y <= fval x)%Q.
Proof.
  intros Hx Hy. assert (Hm : fmin x y = if flt y x then y else x) by (by destruct x, y).
  rewrite Hm. destruct (flt y x) eqn:E.
  - right. split; [done|]. apply flt_nn in E; [|done|done]. by apply Qlt_le_weak.
  - left. split; [done|]. apply Qnot_lt_le. intros H. apply flt_nn in H; [congruence|done|done].
Qed.

Lemma fold_fmin_least a l : nn a → Forall nn l → least (foldl fmin a l) (a :: l).
Proof.
  revert a. induction l as [|x l IH]; intros a Ha Hl; simpl.
  { split; [by left|]. intros x ->%list_elem_of_singleton. apply Qle_refl. }
  apply Forall_cons in Hl as [Hx Hl].
  destruct (fmin_cases a x Ha Hx) as [[-> Hle]|[-> Hle]]; [destruct (IH a Ha Hl) as [H1 H2]|destruct (IH x Hx Hl) as [H1 H2]].
  - split; [set_solver|]. intros y [->|[->|Hy]%elem_of_cons]%elem_of_cons; [apply H2; by left| |apply H2; by right].
    eapply Qle_trans; [|exact Hle]. apply H2. by left.
  - split; [set_solver|]. intros y [->|[->|Hy]%elem_of_cons]%elem_of_cons; [|apply H2; by left|apply H2; by right].
    eapply Qle_trans; [|exact Hle]. apply H2. by left.
Qed.

Lemma fold_fmin_NaN l : Forall nn l → l ≠ [] → least (foldl fmin NaN l) l.
Proof. destruct l as [|x l]; [done|]. intros [Hx Hl]%Forall_cons _. simpl. by apply fold_fmin_least. Qed.

Lemma least_unique l m m' : Forall nn l → canonical l → least m l → least m' l → m = m'.
Proof.
  intros Hl Hc [H1 H2] [H1' H2']. rewrite list.Forall_forall in Hl. apply Hc; [done|done|]. apply feq_nn; [by apply Hl..|].
  apply Qle_antisym; [by apply H2|by apply H2'].
Qed.

Lemma fold_fmin_perm l l' : Forall nn l → canonical l → l ≡ₚ l' → foldl fmin NaN l = foldl fmin NaN l'.
Proof.
  intros Hl Hc Hp. destruct l as [|x l].
  { apply Permutation_nil_l in Hp as <-. done. }
  assert (Hne : l' ≠ []) by (intros ->; by apply Permutation_nil_r in Hp). apply (least_unique (x :: l)); [done|done|by apply fold_fmin_NaN|].
  destruct (fold_fmin_NaN l') as [H1 H2]; [by rewrite <- Hp|done|]. split; [by rewrite Hp|]. intros y Hy. apply H2. by rewrite <- Hp.
Qed.

(** ** The search returns a priced candidate *)
Lemma fold_res_keeps {E A S} (P : S → Prop) (f : S → A → res E S) s l s' :
  (∀ s x s', P s → f s x = Ok s' → P s') → P s → fold_res f s l = Ok s' → P s'.
Proof.
  intros Hf. revert s. induction l as [|x l IH]; intros s Hs H; simpl in H; [by injection H as <-|]. res_inv. eapply IH; [|done]. by eapply Hf.
Qed.

Section priced.
Context (set : list Cand) (links : list LinkRtt) (dims : ModelDims) (n_ubatch : Z).

Definition priced (x : V2Eval) : Prop := ∃ fc variants, price set links dims n_ubatch fc variants (v2_order x) = Ok x ∧ v2_counts x = fc_counts fc.

Lemma price_priced fc variants order x : price set links dims n_ubatch fc variants order = Ok x → priced x.
Proof.
  intros H. pose proof H as H'. unfold price in H'. destruct (map_res _ _) as [hops| |]; simpl in H'; try discriminate.
  destruct (fold_res _ _ _) as [[c ms]| |]; simpl in H'; try discriminate. injection H' as <-. exists fc, variants. done.
Qed.

Lemma search_priced n b :
  search_v2 set links dims n_ubatch n = Ok (Some b) →
  ∃ x, priced x ∧ v2_tpt b = v2_tpt x ∧ v2_counts b = v2_counts x ∧ v2_order b = v2_order x.
Proof.
  unfold search_v2. intros H. destruct (family_counts set n) as [family| |]; simpl in H; try discriminate.
  destruct (fold_res _ _ _) as [[considered best]| |] eqn:Ef; simpl in H; try discriminate.
  destruct best as [x|]; [|done]. injection H as <-. exists x. split; [|done].
  refine (fold_res_keeps (λ st : Z * option V2Eval, ∀ x, st.2 = Some x → priced x) _ _ _ _ _ _ Ef x eq_refl); [|done].
  intros st fc st' Hst Hv. unfold variant_step in Hv. destruct (enumerate_orders _ _ _) as [orders| |]; simpl in Hv; try discriminate.
  eapply (fold_res_keeps (λ st : Z * option V2Eval, ∀ x, st.2 = Some x → priced x)); [|exact Hst|exact Hv].
  intros s1 order s2 Hs Ho. unfold order_step in Ho. destruct (price _ _ _ _ _ _ _) as [y| |] eqn:Ep; simpl in Ho; try discriminate.
  injection Ho as <-. apply price_priced in Ep. intros z Hz. simpl in Hz. unfold consider in Hz.
  destruct (s1.2) as [b|] eqn:Eb; [destruct (v2_better y b)|]; injection Hz as <-; [done|by apply Hs|done].
Qed.
End priced.

(** ** Rates *)
Lemma find_node l caps : NoDup (nc_node <$> l) → caps ∈ l → find_first (λ c, bool_decide (nc_node c = nc_node caps)) l = Some caps.
Proof.
  intros Hnd. induction l as [|x l IH]; [set_solver|]. apply NoDup_cons in Hnd as [Hx Hl]. intros Hc. unfold find_first in *. cbn [list_find].
  destruct (decide (nc_node x = nc_node caps)) as [E|E].
  - rewrite decide_True by (by apply bool_decide_eq_true). apply elem_of_cons in Hc as [->|Hc]; [done|].
    destruct Hx. rewrite E. apply list_elem_of_fmap. eauto.
  - rewrite decide_False by (by rewrite bool_decide_eq_true). apply elem_of_cons in Hc as [->|Hc]; [done|].
    rewrite <- (IH Hl Hc). by destruct (list_find _ l) as [[]|].
Qed.

Lemma omap_perm {A B} (f : A → option B) l l' : l ≡ₚ l' → omap f l ≡ₚ omap f l'.
Proof. induction 1 as [|x l l' _ IH|x y l|l1 l2 l3 _ IH1 _ IH2]; simpl; try done; [by destruct (f x); rewrite IH|by destruct (f x), (f y); try constructor|by rewrite IH1]. Qed.

Section figures.
Context (r : PlanRequest) (Hr : request_ok r).
Let nodes := pr_workers r ++ [pr_head r].
Let rates := omap pos_decode nodes.

Context (Hcan : canonical rates).

Lemma rates_nn : Forall nn rates.
Proof using Hr.
  apply list.Forall_forall. intros d (c & Hc & Hd)%list_elem_of_omap. pose proof (rq_caps r Hr) as Hok. rewrite list.Forall_forall in Hok.
  destruct (Hok c Hc) as [_ H]. by destruct (H d Hd).
Qed.

Lemma nodes_perm : pr_head r :: pr_workers r ≡ₚ nodes.
Proof using. unfold nodes. by rewrite Permutation_app_comm. Qed.

Lemma min_decode_same : min_decode r = foldl fmin NaN rates.
Proof using Hr Hcan.
  symmetry. apply fold_fmin_perm; [apply rates_nn|done|]. apply omap_perm. symmetry. apply nodes_perm.
Qed.

Lemma nn_finite x : nn x → is_finite x = true.
Proof. by destruct x. Qed.

Lemma min_decode_finite d : d ∈ rates → is_finite (min_decode r) = true.
Proof using Hr Hcan.
  intros Hd. rewrite min_decode_same. pose proof rates_nn as Hn. destruct (fold_fmin_NaN rates Hn) as [Hin _]; [by intros E; rewrite E in Hd; set_solver|].
  rewrite list.Forall_forall in Hn. by apply nn_finite, Hn.
Qed.

(** The nodes of the request are different. *)
Context (Hnd : NoDup (nc_node <$> nodes)).

(** A node's rate, or the slowest one, as the scheduler sees it. *)
Lemma decode_of_cand cost budget_of i c :
  build_cands nodes cost budget_of !! i = Some c → decode_of r (nc_node (cd_caps c)) = cd_tpt_decode c.
Proof using Hr Hnd Hcan.
  intros Hc. assert (Hin : cd_caps c ∈ pr_head r :: pr_workers r).
  { rewrite nodes_perm. apply build_cands_lookup in Hc as [Hc _]. by eapply list_elem_of_lookup_2. }
  unfold decode_of. rewrite find_node; [|by rewrite nodes_perm|done]. simpl. rewrite min_decode_same.
  unfold build_cands in Hc. rewrite list_lookup_imap in Hc. destruct (nodes !! i) as [caps|]; [|done]. injection Hc as <-. simpl. done.
Qed.

(** Every node has a rate, or none has. *)
Lemma decode_of_all : (∀ id, decode_of r id ≠ None) ∨ (∀ id, decode_of r id = None).
Proof using Hr Hcan.
  unfold decode_of. destruct (is_finite (min_decode r)) eqn:E; [left|right]; intros id; destruct (find_first _ _) as [c|] eqn:Ef; simpl;
    [by destruct (pos_decode c)|done| |done]. destruct (pos_decode c) as [d|] eqn:Ed; [|done]. exfalso.
  apply find_first_Some in Ef as [Hc _]. enough (is_finite (min_decode r) = true) by congruence. apply (min_decode_finite d).
  apply list_elem_of_omap. exists c. split; [|done]. rewrite <- nodes_perm. done.
Qed.

(** ** The same walk over the stages *)
Definition charge (ms : fl) (a : Assignment) : fl :=
  match decode_of r (a_node a) with Some _ => fmax ms (stage_compute_ms r a) | None => ms end.

Lemma charge_fmax l : foldl charge fzero l = foldl fmax fzero (stage_compute_ms r <$> l).
Proof using Hr Hcan.
  destruct decode_of_all as [H|H].
  - generalize fzero. induction l as [|a l IH]; intros ms; simpl; [done|]. rewrite IH. f_equal. unfold charge.
    specialize (H (a_node a)). by destruct (decode_of r (a_node a)).
  - assert (Hz : ∀ a, stage_compute_ms r a = fzero) by (intros a; unfold stage_compute_ms; by rewrite H).
    induction l as [|a l IH]; [done|]. cbn [foldl fmap list_fmap]. rewrite Hz. unfold charge at 2. rewrite H. exact IH.
Qed.

Context (cost : fl) (budget_of : Z → Z) (set : list Cand) (Hset : ∀ i c, set !! i = Some c → c ∈ build_cands nodes cost budget_of).

Definition stage_of (i : nat) (a : Assignment) : Prop := ∃ c, set !! i = Some c ∧ a_node a = nc_node (cd_caps c).

Lemma assemble_walk kv counts l st st' ms :
  fold_res (asm_step (pr_dims r) kv set counts) st l = Ok st' →
  ∃ l', as_assignments st' = as_assignments st ++ l' ∧ Forall2 stage_of l.*2 l'
    ∧ fold_res (compute_step set (pr_dims r) counts) (as_cursor st, ms) l.*2 = Ok (as_cursor st', foldl charge ms l').
Proof using Hr Hnd Hcan Hset.
  revert st ms. induction l as [|[stage i] l IH]; intros st ms H; simpl in H.
  { injection H as <-. exists []. split; [by rewrite app_nil_r|]. split; [constructor|done]. }
  unfold asm_step in H at 1. destruct (set !! i) as [c|] eqn:Ec; simpl in H; [|done].
  destruct (counts !! i) as [n|] eqn:En; simpl in H; [|done]. destruct (slice _ _ _) as [ws| |]; simpl in H; try discriminate.
  set (a := MkAssignment (nc_node (cd_caps c)) (MkLayerRange (as_cursor st) (u32_add (as_cursor st) n)) (wrap32 (Z.of_nat stage))) in H.
  apply (IH _ (charge ms a)) in H as (l' & Ha & Hf & Hw). exists (a :: l'). simpl in Ha. split; [by rewrite Ha, <- app_assoc|].
  split; [constructor; [by exists c|done]|].
  assert (Hch : charge ms a = match cd_tpt_decode c with
    | Some tps => fmax ms (fmul b64 (fdiv b64 (active_compute_units (pr_dims r) (as_cursor st) (u32_add (as_cursor st) n)) tps) f1000)
    | None => ms end).
  { destruct (list_elem_of_lookup_1 _ _ (Hset i c Ec)) as [k Hk]. pose proof (decode_of_cand _ _ _ _ Hk) as Hd.
    unfold charge, stage_compute_ms, a. simpl. rewrite Hd. by destruct (cd_tpt_decode c). }
  simpl. rewrite En, Ec. simpl. rewrite <- Hch. exact Hw.
Qed.

Lemma hops_walk n_ubatch order l hops :
  Forall2 stage_of order l → map_res (hop_cost set (pr_links r) (pr_dims r) n_ubatch) (windows2 order) = Ok hops →
  hops.*1 = (λ w : Assignment * Assignment, link_rtt (pr_links r) (a_node w.1) (a_node w.2)) <$> windows2 l.
Proof using.
  intros Hf. revert hops. induction Hf as [|i a order l (c & Hc & Ha) Hf IH]; intros hops H; simpl in H; [by injection H as <-|].
  destruct Hf as [|j b order l (d & Hd & Hb) Hf]; [by injection H as <-|]. cbn [windows2 map_res] in H.
  assert (Hhop : ∃ t, hop_cost set (pr_links r) (pr_dims r) n_ubatch (i, j) = Ok (link_rtt (pr_links r) (a_node a) (a_node b), t)).
  { eexists. unfold hop_cost. simpl. rewrite Hc, Hd, Ha, Hb. reflexivity. }
  destruct Hhop as [t Hhop]. rewrite Hhop in H.
  change (map_res (hop_cost set (pr_links r) (pr_dims r) n_ubatch) (windows2 (j :: order))
    ≫= (λ ys, Ok ((link_rtt (pr_links r) (a_node a) (a_node b), t) :: ys)) = Ok hops) in H.
  destruct (map_res _ (windows2 (j :: order))) as [hops'| |] eqn:Eh; cbn in H; try discriminate. injection H as <-.
  change (windows2 (a :: b :: l)) with ((a, b) :: windows2 (b :: l)). cbn [fmap list_fmap fst snd]. f_equal. by apply IH.
Qed.
End figures.

Lemma participants_elem cands selected parts i c : participants cands selected = Ok parts → parts !! i = Some c → c ∈ cands.
Proof.
  intros Hp%map_res_Forall2 Hi. apply (Forall2_lookup_r _ _ _ i c Hp) in Hi as (k & _ & Hk). destruct (cands !! k) as [d|] eqn:E; [|done].
  injection Hk as <-. by eapply list_elem_of_lookup_2.
Qed.

(** C12: The time per token shown for a distributed plan is, bit for bit, the
    one the scheduler's search ranked the plan by and printed in its
    explanation, although it is recomputed from the assignments: different
    node ids, and equal rates being the same double, are all it takes. *)
Theorem predicted_tpt_mirrors r pl :
  request_v2_ok r → NoDup (nc_node <$> pr_workers r ++ [pr_head r]) → canonical (omap pos_decode (pr_workers r ++ [pr_head r])) →
  plan_v2 r = Ok pl → p_strategy (pp_plan pl) = PipelineParallel →
  ∃ prefill, XDecodeCostV2 (predicted_tpt_ms (p_assignments (pp_plan pl)) r) prefill ∈ pp_explanation pl.
Proof.
  intros [Hr Hub] Hnd Hcan Hpl Hst. destruct (plan_v2_pipeline r pl Hpl Hst) as (forced & hb & req & kv & sf & _ & Hd).
  unfold distributed_v2 in Hd. destruct (select_workers _ _ _ _ _ _) as [[selected notes]| |]; simpl in Hd; try discriminate.
  destruct (participants _ _) as [set| |] eqn:Ep; simpl in Hd; try discriminate.
  destruct (search_v2 _ _ _ _ _) as [o| |] eqn:Es; simpl in Hd; try discriminate. destruct o as [eval|]; [|done].
  destruct (assemble _ _ _ _ _) as [st| |] eqn:Ea; simpl in Hd; try discriminate. injection Hd as <-. simpl.
  exists (v2_prefill_cost eval).
  destruct (search_priced _ _ _ _ _ _ Es) as (x & (fc & variants & Hx & Hcx) & Ht & Hc & Ho).
  unfold assemble in Ea. rewrite Hc, Hcx, Ho in Ea.
  destruct (assemble_walk r Hr Hcan Hnd _ _ set (λ i c, participants_elem _ _ _ i c Ep) kv (fc_counts fc) (enumerate (v2_order x))
    (MkAsm [] [] [] None 0) st fzero Ea) as (l & Hl & Hf & Hw). simpl in Hl, Hw.
  assert (He : (enumerate (v2_order x)).*2 = v2_order x) by (unfold enumerate; apply snd_zip; by rewrite length_seq).
  rewrite He in Hf, Hw. unfold price in Hx. destruct (map_res _ _) as [hops| |] eqn:Eh; simpl in Hx; try discriminate.
  rewrite Hw in Hx. simpl in Hx. injection Hx as Hx.
  assert (predicted_tpt_ms (as_assignments st) r = v2_tpt eval) as ->.
  { rewrite Ht, <- Hx. simpl. unfold predicted_tpt_ms. by rewrite Hl, <- (hops_walk r set _ _ _ _ Hf Eh), <- (charge_fmax r Hr Hcan). }
  set_solver.
Qed.

(** ** Examples *)
Lemma ex_rates_canonical : canonical (omap pos_decode (pr_workers (ex_request 12) ++ [pr_head (ex_request 12)])).
Proof.
  assert (Hl : omap pos_decode (pr_workers (ex_request 12) ++ [pr_head (ex_request 12)]) = [of_Z b64 20; of_Z b64 40]) by (vm_compute; reflexivity).
  assert (H1 : feq (of_Z b64 20) (of_Z b64 40) = false) by (vm_compute; reflexivity).
  assert (H2 : feq (of_Z b64 40) (of_Z b64 20) = false) by (vm_compute; reflexivity).
  rewrite Hl. intros x y. rewrite !elem_of_cons, !elem_of_nil. intros [->|[->|[]]] [->|[->|[]]] He; congruence.
Qed.

Lemma predicted_tpt_mirrors_witness :
  ∃ pl prefill, plan_v2 (ex_request 12) = Ok pl ∧ p_assignments (pp_plan pl) = ex_assignments 9
    ∧ XDecodeCostV2 (predicted_tpt_ms (ex_assignments 9) (ex_request 12)) prefill ∈ pp_explanation pl.
Proof.
  destruct (answers_spec _ _ ex_plan_v2) as (pl & H & Hs & Ha). exists pl.
  destruct (predicted_tpt_mirrors (ex_request 12) pl) as (prefill & Hp).
  - exact (conj (ex_request_ok 12 ltac:(lia)) (Z.le_refl 0)).
  - apply (bool_decide_unpack _). vm_compute. exact I.
  - apply ex_rates_canonical.
  - exact H.
  - exact Hs.
  - exists prefill. rewrite <- Ha. by split_and!.
Defined.
