(* ===== verification/Supervisor.v ===== *)
(** * The job supervisor

    Models [crates/onebraind/src/supervisor.rs] with the plan activation of
    [server.rs] it drives: every generation runs in a task of its own, and an
    interrupted one retries once, led by the first task that takes the retry
    ledger.  A task's code between two awaits is one step; other tasks, user
    loads, peer events and the engine host run in between.  The engine host
    takes its messages in order: a generation runs on the model loaded when
    its message is taken.  Plans come from [plan_load], on whatever the peers,
    the model file and the measurements are then.  Log lines and the texts of
    errors are left out. *)

From Stdlib Require Import ZArith Lia.
From stdpp Require Import base list strings option gmap.
From S2P Require Import Prelude Float Proto SchedLib Cluster PlanLoad.

Open Scope Z_scope.

Definition RETAIN_EPOCHS : Z := 32.

(** ** Decisions *)
Inductive InterruptedAction := RetryOnce | FailTyped.

Definition decide_interrupted (retries_used : nat) : InterruptedAction :=
  if (retries_used =? 0)%nat then RetryOnce else FailTyped.

(** Errors a job's stream ends with. *)
Inductive SupError :=
  | LostNode (lost : string) (needs_mb have_mb : Z)
  | RetryExhausted (lost : string)
  | Unidentified
  | PlanFailed
  | ReloadFailed
  | GenerationFailed
  | ShuttingDown.

Inductive EpochOutcome := Reloaded (lost : string) | EpochLost (message : SupError).

Abbreviation RetryLedger := (gmap Z EpochOutcome).

(** Insert, then keep the records of the last epochs. *)
Definition record_outcome (failed_epoch : option Z) (o : EpochOutcome) (ledger : RetryLedger) : RetryLedger :=
  match failed_epoch with
  | None => ledger
  | Some epoch => filter (λ x, epoch < u64_add x.1 RETAIN_EPOCHS) (<[epoch := o]> ledger)
  end.

Fixpoint str_take_chars (n : nat) (s : string) : string :=
  match n, s with
  | S n, String.String c s => String.String c (str_take_chars n s)
  | _, _ => ""
  end.

(** The display name of a peer, else the first eight characters of its id
    (which is ASCII). *)
Definition name_of (peers : list PeerStatus) (id : string) : string :=
  match list_find (λ p, ps_id p = id) peers with
  | Some (_, p) => ps_name p
  | None => str_take_chars 8 id
  end.

Definition alive (peers : list PeerStatus) (id : string) : bool :=
  match list_find (λ p, ps_id p = id) peers with
  | Some (_, p) => bool_decide (ps_state p = Connected) && negb (ps_draining p)
  | None => false
  end.

Definition lost_node_label (assignments : list Assignment) (own_id : string) (lost_ids : gset string)
    (peers : list PeerStatus) : string :=
  let workers := filter (λ w, w ≠ own_id) (node_str ∘ a_node <$> assignments) in
  match list_find (λ w, w ∈ lost_ids) workers with
  | Some (_, w) => name_of peers w
  | None =>
      match list_find (λ w, alive peers w = false) workers with
      | Some (_, w) => name_of peers w
      | None => match workers with w :: _ => name_of peers w | [] => "unknown" end
      end
  end.

(** What a task does once it holds the ledger. *)
Inductive Verdict :=
  | VReissue (counted : bool)
  | VFail (e : SupError)
  | VLead.

Definition active_epoch (s : ClusterState) : option Z := epoch_num ∘ p_epoch ∘ av_plan <$> cs_active s.

(** The follower path; [VLead] falls through to the failure lifecycle. *)
Definition resolve_follower (retries_used : nat) (attempt_epoch : option Z) (cl : ClusterState) (ledger : RetryLedger) : Verdict :=
  match attempt_epoch with
  | None => VLead
  | Some epoch =>
      if bool_decide (active_epoch cl = Some epoch) then VLead else
      match ledger !! epoch with
      | Some (Reloaded lost) =>
          match decide_interrupted retries_used with
          | FailTyped => VFail (RetryExhausted lost)
          | RetryOnce => VReissue true
          end
      | Some (EpochLost message) => VFail message
      | None =>
          match decide_interrupted retries_used, cs_loaded_source cl with
          | RetryOnce, Some _ => VReissue false
          | _, _ => VFail GenerationFailed
          end
      end
  end.

(** ** The system *)

(** A task of a job.  [retries] is [retries_used]; a leader carries the plan
    that failed and the source of its model; [TClosing] is about to end, by an
    error of the supervisor's or by what the host reported; a task that
    panicked gives back the ledger but not its count. *)
Inductive Task :=
  | TNext (retries : nat)
  | TSnap (retries : nat) (epoch : option Z)
  | TSent (retries : nat) (epoch : option Z)
  | TInterrupted (retries : nat) (epoch : option Z)
  | TUnloading (retries : nat) (failed : option ActivePlanView) (source : option LoadedSource)
  | TUnloaded (retries : nat) (failed : option ActivePlanView) (source : option LoadedSource)
  | TPlanning (retries : nat) (failed_epoch : option Z) (lost : string) (lost_ids : gset string) (source : LoadedSource)
  | TActivating (retries : nat) (failed_epoch : option Z) (lost : string) (source : LoadedSource) (plan : Plan)
  | TReloading (retries : nat) (failed_epoch : option Z) (lost : string) (source : LoadedSource) (plan : Plan)
      (answer : option bool)
  | TClosing (e : option SupError)
  | TPanicked
  | TEnded (e : option SupError).

(** Who waits for the answer to a load. *)
Inductive Loader := LTask (job : nat) | LUser (load : nat).

(** The messages of the engine host: a job's generation, a load of a plan, an
    unload. *)
Inductive HostItem := HGenerate (job : nat) | HLoad (plan : Plan) (by_ : Loader) | HUnload.

(** A load outside the retry path. *)
Record Load := MkLoad { ld_plan : Plan; ld_source : LoadedSource; ld_sent : bool; ld_answer : option bool }.

(** Who holds the ledger: the leader of an interruption, a rejoin re-plan with
    the source and the plan it started from or with its load, or the teardown
    of a failed epoch without jobs. *)
Inductive Holder :=
  | ByTask (job : nat)
  | ByReplan (source : LoadedSource) (active : Plan)
  | ByRejoin (load : nat)
  | ByTeardown.

(** [su_model] is the plan whose model the host has loaded, [su_running] the
    generations it took for it; [su_jobs] counts jobs for the idle probe,
    [su_refused] submissions over the limit that are still counted,
    [su_rejoins] rejoin requests that wait for the ledger. *)
Record Sup := MkSupState {
  su_cluster : ClusterState;
  su_ledger : RetryLedger;
  su_lock : option Holder;
  su_jobs : nat;
  su_refused : nat;
  su_rejoins : nat;
  su_tasks : gmap nat Task;
  su_loads : gmap nat Load;
  su_queue : list HostItem;
  su_model : option Plan;
  su_running : list nat }.

Definition set_task (j : nat) (t : Task) (s : Sup) : Sup :=
  MkSupState (su_cluster s) (su_ledger s) (su_lock s) (su_jobs s) (su_refused s) (su_rejoins s) (<[j := t]> (su_tasks s)) (su_loads s) (su_queue s) (su_model s) (su_running s).
Definition set_tasks (m : gmap nat Task) (s : Sup) : Sup :=
  MkSupState (su_cluster s) (su_ledger s) (su_lock s) (su_jobs s) (su_refused s) (su_rejoins s) m (su_loads s) (su_queue s) (su_model s) (su_running s).
Definition set_cluster (c : ClusterState) (s : Sup) : Sup :=
  MkSupState c (su_ledger s) (su_lock s) (su_jobs s) (su_refused s) (su_rejoins s) (su_tasks s) (su_loads s) (su_queue s) (su_model s) (su_running s).
Definition set_ledger (l : RetryLedger) (s : Sup) : Sup :=
  MkSupState (su_cluster s) l (su_lock s) (su_jobs s) (su_refused s) (su_rejoins s) (su_tasks s) (su_loads s) (su_queue s) (su_model s) (su_running s).
Definition set_lock (l : option Holder) (s : Sup) : Sup :=
  MkSupState (su_cluster s) (su_ledger s) l (su_jobs s) (su_refused s) (su_rejoins s) (su_tasks s) (su_loads s) (su_queue s) (su_model s) (su_running s).
Definition set_jobs (n : nat) (s : Sup) : Sup :=
  MkSupState (su_cluster s) (su_ledger s) (su_lock s) n (su_refused s) (su_rejoins s) (su_tasks s) (su_loads s) (su_queue s) (su_model s) (su_running s).
Definition set_refused (n : nat) (s : Sup) : Sup :=
  MkSupState (su_cluster s) (su_ledger s) (su_lock s) (su_jobs s) n (su_rejoins s) (su_tasks s) (su_loads s) (su_queue s) (su_model s) (su_running s).
Definition set_rejoins (n : nat) (s : Sup) : Sup :=
  MkSupState (su_cluster s) (su_ledger s) (su_lock s) (su_jobs s) (su_refused s) n (su_tasks s) (su_loads s) (su_queue s) (su_model s) (su_running s).
Definition set_loads (m : gmap nat Load) (s : Sup) : Sup :=
  MkSupState (su_cluster s) (su_ledger s) (su_lock s) (su_jobs s) (su_refused s) (su_rejoins s) (su_tasks s) m (su_queue s) (su_model s) (su_running s).
Definition set_host (q : list HostItem) (m : option Plan) (r : list nat) (s : Sup) : Sup :=
  MkSupState (su_cluster s) (su_ledger s) (su_lock s) (su_jobs s) (su_refused s) (su_rejoins s) (su_tasks s) (su_loads s) q m r.

Definition send (i : HostItem) (s : Sup) : Sup := set_host (su_queue s ++ [i]) (su_model s) (su_running s) s.

(** The job's stream gets its error; then the task ends and leaves the count. *)
Definition fail_job (j : nat) (e : SupError) (s : Sup) : Sup := set_task j (TClosing (Some e)) s.

Definition job_finished (j : nat) (e : option SupError) (s : Sup) : Sup :=
  set_jobs (su_jobs s - 1) (set_task j (TEnded e) s).

(** The gateway counts a job and takes it back when the daemon is full. *)
Definition try_start_job (limit j : nat) (s : Sup) : Sup :=
  let s' := set_jobs (S (su_jobs s)) s in
  if (limit <=? su_jobs s)%nat then set_refused (S (su_refused s)) s' else set_task j (TNext 0) s'.

(** The leader gives up: the model is marked unloaded, the outcome recorded. *)
Definition give_up_epoch (j : nat) (failed_epoch : option Z) (e : SupError) (s : Sup) : Sup :=
  fail_job j e
    (set_lock None (set_ledger (record_outcome failed_epoch (EpochLost e) (su_ledger s))
                      (set_cluster (clear_loaded (su_cluster s)) s))).

(** An interrupted task takes the ledger. *)
Definition take_ledger (j retries : nat) (epoch : option Z) (s : Sup) : Sup :=
  let cl := su_cluster s in
  match resolve_follower retries epoch cl (su_ledger s) with
  | VReissue counted => set_task j (TNext (if counted then S retries else retries)) s
  | VFail e => fail_job j e s
  | VLead =>
      let failed := cs_active cl in
      let cl' := match active_epoch cl with Some e => (mark_epoch_failed e None cl).2 | None => cl end in
      send HUnload (set_task j (TUnloading retries failed (cs_loaded_source cl)) (set_lock (Some (ByTask j)) (set_cluster cl' s)))
  end.

(** The unload was confirmed, or did not come within its time. *)
Definition teardown (j retries : nat) (failed : option ActivePlanView) (source : option LoadedSource) (s : Sup) : Sup :=
  set_task j (TUnloaded retries failed source) (set_cluster (set_active None (teardown_head_bridges (su_cluster s))) s).

(** With the peers known, the leader names the lost node and decides. *)
Definition decide_leader (own_id : string) (peers : list PeerStatus) (j retries : nat) (failed : option ActivePlanView)
    (source : option LoadedSource) (s : Sup) : Sup :=
  let failed_epoch := epoch_num ∘ p_epoch ∘ av_plan <$> failed in
  let lost_ids := match failed_epoch with Some e => epoch_lost_peers e (su_cluster s) | None => ∅ end in
  let lost := match failed with
              | Some a => lost_node_label (p_assignments (av_plan a)) own_id lost_ids peers
              | None => "unknown"
              end in
  match decide_interrupted retries with
  | FailTyped => give_up_epoch j failed_epoch (RetryExhausted lost) s
  | RetryOnce =>
      match source with
      | None => give_up_epoch j failed_epoch Unidentified s
      | Some src => set_task j (TPlanning retries failed_epoch lost lost_ids src) s
      end
  end.

(** The leader re-plans without the lost and the draining nodes. *)
Definition replan (own_id : string) (env : LoadEnv) (j retries : nat) (failed_epoch : option Z) (lost : string)
    (lost_ids : gset string) (source : LoadedSource) (s : Sup) : Sup :=
  let '(planned, cl) := plan_load own_id env (ls_name source) (ls_size_bytes source) None lost_ids true (su_cluster s) in
  let s := set_cluster cl s in
  match planned with
  | Ok pl => set_task j (TActivating retries failed_epoch lost source (pl_plan pl)) s
  | Err (LoadDoesNotFit required available) => give_up_epoch j failed_epoch (LostNode lost required available) s
  | Err LoadOther => give_up_epoch j failed_epoch PlanFailed s
  | Panic => set_task j TPanicked (set_lock None s)
  end.

(** With the workers' acknowledgements and bridges, the load is sent. *)
Definition activate (ready : bool) (j retries : nat) (failed_epoch : option Z) (lost : string) (source : LoadedSource) (plan : Plan)
    (s : Sup) : Sup :=
  if ready then send (HLoad plan (LTask j)) (set_task j (TReloading retries failed_epoch lost source plan None) s)
  else give_up_epoch j failed_epoch ReloadFailed s.

(** A load that succeeded: the plan becomes the active one, with a bridge to
    each of its workers. *)
Definition install (own_id : string) (plan : Plan) (source : LoadedSource) (cl : ClusterState) : ClusterState :=
  let bridges := filter (λ w, w ≠ own_id) (node_str ∘ a_node <$> p_assignments plan) in
  note_loaded source (set_active (Some (MkView "head" plan)) (replace_head_bridges bridges cl)).

(** The answer of the reload. *)
Definition reloaded (own_id : string) (ok : bool) (j retries : nat) (failed_epoch : option Z) (lost : string) (source : LoadedSource) (plan : Plan)
    (s : Sup) : Sup :=
  if ok then
    set_task j (TNext (S retries))
      (set_lock None (set_ledger (record_outcome failed_epoch (Reloaded lost) (su_ledger s))
                        (set_cluster (install own_id plan source (su_cluster s)) s)))
  else give_up_epoch j failed_epoch ReloadFailed s.

(** The no-job teardown applies to the active epoch of an idle head. *)
Definition epoch_failed_applies (epoch : Z) (s : Sup) : bool :=
  match cs_active (su_cluster s) with
  | None => false
  | Some a => String.eqb (av_role a) "head" && (epoch_num (p_epoch (av_plan a)) =? epoch) && (su_jobs s =? 0)%nat
  end.

(** The rejoin re-plan, once it holds the ledger. *)
Inductive Rejoin := RejoinMoot | RejoinDefer | RejoinPlan (source : LoadedSource) (active : Plan).

Definition rejoin_decision (s : Sup) : Rejoin :=
  match cs_loaded_source (su_cluster s), cs_active (su_cluster s) with
  | Some source, Some a =>
      if negb (String.eqb (av_role a) "head") then RejoinMoot
      else if negb (su_jobs s =? 0)%nat then RejoinDefer
      else RejoinPlan source (av_plan a)
  | _, _ => RejoinMoot
  end.

Definition take_rejoin (s : Sup) : Sup :=
  let '(requested, cl) := take_rejoin_request (su_cluster s) in
  if requested then set_rejoins (S (su_rejoins s)) (set_cluster cl s) else s.

Definition rejoin (s : Sup) : Sup :=
  match rejoin_decision s with
  | RejoinMoot => s
  | RejoinDefer => set_cluster (defer_rejoin_request (su_cluster s)) s
  | RejoinPlan source active => set_lock (Some (ByReplan source active)) s
  end.

(** A re-plan that keeps strategy and assignments is dropped. *)
Definition same_placement (p q : Plan) : bool :=
  bool_decide (p_strategy p = p_strategy q) && bool_decide (p_assignments p = p_assignments q).

(** A load outside the retry path is sent once its workers are ready. *)
Definition start_load (l : nat) (p : Plan) (source : LoadedSource) (s : Sup) : Sup :=
  set_loads (<[l := MkLoad p source false None]> (su_loads s)) s.

Definition user_load (own_id : string) (env : LoadEnv) (forced : option Z) (l : nat) (source : LoadedSource) (s : Sup) : Sup :=
  let '(planned, cl) := plan_load own_id env (ls_name source) (ls_size_bytes source) forced ∅ false (su_cluster s) in
  match planned with
  | Ok pl => start_load l (pl_plan pl) source (set_cluster cl s)
  | _ => set_cluster cl s
  end.

Definition rejoin_replan (own_id : string) (env : LoadEnv) (l : nat) (source : LoadedSource) (active : Plan) (s : Sup) : Sup :=
  let '(planned, cl) := plan_load own_id env (ls_name source) (ls_size_bytes source) None ∅ false (su_cluster s) in
  let s := set_cluster cl s in
  match planned with
  | Ok pl =>
      if same_placement (pl_plan pl) active then set_lock None s
      else start_load l (pl_plan pl) source (set_lock (Some (ByRejoin l)) s)
  | _ => set_lock None s
  end.

Definition send_load (l : nat) (ld : Load) (s : Sup) : Sup :=
  send (HLoad (ld_plan ld) (LUser l)) (set_loads (<[l := MkLoad (ld_plan ld) (ld_source ld) true None]> (su_loads s)) s).

(** The load is installed or undone: a user's load that was not sent changes
    nothing, the rejoin's gives the ledger back. *)
Definition holds_ledger (l : nat) (s : Sup) : bool := match su_lock s with Some (ByRejoin l') => (l' =? l)%nat | _ => false end.

Definition end_load (own_id : string) (l : nat) (ld : Load) (ok : bool) (s : Sup) : Sup :=
  let rejoin := holds_ledger l s in
  let cl := if ok then install own_id (ld_plan ld) (ld_source ld) (su_cluster s)
            else if ld_sent ld || rejoin then clear_loaded (su_cluster s) else su_cluster s in
  set_loads (delete l (su_loads s)) (set_cluster cl (if rejoin then set_lock None s else s)).

(** The host's answer to a load. *)
Definition answer (l : Loader) (ok : bool) (s : Sup) : Sup :=
  match l with
  | LTask j =>
      match su_tasks s !! j with
      | Some (TReloading r fe lost src p _) => set_task j (TReloading r fe lost src p (Some ok)) s
      | _ => s
      end
  | LUser l =>
      match su_loads s !! l with
      | Some ld => set_loads (<[l := MkLoad (ld_plan ld) (ld_source ld) (ld_sent ld) (Some ok)]> (su_loads s)) s
      | None => s
      end
  end.

(** A failed decode interrupts the generations that run. *)
Definition interrupt_all (tasks : gmap nat Task) (running : list nat) : gmap nat Task :=
  map_imap (λ j t, match t with
                   | TSent r e => Some (if bool_decide (j ∈ running) then TInterrupted r e else t)
                   | _ => Some t
                   end) tasks.

(** What the cluster task and the bridges do to the shared state. *)
Inductive outside : ClusterState → ClusterState → Prop :=
  | out_ack cl peer epoch ready detail : outside cl (record_ack peer epoch ready detail cl)
  | out_peer cl peer state : outside cl (handle_peer_event peer state cl).1
  | out_tear cl peer epoch : outside cl (mark_epoch_failed epoch (Some peer) cl).2
  | out_adopt cl plan shard : outside cl (set_worker_shard (Some shard) (set_active (Some (MkView "worker" plan)) cl))
  | out_shard cl shard : outside cl (set_worker_shard (Some shard) cl)
  | out_retire cl epoch : outside cl (clear_worker_shard_for epoch cl).

Section steps.
Variable own_id : string.
Variable limit : nat.

Inductive sup_step : Sup → Sup → Prop :=
  (** The gateway. *)
  | step_submit s j : su_tasks s !! j = None → sup_step s (try_start_job limit j s)
  | step_refused s n : su_refused s = S n → sup_step s (set_refused n (set_jobs (su_jobs s - 1) s))
  (** An attempt: the epoch is read, then the message sent. *)
  | step_snap s j r : su_tasks s !! j = Some (TNext r) → sup_step s (set_task j (TSnap r (active_epoch (su_cluster s))) s)
  | step_send s j r e : su_tasks s !! j = Some (TSnap r e) → sup_step s (send (HGenerate j) (set_task j (TSent r e) s))
  | step_host_gone s j r e : su_tasks s !! j = Some (TSnap r e) → sup_step s (fail_job j ShuttingDown s)
  | step_close s j e : su_tasks s !! j = Some (TClosing e) → sup_step s (job_finished j e s)
  (** The host takes a generation for the loaded model, or refuses it. *)
  | step_run s j q p : su_queue s = HGenerate j :: q → su_model s = Some p → sup_step s (set_host q (Some p) (su_running s ++ [j]) s)
  | step_refuse s j q :
      su_queue s = HGenerate j :: q → sup_step s (set_task j (TClosing None) (set_host q (su_model s) (su_running s) s))
  | step_finish s j r1 r2 :
      su_running s = r1 ++ j :: r2 → sup_step s (set_task j (TClosing None) (set_host (su_queue s) (su_model s) (r1 ++ r2) s))
  (** A decode over torn bridges fails; generations that wait for a slot stay. *)
  | step_decode_failed s p dead kept :
      su_model s = Some p → p_strategy p = PipelineParallel → su_running s ≡ₚ dead ++ kept →
      sup_step s (set_host (su_queue s) (su_model s) kept (set_tasks (interrupt_all (su_tasks s) dead) s))
  (** Loads and unloads wait for the generations before them. *)
  | step_host_unload s q : su_queue s = HUnload :: q → su_running s = [] → sup_step s (set_host q None [] s)
  | step_host_load s q p l (ok : bool) :
      su_queue s = HLoad p l :: q → su_running s = [] →
      sup_step s (answer l ok (set_host q (if ok then Some p else None) [] s))
  (** The failure lifecycle. *)
  | step_ledger s j r e : su_tasks s !! j = Some (TInterrupted r e) → su_lock s = None → sup_step s (take_ledger j r e s)
  | step_teardown s j r failed source : su_tasks s !! j = Some (TUnloading r failed source) → sup_step s (teardown j r failed source s)
  | step_decide s j r failed source peers :
      su_tasks s !! j = Some (TUnloaded r failed source) → sup_step s (decide_leader own_id peers j r failed source s)
  | step_replan s j r fe lost lost_ids source env :
      su_tasks s !! j = Some (TPlanning r fe lost lost_ids source) → sup_step s (replan own_id env j r fe lost lost_ids source s)
  | step_activate s j r fe lost source p ready :
      su_tasks s !! j = Some (TActivating r fe lost source p) → sup_step s (activate ready j r fe lost source p s)
  | step_reloaded s j r fe lost source p ok :
      su_tasks s !! j = Some (TReloading r fe lost source p (Some ok)) → sup_step s (reloaded own_id ok j r fe lost source p s)
  (** Loads by users. *)
  | step_user_load s l env forced source : su_loads s !! l = None → sup_step s (user_load own_id env forced l source s)
  | step_load_send s l ld : su_loads s !! l = Some ld → ld_sent ld = false → sup_step s (send_load l ld s)
  | step_load_drop s l ld : su_loads s !! l = Some ld → ld_sent ld = false → sup_step s (end_load own_id l ld false s)
  | step_loaded s l ld ok : su_loads s !! l = Some ld → ld_answer ld = Some ok → sup_step s (end_load own_id l ld ok s)
  (** The re-plan after a rejoin. *)
  | step_rejoin_take s : sup_step s (take_rejoin s)
  | step_rejoin s n : su_rejoins s = S n → su_lock s = None → sup_step s (rejoin (set_rejoins n s))
  | step_rejoin_replan s l env source active :
      su_lock s = Some (ByReplan source active) → su_loads s !! l = None → sup_step s (rejoin_replan own_id env l source active s)
  (** A failed epoch without jobs is torn down. *)
  | step_idle_teardown s epoch :
      su_lock s = None → epoch_failed_applies epoch s = true → sup_step s (send HUnload (set_lock (Some ByTeardown) s))
  | step_idle_torn s :
      su_lock s = Some ByTeardown →
      sup_step s (set_lock None (set_cluster (clear_loaded (set_active None (teardown_head_bridges (su_cluster s)))) s))
  | step_outside s cl : outside (su_cluster s) cl → sup_step s (set_cluster cl s).

Definition sup_init : Sup := MkSupState cluster_new ∅ None 0 0 0 ∅ ∅ [] None [].
Definition sup_reachable : Sup → Prop := rtc sup_step sup_init.
End steps.
