(* ===== verification/SupervisorOk.v ===== *)
(** * The job supervisor: jobs accounted for, one retry, one surgeon

    In every interleaving of jobs, failures, loads and re-plans: the idle
    probe counts exactly the jobs that have not ended and the refused ones
    still in its count, every job sent to the engine host is in its queue or
    running on it, one task at a time performs epoch surgery, and no job is
    sent again after its retry. *)

From Stdlib Require Import ZArith Lia.
From stdpp Require Import base list strings option gmap.
From S2P Require Import Prelude Float Proto SchedLib Dims Gguf Cluster PlanLoad Supervisor.

Open Scope nat_scope.

Definition live_task (t : Task) : bool := match t with TEnded _ => false | _ => true end.

Definition retries_of (t : Task) : nat :=
  match t with
  | TNext r | TSnap r _ | TSent r _ | TInterrupted r _ | TUnloading r _ _ | TUnloaded r _ _ | TPlanning r _ _ _ _
  | TActivating r _ _ _ _ | TReloading r _ _ _ _ _ => r
  | TClosing _ | TPanicked | TEnded _ => 1
  end.

(** The task performs epoch surgery. *)
Definition leads (t : Task) : bool :=
  match t with TUnloading _ _ _ | TUnloaded _ _ _ | TPlanning _ _ _ _ _ | TActivating _ _ _ _ _ | TReloading _ _ _ _ _ _ => true | _ => false end.

(** A leader that plans has its retry left. *)
Definition retries_ok (t : Task) : Prop :=
  match t with
  | TPlanning r _ _ _ _ | TActivating r _ _ _ _ | TReloading r _ _ _ _ _ => r = 0
  | _ => retries_of t ≤ 1
  end.

Definition sent (t : Task) : bool := match t with TSent _ _ => true | _ => false end.

Definition live_jobs (m : gmap nat Task) : nat := size (filter (λ x, live_task x.2 = true) m).

Definition queued (q : list HostItem) : list nat := omap (λ i, match i with HGenerate j => Some j | _ => None end) q.

Record sup_ok (limit : nat) (s : Sup) : Prop := {
  so_jobs : su_jobs s = live_jobs (su_tasks s) + su_refused s;
  so_limit : live_jobs (su_tasks s) ≤ limit;
  so_lock : ∀ j t, su_tasks s !! j = Some t → leads t = true → su_lock s = Some (ByTask j);
  so_retries : ∀ j t, su_tasks s !! j = Some t → retries_ok t;
  so_nodup : NoDup (queued (su_queue s) ++ su_running s);
  so_sent : ∀ j, j ∈ queued (su_queue s) ++ su_running s ↔ ∃ t, su_tasks s !! j = Some t ∧ sent t = true }.

(** ** Counting *)
Lemma live_jobs_new m j t : m !! j = None → live_task t = true → live_jobs (<[j := t]> m) = S (live_jobs m).
Proof.
  intros Hj Ht. unfold live_jobs. rewrite map_filter_insert_True by done. apply map_size_insert_None.
  apply map_lookup_filter_None. left. done.
Qed.

Lemma live_jobs_same m j t t' : m !! j = Some t → live_task t = true → live_task t' = true → live_jobs (<[j := t']> m) = live_jobs m.
Proof.
  intros Hj Ht Ht'. unfold live_jobs. rewrite map_filter_insert_True by done. rewrite map_size_insert_Some; [done|].
  exists t. by apply map_lookup_filter_Some.
Qed.

Lemma live_jobs_end m j t e : m !! j = Some t → live_task t = true → live_jobs (<[j := TEnded e]> m) = live_jobs m - 1.
Proof.
  intros Hj Ht. unfold live_jobs. rewrite map_filter_insert_False by done. rewrite map_filter_delete.
  rewrite map_size_delete_Some; [lia|]. exists t. by apply map_lookup_filter_Some.
Qed.

Lemma live_jobs_pos m j t : m !! j = Some t → live_task t = true → 1 ≤ live_jobs m.
Proof.
  intros Hj Ht. unfold live_jobs. assert (filter (λ x, live_task x.2 = true) m !! j = Some t) as Hf by (by apply map_lookup_filter_Some).
  destruct (decide (size (filter (λ x, live_task x.2 = true) m) = 0)) as [E|]; [|lia]. apply map_size_empty_inv in E. by rewrite E in Hf.
Qed.

(** ** Steps of one task *)
Section ok.
Context (own_id : string) (limit : nat).
#[local] Abbreviation ok := (sup_ok limit).

(** The parts of the state a task's own step leaves alone. *)
Definition only_task (j : nat) (t' : Task) (s s' : Sup) : Prop :=
  su_tasks s' = <[j := t']> (su_tasks s) ∧ su_running s' = su_running s ∧ queued (su_queue s') = queued (su_queue s)
  ∧ su_refused s' = su_refused s ∧ su_jobs s' = su_jobs s - (if live_task t' then 0 else 1).

Lemma task_moves s j t t' s' :
  ok s → su_tasks s !! j = Some t → only_task j t' s s' → live_task t = true → sent t = false → sent t' = false → retries_ok t' →
  (leads t' = true → su_lock s' = Some (ByTask j)) →
  (su_lock s' = su_lock s ∨ (leads t = true ∧ leads t' = false) ∨ su_lock s = None) → ok s'.
Proof.
  intros [O1 OL O2 O3 O4 O5] Hj (Ht' & Hr' & Hq' & Hrf & Hjobs) Hl Hsn Hsn' Hret Hld Hlock.
  assert (Hlive : live_jobs (su_tasks s') = live_jobs (su_tasks s) - (if live_task t' then 0 else 1)).
  { rewrite Ht'. destruct (live_task t') eqn:El'; [rewrite Nat.sub_0_r; by eapply live_jobs_same|]. destruct t'; try done.
    by eapply live_jobs_end. }
  assert (1 ≤ live_jobs (su_tasks s)) by (by eapply live_jobs_pos). split.
  - rewrite Hjobs, O1, Hlive, Hrf. destruct (live_task t'); lia.
  - lia.
  - rewrite Ht'. intros i u [[<- <-]|[Hne Hu]]%lookup_insert_Some Hlu; [by apply Hld|]. pose proof (O2 _ _ Hu Hlu) as HL.
    destruct Hlock as [->|[[Hlt _]|Hnone]]; [done| |congruence]. pose proof (O2 _ _ Hj Hlt). congruence.
  - rewrite Ht'. intros i u [[<- <-]|[_ Hu]]%lookup_insert_Some; [done|by eapply O3].
  - by rewrite Hq', Hr'.
  - intros i. rewrite Hq', Hr', O5, Ht'. split; intros (u & Hu & Hsu).
    + destruct (decide (i = j)) as [->|Hne]; [congruence|]. exists u. by rewrite lookup_insert_ne.
    + apply lookup_insert_Some in Hu as [[_ <-]|[_ Hu]]; [congruence|by exists u].
Qed.

(** ** Steps of the host *)
Lemma host_moves s s' :
  ok s → su_tasks s' = su_tasks s → su_jobs s' = su_jobs s → su_refused s' = su_refused s →
  (su_lock s' = su_lock s ∨ su_lock s = None ∨ ∀ j, su_lock s ≠ Some (ByTask j)) →
  queued (su_queue s') ++ su_running s' ≡ₚ queued (su_queue s) ++ su_running s → ok s'.
Proof.
  intros [O1 OL O2 O3 O4 O5] Ht Hjb Hrf Hl Hp. split; rewrite ?Ht, ?Hjb, ?Hrf; try done.
  - intros j t Hj Hlt. pose proof (O2 _ _ Hj Hlt) as HL. destruct Hl as [->|[Hn|Hn]]; [done|congruence|]. by destruct (Hn j).
  - by rewrite Hp.
  - intros j. rewrite Hp. apply O5.
Qed.

(** A generation on the host ends. *)
Lemma job_ends s s' j :
  ok s → j :: queued (su_queue s') ++ su_running s' ≡ₚ queued (su_queue s) ++ su_running s →
  su_tasks s' = <[j := TClosing None]> (su_tasks s) → su_jobs s' = su_jobs s → su_refused s' = su_refused s → su_lock s' = su_lock s → ok s'.
Proof.
  intros [O1 OL O2 O3 O4 O5] Hp Ht Hjb Hrf Hl.
  destruct (proj1 (O5 j)) as (t & Hj & Hs); [rewrite <- Hp; set_solver|]. rewrite <- Hp in O4. apply NoDup_cons in O4 as [Hni O4].
  assert (Hlive : live_jobs (su_tasks s') = live_jobs (su_tasks s)) by (rewrite Ht; eapply live_jobs_same; [done|by destruct t|done]).
  split.
  - by rewrite Hjb, O1, Hlive, Hrf.
  - by rewrite Hlive.
  - rewrite Ht, Hl. intros i u [[_ <-]|[_ Hu]]%lookup_insert_Some; [done|by eapply O2].
  - rewrite Ht. intros i u [[_ <-]|[_ Hu]]%lookup_insert_Some; [simpl; lia|by eapply O3].
  - done.
  - intros i. rewrite Ht. split.
    + intros Hi. destruct (proj1 (O5 i)) as (u & Hu & Hsu); [rewrite <- Hp; set_solver|]. exists u.
      rewrite lookup_insert_ne; [done|]. intros ->. done.
    + intros (u & [[-> <-]|[Hne Hu]]%lookup_insert_Some & Hsu); [done|].
      assert (Hi : i ∈ queued (su_queue s) ++ su_running s) by (apply O5; eauto). rewrite <- Hp in Hi. set_solver.
Qed.

(** A failed decode interrupts sequences that stay live. *)
Definition interrupted (running : list nat) (j : nat) (t : Task) : Task :=
  match t with TSent r e => if bool_decide (j ∈ running) then TInterrupted r e else t | _ => t end.

Lemma interrupt_all_lookup tasks running j : interrupt_all tasks running !! j = interrupted running j <$> tasks !! j.
Proof. unfold interrupt_all. rewrite map_lookup_imap. destruct (tasks !! j) as [t|]; [|done]. by destruct t. Qed.

Lemma live_jobs_ext m m' :
  (∀ j, (∃ t, m !! j = Some t ∧ live_task t = true) ↔ ∃ t, m' !! j = Some t ∧ live_task t = true) → live_jobs m = live_jobs m'.
Proof.
  intros H. unfold live_jobs. rewrite <- !size_dom. f_equal. apply set_eq. intros j. rewrite !elem_of_dom.
  unfold is_Some. setoid_rewrite map_lookup_filter_Some. apply H.
Qed.

Lemma interrupt_all_ok s dead kept :
  su_running s ≡ₚ dead ++ kept → ok s →
  ok (set_host (su_queue s) (su_model s) kept (set_tasks (interrupt_all (su_tasks s) dead) s)).
Proof.
  intros Hperm [O1 OL O2 O3 O4 O5].
  assert (Hint : ∀ j u, interrupt_all (su_tasks s) dead !! j = Some u → ∃ t, su_tasks s !! j = Some t ∧ u = interrupted dead j t).
  { intros j u Hu. rewrite interrupt_all_lookup in Hu. destruct (su_tasks s !! j) as [t|]; [|done]. injection Hu as <-. by exists t. }
  assert (Hlive : live_jobs (interrupt_all (su_tasks s) dead) = live_jobs (su_tasks s)).
  { symmetry. apply live_jobs_ext. intros j. split.
    + intros (t & Ht & Hl). exists (interrupted dead j t). rewrite interrupt_all_lookup, Ht. split; [done|].
      destruct t; try done. simpl. by destruct (bool_decide _).
    + intros (u & (t & Ht & ->)%Hint & Hl). exists t. split; [done|]. by destruct t. }
  assert (Hrest : queued (su_queue s) ++ su_running s ≡ₚ dead ++ (queued (su_queue s) ++ kept)) by (rewrite Hperm; solve_Permutation).
  rewrite Hrest in O4. apply NoDup_app in O4 as (_ & Hdis & O4). split; simpl.
  - by rewrite O1, Hlive.
  - by rewrite Hlive.
  - intros j u (t & Ht & ->)%Hint Hl. apply (O2 j t Ht). destruct t; try done. simpl in Hl. by destruct (bool_decide _).
  - intros j u (t & Ht & ->)%Hint. pose proof (O3 _ _ Ht). destruct t; try done. simpl in *. by destruct (bool_decide _).
  - done.
  - intros j. split.
    + intros Hj. destruct (proj1 (O5 j)) as (t & Ht & Hs); [rewrite Hrest; set_solver|]. exists t. rewrite interrupt_all_lookup, Ht.
      split; [|done]. destruct t; try done. simpl. rewrite bool_decide_eq_false_2; [done|]. intros Hd. by apply (Hdis j).
    + intros (u & (t & Ht & ->)%Hint & Hs). assert (Hst : sent t = true) by (destruct t; try done).
      assert (Hj : j ∈ queued (su_queue s) ++ su_running s) by (apply O5; eauto). rewrite Hrest in Hj.
      apply elem_of_app in Hj as [Hr|?]; [|done]. destruct t; try done. simpl in Hs. by rewrite bool_decide_eq_true_2 in Hs.
Qed.

Lemma queued_app a b : queued (a ++ b) = queued a ++ queued b.
Proof. apply omap_app. Qed.

(** A task that stays live. *)
Lemma sub0_only j t' s s' :
  su_tasks s' = <[j := t']> (su_tasks s) → su_running s' = su_running s → queued (su_queue s') = queued (su_queue s) →
  su_refused s' = su_refused s → su_jobs s' = su_jobs s → live_task t' = true → only_task j t' s s'.
Proof. intros. unfold only_task. split_and!; try done. case_match; [lia|done]. Qed.

(** A step of one task that stays live: its new state is read off. *)
Ltac own_step := eapply sub0_only; [reflexivity|try done ..]; simpl; try by rewrite queued_app, app_nil_r.
Ltac task_step Hok Hj := eapply (task_moves _ _ _ _ _ Hok Hj); [own_step|try done ..].

(** Closing an attempt that is not on the host. *)
Lemma closing_ok s s' j t e :
  ok s → su_tasks s !! j = Some t → live_task t = true → sent t = false → only_task j (TClosing e) s s' →
  (su_lock s' = su_lock s ∨ leads t = true) → ok s'.
Proof.
  intros Hok Hj Hl Hs Ho Hk. eapply task_moves; try done; [simpl; lia|]. destruct Hk; [by left|by right; left].
Qed.

(** The leader gives up. *)
Lemma give_up_ok s j t fe e : ok s → su_tasks s !! j = Some t → leads t = true → ok (give_up_epoch j fe e s).
Proof.
  intros Hok Hj Hl. eapply closing_ok; [done|done|by destruct t|by destruct t|own_step|by right].
Qed.

Lemma start_job_ok s j : ok s → su_tasks s !! j = None → ok (try_start_job limit j s).
Proof.
  intros [O1 OL O2 O3 O4 O5] Hj. unfold try_start_job. destruct (limit <=? su_jobs s) eqn:El.
  { split; simpl; try done. lia. }
  apply Nat.leb_gt in El. split; simpl; [| | | |done|].
  - rewrite live_jobs_new; [by rewrite O1|done|done].
  - rewrite live_jobs_new; [lia|done|done].
  - intros i t [[_ <-]|[_ Ht]]%lookup_insert_Some; [done|by eapply O2].
  - intros i t [[_ <-]|[_ Ht]]%lookup_insert_Some; [simpl; lia|by eapply O3].
  - intros i. rewrite O5. split; intros (t & Ht & Hs); exists t.
    + rewrite lookup_insert_ne; [done|]. intros ->. congruence.
    + apply lookup_insert_Some in Ht as [[_ <-]|[_ Ht]]; [done|done].
Qed.

Lemma send_ok s j r e : ok s → su_tasks s !! j = Some (TSnap r e) → ok (send (HGenerate j) (set_task j (TSent r e) s)).
Proof.
  intros [O1 OL O2 O3 O4 O5] Hj. pose proof (O3 _ _ Hj) as Hr.
  assert (Hp : queued (su_queue s ++ [HGenerate j]) ++ su_running s ≡ₚ j :: queued (su_queue s) ++ su_running s).
  { rewrite queued_app. simpl. rewrite <- app_assoc. simpl. symmetry. apply Permutation_middle. }
  assert (Hlive : live_jobs (<[j := TSent r e]> (su_tasks s)) = live_jobs (su_tasks s)) by (by eapply live_jobs_same).
  split; simpl.
  - by rewrite O1, Hlive.
  - by rewrite Hlive.
  - intros i t [[_ <-]|[_ Ht]]%lookup_insert_Some; [done|by eapply O2].
  - intros i t [[_ <-]|[_ Ht]]%lookup_insert_Some; [done|by eapply O3].
  - rewrite Hp. constructor; [|done]. intros (t & Ht & Hs)%O5. rewrite Hj in Ht. by injection Ht as <-.
  - intros i. rewrite Hp, elem_of_cons, O5. split.
    + intros [->|(t & Ht & Hs)]; [eexists; by rewrite lookup_insert_eq|]. exists t. rewrite lookup_insert_ne; [done|]. intros ->.
      rewrite Hj in Ht. by injection Ht as <-.
    + intros (t & [[-> _]|[_ Ht]]%lookup_insert_Some & Hs); [by left|right; by exists t].
Qed.

(** A task is sent again only with its retry unused. *)
Lemma resolve_reissues r e cl ledger c : resolve_follower r e cl ledger = VReissue c → r = 0.
Proof.
  unfold resolve_follower, decide_interrupted. destruct e as [e|]; [|done]. destruct (bool_decide _); [done|].
  destruct (r =? 0) eqn:E0; [by apply Nat.eqb_eq in E0|]. by destruct (ledger !! e) as [[]|].
Qed.

Lemma take_ledger_ok s j r e : ok s → su_tasks s !! j = Some (TInterrupted r e) → su_lock s = None → ok (take_ledger j r e s).
Proof.
  intros Hok Hj Hl. pose proof (so_retries _ _ Hok _ _ Hj) as Hr. simpl in Hr. unfold take_ledger.
  destruct (resolve_follower r e (su_cluster s) (su_ledger s)) as [c|err|] eqn:Ev.
  - rewrite (resolve_reissues _ _ _ _ _ Ev) in *. task_step Hok Hj; [|by left].
    simpl. destruct c; lia.
  - eapply closing_ok; [done|done|done|done|own_step|by left].
  - task_step Hok Hj. by right; right.
Qed.

Lemma answer_ok l b s : ok s → ok (answer l b s).
Proof.
  intros Hok. unfold answer. destruct l as [j|l]; [|destruct (su_loads s !! l); [apply (host_moves s); try done; by left|done]].
  destruct (su_tasks s !! j) as [t|] eqn:Hj; [|done]. destruct t as [| | | | | | | |r fe lost src p a| | |]; try done.
  pose proof (so_retries _ _ Hok _ _ Hj). pose proof (so_lock _ _ Hok _ _ Hj eq_refl).
  task_step Hok Hj. by left.
Qed.

Lemma end_load_ok l ld b s : ok s → ok (end_load own_id l ld b s).
Proof.
  intros Hok. unfold end_load, holds_ledger. destruct (su_lock s) as [[| |l'|]|] eqn:El; try (apply (host_moves s); try done; by left).
  destruct (l' =? l); apply (host_moves s); try done; [right; right; by rewrite El|by left].
Qed.

Lemma rejoin_replan_ok env l source active s :
  ok s → su_lock s = Some (ByReplan source active) → ok (rejoin_replan own_id env l source active s).
Proof.
  intros Hok Hl. assert (Hn : ∀ j, su_lock s ≠ Some (ByTask j)) by (by rewrite Hl). unfold rejoin_replan.
  destruct (plan_load _ _ _ _ _ _ _ _) as [planned cl]. destruct planned as [pl| |]; [destruct (same_placement _ _)|..];
    apply (host_moves s); try done; by right; right.
Qed.

(** ** Steps of a leader *)
Lemma decide_leader_ok s j r failed source peers :
  ok s → su_tasks s !! j = Some (TUnloaded r failed source) → ok (decide_leader own_id peers j r failed source s).
Proof.
  intros Hok Hj. pose proof (so_lock _ _ Hok _ _ Hj eq_refl). unfold decide_leader, decide_interrupted.
  destruct (r =? 0) eqn:E0; [|by eapply give_up_ok]. apply Nat.eqb_eq in E0 as ->. destruct source; [|by eapply give_up_ok].
  task_step Hok Hj. by left.
Qed.

Lemma replan_ok s j r fe lost lost_ids source env :
  ok s → su_tasks s !! j = Some (TPlanning r fe lost lost_ids source) → ok (replan own_id env j r fe lost lost_ids source s).
Proof.
  intros Hok Hj. pose proof (so_retries _ _ Hok _ _ Hj). pose proof (so_lock _ _ Hok _ _ Hj eq_refl). unfold replan.
  destruct (plan_load _ _ _ _ _ _ _ _) as [planned cl]. assert (Hok' : ok (set_cluster cl s)) by (apply (host_moves s); try done; by left).
  destruct planned as [pl|[]|]; [|by eapply give_up_ok..|].
  - task_step Hok Hj. by left.
  - task_step Hok Hj; [simpl; lia|by right; left].
Qed.

Lemma activate_ok s j r fe lost source p ready :
  ok s → su_tasks s !! j = Some (TActivating r fe lost source p) → ok (activate ready j r fe lost source p s).
Proof.
  intros Hok Hj. pose proof (so_retries _ _ Hok _ _ Hj). pose proof (so_lock _ _ Hok _ _ Hj eq_refl). unfold activate.
  destruct ready; [|by eapply give_up_ok]. task_step Hok Hj. by left.
Qed.

Lemma reloaded_ok s j r fe lost source p b :
  ok s → su_tasks s !! j = Some (TReloading r fe lost source p (Some b)) → ok (reloaded own_id b j r fe lost source p s).
Proof.
  intros Hok Hj. pose proof (so_retries _ _ Hok _ _ Hj) as Hr. simpl in Hr. subst r. unfold reloaded. destruct b; [|by eapply give_up_ok].
  task_step Hok Hj; [simpl; lia|by right; left].
Qed.

Lemma sup_step_ok s s' : sup_step own_id limit s s' → ok s → ok s'.
Proof.
  intros Hst Hok. destruct Hst as [s j Hj|s n Hn|s j r Hj|s j r e Hj|s j r e Hj|s j e Hj|s j q p Hq Hm|s j q Hq|s j r1 r2 Hr
    |s p dead kept Hm Hp Hd|s q Hq Hr|s q p l b Hq Hr|s j r e Hj Hl|s j r failed source Hj|s j r failed source peers Hj
    |s j r fe lost lost_ids source env Hj|s j r fe lost source p ready Hj|s j r fe lost source p b Hj|s l env forced source Hl|s l ld Hl Hs|s l ld Hl Hs
    |s l ld b Hl Ha|s|s n Hn Hl|s l env source active Hl Hn|s epoch Hl He|s Hl|s cl Hcl].
  - by apply start_job_ok.
  - destruct Hok as [O1 OL O2 O3 O4 O5]. split; simpl; try done. lia.
  - task_step Hok Hj; [by apply (so_retries _ _ Hok _ _ Hj)|by left].
  - by apply send_ok.
  - eapply closing_ok; [done|done|done|done|own_step|by left].
  - eapply (task_moves s j _ (TEnded e)); try done; [simpl; lia|by left].
  - apply (host_moves s); try done; [by left|]. simpl. rewrite Hq. simpl. rewrite app_assoc. symmetry. apply Permutation_cons_append.
  - apply (job_ends s _ j); try done. simpl. by rewrite Hq.
  - apply (job_ends s _ j); try done. simpl. rewrite Hr. rewrite !app_assoc. apply Permutation_middle.
  - by apply interrupt_all_ok.
  - apply (host_moves s); try done; [by left|]. simpl. by rewrite Hq, Hr.
  - apply answer_ok, (host_moves s); try done; [by left|]. simpl. by rewrite Hq, Hr.
  - by apply take_ledger_ok.
  - pose proof (so_retries _ _ Hok _ _ Hj). pose proof (so_lock _ _ Hok _ _ Hj eq_refl).
    task_step Hok Hj. by left.
  - by apply (decide_leader_ok s j).
  - by apply (replan_ok s j).
  - by apply (activate_ok s j).
  - by apply (reloaded_ok s j).
  - unfold user_load. destruct (plan_load _ _ _ _ _ _ _ _) as [[| |] cl]; (apply (host_moves s); try done; by left).
  - apply (host_moves s); try done; [by left|]. simpl. by rewrite queued_app, app_nil_r.
  - by apply end_load_ok.
  - by apply end_load_ok.
  - unfold take_rejoin. simpl. destruct (cs_rejoin_requested _); [|done]. apply (host_moves s); try done. by left.
  - unfold rejoin. destruct (rejoin_decision _); apply (host_moves s); try done; [by left|by left|by right; left].
  - by apply rejoin_replan_ok.
  - apply (host_moves s); try done; [by right; left|]. simpl. by rewrite queued_app, app_nil_r.
  - apply (host_moves s); try done. right; right. by rewrite Hl.
  - apply (host_moves s); try done. by left.
Qed.

Lemma sup_init_ok : ok sup_init.
Proof.
  split; simpl; try done; [unfold live_jobs; rewrite map_filter_empty; apply Nat.le_0_l|constructor|].
  intros j. split; [set_solver|by intros (t & Ht & _)].
Qed.

Lemma sup_reachable_ok s : sup_reachable own_id limit s → ok s.
Proof.
  unfold sup_reachable. intros Hr. assert (H : ok sup_init) by apply sup_init_ok. induction Hr as [|x y z Hxy _ IH]; [done|].
  apply IH. by eapply sup_step_ok.
Qed.
End ok.

(** ** The lifecycle of a job *)

(** What a job looks like from outside: an attempt, an interruption waiting
    for the ledger with the epoch it read, the surgery it leads, its last
    event, its end, or a panic of the planner.  The number is of retries used. *)
Inductive Phase := Attempt (retries : nat) | Waiting (retries : nat) (epoch : option Z) | Surgery (retries : nat) | Closing | Panicked | Ended.

Definition phase_of (t : Task) : Phase :=
  match t with
  | TNext r | TSnap r _ | TSent r _ => Attempt r
  | TInterrupted r e => Waiting r e
  | TUnloading r _ _ | TUnloaded r _ _ | TPlanning r _ _ _ _ | TActivating r _ _ _ _ | TReloading r _ _ _ _ _ => Surgery r
  | TClosing _ => Closing
  | TPanicked => Panicked
  | TEnded _ => Ended
  end.

(** The contract: one retry, by an own reload or by following the reload of
    another job that failed with the same epoch; an attempt whose epoch was
    swapped away unrecorded runs again uncounted. *)
Inductive phase_step (cl : ClusterState) (ledger : RetryLedger) : Phase → Phase → Prop :=
  | ph_stay p : phase_step cl ledger p p
  | ph_interrupt r e : phase_step cl ledger (Attempt r) (Waiting r e)
  | ph_follow e lost :
      active_epoch cl ≠ Some e → ledger !! e = Some (Reloaded lost) → phase_step cl ledger (Waiting 0 (Some e)) (Attempt 1)
  | ph_swapped e source :
      active_epoch cl ≠ Some e → ledger !! e = None → cs_loaded_source cl = Some source →
      phase_step cl ledger (Waiting 0 (Some e)) (Attempt 0)
  | ph_lead r e : r ≤ 1 → (e = None ∨ e = active_epoch cl) → phase_step cl ledger (Waiting r e) (Surgery r)
  | ph_reload : phase_step cl ledger (Surgery 0) (Attempt 1)
  | ph_close p : p ≠ Ended → p ≠ Closing → p ≠ Panicked → phase_step cl ledger p Closing
  | ph_panic : phase_step cl ledger (Surgery 0) Panicked
  | ph_end : phase_step cl ledger Closing Ended.

Section phases.
Context (own_id : string) (limit : nat) (s : Sup) (Hok : sup_ok limit s).

Definition follows (s' : Sup) : Prop :=
  ∀ j t, su_tasks s !! j = Some t → ∃ t', su_tasks s' !! j = Some t' ∧ phase_step (su_cluster s) (su_ledger s) (phase_of t) (phase_of t').

Lemma follows_same s' : su_tasks s' = su_tasks s → follows s'.
Proof. intros H j t Hj. exists t. rewrite H. split; [done|constructor]. Qed.

Lemma follows_one s' j t t' :
  su_tasks s !! j = Some t → su_tasks s' = <[j := t']> (su_tasks s) → phase_step (su_cluster s) (su_ledger s) (phase_of t) (phase_of t') → follows s'.
Proof.
  intros Hj Ht Hp i u Hi. rewrite Ht. destruct (decide (i = j)) as [->|Hne].
  - rewrite Hj in Hi. injection Hi as <-. exists t'. by rewrite lookup_insert_eq.
  - exists u. rewrite lookup_insert_ne by done. split; [done|constructor].
Qed.

Lemma follows_give_up j t fe e : su_tasks s !! j = Some t → leads t = true → follows (give_up_epoch j fe e s).
Proof. intros Hj Hl. eapply follows_one; [done|reflexivity|]. by destruct t; try done; apply ph_close. Qed.

(** A generation on the host is an attempt. *)
Lemma follows_ends s' j :
  j ∈ queued (su_queue s) ++ su_running s → su_tasks s' = <[j := TClosing None]> (su_tasks s) → follows s'.
Proof.
  intros (t & Hj & Hs)%(so_sent _ _ Hok) Ht. eapply follows_one; [done|done|]. destruct t; try done. by apply ph_close.
Qed.

Lemma follows_interrupt s' dead : su_tasks s' = interrupt_all (su_tasks s) dead → follows s'.
Proof.
  intros Ht j t Hj. exists (interrupted dead j t). rewrite Ht, interrupt_all_lookup, Hj. split; [done|]. destruct t; try constructor. simpl.
  destruct (bool_decide _); constructor.
Qed.

Lemma follows_submit j : su_tasks s !! j = None → follows (try_start_job limit j s).
Proof.
  intros Hj. unfold try_start_job. destruct (_ <=? _); [by apply follows_same|]. intros i t Hi. exists t. simpl.
  rewrite lookup_insert_ne by congruence. split; [done|constructor].
Qed.

Lemma follows_ledger j r e : su_tasks s !! j = Some (TInterrupted r e) → follows (take_ledger j r e s).
Proof.
  intros Hj. pose proof (so_retries _ _ Hok _ _ Hj) as Hr. simpl in Hr. unfold take_ledger.
  destruct (resolve_follower _ _ _ _) as [c|err|] eqn:Ev; (eapply follows_one; [done|reflexivity|]); simpl; [|by apply ph_close|].
  - pose proof (resolve_reissues _ _ _ _ _ Ev). subst r. unfold resolve_follower in Ev. destruct e as [e|]; [|done].
    case_bool_decide as Ha; [done|]. simpl in Ev. destruct (su_ledger s !! e) as [[lost|]|] eqn:El; [| done |].
    + injection Ev as <-. by eapply ph_follow.
    + destruct (cs_loaded_source _) as [src|] eqn:Es; [|done]. injection Ev as <-. by eapply ph_swapped.
  - apply ph_lead; [done|]. unfold resolve_follower in Ev. destruct e as [e|]; [|by left]. case_bool_decide as Ha; [by right|].
    destruct (su_ledger s !! e) as [[lost|]|]; try destruct (decide_interrupted r); try done. by destruct (cs_loaded_source _).
Qed.

Lemma follows_leader j t t' s' :
  su_tasks s !! j = Some t → su_tasks s' = <[j := t']> (su_tasks s) → leads t = true → leads t' = true → retries_of t' = retries_of t →
  follows s'.
Proof. intros Hj Ht Hl Hl' Hr. eapply follows_one; [done|done|]. destruct t, t'; try done; simpl in Hr; subst; constructor. Qed.

Lemma follows_answer l b s' : su_tasks s' = su_tasks s → follows (answer l b s').
Proof.
  intros Ht. unfold answer. rewrite Ht. destruct l as [j|l]; [|destruct (su_loads s' !! l); by apply follows_same].
  destruct (su_tasks s !! j) as [t|] eqn:Hj; [|by apply follows_same]. destruct t; try by apply follows_same.
  eapply follows_one; [done|simpl; by rewrite Ht|constructor].
Qed.

Lemma step_follows s' : sup_step own_id limit s s' → follows s'.
Proof.
  intros Hst. remember s as s0 eqn:E in Hst. destruct Hst as [s0 j Hj|s0 n Hn|s0 j r Hj|s0 j r e Hj|s0 j r e Hj|s0 j e Hj|s0 j q p Hq Hm|s0 j q Hq
    |s0 j r1 r2 Hr|s0 p dead kept Hm Hp Hd|s0 q Hq Hr|s0 q p l b Hq Hr|s0 j r e Hj Hl|s0 j r failed source Hj|s0 j r failed source peers Hj
    |s0 j r fe lost lost_ids source env Hj|s0 j r fe lost source p ready Hj|s0 j r fe lost source p b Hj|s0 l env forced source Hl|s0 l ld Hl Hs
    |s0 l ld Hl Hs|s0 l ld b Hl Ha|s0|s0 n Hn Hl|s0 l env source active Hl Hn|s0 epoch Hl He|s0 Hl|s0 cl Hcl]; subst s0;
    try (by apply follows_same).
  - by apply follows_submit.
  - eapply follows_one; [done|reflexivity|constructor].
  - eapply follows_one; [done|reflexivity|constructor].
  - eapply follows_one; [done|reflexivity|by apply ph_close].
  - eapply follows_one; [done|reflexivity|constructor].
  - apply (follows_ends _ j); [|done]. rewrite Hq. set_solver.
  - apply (follows_ends _ j); [|done]. rewrite Hr. set_solver.
  - by eapply follows_interrupt.
  - by apply follows_answer.
  - by apply follows_ledger.
  - by eapply follows_leader.
  - unfold decide_leader. destruct (decide_interrupted r); [destruct source|]; try (by eapply follows_give_up). by eapply follows_leader.
  - pose proof (so_retries _ _ Hok _ _ Hj) as Hr. simpl in Hr. subst r. unfold replan. destruct (plan_load _ _ _ _ _ _ _ _) as [[pl|[]|] cl].
    + by eapply follows_leader.
    + eapply follows_one; [done|reflexivity|by apply ph_close].
    + eapply follows_one; [done|reflexivity|by apply ph_close].
    + eapply follows_one; [done|reflexivity|constructor].
  - unfold activate. destruct ready; [by eapply follows_leader|by eapply follows_give_up].
  - pose proof (so_retries _ _ Hok _ _ Hj) as Hr. simpl in Hr. subst r. unfold reloaded. destruct b; [|by eapply follows_give_up].
    eapply follows_one; [done|reflexivity|constructor].
  - apply follows_same. unfold user_load. by destruct (plan_load _ _ _ _ _ _ _ _) as [[| |] cl].
  - apply follows_same. unfold end_load. by destruct (holds_ledger _ _).
  - apply follows_same. unfold end_load. by destruct (holds_ledger _ _).
  - apply follows_same. unfold take_rejoin. simpl. by destruct (cs_rejoin_requested _).
  - apply follows_same. unfold rejoin. by destruct (rejoin_decision _).
  - apply follows_same. unfold rejoin_replan. destruct (plan_load _ _ _ _ _ _ _ _) as [[| |] cl]; try done. by destruct (same_placement _ _).
Qed.
End phases.

(** C10: In every reachable state of the supervisor the count behind the idle
    probe and the admission bound is the number of jobs that have not ended
    plus the refused ones not yet taken back, at most the limit of jobs run or
    wait at once, the jobs sent to the engine host are exactly those in its
    queue or taken by it, each once, and at most one task performs epoch
    surgery: the one that holds the ledger. *)
Theorem jobs_accounted own_id limit s :
  sup_reachable own_id limit s →
  su_jobs s = live_jobs (su_tasks s) + su_refused s ∧ live_jobs (su_tasks s) ≤ limit
  ∧ NoDup (queued (su_queue s) ++ su_running s)
  ∧ (∀ j, j ∈ queued (su_queue s) ++ su_running s ↔ ∃ r e, su_tasks s !! j = Some (TSent r e))
  ∧ (∀ j t, su_tasks s !! j = Some t → leads t = true → su_lock s = Some (ByTask j)).
Proof.
  intros [O1 OL O2 O3 O4 O5]%sup_reachable_ok. split_and!; try done. intros j. rewrite O5. split.
  - intros (t & Ht & Hs). destruct t; try done. eauto.
  - intros (r & e & Ht). eauto.
Qed.

(** C9: Every step of the supervisor moves every job along its contract: an
    interrupted attempt follows the recorded reload of its epoch or leads one
    only if its single retry is unused, runs again uncounted only if its epoch
    is neither active nor recorded, a job whose retry is used up can only end,
    and a job that ended stays ended. *)
Theorem one_retry own_id limit s s' j t :
  sup_reachable own_id limit s → sup_step own_id limit s s' → su_tasks s !! j = Some t →
  ∃ t', su_tasks s' !! j = Some t' ∧ phase_step (su_cluster s) (su_ledger s) (phase_of t) (phase_of t').
Proof. intros Hr Hs Hj. by apply (step_follows own_id limit s (sup_reachable_ok _ _ _ Hr) s' Hs j t Hj). Qed.

(** ** Runs *)
(** Scripts of steps; the host takes the next message. *)
Inductive Cmd :=
  | CLoad (l : nat) | CSendLoad (l : nat) | CLoaded (l : nat) | CHost | CFail
  | CSubmit (j : nat) | CSnap (j : nat) | CSend (j : nat) | CLedger (j : nat) | CTeardown (j : nat) | CDecide (j : nat)
  | CReplan (j : nat) | CActivate (j : nat) | CReloaded (j : nat).

Section scripts.
Context (env : LoadEnv) (source : LoadedSource).

Definition host_step (s : Sup) : option Sup :=
  match su_queue s, su_model s, su_running s with
  | HGenerate j :: q, Some p, r => Some (set_host q (Some p) (r ++ [j]) s)
  | HLoad p l :: q, _, [] => Some (answer l true (set_host q (Some p) [] s))
  | HUnload :: q, _, [] => Some (set_host q None [] s)
  | _, _, _ => None
  end.

Definition task_cmd (c : Cmd) (s : Sup) : option Sup :=
  match c with
  | CSubmit j => match su_tasks s !! j with None => Some (try_start_job 4 j s) | Some _ => None end
  | CSnap j => match su_tasks s !! j with Some (TNext r) => Some (set_task j (TSnap r (active_epoch (su_cluster s))) s) | _ => None end
  | CSend j => match su_tasks s !! j with Some (TSnap r e) => Some (send (HGenerate j) (set_task j (TSent r e) s)) | _ => None end
  | CLedger j =>
      match su_tasks s !! j, su_lock s with Some (TInterrupted r e), None => Some (take_ledger j r e s) | _, _ => None end
  | CTeardown j => match su_tasks s !! j with Some (TUnloading r f src) => Some (teardown j r f src s) | _ => None end
  | CDecide j => match su_tasks s !! j with Some (TUnloaded r f src) => Some (decide_leader "h" [] j r f src s) | _ => None end
  | CReplan j =>
      match su_tasks s !! j with Some (TPlanning r fe lost ids src) => Some (replan "h" env j r fe lost ids src s) | _ => None end
  | CActivate j => match su_tasks s !! j with Some (TActivating r fe lost src p) => Some (activate true j r fe lost src p s) | _ => None end
  | CReloaded j =>
      match su_tasks s !! j with Some (TReloading r fe lost src p (Some b)) => Some (reloaded "h" b j r fe lost src p s) | _ => None end
  | _ => None
  end.

Definition exec_cmd (c : Cmd) (s : Sup) : option Sup :=
  match c with
  | CLoad l => match su_loads s !! l with None => Some (user_load "h" env None l source s) | Some _ => None end
  | CSendLoad l => match su_loads s !! l with Some ld => if ld_sent ld then None else Some (send_load l ld s) | None => None end
  | CLoaded l => match su_loads s !! l with Some ld => b ← ld_answer ld; Some (end_load "h" l ld b s) | None => None end
  | CHost => host_step s
  | CFail =>
      match su_model s with
      | Some p => if bool_decide (p_strategy p = PipelineParallel)
                  then Some (set_host (su_queue s) (su_model s) [] (set_tasks (interrupt_all (su_tasks s) (su_running s)) s)) else None
      | None => None
      end
  | _ => task_cmd c s
  end.

Lemma task_cmd_step c s s' : task_cmd c s = Some s' → sup_step "h" 4 s s'.
Proof.
  destruct c; simpl; try done; destruct (su_tasks s !! j) as [t|] eqn:Et; try done; try (destruct t; try done).
  - intros [= <-]. by apply step_submit.
  - intros [= <-]. by apply step_snap.
  - intros [= <-]. by apply step_send.
  - destruct (su_lock s) eqn:El; [done|]. intros [= <-]. by apply step_ledger.
  - intros [= <-]. by apply step_teardown.
  - intros [= <-]. by apply step_decide.
  - intros [= <-]. by apply step_replan.
  - intros [= <-]. by eapply (step_activate _ _ _ _ _ _ _ _ _ true).
  - destruct answer as [b|]; [|done]. intros [= <-]. by apply step_reloaded.
Qed.

Lemma host_step_step s s' : host_step s = Some s' → sup_step "h" 4 s s'.
Proof.
  unfold host_step. destruct (su_queue s) as [|[j|p l|] q] eqn:Eq; [done|..].
  - destruct (su_model s) as [p|] eqn:Em; [|done]. intros [= <-]. by apply step_run.
  - destruct (su_running s) as [|? ?] eqn:Er; [|by destruct (su_model s)]. intros H. assert (s' = answer l true (set_host q (Some p) [] s)) as -> by (destruct (su_model s); congruence).
    by apply (step_host_load _ _ s q p l true).
  - destruct (su_running s) as [|? ?] eqn:Er; [|by destruct (su_model s)]. intros H. assert (s' = set_host q None [] s) as -> by (destruct (su_model s); congruence).
    by apply step_host_unload.
Qed.

Lemma exec_cmd_step c s s' : exec_cmd c s = Some s' → sup_step "h" 4 s s'.
Proof.
  destruct c; try apply task_cmd_step; simpl.
  - destruct (su_loads s !! l) eqn:El; [done|]. intros [= <-]. by apply step_user_load.
  - destruct (su_loads s !! l) as [ld|] eqn:El; [|done]. destruct (ld_sent ld) eqn:Es; [done|]. intros [= <-]. by apply step_load_send.
  - destruct (su_loads s !! l) as [ld|] eqn:El; [|done]. destruct (ld_answer ld) as [b|] eqn:Ea; [|done]. intros [= <-]. by apply step_loaded.
  - apply host_step_step.
  - destruct (su_model s) as [p|] eqn:Em; [|done]. case_bool_decide as Hp; [|done]. intros [= <-]. rewrite <- Em.
    eapply step_decode_failed; [done|done|by rewrite app_nil_r].
Qed.

Fixpoint exec_cmds (cs : list Cmd) (s : Sup) : option Sup :=
  match cs with [] => Some s | c :: cs => s ← exec_cmd c s; exec_cmds cs s end.

Lemma exec_cmds_steps cs s s' : exec_cmds cs s = Some s' → rtc (sup_step "h" 4) s s'.
Proof.
  revert s. induction cs as [|c cs IH]; intros s; simpl; [by intros [= <-]|]. destruct (exec_cmd c s) as [s1|] eqn:E; [|done].
  intros H. eapply rtc_l; [by apply exec_cmd_step in E|by apply IH].
Qed.

Definition ends_in (cs : list Cmd) (check : Sup → bool) (s : Sup) : bool := match exec_cmds cs s with Some s => check s | None => false end.

Lemma ends_in_spec cs check s : ends_in cs check s = true → ∃ s', rtc (sup_step "h" 4) s s' ∧ check s' = true.
Proof. unfold ends_in. destruct (exec_cmds cs s) as [s'|] eqn:E; [|done]. intros H. exists s'. split; [by eapply exec_cmds_steps|done]. Qed.

End scripts.

Definition toy_env : LoadEnv :=
  MkLoadEnv (Some 0%Z) [] (Some [ex_peer "w" Connected (Some (2 ^ 33)%Z) false]) (Some ex_moe_file) None None false 4096%Z 0%Z.
Definition toy_source : LoadedSource := MkLoadedSource "m" "m" ["m.gguf"] (len ex_moe_file) None.

(** The plan made of it. *)
Definition at_epoch (e : Z) : Plan := MkPlan (MkEpoch e) "m" PipelineParallel [MkAssignment (MkNodeId "w") (MkLayerRange 0 2) 0] 4096.

#[global] Instance Plan_eq_dec : EqDecision Plan.
Proof. solve_decision. Defined.
#[global] Instance View_eq_dec : EqDecision ActivePlanView.
Proof. solve_decision. Defined.
#[global] Instance LoadedSource_eq_dec : EqDecision LoadedSource.
Proof. solve_decision. Defined.
#[global] Instance SupError_eq_dec : EqDecision SupError.
Proof. solve_decision. Defined.
#[global] Instance EpochOutcome_eq_dec : EqDecision EpochOutcome.
Proof. solve_decision. Defined.
#[global] Instance Task_eq_dec : EqDecision Task.
Proof. solve_decision. Defined.
#[global] Instance Holder_eq_dec : EqDecision Holder.
Proof. solve_decision. Defined.
#[global] Instance Loader_eq_dec : EqDecision Loader.
Proof. solve_decision. Defined.
#[global] Instance HostItem_eq_dec : EqDecision HostItem.
Proof. solve_decision. Defined.

(** Job 1 is sent before the load of epoch 1 is installed, job 0 after it; both
    run on it and are interrupted; job 0 leads and reloads as epoch 2. *)
Definition led_reload : list Cmd :=
  [CLoad 0; CSendLoad 0; CSubmit 1; CSnap 1; CSend 1; CHost; CHost; CLoaded 0; CSubmit 0; CSnap 0; CSend 0; CHost; CFail;
   CLedger 0; CHost; CTeardown 0; CDecide 0; CReplan 0; CActivate 0; CHost; CReloaded 0].

Lemma led_reload_run :
  ends_in toy_env toy_source led_reload (λ s, bool_decide
    (su_ledger s !! 1%Z = Some (Reloaded "w") ∧ su_tasks s !! 0 = Some (TNext 1) ∧ su_tasks s !! 1 = Some (TInterrupted 0 None)
     ∧ su_lock s = None ∧ su_jobs s = 2 ∧ su_model s = Some (at_epoch 2) ∧ active_epoch (su_cluster s) = Some 2%Z
     ∧ is_epoch_failed 2 (su_cluster s) = false
     ∧ is_epoch_failed 2 (su_cluster (take_ledger 1 0 None s)) = true ∧ su_queue (take_ledger 1 0 None s) = [HUnload])) sup_init = true.
Proof. vm_compute. reflexivity. Qed.

(** Job 0 runs again on the healthy epoch 2 when job 1, which read no epoch and
    failed with epoch 1, takes the ledger: it does not follow the recorded
    reload but marks epoch 2 failed and unloads it. *)
Theorem unread_epoch_tears_down :
  ∃ s s', sup_reachable "h" 4 s ∧ sup_step "h" 4 s s'
    ∧ su_ledger s !! 1%Z = Some (Reloaded "w") ∧ su_tasks s !! 0 = Some (TNext 1) ∧ su_tasks s !! 1 = Some (TInterrupted 0 None)
    ∧ su_model s = Some (at_epoch 2) ∧ active_epoch (su_cluster s) = Some 2%Z ∧ is_epoch_failed 2 (su_cluster s) = false
    ∧ is_epoch_failed 2 (su_cluster s') = true ∧ su_queue s' = [HUnload].
Proof.
  destruct (ends_in_spec _ _ _ _ _ led_reload_run) as (s & Hr & (H1 & H2 & H3 & H4 & _ & H5 & H6 & H7 & H8 & H9)%bool_decide_eq_true).
  exists s, (take_ledger 1 0 None s). split_and!; try done. by apply step_ledger.
Qed.

(** The job is sent while a user's load runs on the host, and runs on the new
    epoch, which fails. *)
Definition swapped_away (l : nat) : list Cmd := [CLoad l; CSendLoad l; CSnap 0; CSend 0; CHost; CHost; CLoaded l; CFail].

Definition waits_stale (e : Z) (s : Sup) : bool :=
  bool_decide (su_tasks s !! 0 = Some (TInterrupted 0 (Some e)) ∧ su_lock s = None
               ∧ su_tasks (take_ledger 0 0 (Some e) s) !! 0 = Some (TNext 0)).

Lemma uncounted_run :
  ends_in toy_env toy_source ([CLoad 0; CSendLoad 0; CHost; CLoaded 0; CSubmit 0] ++ swapped_away 1)
    (λ s, waits_stale 1 s && ends_in toy_env toy_source (swapped_away 2) (waits_stale 2) (take_ledger 0 0 (Some 1%Z) s)) sup_init = true.
Proof. vm_compute. reflexivity. Qed.

(** A user's load takes no ledger and records nothing: a job can be sent again
    uncounted, and then once more. *)
Theorem uncounted_twice :
  ∃ s1 s1' s2 s2', sup_reachable "h" 4 s1 ∧ sup_step "h" 4 s1 s1' ∧ rtc (sup_step "h" 4) s1' s2 ∧ sup_step "h" 4 s2 s2'
    ∧ su_tasks s1 !! 0 = Some (TInterrupted 0 (Some 1%Z)) ∧ su_tasks s1' !! 0 = Some (TNext 0)
    ∧ su_tasks s2 !! 0 = Some (TInterrupted 0 (Some 2%Z)) ∧ su_tasks s2' !! 0 = Some (TNext 0).
Proof.
  destruct (ends_in_spec _ _ _ _ _ uncounted_run) as (s1 & Hr & [(H1 & H2 & H3)%bool_decide_eq_true H]%andb_true_iff).
  destruct (ends_in_spec _ _ _ _ _ H) as (s2 & Hr2 & (H4 & H5 & H6)%bool_decide_eq_true).
  exists s1, (take_ledger 0 0 (Some 1%Z) s1), s2, (take_ledger 0 0 (Some 2%Z) s2). split_and!; try done; by apply step_ledger.
Qed.

(** ** Witnesses *)
Lemma jobs_accounted_witness :
  ∃ s, su_tasks s !! 1 = Some (TInterrupted 0 None) ∧ su_jobs s = 2
    ∧ su_jobs s = live_jobs (su_tasks s) + su_refused s ∧ live_jobs (su_tasks s) ≤ 4
    ∧ NoDup (queued (su_queue s) ++ su_running s)
    ∧ (∀ j, j ∈ queued (su_queue s) ++ su_running s ↔ ∃ r e, su_tasks s !! j = Some (TSent r e))
    ∧ (∀ j t, su_tasks s !! j = Some t → leads t = true → su_lock s = Some (ByTask j)).
Proof.
  destruct (ends_in_spec _ _ _ _ _ led_reload_run) as (s & Hr & (_ & _ & H & _ & Hj & _)%bool_decide_eq_true).
  exists s. split; [exact H|]. split; [exact Hj|]. exact (jobs_accounted "h" 4 s Hr).
Defined.

Lemma one_retry_witness :
  ∃ s s' t t', su_tasks s !! 1 = Some t ∧ phase_of t = Waiting 0 None ∧ su_tasks s' !! 1 = Some t'
    ∧ phase_step (su_cluster s) (su_ledger s) (phase_of t) (phase_of t').
Proof.
  destruct (ends_in_spec _ _ _ _ _ led_reload_run) as (s & Hr & (_ & _ & Ht & Hl & _)%bool_decide_eq_true).
  destruct (one_retry "h" 4 s _ 1 _ Hr (step_ledger _ _ s 1 0 None Ht Hl) Ht) as (t' & Ht' & Hp).
  by exists s, (take_ledger 1 0 None s), (TInterrupted 0 None), t'.
Defined.
