(* ===== verification/PeerStore.v ===== *)
(** * The persistent peer store ([onebrain-mesh/src/store.rs])

    [peers.toml] holds one record per paired endpoint id.  Every operation
    reads the file afresh, changes the map and saves it through a temporary
    file and a rename, under one lock, so an operation is one atomic step on
    the disk; its input and output may fail at every call.  The TOML crate is
    a parameter: what it prints, it parses back.

    Whatever the calls and whatever fails, the file parses, the names in it
    are unique, and a record changes only by the operation that names it. *)

From Stdlib Require Import ZArith Lia Sorted Permutation Ascii String.
From stdpp Require Import base list strings option gmap.
From S2P Require Import Prelude StrUtil.

Open Scope Z_scope.

(** ** Data *)

(** [std::net::SocketAddr] with its order: addresses of version 4 first. *)
Inductive SocketAddr := V4 (ip port : Z) | V6 (ip port flowinfo scope_id : Z).
#[global] Instance SocketAddr_eq_dec : EqDecision SocketAddr.
Proof. solve_decision. Defined.

Definition cmp_addr (a b : SocketAddr) : comparison :=
  match a, b with
  | V4 i p, V4 j q => cmp_then (i ?= j) (p ?= q)
  | V4 _ _, V6 _ _ _ _ => Lt
  | V6 _ _ _ _, V4 _ _ => Gt
  | V6 i p f s, V6 j q g t => cmp_then (i ?= j) (cmp_then (p ?= q) (cmp_then (f ?= g) (s ?= t)))
  end.

Record PeerRecord := MkRecord {
  pr_name : string;
  pr_added_unix : Z;
  pr_direct_addrs : list SocketAddr;
  pr_relay_url : option string;
  pr_product_version : option string;
  pr_engine_build : option string }.
#[global] Instance PeerRecord_eq_dec : EqDecision PeerRecord.
Proof. solve_decision. Defined.

Definition with_addrs (direct : list SocketAddr) (relay : option string) (r : PeerRecord) : PeerRecord :=
  MkRecord (pr_name r) (pr_added_unix r) direct relay (pr_product_version r) (pr_engine_build r).
Definition with_hello (version build : string) (r : PeerRecord) : PeerRecord :=
  MkRecord (pr_name r) (pr_added_unix r) (pr_direct_addrs r) (pr_relay_url r) (Some version) (Some build).

(** The map of the store file, a [BTreeMap]: iterated in key order. *)
Notation Peers := (gmap string PeerRecord).
Definition cmp_id (a b : string * PeerRecord) : comparison := String.compare a.1 b.1.
Definition btree_list (m : Peers) : list (string * PeerRecord) := sort_by cmp_id (map_to_list m).
Definition names (m : Peers) : list string := (λ x, pr_name x.2) <$> btree_list m.

Inductive StoreError :=
  | StoreRead
  | StoreParse
  | StoreWrite
  | UnknownPeerName (name : string) (known : list string).

(** The two files of the store: [peers.toml], which may be missing, and the
    temporary file next to it. *)
Record Disk := MkDisk { d_main : option string; d_tmp : option string }.

(** What the file system does to one operation: whether the file reads, the
    directory can be made, the temporary file written (a failed write leaves
    any content) and renamed. *)
Record Io := MkIo { io_read : bool; io_mkdir : bool; io_write : option (option string); io_rename : bool }.
Definition io_ok : Io := MkIo true true None true.

(** [Vec::dedup]. *)
Fixpoint dedup (l : list SocketAddr) : list SocketAddr :=
  match l with
  | [] => []
  | a :: l => match dedup l with
              | [] => [a]
              | b :: r => if decide (a = b) then b :: r else a :: b :: r
              end
  end.

(** The search of [add] for a free name; [None] if the fuel runs out. *)
Fixpoint free_name (fuel : nat) (taken : list string) (base name : string) (n : Z) : option string :=
  match fuel with
  | O => None
  | S fuel =>
      if decide (name ∈ taken) then free_name fuel taken base (base +:+ "-" +:+ print_uint n) (u32_add n 1)
      else Some name
  end.

Definition base_name (wanted : string) : string :=
  let trimmed := trim wanted in if decide (trimmed = "") then "peer" else trimmed.

(** ** Operations *)
Section Store.
  Context (toml_parse : string → option Peers) (toml_print : Peers → option string).
  Notation result A := (Disk * res StoreError A)%type.

Definition load (io : Io) (d : Disk) : res StoreError Peers :=
  if io_read io then
    match d_main d with
    | None => Ok ∅
    | Some raw => ok_or (toml_parse raw) StoreParse
    end
  else Err StoreRead.

Definition contains (io : Io) (id : string) (d : Disk) : res StoreError bool :=
  peers ← load io d; mret (bool_decide (is_Some ((peers : Peers) !! id))).

Definition save (io : Io) (peers : Peers) (d : Disk) : result unit :=
  match toml_print peers with
  | None => (d, Err StoreWrite)
  | Some body =>
      if io_mkdir io then
        match io_write io with
        | Some rest => (MkDisk (d_main d) rest, Err StoreWrite)
        | None =>
            if io_rename io then (MkDisk (Some body) None, Ok ())
            else (MkDisk (d_main d) (Some body), Err StoreWrite)
        end
      else (d, Err StoreWrite)
  end.

(** Load, compute the new map or none, and save it if there is one. *)
Definition load_modify_save {A} (io : Io) (d : Disk) (f : Peers → res StoreError (option Peers * A)) : result A :=
  match load io d with
  | Err e => (d, Err e)
  | Panic => (d, Panic)
  | Ok peers =>
      match f peers with
      | Err e => (d, Err e)
      | Panic => (d, Panic)
      | Ok (None, a) => (d, Ok a)
      | Ok (Some peers', a) =>
          let '(d', r) := save io peers' d in (d', _ ← r; Ok a)
      end
  end.

(** [add], at the time [now] of the system clock. *)
Definition add_peer (now : Z) (id wanted : string) (peers : Peers) : res StoreError (option Peers * string) :=
  match peers !! id with
  | Some existing => Ok (None, pr_name existing)
  | None =>
      let base := base_name wanted in
      match free_name (S (size peers)) (names peers) base base 2 with
      | Some name => Ok (Some (<[id := MkRecord name now [] None None None]> peers), name)
      | None => Panic
      end
  end.
Definition add (io : Io) (now : Z) (id wanted : string) (d : Disk) : result string :=
  load_modify_save io d (add_peer now id wanted).

Definition update_peer_addrs (id : string) (direct_addrs : list SocketAddr) (relay_url : option string)
    (peers : Peers) : res StoreError (option Peers * bool) :=
  match peers !! id with
  | None => Ok (None, false)
  | Some record =>
      let direct := dedup (sort_by cmp_addr direct_addrs) in
      let changed_direct := negb (bool_decide (direct = [])) && negb (bool_decide (pr_direct_addrs record = direct)) in
      let changed_relay := bool_decide (is_Some relay_url) && negb (bool_decide (pr_relay_url record = relay_url)) in
      let record' := with_addrs (if changed_direct then direct else pr_direct_addrs record)
                                (if changed_relay then relay_url else pr_relay_url record) record in
      let changed := changed_direct || changed_relay in
      Ok (if changed then Some (<[id := record']> peers) else None, changed)
  end.
Definition update_addrs (io : Io) (id : string) (direct_addrs : list SocketAddr) (relay_url : option string) (d : Disk) :
    result bool :=
  load_modify_save io d (update_peer_addrs id direct_addrs relay_url).

Definition update_peer_hello (id version build : string) (peers : Peers) : res StoreError (option Peers * bool) :=
  match peers !! id with
  | None => Ok (None, false)
  | Some record =>
      if decide (pr_product_version record = Some version ∧ pr_engine_build record = Some build)
      then Ok (None, false)
      else Ok (Some (<[id := with_hello version build record]> peers), true)
  end.
Definition update_hello (io : Io) (id version build : string) (d : Disk) : result bool :=
  load_modify_save io d (update_peer_hello id version build).

Definition remove_peer (name : string) (peers : Peers) : res StoreError (option Peers * string) :=
  match find_first (λ x, bool_decide (pr_name x.2 = name)) (btree_list peers) with
  | Some (id, _) => Ok (Some (delete id peers), id)
  | None => Err (UnknownPeerName name (sort_by String.compare (names peers)))
  end.
Definition remove_by_name (io : Io) (name : string) (d : Disk) : result string :=
  load_modify_save io d (remove_peer name).
End Store.

(** ** The search for a free name *)

(** The names [add] tries, in order: the base name, then suffixed from 2. *)
Definition candidate (base : string) (k : nat) : string :=
  match k with O => base | S i => base +:+ "-" +:+ print_uint (Z.of_nat i + 2) end.

Lemma print_uint_inj a b : in_u64 a → in_u64 b → print_uint a = print_uint b → a = b.
Proof.
  intros Ha Hb E. assert (Some a = Some b) as [= ->]; [|done].
  rewrite <- (parse_print_uint u64_max a), <- (parse_print_uint u64_max b), E;
    unfold in_u64, u64_max in *; first [done|lia].
Qed.

Lemma candidate_inj base i j :
  Z.of_nat i < 2 ^ 32 → Z.of_nat j < 2 ^ 32 → candidate base i = candidate base j → i = j.
Proof.
  assert (∀ n, base ≠ base +:+ "-" +:+ print_uint n) as Hne.
  { intros n E. apply (f_equal String.length) in E. rewrite !string_length_app in E. simpl in E. lia. }
  intros Hi Hj. destruct i as [|i], j as [|j]; simpl; [done| |by intros E; destruct (Hne _ (eq_sym E))|].
  { intros E. by destruct (Hne _ E). }
  intros E. apply str_app_inj in E as [_ E]; [|done]. apply str_app_inj in E as [_ E]; [|done].
  apply print_uint_inj in E; unfold in_u64; lia.
Qed.

Lemma free_name_spec fuel taken base i :
  Z.of_nat (i + fuel) + 2 < 2 ^ 32 →
  match free_name fuel taken base (candidate base i) (Z.of_nat i + 2) with
  | Some c => ∃ k, c = candidate base k ∧ (i ≤ k < i + fuel)%nat ∧ c ∉ taken ∧
                   ∀ j, (i ≤ j < k)%nat → candidate base j ∈ taken
  | None => ∀ j, (i ≤ j < i + fuel)%nat → candidate base j ∈ taken
  end.
Proof.
  revert i. induction fuel as [|fuel IH]; intros i Hi; simpl; [lia|].
  destruct (decide (candidate base i ∈ taken)) as [Hin|Hout].
  - replace (u32_add (Z.of_nat i + 2) 1) with (Z.of_nat (S i) + 2)
      by (unfold u32_add; rewrite wrap32_small; unfold in_u32; lia).
    specialize (IH (S i)). simpl candidate in IH. destruct (free_name _ _ _ _ _) as [c|].
    + destruct IH as (k & -> & Hk & Hc & Hj); [lia|]. exists k. split_and!; [done|lia|lia|done|].
      intros j Hlt. destruct (decide (j = i)) as [->|]; [done|]. apply Hj. lia.
    + intros j Hlt. destruct (decide (j = i)) as [->|]; [done|]. apply IH; lia.
  - exists i. split_and!; [done|lia|lia|done|lia].
Qed.

(** More names are tried than are taken, and they differ: one is free. *)
Lemma free_name_total taken base :
  Z.of_nat (length taken) + 3 < 2 ^ 32 →
  ∃ k, free_name (S (length taken)) taken base base 2 = Some (candidate base k) ∧
    (k ≤ length taken)%nat ∧ candidate base k ∉ taken ∧ ∀ j, (j < k)%nat → candidate base j ∈ taken.
Proof.
  intros Hlen. pose proof (free_name_spec (S (length taken)) taken base 0 ltac:(lia)) as H.
  simpl candidate in H. change (Z.of_nat 0 + 2) with 2 in H. destruct (free_name _ _ _ _ _) as [c|].
  - destruct H as (k & -> & Hk & Hc & Hj). exists k. split_and!; [done|lia|done|]. intros; apply Hj; lia.
  - exfalso. assert (NoDup (candidate base <$> seq 0 (S (length taken)))) as Hnd.
    { apply (NoDup_fmap_2_strong); [|apply NoDup_seq].
      intros x y Hx%elem_of_seq Hy%elem_of_seq. apply candidate_inj; lia. }
    pose proof (NoDup_submseteq _ taken Hnd) as Hsub. apply submseteq_length in Hsub.
    + rewrite length_fmap, length_seq in Hsub. lia.
    + intros x. rewrite list_elem_of_fmap. intros (j & -> & Hj%elem_of_seq). apply H. lia.
Qed.

(** ** The map in key order *)
Lemma btree_list_perm (m : Peers) : btree_list m ≡ₚ map_to_list m.
Proof. apply sort_by_Permutation. Qed.

Lemma elem_of_btree_list (m : Peers) id r : (id, r) ∈ btree_list m ↔ m !! id = Some r.
Proof. by rewrite btree_list_perm, elem_of_map_to_list. Qed.

Lemma names_perm (m : Peers) : names m ≡ₚ (λ x, pr_name x.2) <$> map_to_list m.
Proof. unfold names. by rewrite btree_list_perm. Qed.

Lemma length_names m : length (names m) = size m.
Proof. by rewrite names_perm, length_fmap, length_map_to_list. Qed.

Lemma elem_of_names m n : n ∈ names m ↔ ∃ id r, m !! id = Some r ∧ pr_name r = n.
Proof.
  rewrite names_perm, list_elem_of_fmap. split.
  - intros ([id r] & -> & H%elem_of_map_to_list). by exists id, r.
  - intros (id & r & H & <-). exists (id, r). by rewrite elem_of_map_to_list.
Qed.

(** Unique names, and how they are kept. *)
Definition unique_names (m : Peers) : Prop :=
  ∀ id id' r r', m !! id = Some r → m !! id' = Some r' → pr_name r = pr_name r' → id = id'.

Lemma unique_names_NoDup m : unique_names m → NoDup (names m).
Proof.
  intros H. rewrite names_perm. apply NoDup_fmap_2_strong; [|apply NoDup_map_to_list].
  intros [i r] [j r'] Hi%elem_of_map_to_list Hj%elem_of_map_to_list E. simpl in E.
  assert (i = j) as -> by eauto. congruence.
Qed.

Lemma unique_names_delete m id : unique_names m → unique_names (delete id m).
Proof. intros H i j r r' [_ Hi]%lookup_delete_Some [_ Hj]%lookup_delete_Some. eauto. Qed.

Lemma unique_names_insert m id r :
  unique_names m → (∀ i r', m !! i = Some r' → pr_name r' = pr_name r → i = id) → unique_names (<[id := r]> m).
Proof.
  intros H Hn i j r1 r2 [[<- <-]|[Hi H1]]%lookup_insert_Some [[<- <-]|[Hj H2]]%lookup_insert_Some E; eauto.
  symmetry. eauto.
Qed.

(** ** One operation on the disk *)
Inductive StoreOp :=
  | OpAdd (now : Z) (id wanted : string)
  | OpAddrs (id : string) (direct_addrs : list SocketAddr) (relay_url : option string)
  | OpHello (id version build : string)
  | OpRemove (name : string).

(** May the operation create, may it delete, the record of an id? *)
Definition creates (op : StoreOp) (id : string) : Prop := match op with OpAdd _ i _ => i = id | _ => False end.
Definition deletes (op : StoreOp) (m : Peers) (id : string) : Prop :=
  match op with OpRemove name => pr_name <$> m !! id = Some name | _ => False end.

(** What an operation does to the map, whatever its result. *)
Definition op_effect (op : StoreOp) (m : Peers) : option Peers :=
  let new {A} (r : res StoreError (option Peers * A)) := match r with Ok (o, _) => o | _ => None end in
  match op with
  | OpAdd now id wanted => new (add_peer now id wanted m)
  | OpAddrs id direct relay => new (update_peer_addrs id direct relay m)
  | OpHello id version build => new (update_peer_hello id version build m)
  | OpRemove name => new (remove_peer name m)
  end.

Lemma remove_peer_Some name m id r :
  find_first (λ x, bool_decide (pr_name x.2 = name)) (btree_list m) = Some (id, r) →
  m !! id = Some r ∧ pr_name r = name.
Proof. intros [H%elem_of_btree_list Hn%bool_decide_eq_true]%find_first_Some. done. Qed.

Lemma remove_peer_None name m :
  find_first (λ x, bool_decide (pr_name x.2 = name)) (btree_list m) = None → name ∉ names m.
Proof.
  rewrite find_first_None. intros H. rewrite elem_of_names. intros (id & r & Hid & Hn).
  rewrite list.Forall_forall in H. apply elem_of_btree_list, H in Hid. by apply bool_decide_eq_false in Hid.
Qed.

(** The name [add] gives is free. *)
Lemma free_name_free fuel taken base name n c : free_name fuel taken base name n = Some c → c ∉ taken.
Proof.
  revert name n. induction fuel as [|fuel IH]; intros name n; simpl; [done|].
  destruct (decide _); [apply IH|]. by intros [= <-].
Qed.

Record effect_ok (op : StoreOp) (m m' : Peers) : Prop := {
  eff_unique : unique_names m → unique_names m';
  eff_kept id r : m !! id = Some r → ~ deletes op m id →
    ∃ r', m' !! id = Some r' ∧ pr_name r' = pr_name r ∧ pr_added_unix r' = pr_added_unix r;
  eff_not_created id : m !! id = None → ~ creates op id → m' !! id = None }.

Lemma effect_ok_refl op m : effect_ok op m m.
Proof. by split; eauto. Qed.

(** A record replaced by one of the same name. *)
Lemma effect_ok_update op m id r r' :
  m !! id = Some r → pr_name r' = pr_name r → pr_added_unix r' = pr_added_unix r → effect_ok op m (<[id := r']> m).
Proof.
  intros Hid Hn Ha. split.
  - intros Hu. apply unique_names_insert; [done|]. rewrite Hn. eauto.
  - intros i ri Hi _. destruct (decide (i = id)) as [->|]; simplify_map_eq; eauto.
  - intros i Hi _. destruct (decide (i = id)) as [->|]; by simplify_map_eq.
Qed.

Lemma op_effect_ok op m m' : op_effect op m = Some m' → effect_ok op m m'.
Proof.
  destruct op as [now id wanted|id direct relay|id version build|name]; simpl.
  - unfold add_peer. destruct (m !! id) as [r|] eqn:Hid; [done|].
    destruct (free_name _ _ _ _ _) as [name|] eqn:Hf; [|done]. intros [= <-]. apply free_name_free in Hf. split.
    + intros Hu. apply unique_names_insert; [done|]. simpl. intros i r' Hi E. destruct Hf. apply elem_of_names. eauto.
    + intros i r Hi _. exists r. rewrite lookup_insert_ne by congruence. done.
    + intros i Hi Hc. by rewrite lookup_insert_ne.
  - unfold update_peer_addrs. destruct (m !! id) as [r|] eqn:Hid; [|done].
    destruct (_ || _); [|done]. intros [= <-]. by eapply effect_ok_update.
  - unfold update_peer_hello. destruct (m !! id) as [r|] eqn:Hid; [|done].
    destruct (decide _); [done|]. intros [= <-]. by eapply effect_ok_update.
  - unfold remove_peer. destruct (find_first _ _) as [[id r]|] eqn:Hf; [|done]. intros [= <-].
    apply remove_peer_Some in Hf as [Hid Hn]. split.
    + apply unique_names_delete.
    + intros i ri Hi Hd. exists ri. rewrite lookup_delete_ne; [done|]. intros <-. apply Hd. simpl.
      rewrite Hid. simpl. congruence.
    + intros i Hi _. apply lookup_delete_None. auto.
Qed.

(** ** The store on the disk *)
Section StoreOk.
  Context (toml_parse : string → option Peers) (toml_print : Peers → option string).
  (** Printing and parsing back gives the map. *)
  Context (toml_roundtrip : ∀ m b, toml_print m = Some b → toml_parse b = Some m).
  Notation load := (load toml_parse).
  Notation lms := (load_modify_save toml_parse toml_print).

Definition run_op (io : Io) (op : StoreOp) (d : Disk) : Disk :=
  match op with
  | OpAdd now id wanted => (add toml_parse toml_print io now id wanted d).1
  | OpAddrs id direct relay => (update_addrs toml_parse toml_print io id direct relay d).1
  | OpHello id version build => (update_hello toml_parse toml_print io id version build d).1
  | OpRemove name => (remove_by_name toml_parse toml_print io name d).1
  end.
Definition run_ops (ops : list (Io * StoreOp)) (d : Disk) : Disk := foldl (λ d x, run_op x.1 x.2 d) d ops.

(** What the file of the disk holds. *)
Definition holds (d : Disk) (m : Peers) : Prop := load io_ok d = Ok m.

Lemma holds_main d d' m : d_main d' = d_main d → holds d m → holds d' m.
Proof. unfold holds, PeerStore.load. by intros ->. Qed.

Lemma load_holds io d m m' : load io d = Ok m' → holds d m → m' = m.
Proof. unfold holds, PeerStore.load. destruct (io_read io); simpl; congruence. Qed.

(** A save replaces the whole file or leaves it as it was. *)
Lemma save_main io m d :
  match save toml_print io m d with
  | (d', Ok _) => holds d' m
  | (d', Err e) => d_main d' = d_main d ∧ e = StoreWrite
  | (_, Panic) => False
  end.
Proof using toml_roundtrip.
  unfold save. destruct (toml_print m) as [b|] eqn:Hb; [|done].
  destruct (io_mkdir io); [|done]. destruct (io_write io); [done|]. destruct (io_rename io); [|done].
  unfold holds, PeerStore.load. simpl. by rewrite (toml_roundtrip _ _ Hb).
Qed.

(** Every operation leaves the file, or replaces it by its effect's. *)
Lemma lms_main {A} io d m (f : Peers → res StoreError (option Peers * A)) :
  holds d m →
  match lms io d f with
  | (d', Ok a) => ∃ o, f m = Ok (o, a) ∧ match o with Some m' => holds d' m' | None => d' = d end
  | (d', Err e) => d_main d' = d_main d ∧
      (e = StoreRead ∧ io_read io = false ∨ f m = Err e ∧ d' = d ∨ e = StoreWrite ∧ ∃ m' a, f m = Ok (Some m', a))
  | (d', Panic) => d' = d ∧ f m = Panic
  end.
Proof using toml_roundtrip.
  intros Hd. unfold load_modify_save. destruct (load io d) as [m0|e|] eqn:Hl.
  - rewrite (load_holds _ _ _ _ Hl Hd). destruct (f m) as [[[m'|] a]|e|] eqn:Hf; [|by exists None|auto|auto].
    pose proof (save_main io m' d) as Hs. destruct (save toml_print io m' d) as [d' [[]|e|]]; simpl; [by exists (Some m')| |done].
    destruct Hs as [Hm ->]. eauto 10.
  - unfold holds, PeerStore.load in *. destruct (io_read io); [|injection Hl as <-; auto].
    simpl in Hd. congruence.
  - unfold PeerStore.load in Hl. destruct (io_read io); [|done]. destruct (d_main d) as [raw|]; [|done].
    by destruct (toml_parse raw).
Qed.

Lemma run_op_holds io op d m : holds d m →
  ∃ m', holds (run_op io op d) m' ∧ (m' = m ∨ op_effect op m = Some m').
Proof using toml_roundtrip.
  intros Hd. destruct op; simpl;
    (match goal with |- context [?f toml_parse toml_print io] => unfold f end);
    (match goal with |- context [lms io d ?f] => pose proof (lms_main io d m f Hd) as H end);
    destruct (lms _ _ _) as [d' [a|e|]]; simpl in *;
    try (destruct H as (o & -> & Ho); destruct o; [eauto|subst; eauto]);
    destruct H as [H _]; exists m; (split; [eapply holds_main; [|done]; first [done|by subst]|by left]).
Qed.

(** The map after a run, against the map before it. *)
Record run_kept (ops : list (Io * StoreOp)) (m m' : Peers) : Prop := {
  rk_unique : unique_names m → unique_names m';
  rk_paired id r : m !! id = Some r → Forall (λ x, x.2 ≠ OpRemove (pr_name r)) ops →
    ∃ r', m' !! id = Some r' ∧ pr_name r' = pr_name r ∧ pr_added_unix r' = pr_added_unix r;
  rk_unpaired id : m !! id = None → Forall (λ x, ~ creates x.2 id) ops → m' !! id = None }.

Lemma run_ops_kept ops d m : holds d m → ∃ m', holds (run_ops ops d) m' ∧ run_kept ops m m'.
Proof using toml_roundtrip.
  revert d m. induction ops as [|[io op] ops IH]; intros d m Hd; simpl.
  { exists m. split; [done|]. split; eauto. }
  destruct (run_op_holds io op d m Hd) as (m1 & H1 & Heff).
  assert (effect_ok op m m1) as E by (destruct Heff as [->|]; [apply effect_ok_refl|by apply op_effect_ok]).
  destruct (IH _ _ H1) as (m' & H' & K). exists m'. split; [done|]. split.
  - intros Hu. apply K, E, Hu.
  - intros id r Hid [Hop Hops]%list.Forall_cons.
    destruct (eff_kept _ _ _ E id r Hid) as (r1 & Hr1 & Hn1 & Ha1).
    { destruct op; simpl; try tauto. rewrite Hid. intros [= <-]. done. }
    rewrite <- Hn1, <- Ha1. apply (rk_paired _ _ _ K id r1 Hr1). by rewrite Hn1.
  - intros id Hid [Hop Hops]%list.Forall_cons. apply K; [|done]. by apply E.
Qed.
End StoreOk.

(** ** Theorems *)

(** C20: Pairings are durable.  Take any run of the store from a missing file,
    cut anywhere, with any failure of the file system at any call: the file
    parses at both points, with unique names.  A peer paired at the cut is
    paired at the end under the same name and pairing time unless a removal
    of that name ran in between, and an id that is not paired at the cut is
    not at the end unless an [add] of it ran: an address or hello update
    never brings an unpaired peer back. *)
Theorem pairings_durable (toml_parse : string → option Peers) (toml_print : Peers → option string)
  (toml_roundtrip : ∀ m b, toml_print m = Some b → toml_parse b = Some m) ops1 ops2 :
  let run ops := run_ops toml_parse toml_print ops (MkDisk None None) in
  ∃ m1 m2, load toml_parse io_ok (run ops1) = Ok m1 ∧ load toml_parse io_ok (run (ops1 ++ ops2)) = Ok m2 ∧
    NoDup (names m1) ∧ NoDup (names m2) ∧
    (∀ id r, m1 !! id = Some r → Forall (λ x, x.2 ≠ OpRemove (pr_name r)) ops2 →
       ∃ r', m2 !! id = Some r' ∧ pr_name r' = pr_name r ∧ pr_added_unix r' = pr_added_unix r) ∧
    (∀ id, m1 !! id = None → Forall (λ x, ~ creates x.2 id) ops2 → m2 !! id = None).
Proof.
  intros run. destruct (run_ops_kept _ _ toml_roundtrip ops1 (MkDisk None None) ∅ eq_refl) as (m1 & H1 & K1).
  destruct (run_ops_kept _ _ toml_roundtrip ops2 _ _ H1) as (m2 & H2 & K2).
  assert (unique_names m1) as Hu by (by apply K1).
  exists m1, m2. split_and!; [done| |by apply unique_names_NoDup|apply unique_names_NoDup, K2, Hu|apply K2|apply K2].
  unfold run, run_ops. by rewrite foldl_app.
Qed.

(** C21: Removing a peer by name.  On a store that reads, with unique names:
    the removal deletes exactly the record of that name and returns its id;
    or it fails to write and the file is as before; or no record has the
    name, and the error carries the name and all names of the store, sorted,
    and nothing is written.  There is no other outcome. *)
Theorem remove_by_name_exact (toml_parse : string → option Peers) (toml_print : Peers → option string)
  (toml_roundtrip : ∀ m b, toml_print m = Some b → toml_parse b = Some m) io name d m
  (Hload : load toml_parse io d = Ok m) (Hunique : unique_names m) :
  match remove_by_name toml_parse toml_print io name d with
  | (d', Ok id) => (∀ i, pr_name <$> m !! i = Some name ↔ i = id) ∧ load toml_parse io_ok d' = Ok (delete id m)
  | (d', Err (UnknownPeerName n known)) =>
      d' = d ∧ n = name ∧ name ∉ names m ∧ known ≡ₚ names m ∧ StronglySorted (cmp_le String.compare) known
  | (d', Err StoreWrite) => d_main d' = d_main d ∧ name ∈ names m
  | _ => False
  end.
Proof.
  assert (io_read io = true) as Hio by (unfold load in Hload; by destruct (io_read io)).
  assert (holds toml_parse d m) as Hd by (unfold holds, load in *; by rewrite Hio in Hload).
  pose proof (lms_main _ _ toml_roundtrip io d m (remove_peer name) Hd) as H. unfold remove_by_name.
  destruct (load_modify_save _ _ _ _ _) as [d' r]. unfold remove_peer in H.
  destruct (find_first _ _) as [[id rec]|] eqn:Hf.
  - apply remove_peer_Some in Hf as [Hid Hn]. destruct r as [a|e|].
    + destruct H as (o & [= <- <-] & H'). split; [|done]. intros i. split.
      * intros (r' & Hr & E)%fmap_Some. eapply Hunique; eauto. congruence.
      * intros ->. rewrite Hid. simpl. congruence.
    + destruct H as [Hm [[-> Hr]|[[? _]|[-> _]]]]; [congruence|done|]. split; [done|]. apply elem_of_names. eauto.
    + by destruct H.
  - apply remove_peer_None in Hf. destruct r as [a|e|]; [by destruct H as (? & ? & _)| |by destruct H].
    destruct H as [Hm [[-> Hr]|[[[= <-] ->]|(-> & ? & ? & ?)]]]; [congruence| |done].
    split_and!; [done|done|done|apply sort_by_Permutation|apply sort_by_Sorted; apply _].
Qed.

(** [add] of a new id ends within as many tries as there are peers plus
    one, below 2^32 of them, and picks the first free name of the sequence
    [base], [base-2], [base-3], ..., where the base is the wanted name
    trimmed, or [peer] if that is empty.  With no failing write, the store
    then holds the old records and a new one of that name and time. *)
Theorem add_first_free (toml_parse : string → option Peers) (toml_print : Peers → option string)
  (toml_roundtrip : ∀ m b, toml_print m = Some b → toml_parse b = Some m) now id wanted d m
  (Hload : load toml_parse io_ok d = Ok m) (Hnew : m !! id = None) (Hsize : Z.of_nat (size m) + 3 < 2 ^ 32) :
  ∃ k, let name := candidate (base_name wanted) k in
    let m' := <[id := MkRecord name now [] None None None]> m in
    (k ≤ size m)%nat ∧ name ∉ names m ∧ (∀ j, (j < k)%nat → candidate (base_name wanted) j ∈ names m) ∧
    (is_Some (toml_print m') →
      let '(d', r) := add toml_parse toml_print io_ok now id wanted d in
      r = Ok name ∧ load toml_parse io_ok d' = Ok m').
Proof.
  destruct (free_name_total (names m) (base_name wanted)) as (k & Hf & Hk & Hfree & Hleast).
  { by rewrite length_names. }
  rewrite length_names in *. exists k. split_and!; [done|done|done|]. intros [body Hp].
  unfold add, load_modify_save. rewrite Hload. unfold add_peer. rewrite Hnew, Hf. unfold save. rewrite Hp. simpl.
  split; [done|]. unfold load. simpl. by rewrite (toml_roundtrip _ _ Hp).
Qed.

(** ** A text format for the examples: the binary digits of a map's code *)
#[global] Instance SocketAddr_countable : Countable SocketAddr.
Proof.
  refine (inj_countable' (λ a, match a with V4 i p => inl (i, p) | V6 i p f s => inr (i, p, f, s) end)
    (λ x, match x with inl (i, p) => V4 i p | inr (i, p, f, s) => V6 i p f s end) _).
  by intros [].
Defined.
#[global] Instance PeerRecord_countable : Countable PeerRecord.
Proof.
  refine (inj_countable'
    (λ r, (pr_name r, pr_added_unix r, pr_direct_addrs r, pr_relay_url r, pr_product_version r, pr_engine_build r))
    (λ '(n, a, d, u, v, b), MkRecord n a d u v b) _).
  by intros [].
Defined.

Fixpoint pos_text (p : positive) : string :=
  match p with xH => "" | xO p => String "0" (pos_text p) | xI p => String "1" (pos_text p) end.
Fixpoint text_pos (s : string) : positive :=
  match s with EmptyString => xH | String "0" s => xO (text_pos s) | String _ s => xI (text_pos s) end.
Lemma text_pos_text p : text_pos (pos_text p) = p.
Proof. induction p; simpl; congruence. Qed.

Definition ex_print (m : Peers) : option string := Some (pos_text (encode m)).
Definition ex_parse (s : string) : option Peers := decode (text_pos s).
Lemma ex_roundtrip m b : ex_print m = Some b → ex_parse b = Some m.
Proof. intros [= <-]. unfold ex_parse. by rewrite text_pos_text, decode_encode. Qed.

Definition ex_ops : list (Io * StoreOp) :=
  [(io_ok, OpAdd 10 "aaaa" " laptop "); (io_ok, OpAdd 11 "bbbb" "laptop");
   (MkIo true true (Some None) true, OpRemove "laptop"); (io_ok, OpHello "cccc" "1" "b")].

Definition ex_disk : Disk := run_ops ex_parse ex_print ex_ops (MkDisk None None).
Definition ex_disk2 : Disk := run_ops ex_parse ex_print (ex_ops ++ [(io_ok, OpRemove "laptop")]) (MkDisk None None).
Definition ex_map2 : Peers := {["bbbb" := MkRecord "laptop-2" 11 [] None None None]}.
Definition ex_map : Peers := <["aaaa" := MkRecord "laptop" 10 [] None None None]> ex_map2.

Lemma ex_disk_holds : load ex_parse io_ok ex_disk = Ok ex_map.
Proof. vm_compute. reflexivity. Qed.
Lemma ex_disk2_holds : load ex_parse io_ok ex_disk2 = Ok ex_map2.
Proof. vm_compute. reflexivity. Qed.
Lemma ex_names : names ex_map = ["laptop"; "laptop-2"] ∧ names ex_map2 = ["laptop-2"].
Proof. by vm_compute. Qed.

Lemma pairings_durable_witness :
  ∃ m1 m2, load ex_parse io_ok ex_disk = Ok m1 ∧ load ex_parse io_ok ex_disk2 = Ok m2 ∧
    names m1 = ["laptop"; "laptop-2"] ∧ names m2 = ["laptop-2"] ∧ NoDup (names m2).
Proof.
  destruct (pairings_durable ex_parse ex_print ex_roundtrip ex_ops [(io_ok, OpRemove "laptop")])
    as (m1 & m2 & H1 & H2 & _ & Hn & _).
  change (load ex_parse io_ok ex_disk = Ok m1) in H1. change (load ex_parse io_ok ex_disk2 = Ok m2) in H2.
  pose proof ex_disk_holds. pose proof ex_disk2_holds.
  assert (m1 = ex_map) as -> by congruence. assert (m2 = ex_map2) as -> by congruence.
  exists ex_map, ex_map2. split; [exact H1|]. split; [exact H2|]. split; [apply ex_names|]. split; [apply ex_names|exact Hn].
Defined.

Lemma ex_map_unique : unique_names ex_map.
Proof.
  intros i j r r'. unfold ex_map, ex_map2. rewrite !lookup_insert_Some, !lookup_singleton_Some. intros Hi Hj E.
  naive_solver.
Qed.

Lemma ex_remove : (remove_by_name ex_parse ex_print io_ok "desktop" ex_disk).2 = Err (UnknownPeerName "desktop" ["laptop"; "laptop-2"]).
Proof. vm_compute. reflexivity. Qed.
Lemma ex_add : (add ex_parse ex_print io_ok 12 "cccc" "laptop" ex_disk).2 = Ok "laptop-3".
Proof. vm_compute. reflexivity. Qed.

Lemma remove_by_name_exact_witness :
  "desktop" ∉ names ex_map ∧
  (remove_by_name ex_parse ex_print io_ok "desktop" ex_disk).2 = Err (UnknownPeerName "desktop" ["laptop"; "laptop-2"]).
Proof.
  pose proof (remove_by_name_exact ex_parse ex_print ex_roundtrip io_ok "desktop" ex_disk ex_map ex_disk_holds ex_map_unique) as H.
  pose proof ex_remove as E. destruct (remove_by_name ex_parse ex_print io_ok "desktop" ex_disk) as [d' r].
  cbn [snd] in E. subst r. split; [apply H|reflexivity].
Defined.

Lemma add_first_free_witness :
  (add ex_parse ex_print io_ok 12 "cccc" "laptop" ex_disk).2 = Ok "laptop-3" ∧
  ∃ k, "laptop-3" = candidate (base_name "laptop") k.
Proof.
  destruct (add_first_free ex_parse ex_print ex_roundtrip 12 "cccc" "laptop" ex_disk ex_map ex_disk_holds eq_refl ltac:(vm_compute; reflexivity))
    as (k & _ & _ & _ & H).
  specialize (H (ex_intro _ _ eq_refl)). pose proof ex_add as E.
  destruct (add ex_parse ex_print io_ok 12 "cccc" "laptop" ex_disk) as [d' r]. cbn [snd] in E. subst r.
  split; [reflexivity|]. exists k. destruct H as [H _]. congruence.
Defined.
