(* ===== verification/Pairing.v ===== *)
(** * Pairing two devices ([onebrain-mesh/src/pairing.rs],
      [onebrain-proto/src/pair.rs])

    The frame codec, the six-digit code, the key-confirmation MAC and the two
    sides of one pairing attempt.  An attempt is a process that opens a
    stream, sends and receives messages and ends with an outcome or an error;
    postcard, SPAKE2 and BLAKE3 are parameters. *)

From Stdlib Require Import ZArith Lia Ascii String.
From stdpp Require Import base list strings option numbers vector.
From S2P Require Import Prelude StrUtil Gguf.

Open Scope Z_scope.

Inductive PairError :=
  | Stream (detail : string)
  | Proto
  | PairRejected (reason : string)
  | BadPairTarget (input : string)
  | Rng.

(** ** Frames: a u32 length, little endian, and the encoded message *)
Definition MAX_FRAME_BYTES : Z := Z.shiftl 1 20.

Section Frames.
  Context {T : Type} (encode : T → option bytes) (decode : bytes → option T).

(** The bytes [write_frame] puts on the stream. *)
Definition write_frame (msg : T) : res PairError bytes :=
  match encode msg with
  | None => Err Proto
  | Some payload =>
      if MAX_FRAME_BYTES <? len payload
      then Err (Stream ("refusing to send oversized frame (" +:+ print_uint (len payload) +:+ " bytes)"))
      else Ok (enc_uint 4 (wrap32 (len payload)) ++ payload)
  end.

(** [read_exact] on a stream of which [bs] is all that will arrive. *)
Definition read_exact (n : Z) (bs : bytes) : res PairError (bytes * bytes) :=
  if len bs <? n then Err (Stream "stream finished early")
  else Ok (take (Z.to_nat n) bs, drop (Z.to_nat n) bs).

Definition read_frame (bs : bytes) : res PairError (T * bytes) :=
  '(len_buf, bs) ← read_exact 4 bs;
  let n := le_val len_buf in
  if MAX_FRAME_BYTES <? n
  then Err (Stream ("peer sent oversized frame (" +:+ print_uint n +:+ " bytes)"))
  else '(buf, bs) ← read_exact n bs;
       match decode buf with Some msg => Ok (msg, bs) | None => Err Proto end.

(** Several frames in a row. *)
Fixpoint write_frames (msgs : list T) : res PairError bytes :=
  match msgs with
  | [] => Ok []
  | m :: ms => b ← write_frame m; bs ← write_frames ms; Ok (b ++ bs)
  end.
Fixpoint read_frames (n : nat) (bs : bytes) : res PairError (list T * bytes) :=
  match n with
  | O => Ok ([], bs)
  | S n => '(m, bs) ← read_frame bs; '(ms, bs) ← read_frames n bs; Ok (m :: ms, bs)
  end.
End Frames.

(** ** The pairing code *)
Definition CODE_LIMIT : Z := u32_max / 1000000 * 1000000.

(** [generate_code] on the numbers the OS generator draws, [None] for a
    failure of it; [None] while every draw so far was rejected. *)
Fixpoint generate_code (draws : list (option Z)) : option (res PairError string) :=
  match draws with
  | [] => None
  | None :: _ => Some (Err Rng)
  | Some v :: draws =>
      if v <? CODE_LIMIT then Some (Ok (print_min 6 (v mod 1000000))) else generate_code draws
  end.

(** The byte offsets at which a character of the input starts, and the
    number of bytes to the next. *)
Definition char_starts (s : string) : list nat := filter (λ i, is_char_boundary i s = true) (seq 0 (String.length s)).
Definition char_len (s : string) (i : nat) : nat :=
  match find_first (λ n, is_char_boundary (i + n) s) (seq 1 (String.length s - i)) with Some n => n | None => 0 end.

Definition DISPLAY_MAX : nat := 48.
Definition truncate_for_display (input : string) : string :=
  if decide (String.length input ≤ DISPLAY_MAX)%nat then input
  else
    let cut := match list.last (filter (λ i, (i < DISPLAY_MAX)%nat) (char_starts input)) with
               | Some i => (i + char_len input i)%nat
               | None => 0%nat
               end in
    str_take cut input +:+ "…".

Definition validate_code (code : string) : res PairError string :=
  let trimmed := trim code in
  if (String.length trimmed =? 6)%nat && str_all is_digit trimmed then Ok trimmed
  else Err (BadPairTarget (truncate_for_display code)).

(** ** Messages and the confirmation MAC *)

(** [[u8; 32]]. *)
Notation Mac := (vec ascii 32).
Definition PAIR_CONFIRM_CONTEXT : string := "onebrain-pair-v1".

Inductive PairMessage :=
  | Pake (body : bytes)
  | Confirm (mac : Mac)
  | Introduce (node_name product_version : string)
  | Rejected (reason : string).

Inductive PairRole := Host | Joiner.
#[global] Instance PairRole_eq_dec : EqDecision PairRole.
Proof. solve_decision. Defined.

Definition role_tag (r : PairRole) : string := match r with Host => "host" | Joiner => "joiner" end.

(** Two ids in string order. *)
Definition sort_ids (id_a id_b : string) : string * string :=
  match String.compare id_a id_b with Gt => (id_b, id_a) | _ => (id_a, id_b) end.

(** The bytes the hasher is updated with. *)
Definition mac_input (sender : PairRole) (id_a id_b : string) : string :=
  let '(lo, hi) := sort_ids id_a id_b in PAIR_CONFIRM_CONTEXT +:+ role_tag sender +:+ lo +:+ hi.

(** [ct_eq]: the differences of all bytes accumulated, then compared. *)
Definition ct_eq (a b : Mac) : bool :=
  foldl (λ diff x, Z.lor diff (Z.lxor (byte_val x.1) (byte_val x.2))) 0 (zip (vec_to_list a) (vec_to_list b)) =? 0.

(** ** Processes

    A side of the exchange: it opens its stream, sends, receives and flushes,
    each of which may fail, and ends with a value or an error. *)
Inductive Proc (A : Type) :=
  | Done (r : res PairError A)
  | Open (k : bool → Proc A)
  | Send (m : PairMessage) (k : bool → Proc A)
  | Recv (k : res PairError PairMessage → Proc A)
  | Flush (k : Proc A).
Arguments Done {A} r.
Arguments Open {A} k.
Arguments Send {A} m k.
Arguments Recv {A} k.
Arguments Flush {A} k.

Fixpoint proc_bind {A B} (p : Proc A) (f : A → Proc B) : Proc B :=
  match p with
  | Done (Ok a) => f a
  | Done (Err e) => Done (Err e)
  | Done Panic => Done Panic
  | Open k => Open (λ b, proc_bind (k b) f)
  | Send m k => Send m (λ b, proc_bind (k b) f)
  | Recv k => Recv (λ r, proc_bind (k r) f)
  | Flush k => Flush (proc_bind k f)
  end.
#[global] Instance proc_ret : MRet Proc := λ A a, Done (Ok a).
#[global] Instance proc_mbind : MBind Proc := λ A B f p, proc_bind p f.

Definition fail {A} (e : PairError) : Proc A := Done (Err e).
Definition open_stream : Proc () := Open (λ ok, if ok then mret () else fail (Stream "open")).
(** [write_frame(..).await?], and the same with the result ignored. *)
Definition send (m : PairMessage) : Proc () := Send m (λ ok, if ok then mret () else fail (Stream "write")).
Definition send_ignore (m : PairMessage) : Proc () := Send m (λ _, mret ()).
Definition recv : Proc PairMessage := Recv (λ r, Done r).
Definition flush_stream : Proc () := Flush (mret ()).

Record PairOutcome := MkOutcome { po_peer_id : string; po_node_name : string; po_product_version : string }.

(** ** The two sides of an attempt *)
Section Attempt.
  (** SPAKE2: a run starts from the randomness drawn, the password and the
      identity, and ends with the peer's message.  BLAKE3: a keyed hash. *)
  Context {Seed PakeState : Type}
    (pake_start : Seed → string → string → PakeState * bytes)
    (pake_finish : PakeState → bytes → option bytes)
    (keyed_hash : bytes → string → Mac)
    (version : string).

Definition confirm_mac (shared_key : bytes) (sender : PairRole) (id_a id_b : string) : Mac :=
  keyed_hash shared_key (mac_input sender id_a id_b).

Definition pake_exchange (seed : Seed) (code : string) : Proc bytes :=
  let '(state, outbound) := pake_start seed code PAIR_CONFIRM_CONTEXT in
  _ ← send (Pake outbound);
  m ← recv;
  match m with
  | Pake body =>
      match pake_finish state body with
      | None => fail (PairRejected "peer sent an invalid key-exchange message")
      | Some key =>
          if decide (length key = 32%nat) then mret key
          else fail (PairRejected "key exchange produced an unexpected key length")
      end
  | Rejected reason => fail (PairRejected reason)
  | _ => fail (PairRejected "peer broke the pairing protocol (expected a key-exchange message)")
  end.

Definition read_confirm : Proc Mac :=
  m ← recv;
  match m with
  | Confirm mac => mret mac
  | Rejected reason => fail (PairRejected reason)
  | _ => fail (PairRejected "peer broke the pairing protocol (expected a confirm)")
  end.

Definition read_introduce : Proc (string * string) :=
  m ← recv;
  match m with
  | Introduce node_name product_version => mret (node_name, product_version)
  | Rejected reason => fail (PairRejected reason)
  | _ => fail (PairRejected "peer broke the pairing protocol (expected an introduction)")
  end.

Definition host_attempt (seed : Seed) (peer_id code local_id local_name : string) : Proc PairOutcome :=
  _ ← open_stream;
  key ← pake_exchange seed code;
  let mine := confirm_mac key Host local_id peer_id in
  let expected := confirm_mac key Joiner local_id peer_id in
  their_mac ← read_confirm;
  if negb (ct_eq their_mac expected) then
    _ ← send_ignore (Rejected "wrong pairing code");
    _ ← flush_stream;
    fail (PairRejected "wrong pairing code")
  else
    _ ← send (Confirm mine);
    _ ← send (Introduce local_name version);
    '(node_name, product_version) ← read_introduce;
    _ ← flush_stream;
    mret (MkOutcome peer_id node_name product_version).

Definition joiner_attempt (seed : Seed) (peer_id code local_id local_name : string) : Proc PairOutcome :=
  _ ← open_stream;
  key ← pake_exchange seed code;
  let mine := confirm_mac key Joiner local_id peer_id in
  let expected := confirm_mac key Host local_id peer_id in
  _ ← send (Confirm mine);
  their_mac ← read_confirm;
  if negb (ct_eq their_mac expected) then
    _ ← send_ignore (Rejected "host failed key confirmation");
    _ ← flush_stream;
    fail (PairRejected "the host failed key confirmation; check the code and try again")
  else
    _ ← send (Introduce local_name version);
    '(node_name, product_version) ← read_introduce;
    _ ← flush_stream;
    mret (MkOutcome peer_id node_name product_version).
End Attempt.

(** ** Facts: frames *)
Section FramesOk.
  Context {T : Type} (encode : T → option bytes) (decode : bytes → option T).
  (** What postcard encodes, it decodes to the same message. *)
  Context (postcard : ∀ m b, encode m = Some b → decode b = Some m).

Lemma read_exact_app n a b : len a = n → read_exact n (a ++ b) = Ok (a, b).
Proof.
  intros <-. unfold read_exact, len. rewrite length_app, Nat2Z.id, take_app_length, drop_app_length.
  destruct (Z.ltb_spec (Z.of_nat (length a + length b)) (Z.of_nat (length a))); [lia|done].
Qed.

Lemma write_frame_Ok m b : write_frame encode m = Ok b →
  ∃ payload, encode m = Some payload ∧ 0 ≤ len payload ≤ MAX_FRAME_BYTES ∧ b = enc_uint 4 (len payload) ++ payload.
Proof.
  unfold write_frame. destruct (encode m) as [payload|]; [|done].
  destruct (Z.ltb_spec MAX_FRAME_BYTES (len payload)) as [|Hle]; [done|]. intros Hb.
  exists payload. change MAX_FRAME_BYTES with (2 ^ 20) in *. assert (0 ≤ len payload) by (unfold len; lia).
  split_and!; [done|lia|lia|]. rewrite wrap32_small in Hb by (unfold in_u32; lia). congruence.
Qed.

Lemma max_frame_bytes : MAX_FRAME_BYTES = 2 ^ 20.
Proof. done. Qed.

Lemma read_write_frame m b rest : write_frame encode m = Ok b → read_frame decode (b ++ rest) = Ok (m, rest).
Proof using postcard.
  intros (payload & He & Hr & ->)%write_frame_Ok.
  unfold read_frame. rewrite <- app_assoc, read_exact_app by (unfold len; by rewrite length_enc_uint). cbn [mbind res_bind].
  rewrite le_val_enc by (rewrite max_frame_bytes in Hr; lia). destruct (Z.ltb_spec MAX_FRAME_BYTES (len payload)); [lia|].
  rewrite read_exact_app by done. simpl. by rewrite (postcard _ _ He).
Qed.

Lemma read_write_frames ms b rest :
  write_frames encode ms = Ok b → read_frames decode (length ms) (b ++ rest) = Ok (ms, rest).
Proof using postcard.
  revert b. induction ms as [|m ms IH]; intros b; simpl; [by intros [= <-]|].
  intros H. res_inv. rewrite <- app_assoc, (read_write_frame _ _ _ E). simpl. by rewrite (IH _ eq_refl).
Qed.

(** A stream that ends inside a frame is an error, never a message. *)
Lemma read_frame_truncated m b n :
  write_frame encode m = Ok b → (n < length b)%nat → ∃ d, read_frame decode (take n b) = Err (Stream d).
Proof.
  intros (payload & He & Hr & ->)%write_frame_Ok Hn. rewrite length_app, length_enc_uint in Hn.
  unfold read_frame. destruct (decide (n < 4)%nat) as [Hs|Hl].
  - unfold read_exact. rewrite take_app_le by (rewrite length_enc_uint; lia).
    destruct (Z.ltb_spec (len (take n (enc_uint 4 (len payload)))) 4) as [|Hx]; [eauto|].
    unfold len in Hx at 1. rewrite length_take, length_enc_uint in Hx. lia.
  - rewrite take_app_ge by (rewrite length_enc_uint; lia).
    rewrite read_exact_app by (unfold len; by rewrite length_enc_uint). cbn [mbind res_bind].
    rewrite le_val_enc by (rewrite max_frame_bytes in Hr; lia). destruct (Z.ltb_spec MAX_FRAME_BYTES (len payload)); [lia|].
    unfold read_exact. rewrite length_enc_uint.
    destruct (Z.ltb_spec (len (take (n - 4) payload)) (len payload)) as [|Hx]; [eauto|].
    unfold len in Hx. rewrite length_take in Hx. lia.
Qed.
End FramesOk.

(** ** Facts: the code *)
Lemma is_char_boundary_end s : is_char_boundary (String.length s) s = true.
Proof.
  unfold is_char_boundary. destruct (str_drop (String.length s) s) as [|a r] eqn:E; [apply Nat.eqb_refl|].
  apply (f_equal String.length) in E. rewrite str_drop_length in E. simpl in E. lia.
Qed.

(** The cut of a long input is after a whole character: the slice in
    [truncate_for_display] never splits one. *)
Lemma char_len_boundary s i : (i < String.length s)%nat →
  is_char_boundary (i + char_len s i) s = true ∧ (0 < char_len s i)%nat.
Proof.
  intros Hi. unfold char_len, find_first.
  destruct (list_find _ _) as [[k n]|] eqn:E; simpl.
  - apply list_find_Some in E as (Hk & Hb & _). split; [done|]. apply lookup_seq in Hk. lia.
  - apply list_find_None in E. rewrite list.Forall_forall in E.
    destruct (E (String.length s - i)%nat); [apply elem_of_seq; lia|].
    replace (i + (String.length s - i))%nat with (String.length s) by lia. apply is_char_boundary_end.
Qed.

Lemma digit_no_whitespace a s :
  is_digit a = true → strip_any whitespace (String a s) = None ∧ strip_any (str_rev <$> whitespace) (String a s) = None.
Proof.
  intros Ha. destruct a as [[] [] [] [] [] [] [] []]; vm_compute in Ha;
  first [discriminate Ha|split; vm_compute; reflexivity].
Qed.

Lemma str_all_rev p s : str_all p (str_rev s) = str_all p s.
Proof.
  unfold str_rev. rewrite <- (String.string_of_list_ascii_of_string s) at 2. generalize (String.list_ascii_of_string s).
  intros l. induction l as [|x l IH]; [done|]. rewrite reverse_cons. simpl. rewrite <- IH. generalize (reverse l). clear.
  intros k. induction k as [|y k IH]; simpl; [by rewrite andb_true_r|]. rewrite IH. by destruct (p x), (p y).
Qed.

Lemma trim_digits s : str_all is_digit s = true → trim s = s.
Proof.
  intros Hs. apply trim_id.
  - destruct s as [|a s]; [done|]. simpl in Hs. apply andb_prop in Hs as [Ha _].
    exact (proj1 (digit_no_whitespace a s Ha)).
  - rewrite <- str_all_rev in Hs. destruct (str_rev s) as [|a r]; [by vm_compute|]. simpl in Hs.
    apply andb_prop in Hs as [Ha _]. exact (proj2 (digit_no_whitespace a r Ha)).
Qed.

Lemma generate_code_Ok draws c : generate_code draws = Some (Ok c) →
  ∃ v, Some v ∈ draws ∧ v < CODE_LIMIT ∧ c = print_padded 6 (v mod 1000000).
Proof.
  induction draws as [|[v|] draws IH]; simpl; [done| |done].
  destruct (Z.ltb_spec v CODE_LIMIT) as [Hv|Hv].
  - intros [= <-]. exists v. split; [left|]. split; [done|]. apply print_min_small; [lia|].
    change (10 ^ Z.of_nat 6) with 1000000. apply Z.mod_pos_bound. lia.
  - intros H. destruct (IH H) as (w & ? & ? & ?). exists w. split; [by right|done].
Qed.

Lemma validate_digits s : String.length s = 6%nat → str_all is_digit s = true → validate_code s = Ok s.
Proof. intros Hl Hd. unfold validate_code. by rewrite trim_digits, Hl, Hd. Qed.

(** The numbers below [m * k] with remainder [c] modulo [m]: [k] of them. *)
Lemma filter_none {A} (P : A → Prop) `{!∀ x, Decision (P x)} l : (∀ x, x ∈ l → ~ P x) → filter P l = [].
Proof.
  induction l as [|x l IH]; intros Hl; [done|]. rewrite filter_cons_False by (apply Hl; left).
  apply IH. intros y Hy. apply Hl. by right.
Qed.

Lemma filter_ext_in {A} (P Q : A → Prop) `{!∀ x, Decision (P x), !∀ x, Decision (Q x)} (l : list A) :
  (∀ x, x ∈ l → P x ↔ Q x) → filter P l = filter Q l.
Proof.
  induction l as [|x l IH]; intros Hl; [done|]. rewrite !filter_cons, IH by (intros y Hy; apply Hl; by right).
  assert (P x ↔ Q x) as Hx by (apply Hl; left). destruct (decide (P x)), (decide (Q x)); tauto.
Qed.

Lemma count_residue m c (k : nat) : 0 ≤ c < m →
  length (filter (λ v, v mod m = c) (seqZ 0 (m * Z.of_nat k))) = k.
Proof.
  intros Hc. induction k as [|k IH]; [by rewrite Z.mul_0_r|].
  replace (m * Z.of_nat (S k)) with (m * Z.of_nat k + (c + (1 + (m - c - 1)))) by lia.
  assert (0 ≤ m * Z.of_nat k) by nia.
  rewrite !seqZ_app, !filter_app, !length_app, IH by lia.
  assert (∀ x, 0 ≤ x - m * Z.of_nat k < m → x mod m = x - m * Z.of_nat k) as Hmod.
  { intros x Hx. rewrite <- (Z.mod_small (x - m * Z.of_nat k) m) by lia.
    replace x with (x - m * Z.of_nat k + Z.of_nat k * m) at 1 by lia. apply Z.mod_add. lia. }
  rewrite (filter_none _ (seqZ (0 + m * Z.of_nat k) c)), (filter_none _ (seqZ _ (m - c - 1))).
  - rewrite seqZ_cons by lia. rewrite filter_cons_True by (rewrite Hmod; lia). simpl. lia.
  - intros x Hx%elem_of_seqZ. rewrite Hmod; lia.
  - intros x Hx%elem_of_seqZ. rewrite Hmod; lia.
Qed.

Lemma count_below m c (k : nat) total (P : Z → Prop) `{!∀ x, Decision (P x)} :
  0 ≤ c < m → m * Z.of_nat k ≤ total → (∀ v, P v ↔ v < m * Z.of_nat k ∧ v mod m = c) →
  length (filter P (seqZ 0 total)) = k.
Proof.
  intros Hc Ht HP. replace total with (m * Z.of_nat k + (total - m * Z.of_nat k)) by lia.
  rewrite seqZ_app, filter_app, length_app by nia.
  rewrite (filter_none P (seqZ (0 + _) _)), Nat.add_0_r.
  - rewrite (filter_ext_in P (λ v, v mod m = c)); [by apply count_residue|].
    intros v Hv%elem_of_seqZ. rewrite HP. lia.
  - intros v Hv%elem_of_seqZ. rewrite HP. lia.
Qed.

Lemma print_padded_inj w a b :
  0 ≤ a < 10 ^ Z.of_nat w → 0 ≤ b < 10 ^ Z.of_nat w → print_padded w a = print_padded w b → a = b.
Proof.
  intros Ha Hb E. assert (Some a = Some b) as [= ->]; [|done].
  by rewrite <- (digits_val_padded w a), <- (digits_val_padded w b), E.
Qed.

(** Does one draw give this code? *)
Definition draws_code (code : string) (v : Z) : bool :=
  match generate_code [Some v] with Some (Ok c) => String.eqb c code | _ => false end.

Lemma draws_code_iff c v : 0 ≤ c < 1000000 →
  draws_code (print_padded 6 c) v = true ↔ v < CODE_LIMIT ∧ v mod 1000000 = c.
Proof.
  intros Hc. unfold draws_code. cbn [generate_code].
  destruct (Z.ltb_spec v CODE_LIMIT) as [Hv|Hv]; [|split; [done|lia]].
  pose proof (Z.mod_pos_bound v 1000000 ltac:(lia)) as Hm.
  rewrite print_min_small, String.eqb_eq by (simpl; lia). split; [|by intros [_ ->]].
  intros E. split; [done|]. by apply print_padded_inj in E.
Qed.

(** ** Facts: the MAC *)
Lemma byte_val_inj a b : byte_val a = byte_val b → a = b.
Proof.
  unfold byte_val. intros H%N2Z.inj. by rewrite <- (ascii_N_embedding a), <- (ascii_N_embedding b), H.
Qed.

Lemma ct_diff_zero (a b : bytes) acc : length a = length b →
  foldl (λ diff x, Z.lor diff (Z.lxor (byte_val x.1) (byte_val x.2))) acc (zip a b) = 0 ↔ acc = 0 ∧ a = b.
Proof.
  revert b acc. induction a as [|x a IH]; intros [|y b] acc Hl; simpl in *; [naive_solver|done|done|].
  rewrite IH, Z.lor_eq_0_iff, Z.lxor_eq_0_iff by lia. split.
  - intros [[-> E%byte_val_inj] ->]. by subst.
  - intros [-> [= -> ->]]. done.
Qed.

(** The constant-time comparison is equality. *)
Lemma ct_eq_iff (a b : Mac) : ct_eq a b = true ↔ a = b.
Proof.
  unfold ct_eq. rewrite Z.eqb_eq, ct_diff_zero by (by rewrite !length_vec_to_list). split.
  - intros [_ H]. by apply vec_to_list_inj2.
  - by intros ->.
Qed.

(** The same two ids, in either order. *)
Definition same_ids (a b a' b' : string) : Prop := a = a' ∧ b = b' ∨ a = b' ∧ b = a'.

Lemma sort_ids_sym a b : sort_ids a b = sort_ids b a.
Proof.
  unfold sort_ids. rewrite (String.compare_antisym b a). destruct (String.compare a b) eqn:E; simpl; [|done|done].
  by rewrite (String.compare_eq_iff _ _ E).
Qed.

Lemma sort_ids_cases a b : sort_ids a b = (a, b) ∨ sort_ids a b = (b, a).
Proof. unfold sort_ids. destruct (String.compare a b); auto. Qed.

Lemma mac_input_sym r a b : mac_input r a b = mac_input r b a.
Proof. unfold mac_input. by rewrite sort_ids_sym. Qed.

(** Ids have one length, so the concatenation determines the role and the two
    ids: "host" and "joiner" differ in their first letter. *)
Lemma mac_input_inj n r a b r' a' b' :
  String.length a = n → String.length b = n → String.length a' = n → String.length b' = n →
  mac_input r a b = mac_input r' a' b' → r = r' ∧ same_ids a b a' b'.
Proof.
  intros Ha Hb Ha' Hb'. unfold mac_input.
  destruct (sort_ids_cases a b) as [-> | ->], (sort_ids_cases a' b') as [-> | ->];
    intros [_ E]%str_app_inj; try done;
    (assert (r = r') as <- by (destruct r, r'; done));
    apply str_app_inj in E as [_ E]; try done; apply str_app_inj in E as [-> ->]; try congruence;
    unfold same_ids; auto.
Qed.

(** ** Theorems *)

(** Frames.  Any sequence of messages that the writer accepts is read
    back in order, with the bytes after it untouched, and a stream that ends
    inside a frame is an error and not a message. *)
Theorem frames_roundtrip {T} (encode : T → option bytes) (decode : bytes → option T)
  (postcard : ∀ m b, encode m = Some b → decode b = Some m) ms b rest
  (Hwrite : write_frames encode ms = Ok b) :
  read_frames decode (length ms) (b ++ rest) = Ok (ms, rest) ∧
  ∀ m b' n, write_frame encode m = Ok b' → (n < length b')%nat → ∃ d, read_frame decode (take n b') = Err (Stream d).
Proof.
  split; [by apply (read_write_frames encode decode postcard)|].
  intros m b' n. apply read_frame_truncated.
Qed.

Definition ex_frames : bytes := enc_uint 4 2 ++ String.list_ascii_of_string "hi" ++ enc_uint 4 0.

Lemma frames_roundtrip_witness :
  read_frames (λ b, Some (String.string_of_list_ascii b)) 2 (ex_frames ++ ["x"%char]) = Ok (["hi"; ""], ["x"%char]).
Proof.
  refine (proj1 (frames_roundtrip (λ s, Some (String.list_ascii_of_string s)) (λ b, Some (String.string_of_list_ascii b)) _
    ["hi"; ""] ex_frames ["x"%char] _)).
  - intros m b [= <-]. by rewrite String.string_of_list_ascii_of_string.
  - reflexivity.
Defined.

(** Pairing codes.  A code that is generated has six digits and passes
    the joiner's validation unchanged, and codes are uniform: of the 2^32
    draws of the generator exactly 4294 give each of the million codes. *)
Theorem codes_uniform :
  (∀ draws c, generate_code draws = Some (Ok c) →
     String.length c = 6%nat ∧ str_all is_digit c = true ∧ validate_code c = Ok c) ∧
  (∀ c, 0 ≤ c < 1000000 →
     length (filter (λ v, draws_code (print_padded 6 c) v = true) (seqZ 0 (2 ^ 32))) = 4294%nat).
Proof.
  split.
  - intros draws c (v & _ & _ & ->)%generate_code_Ok.
    pose proof (print_padded_digits 6 (v mod 1000000)). pose proof (print_padded_length 6 (v mod 1000000)).
    split_and!; [done|done|by apply validate_digits].
  - intros c Hc. rewrite <- (count_below 1000000 c 4294 (2 ^ 32) (λ v, draws_code (print_padded 6 c) v = true)); [done|done|lia|].
    intros v. rewrite draws_code_iff by done. change CODE_LIMIT with (1000000 * Z.of_nat 4294). done.
Qed.
