(* ===== verification/PairRun.v ===== *)
(** * Pairing runs: who is accepted, and that honest sides agree

    A side against an arbitrary peer is the set of its traces; two honest
    sides are a system of two processes and two message queues, run under any
    schedule. *)

From Stdlib Require Import ZArith Lia Ascii String.
From stdpp Require Import base list strings option numbers vector relations.
From S2P Require Import Prelude StrUtil Gguf Pairing.

Open Scope Z_scope.

(** ** Traces *)
Inductive Event :=
  | EvOpen (ok : bool)
  | EvSent (m : PairMessage) (ok : bool)
  | EvGot (r : res PairError PairMessage)
  | EvFlush.

Inductive trace {A} : Proc A → list Event → res PairError A → Prop :=
  | t_done r : trace (Done r) [] r
  | t_open k ok t r : trace (k ok) t r → trace (Open k) (EvOpen ok :: t) r
  | t_send m k ok t r : trace (k ok) t r → trace (Send m k) (EvSent m ok :: t) r
  | t_recv k x t r : trace (k x) t r → trace (Recv k) (EvGot x :: t) r
  | t_flush k t r : trace k t r → trace (Flush k) (EvFlush :: t) r.

(** The cases of [trace_bind] after one more event of the first part. *)
Ltac after_event IHt ev :=
  let a := fresh "a" in let t1 := fresh "t1" in let t2 := fresh "t2" in let e := fresh "e" in
  destruct IHt as [(a & t1 & t2 & ? & ? & ->)|[(e & ? & ->)|[? ->]]];
  [left; exists a, (ev :: t1), t2; split_and!; [by constructor|done|done]
  |right; left; exists e; split; [by constructor|done]
  |right; right; split; [by constructor|done]].

(** A trace of a sequence: the first part failed, or both ran. *)
Lemma trace_bind {A B} (p : Proc A) (f : A → Proc B) t r :
  trace (p ≫= f) t r →
  (∃ a t1 t2, trace p t1 (Ok a) ∧ trace (f a) t2 r ∧ t = t1 ++ t2) ∨
  (∃ e, trace p t (Err e) ∧ r = Err e) ∨ (trace p t Panic ∧ r = Panic).
Proof.
  revert t. induction p as [[a|e|]|k IH|m k IH|k IH|k IH]; intros t; simpl.
  - intros H. left. exists a, [], t. split_and!; [constructor|done|done].
  - inversion 1; subst. right. left. exists e. split; [constructor|done].
  - inversion 1; subst. right. right. split; [constructor|done].
  - inversion 1 as [|? ok t' ? Ht| | |]; subst. simpl in Ht.
    after_event (IH _ _ Ht) (EvOpen ok).
  - inversion 1 as [| |? ? ok t' ? Ht| |]; subst. simpl in Ht.
    after_event (IH _ _ Ht) (EvSent m ok).
  - inversion 1 as [| | |? x t' ? Ht|]; subst. simpl in Ht.
    after_event (IH _ _ Ht) (EvGot x).
  - inversion 1 as [| | | |? t' ? Ht]; subst. simpl in Ht.
    after_event (IH _ Ht) (EvFlush).
Qed.

Lemma trace_done {A} (x r : res PairError A) t : trace (Done x) t r → t = [] ∧ r = x.
Proof. by inversion 1. Qed.

Lemma trace_send m t r : trace (send m) t r → ∃ ok, t = [EvSent m ok] ∧ (r = Ok () → ok = true).
Proof.
  unfold send. inversion 1 as [| |? ? ok t' ? Ht| |]; subst.
  destruct ok; apply trace_done in Ht as [-> ->]; eexists; split; done.
Qed.

Lemma trace_send_ignore m t r : trace (send_ignore m) t r → ∃ ok, t = [EvSent m ok].
Proof. unfold send_ignore. inversion 1 as [| |? ? ok t' ? Ht| |]; subst. apply trace_done in Ht as [-> ->]. eauto. Qed.

Lemma trace_recv t r : trace recv t r → t = [EvGot r].
Proof. unfold recv. inversion 1 as [| | |? x t' ? Ht|]; subst. by apply trace_done in Ht as [-> ->]. Qed.

Lemma trace_open t r : trace open_stream t r → ∃ ok, t = [EvOpen ok].
Proof.
  unfold open_stream. inversion 1 as [|? ok t' ? Ht| | |]; subst.
  destruct ok; apply trace_done in Ht as [-> ->]; eauto.
Qed.

Lemma trace_flush t r : trace flush_stream t r → t = [EvFlush] ∧ r = Ok ().
Proof. unfold flush_stream. inversion 1 as [| | | |? t' ? Ht]; subst. by apply trace_done in Ht as [-> ->]. Qed.

Create HintDb pairing.

Section Runs.
  Context {Seed PakeState : Type}
    (pake_start : Seed → string → string → PakeState * bytes)
    (pake_finish : PakeState → bytes → option bytes)
    (keyed_hash : bytes → string → Mac)
    (version : string).
  Notation mac := (confirm_mac keyed_hash).
  Notation host := (host_attempt pake_start pake_finish keyed_hash version).
  Notation joiner := (joiner_attempt pake_start pake_finish keyed_hash version).
  Notation start seed code := (pake_start seed code PAIR_CONFIRM_CONTEXT).

(** What the peer must have sent for this side to go on: a key-exchange
    message that gives a key, then the MAC of the other role under it. *)
Definition proved (side : PairRole) (seed : Seed) (peer_id code local_id : string) (key : bytes) (t : list Event) : Prop :=
  ∃ body, pake_finish (start seed code).1 body = Some key ∧ length key = 32%nat ∧
    EvGot (Ok (Pake body)) ∈ t ∧
    EvGot (Ok (Confirm (mac key (match side with Host => Joiner | Joiner => Host end) local_id peer_id))) ∈ t.

(** A side proves nothing before it is proved to: what it has sent. *)
Definition only_sent (ms : PairMessage → Prop) (t : list Event) : Prop := ∀ m ok, EvSent m ok ∈ t → ms m.

Lemma only_sent_app (P : PairMessage → Prop) t1 t2 : only_sent P t1 → only_sent P t2 → only_sent P (t1 ++ t2).
Proof. intros H1 H2 m ok [H|H]%elem_of_app; eauto. Qed.

Lemma only_sent_mono (P Q : PairMessage → Prop) t : (∀ m, P m → Q m) → only_sent P t → only_sent Q t.
Proof. unfold only_sent. eauto. Qed.

Lemma only_sent_nil (P : PairMessage → Prop) : only_sent P [].
Proof. by intros m ok ?%not_elem_of_nil. Qed.

Lemma only_sent_one (P : PairMessage → Prop) m ok : P m → only_sent P [EvSent m ok].
Proof. by intros H m' ok' [= -> ->]%list_elem_of_singleton. Qed.

Lemma only_sent_other (P : PairMessage → Prop) ev : (∀ m ok, ev ≠ EvSent m ok) → only_sent P [ev].
Proof. intros H m' ok' E%list_elem_of_singleton. by destruct (H m' ok'). Qed.
Hint Resolve only_sent_nil only_sent_one only_sent_other only_sent_app : pairing.

Lemma pake_trace seed code t r :
  trace (pake_exchange pake_start pake_finish seed code) t r →
  only_sent (.= Pake (start seed code).2) t ∧
  ∀ key, r = Ok key → ∃ body, EvGot (Ok (Pake body)) ∈ t ∧
    pake_finish (start seed code).1 body = Some key ∧ length key = 32%nat.
Proof.
  unfold pake_exchange. destruct (start seed code) as [st out]. cbn [fst snd]. intros H.
  apply trace_bind in H as [([] & t1 & t2 & H1 & H2 & ->)|[(e & H1 & ->)|[H1 ->]]];
    apply trace_send in H1 as (ok & -> & Hok); [|by split; auto with pairing..].
  apply trace_bind in H2 as [(x & t3 & t4 & H3 & H4 & ->)|[(e & H3 & ->)|[H3 ->]]];
    apply trace_recv in H3 as ->; [|by split; auto with pairing..].
  destruct x as [body|?|? ?|?]; [|apply trace_done in H4 as [-> ->]; by split; auto 6 with pairing..].
  destruct (pake_finish st body) as [key|] eqn:Hf; [|apply trace_done in H4 as [-> ->]; by split; auto 6 with pairing].
  destruct (decide _); apply trace_done in H4 as [-> ->]; (split; [by auto 6 with pairing|]); [|done].
  intros ? [= <-]. exists body. split; [set_solver|done].
Qed.

Lemma confirm_trace t r : trace read_confirm t r →
  (∀ P, only_sent P t) ∧ ∀ m, r = Ok m → EvGot (Ok (Confirm m)) ∈ t.
Proof.
  unfold read_confirm. intros H.
  apply trace_bind in H as [(x & t1 & t2 & H1 & H2 & ->)|[(e & H1 & ->)|[H1 ->]]]; apply trace_recv in H1 as ->;
    [|by split; auto with pairing..].
  destruct x; apply trace_done in H2 as [-> ->]; (split; [by auto with pairing|]); [done| |done|done].
  intros ? [= ->]. set_solver.
Qed.

(** The host: it sends nothing but its key-exchange message and a rejection,
    and fails, unless the joiner's MAC has arrived before. *)
Lemma host_trace seed peer_id code local_id local_name t r :
  trace (host seed peer_id code local_id local_name) t r →
  (∃ key t1 t2, t = t1 ++ t2 ∧ proved Host seed peer_id code local_id key t1 ∧
     only_sent (.= Pake (start seed code).2) t1) ∨
  (∀ o, r ≠ Ok o) ∧ only_sent (λ m, m = Pake (start seed code).2 ∨ m = Rejected "wrong pairing code") t.
Proof.
  assert (∀ t', only_sent (.= Pake (start seed code).2) t' →
    only_sent (λ m, m = Pake (start seed code).2 ∨ m = Rejected "wrong pairing code") t') as Hmono.
  { intros t'. apply only_sent_mono. auto. }
  unfold host_attempt. intros H.
  apply trace_bind in H as [([] & t1 & t2 & H1 & H2 & ->)|[(e & H1 & ->)|[H1 ->]]];
    apply trace_open in H1 as [ok ->]; [|by right; split; auto with pairing..].
  apply trace_bind in H2 as [(key & t3 & t4 & H3 & H4 & ->)|[(e & H3 & ->)|[H3 ->]]];
    apply pake_trace in H3 as [Hs3 Hk]; [|by right; split; auto 6 with pairing..].
  destruct (Hk key eq_refl) as (body & Hb & Hf & Hl). clear Hk. cbv zeta in H4.
  apply trace_bind in H4 as [(their & t5 & t6 & H5 & H6 & ->)|[(e & H5 & ->)|[H5 ->]]];
    apply confirm_trace in H5 as [Hs5 Hm]; [|by right; split; auto 6 with pairing..].
  destruct (ct_eq their _) eqn:Hct; cbn [negb] in H6.
  - left. apply ct_eq_iff in Hct. exists key, ([EvOpen ok] ++ t3 ++ t5), t6. split_and!.
    + by rewrite <- !app_assoc.
    + exists body. split_and!; [done|done|set_solver|]. rewrite <- Hct. specialize (Hm _ eq_refl). set_solver.
    + by auto 6 with pairing.
  - right. apply trace_bind in H6 as [([] & t7 & t8 & H7 & H8 & ->)|[(e & H7 & ->)|[H7 ->]]];
      apply trace_send_ignore in H7 as [ok' ->]; [|by split; auto 8 with pairing..].
    apply trace_bind in H8 as [([] & t9 & t10 & H9 & H10 & ->)|[(e & H9 & ->)|[H9 ->]]];
      apply trace_flush in H9 as [-> ?]; [|done..].
    apply trace_done in H10 as [-> ->]. split; [done|]. auto 10 with pairing.
Qed.

(** The joiner: it does not introduce itself, and fails, unless the host's
    MAC has arrived before. *)
Definition no_introduction (m : PairMessage) : Prop := match m with Introduce _ _ => False | _ => True end.
Hint Extern 0 (no_introduction _) => exact I : pairing.

Lemma joiner_trace seed peer_id code local_id local_name t r :
  trace (joiner seed peer_id code local_id local_name) t r →
  (∃ key t1 t2, t = t1 ++ t2 ∧ proved Joiner seed peer_id code local_id key t1 ∧ only_sent no_introduction t1) ∨
  (∀ o, r ≠ Ok o) ∧ only_sent no_introduction t.
Proof.
  assert (∀ t', only_sent (.= Pake (start seed code).2) t' → only_sent no_introduction t') as Hmono.
  { intros t'. apply only_sent_mono. by intros m ->. }
  unfold joiner_attempt. intros H.
  apply trace_bind in H as [([] & t1 & t2 & H1 & H2 & ->)|[(e & H1 & ->)|[H1 ->]]];
    apply trace_open in H1 as [ok ->]; [|by right; split; auto with pairing..].
  apply trace_bind in H2 as [(key & t3 & t4 & H3 & H4 & ->)|[(e & H3 & ->)|[H3 ->]]];
    apply pake_trace in H3 as [Hs3 Hk]; [|by right; split; auto 6 with pairing..].
  destruct (Hk key eq_refl) as (body & Hb & Hf & Hl). clear Hk. cbv zeta in H4.
  apply trace_bind in H4 as [([] & t5 & t6 & H5 & H6 & ->)|[(e & H5 & ->)|[H5 ->]]];
    apply trace_send in H5 as (ok5 & -> & _); [|by right; split; auto 8 with pairing..].
  apply trace_bind in H6 as [(their & t7 & t8 & H7 & H8 & ->)|[(e & H7 & ->)|[H7 ->]]];
    apply confirm_trace in H7 as [Hs7 Hm]; [|by right; split; auto 10 with pairing..].
  destruct (ct_eq their _) eqn:Hct; cbn [negb] in H8.
  - left. apply ct_eq_iff in Hct.
    exists key, ([EvOpen ok] ++ t3 ++ [EvSent (Confirm (mac key Joiner local_id peer_id)) ok5] ++ t7), t8. split_and!.
    + by rewrite <- !app_assoc.
    + exists body. split_and!; [done|done|set_solver|]. rewrite <- Hct. specialize (Hm _ eq_refl). set_solver.
    + by auto 10 with pairing.
  - right. apply trace_bind in H8 as [([] & t9 & t10 & H9 & H10 & ->)|[(e & H9 & ->)|[H9 ->]]];
      apply trace_send_ignore in H9 as [ok' ->]; [|by split; auto 12 with pairing..].
    apply trace_bind in H10 as [([] & t11 & t12 & H11 & H12 & ->)|[(e & H11 & ->)|[H11 ->]]];
      apply trace_flush in H11 as [-> ?]; [|done..].
    apply trace_done in H12 as [-> ->]. split; [done|]. auto 14 with pairing.
Qed.
End Runs.

(** ** Two honest sides *)

(** One step of a side whose input queue is [q]: the rest, the queue left and
    what it sent.  Nothing when it is done or waits for a message. *)
Definition local_step {A} (p : Proc A) (q : list PairMessage) : option (Proc A * list PairMessage * list PairMessage) :=
  match p with
  | Done _ => None
  | Open k => Some (k true, q, [])
  | Send m k => Some (k true, q, [m])
  | Recv k => match q with [] => None | m :: q => Some (k (Ok m), q, []) end
  | Flush k => Some (k, q, [])
  end.

(** The host, the joiner, and the messages on the way to each. *)
Record System := MkSystem {
  sy_host : Proc PairOutcome; sy_joiner : Proc PairOutcome;
  sy_to_joiner : list PairMessage; sy_to_host : list PairMessage }.

Inductive sys_step : System → System → Prop :=
  | host_steps h j hj jh h' jh' out :
      local_step h jh = Some (h', jh', out) → sys_step (MkSystem h j hj jh) (MkSystem h' j (hj ++ out) jh')
  | joiner_steps h j hj jh j' hj' out :
      local_step j hj = Some (j', hj', out) → sys_step (MkSystem h j hj jh) (MkSystem h j' hj' (jh ++ out)).

(** More input changes nothing a side could already do. *)
Lemma local_step_more {A} (p : Proc A) q p' q' out more :
  local_step p q = Some (p', q', out) → local_step p (q ++ more) = Some (p', q' ++ more, out).
Proof. destruct p, q; simpl; naive_solver. Qed.

Lemma sys_diamond c c1 c2 : sys_step c c1 → sys_step c c2 → c1 = c2 ∨ ∃ c3, sys_step c1 c3 ∧ sys_step c2 c3.
Proof.
  intros H1 H2. destruct H1 as [h j hj jh h' jh' out Hh|h j hj jh j' hj' out Hj]; inversion H2; subst; clear H2.
  - left. congruence.
  - right. eexists. split; [apply joiner_steps|apply host_steps]; eauto using local_step_more.
  - right. eexists. split; [apply host_steps|apply joiner_steps]; eauto using local_step_more.
  - left. congruence.
Qed.

(** If one schedule ends after [n] steps, every schedule ends there after
    [n]: a system that can end cannot be kept from it. *)
Lemma sys_step_to n c f c1 :
  nsteps sys_step n c f → (∀ g, ~ sys_step f g) → sys_step c c1 → ∃ k, n = S k ∧ nsteps sys_step k c1 f.
Proof.
  intros Hn Hf. revert c c1 Hn. induction n as [|n IH]; intros c c1 Hn H1.
  { inversion Hn; subst. by destruct (Hf c1). }
  inversion Hn as [|? ? c2 ? H2 Hrest]; subst. exists n. split; [done|].
  destruct (sys_diamond _ _ _ H1 H2) as [->|(c3 & H13 & H23)]; [done|].
  destruct (IH _ _ Hrest H23) as (k & -> & Hk). by econstructor.
Qed.

Lemma sys_confluent n c f :
  nsteps sys_step n c f → (∀ g, ~ sys_step f g) →
  ∀ m c', nsteps sys_step m c c' → (m ≤ n)%nat ∧ nsteps sys_step (n - m) c' f.
Proof.
  intros Hn Hf m. revert n c Hn. induction m as [|m IH]; intros n c Hn c' Hm.
  { inversion Hm; subst. rewrite Nat.sub_0_r. split; [lia|done]. }
  inversion Hm as [|? ? c1 ? H1 Hrest]; subst.
  destruct (sys_step_to _ _ _ _ Hn Hf H1) as (k & -> & Hk). destruct (IH _ _ Hk _ Hrest). split; [lia|done].
Qed.

(** What the pairing relies on in SPAKE2: any two runs give each side a key
    of 32 bytes, and runs with one password give both the same. *)
Class Spake {Seed PakeState : Type} (pake_start : Seed → string → string → PakeState * bytes)
    (pake_finish : PakeState → bytes → option bytes) : Prop := {
  spake_total s c s' c' : ∃ key,
    pake_finish (pake_start s c PAIR_CONFIRM_CONTEXT).1 (pake_start s' c' PAIR_CONFIRM_CONTEXT).2 = Some key ∧
    length key = 32%nat;
  spake_agree s s' c :
    pake_finish (pake_start s c PAIR_CONFIRM_CONTEXT).1 (pake_start s' c PAIR_CONFIRM_CONTEXT).2 =
    pake_finish (pake_start s' c PAIR_CONFIRM_CONTEXT).1 (pake_start s c PAIR_CONFIRM_CONTEXT).2 }.

Section Honest.
  Context {Seed PakeState : Type}
    (pake_start : Seed → string → string → PakeState * bytes)
    (pake_finish : PakeState → bytes → option bytes)
    (keyed_hash : bytes → string → Mac)
    (version : string).
  Notation mac := (confirm_mac keyed_hash).
  Notation start seed code := (pake_start seed code PAIR_CONFIRM_CONTEXT).

(** The two sides at the start, each with the id the transport authenticated
    for the other. *)
Definition pair_system (sh sj : Seed) (host_id joiner_id host_name joiner_name code code' : string) : System :=
  MkSystem (host_attempt pake_start pake_finish keyed_hash version sh joiner_id code host_id host_name)
           (joiner_attempt pake_start pake_finish keyed_hash version sj host_id code' joiner_id joiner_name) [] [].

Lemma done_stuck r r' hj jh g : ~ sys_step (MkSystem (Done r) (Done r') hj jh) g.
Proof. by inversion 1. Qed.

Ltac host_goes := eapply nsteps_l; [apply host_steps; reflexivity|]; simpl.
Ltac joiner_goes := eapply nsteps_l; [apply joiner_steps; reflexivity|]; simpl.

Section Keys.
  Context (sh sj : Seed) (host_id joiner_id host_name joiner_name code code' : string) (kh kj : bytes).
  Context (Hh : pake_finish (start sh code).1 (start sj code').2 = Some kh) (Hlh : length kh = 32%nat).
  Context (Hj : pake_finish (start sj code').1 (start sh code).2 = Some kj) (Hlj : length kj = 32%nat).
  Notation sys := (pair_system sh sj host_id joiner_id host_name joiner_name code code').

(** Up to the point where the host has the joiner's MAC to check. *)
Lemma to_confirm n f :
  nsteps sys_step n
    (MkSystem
       ((if negb (ct_eq (mac kj Joiner joiner_id host_id) (mac kh Joiner host_id joiner_id)) then
           _ ← send_ignore (Rejected "wrong pairing code"); _ ← flush_stream; fail (PairRejected "wrong pairing code")
         else
           _ ← send (Confirm (mac kh Host host_id joiner_id)); _ ← send (Introduce host_name version);
           '(node_name, product_version) ← read_introduce; _ ← flush_stream;
           mret (MkOutcome joiner_id node_name product_version)))
       (their_mac ← read_confirm;
        if negb (ct_eq their_mac (mac kj Host joiner_id host_id)) then
          _ ← send_ignore (Rejected "host failed key confirmation"); _ ← flush_stream;
          fail (PairRejected "the host failed key confirmation; check the code and try again")
        else
          _ ← send (Introduce joiner_name version);
          '(node_name, product_version) ← read_introduce; _ ← flush_stream;
          mret (MkOutcome host_id node_name product_version)) [] []) f →
  nsteps sys_step (8 + n) sys f.
Proof using Hh Hlh Hj Hlj.
  intros Hn. unfold pair_system, host_attempt, joiner_attempt, pake_exchange.
  destruct (start sh code) as [st_h mh]. destruct (start sj code') as [st_j mj]. cbn [fst snd] in *.
  do 2 joiner_goes. do 2 host_goes. joiner_goes. rewrite Hj, decide_True by done. simpl. joiner_goes.
  host_goes. rewrite Hh, decide_True by done. simpl. host_goes. exact Hn.
Qed.

Lemma honest_accept :
  mac kj Joiner joiner_id host_id = mac kh Joiner host_id joiner_id →
  mac kj Host joiner_id host_id = mac kh Host host_id joiner_id →
  nsteps sys_step 16 sys
    (MkSystem (Done (Ok (MkOutcome joiner_id joiner_name version))) (Done (Ok (MkOutcome host_id host_name version))) [] []).
Proof using Hh Hlh Hj Hlj.
  intros E1 E2. apply (to_confirm 8). rewrite (proj2 (ct_eq_iff _ _) E1). cbn [negb].
  do 2 host_goes. joiner_goes. rewrite (proj2 (ct_eq_iff _ _)) by done. simpl. do 3 joiner_goes. do 2 host_goes.
  constructor.
Qed.

Lemma honest_reject :
  mac kj Joiner joiner_id host_id ≠ mac kh Joiner host_id joiner_id →
  nsteps sys_step 11 sys
    (MkSystem (Done (Err (PairRejected "wrong pairing code"))) (Done (Err (PairRejected "wrong pairing code"))) [] []).
Proof using Hh Hlh Hj Hlj.
  intros E. apply (to_confirm 3). destruct (ct_eq _ _) eqn:Hc; [by apply ct_eq_iff in Hc|]. cbn [negb].
  do 2 host_goes. joiner_goes. constructor.
Qed.
End Keys.
End Honest.

(** ** Theorems *)
Definition other_role (side : PairRole) : PairRole := match side with Host => Joiner | Joiner => Host end.

(** What a side must not give away to a peer without the code: the host its
    MAC, and either its introduction. *)
Definition reveals (side : PairRole) (m : PairMessage) : Prop :=
  match side, m with Host, Confirm _ | _, Introduce _ _ => True | _, _ => False end.

Definition attempt {Seed PakeState} (pake_start : Seed → string → string → PakeState * bytes) pake_finish keyed_hash version
    (side : PairRole) : Seed → string → string → string → string → Proc PairOutcome :=
  match side with
  | Host => host_attempt pake_start pake_finish keyed_hash version
  | Joiner => joiner_attempt pake_start pake_finish keyed_hash version
  end.


(** C14: Two honest sides under any schedule of their steps and deliveries,
    with no failing stream: within sixteen steps both are done, and no
    schedule prevents it.  With equal codes each side learns the other's id,
    name and version; if the codes give keys whose MACs differ, both end
    with the rejection [wrong pairing code]. *)
Theorem honest_pairing {Seed PakeState} (pake_start : Seed → string → string → PakeState * bytes)
  (pake_finish : PakeState → bytes → option bytes) (Hspake : Spake pake_start pake_finish)
  (keyed_hash : bytes → string → Mac) version sh sj host_id joiner_id host_name joiner_name code code' :
  let sys := pair_system pake_start pake_finish keyed_hash version sh sj host_id joiner_id host_name joiner_name code code' in
  ∃ kh kj r_host r_joiner,
    pake_finish (pake_start sh code PAIR_CONFIRM_CONTEXT).1 (pake_start sj code' PAIR_CONFIRM_CONTEXT).2 = Some kh ∧
    pake_finish (pake_start sj code' PAIR_CONFIRM_CONTEXT).1 (pake_start sh code PAIR_CONFIRM_CONTEXT).2 = Some kj ∧
    (code = code' → r_host = Ok (MkOutcome joiner_id joiner_name version) ∧
                    r_joiner = Ok (MkOutcome host_id host_name version)) ∧
    (confirm_mac keyed_hash kj Joiner joiner_id host_id ≠ confirm_mac keyed_hash kh Joiner host_id joiner_id →
       r_host = Err (PairRejected "wrong pairing code") ∧ r_joiner = Err (PairRejected "wrong pairing code")) ∧
    (code = code' ∨ confirm_mac keyed_hash kj Joiner joiner_id host_id ≠ confirm_mac keyed_hash kh Joiner host_id joiner_id →
     ∀ n c, nsteps sys_step n sys c →
       (n ≤ 16)%nat ∧ rtc sys_step c (MkSystem (Done r_host) (Done r_joiner) [] [])).
Proof.
  intros sys. destruct (spake_total sh code sj code') as (kh & Hh & Hlh). destruct (spake_total sj code' sh code) as (kj & Hj & Hlj).
  destruct (decide (confirm_mac keyed_hash kj Joiner joiner_id host_id = confirm_mac keyed_hash kh Joiner host_id joiner_id)) as [E|E].
  - exists kh, kj, (Ok (MkOutcome joiner_id joiner_name version)), (Ok (MkOutcome host_id host_name version)).
    split_and!; [done|done|done|done|]. intros [<-|?]; [|done]. intros n c Hn.
    assert (kh = kj) as <- by (pose proof (spake_agree sh sj code); congruence).
    assert (confirm_mac keyed_hash kh Host joiner_id host_id = confirm_mac keyed_hash kh Host host_id joiner_id) as E2
      by (unfold confirm_mac; by rewrite mac_input_sym).
    destruct (sys_confluent _ _ _ (honest_accept _ _ _ version sh sj host_id joiner_id host_name joiner_name _ _ _ _ Hh Hlh Hj Hlj E E2)
      (done_stuck _ _ _ _) _ _ Hn) as [Hle Hr].
    split; [done|]. eapply rtc_nsteps_2, Hr.
  - exists kh, kj, (Err (PairRejected "wrong pairing code")), (Err (PairRejected "wrong pairing code")).
    split_and!; [done|done| |done|].
    + intros <-. destruct E. assert (kh = kj) as <- by (pose proof (spake_agree sh sj code); congruence).
      unfold confirm_mac. by rewrite mac_input_sym.
    + intros _ n c Hn.
      destruct (sys_confluent _ _ _ (honest_reject _ _ _ version sh sj host_id joiner_id host_name joiner_name _ _ _ _ Hh Hlh Hj Hlj E)
        (done_stuck _ _ _ _) _ _ Hn) as [Hle Hr].
      split; [lia|]. eapply rtc_nsteps_2, Hr.
Qed.

(** ** Examples: a key exchange that shares the padded code, and a hash that
    repeats the first byte of the key *)
Definition ex_key (code : string) : bytes := take 32 (String.list_ascii_of_string code ++ replicate 32 zero).
Definition ex_start (seed : Z) (code context : string) : string * bytes := (code, enc_uint 1 seed).
Definition ex_finish (state : string) (body : bytes) : option bytes := Some (ex_key state).
Definition ex_hash (key : bytes) (input : string) : Mac := vreplicate 32 (default zero (head key)).

#[global] Instance ex_spake : Spake ex_start ex_finish.
Proof.
  split; [|done]. intros s c s' c'. exists (ex_key c). split; [done|].
  unfold ex_key. rewrite length_take, length_app, length_replicate. lia.
Qed.

Definition ex_trace : list Event :=
  [EvOpen true; EvSent (Pake (enc_uint 1 7)) true; EvGot (Ok (Pake [])); EvGot (Ok (Confirm (vreplicate 32 "0"%char)));
   EvSent (Confirm (vreplicate 32 "0"%char)) true; EvSent (Introduce "desk" "1.0") true;
   EvGot (Ok (Introduce "laptop" "1.0")); EvFlush].


Lemma honest_pairing_witness :
  rtc sys_step (pair_system ex_start ex_finish ex_hash "1.0" 1 2 "id-a" "id-b" "desk" "laptop" "012345" "012345")
    (MkSystem (Done (Ok (MkOutcome "id-b" "laptop" "1.0"))) (Done (Ok (MkOutcome "id-a" "desk" "1.0"))) [] []).
Proof.
  destruct (honest_pairing ex_start ex_finish ex_spake ex_hash "1.0" 1 2 "id-a" "id-b" "desk" "laptop" "012345" "012345")
    as (kh & kj & rh & rj & _ & _ & Hok & _ & Hrun).
  destruct (Hok eq_refl) as [-> ->]. exact (proj2 (Hrun (or_introl eq_refl) 0%nat _ (nsteps_O _ _))).
Defined.
