(* ===== verification/Heartbeat.v ===== *)
(** * Link state and heartbeats ([onebrain-mesh/src/service.rs])

    The live entry of a peer, its transitions and events, and the heartbeat
    loop of a session: a beat every two seconds on a stream of its own, an
    echo for each, suspect after three missed beats, down after ten seconds
    without an echo.  Instants are nanoseconds. *)

From Stdlib Require Import ZArith Lia Ascii String.
From stdpp Require Import base list strings option.
From S2P Require Import Prelude Float Proto Gguf Cluster PlanLoad Pairing.

Open Scope Z_scope.

Definition SEC : Z := 1000000000.
Definition SUSPECT_AFTER_MISSED : Z := 3.
Definition DOWN_AFTER : Z := 10 * SEC.
Definition RTT_EWMA_ALPHA : fl := round b64 false 3 10.
Definition LOSS_WINDOW : nat := 100.

(** ** The live entry of a peer *)
Record Live := MkLive {
  lv_state : option PeerState;
  lv_rtt_ms : option fl;
  lv_bandwidth_mbps : option fl;
  lv_loss : option fl;
  lv_last_seen_unix : option Z;
  lv_usable_memory_bytes : option Z;
  lv_prefill_tps : option fl;
  lv_decode_tps : option fl;
  lv_disk_mbps : option fl;
  lv_draining : bool }.
Definition live_default : Live := MkLive None None None None None None None None None false.

Definition live_state (x : option PeerState) (l : Live) : Live :=
  MkLive x (lv_rtt_ms l) (lv_bandwidth_mbps l) (lv_loss l) (lv_last_seen_unix l) (lv_usable_memory_bytes l)
    (lv_prefill_tps l) (lv_decode_tps l) (lv_disk_mbps l) (lv_draining l).
Definition live_bandwidth (x : option fl) (l : Live) : Live :=
  MkLive (lv_state l) (lv_rtt_ms l) x (lv_loss l) (lv_last_seen_unix l) (lv_usable_memory_bytes l)
    (lv_prefill_tps l) (lv_decode_tps l) (lv_disk_mbps l) (lv_draining l).
Definition live_loss (x : option fl) (l : Live) : Live :=
  MkLive (lv_state l) (lv_rtt_ms l) (lv_bandwidth_mbps l) x (lv_last_seen_unix l) (lv_usable_memory_bytes l)
    (lv_prefill_tps l) (lv_decode_tps l) (lv_disk_mbps l) (lv_draining l).
Definition live_seen (x : option Z) (l : Live) : Live :=
  MkLive (lv_state l) (lv_rtt_ms l) (lv_bandwidth_mbps l) (lv_loss l) x (lv_usable_memory_bytes l)
    (lv_prefill_tps l) (lv_decode_tps l) (lv_disk_mbps l) (lv_draining l).
Definition live_rtt (x : option fl) (l : Live) : Live :=
  MkLive (lv_state l) x (lv_bandwidth_mbps l) (lv_loss l) (lv_last_seen_unix l) (lv_usable_memory_bytes l)
    (lv_prefill_tps l) (lv_decode_tps l) (lv_disk_mbps l) (lv_draining l).

(** [note_transition]: record the state; an event if that changed it. *)
Definition note_transition (state : PeerState) (l : Live) : Live * list PeerState :=
  (live_state (Some state) l, if decide (lv_state l = Some state) then [] else [state]).

(** ** The heartbeat loop *)
Record Beat := MkBeat {
  hb_pending : list Z;
  hb_history : list bool;
  hb_missed : Z;
  hb_last_echo : Z }.
Definition hb_start (now : Z) : Beat := MkBeat [] [] 0 now.

Definition push_history (history : list bool) (answered : bool) : list bool :=
  (if decide (length history = LOSS_WINDOW) then tail history else history) ++ [answered].

(** [missed as f32 / len as f32]. *)
Definition loss_fraction (history : list bool) : fl :=
  match history with
  | [] => Fin false 0 (emin b32)
  | _ => fdiv b32 (of_Z b32 (Z.of_nat (length (filter (λ a, a = false) history))))
                  (of_Z b32 (Z.of_nat (length history)))
  end.

(** [Duration::as_secs_f64]. *)
Definition as_secs_f64 (d : Z) : fl :=
  fadd b64 (of_Z b64 (d / SEC)) (fdiv b64 (of_Z b64 (d mod SEC)) (of_Z b64 SEC)).

(** The tick branch at [now]; the beat is written at [Some] instant or the
    write fails.  [None] for the state: the loop returned. *)
Definition hb_tick (now : Z) (write : option Z) (s : Beat) (l : Live) : option Beat * Live * list PeerState :=
  let '(s, l) :=
    match hb_pending s with
    | [] => (s, l)
    | _ => let history := push_history (hb_history s) false in
           (MkBeat (hb_pending s) history (u32_add (hb_missed s) 1) (hb_last_echo s),
            live_loss (Some (loss_fraction history)) l)
    end in
  if DOWN_AFTER <=? now - hb_last_echo s then (None, l, [])
  else
    let '(l, events) := if SUSPECT_AFTER_MISSED <=? hb_missed s then note_transition Suspect l else (l, []) in
    match write with
    | None => (None, l, events)
    | Some sent => (Some (MkBeat (hb_pending s ++ [sent]) (hb_history s) (hb_missed s) (hb_last_echo s)), l, events)
    end.

(** The echo branch at [now], [unix] on the system clock. *)
Definition hb_echo (now unix : Z) (read_ok : bool) (s : Beat) (l : Live) : option Beat * Live * list PeerState :=
  if negb read_ok then (None, l, [])
  else match hb_pending s with
       | [] => (Some (MkBeat [] (hb_history s) 0 now), l, [])
       | sent :: pending =>
           let sample_ms := fmul b64 (as_secs_f64 (now - sent)) (of_Z b64 1000) in
           let history := push_history (hb_history s) true in
           let rtt := match lv_rtt_ms l with
                      | Some prev => fadd b64 (fmul b64 RTT_EWMA_ALPHA sample_ms)
                                              (fmul b64 (fsub b64 fone RTT_EWMA_ALPHA) prev)
                      | None => sample_ms
                      end in
           let l := live_seen (Some unix) (live_loss (Some (loss_fraction history)) (live_rtt (Some rtt) l)) in
           let '(l, events) := note_transition Connected l in
           (Some (MkBeat pending history 0 now), l, events)
       end.

Inductive HbEvent := Tick (now : Z) (write : option Z) | Echo (now unix : Z) (read_ok : bool).

Definition hb_step (ev : HbEvent) (s : Beat) (l : Live) : option Beat * Live * list PeerState :=
  match ev with Tick now write => hb_tick now write s l | Echo now unix ok => hb_echo now unix ok s l end.

(** The loop on a sequence of its events: the state, or none once it has
    returned, the live entry and the peer events so far. *)
Fixpoint run_heartbeat (evs : list HbEvent) (s : Beat) (l : Live) : option Beat * Live * list PeerState :=
  match evs with
  | [] => (Some s, l, [])
  | ev :: evs =>
      match hb_step ev s l with
      | (None, l, es) => (None, l, es)
      | (Some s, l, es) => let '(o, l, es') := run_heartbeat evs s l in (o, l, es ++ es')
      end
  end.

(** ** Facts *)

(** Streams that work: every beat is written and every echo read. *)
Definition io_works (ev : HbEvent) : Prop := match ev with Tick _ (Some _) | Echo _ _ true => True | _ => False end.

(** When the last echo came, from a start at [t0]. *)
Fixpoint last_echo (t0 : Z) (evs : list HbEvent) : Z :=
  match evs with [] => t0 | Tick _ _ :: evs => last_echo t0 evs | Echo now _ _ :: evs => last_echo now evs end.

(** Events that change the state, one after the other, from [from] to [to]. *)
Fixpoint changes (from : option PeerState) (es : list PeerState) (to : option PeerState) : Prop :=
  match es with [] => from = to | e :: es => from ≠ Some e ∧ changes (Some e) es to end.

Lemma changes_app a es1 b es2 c : changes a es1 b → changes b es2 c → changes a (es1 ++ es2) c.
Proof. revert a. induction es1 as [|e es1 IH]; intros a; simpl; [by intros ->|]. naive_solver. Qed.

Lemma note_transition_changes state l :
  changes (lv_state l) (note_transition state l).2 (lv_state (note_transition state l).1).
Proof. unfold note_transition. simpl. destruct (decide _); simpl; auto. Qed.

Lemma hb_step_changes ev s l :
  let '(_, l', es) := hb_step ev s l in changes (lv_state l) es (lv_state l').
Proof.
  destruct ev as [now write|now unix ok]; cbn [hb_step].
  - unfold hb_tick, note_transition. destruct (hb_pending s); cbn [hb_last_echo hb_missed];
      (destruct (_ <=? _); [done|]); (destruct (SUSPECT_AFTER_MISSED <=? _);
      [destruct (decide _)|]; destruct write; cbn [changes lv_state live_state live_loss]; auto).
  - unfold hb_echo. destruct ok; cbn [negb]; [|done]. destruct (hb_pending s); [done|].
    unfold note_transition. destruct (decide _); cbn [changes lv_state live_state live_loss live_rtt live_seen] in *; auto.
Qed.

Lemma run_heartbeat_changes evs s l :
  let '(_, l', es) := run_heartbeat evs s l in changes (lv_state l) es (lv_state l').
Proof.
  revert s l. induction evs as [|ev evs IH]; intros s l; simpl; [done|].
  pose proof (hb_step_changes ev s l) as H. destruct (hb_step ev s l) as [[[s'|] l'] es]; [|done].
  specialize (IH s' l'). destruct (run_heartbeat evs s' l') as [[o l''] es']. by eapply changes_app.
Qed.

Lemma run_heartbeat_app evs1 evs2 s l :
  run_heartbeat (evs1 ++ evs2) s l =
  match run_heartbeat evs1 s l with
  | (None, l', es) => (None, l', es)
  | (Some s', l', es) => let '(o, l'', es') := run_heartbeat evs2 s' l' in (o, l'', es ++ es')
  end.
Proof.
  revert s l. induction evs1 as [|ev evs1 IH]; intros s l; simpl.
  { by destruct (run_heartbeat evs2 s l) as [[o l'] es]. }
  destruct (hb_step ev s l) as [[[s'|] l'] es]; [|done]. rewrite IH.
  destruct (run_heartbeat evs1 s' l') as [[[s''|] l''] es'']; [|done].
  destruct (run_heartbeat evs2 s'' l'') as [[o l3] es3]. by rewrite app_assoc.
Qed.

Lemma hb_tick_outcome now sent s l :
  (hb_tick now (Some sent) s l).1.1 =
  if DOWN_AFTER <=? now - hb_last_echo s then None
  else Some (MkBeat (hb_pending s ++ [sent])
               (match hb_pending s with [] => hb_history s | _ => push_history (hb_history s) false end)
               (match hb_pending s with [] => hb_missed s | _ => u32_add (hb_missed s) 1 end) (hb_last_echo s)).
Proof.
  unfold hb_tick, note_transition. destruct (hb_pending s) as [|x p] eqn:E; cbn [hb_last_echo hb_missed hb_pending hb_history];
    (destruct (DOWN_AFTER <=? _); [done|]); destruct (SUSPECT_AFTER_MISSED <=? _); cbn [fst snd]; by rewrite ?E.
Qed.

Lemma hb_echo_outcome now unix s l :
  ∃ s', (hb_echo now unix true s l).1.1 = Some s' ∧ hb_last_echo s' = now.
Proof. unfold hb_echo. cbn [negb]. destruct (hb_pending s); eauto. Qed.

(** Down exactly at a tick ten seconds or more after the last echo. *)
Lemma run_heartbeat_down evs s l : Forall io_works evs →
  (run_heartbeat evs s l).1.1 = None ↔
  ∃ pre now w post, evs = pre ++ Tick now w :: post ∧ DOWN_AFTER ≤ now - last_echo (hb_last_echo s) pre.
Proof.
  revert s l. induction evs as [|ev evs IH]; intros s l Hio; cbn [run_heartbeat].
  { split; [done|]. intros (pre & now & w & post & E & _). by destruct pre. }
  apply list.Forall_cons in Hio as [Hev Hio].
  assert (∀ s' t0, (∀ pre, last_echo t0 (ev :: pre) = last_echo (hb_last_echo s') pre) →
    (∀ now w, ev = Tick now w → now - t0 < DOWN_AFTER) →
    (∃ pre now w post, ev :: evs = pre ++ Tick now w :: post ∧ DOWN_AFTER ≤ now - last_echo t0 pre) ↔
    ∃ pre now w post, evs = pre ++ Tick now w :: post ∧ DOWN_AFTER ≤ now - last_echo (hb_last_echo s') pre) as Hcons.
  { intros s' t0 Hl Hn. split.
    - intros ([|x pre] & now & w & post & E & Hd); simplify_eq/=; [exfalso; specialize (Hn _ _ eq_refl); lia|].
      exists pre, now, w, post. split; [done|]. by rewrite <- Hl.
    - intros (pre & now & w & post & -> & Hd). exists (ev :: pre), now, w, post. split; [done|]. by rewrite Hl. }
  destruct ev as [now [sent|]|now unix []]; try done; cbn [hb_step].
  - pose proof (hb_tick_outcome now sent s l) as Ho. destruct (hb_tick now (Some sent) s l) as [[o l'] es]. cbn [fst] in Ho. subst o.
    destruct (Z.leb_spec DOWN_AFTER (now - hb_last_echo s)) as [Hd|Hd].
    + split; [|done]. intros _. exists [], now, (Some sent), evs. done.
    + match goal with |- context [run_heartbeat evs ?s' l'] => rewrite (Hcons s' (hb_last_echo s)), <- (IH s' l' Hio) end.
      * by destruct (run_heartbeat evs _ l') as [[[]?]?].
      * done.
      * intros now' w' [= <- <-]. lia.
  - destruct (hb_echo_outcome now unix s l) as (s' & Ho & Hl). destruct (hb_echo now unix true s l) as [[o l'] es].
    cbn [fst] in Ho. subst o. rewrite (Hcons s' (hb_last_echo s)), <- (IH s' l' Hio); [|by rewrite Hl|done].
    by destruct (run_heartbeat evs _ l') as [[[]?]?].
Qed.

(** Rounds of a healthy link, a tick and the echo of its beat, and ticks of a
    silent one. *)
Record Round := MkRound { rd_tick : Z; rd_sent : Z; rd_echo : Z; rd_unix : Z }.
Definition round_events (r : Round) : list HbEvent :=
  [Tick (rd_tick r) (Some (rd_sent r)); Echo (rd_echo r) (rd_unix r) true].
Definition rounds_events (rs : list Round) : list HbEvent := rs ≫= round_events.
Definition silence (ts : list Z) : list HbEvent := (λ t, Tick t (Some t)) <$> ts.

(** No tick comes ten seconds or more after the echo before it. *)
Fixpoint punctual (last : Z) (rs : list Round) : Prop :=
  match rs with [] => True | r :: rs => rd_tick r - last < DOWN_AFTER ∧ punctual (rd_echo r) rs end.
Definition rounds_last (t0 : Z) (rs : list Round) : Z := match list.last rs with Some r => rd_echo r | None => t0 end.

Lemma push_history_answered n :
  push_history (replicate (Nat.min n LOSS_WINDOW) true) true = replicate (Nat.min (S n) LOSS_WINDOW) true.
Proof.
  unfold push_history, LOSS_WINDOW. rewrite length_replicate. destruct (decide _) as [E|E].
  - rewrite E. replace (Nat.min (S n) 100) with (99 + 1)%nat by lia. by rewrite replicate_add.
  - replace (Nat.min (S n) 100) with (Nat.min n 100 + 1)%nat by lia. by rewrite replicate_add.
Qed.

Lemma run_round n r last l : rd_tick r - last < DOWN_AFTER → lv_state l = Some Connected →
  ∃ l', run_heartbeat (round_events r) (MkBeat [] (replicate (Nat.min n LOSS_WINDOW) true) 0 last) l =
    (Some (MkBeat [] (replicate (Nat.min (S n) LOSS_WINDOW) true) 0 (rd_echo r)), l', []) ∧ lv_state l' = Some Connected ∧
    lv_loss l' = Some (loss_fraction (replicate (Nat.min (S n) LOSS_WINDOW) true)).
Proof.
  intros Hlt Hl. unfold round_events. cbn [run_heartbeat hb_step].
  unfold hb_tick. cbn [hb_pending hb_last_echo hb_missed hb_history app].
  destruct (Z.leb_spec DOWN_AFTER (rd_tick r - last)); [lia|]. cbn [Z.leb SUSPECT_AFTER_MISSED Z.compare].
  unfold hb_echo. cbn [negb hb_pending hb_history]. rewrite push_history_answered. unfold note_transition.
  cbn [lv_state live_seen live_loss live_rtt live_state]. rewrite decide_True by done. eexists. split; [done|].
  split; reflexivity.
Qed.

Lemma run_rounds rs n last l : punctual last rs → lv_state l = Some Connected →
  ∃ l', run_heartbeat (rounds_events rs) (MkBeat [] (replicate (Nat.min n LOSS_WINDOW) true) 0 last) l =
    (Some (MkBeat [] (replicate (Nat.min (length rs + n) LOSS_WINDOW) true) 0 (rounds_last last rs)), l', []) ∧
    lv_state l' = Some Connected ∧
    (rs ≠ [] → lv_loss l' = Some (loss_fraction (replicate (Nat.min (length rs + n) LOSS_WINDOW) true))).
Proof.
  revert n last l. induction rs as [|r rs IH]; intros n last l Hp Hl.
  { exists l. done. }
  destruct Hp as [Hr Hp]. change (rounds_events (r :: rs)) with (round_events r ++ rounds_events rs).
  destruct (run_round n r last l Hr Hl) as (l1 & E1 & Hl1 & Hloss1).
  destruct (IH (S n) (rd_echo r) l1 Hp Hl1) as (l2 & E2 & Hl2 & Hloss2).
  exists l2. rewrite run_heartbeat_app, E1, E2. replace (length (r :: rs) + n)%nat with (length rs + S n)%nat by (simpl; lia).
  split_and!; [|done|].
  - unfold rounds_last. rewrite list.last_cons. by destruct (list.last rs).
  - intros _. destruct rs as [|r' rs]; [|by apply Hloss2]. cbn in E2. simplify_eq. exact Hloss1.
Qed.

Lemma last_echo_silence x ts : last_echo x (silence ts) = x.
Proof. unfold silence. induction ts as [|t ts IH]; [done|exact IH]. Qed.

(** What a silent link looks like after some ticks, none of them late: the
    first finds no beat outstanding, the fourth is the third missed. *)
Definition suspect_after (ts : list Z) : bool := (4 <=? length ts)%nat.

Lemma run_silence_step t s l : t - hb_last_echo s < DOWN_AFTER → hb_pending s ≠ [] → 0 ≤ hb_missed s < 2 ^ 32 - 1 →
  hb_tick t (Some t) s l =
    (Some (MkBeat (hb_pending s ++ [t]) (push_history (hb_history s) false) (hb_missed s + 1) (hb_last_echo s)),
     if 3 <=? hb_missed s + 1 then live_state (Some Suspect) (live_loss (Some (loss_fraction (push_history (hb_history s) false))) l)
     else live_loss (Some (loss_fraction (push_history (hb_history s) false))) l,
     if (3 <=? hb_missed s + 1) && negb (bool_decide (lv_state l = Some Suspect)) then [Suspect] else []).
Proof.
  intros Ht Hp Hm. unfold hb_tick. destruct (hb_pending s) as [|x p] eqn:E; [done|].
  cbn [hb_pending hb_last_echo hb_missed hb_history]. destruct (Z.leb_spec DOWN_AFTER (t - hb_last_echo s)); [lia|].
  unfold u32_add. rewrite wrap32_small by (unfold in_u32; lia). change SUSPECT_AFTER_MISSED with 3.
  destruct (3 <=? hb_missed s + 1); [|done]. unfold note_transition. cbn [lv_state live_loss andb].
  destruct (decide _); [by rewrite bool_decide_true|by rewrite bool_decide_false].
Qed.

Definition state_after (missed : nat) : PeerState := if decide (3 ≤ missed)%nat then Suspect else Connected.

Lemma run_silence_from ts (k : nat) s l :
  Forall (λ t, t - hb_last_echo s < DOWN_AFTER) ts → hb_pending s ≠ [] → hb_missed s = Z.of_nat k →
  Z.of_nat (k + length ts) < 2 ^ 32 → lv_state l = Some (state_after k) →
  ∃ s' l', run_heartbeat (silence ts) s l =
    (Some s', l', if decide (k < 3 ≤ k + length ts)%nat then [Suspect] else []) ∧
    lv_state l' = Some (state_after (k + length ts)).
Proof.
  revert k s l. induction ts as [|t ts IH]; intros k s l Hts Hp Hm Hk Hl.
  { exists s, l. rewrite Nat.add_0_r, decide_False by lia. done. }
  apply list.Forall_cons in Hts as [Ht Hts]. change (silence (t :: ts)) with (Tick t (Some t) :: silence ts).
  cbn [run_heartbeat hb_step length] in *.
  rewrite run_silence_step by (try done; lia). rewrite Hm, Hl.
  match goal with |- context [run_heartbeat _ ?s1 ?l1] => destruct (IH (S k) s1 l1) as (s' & l' & -> & Hl'); clear IH end.
  - done.
  - cbn. by destruct (hb_pending s).
  - cbn. lia.
  - lia.
  - unfold state_after in *. destruct (Z.leb_spec 3 (Z.of_nat k + 1)); cbn [lv_state live_state live_loss];
      [by rewrite decide_True by lia|]. rewrite decide_False by lia. by rewrite decide_False in Hl by lia.
  - exists s', l'. split; [|by replace (k + S (length ts))%nat with (S k + length ts)%nat by lia].
    f_equal. unfold state_after. destruct (Z.leb_spec 3 (Z.of_nat k + 1)); cbn [andb].
    + destruct (decide (3 ≤ k)%nat); [rewrite bool_decide_true by done|rewrite bool_decide_false by done]; cbn [negb app].
      * by rewrite !decide_False by lia.
      * by rewrite decide_False, decide_True by lia.
    + cbn [app]. destruct (decide (S k < 3 ≤ S k + length ts)%nat); [rewrite decide_True by lia|rewrite decide_False by lia]; done.
Qed.

Lemma run_silence ts n last l :
  Forall (λ t, t - last < DOWN_AFTER) ts → Z.of_nat (length ts) < 2 ^ 32 → lv_state l = Some Connected →
  ∃ s' l', run_heartbeat (silence ts) (MkBeat [] (replicate (Nat.min n LOSS_WINDOW) true) 0 last) l =
    (Some s', l', if suspect_after ts then [Suspect] else []) ∧
    lv_state l' = Some (if suspect_after ts then Suspect else Connected).
Proof.
  intros Hts Hlen Hl. destruct ts as [|t ts]; [by exists (MkBeat [] (replicate (Nat.min n LOSS_WINDOW) true) 0 last), l|].
  apply list.Forall_cons in Hts as [Ht Hts]. change (silence (t :: ts)) with (Tick t (Some t) :: silence ts).
  cbn [run_heartbeat hb_step length] in *.
  unfold hb_tick at 1. cbn [hb_pending hb_last_echo hb_missed hb_history app].
  destruct (Z.leb_spec DOWN_AFTER (t - last)); [lia|]. cbn [Z.leb SUSPECT_AFTER_MISSED Z.compare].
  match goal with |- context [run_heartbeat _ ?s1 l] => destruct (run_silence_from ts 0 s1 l) as (s' & l' & E & Hl') end;
    [done|done|done|lia|done|].
  rewrite E. exists s', l'. cbn [app].
  unfold suspect_after, state_after in *. cbn [length Nat.add] in *.
  destruct (Nat.leb_spec 4 (S (length ts))).
  - rewrite decide_True by lia. by rewrite decide_True in Hl' by lia.
  - rewrite decide_False by lia. by rewrite decide_False in Hl' by lia.
Qed.

(** ** Theorems *)

(** The heartbeat loop on any sequence of ticks and echoes over working
    streams returns, which takes the peer down, exactly when a tick comes ten
    seconds or more after the last echo, or after the start if there was
    none; and the peer events it emits are exactly the changes of the live
    state, one event for each and none for a state already recorded. *)
Theorem heartbeat_down_exact evs t0 l (Hio : Forall io_works evs) :
  let '(o, l', es) := run_heartbeat evs (hb_start t0) l in
  (o = None ↔ ∃ pre now w post, evs = pre ++ Tick now w :: post ∧ DOWN_AFTER ≤ now - last_echo t0 pre) ∧
  changes (lv_state l) es (lv_state l').
Proof.
  pose proof (run_heartbeat_down evs (hb_start t0) l Hio) as H. pose proof (run_heartbeat_changes evs (hb_start t0) l) as Hc.
  destruct (run_heartbeat evs (hb_start t0) l) as [[o l'] es]. done.
Qed.

(** C19: Detection.  While every beat is echoed before the next tick the peer
    stays connected, with no event and no loss.  When it then falls silent,
    it is still connected after three ticks, suspect from the fourth on, with
    one event, and down at the first tick ten seconds after the last echo, so
    never before it was suspect unless ticks are late. *)
Theorem heartbeat_detects rs ts t0 l (Hstate : lv_state l = Some Connected) (Hp : punctual t0 rs)
  (Hlen : Z.of_nat (length ts) < 2 ^ 32) :
  (∃ s' l', run_heartbeat (rounds_events rs) (hb_start t0) l = (Some s', l', []) ∧ lv_state l' = Some Connected ∧
     hb_pending s' = [] ∧ Forall (λ a, a = true) (hb_history s') ∧
     (rs ≠ [] → lv_loss l' = Some (loss_fraction (hb_history s')))) ∧
  match run_heartbeat (rounds_events rs ++ silence ts) (hb_start t0) l with
  | (Some _, l', es) => Forall (λ t, t - rounds_last t0 rs < DOWN_AFTER) ts ∧
      es = (if suspect_after ts then [Suspect] else []) ∧ lv_state l' = Some (if suspect_after ts then Suspect else Connected)
  | (None, _, _) => ∃ t, t ∈ ts ∧ DOWN_AFTER ≤ t - rounds_last t0 rs
  end.
Proof.
  destruct (run_rounds rs 0 t0 l Hp Hstate) as (l1 & E1 & Hl1 & Hloss). rewrite Nat.add_0_r in *.
  change (replicate (Nat.min 0 LOSS_WINDOW) true) with (@nil bool) in E1. fold (hb_start t0) in E1.
  split.
  { eexists _, l1. split; [exact E1|]. split_and!; [done|done|by apply Forall_replicate|done]. }
  rewrite run_heartbeat_app, E1. destruct (decide (Forall (λ t, t - rounds_last t0 rs < DOWN_AFTER) ts)) as [Hts|Hts].
  - destruct (run_silence ts (length rs) (rounds_last t0 rs) l1 Hts Hlen Hl1) as (s' & l' & -> & Hl'). done.
  - destruct (run_heartbeat_down (silence ts) (MkBeat [] (replicate (Nat.min (length rs) LOSS_WINDOW) true) 0 (rounds_last t0 rs)) l1)
      as [_ Hd].
    { apply Forall_fmap, list.Forall_true. done. }
    destruct (run_heartbeat (silence ts) _ l1) as [[o l'] es]. cbn [fst] in Hd. rewrite Hd.
    + apply not_Forall_Exists in Hts; [|apply _]. apply list.Exists_exists in Hts as (t & Ht & Hlate). exists t. split; [done|]. apply Z.nlt_ge, Hlate.
    + clear Hd. apply not_Forall_Exists in Hts; [|apply _]. apply list.Exists_exists in Hts as (t & Ht & Hlate).
      apply list_elem_of_split in Ht as (ts1 & ts2 & ->). exists (silence ts1), t, (Some t), (silence ts2).
      split; [unfold silence; by rewrite fmap_app|]. cbn [hb_last_echo].
      rewrite last_echo_silence. apply Z.nlt_ge, Hlate.
Qed.

Definition ex_live : Live := live_state (Some Connected) live_default.
Definition ex_rounds : list Round := [MkRound 0 0 (SEC / 10) 1; MkRound (2 * SEC) (2 * SEC) (2 * SEC + SEC / 10) 3].

Lemma heartbeat_down_exact_witness :
  let '(o, l', es) := run_heartbeat (rounds_events ex_rounds ++ [Tick (13 * SEC) (Some (13 * SEC))]) (hb_start 0) ex_live in o = None.
Proof.
  pose proof (heartbeat_down_exact (rounds_events ex_rounds ++ [Tick (13 * SEC) (Some (13 * SEC))]) 0 ex_live) as H.
  destruct (run_heartbeat _ _ _) as [[o l'] es]. apply H; [repeat constructor|].
  exists (rounds_events ex_rounds), (13 * SEC), (Some (13 * SEC)), []. split; [reflexivity|].
  change (2 * SEC + SEC / 10 + DOWN_AFTER ≤ 13 * SEC). vm_compute. discriminate.
Defined.

Lemma heartbeat_detects_witness :
  match run_heartbeat (rounds_events ex_rounds ++ silence [4 * SEC; 6 * SEC; 8 * SEC; 10 * SEC]) (hb_start 0) ex_live with
  | (Some _, l', es) => es = [Suspect] ∧ lv_state l' = Some Suspect
  | (None, _, _) => ∃ t, t ∈ [4 * SEC; 6 * SEC; 8 * SEC; 10 * SEC] ∧ DOWN_AFTER ≤ t - rounds_last 0 ex_rounds
  end.
Proof.
  destruct (heartbeat_detects ex_rounds [4 * SEC; 6 * SEC; 8 * SEC; 10 * SEC] 0 ex_live eq_refl) as [_ H].
  - split; [reflexivity|]. split; [reflexivity|exact I].
  - reflexivity.
  - destruct (run_heartbeat _ _ _) as [[[s|] l'] es]; [|exact H]. destruct H as (_ & H1 & H2). split; [exact H1|exact H2].
Defined.

(** ** Two consequences the loop does not intend *)

(** A link slower than the interval: each tick finds the beat before it still
    outstanding and counts it missed, and its echo then counts it answered. *)
Lemma push_history_short h a : (length h < LOSS_WINDOW)%nat → push_history h a = h ++ [a].
Proof. intros H. unfold push_history. by rewrite decide_False by lia. Qed.

Lemma run_slow_round h r sent last l :
  rd_tick r - last < DOWN_AFTER → (length h + 2 ≤ LOSS_WINDOW)%nat → lv_state l = Some Connected →
  ∃ l', run_heartbeat (round_events r) (MkBeat [sent] h 0 last) l =
    (Some (MkBeat [rd_sent r] (h ++ [false; true]) 0 (rd_echo r)), l', []) ∧ lv_state l' = Some Connected.
Proof.
  intros Hlt Hh Hl. unfold round_events. cbn [run_heartbeat hb_step].
  unfold hb_tick. cbn [hb_pending hb_last_echo hb_missed hb_history app].
  destruct (Z.leb_spec DOWN_AFTER (rd_tick r - last)); [lia|]. change (u32_add 0 1) with 1.
  cbn [Z.leb SUSPECT_AFTER_MISSED Z.compare Pos.compare Pos.compare_cont].
  unfold hb_echo. cbn [negb hb_pending hb_history hb_missed hb_last_echo app]. unfold note_transition.
  cbn [lv_state live_seen live_loss live_rtt live_state]. rewrite decide_True by done.
  rewrite (push_history_short h), push_history_short by (rewrite ?length_app; simpl; lia).
  rewrite <- app_assoc. eexists. split; [reflexivity|done].
Qed.

Lemma run_slow_rounds rs h sent last l :
  punctual last rs → (length h + 2 * length rs ≤ LOSS_WINDOW)%nat → lv_state l = Some Connected →
  ∃ s' l', run_heartbeat (rounds_events rs) (MkBeat [sent] h 0 last) l = (Some s', l', []) ∧
    hb_history s' = h ++ concat (replicate (length rs) [false; true]).
Proof.
  revert h sent last l. induction rs as [|r rs IH]; intros h sent last l Hp Hh Hl.
  { exists (MkBeat [sent] h 0 last), l. split; [done|]. simpl. by rewrite app_nil_r. }
  destruct Hp as [Hr Hp]. cbn [length] in Hh. change (rounds_events (r :: rs)) with (round_events r ++ rounds_events rs).
  destruct (run_slow_round h r sent last l Hr ltac:(lia) Hl) as (l1 & E1 & Hl1).
  destruct (IH (h ++ [false; true]) (rd_sent r) (rd_echo r) l1 Hp) as (s' & l2 & E2 & Hh2);
    [rewrite length_app; simpl; lia|done|].
  exists s', l2. rewrite run_heartbeat_app, E1, E2. split; [done|]. rewrite Hh2, <- app_assoc. done.
Qed.

(** On a link whose round trip exceeds the interval, no beat is lost and every
    beat but the last is echoed, yet the loss window holds one miss for each
    answer: the reported loss is a half. *)
Theorem slow_link_counts_losses t0 rs l :
  punctual t0 rs → (2 * length rs ≤ LOSS_WINDOW)%nat → lv_state l = Some Connected →
  ∃ s' l', run_heartbeat (Tick t0 (Some t0) :: rounds_events rs) (hb_start t0) l = (Some s', l', []) ∧
    hb_history s' = concat (replicate (length rs) [false; true]).
Proof.
  intros Hp Hlen Hl. cbn [run_heartbeat hb_step]. unfold hb_tick, hb_start. cbn [hb_pending hb_last_echo hb_missed hb_history app].
  rewrite Z.sub_diag. change (DOWN_AFTER <=? 0) with false. change (SUSPECT_AFTER_MISSED <=? 0) with false. cbv iota beta.
  destruct (run_slow_rounds rs [] t0 t0 l Hp ltac:(simpl; lia) Hl) as (s' & l' & E & Hh).
  exists s', l'. rewrite E. done.
Qed.

(** The read of an echo is restarted at every tick, and what the cancelled
    read had consumed is lost.  [held] are the bytes the current read has
    consumed; a read completes as soon as its frame is there. *)
Inductive ReadEvent := Arrive (bs : bytes) | CancelRead.

Definition frame_missing (held : bytes) : bool :=
  (len held <? 4) || ((le_val (take 4 held) <=? MAX_FRAME_BYTES) && (len held - 4 <? le_val (take 4 held))).

Section Reads.
  Context {T : Type} (decode : bytes → option T).

Fixpoint complete_reads (fuel : nat) (held : bytes) : list (res PairError T) * bytes :=
  match fuel with
  | O => ([], held)
  | S fuel =>
      if frame_missing held then ([], held)
      else match read_frame decode held with
           | Ok (m, rest) => let '(ms, held) := complete_reads fuel rest in (Ok m :: ms, held)
           | Err e => ([Err e], [])
           | Panic => ([Panic], [])
           end
  end.

Fixpoint read_results (evs : list ReadEvent) (held : bytes) : list (res PairError T) :=
  match evs with
  | [] => []
  | Arrive bs :: evs => let '(ms, held) := complete_reads (length (held ++ bs)) (held ++ bs) in ms ++ read_results evs held
  | CancelRead :: evs => read_results evs []
  end.
End Reads.

(** A heartbeat envelope: version 5, message 3, epoch 0. *)
Definition beat_bytes : bytes := byte_of <$> [5; 3; 0].
Definition beat_frame : bytes := enc_uint 4 3 ++ beat_bytes.

Lemma read_beat {T} (decode : bytes → option T) (beat : T) rest :
  decode beat_bytes = Some beat → read_frame decode (beat_frame ++ rest) = Ok (beat, rest).
Proof.
  intros Hd. unfold read_frame, beat_frame. rewrite <- app_assoc, read_exact_app by done. cbn [mbind res_bind].
  change (MAX_FRAME_BYTES <? le_val (enc_uint 4 3)) with false. change (le_val (enc_uint 4 3)) with 3.
  rewrite read_exact_app by done. cbn [mbind res_bind]. by rewrite Hd.
Qed.

(** Two intact echoes are read as two, but when a tick falls between the
    length and the payload of the first, the payload is taken for a length:
    the read fails, the loop returns and the peer goes down. *)
Theorem cancelled_read_fails {T} (decode : bytes → option T) (beat : T) :
  decode beat_bytes = Some beat →
  read_results decode [Arrive (beat_frame ++ beat_frame)] [] = [Ok beat; Ok beat] ∧
  ∃ d, read_results decode [Arrive (take 4 beat_frame); CancelRead; Arrive (drop 4 beat_frame ++ beat_frame)] [] = [Err (Stream d)].
Proof.
  intros Hd. split; [|eexists; vm_compute; reflexivity].
  cbn [read_results app]. change (length (beat_frame ++ beat_frame)) with 14%nat. cbn [complete_reads].
  change (frame_missing (beat_frame ++ beat_frame)) with false. rewrite (read_beat _ _ _ Hd).
  change (frame_missing beat_frame) with false. cbv iota beta.
  rewrite <- (app_nil_r beat_frame), (read_beat _ _ _ Hd). done.
Qed.
