(* ===== verification/Mesh.v ===== *)
(** * The mesh service ([onebrain-mesh/src/service.rs])

    One task owns the sessions, the pairing window, the dials and their
    backoff, and handles one message at a time; dials, pairing attempts and
    sessions are tasks of their own that report back by messages.  Here the
    state of the service and every handler, as computations that change the
    state and order effects; the world of tasks and messages around them is
    in [MeshWorld]. *)

From Stdlib Require Import ZArith Lia Ascii String.
From stdpp Require Import base list strings option gmap.
From S2P Require Import Prelude StrUtil Float Proto Cluster PlanLoad PeerStore Pairing Heartbeat.

Open Scope Z_scope.

Definition PAIR_ATTEMPTS : Z := 3.
Definition PAIR_EXCHANGE_TIMEOUT : Z := 60 * SEC.
Definition RECONNECT_BACKOFF_BASE : Z := 3 * SEC.
Definition RECONNECT_BACKOFF_CAP : Z := 30 * SEC.

(** ** Data *)

(** An [EndpointId] is its 32 bytes as a big-endian number, so that the order
    of ids is the order of their bytes. *)
Abbreviation EndpointId := Z.

Inductive TransportAddr := AddrIp (addr : SocketAddr) | AddrRelay (url : string).
#[global] Instance TransportAddr_eq_dec : EqDecision TransportAddr.
Proof. solve_decision. Defined.
#[global] Instance TransportAddr_countable : Countable TransportAddr.
Proof.
  refine (inj_countable' (λ a, match a with AddrIp x => inl x | AddrRelay u => inr u end)
    (λ x, match x with inl x => AddrIp x | inr u => AddrRelay u end) _).
  by intros [].
Defined.

Record EndpointAddr := MkAddr { ea_id : EndpointId; ea_addrs : gset TransportAddr }.
Definition with_transport (addrs : gset TransportAddr) (a : EndpointAddr) : EndpointAddr :=
  MkAddr (ea_id a) (ea_addrs a ∪ addrs).

(** A connection: its [stable_id] and the authenticated id of its remote. *)
Record Conn := MkConn { cn_stable_id : Z; cn_remote : EndpointId }.

Record Window := MkWindow { w_id : Z; w_code : string; w_attempts_left : Z; w_deadline : Z }.
Record Session := MkSession { se_conn : Conn; se_dialer : bool }.
Record Backoff := MkBackoff { bo_next_at : Z; bo_delay : Z }.

Inductive PairEvent :=
  | PairAttempt
  | Paired (id name : string)
  | PairFailed (why : string)
  | Expired.

Inductive MeshError :=
  | WindowAlreadyOpen
  | NotConnected (name : string)
  | StoreFailed (e : StoreError)
  | PairFail (e : PairError)
  | CodeRequired
  | NoCandidates
  | Connect (target : string)
  | Timeout (what : string) (secs : Z).

(** What a handler sets off: a close, the start of a task, the end of one, an
    event of the pairing window, the log line of a failed attempt. *)
Inductive Effect :=
  | Close (c : Conn) (code : Z) (why : string)
  | SpawnDial (peer : EndpointId) (addr : EndpointAddr)
  | SpawnAttempt (window_id : Z) (c : Conn) (code : string) (budget : Z)
  | SpawnTimeout (window_id deadline : Z)
  | SpawnSession (c : Conn) (dialer : bool) (name : string)
  | AbortRunner (c : Conn)
  | Notify (window_id : Z) (ev : PairEvent)
  | AttemptFailed (window_id : Z).

Record Service := MkService {
  sv_disk : Disk;
  sv_live : gmap EndpointId Live;
  sv_window : option Window;
  sv_window_seq : Z;
  sv_sessions : gmap EndpointId Session;
  sv_dialing : gset EndpointId;
  sv_discovered : gmap EndpointId EndpointAddr;
  sv_known_addrs : gmap EndpointId EndpointAddr;
  sv_reconnect : gmap EndpointId Backoff }.

Definition upd_disk (f : Disk → Disk) (s : Service) : Service :=
  MkService (f (sv_disk s)) (sv_live s) (sv_window s) (sv_window_seq s) (sv_sessions s) (sv_dialing s)
    (sv_discovered s) (sv_known_addrs s) (sv_reconnect s).
Definition upd_live (f : gmap EndpointId Live → gmap EndpointId Live) (s : Service) : Service :=
  MkService (sv_disk s) (f (sv_live s)) (sv_window s) (sv_window_seq s) (sv_sessions s) (sv_dialing s)
    (sv_discovered s) (sv_known_addrs s) (sv_reconnect s).
Definition set_window (w : option Window) (s : Service) : Service :=
  MkService (sv_disk s) (sv_live s) w (sv_window_seq s) (sv_sessions s) (sv_dialing s)
    (sv_discovered s) (sv_known_addrs s) (sv_reconnect s).
Definition set_window_seq (n : Z) (s : Service) : Service :=
  MkService (sv_disk s) (sv_live s) (sv_window s) n (sv_sessions s) (sv_dialing s)
    (sv_discovered s) (sv_known_addrs s) (sv_reconnect s).
Definition upd_sessions (f : gmap EndpointId Session → gmap EndpointId Session) (s : Service) : Service :=
  MkService (sv_disk s) (sv_live s) (sv_window s) (sv_window_seq s) (f (sv_sessions s)) (sv_dialing s)
    (sv_discovered s) (sv_known_addrs s) (sv_reconnect s).
Definition upd_dialing (f : gset EndpointId → gset EndpointId) (s : Service) : Service :=
  MkService (sv_disk s) (sv_live s) (sv_window s) (sv_window_seq s) (sv_sessions s) (f (sv_dialing s))
    (sv_discovered s) (sv_known_addrs s) (sv_reconnect s).
Definition upd_discovered (f : gmap EndpointId EndpointAddr → gmap EndpointId EndpointAddr) (s : Service) : Service :=
  MkService (sv_disk s) (sv_live s) (sv_window s) (sv_window_seq s) (sv_sessions s) (sv_dialing s)
    (f (sv_discovered s)) (sv_known_addrs s) (sv_reconnect s).
Definition upd_known (f : gmap EndpointId EndpointAddr → gmap EndpointId EndpointAddr) (s : Service) : Service :=
  MkService (sv_disk s) (sv_live s) (sv_window s) (sv_window_seq s) (sv_sessions s) (sv_dialing s)
    (sv_discovered s) (f (sv_known_addrs s)) (sv_reconnect s).
Definition upd_reconnect (f : gmap EndpointId Backoff → gmap EndpointId Backoff) (s : Service) : Service :=
  MkService (sv_disk s) (sv_live s) (sv_window s) (sv_window_seq s) (sv_sessions s) (sv_dialing s)
    (sv_discovered s) (sv_known_addrs s) (f (sv_reconnect s)).

(** ** Handlers as computations *)
Definition M (A : Type) : Type := Service → A * Service * list Effect.
#[global] Instance M_ret : MRet M := λ A a s, (a, s, []).
#[global] Instance M_bind : MBind M := λ A B f m s,
  let '(a, s, e1) := m s in let '(b, s, e2) := f a s in (b, s, e1 ++ e2).
Definition gets {A} (f : Service → A) : M A := λ s, (f s, s, []).
Definition modify (f : Service → Service) : M () := λ s, ((), f s, []).
Definition effect (e : Effect) : M () := λ s, ((), s, [e]).
Definition skip : M () := mret ().

Section Handlers.
  (** The parameters: [EndpointId]'s [from_str] and [to_string] and its short
      form, [RelayUrl]'s parser, the TOML crate. *)
  Context (id_parse : string → option EndpointId) (id_show id_short : EndpointId → string)
    (relay_parse : string → option string)
    (toml_parse : string → option Peers) (toml_print : Peers → option string)
    (own_id : EndpointId).

(** The store's operations, on the disk of the service. *)
Definition store_load (io : Io) : M (res StoreError Peers) := gets (λ s, load toml_parse io (sv_disk s)).
Definition store_op {A} (f : Disk → Disk * res StoreError A) : M (res StoreError A) :=
  d ← gets sv_disk; let '(d, r) := f d in _ ← modify (upd_disk (λ _, d)); mret r.
Definition store_add (io : Io) (unix : Z) (id wanted : string) := store_op (add toml_parse toml_print io unix id wanted).
Definition store_addrs (io : Io) (id : string) (direct : list SocketAddr) (relay : option string) :=
  store_op (update_addrs toml_parse toml_print io id direct relay).
Definition store_hello (io : Io) (id version build : string) := store_op (update_hello toml_parse toml_print io id version build).
Definition store_remove (io : Io) (name : string) := store_op (remove_by_name toml_parse toml_print io name).

Definition assemble_addr (peer : EndpointId) (record : PeerRecord) (s : Service) : EndpointAddr :=
  let addr := MkAddr peer (list_to_set (AddrIp <$> pr_direct_addrs record)) in
  let addr := match pr_relay_url record ≫= relay_parse with
              | Some url => with_transport {[AddrRelay url]} addr
              | None => addr
              end in
  let addr := match sv_known_addrs s !! peer with Some hint => with_transport (ea_addrs hint) addr | None => addr end in
  match sv_discovered s !! peer with Some hint => with_transport (ea_addrs hint) addr | None => addr end.

Definition ensure_session (io : Io) (peer : EndpointId) : M () :=
  s ← gets id;
  if bool_decide (peer = own_id) || bool_decide (is_Some (sv_sessions s !! peer)) || bool_decide (peer ∈ sv_dialing s)
  then skip
  else
    stored ← store_load io;
    match stored with
    | Ok stored =>
        match (stored : Peers) !! id_show peer with
        | None => skip
        | Some record =>
            if decide ((sv_live s !! peer ≫= lv_state) = Some Incompatible) then skip
            else
              _ ← modify (upd_dialing (λ d, {[peer]} ∪ d));
              effect (SpawnDial peer (assemble_addr peer record s))
        end
    | _ => skip
    end.

Definition note_dial_failure (now : Z) (peer : EndpointId) : M () :=
  modify (upd_reconnect (λ m,
    let entry := default (MkBackoff now RECONNECT_BACKOFF_BASE) (m !! peer) in
    <[peer := MkBackoff (now + bo_delay entry) (Z.min (bo_delay entry * 2) RECONNECT_BACKOFF_CAP)]> m)).

(** [finished]: whether the runner of the current session has ended. *)
Definition adopt_conn (io : Io) (finished : bool) (conn : Conn) (dialer : bool) : M () :=
  let peer := cn_remote conn in
  let start : M () :=
    stored ← store_load io;
    let peer_name := match stored with
                     | Ok stored => match (stored : Peers) !! id_show peer with Some r => pr_name r | None => id_short peer end
                     | _ => id_short peer
                     end in
    _ ← effect (SpawnSession conn dialer peer_name);
    modify (upd_sessions (<[peer := MkSession conn dialer]>)) in
  if decide (peer = own_id) then effect (Close conn 0 "self-connection")
  else
    _ ← modify (upd_reconnect (delete peer));
    existing ← gets (λ s, sv_sessions s !! peer);
    match existing with
    | None => start
    | Some old =>
        if finished then
          _ ← modify (upd_sessions (delete peer));
          _ ← effect (Close (se_conn old) 0 "superseded");
          start
        else
          let i_am_lower := own_id <? peer in
          let new_wins := Bool.eqb dialer i_am_lower && negb (Bool.eqb (se_dialer old) i_am_lower) in
          if new_wins then
            _ ← modify (upd_sessions (delete peer));
            _ ← effect (AbortRunner (se_conn old));
            _ ← effect (Close (se_conn old) 0 "superseded");
            start
          else effect (Close conn 0 "duplicate")
    end.

(** ** Pairing *)

(** [pair_start]: the code drawn, or the window that is still open. *)
Definition pair_start (now pair_window : Z) (draws : list (option Z)) : M (option (res MeshError string)) :=
  window ← gets sv_window;
  if match window with Some w => (now <? w_deadline w) && (0 <? w_attempts_left w) | None => false end
  then mret (Some (Err WindowAlreadyOpen))
  else
    match generate_code draws with
    | None => mret None
    | Some (Err e) => mret (Some (Err (PairFail e)))
    | Some Panic => mret (Some Panic)
    | Some (Ok code) =>
        seq ← gets sv_window_seq;
        let window_id := u64_add seq 1 in
        let deadline := now + pair_window in
        _ ← modify (set_window_seq window_id);
        _ ← modify (set_window (Some (MkWindow window_id code PAIR_ATTEMPTS deadline)));
        _ ← effect (SpawnTimeout window_id deadline);
        mret (Some (Ok code))
    end.

Definition incoming_pair (now : Z) (conn : Conn) : M () :=
  window ← gets sv_window;
  match window with
  | None => effect (Close conn 2 "no-pairing-window")
  | Some w =>
      if (w_deadline w <=? now) || (w_attempts_left w =? 0) then effect (Close conn 2 "no-pairing-window")
      else
        _ ← effect (Notify (w_id w) PairAttempt);
        effect (SpawnAttempt (w_id w) conn (w_code w) (Z.min (w_deadline w - now) PAIR_EXCHANGE_TIMEOUT))
  end.

(** The addressing of a connection: direct addresses and a relay. *)
Abbreviation Addressing := (list SocketAddr * option string)%type.

(** The text of a store error in the window's [Failed] event is left to
    [store_text]. *)
Definition pair_host_done (store_text : StoreError → string) (io_add io_addrs io_load : Io) (unix window_id : Z)
    (result : res PairError (EndpointId * string)) (observed : Addressing) : M () :=
  window ← gets sv_window;
  match window with
  | None => skip
  | Some w =>
      if negb (w_id w =? window_id) then skip
      else
        match result with
        | Ok (peer, node_name) =>
            let id_str := id_show peer in
            added ← store_add io_add unix id_str node_name;
            match added with
            | Ok name =>
                _ ← store_addrs io_addrs id_str observed.1 observed.2;
                _ ← effect (Notify (w_id w) (Paired id_str name));
                _ ← modify (set_window None);
                _ ← modify (upd_reconnect (delete peer));
                ensure_session io_load peer
            | Err e =>
                _ ← effect (Notify (w_id w) (PairFailed (store_text e)));
                modify (set_window None)
            | Panic => skip
            end
        | _ =>
            let left := u32_sub (w_attempts_left w) 1 in
            _ ← effect (AttemptFailed (w_id w));
            _ ← modify (set_window (Some (MkWindow (w_id w) (w_code w) left (w_deadline w))));
            if left =? 0 then
              _ ← effect (Notify (w_id w) (PairFailed "the pairing code was guessed wrong too often; run `onebrain pair` again to open a new window"));
              modify (set_window None)
            else skip
        end
  end.

Definition window_timeout (window_id : Z) : M () :=
  window ← gets sv_window;
  match window with
  | Some w => if w_id w =? window_id then _ ← effect (Notify (w_id w) Expired); modify (set_window None) else skip
  | None => skip
  end.

(** ** The other messages of [run] *)
Definition joined_peer (io : Io) (peer : EndpointId) (addr : EndpointAddr) : M () :=
  _ ← modify (upd_known (<[peer := addr]>));
  _ ← modify (upd_reconnect (delete peer));
  ensure_session io peer.

Definition dial_done (io : Io) (now : Z) (finished : bool) (peer : EndpointId) (conn : option Conn) : M () :=
  _ ← modify (upd_dialing (.∖ {[peer]}));
  match conn with
  | Some conn => adopt_conn io finished conn true
  | None => note_dial_failure now peer
  end.

Definition session_ended (peer : EndpointId) (stable_id : Z) : M () :=
  current ← gets (λ s, sv_sessions s !! peer);
  match current with
  | Some x => if cn_stable_id (se_conn x) =? stable_id then modify (upd_sessions (delete peer)) else skip
  | None => skip
  end.

Definition discovered (io_contains io_load : Io) (peer : EndpointId) (addr : EndpointAddr) : M () :=
  if decide (peer = own_id) then skip
  else
    _ ← modify (upd_discovered (<[peer := addr]>));
    known ← gets (λ s, contains toml_parse io_contains (id_show peer) (sv_disk s));
    match known with
    | Ok true =>
        _ ← modify (upd_known (<[peer := addr]>));
        _ ← modify (upd_reconnect (delete peer));
        ensure_session io_load peer
    | _ => skip
    end.

Definition discovery_expired (peer : EndpointId) : M () := modify (upd_discovered (delete peer)).

(** One stored id of a reconnect pass. *)
Definition reconnect_one (now : Z) (io : string → Io) (id_str : string) : M () :=
  match id_parse id_str with
  | None => skip
  | Some peer =>
      s ← gets id;
      if bool_decide (is_Some (sv_sessions s !! peer)) || bool_decide (peer ∈ sv_dialing s) then skip
      else if match sv_reconnect s !! peer with Some b => now <? bo_next_at b | None => false end then skip
      else ensure_session (io id_str) peer
  end.

Fixpoint for_each {A} (f : A → M ()) (l : list A) : M () :=
  match l with [] => skip | x :: l => _ ← f x; for_each f l end.

Definition reconnect_tick (io_load : Io) (io : string → Io) (now : Z) : M () :=
  stored ← store_load io_load;
  match stored with
  | Ok stored => for_each (reconnect_one now io) (btree_list stored).*1
  | _ => skip
  end.

Definition unpair (io : Io) (name : string) : M (res MeshError ()) :=
  removed ← store_remove io name;
  match removed with
  | Err e => mret (Err (StoreFailed e))
  | Panic => mret Panic
  | Ok id_str =>
      match id_parse id_str with
      | None => mret (Ok ())
      | Some peer =>
          session ← gets (λ s, sv_sessions s !! peer);
          _ ← match session with
              | Some x =>
                  _ ← modify (upd_sessions (delete peer));
                  _ ← effect (AbortRunner (se_conn x));
                  effect (Close (se_conn x) 1 "unpaired")
              | None => skip
              end;
          _ ← modify (upd_live (delete peer));
          _ ← modify (upd_known (delete peer));
          _ ← modify (upd_dialing (.∖ {[peer]}));
          _ ← modify (upd_reconnect (delete peer));
          mret (Ok ())
      end
  end.

(** The sessions are drained: the runners aborted, the connections closed. *)
Definition shutdown : M () :=
  sessions ← gets (λ s, (map_to_list (sv_sessions s)).*2);
  _ ← for_each (λ x, _ ← effect (AbortRunner (se_conn x)); effect (Close (se_conn x) 0 "shutdown")) sessions;
  modify (upd_sessions (λ _, ∅)).

(** ** Queries *)

(** A row of [peers()]: the part the planner reads, and the rest. *)
Record PeerRow := MkRow {
  row_status : PeerStatus;
  row_loss : option fl;
  row_last_seen_unix : option Z;
  row_disk_mbps : option fl;
  row_product_version : option string;
  row_engine_build : option string }.

Definition peer_row (s : Service) (id_str : string) (record : PeerRecord) : PeerRow :=
  let parsed := id_parse id_str in
  let entry := parsed ≫= λ id, sv_live s !! id in
  let state := match entry ≫= lv_state with
               | Some st => st
               | None => match parsed ≫= λ id, sv_discovered s !! id with Some _ => Reachable | None => Unknown end
               end in
  let entry := default live_default entry in
  MkRow (MkPeer (pr_name record) id_str state (lv_rtt_ms entry) (lv_bandwidth_mbps entry) (lv_usable_memory_bytes entry)
           (lv_prefill_tps entry) (lv_decode_tps entry) (lv_draining entry))
        (lv_loss entry) (lv_last_seen_unix entry) (lv_disk_mbps entry) (pr_product_version record) (pr_engine_build record).

Definition cmp_row (a b : PeerRow) : comparison := String.compare (ps_name (row_status a)) (ps_name (row_status b)).

Definition peer_statuses (io : Io) (s : Service) : res MeshError (list PeerRow) :=
  stored ← map_err StoreFailed (load toml_parse io (sv_disk s));
  Ok (sort_by cmp_row ((λ x, peer_row s x.1 x.2) <$> btree_list stored)).

Definition unknown_name (name : string) (stored : Peers) : MeshError :=
  StoreFailed (UnknownPeerName name (sort_by String.compare (names stored))).

Definition find_name (name : string) (stored : Peers) : option (string * PeerRecord) :=
  find_first (λ x, bool_decide (pr_name x.2 = name)) (btree_list stored).

Definition resolve_peer (io : Io) (peer_ref : string) (s : Service) : res MeshError (EndpointId * PeerRecord) :=
  stored ← map_err StoreFailed (load toml_parse io (sv_disk s));
  let found := match id_parse peer_ref with
               | Some id => record ← (stored : Peers) !! id_show id; Some (id, record)
               | None => '(id_str, record) ← find_name peer_ref stored; id ← id_parse id_str; Some (id, record)
               end in
  ok_or found (unknown_name peer_ref stored).

Definition resolve_conn (io : Io) (peer_ref : string) (s : Service) : res MeshError Conn :=
  match id_parse peer_ref with
  | Some id =>
      match sv_sessions s !! id with
      | Some x => Ok (se_conn x)
      | None =>
          let name := match load toml_parse io (sv_disk s) with
                      | Ok peers => match (peers : Peers) !! peer_ref with Some r => pr_name r | None => peer_ref end
                      | _ => peer_ref
                      end in
          Err (NotConnected name)
      end
  | None =>
      stored ← map_err StoreFailed (load toml_parse io (sv_disk s));
      match find_name peer_ref stored with
      | Some (id_str, _) =>
          ok_or (se_conn <$> (id_parse id_str ≫= λ id, sv_sessions s !! id)) (NotConnected peer_ref)
      | None => Err (unknown_name peer_ref stored)
      end
  end.

(** [probe], up to the measurement: the connection to probe, by name only. *)
Definition probe_target (io io_names : Io) (name : string) (s : Service) : res MeshError (EndpointId * Conn) :=
  stored ← map_err StoreFailed (load toml_parse io (sv_disk s));
  match find_name name stored with
  | None =>
      let known := match load toml_parse io_names (sv_disk s) with Ok p => sort_by String.compare (names p) | _ => [] end in
      Err (StoreFailed (UnknownPeerName name known))
  | Some (id_str, _) =>
      ok_or (id ← id_parse id_str; x ← sv_sessions s !! id; Some (id, se_conn x)) (NotConnected name)
  end.

(** The peers [spawn] dials first. *)
Definition startup_peers (io : Io) (d : Disk) : list EndpointId :=
  match load toml_parse io d with Ok stored => omap id_parse (btree_list stored).*1 | _ => [] end.

(** ** Accepting *)
Inductive Alpn := ALPN_PAIR | ALPN_MESH | ALPN_BLOBS | ALPN_OTHER.
Inductive Dispatch := ToPair | ToMesh | ToBlobs | CloseWith (code : Z) (why : string).

Definition accept_dispatch (io : Io) (alpn : Alpn) (remote : EndpointId) (d : Disk) : Dispatch :=
  let gate (ok : Dispatch) :=
    match contains toml_parse io (id_show remote) d with Ok true => ok | _ => CloseWith 1 "unpaired" end in
  match alpn with
  | ALPN_PAIR => ToPair
  | ALPN_MESH => gate ToMesh
  | ALPN_BLOBS => gate ToBlobs
  | ALPN_OTHER => CloseWith 0 "unknown-alpn"
  end.

(** ** Joining *)
Inductive PairTarget := TargetTicket (raw : string) | TargetCode (raw : string).

(** The candidates of a code-only join, in the order of the map. *)
Definition join_candidates (s : Service) : list EndpointAddr :=
  filter (λ a, ea_id a ≠ own_id) (map_to_list (sv_discovered s)).*2.

(** [ip_addrs] and [relay_urls] of the ordered set of addresses. *)
Definition ip_addrs (a : EndpointAddr) : list SocketAddr :=
  sort_by cmp_addr (omap (λ x, match x with AddrIp sa => Some sa | _ => None end) (elements (ea_addrs a))).
Definition relay_urls (a : EndpointAddr) : list string :=
  sort_by String.compare (omap (λ x, match x with AddrRelay u => Some u | _ => None end) (elements (ea_addrs a))).

Definition persist_join (io_add io_addrs : Io) (unix : Z) (peer : EndpointId) (node_name : string) (addr : EndpointAddr) (d : Disk) :
    Disk * res MeshError (string * string * EndpointId * EndpointAddr) :=
  let '(d, added) := add toml_parse toml_print io_add unix (id_show peer) node_name d in
  match added with
  | Ok name =>
      let '(d, _) := update_addrs toml_parse toml_print io_addrs (id_show peer) (ip_addrs addr) (head (relay_urls addr)) d in
      (d, Ok (id_show peer, name, peer, addr))
  | Err e => (d, Err (StoreFailed e))
  | Panic => (d, Panic)
  end.

(** The candidates in turn, each with the outcome of [join_one]: the first
    that succeeds, or the last error. *)
Fixpoint try_candidates (join_one : EndpointAddr → string → res MeshError (EndpointId * string)) (code : string)
    (candidates : list EndpointAddr) (last_err : MeshError) : res MeshError (EndpointId * string * EndpointAddr) :=
  match candidates with
  | [] => Err last_err
  | addr :: rest =>
      match join_one addr code with
      | Ok (peer, name) => Ok (peer, name, addr)
      | Err e => try_candidates join_one code rest e
      | Panic => Panic
      end
  end.

(** [do_pair_join] up to the persisting: whom the exchange paired with. *)
Definition pair_join_with (ticket_parse : string → option EndpointAddr)
    (join_one : EndpointAddr → string → res MeshError (EndpointId * string))
    (target : PairTarget) (code : option string) (candidates : list EndpointAddr) :
    res MeshError (EndpointId * string * EndpointAddr) :=
  match target with
  | TargetTicket raw =>
      addr ← ok_or (ticket_parse (trim raw)) (PairFail (BadPairTarget (truncate_for_display raw)));
      code ← ok_or code CodeRequired;
      code ← map_err PairFail (validate_code code);
      '(peer, name) ← join_one addr code;
      Ok (peer, name, addr)
  | TargetCode raw =>
      code ← map_err PairFail (validate_code raw);
      match candidates with [] => Err NoCandidates | _ => try_candidates join_one code candidates NoCandidates end
  end.

Definition do_pair_join (ticket_parse : string → option EndpointAddr)
    (join_one : EndpointAddr → string → res MeshError (EndpointId * string)) (io_add io_addrs : Io) (unix : Z)
    (target : PairTarget) (code : option string) (candidates : list EndpointAddr) (d : Disk) :
    Disk * res MeshError (string * string * EndpointId * EndpointAddr) :=
  match pair_join_with ticket_parse join_one target code candidates with
  | Ok (peer, name, addr) => persist_join io_add io_addrs unix peer name addr d
  | Err e => (d, Err e)
  | Panic => (d, Panic)
  end.
End Handlers.
