(* ===== verification/MeshOk.v ===== *)
(** * The mesh service: ties, redials and names *)

From Stdlib Require Import ZArith Lia Ascii String.
From stdpp Require Import base list strings option gmap.
From S2P Require Import Prelude StrUtil Float Proto Cluster PlanLoad PeerStore Pairing Heartbeat Mesh.

Open Scope Z_scope.

(** What a computation leaves and what it sets off. *)
Definition after {A} (m : M A) (s : Service) : Service := (m s).1.2.
Definition effects {A} (m : M A) (s : Service) : list Effect := (m s).2.

Lemma after_bind {A B} (m : M A) (f : A → M B) s : after (m ≫= f) s = after (f (m s).1.1) (after m s).
Proof. unfold after, mbind, M_bind. destruct (m s) as [[a s'] e]. simpl. by destruct (f a s') as [[b s''] e']. Qed.

Lemma effects_bind {A B} (m : M A) (f : A → M B) s :
  effects (m ≫= f) s = effects m s ++ effects (f (m s).1.1) (after m s).
Proof. unfold effects, after, mbind, M_bind. destruct (m s) as [[a s'] e]. simpl. by destruct (f a s') as [[b s''] e']. Qed.

Lemma bind_gets {A B} (g : Service → A) (f : A → M B) s : (gets g ≫= f) s = f (g s) s.
Proof. unfold mbind, M_bind, gets. by destruct (f (g s) s) as [[b s'] e]. Qed.
Lemma bind_modify {B} g (f : () → M B) s : (modify g ≫= f) s = f () (g s).
Proof. unfold mbind, M_bind, modify. by destruct (f () (g s)) as [[b s'] e]. Qed.
Lemma bind_effect {B} e (f : () → M B) s : (effect e ≫= f) s = let '(b, s', es) := f () s in (b, s', e :: es).
Proof. unfold mbind, M_bind, effect. by destruct (f () s) as [[b s'] es]. Qed.

Section Ok.
  Context (id_parse : string → option EndpointId) (id_show id_short : EndpointId → string)
    (relay_parse : string → option string)
    (toml_parse : string → option Peers) (toml_print : Peers → option string)
    (own_id : EndpointId).
  Notation adopt := (adopt_conn id_show id_short toml_parse own_id).

(** ** Simultaneous connections *)

(** Adopt connections in turn, none of whose runners has ended. *)
Fixpoint adopt_all (io : Io) (l : list (Conn * bool)) : M () :=
  match l with [] => skip | (c, dialer) :: l => _ ← adopt io false c dialer; adopt_all io l end.

(** The connection the lower id dialed, the first of them, or else the first. *)
Definition survivor (lower : bool) (l : list (Conn * bool)) : option (Conn * bool) :=
  match find_first (λ x, Bool.eqb x.2 lower) l with Some x => Some x | None => head l end.

Definition session_of (x : Conn * bool) : Session := MkSession x.1 x.2.

Lemma adopt_sessions io c dialer s : cn_remote c ≠ own_id →
  sv_sessions (after (adopt io false c dialer) s) =
  match sv_sessions s !! cn_remote c with
  | None => <[cn_remote c := MkSession c dialer]> (sv_sessions s)
  | Some old =>
      if Bool.eqb dialer (own_id <? cn_remote c) && negb (Bool.eqb (se_dialer old) (own_id <? cn_remote c))
      then <[cn_remote c := MkSession c dialer]> (sv_sessions s) else sv_sessions s
  end.
Proof.
  intros Hne. unfold adopt_conn. rewrite decide_False by done. rewrite !after_bind. cbn.
  destruct (sv_sessions s !! cn_remote c) as [old|]; [|done].
  destruct (Bool.eqb _ _ && negb _); [|done]. rewrite !after_bind. cbn. by rewrite insert_delete_eq.
Qed.

Lemma adopt_closes io c dialer s old : cn_remote c ≠ own_id → sv_sessions s !! cn_remote c = Some old →
  ∃ why, Close (if Bool.eqb dialer (own_id <? cn_remote c) && negb (Bool.eqb (se_dialer old) (own_id <? cn_remote c))
                then se_conn old else c) 0 why ∈ effects (adopt io false c dialer) s.
Proof.
  intros Hne Hs. unfold adopt_conn. rewrite decide_False by done. unfold effects. rewrite bind_modify, bind_gets. cbn [sv_sessions upd_reconnect].
  rewrite Hs. destruct (Bool.eqb _ _ && negb _).
  - rewrite bind_modify, !bind_effect. destruct (_ ≫= _) as [[b s'] es]. cbn. eexists. right. left.
  - cbn. eexists. left.
Qed.

Lemma adopt_two_closes io c1 d1 c2 d2 peer s :
  peer ≠ own_id → cn_remote c1 = peer → cn_remote c2 = peer → sv_sessions s !! peer = None →
  ∃ why, Close (if Bool.eqb d2 (own_id <? peer) && negb (Bool.eqb d1 (own_id <? peer)) then c1 else c2) 0 why ∈
    effects (adopt_all io [(c1, d1); (c2, d2)]) s.
Proof.
  intros Hne H1 H2 Hs. destruct (adopt_closes io c2 d2 (after (adopt io false c1 d1) s) (MkSession c1 d1)) as [why Hw].
  - by rewrite H2.
  - rewrite adopt_sessions, H1, H2, Hs by (by rewrite H1). by rewrite lookup_insert_eq.
  - rewrite H2 in Hw. exists why. cbn [adopt_all]. rewrite !effects_bind. apply elem_of_app. right. apply elem_of_app. by left.
Qed.

(** Which of two the tie-break keeps, as a fold over the connections. *)
Lemma adopt_all_session io l peer s cur :
  peer ≠ own_id → Forall (λ x, cn_remote x.1 = peer) l → sv_sessions s !! peer = Some (session_of cur) →
  sv_sessions (after (adopt_all io l) s) !! peer =
  Some (session_of (if Bool.eqb cur.2 (own_id <? peer) then cur else default cur (find_first (λ x, Bool.eqb x.2 (own_id <? peer)) l))).
Proof.
  intros Hne. revert s cur. induction l as [|[c d] l IH]; intros s cur Hl Hcur.
  { cbn. rewrite Hcur. by destruct (Bool.eqb _ _). }
  apply list.Forall_cons in Hl as [Hc Hl]. cbn [fst] in Hc. cbn [adopt_all]. rewrite after_bind.
  pose proof (adopt_sessions io c d s ltac:(by rewrite Hc)) as Ha. rewrite Hc, Hcur in Ha. cbn [se_dialer session_of] in Ha.
  unfold find_first in *. cbn [list_find].
  destruct (Bool.eqb d (own_id <? peer)) eqn:Hd; cbn [andb] in Ha.
  - destruct (Bool.eqb cur.2 (own_id <? peer)) eqn:Hcd; cbn [negb] in Ha.
    + rewrite (IH _ cur Hl) by (by rewrite Ha). by rewrite Hcd.
    + rewrite (IH _ (c, d) Hl) by (rewrite Ha; by rewrite lookup_insert_eq). cbn [snd]. rewrite Hd.
      rewrite decide_True by done. done.
  - rewrite (IH _ cur Hl) by (by rewrite Ha). cbn [snd]. rewrite decide_False by (by rewrite Hd).
    destruct (Bool.eqb cur.2 _); [done|]. by destruct (list_find _ l) as [[i x]|].
Qed.

Lemma adopt_all_survivor io l peer s :
  peer ≠ own_id → Forall (λ x, cn_remote x.1 = peer) l → sv_sessions s !! peer = None →
  sv_sessions (after (adopt_all io l) s) !! peer = session_of <$> survivor (own_id <? peer) l.
Proof.
  intros Hne Hl Hs. destruct l as [|[c d] l]; [done|]. pose proof Hl as [Hc Hl']%list.Forall_cons. cbn [fst] in Hc.
  cbn [adopt_all]. rewrite after_bind.
  pose proof (adopt_sessions io c d s ltac:(by rewrite Hc)) as Ha. rewrite Hc, Hs in Ha.
  rewrite (adopt_all_session io l peer _ (c, d) Hne Hl') by (by rewrite Ha, lookup_insert_eq).
  unfold survivor, find_first. cbn [list_find snd head]. destruct (Bool.eqb d (own_id <? peer)) eqn:Hd.
  - by rewrite decide_True.
  - rewrite decide_False by done. by destruct (list_find _ l) as [[i x]|].
Qed.

(** ** The reconnect pass *)
Notation ensure := (ensure_session id_show relay_parse toml_parse own_id).
Notation reconnect_one := (reconnect_one id_parse id_show relay_parse toml_parse own_id).
Notation addr_of := (assemble_addr relay_parse).

(** A stored peer to redial: no session, no dial in flight, its backoff over,
    not known to be incompatible. *)
Record to_dial (m : Peers) (now : Z) (s : Service) (keys : list string) (p : EndpointId) : Prop := {
  td_key : ∃ k, k ∈ keys ∧ id_parse k = Some p;
  td_other : p ≠ own_id;
  td_stored : is_Some (m !! id_show p);
  td_idle : sv_sessions s !! p = None;
  td_not_dialing : p ∉ sv_dialing s;
  td_backoff b : sv_reconnect s !! p = Some b → bo_next_at b ≤ now;
  td_compatible : (sv_live s !! p ≫= lv_state) ≠ Some Incompatible }.

(** Dials of a list of peers, from the records of the store. *)
Definition dials (m : Peers) (s : Service) (ps : list EndpointId) : list Effect :=
  (λ p, SpawnDial p (addr_of p (default (MkRecord "" 0 [] None None None) (m !! id_show p)) s)) <$> ps.

Lemma reconnect_one_spec m now io k s :
  load toml_parse (io k) (sv_disk s) = Ok m →
  match id_parse k with
  | Some p => to_dial m now s [k] p ∧ reconnect_one now io k s = ((), upd_dialing ({[p]} ∪.) s, dials m s [p]) ∨
              ~ to_dial m now s [k] p ∧ reconnect_one now io k s = ((), s, [])
  | None => reconnect_one now io k s = ((), s, [])
  end.
Proof using Type.
  intros Hm. unfold Mesh.reconnect_one. destruct (id_parse k) as [p|] eqn:Hk; [|done]. rewrite bind_gets. change (id s) with s.
  destruct (decide (is_Some (sv_sessions s !! p))) as [Hs|Hs]; [rewrite bool_decide_true by done|rewrite bool_decide_false by done].
  { right. split; [|done]. intros []. by destruct Hs; simplify_eq. }
  destruct (decide (p ∈ sv_dialing s)) as [Hd|Hd]; [rewrite bool_decide_true by done|rewrite bool_decide_false by done].
  { right. split; [|done]. by intros []. }
  cbn [orb]. destruct (match sv_reconnect s !! p with Some b => now <? bo_next_at b | None => false end) eqn:Hb.
  { right. split; [|done]. intros []. destruct (sv_reconnect s !! p) as [b|]; [|done].
    apply Z.ltb_lt in Hb. specialize (td_backoff0 b eq_refl). lia. }
  unfold ensure_session. rewrite bind_gets. change (id s) with s. rewrite (bool_decide_false (is_Some _)) by done.
  rewrite (bool_decide_false (p ∈ _)) by done.
  destruct (decide (p = own_id)) as [Ho|Ho]; [rewrite bool_decide_true by done|rewrite bool_decide_false by done].
  { right. split; [|done]. by intros []. }
  cbn [orb]. unfold store_load. rewrite bind_gets, Hm. destruct (m !! id_show p) as [r|] eqn:Hr; [|right; split; [|done]; intros []; by destruct td_stored0; simplify_eq].
  destruct (decide ((sv_live s !! p ≫= lv_state) = Some Incompatible)) as [Hi|Hi]; [right; split; [|done]; by intros []|].
  left. split; [|unfold dials; cbn; by rewrite Hr].
  split; [by exists k; split; [left|]|done|by rewrite Hr|by apply eq_None_not_Some|done| |done].
  intros b Hb'. rewrite Hb' in Hb. by apply Z.ltb_ge.
Qed.

Lemma to_dial_cons m now s k keys p :
  to_dial m now s (k :: keys) p ↔ to_dial m now s [k] p ∨ to_dial m now s keys p.
Proof using Type.
  split.
  - intros [(k' & [->|Hk]%elem_of_cons & Hp)]; [left|right]; split; eauto. exists k. split; [left|done].
  - intros [[(k' & ->%list_elem_of_singleton & Hp)]|[(k' & Hk & Hp)]]; split; eauto.
    + exists k. split; [left|done].
    + exists k'. split; [by right|done].
Qed.

Lemma to_dial_dialing m now s keys q p :
  to_dial m now (upd_dialing ({[q]} ∪.) s) keys p ↔ to_dial m now s keys p ∧ p ≠ q.
Proof using Type.
  split.
  - intros []. cbn in *. apply not_elem_of_union in td_not_dialing0 as [Hq%not_elem_of_singleton ?]. split; [by split|done].
  - intros [[] ?]. split; cbn; eauto. by rewrite not_elem_of_union, not_elem_of_singleton.
Qed.

Lemma reconnect_pass m now io keys s :
  (∀ k, k ∈ keys → load toml_parse (io k) (sv_disk s) = Ok m) →
  ∃ ps, NoDup ps ∧ (∀ p, p ∈ ps ↔ to_dial m now s keys p) ∧
    for_each (reconnect_one now io) keys s = ((), upd_dialing (list_to_set ps ∪.) s, dials m s ps).
Proof using Type.
  revert s. induction keys as [|k keys IH]; intros s Hm.
  { exists []. split; [constructor|]. split.
    - intros p. split; [by intros ?%not_elem_of_nil|]. intros [(k & Hk & _)]. by apply not_elem_of_nil in Hk.
    - cbn. unfold upd_dialing. rewrite (left_id_L ∅ (∪)). by destruct s. }
  cbn [for_each]. unfold mbind, M_bind.
  pose proof (reconnect_one_spec m now io k s (Hm k ltac:(left))) as Hone.
  assert (∀ s', sv_disk s' = sv_disk s → ∀ k', k' ∈ keys → load toml_parse (io k') (sv_disk s') = Ok m) as Hm'
    by (intros s' -> k' Hk'; apply Hm; by right).
  assert (∀ p, id_parse k ≠ Some p → ~ to_dial m now s [k] p) as Hnone
    by (intros p Hne [(k' & ->%list_elem_of_singleton & Hp)]; done).
  assert ((∃ p, to_dial m now s [k] p ∧ id_parse k = Some p ∧ reconnect_one now io k s = ((), upd_dialing ({[p]} ∪.) s, dials m s [p])) ∨
    (∀ p, ~ to_dial m now s [k] p) ∧ reconnect_one now io k s = ((), s, [])) as [(p & Htd & Hk & ->)|[Hno ->]].
  { destruct (id_parse k) as [p|]; [|right; split; [intros p; by apply Hnone|done]].
    destruct Hone as [[? ?]|[Hn ?]]; [left; eauto|]. right. split; [|done]. intros q Hq.
    destruct (decide (p = q)) as [<-|]; [done|]. apply (Hnone q); [by intros [= ->]|done]. }
  - destruct (IH (upd_dialing ({[p]} ∪.) s)) as (ps & Hnd & Hps & ->); [by apply Hm'|].
    exists (p :: ps). split_and!.
    + constructor; [|done]. rewrite Hps, to_dial_dialing. by intros [_ []].
    + intros q. rewrite elem_of_cons, Hps, to_dial_dialing, to_dial_cons. split.
      * intros [->|[? _]]; auto.
      * intros [Hq|Hq]; [left|destruct (decide (q = p)); auto].
        destruct Hq as [(k' & ->%list_elem_of_singleton & Hq)]. rewrite Hk in Hq. by injection Hq as ->.
    + cbn. unfold upd_dialing. cbn. by rewrite (assoc_L (∪)), (comm_L (∪) (list_to_set ps)).
  - destruct (IH s) as (ps & Hnd & Hps & ->); [by apply Hm'|]. exists ps. split_and!; [done| |done].
    intros q. rewrite Hps, to_dial_cons. split; [by right|]. by intros [?%Hno|].
Qed.
End Ok.

(** ** Backoff *)
Definition fail_dials (p : EndpointId) (ts : list Z) : M () := for_each (λ t, note_dial_failure t p) ts.

Fixpoint last_time (t : Z) (ts : list Z) : Z := match ts with [] => t | t' :: ts => last_time t' ts end.

(** The wait after the [n]-th failure in a row, counted from 0. *)
Definition backoff_wait (n : nat) : Z := Z.min (RECONNECT_BACKOFF_BASE * 2 ^ Z.of_nat n) RECONNECT_BACKOFF_CAP.

Lemma backoff_wait_double n : Z.min (backoff_wait n * 2) RECONNECT_BACKOFF_CAP = backoff_wait (S n).
Proof.
  unfold backoff_wait. rewrite Nat2Z.inj_succ, Z.pow_succ_r by lia.
  assert (0 < 2 ^ Z.of_nat n) by lia. unfold RECONNECT_BACKOFF_BASE, RECONNECT_BACKOFF_CAP, SEC. lia.
Qed.

Lemma backoff_wait_0 : backoff_wait 0 = RECONNECT_BACKOFF_BASE.
Proof. reflexivity. Qed.

Lemma note_dial_failure_entry now p s n b :
  default (MkBackoff now RECONNECT_BACKOFF_BASE) (sv_reconnect s !! p) = b → bo_delay b = backoff_wait n →
  sv_reconnect (after (note_dial_failure now p) s) !! p = Some (MkBackoff (now + backoff_wait n) (backoff_wait (S n))).
Proof. intros Hb Hd. cbn -[backoff_wait RECONNECT_BACKOFF_BASE RECONNECT_BACKOFF_CAP Z.min]. by rewrite Hb, lookup_insert_eq, Hd, backoff_wait_double. Qed.

Lemma fail_dials_more p ts n t s : sv_reconnect s !! p = Some (MkBackoff (t + backoff_wait n) (backoff_wait (S n))) →
  sv_reconnect (after (fail_dials p ts) s) !! p =
  Some (MkBackoff (last_time t ts + backoff_wait (n + length ts)) (backoff_wait (S (n + length ts)))).
Proof.
  revert n t s. induction ts as [|t' ts IH]; intros n t s Hs.
  { cbn -[backoff_wait]. by rewrite Nat.add_0_r. }
  unfold fail_dials in *. cbn [for_each]. rewrite after_bind, (IH (S n) t').
  - cbn [length]. replace (n + S (length ts))%nat with (S n + length ts)%nat by lia. done.
  - apply (note_dial_failure_entry t' p s (S n) _ (eq_refl _)). by rewrite Hs.
Qed.

Lemma fail_dials_from p t ts s : sv_reconnect s !! p = None →
  sv_reconnect (after (fail_dials p (t :: ts)) s) !! p =
  Some (MkBackoff (last_time t ts + backoff_wait (length ts)) (backoff_wait (S (length ts)))).
Proof.
  intros Hs. unfold fail_dials. cbn [for_each]. rewrite after_bind.
  rewrite (fail_dials_more p ts 0 t); [done|]. apply (note_dial_failure_entry t p s 0 _ (eq_refl _)). by rewrite Hs.
Qed.

(** ** Theorems *)

(** C18: Simultaneous connects.  Two nodes that dial each other at once and
    adopt both connections, each in its own order, keep the same one: the one
    the lower id dialed.  Both close the other. *)
Theorem tie_break_agrees id_show id_short toml_parse (a b : EndpointId) (Hab : a < b) (io : Io) (sa sb : Service)
  (a_dialed_at_a b_dialed_at_a a_dialed_at_b b_dialed_at_b : Conn)
  (Ha : cn_remote a_dialed_at_a = b ∧ cn_remote b_dialed_at_a = b)
  (Hb : cn_remote a_dialed_at_b = a ∧ cn_remote b_dialed_at_b = a)
  (Hsa : sv_sessions sa !! b = None) (Hsb : sv_sessions sb !! a = None) la lb
  (Hla : la ≡ₚ [(a_dialed_at_a, true); (b_dialed_at_a, false)])
  (Hlb : lb ≡ₚ [(a_dialed_at_b, false); (b_dialed_at_b, true)]) :
  let at_a := adopt_all id_show id_short toml_parse a io la in
  let at_b := adopt_all id_show id_short toml_parse b io lb in
  sv_sessions (after at_a sa) !! b = Some (MkSession a_dialed_at_a true) ∧
  sv_sessions (after at_b sb) !! a = Some (MkSession a_dialed_at_b false) ∧
  (∃ why, Close b_dialed_at_a 0 why ∈ effects at_a sa) ∧ (∃ why, Close b_dialed_at_b 0 why ∈ effects at_b sb).
Proof.
  assert ((a <? b) = true) as Hlt by (by apply Z.ltb_lt). assert ((b <? a) = false) as Hgt by (apply Z.ltb_ge; lia).
  destruct Ha as [Ha1 Ha2], Hb as [Hb1 Hb2]. intros at_a at_b. unfold at_a, at_b.
  symmetry in Hla, Hlb.
  apply Permutation_length_2_inv in Hla. apply Permutation_length_2_inv in Hlb. split_and!.
  - rewrite (adopt_all_survivor _ _ _ _ _ la b); [|lia|destruct Hla as [-> | ->]; by repeat constructor|done].
    rewrite Hlt. by destruct Hla as [-> | ->].
  - rewrite (adopt_all_survivor _ _ _ _ _ lb a); [|lia|destruct Hlb as [-> | ->]; by repeat constructor|done].
    rewrite Hgt. by destruct Hlb as [-> | ->].
  - destruct Hla as [-> | ->]; [destruct (adopt_two_closes id_show id_short toml_parse a io a_dialed_at_a true b_dialed_at_a false b sa) as [why Hw]
      |destruct (adopt_two_closes id_show id_short toml_parse a io b_dialed_at_a false a_dialed_at_a true b sa) as [why Hw]];
      try done; try lia; rewrite Hlt in Hw; by exists why.
  - destruct Hlb as [-> | ->]; [destruct (adopt_two_closes id_show id_short toml_parse b io a_dialed_at_b false b_dialed_at_b true a sb) as [why Hw]
      |destruct (adopt_two_closes id_show id_short toml_parse b io b_dialed_at_b true a_dialed_at_b false a sb) as [why Hw]];
      try done; try lia; rewrite Hgt in Hw; by exists why.
Qed.

(** The reconnect pass.  On a readable store it starts a dial, once and
    with the store's addressing and every live hint, for exactly the stored
    peers other than this node that have no session and no dial in flight,
    are not known to be incompatible and whose backoff is over, and changes
    nothing else.  After [n] failed dials in a row the backoff ends 3 s times
    2^(n-1), at most 30 s, after the last. *)
Theorem redials_exact id_parse id_show relay_parse toml_parse (own_id : EndpointId)
  (Hids : ∀ p, id_parse (id_show p) = Some p) io_load io now s m
  (Hload : load toml_parse io_load (sv_disk s) = Ok m) (Hio : ∀ k, io_read (io k) = true) :
  (∃ ps, NoDup ps ∧
    (∀ p, p ∈ ps ↔ p ≠ own_id ∧ is_Some (m !! id_show p) ∧ sv_sessions s !! p = None ∧ p ∉ sv_dialing s ∧
       (sv_live s !! p ≫= lv_state) ≠ Some Incompatible ∧ (∀ b, sv_reconnect s !! p = Some b → bo_next_at b ≤ now)) ∧
    reconnect_tick id_parse id_show relay_parse toml_parse own_id io_load io now s =
      ((), upd_dialing (list_to_set ps ∪.) s, dials id_show relay_parse m s ps)) ∧
  (∀ p t ts, sv_reconnect s !! p = None →
    bo_next_at <$> sv_reconnect (after (fail_dials p (t :: ts)) s) !! p =
    Some (last_time t ts + Z.min (3 * SEC * 2 ^ Z.of_nat (length ts)) (30 * SEC))).
Proof.
  split; [|intros p t ts Hs; by rewrite fail_dials_from].
  assert (∀ k, k ∈ (btree_list m).*1 → load toml_parse (io k) (sv_disk s) = Ok m) as Hkeys.
  { intros k _. unfold load in *. rewrite Hio. by destruct (io_read io_load). }
  destruct (reconnect_pass id_parse id_show relay_parse toml_parse own_id m now io _ s Hkeys) as (ps & Hnd & Hps & E).
  exists ps. split_and!; [done| |].
  - intros p. rewrite Hps. split.
    + intros []. done.
    + intros (? & [r Hr] & ? & ? & ? & ?). split; [|done|by exists r|done..]. exists (id_show p). split; [|done].
      apply list_elem_of_fmap. exists (id_show p, r). by rewrite elem_of_btree_list.
  - unfold reconnect_tick, store_load. by rewrite bind_gets, Hload.
Qed.

(** ** Examples *)
Definition ex_id_show (p : EndpointId) : string := pos_text (encode p).
Definition ex_id_parse (s : string) : option EndpointId := decode (text_pos s).
Lemma ex_ids p : ex_id_parse (ex_id_show p) = Some p.
Proof. unfold ex_id_parse, ex_id_show. by rewrite text_pos_text, decode_encode. Qed.

(** A store that holds the peer 7 as [laptop]. *)
Definition ex_map7 : Peers := {[ex_id_show 7 := MkRecord "laptop" 10 [] None None None]}.
Definition ex_paired : Disk := MkDisk (ex_print ex_map7) None.

Definition ex_service (d : Disk) : Service := MkService d ∅ None 0 ∅ ∅ ∅ ∅ ∅.

Lemma ex_paired_load : load ex_parse io_ok ex_paired = Ok ex_map7.
Proof.
  unfold load, io_ok, ex_paired. cbn [io_read d_main]. destruct (ex_print ex_map7) as [b|] eqn:E; [|done].
  by rewrite (ex_roundtrip _ _ E).
Qed.

Lemma tie_break_agrees_witness :
  let at_1 := adopt_all ex_id_show ex_id_show ex_parse 1 io_ok [(MkConn 11 2, false); (MkConn 10 2, true)] in
  let at_2 := adopt_all ex_id_show ex_id_show ex_parse 2 io_ok [(MkConn 20 1, false); (MkConn 21 1, true)] in
  sv_sessions (after at_1 (ex_service (MkDisk None None))) !! 2 = Some (MkSession (MkConn 10 2) true) ∧
  sv_sessions (after at_2 (ex_service (MkDisk None None))) !! 1 = Some (MkSession (MkConn 20 1) false).
Proof.
  destruct (tie_break_agrees ex_id_show ex_id_show ex_parse 1 2 eq_refl io_ok (ex_service (MkDisk None None)) (ex_service (MkDisk None None))
    (MkConn 10 2) (MkConn 11 2) (MkConn 20 1) (MkConn 21 1) (conj eq_refl eq_refl) (conj eq_refl eq_refl) eq_refl eq_refl
    [(MkConn 11 2, false); (MkConn 10 2, true)] [(MkConn 20 1, false); (MkConn 21 1, true)]) as (H1 & H2 & _).
  - apply perm_swap.
  - reflexivity.
  - split; [exact H1|exact H2].
Defined.

Lemma redials_exact_witness :
  ∃ ps, 7 ∈ ps ∧ reconnect_tick ex_id_parse ex_id_show Some ex_parse 1 io_ok (λ _, io_ok) SEC (ex_service ex_paired) =
    ((), upd_dialing (list_to_set ps ∪.) (ex_service ex_paired), dials ex_id_show Some ex_map7 (ex_service ex_paired) ps).
Proof.
  destruct (redials_exact ex_id_parse ex_id_show Some ex_parse 1 ex_ids io_ok (λ _, io_ok) SEC (ex_service ex_paired) ex_map7
    ex_paired_load (λ _, eq_refl)) as [(ps & _ & Hps & E) _].
  exists ps. split; [|exact E]. apply Hps. split; [lia|].
  split; [unfold ex_map7; rewrite lookup_singleton_eq; eexists; reflexivity|].
  split; [apply lookup_empty|]. split; [apply not_elem_of_empty|].
  unfold ex_service, sv_live, sv_reconnect.
  split; [rewrite lookup_empty; discriminate|intros b; rewrite lookup_empty; discriminate].
Defined.
