(* ===== verification/MeshWorld.v ===== *)
(** * The mesh service among its tasks ([onebrain-mesh/src/service.rs])

    The service takes messages from one queue; dials, pairing attempts,
    window timers, sessions and joins are tasks that run beside it and send
    it messages, in any interleaving.  A session's runner exchanges hellos,
    judges the peer, marks it connected, beats, and marks it down at its
    end. *)

From Stdlib Require Import ZArith Lia Ascii String.
From stdpp Require Import base list strings option gmap relations.
From S2P Require Import Prelude StrUtil Float Proto Cluster PlanLoad PeerStore Pairing Heartbeat Mesh MeshOk.

Open Scope Z_scope.

(** ** Messages, runners and the world *)
Inductive Msg :=
  | CmdPairStart (draws : list (option Z))
  | CmdUnpair (name : string)
  | CmdShutdown
  | IncomingPair (c : Conn)
  | IncomingMesh (c : Conn)
  | PairHostDone (window_id : Z) (result : res PairError (EndpointId * string)) (observed : list SocketAddr * option string)
  | WindowTimeout (window_id : Z)
  | JoinedPeer (peer : EndpointId) (addr : EndpointAddr)
  | DialDone (peer : EndpointId) (conn : option Conn)
  | TryDial (peer : EndpointId)
  | SessionEnded (peer : EndpointId) (stable_id : Z)
  | MDiscovered (peer : EndpointId) (addr : EndpointAddr)
  | MDiscoveryExpired (peer : EndpointId)
  | ReconnectTick.

(** A runner before its hello, with its heartbeat running, after its end was
    recorded, after [SessionEnded] was sent, and finished as a task. *)
Inductive Phase := RHello | ROpen (b : Beat) | REnding | RSent | RDone.
Definition reported (p : Phase) : Prop := match p with RSent | RDone => True | _ => False end.
Record Runner := MkRunner { ru_peer : EndpointId; ru_phase : Phase }.

Record World := MkWorld {
  wo_sv : Service;
  wo_stopped : bool;
  wo_queue : list Msg;
  wo_dials : list EndpointId;
  wo_attempts : list Z;
  wo_timers : list Z;
  wo_joined : list (EndpointId * EndpointAddr);
  wo_runners : gmap Z Runner;
  wo_next_conn : Z;
  wo_log : list Effect }.

(** What an effect starts or ends among the tasks. *)
Definition apply_effect (w : World) (e : Effect) : World :=
  let 'MkWorld sv st q dials attempts timers joined runners next log := w in
  match e with
  | SpawnDial peer _ => MkWorld sv st q (dials ++ [peer]) attempts timers joined runners next log
  | SpawnAttempt id _ _ _ => MkWorld sv st q dials (attempts ++ [id]) timers joined runners next log
  | SpawnTimeout id _ => MkWorld sv st q dials attempts (timers ++ [id]) joined runners next log
  | SpawnSession c _ _ => MkWorld sv st q dials attempts timers joined (<[cn_stable_id c := MkRunner (cn_remote c) RHello]> runners) next log
  | AbortRunner c => MkWorld sv st q dials attempts timers joined (delete (cn_stable_id c) runners) next log
  | Close _ _ _ | Notify _ _ | AttemptFailed _ => w
  end.

(** A handler's new state, its effects carried out and logged. *)
Definition commit (r : Service * list Effect) (w : World) : World :=
  let 'MkWorld _ st q dials attempts timers joined runners next log := w in
  foldl apply_effect (MkWorld r.1 st q dials attempts timers joined runners next (log ++ r.2)) r.2.

Definition push (m : Msg) (w : World) : World :=
  MkWorld (wo_sv w) (wo_stopped w) (wo_queue w ++ [m]) (wo_dials w) (wo_attempts w) (wo_timers w) (wo_joined w)
    (wo_runners w) (wo_next_conn w) (wo_log w).
Definition upd_sv (f : Service → Service) (w : World) : World :=
  MkWorld (f (wo_sv w)) (wo_stopped w) (wo_queue w) (wo_dials w) (wo_attempts w) (wo_timers w) (wo_joined w)
    (wo_runners w) (wo_next_conn w) (wo_log w).
Definition set_queue (q : list Msg) (w : World) : World :=
  MkWorld (wo_sv w) (wo_stopped w) q (wo_dials w) (wo_attempts w) (wo_timers w) (wo_joined w)
    (wo_runners w) (wo_next_conn w) (wo_log w).
Definition set_runners (r : gmap Z Runner) (w : World) : World :=
  MkWorld (wo_sv w) (wo_stopped w) (wo_queue w) (wo_dials w) (wo_attempts w) (wo_timers w) (wo_joined w)
    r (wo_next_conn w) (wo_log w).
Definition set_stopped (w : World) : World :=
  MkWorld (wo_sv w) true (wo_queue w) (wo_dials w) (wo_attempts w) (wo_timers w) (wo_joined w)
    (wo_runners w) (wo_next_conn w) (wo_log w).
Definition set_tasks (dials : list EndpointId) (attempts timers : list Z) (joined : list (EndpointId * EndpointAddr)) (w : World) : World :=
  MkWorld (wo_sv w) (wo_stopped w) (wo_queue w) dials attempts timers joined (wo_runners w) (wo_next_conn w) (wo_log w).
(** A connection that is established gets the next stable id. *)
Definition fresh_conn (remote : EndpointId) (w : World) : Conn * World :=
  (MkConn (wo_next_conn w) remote,
   MkWorld (wo_sv w) (wo_stopped w) (wo_queue w) (wo_dials w) (wo_attempts w) (wo_timers w) (wo_joined w)
     (wo_runners w) (wo_next_conn w + 1) (wo_log w)).

(** The clocks and the file system of one handler. *)
Record Env := MkEnv { en_now : Z; en_unix : Z; en_io1 : Io; en_io2 : Io; en_io3 : Io; en_ios : string → Io }.

(** The remove of one occurrence. *)
Definition remove_nth {A} (n : nat) (l : list A) : option (A * list A) :=
  x ← l !! n; Some (x, take n l ++ drop (S n) l).

(** What happens next: the service handles the head of its queue, a task makes
    its move, or something arrives from outside. *)
Inductive Action :=
  | Handle (env : Env)
  | DialEnds (n : nat) (ok : bool)
  | AttemptEnds (n : nat) (result : res PairError (EndpointId * string)) (observed : list SocketAddr * option string)
  | TimerFires (n : nat)
  | Accept (io : Io) (alpn : Alpn) (remote : EndpointId)
  | Join (env : Env) (peer : EndpointId) (node_name : string) (addr : EndpointAddr)
  | JoinReports (n : nat)
  | HelloFails (id : Z)
  | HelloDone (id : Z) (env : Env) (theirs : Hello) (observed : list SocketAddr * option string)
  | Beats (id : Z) (ev : HbEvent)
  | ConnLost (id : Z)
  | RunnerReports (id : Z)
  | RunnerExits (id : Z)
  | StatusArrives (id : Z) (usable : Z) (prefill decode disk : option fl) (draining : bool)
  | ProbeReports (peer : EndpointId) (mbps : fl)
  | Api (m : Msg).

(** The messages the handle and the background loops send. *)
Definition from_outside (m : Msg) : bool :=
  match m with
  | CmdPairStart _ | CmdUnpair _ | CmdShutdown | TryDial _ | MDiscovered _ _ | MDiscoveryExpired _ | ReconnectTick => true
  | _ => false
  end.

Section Step.
  Context (id_parse : string → option EndpointId) (id_show id_short : EndpointId → string)
    (relay_parse : string → option string)
    (toml_parse : string → option Peers) (toml_print : Peers → option string)
    (store_text : StoreError → string)
    (own_id : EndpointId) (our_hello : Hello) (pair_window : Z).

(** Has the runner of the peer's current session ended? *)
Definition runner_finished (w : World) (peer : EndpointId) : bool :=
  match sv_sessions (wo_sv w) !! peer with
  | Some x => match wo_runners w !! cn_stable_id (se_conn x) with
              | Some r => match ru_phase r with RDone => true | _ => false end
              | None => true
              end
  | None => false
  end.

(** [run]'s dispatch of one message. *)
Definition handle (env : Env) (w : World) (m : Msg) : M () :=
  let ensure := ensure_session id_show relay_parse toml_parse own_id in
  let adopt io c := adopt_conn id_show id_short toml_parse own_id io (runner_finished w (cn_remote c)) c in
  match m with
  | CmdPairStart draws => _ ← pair_start (en_now env) pair_window draws; skip
  | CmdUnpair name => _ ← unpair id_parse toml_parse toml_print (en_io1 env) name; skip
  | CmdShutdown => shutdown
  | IncomingPair c => incoming_pair (en_now env) c
  | IncomingMesh c => adopt (en_io1 env) c false
  | PairHostDone id result observed =>
      pair_host_done id_show relay_parse toml_parse toml_print own_id store_text
        (en_io1 env) (en_io2 env) (en_io3 env) (en_unix env) id result observed
  | WindowTimeout id => window_timeout id
  | JoinedPeer peer addr => joined_peer id_show relay_parse toml_parse own_id (en_io1 env) peer addr
  | DialDone peer conn =>
      dial_done id_show id_short toml_parse own_id (en_io1 env) (en_now env)
        (match conn with Some c => runner_finished w (cn_remote c) | None => false end) peer conn
  | TryDial peer => ensure (en_io1 env) peer
  | SessionEnded peer id => session_ended peer id
  | MDiscovered peer addr => discovered id_show relay_parse toml_parse own_id (en_io1 env) (en_io2 env) peer addr
  | MDiscoveryExpired peer => discovery_expired peer
  | ReconnectTick => reconnect_tick id_parse id_show relay_parse toml_parse own_id (en_io1 env) (en_ios env) (en_now env)
  end.

Definition live_of (peer : EndpointId) (s : Service) : Live := default live_default (sv_live s !! peer).
Definition set_live (peer : EndpointId) (l : Live) (s : Service) : Service := upd_live (<[peer := l]>) s.
Definition set_phase (id : Z) (peer : EndpointId) (p : Phase) (w : World) : World :=
  set_runners (<[id := MkRunner peer p]> (wo_runners w)) w.

(** [control_stream] on a [NodeStatus]: the whole report replaces the last. *)
Definition live_status (usable : Z) (prefill decode disk : option fl) (draining : bool) (l : Live) : Live :=
  MkLive (lv_state l) (lv_rtt_ms l) (lv_bandwidth_mbps l) (lv_loss l) (lv_last_seen_unix l) (Some usable) prefill decode disk draining.

(** [run_session] after the hello: the hello is stored, the peer judged; if
    it is compatible its addressing is stored and it is connected. *)
Definition hello_done (env : Env) (peer : EndpointId) (theirs : Hello) (observed : list SocketAddr * option string) (s : Service) :
    Service * bool :=
  let s := upd_disk (λ d, (update_hello toml_parse toml_print (en_io1 env) (id_show peer)
                             (h_product_version theirs) (build_str (h_engine_build theirs)) d).1) s in
  match judge our_hello theirs with
  | Compatible =>
      let s := match observed with
               | ([], None) => s
               | _ => upd_disk (λ d, (update_addrs toml_parse toml_print (en_io2 env) (id_show peer) observed.1 observed.2 d).1) s
               end in
      let l := live_seen (Some (en_unix env)) (live_of peer s) in
      (set_live peer (note_transition Connected l).1 s, true)
  | _ => (set_live peer (note_transition Incompatible (live_of peer s)).1 s, false)
  end.

Definition step_fn (a : Action) (w : World) : option World :=
  match a with
  | Handle env =>
      if wo_stopped w then None
      else match wo_queue w with
           | [] => None
           | m :: q =>
               let w := set_queue q w in
               let '(_, s, es) := handle env w m (wo_sv w) in
               Some (match m with CmdShutdown => set_stopped | _ => id end (commit (s, es) w))
           end
  | DialEnds n ok =>
      '(peer, dials) ← remove_nth n (wo_dials w);
      let w := set_tasks dials (wo_attempts w) (wo_timers w) (wo_joined w) w in
      if (ok : bool) then let '(c, w) := fresh_conn peer w in Some (push (DialDone peer (Some c)) w)
      else Some (push (DialDone peer None) w)
  | AttemptEnds n result observed =>
      '(id, attempts) ← remove_nth n (wo_attempts w);
      Some (push (PairHostDone id result observed) (set_tasks (wo_dials w) attempts (wo_timers w) (wo_joined w) w))
  | TimerFires n =>
      '(id, timers) ← remove_nth n (wo_timers w);
      Some (push (WindowTimeout id) (set_tasks (wo_dials w) (wo_attempts w) timers (wo_joined w) w))
  | Accept io alpn remote =>
      let '(c, w) := fresh_conn remote w in
      match accept_dispatch id_show toml_parse io alpn remote (sv_disk (wo_sv w)) with
      | ToPair => Some (push (IncomingPair c) w)
      | ToMesh => Some (push (IncomingMesh c) w)
      | ToBlobs | CloseWith _ _ => Some w
      end
  | Join env peer node_name addr =>
      let '(d, r) := persist_join id_show toml_parse toml_print (en_io1 env) (en_io2 env) (en_unix env) peer node_name addr (sv_disk (wo_sv w)) in
      let w := upd_sv (upd_disk (λ _, d)) w in
      match r with
      | Ok _ => Some (set_tasks (wo_dials w) (wo_attempts w) (wo_timers w) (wo_joined w ++ [(peer, addr)]) w)
      | _ => Some w
      end
  | JoinReports n =>
      '(x, joined) ← remove_nth n (wo_joined w);
      Some (push (JoinedPeer x.1 x.2) (set_tasks (wo_dials w) (wo_attempts w) (wo_timers w) joined w))
  | HelloFails id =>
      r ← wo_runners w !! id;
      match ru_phase r with RHello => Some (set_phase id (ru_peer r) REnding w) | _ => None end
  | HelloDone id env theirs observed =>
      r ← wo_runners w !! id;
      match ru_phase r with
      | RHello =>
          let '(s, ok) := hello_done env (ru_peer r) theirs observed (wo_sv w) in
          Some (set_phase id (ru_peer r) (if (ok : bool) then ROpen (hb_start (en_now env)) else REnding) (upd_sv (λ _, s) w))
      | _ => None
      end
  | Beats id ev =>
      r ← wo_runners w !! id;
      match ru_phase r with
      | ROpen b =>
          let '(o, l, _) := hb_step ev b (live_of (ru_peer r) (wo_sv w)) in
          let w := upd_sv (set_live (ru_peer r) l) w in
          match o with
          | Some b => Some (set_phase id (ru_peer r) (ROpen b) w)
          | None => Some (set_phase id (ru_peer r) REnding (upd_sv (set_live (ru_peer r) (note_transition Down l).1) w))
          end
      | _ => None
      end
  | ConnLost id =>
      r ← wo_runners w !! id;
      match ru_phase r with
      | ROpen _ =>
          Some (set_phase id (ru_peer r) REnding
                  (upd_sv (set_live (ru_peer r) (note_transition Down (live_of (ru_peer r) (wo_sv w))).1) w))
      | _ => None
      end
  | RunnerReports id =>
      r ← wo_runners w !! id;
      match ru_phase r with
      | REnding => Some (push (SessionEnded (ru_peer r) id) (set_phase id (ru_peer r) RSent w))
      | _ => None
      end
  | RunnerExits id =>
      r ← wo_runners w !! id;
      match ru_phase r with RSent => Some (set_phase id (ru_peer r) RDone w) | _ => None end
  | StatusArrives id usable prefill decode disk draining =>
      r ← wo_runners w !! id;
      match ru_phase r with
      | ROpen _ => Some (upd_sv (set_live (ru_peer r) (live_status usable prefill decode disk draining (live_of (ru_peer r) (wo_sv w)))) w)
      | _ => None
      end
  | ProbeReports peer mbps => Some (upd_sv (set_live peer (live_bandwidth (Some mbps) (live_of peer (wo_sv w)))) w)
  | Api m => if from_outside m then Some (push m w) else None
  end.

Definition mesh_step (w w' : World) : Prop := ∃ a, step_fn a w = Some w'.

Definition mesh_init (d : Disk) : World :=
  MkWorld (MkService d ∅ None 0 ∅ ∅ ∅ ∅ ∅) false [] [] [] [] [] ∅ 0 [].

(** A run of given actions. *)
Fixpoint run_actions (l : list Action) (w : World) : option World :=
  match l with [] => Some w | a :: l => w ← step_fn a w; run_actions l w end.
End Step.
