(* ===== verification/MeshInv.v ===== *)
(** * Invariants of the mesh service

    The outcomes of the handlers, and two invariants of every step: no session
    and no dial mark outlives the task that will release it, and a pairing
    window spends at most three failed attempts and ends once. *)

From Stdlib Require Import ZArith Lia Ascii String.
From stdpp Require Import base list strings option gmap relations.
From S2P Require Import Prelude StrUtil Float Proto Cluster PlanLoad PeerStore Pairing Heartbeat Mesh MeshOk MeshWorld.

Open Scope Z_scope.

(** ** Outcomes of the handlers *)
Definition targets (es : list Effect) : list EndpointId :=
  omap (λ e, match e with SpawnDial p _ => Some p | _ => None end) es.

Lemma targets_app es1 es2 : targets (es1 ++ es2) = targets es1 ++ targets es2.
Proof. apply omap_app. Qed.

Definition is_dial (e : Effect) : Prop := match e with SpawnDial _ _ => True | _ => False end.

Create HintDb mesh.

Section Dials.
  Context (id_show : EndpointId → string) (toml_parse : string → option Peers).

(** A computation that at most starts dials, of stored peers. *)
Record Dials (s s' : Service) (es : list Effect) : Prop := {
  di_disk : sv_disk s' = sv_disk s;
  di_window : sv_window s' = sv_window s;
  di_seq : sv_window_seq s' = sv_window_seq s;
  di_sessions : sv_sessions s' = sv_sessions s;
  di_es : Forall is_dial es;
  di_dialing p : p ∈ sv_dialing s' ↔ p ∈ sv_dialing s ∨ p ∈ targets es;
  di_stored p : p ∈ targets es → ∃ io m, load toml_parse io (sv_disk s) = Ok m ∧ is_Some (m !! id_show p) }.

Definition DialsM {A} (m : M A) : Prop := ∀ s, Dials s (after m s) (effects m s).

Lemma Dials_refl s s' :
  sv_disk s' = sv_disk s → sv_window s' = sv_window s → sv_window_seq s' = sv_window_seq s →
  sv_sessions s' = sv_sessions s → sv_dialing s' = sv_dialing s → Dials s s' [].
Proof.
  intros ? ? ? ? E. split; [done|done|done|done|constructor| |by intros p ?%not_elem_of_nil].
  intros p. rewrite E. split; [by left|]. intros [?|?%not_elem_of_nil]; done.
Qed.

Lemma DialsM_bind {A B} (m : M A) (f : A → M B) : DialsM m → (∀ a, DialsM (f a)) → DialsM (m ≫= f).
Proof.
  intros Hm Hf s. rewrite after_bind, effects_bind. destruct (Hm s) as [d1 w1 q1 s1 e1 i1 t1].
  destruct (Hf (m s).1.1 (after m s)) as [d2 w2 q2 s2 e2 i2 t2].
  split; [by rewrite d2|by rewrite w2|by rewrite q2|by rewrite s2|by apply Forall_app| |].
  - intros p. rewrite i2, i1, targets_app, elem_of_app. tauto.
  - intros p. rewrite targets_app, elem_of_app. rewrite d1 in t2. intros [?|?]; auto.
Qed.

Lemma DialsM_skip : DialsM skip.
Proof. intros s. by apply Dials_refl. Qed.
Lemma DialsM_gets {A} (g : Service → A) : DialsM (gets g).
Proof. intros s. by apply Dials_refl. Qed.
Lemma DialsM_known f : DialsM (modify (upd_known f)).
Proof. intros s. by apply Dials_refl. Qed.
Lemma DialsM_discovered f : DialsM (modify (upd_discovered f)).
Proof. intros s. by apply Dials_refl. Qed.
Lemma DialsM_reconnect f : DialsM (modify (upd_reconnect f)).
Proof. intros s. by apply Dials_refl. Qed.

Lemma DialsM_for_each {A} (f : A → M ()) l : (∀ x, DialsM (f x)) → DialsM (for_each f l).
Proof.
  intros Hf. induction l as [|x l IH]; [apply DialsM_skip|]. by apply DialsM_bind.
Qed.
End Dials.

Section Ensure.
  Context (id_show : EndpointId → string) (relay_parse : string → option string)
    (toml_parse : string → option Peers) (own_id : EndpointId).
  Notation ensure := (ensure_session id_show relay_parse toml_parse own_id).
  Notation DialsM := (DialsM id_show toml_parse).
  Notation Dials := (Dials id_show toml_parse).
  Hint Resolve DialsM_bind DialsM_skip DialsM_gets DialsM_known DialsM_discovered DialsM_reconnect DialsM_for_each : mesh.

Lemma DialsM_ensure io p : DialsM (ensure io p).
Proof.
  intros s. unfold ensure_session, after, effects. rewrite bind_gets. change (id s) with s.
  destruct (_ || _); [by apply Dials_refl|]. unfold store_load. rewrite bind_gets.
  destruct (load toml_parse io (sv_disk s)) as [m| |] eqn:Hm; [|by apply Dials_refl..].
  destruct (m !! id_show p) as [r|] eqn:Hr; [|by apply Dials_refl].
  destruct (decide _); [by apply Dials_refl|]. rewrite bind_modify. cbn.
  split; [done|done|done|done|by repeat constructor| |].
  - intros q. cbn. rewrite elem_of_union, elem_of_singleton, list_elem_of_singleton. tauto.
  - intros q. cbn. intros ->%list_elem_of_singleton. exists io, m. by rewrite Hr.
Qed.

Hint Resolve DialsM_ensure : mesh.

Lemma DialsM_joined io p a : DialsM (joined_peer id_show relay_parse toml_parse own_id io p a).
Proof. unfold joined_peer. auto with mesh. Qed.

Lemma DialsM_discovered_msg io1 io2 p a : DialsM (discovered id_show relay_parse toml_parse own_id io1 io2 p a).
Proof.
  unfold discovered. destruct (decide _); auto with mesh.
  apply DialsM_bind; [auto with mesh|]. intros _. apply DialsM_bind; [auto with mesh|]. intros [[]| |]; auto with mesh.
Qed.

Lemma DialsM_reconnect_tick id_parse io ios now : DialsM (reconnect_tick id_parse id_show relay_parse toml_parse own_id io ios now).
Proof.
  unfold reconnect_tick. apply DialsM_bind; [apply DialsM_gets|]. intros [m| |]; auto with mesh.
  apply DialsM_for_each. intros k. unfold reconnect_one. destruct (id_parse k); auto with mesh.
  apply DialsM_bind; [auto with mesh|]. intros s. repeat (case_match; auto with mesh).
Qed.
End Ensure.

Section Adopt.
  Context (id_show id_short : EndpointId → string) (toml_parse : string → option Peers) (own_id : EndpointId).
  Notation adopt := (adopt_conn id_show id_short toml_parse own_id).

(** Adopting: the connection is closed, or it becomes the session and what it
    replaces is closed, its runner aborted unless it has ended. *)
Inductive Adopted (finished : bool) (c : Conn) (dialer : bool) (s s' : Service) : list Effect → Prop :=
  | ad_closed why : sv_sessions s' = sv_sessions s → Adopted finished c dialer s s' [Close c 0 why]
  | ad_first name : cn_remote c ≠ own_id → sv_sessions s !! cn_remote c = None →
      sv_sessions s' = <[cn_remote c := MkSession c dialer]> (sv_sessions s) →
      Adopted finished c dialer s s' [SpawnSession c dialer name]
  | ad_stale old why name : cn_remote c ≠ own_id → sv_sessions s !! cn_remote c = Some old → finished = true →
      sv_sessions s' = <[cn_remote c := MkSession c dialer]> (sv_sessions s) →
      Adopted finished c dialer s s' [Close (se_conn old) 0 why; SpawnSession c dialer name]
  | ad_replaced old why name : cn_remote c ≠ own_id → sv_sessions s !! cn_remote c = Some old → finished = false →
      sv_sessions s' = <[cn_remote c := MkSession c dialer]> (sv_sessions s) →
      Adopted finished c dialer s s' [AbortRunner (se_conn old); Close (se_conn old) 0 why; SpawnSession c dialer name].

Lemma adopt_outcome io finished c dialer s :
  let s' := after (adopt io finished c dialer) s in
  Adopted finished c dialer s s' (effects (adopt io finished c dialer) s) ∧
  sv_disk s' = sv_disk s ∧ sv_window s' = sv_window s ∧ sv_window_seq s' = sv_window_seq s ∧ sv_dialing s' = sv_dialing s.
Proof.
  unfold adopt_conn, after, effects. destruct (decide (cn_remote c = own_id)) as [|Hne]; [by split; [apply ad_closed|]|].
  rewrite bind_modify, bind_gets. cbn [sv_sessions upd_reconnect].
  destruct (sv_sessions s !! cn_remote c) as [old|] eqn:Hs.
  - destruct finished.
    + rewrite bind_modify, bind_effect. unfold store_load. rewrite bind_gets, bind_effect. cbn.
      split; [|done]. eapply ad_stale; [done|exact Hs|done|]. cbn. by rewrite insert_delete_eq.
    + destruct (_ && _); [|cbn; by split; [apply ad_closed|]].
      rewrite bind_modify, !bind_effect. unfold store_load. rewrite bind_gets, bind_effect. cbn.
      split; [|done]. eapply ad_replaced; [done|exact Hs|done|]. cbn. by rewrite insert_delete_eq.
  - unfold store_load. rewrite bind_gets, bind_effect. cbn. split; [|done]. by apply ad_first.
Qed.
End Adopt.

(** ** Carrying out effects *)
Definition runner_effect (runners : gmap Z Runner) (e : Effect) : gmap Z Runner :=
  match e with
  | SpawnSession c _ _ => <[cn_stable_id c := MkRunner (cn_remote c) RHello]> runners
  | AbortRunner c => delete (cn_stable_id c) runners
  | _ => runners
  end.

Record committed (r : Service * list Effect) (w w' : World) : Prop := {
  co_sv : wo_sv w' = r.1;
  co_queue : wo_queue w' = wo_queue w;
  co_dials : wo_dials w' = wo_dials w ++ targets r.2;
  co_runners : wo_runners w' = foldl runner_effect (wo_runners w) r.2;
  co_next : wo_next_conn w' = wo_next_conn w;
  co_log : wo_log w' = wo_log w ++ r.2;
  co_stopped : wo_stopped w' = wo_stopped w }.

Lemma foldl_apply_effect es w :
  let w' := foldl apply_effect w es in
  wo_sv w' = wo_sv w ∧ wo_queue w' = wo_queue w ∧ wo_dials w' = wo_dials w ++ targets es ∧
  wo_runners w' = foldl runner_effect (wo_runners w) es ∧ wo_next_conn w' = wo_next_conn w ∧ wo_log w' = wo_log w ∧
  wo_stopped w' = wo_stopped w.
Proof.
  revert w. induction es as [|e es IH]; intros w; cbn; [by rewrite app_nil_r|].
  destruct (IH (apply_effect w e)) as (-> & -> & -> & -> & -> & -> & ->). destruct w. destruct e; cbn; split_and!; try done.
  by rewrite <- app_assoc.
Qed.

Lemma commit_committed r w : committed r w (commit r w).
Proof.
  destruct w as [sv st q dials attempts timers joined runners next log]. unfold commit.
  destruct (foldl_apply_effect r.2 (MkWorld r.1 st q dials attempts timers joined runners next (log ++ r.2)))
    as (? & ? & ? & ? & ? & ? & ?). by split.
Qed.

(** Effects that neither start nor end a runner. *)
Definition no_runner_effect (e : Effect) : Prop := match e with SpawnSession _ _ _ | AbortRunner _ => False | _ => True end.
Lemma runners_same runners es : Forall no_runner_effect es → foldl runner_effect runners es = runners.
Proof. induction 1 as [|e es He _ IH]; [done|]. destruct e; done. Qed.
Lemma no_targets es : Forall (λ e, ~ is_dial e) es → targets es = [].
Proof. induction 1 as [|e es He _ IH]; [done|]. destruct e; cbn in *; tauto. Qed.

(** ** Slots *)

(** The connections of queued messages that will become sessions. *)
Definition msg_conn (m : Msg) : option Z :=
  match m with DialDone _ (Some c) | IncomingMesh c => Some (cn_stable_id c) | _ => None end.

Record slots (own_id : EndpointId) (w : World) : Prop := {
  sl_session p x : sv_sessions (wo_sv w) !! p = Some x →
    cn_remote (se_conn x) = p ∧ p ≠ own_id ∧
    ∃ ph, wo_runners w !! cn_stable_id (se_conn x) = Some (MkRunner p ph) ∧
      (reported ph → SessionEnded p (cn_stable_id (se_conn x)) ∈ wo_queue w);
  sl_dialing p : p ∈ sv_dialing (wo_sv w) → p ∈ wo_dials w ∨ ∃ c, DialDone p c ∈ wo_queue w;
  sl_dialed p c : DialDone p (Some c) ∈ wo_queue w → cn_remote c = p;
  sl_distinct : NoDup (omap msg_conn (wo_queue w));
  sl_unborn id : id ∈ omap msg_conn (wo_queue w) → wo_runners w !! id = None ∧ id < wo_next_conn w;
  sl_bound id : is_Some (wo_runners w !! id) → id < wo_next_conn w }.

(** A step that adopts nothing: no session is new, and the sessions left keep
    a runner, which has not ended or will be reported. *)
Lemma slots_mono own_id w w' :
  slots own_id w →
  (∀ p x ph, sv_sessions (wo_sv w') !! p = Some x → wo_runners w !! cn_stable_id (se_conn x) = Some (MkRunner p ph) →
     (reported ph → SessionEnded p (cn_stable_id (se_conn x)) ∈ wo_queue w) →
     sv_sessions (wo_sv w) !! p = Some x ∧
     ∃ ph', wo_runners w' !! cn_stable_id (se_conn x) = Some (MkRunner p ph') ∧
       (reported ph' → SessionEnded p (cn_stable_id (se_conn x)) ∈ wo_queue w')) →
  (∀ p x, sv_sessions (wo_sv w') !! p = Some x → sv_sessions (wo_sv w) !! p = Some x) →
  (∀ p, p ∈ sv_dialing (wo_sv w') → p ∈ wo_dials w' ∨ ∃ c, DialDone p c ∈ wo_queue w') →
  (∀ p c, DialDone p (Some c) ∈ wo_queue w' → DialDone p (Some c) ∈ wo_queue w ∨ cn_remote c = p) →
  NoDup (omap msg_conn (wo_queue w')) →
  (∀ id, id ∈ omap msg_conn (wo_queue w') → id ∈ omap msg_conn (wo_queue w) ∨ id = wo_next_conn w ∧ id < wo_next_conn w') →
  (∀ id, is_Some (wo_runners w' !! id) → is_Some (wo_runners w !! id)) →
  wo_next_conn w ≤ wo_next_conn w' → slots own_id w'.
Proof.
  intros S Hses Hsub Hd Hdialed Hnd Hconn Hr Hn. split.
  - intros p x Hx. destruct (sl_session _ _ S p x (Hsub _ _ Hx)) as (? & ? & ph & Hph & He).
    destruct (Hses p x ph Hx Hph He) as (_ & ph' & ? & ?). split_and!; [done|done|]. by exists ph'.
  - done.
  - intros p c Hc. destruct (Hdialed p c Hc) as [Hc'|]; [by apply (sl_dialed _ _ S)|done].
  - done.
  - intros id Hid. assert (∀ i, wo_runners w !! i = None → wo_runners w' !! i = None) as Hnone.
    { intros i Hi. apply eq_None_not_Some. intros Hs%Hr. rewrite Hi in Hs. by destruct Hs. }
    destruct (Hconn id Hid) as [Hid'|[-> Hlt]].
    + destruct (sl_unborn _ _ S id Hid'). split; [auto|lia].
    + split; [|lia]. apply Hnone. destruct (wo_runners w !! wo_next_conn w) as [r|] eqn:E; [|done].
      assert (wo_next_conn w < wo_next_conn w); [|lia]. apply (sl_bound _ _ S). by rewrite E.
  - intros id Hid%Hr. pose proof (sl_bound _ _ S id Hid). lia.
Qed.

(** A message that releases no slot. *)
Definition releases (m : Msg) : bool := match m with SessionEnded _ _ | DialDone _ _ => true | _ => false end.

Lemma omap_conn_cons m q : omap msg_conn (m :: q) = match msg_conn m with Some id => id :: omap msg_conn q | None => omap msg_conn q end.
Proof. done. Qed.

Lemma slots_pop_conns own_id m q w : slots own_id w → wo_queue w = m :: q →
  NoDup (omap msg_conn q) ∧ ∀ id, id ∈ omap msg_conn q → id ∈ omap msg_conn (wo_queue w).
Proof.
  intros S E. pose proof (sl_distinct _ _ S) as Hnd. rewrite E, omap_conn_cons in Hnd. rewrite E, omap_conn_cons.
  destruct (msg_conn m); [|by split]. apply NoDup_cons in Hnd as [_ ?]. split; [done|]. intros id ?. by right.
Qed.

(** Handling a message that adopts nothing. *)
Lemma slots_handled own_id m q w s es w' :
  slots own_id w → wo_queue w = m :: q → committed (s, es) (set_queue q w) w' →
  (∀ p x, sv_sessions s !! p = Some x → sv_sessions (wo_sv w) !! p = Some x ∧ m ≠ SessionEnded p (cn_stable_id (se_conn x)) ∧
     foldl runner_effect (wo_runners w) es !! cn_stable_id (se_conn x) = wo_runners w !! cn_stable_id (se_conn x)) →
  (∀ p, p ∈ sv_dialing s → (p ∈ sv_dialing (wo_sv w) ∧ ∀ c, m ≠ DialDone p c) ∨ p ∈ targets es) →
  (∀ id, is_Some (foldl runner_effect (wo_runners w) es !! id) → is_Some (wo_runners w !! id)) →
  slots own_id w'.
Proof.
  intros S Eq C Hses Hd Hr. destruct (slots_pop_conns _ _ _ _ S Eq) as [Hnd Hsub]. apply (slots_mono own_id w w' S).
  - intros p x ph Hx Hph He. rewrite (co_sv _ _ _ C) in Hx. destruct (Hses p x Hx) as (H1 & H2 & H3). split; [done|].
    exists ph. rewrite (co_runners _ _ _ C), (co_queue _ _ _ C). cbn. rewrite H3. split; [done|]. intros Hp.
    specialize (He Hp). rewrite Eq in He. apply elem_of_cons in He as [He|He]; [congruence|done].
  - intros p x Hx. rewrite (co_sv _ _ _ C) in Hx. by apply Hses.
  - intros p Hp. rewrite (co_sv _ _ _ C) in Hp. rewrite (co_dials _ _ _ C), (co_queue _ _ _ C). cbn. setoid_rewrite elem_of_app.
    destruct (Hd p Hp) as [[Hp' Hm]|]; [|by auto].
    destruct (sl_dialing _ _ S p Hp') as [|[c Hc]]; [by auto|]. right. exists c. rewrite Eq in Hc.
    apply elem_of_cons in Hc as [Hc|]; [by destruct (Hm c)|done].
  - intros p c. rewrite (co_queue _ _ _ C), Eq. cbn. intros ?. left. by right.
  - by rewrite (co_queue _ _ _ C).
  - intros id Hid. rewrite (co_queue _ _ _ C) in Hid. left. by apply Hsub.
  - intros id Hid. rewrite (co_runners _ _ _ C) in Hid. by apply Hr.
  - rewrite (co_next _ _ _ C). done.
Qed.

(** The common case: the same sessions, no runner started or ended. *)
Lemma slots_handled_quiet own_id m q w s es w' :
  slots own_id w → wo_queue w = m :: q → committed (s, es) (set_queue q w) w' → releases m = false →
  sv_sessions s = sv_sessions (wo_sv w) → Forall no_runner_effect es →
  (∀ p, p ∈ sv_dialing s → p ∈ sv_dialing (wo_sv w) ∨ p ∈ targets es) → slots own_id w'.
Proof.
  intros S Eq C Hm Es Hes Hd. apply (slots_handled own_id m q w s es w' S Eq C); rewrite ?runners_same by done.
  - intros p x Hx. rewrite Es in Hx. split_and!; [done| |done]. by intros ->.
  - intros p Hp. destruct (Hd p Hp); [left|by right]. split; [done|]. by intros c ->.
  - done.
Qed.

(** A session that starts: its runner is new, and the one it replaces, if it
    was aborted, ran for the same peer. *)
Lemma slots_started own_id m q w c dialer s' es w' (gone : list Z) :
  slots own_id w → wo_queue w = m :: q → msg_conn m = Some (cn_stable_id c) → cn_remote c ≠ own_id →
  sv_sessions s' = <[cn_remote c := MkSession c dialer]> (sv_sessions (wo_sv w)) →
  (∀ i, i ∈ gone → ∃ old, sv_sessions (wo_sv w) !! cn_remote c = Some old ∧ i = cn_stable_id (se_conn old)) →
  foldl runner_effect (wo_runners w) es =
    <[cn_stable_id c := MkRunner (cn_remote c) RHello]> (foldr delete (wo_runners w) gone) →
  targets es = [] → committed (s', es) (set_queue q w) w' →
  (∀ p, p ∈ sv_dialing s' → p ∈ sv_dialing (wo_sv w) ∧ ∀ c, m ≠ DialDone p c) → slots own_id w'.
Proof.
  intros S Eq Hmc Hne Es Hgone Hrun Ht C Hd. destruct (slots_pop_conns _ _ _ _ S Eq) as [Hnd Hsub].
  pose proof (sl_distinct _ _ S) as Hnd0. rewrite Eq, omap_conn_cons, Hmc in Hnd0. apply NoDup_cons in Hnd0 as [Hcq _].
  destruct (sl_unborn _ _ S (cn_stable_id c)) as [Hunborn Hcn]. { rewrite Eq, omap_conn_cons, Hmc. left. }
  assert (∀ i, foldr delete (wo_runners w) gone !! i = if decide (i ∈ gone) then None else wo_runners w !! i) as Hdel.
  { clear. intros i. induction gone as [|g gone IH]; cbn; [done|]. destruct (decide (i = g)) as [->|Hig].
    - rewrite lookup_delete_eq, decide_True by left. done.
    - rewrite lookup_delete_ne, IH by done. destruct (decide (i ∈ gone)); [rewrite decide_True by (by right)|rewrite decide_False]; [done|done|].
      by intros [?|?]%elem_of_cons. }
  assert (∀ p id, m ≠ SessionEnded p id) as Hm by (by destruct m).
  split; rewrite ?(co_sv _ _ _ C), ?(co_queue _ _ _ C), ?(co_runners _ _ _ C), ?(co_next _ _ _ C), ?(co_dials _ _ _ C);
    cbn [wo_queue wo_runners wo_dials wo_next_conn set_queue fst snd]; rewrite ?Hrun, ?Es, ?Ht, ?app_nil_r.
  - intros p x [[<- <-]|[Hp Hx]]%lookup_insert_Some.
    + split_and!; [done|done|]. exists RHello. cbn. by rewrite lookup_insert_eq.
    + destruct (sl_session _ _ S p x Hx) as (Hr & Hpo & ph & Hph & He). split_and!; [done|done|]. exists ph. split.
      * rewrite lookup_insert_ne by congruence. rewrite Hdel, decide_False; [done|].
        intros (old & Hold & Ho)%Hgone. destruct (sl_session _ _ S _ old Hold) as (_ & _ & ph' & Hph' & _). congruence.
      * intros E. specialize (He E). rewrite Eq in He. apply elem_of_cons in He as [He|]; [by destruct (Hm _ _ (eq_sym He))|done].
  - intros p Hp. destruct (Hd p Hp) as [Hp' Hmp]. destruct (sl_dialing _ _ S p Hp') as [|[c' Hc']]; [by left|].
    right. exists c'. rewrite Eq in Hc'. apply elem_of_cons in Hc' as [Hc'|]; [by destruct (Hmp c')|done].
  - intros p c' Hc'. apply (sl_dialed _ _ S). rewrite Eq. by right.
  - done.
  - intros id Hid. destruct (sl_unborn _ _ S id (Hsub _ Hid)). split; [|done].
    rewrite lookup_insert_ne by (intros <-; done). rewrite Hdel. by destruct (decide _).
  - intros id. destruct (decide (id = cn_stable_id c)) as [->|]; [done|]. rewrite lookup_insert_ne, Hdel by done.
    destruct (decide _); [by intros []|]. apply (sl_bound _ _ S).
Qed.

Lemma slots_adopted own_id m q w finished c dialer s s' es w' :
  slots own_id w → wo_queue w = m :: q → msg_conn m = Some (cn_stable_id c) →
  sv_sessions s = sv_sessions (wo_sv w) → Adopted own_id finished c dialer s s' es →
  committed (s', es) (set_queue q w) w' →
  (∀ p, p ∈ sv_dialing s' → p ∈ sv_dialing (wo_sv w) ∧ ∀ c, m ≠ DialDone p c) → slots own_id w'.
Proof.
  intros S Eq Hmc Es A C Hd. destruct A as [why E|name Hne Hs E|old why name Hne Hs _ E|old why name Hne Hs _ E].
  - apply (slots_handled own_id m q w s' _ w' S Eq C); cbn.
    + intros p x Hx. rewrite E, Es in Hx. split_and!; [done|by destruct m|done].
    + intros p Hp. left. by apply Hd.
    + done.
  - refine (slots_started own_id m q w c dialer s' _ w' [] S Eq Hmc Hne _ _ _ _ C Hd); [by rewrite E, Es|by intros i ?%not_elem_of_nil|done..].
  - refine (slots_started own_id m q w c dialer s' _ w' [] S Eq Hmc Hne _ _ _ _ C Hd); [by rewrite E, Es|by intros i ?%not_elem_of_nil|done..].
  - refine (slots_started own_id m q w c dialer s' _ w' [cn_stable_id (se_conn old)] S Eq Hmc Hne _ _ _ _ C Hd); [by rewrite E, Es| |done..].
    intros i ->%list_elem_of_singleton. exists old. by rewrite <- Es.
Qed.

(** ** Outcomes of the pairing handlers and of unpairing *)
Lemma bind_store_op {A B} (f : Disk → Disk * res StoreError A) (g : res StoreError A → M B) s :
  (store_op f ≫= g) s = g (f (sv_disk s)).2 (upd_disk (λ _, (f (sv_disk s)).1) s).
Proof.
  unfold store_op, mbind, M_bind, gets, modify, mret, M_ret. destruct (f (sv_disk s)) as [d r]. cbn.
  by destruct (g r _) as [[b s'] e].
Qed.

Inductive PairStarted (s s' : Service) : list Effect → Prop :=
  | ps_refused : s' = s → PairStarted s s' []
  | ps_opened code deadline : sv_window_seq s' = u64_add (sv_window_seq s) 1 →
      sv_window s' = Some (MkWindow (u64_add (sv_window_seq s) 1) code PAIR_ATTEMPTS deadline) →
      sv_disk s' = sv_disk s → sv_sessions s' = sv_sessions s → sv_dialing s' = sv_dialing s →
      PairStarted s s' [SpawnTimeout (u64_add (sv_window_seq s) 1) deadline].

Lemma pair_start_outcome now len draws s :
  PairStarted s (after (pair_start now len draws) s) (effects (pair_start now len draws) s).
Proof.
  unfold pair_start, after, effects. rewrite bind_gets. destruct (match sv_window s with Some _ => _ | None => _ end); [by apply ps_refused|].
  destruct (generate_code draws) as [[code|e|]|]; [|by apply ps_refused..].
  rewrite bind_gets. cbv zeta. rewrite !bind_modify, bind_effect. cbn. by eapply ps_opened.
Qed.

Lemma incoming_pair_outcome now c s :
  after (incoming_pair now c) s = s ∧
  Forall (λ e, match e with Close _ _ _ | SpawnAttempt _ _ _ _ | Notify _ PairAttempt => True | _ => False end) (effects (incoming_pair now c) s).
Proof.
  unfold incoming_pair, after, effects. rewrite bind_gets. destruct (sv_window s) as [w|]; [|cbn; auto].
  destruct (_ || _); [cbn; auto|]. rewrite bind_effect. cbn. by repeat constructor.
Qed.

Section PairDone.
  Context (id_show : EndpointId → string) (relay_parse : string → option string)
    (toml_parse : string → option Peers) (toml_print : Peers → option string)
    (own_id : EndpointId) (store_text : StoreError → string).

Inductive HostDone (io1 io2 : Io) (unix id : Z) (result : res PairError (EndpointId * string)) (s s' : Service) : list Effect → Prop :=
  | hd_ignored : sv_window s' = sv_window s → sv_window_seq s' = sv_window_seq s → sv_sessions s' = sv_sessions s →
      sv_dialing s' = sv_dialing s →
      (sv_disk s' = sv_disk s ∨ ∃ peer name, result = Ok (peer, name) ∧
         sv_disk s' = (add toml_parse toml_print io1 unix (id_show peer) name (sv_disk s)).1) →
      HostDone io1 io2 unix id result s s' []
  | hd_burned w : sv_window s = Some w → w_id w = id →
      sv_disk s' = sv_disk s → sv_window_seq s' = sv_window_seq s → sv_sessions s' = sv_sessions s → sv_dialing s' = sv_dialing s →
      u32_sub (w_attempts_left w) 1 ≠ 0 →
      sv_window s' = Some (MkWindow (w_id w) (w_code w) (u32_sub (w_attempts_left w) 1) (w_deadline w)) →
      HostDone io1 io2 unix id result s s' [AttemptFailed (w_id w)]
  | hd_exhausted w why : sv_window s = Some w → w_id w = id →
      sv_disk s' = sv_disk s → sv_window_seq s' = sv_window_seq s → sv_sessions s' = sv_sessions s → sv_dialing s' = sv_dialing s →
      u32_sub (w_attempts_left w) 1 = 0 → sv_window s' = None →
      HostDone io1 io2 unix id result s s' [AttemptFailed (w_id w); Notify (w_id w) (PairFailed why)]
  | hd_unstored w peer name why : sv_window s = Some w → w_id w = id → result = Ok (peer, name) →
      sv_disk s' = (add toml_parse toml_print io1 unix (id_show peer) name (sv_disk s)).1 →
      sv_window_seq s' = sv_window_seq s → sv_sessions s' = sv_sessions s → sv_dialing s' = sv_dialing s → sv_window s' = None →
      HostDone io1 io2 unix id result s s' [Notify (w_id w) (PairFailed why)]
  | hd_paired w peer name final direct relay s1 es : sv_window s = Some w → w_id w = id → result = Ok (peer, name) →
      sv_disk s1 = (update_addrs toml_parse toml_print io2 (id_show peer) direct relay
                      (add toml_parse toml_print io1 unix (id_show peer) name (sv_disk s)).1).1 →
      sv_window_seq s1 = sv_window_seq s → sv_sessions s1 = sv_sessions s → sv_dialing s1 = sv_dialing s → sv_window s1 = None →
      Dials id_show toml_parse s1 s' es →
      HostDone io1 io2 unix id result s s' (Notify (w_id w) (Paired (id_show peer) final) :: es).

Lemma pair_host_done_outcome io1 io2 io3 unix id result observed s :
  let m := pair_host_done id_show relay_parse toml_parse toml_print own_id store_text io1 io2 io3 unix id result observed in
  HostDone io1 io2 unix id result s (after m s) (effects m s).
Proof.
  unfold pair_host_done, after, effects. cbv zeta. rewrite bind_gets.
  destruct (sv_window s) as [w|] eqn:Hw; [|cbn; apply hd_ignored; auto].
  destruct (Z.eqb_spec (w_id w) id) as [Hid|]; cbn [negb]; [|cbn; apply hd_ignored; auto].
  assert (∀ g : M (), let m := (let left := u32_sub (w_attempts_left w) 1 in
      _ ← effect (AttemptFailed (w_id w));
      _ ← modify (set_window (Some (MkWindow (w_id w) (w_code w) left (w_deadline w))));
      if left =? 0 then
        _ ← effect (Notify (w_id w) (PairFailed "the pairing code was guessed wrong too often; run `onebrain pair` again to open a new window"));
        modify (set_window None)
      else skip) in g = m → HostDone io1 io2 unix id result s (g s).1.2 (g s).2) as Hfail.
  { intros g. cbv zeta. intros ->. rewrite bind_effect, bind_modify. destruct (Z.eqb_spec (u32_sub (w_attempts_left w) 1) 0).
    - rewrite bind_effect. cbn. by eapply hd_exhausted.
    - cbn. by eapply hd_burned. }
  destruct result as [[peer name]|e|]; [|by apply Hfail..]. clear Hfail.
  unfold store_add. rewrite bind_store_op. destruct (add _ _ _ _ _ _ _) as [d1 added] eqn:Hadd. cbn [fst snd].
  assert (d1 = (add toml_parse toml_print io1 unix (id_show peer) name (sv_disk s)).1) as Hd1 by (by rewrite Hadd).
  destruct added as [final|e|].
  - unfold store_addrs. rewrite bind_store_op, bind_effect, !bind_modify.
    match goal with |- context [ensure_session _ _ _ _ io3 peer ?s1] =>
      pose proof (DialsM_ensure id_show relay_parse toml_parse own_id io3 peer s1) as HD; unfold after, effects in HD;
      destruct (ensure_session id_show relay_parse toml_parse own_id io3 peer s1) as [[u s2] es] end.
    cbn [fst snd] in *. eapply hd_paired; [exact Hw|done|done| | | | | |exact HD]; [|done..]. cbn. by rewrite Hd1.
  - rewrite bind_effect. cbn. by eapply hd_unstored.
  - cbn. apply hd_ignored; [done..|]. right. by exists peer, name.
Qed.
End PairDone.

Lemma window_timeout_outcome id s :
  after (window_timeout id) s = s ∧ effects (window_timeout id) s = [] ∨
  ∃ w, sv_window s = Some w ∧ w_id w = id ∧ after (window_timeout id) s = set_window None s ∧
       effects (window_timeout id) s = [Notify id Expired].
Proof.
  unfold window_timeout, after, effects. rewrite bind_gets. destruct (sv_window s) as [w|]; [|by left].
  destruct (Z.eqb_spec (w_id w) id) as [<-|]; [|by left]. rewrite bind_effect. cbn. right. by exists w.
Qed.

Section Unpair.
  Context (id_parse : string → option EndpointId) (toml_parse : string → option Peers) (toml_print : Peers → option string).

(** Unpairing: the disk after the removal; nothing else on an error; else
    nothing of the peer is left. *)
Inductive Unpaired (io : Io) (name : string) (s s' : Service) : list Effect → Prop :=
  | un_disk : (∀ id_str, (remove_by_name toml_parse toml_print io name (sv_disk s)).2 = Ok id_str → id_parse id_str = None) →
      sv_disk s' = (remove_by_name toml_parse toml_print io name (sv_disk s)).1 →
      sv_window s' = sv_window s → sv_window_seq s' = sv_window_seq s → sv_sessions s' = sv_sessions s →
      sv_dialing s' = sv_dialing s → Unpaired io name s s' []
  | un_peer id_str peer es : (remove_by_name toml_parse toml_print io name (sv_disk s)).2 = Ok id_str → id_parse id_str = Some peer →
      sv_disk s' = (remove_by_name toml_parse toml_print io name (sv_disk s)).1 →
      sv_window s' = sv_window s → sv_window_seq s' = sv_window_seq s → sv_sessions s' = delete peer (sv_sessions s) →
      sv_dialing s' = sv_dialing s ∖ {[peer]} →
      es = (match sv_sessions s !! peer with Some x => [AbortRunner (se_conn x); Close (se_conn x) 1 "unpaired"] | None => [] end) →
      Unpaired io name s s' es.

Lemma unpair_outcome io name s :
  let m := unpair id_parse toml_parse toml_print io name in Unpaired io name s (after m s) (effects m s).
Proof.
  unfold unpair, after, effects, store_remove. cbv zeta. rewrite bind_store_op.
  destruct (remove_by_name _ _ _ _ _) as [d r] eqn:Hr. cbn [fst snd].
  assert (d = (remove_by_name toml_parse toml_print io name (sv_disk s)).1) as Hd by (by rewrite Hr).
  destruct r as [id_str|e|]; [|apply un_disk; [by rewrite Hr|done..]..].
  destruct (id_parse id_str) as [peer|] eqn:Hp; [|apply un_disk; [rewrite Hr; by intros ? [= <-]|done..]].
  rewrite bind_gets. cbn [sv_sessions upd_disk]. destruct (sv_sessions s !! peer) as [x|] eqn:Hx.
  - unfold mbind, M_bind. cbn. eapply un_peer; [by rewrite Hr|done|done|done|done|done|done|]. by rewrite Hx.
  - unfold mbind, M_bind. cbn. eapply un_peer; [by rewrite Hr|done|done|done|done| |done|by rewrite Hx].
    cbn. by rewrite delete_id.
Qed.
End Unpair.

Lemma session_ended_outcome peer id s :
  after (session_ended peer id) s = upd_sessions (λ m, match m !! peer with
    | Some x => if cn_stable_id (se_conn x) =? id then delete peer m else m | None => m end) s ∧
  effects (session_ended peer id) s = [].
Proof.
  unfold session_ended, after, effects. rewrite bind_gets. destruct (sv_sessions s !! peer) as [x|] eqn:Hx.
  - destruct (_ =? id) eqn:E; cbn; rewrite ?Hx, ?E; unfold upd_sessions; cbn; rewrite ?Hx, ?E; by destruct s.
  - unfold upd_sessions. rewrite Hx. by destruct s.
Qed.

Lemma for_each_pure {A} (f : A → M ()) (g : A → list Effect) l s :
  (∀ x s, f x s = ((), s, g x)) → for_each f l s = ((), s, l ≫= g).
Proof. intros Hf. induction l as [|x l IH]; [done|]. cbn [for_each]. unfold mbind at 1, M_bind. by rewrite Hf, IH. Qed.

Lemma shutdown_outcome s :
  shutdown s = ((), upd_sessions (λ _, ∅) s,
    (map_to_list (sv_sessions s)).*2 ≫= λ x, [AbortRunner (se_conn x); Close (se_conn x) 0 "shutdown"]).
Proof.
  unfold shutdown. rewrite bind_gets. unfold mbind at 1, M_bind.
  rewrite (for_each_pure _ (λ x, [AbortRunner (se_conn x); Close (se_conn x) 0 "shutdown"])) by done. cbn.
  by rewrite app_nil_r.
Qed.

(** Aborting runners only takes some away. *)
Lemma runners_aborted runners es id :
  Forall (λ e, match e with SpawnSession _ _ _ => False | _ => True end) es →
  is_Some (foldl runner_effect runners es !! id) → is_Some (runners !! id).
Proof.
  intros Hes. revert runners. induction Hes as [|e es He _ IH]; intros runners; cbn; [done|]. intros H%IH.
  destruct e; cbn in *; try done. destruct (decide (id = cn_stable_id c)) as [->|]; [by rewrite lookup_delete_eq in H; destruct H|].
  by rewrite lookup_delete_ne in H.
Qed.

(** ** Steps of the tasks *)
Lemma remove_nth_Some {A} n (l : list A) x rest : remove_nth n l = Some (x, rest) → l ≡ₚ x :: rest.
Proof.
  unfold remove_nth. destruct (l !! n) as [y|] eqn:Hy; [|done]. intros [= -> <-].
  rewrite <- (take_drop_middle l n x Hy) at 1. by rewrite Permutation_middle.
Qed.

(** Sending a message that carries no connection. *)
Lemma slots_push own_id m w : msg_conn m = None → slots own_id w → slots own_id (push m w).
Proof.
  intros Hm S. assert (omap msg_conn (wo_queue w ++ [m]) = omap msg_conn (wo_queue w)) as Eq.
  { rewrite omap_app. cbn. rewrite Hm. apply app_nil_r. }
  apply (slots_mono own_id w _ S); cbn; rewrite ?Eq; try done.
  - intros p x ph Hx Hph He. split; [done|]. exists ph. split; [done|]. intros E. apply elem_of_app. auto.
  - intros p Hp. setoid_rewrite elem_of_app. destruct (sl_dialing _ _ S p Hp) as [|[c Hc]]; eauto.
  - intros p c [?|E%list_elem_of_singleton]%elem_of_app; [by left|]. by subst m.
  - apply (sl_distinct _ _ S).
  - by left.
Qed.

(** Sending one with a new connection. *)
Lemma slots_push_conn own_id m c w :
  msg_conn m = Some (cn_stable_id c) → cn_stable_id c = wo_next_conn w → (∀ p c', m = DialDone p (Some c') → cn_remote c' = p) →
  slots own_id w → slots own_id (push m (fresh_conn (cn_remote c) w).2).
Proof.
  intros Hm Hc Hd S. assert (omap msg_conn (wo_queue w ++ [m]) = omap msg_conn (wo_queue w) ++ [wo_next_conn w]) as Eq.
  { rewrite omap_app. cbn. by rewrite Hm, Hc. }
  apply (slots_mono own_id w _ S); cbn; rewrite ?Eq; try done.
  - intros p x ph Hx Hph He. split; [done|]. exists ph. split; [done|]. intros E. apply elem_of_app. auto.
  - intros p Hp. setoid_rewrite elem_of_app. destruct (sl_dialing _ _ S p Hp) as [|[c' Hc']]; eauto.
  - intros p c' [?|E%list_elem_of_singleton]%elem_of_app; [by left|]. right. by apply Hd.
  - apply NoDup_app. split_and!; [apply (sl_distinct _ _ S)| |apply NoDup_singleton].
    intros id Hid ->%list_elem_of_singleton. destruct (sl_unborn _ _ S _ Hid). lia.
  - intros id [?| ->%list_elem_of_singleton]%elem_of_app; [by left|right; lia].
  - lia.
Qed.

(** A change of the service that touches neither sessions nor marks, and of a
    runner's phase short of its report. *)
Lemma slots_phase own_id id peer ph ph' s w :
  slots own_id w → wo_runners w !! id = Some (MkRunner peer ph) → (reported ph' → reported ph) →
  sv_sessions s = sv_sessions (wo_sv w) → sv_dialing s = sv_dialing (wo_sv w) →
  slots own_id (set_phase id peer ph' (upd_sv (λ _, s) w)).
Proof.
  intros S Hid Hph Es Ed. apply (slots_mono own_id w _ S); cbn; rewrite ?Es, ?Ed; try done.
  - intros p x ph0 Hx Hx' He. split; [done|]. destruct (decide (cn_stable_id (se_conn x) = id)) as [<-|].
    + rewrite Hid in Hx'. injection Hx' as -> ->. exists ph'. rewrite lookup_insert_eq. split; [done|auto].
    + exists ph0. by rewrite lookup_insert_ne.
  - apply (sl_dialing _ _ S).
  - by left.
  - apply (sl_distinct _ _ S).
  - by left.
  - intros i. destruct (decide (i = id)) as [->|]; [by rewrite Hid|by rewrite lookup_insert_ne].
Qed.

(** The report of a runner at its end. *)
Lemma slots_report own_id id peer ph w :
  slots own_id w → wo_runners w !! id = Some (MkRunner peer ph) →
  slots own_id (push (SessionEnded peer id) (set_phase id peer RSent w)).
Proof.
  intros S Hid. assert (omap msg_conn (wo_queue w ++ [SessionEnded peer id]) = omap msg_conn (wo_queue w)) as Eq.
  { rewrite omap_app. cbn. apply app_nil_r. }
  apply (slots_mono own_id w _ S); cbn; rewrite ?Eq; try done.
  - intros p x ph0 Hx Hx' He. split; [done|]. setoid_rewrite elem_of_app. destruct (decide (cn_stable_id (se_conn x) = id)) as [<-|].
    + rewrite Hid in Hx'. injection Hx' as -> ->. exists RSent. rewrite lookup_insert_eq. split; [done|].
      intros _. right. by apply list_elem_of_singleton.
    + exists ph0. rewrite lookup_insert_ne by done. auto.
  - intros p Hp. setoid_rewrite elem_of_app. destruct (sl_dialing _ _ S p Hp) as [|[c Hc]]; eauto.
  - intros p c [?|E%list_elem_of_singleton]%elem_of_app; [by left|done].
  - apply (sl_distinct _ _ S).
  - by left.
  - intros i. destruct (decide (i = id)) as [->|]; [by rewrite Hid|by rewrite lookup_insert_ne].
Qed.

(** What a hello changes: the store, and the live entry. *)
Lemma hello_done_fields id_show toml_parse toml_print our_hello env peer theirs observed s :
  let s' := (hello_done id_show toml_parse toml_print our_hello env peer theirs observed s).1 in
  sv_window s' = sv_window s ∧ sv_window_seq s' = sv_window_seq s ∧ sv_sessions s' = sv_sessions s ∧ sv_dialing s' = sv_dialing s ∧
  ∃ ops, sv_disk s' = run_ops toml_parse toml_print ops (sv_disk s) ∧ ∀ id, Forall (λ x, ~ creates x.2 id) ops.
Proof.
  unfold hello_done. set (hello := (en_io1 env, OpHello (id_show peer) (h_product_version theirs) (build_str (h_engine_build theirs)))).
  set (addrs := (en_io2 env, OpAddrs (id_show peer) observed.1 observed.2)).
  assert (∀ id, Forall (λ x : Io * StoreOp, ~ creates x.2 id) [hello; addrs]) as H2
    by (intros id; apply list.Forall_cons; split; [by intros []|]; apply list.Forall_cons; split; [by intros []|constructor]).
  assert (∀ id, Forall (λ x : Io * StoreOp, ~ creates x.2 id) [hello]) as H1
    by (intros id; apply list.Forall_cons; split; [by intros []|constructor]).
  destruct (judge our_hello theirs).
  - destruct (match observed with ([], None) => true | _ => false end) eqn:Eo.
    + destruct observed as [[|] [|]]; try done. split_and!; [done..|]. exists [hello]. split; [done|exact H1].
    + assert (∀ (x y : Service), (match observed with ([], None) => x | _ => y end) = y) as -> by (intros; destruct observed as [[|] [|]]; done).
      split_and!; [done..|]. exists [hello; addrs]. split; [done|exact H2].
  - split_and!; [done..|]. exists [hello]. split; [done|exact H1].
  - split_and!; [done..|]. exists [hello]. split; [done|exact H1].
Qed.

(** The cases of a task's move. *)
Ltac task_cases Hstep :=
  repeat match type of Hstep with
  | mbind _ ?x = _ => destruct x as [[? ?]|]; [cbn in Hstep|done]
  | match ?x with _ => _ end = _ => destruct x eqn:?
  end.

(** ** Every step keeps the slots *)
Section SlotsStep.
  Context (id_parse : string → option EndpointId) (id_show id_short : EndpointId → string)
    (relay_parse : string → option string)
    (toml_parse : string → option Peers) (toml_print : Peers → option string)
    (store_text : StoreError → string)
    (own_id : EndpointId) (our_hello : Hello) (pair_window : Z).
  Notation handle := (handle id_parse id_show id_short relay_parse toml_parse toml_print store_text own_id pair_window).
  Notation step_fn := (step_fn id_parse id_show id_short relay_parse toml_parse toml_print store_text own_id our_hello pair_window).

Lemma Dials_runners s s' es : Dials id_show toml_parse s s' es → Forall no_runner_effect es.
Proof. intros D. eapply Forall_impl; [apply (di_es _ _ _ _ _ D)|]. by intros []. Qed.

Lemma slots_unpair io name q w w' :
  slots own_id w → wo_queue w = CmdUnpair name :: q →
  committed (after (_ ← unpair id_parse toml_parse toml_print io name; skip) (wo_sv w), effects (_ ← unpair id_parse toml_parse toml_print io name; skip) (wo_sv w)) (set_queue q w) w' → slots own_id w'.
Proof.
  intros S Eq C.
  rewrite after_bind, effects_bind in C. cbn [skip mret M_ret after effects fst snd] in C. rewrite app_nil_r in C.
  pose proof (unpair_outcome id_parse toml_parse toml_print io name (wo_sv w)) as U. cbv zeta in U.
  destruct U as [_ _ _ _ Es Ed|id_str peer es _ _ _ _ _ Es Ed Hes].
  - eapply (slots_handled_quiet own_id _ q w _ _ w' S Eq C); [done|done|constructor|rewrite Ed; auto].
  - eapply (slots_handled own_id _ q w _ _ w' S Eq C).
    + intros p x Hx. rewrite Es in Hx. apply lookup_delete_Some in Hx as [Hne Hx]. split_and!; [done|done|].
      destruct (sv_sessions (wo_sv w) !! peer) as [y|] eqn:Hy; subst es; [|done]. cbn.
      destruct (sl_session _ _ S p x Hx) as (_ & _ & ph & Hph & _). destruct (sl_session _ _ S peer y Hy) as (_ & _ & ph' & Hph' & _).
      apply lookup_delete_ne. intros E. rewrite E in Hph'. congruence.
    + intros p Hp. rewrite Ed in Hp. apply elem_of_difference in Hp as [Hp _]. by left.
    + intros id. apply runners_aborted. rewrite Hes. destruct (sv_sessions (wo_sv w) !! peer); by repeat constructor.
Qed.

Lemma slots_shutdown  q w w' :
  slots own_id w → wo_queue w = CmdShutdown :: q →
  committed (after (shutdown) (wo_sv w), effects (shutdown) (wo_sv w)) (set_queue q w) w' → slots own_id w'.
Proof.
  intros S Eq C.
  unfold after, effects in C. rewrite shutdown_outcome in C. cbn [fst snd] in C.
  eapply (slots_handled own_id _ q w _ _ w' S Eq C).
  - intros p x Hx. cbn in Hx. by rewrite lookup_empty in Hx.
  - intros p Hp. by left.
  - intros id. apply runners_aborted. rewrite list.Forall_forall. intros e (x & He & _)%list_elem_of_bind.
    apply elem_of_cons in He as [-> | ->%list_elem_of_singleton]; done.
Qed.

Lemma slots_host_done io1 io2 io3 unix id result observed q w w' :
  slots own_id w → wo_queue w = PairHostDone id result observed :: q →
  committed (after (pair_host_done id_show relay_parse toml_parse toml_print own_id store_text io1 io2 io3 unix id result observed) (wo_sv w), effects (pair_host_done id_show relay_parse toml_parse toml_print own_id store_text io1 io2 io3 unix id result observed) (wo_sv w)) (set_queue q w) w' → slots own_id w'.
Proof.
  intros S Eq C.
  pose proof (pair_host_done_outcome id_show relay_parse toml_parse toml_print own_id store_text
    io1 io2 io3 unix id result observed (wo_sv w)) as H. cbv zeta in H.
  destruct H as [_ _ Es Ed _|? _ _ _ _ Es Ed _ _|? ? _ _ _ _ Es Ed _ _|? ? ? ? _ _ _ _ _ Es Ed _|? ? ? ? ? ? s1 es _ _ _ _ _ Es Ed _ HD];
    [eapply (slots_handled_quiet own_id _ q w _ _ w' S Eq C); [done|done|by repeat constructor|rewrite Ed; auto]..|].
  destruct HD as [_ _ _ Es' He' Hd' _].
  eapply (slots_handled_quiet own_id _ q w _ _ w' S Eq C); [done|by rewrite Es'| |].
  - constructor; [done|]. eapply Forall_impl; [exact He'|]. by intros [].
  - intros p Hp. rewrite Hd', Ed in Hp. cbn. tauto.
Qed.

Lemma slots_dial_done io now fin peer conn q w w' :
  slots own_id w → wo_queue w = DialDone peer conn :: q →
  committed (after (dial_done id_show id_short toml_parse own_id io now fin peer conn) (wo_sv w), effects (dial_done id_show id_short toml_parse own_id io now fin peer conn) (wo_sv w)) (set_queue q w) w' → slots own_id w'.
Proof.
  intros S Eq C.
  unfold dial_done in C. rewrite after_bind, effects_bind in C. cbn [after effects modify fst snd app] in C. destruct conn as [c|].
  - match type of C with context [adopt_conn _ _ _ _ ?io ?fin c true] =>
      pose proof (adopt_outcome id_show id_short toml_parse own_id io fin c true (upd_dialing (.∖ {[peer]}) (wo_sv w))) as [A (_ & _ & _ & Ed)] end.
    eapply (slots_adopted own_id _ q w _ c true (upd_dialing (.∖ {[peer]}) (wo_sv w)) _ _ w' S Eq); [done|done|exact A|exact C|].
    rewrite Ed. cbn. intros p [Hp Hne%not_elem_of_singleton]%elem_of_difference. split; [done|]. intros c' [= -> _]. done.
  - eapply (slots_handled own_id _ q w _ _ w' S Eq C).
    + intros p x Hx. by split_and!.
    + intros p Hp. cbn in Hp. apply elem_of_difference in Hp as [Hp Hne%not_elem_of_singleton].
      left. split; [done|]. intros c' [= -> _]. done.
    + done.
Qed.

Lemma slots_session_ended peer id q w w' :
  slots own_id w → wo_queue w = SessionEnded peer id :: q →
  committed (after (session_ended peer id) (wo_sv w), effects (session_ended peer id) (wo_sv w)) (set_queue q w) w' → slots own_id w'.
Proof.
  intros S Eq C.
  destruct (session_ended_outcome peer id (wo_sv w)) as [E1 E2]. rewrite E1, E2 in C.
  eapply (slots_handled own_id _ q w _ _ w' S Eq C); [|by intros p Hp; left|done].
  intros p x Hx. cbn in Hx. split_and!; [| |done].
  - destruct (sv_sessions (wo_sv w) !! peer) as [y|]; [|done]. destruct (_ =? id); [|done].
    by apply lookup_delete_Some in Hx as [_ Hx].
  - intros [= -> ->]. destruct (sv_sessions (wo_sv w) !! p) as [y|] eqn:Hy; [|congruence].
    destruct (Z.eqb_spec (cn_stable_id (se_conn y)) (cn_stable_id (se_conn x))); [|congruence].
    by rewrite lookup_delete_eq in Hx.
Qed.

Lemma slots_handle env m q w w' :
  slots own_id w → wo_queue w = m :: q →
  committed (after (handle env (set_queue q w) m) (wo_sv w), effects (handle env (set_queue q w) m) (wo_sv w)) (set_queue q w) w' →
  slots own_id w'.
Proof.
  intros S Eq C.
  assert (∀ (g : M ()), DialsM id_show toml_parse g → handle env (set_queue q w) m = g → releases m = false → slots own_id w') as Hdials.
  { intros g HD Hg Hrel. rewrite Hg in C. destruct (HD (wo_sv w)) as [? ? ? Hs He Hd _].
    eapply (slots_handled_quiet own_id m q w _ _ w' S Eq C Hrel Hs); [by eapply Dials_runners|]. intros p. by apply Hd. }
  destruct m as [draws|name| |c|c|id result observed|id|peer addr|peer conn|peer|peer id|peer addr|peer|]; cbn [handle] in *.
  - (* pair_start *)
    rewrite after_bind, effects_bind in C. cbn [skip mret M_ret after effects fst snd] in C. rewrite app_nil_r in C.
    pose proof (pair_start_outcome (en_now env) pair_window draws (wo_sv w)) as P.
    destruct P as [E|code deadline _ _ _ Es Ed].
    + rewrite E in C. eapply (slots_handled_quiet own_id _ q w _ _ w' S Eq C); [done|done|constructor|auto].
    + eapply (slots_handled_quiet own_id _ q w _ _ w' S Eq C); [done|done|by repeat constructor|rewrite Ed; auto].
  - by eapply slots_unpair.
  - by eapply slots_shutdown.
  - (* incoming pair *)
    destruct (incoming_pair_outcome (en_now env) c (wo_sv w)) as [E Hes]. rewrite E in C.
    eapply (slots_handled_quiet own_id _ q w _ _ w' S Eq C); [done|done| |auto].
    eapply Forall_impl; [exact Hes|]. by intros [].
  - (* incoming mesh *)
    pose proof (adopt_outcome id_show id_short toml_parse own_id (en_io1 env) (runner_finished (set_queue q w) (cn_remote c)) c false (wo_sv w))
      as [A (_ & _ & _ & Ed)].
    eapply (slots_adopted own_id _ q w _ c false (wo_sv w) _ _ w' S Eq); [done|done|exact A|exact C|].
    rewrite Ed. done.
  - by eapply slots_host_done.
  - (* window timeout *)
    destruct (window_timeout_outcome id (wo_sv w)) as [[E1 E2]|(x & _ & _ & E1 & E2)]; rewrite E1, E2 in C;
      (eapply (slots_handled_quiet own_id _ q w _ _ w' S Eq C); [done|done|by repeat constructor|auto]).
  - eapply Hdials; [|done|done]. apply DialsM_joined.
  - by eapply slots_dial_done.
  - eapply Hdials; [|done|done]. apply DialsM_ensure.
  - by eapply slots_session_ended.
  - eapply Hdials; [|done|done]. apply DialsM_discovered_msg.
  - eapply Hdials; [|done|done]. apply DialsM_discovered.
  - eapply Hdials; [|done|done]. apply DialsM_reconnect_tick.
Qed.

Lemma slots_sv own_id' s w : slots own_id' w → sv_sessions s = sv_sessions (wo_sv w) → sv_dialing s = sv_dialing (wo_sv w) →
  slots own_id' (upd_sv (λ _, s) w).
Proof.
  intros S Es Ed. destruct S as [S1 S2 S3 S4 S5 S6]. split; cbn; rewrite ?Es, ?Ed; done.
Qed.

Lemma slots_tasks own_id' attempts timers joined w : slots own_id' w → slots own_id' (set_tasks (wo_dials w) attempts timers joined w).
Proof. intros [S1 S2 S3 S4 S5 S6]. by split. Qed.

(** A dial ends: its mark, if any, is left to its message. *)
Lemma slots_dial_ends p rest c w :
  slots own_id w → wo_dials w ≡ₚ p :: rest → (∀ x, c = Some x → x = MkConn (wo_next_conn w) p) →
  slots own_id (push (DialDone p c) (set_tasks rest (wo_attempts w) (wo_timers w) (wo_joined w)
    (match c with Some _ => (fresh_conn p w).2 | None => w end))).
Proof.
  intros S Hp Hc.
  assert (slots own_id (push (DialDone p c) (match c with Some _ => (fresh_conn p w).2 | None => w end))) as S'.
  { destruct c as [x|]; [|by apply slots_push]. rewrite (Hc x eq_refl).
    apply (slots_push_conn own_id (DialDone p (Some (MkConn (wo_next_conn w) p))) (MkConn (wo_next_conn w) p) w); [done|done| |done].
    by intros ? ? [= <- <-]. }
  destruct S' as [S1 S2 S3 S4 S5 S6]. split; [by destruct c| |by destruct c..].
  intros q Hq. destruct (S2 q) as [Hin|?]; [by destruct c| |right; by destruct c].
  assert (q ∈ wo_dials w) as Hin' by (by destruct c). rewrite Hp in Hin'. apply elem_of_cons in Hin' as [->|]; [|left; by destruct c].
  right. exists c. destruct c; cbn; apply elem_of_app; right; by apply list_elem_of_singleton.
Qed.

Lemma slots_step a w w' : step_fn a w = Some w' → slots own_id w → slots own_id w'.
Proof.
  intros Hstep S. destruct a as [env|n ok|n result observed|n|io alpn remote|env peer name addr|n|id|id env theirs observed|id ev|id|id|id|id usable pre dec disk drain|peer mbps|m];
    cbn [step_fn] in Hstep.
  - destruct (wo_stopped w); [done|]. destruct (wo_queue w) as [|m q] eqn:Eq; [done|].
    destruct (handle env (set_queue q w) m (wo_sv (set_queue q w))) as [[u s] es] eqn:Eh. injection Hstep as <-.
    pose proof (commit_committed (s, es) (set_queue q w)) as C.
    assert (slots own_id (commit (s, es) (set_queue q w))) as S'.
    { eapply (slots_handle env m q w); [done|done|]. unfold after, effects. cbn in Eh. by rewrite Eh. }
    destruct m; try exact S'. by destruct S'.
  - destruct (remove_nth n (wo_dials w)) as [[peer dials]|] eqn:E; [|done]. apply remove_nth_Some in E. cbn in Hstep.
    destruct ok; injection Hstep as <-.
    + exact (slots_dial_ends peer dials (Some (MkConn (wo_next_conn w) peer)) w S E ltac:(by intros ? [= <-])).
    + exact (slots_dial_ends peer dials None w S E ltac:(done)).
  - destruct (remove_nth n (wo_attempts w)) as [[id rest]|] eqn:E; [|done]. injection Hstep as <-. by apply slots_push, slots_tasks.
  - destruct (remove_nth n (wo_timers w)) as [[id rest]|] eqn:E; [|done]. injection Hstep as <-. by apply slots_push, slots_tasks.
  - assert (slots own_id (fresh_conn remote w).2) as Sf.
    { destruct S as [S1 S2 S3 S4 S5 S6]. split; cbn; [done..| |].
      - intros id Hid. destruct (S5 id Hid). split; [done|lia].
      - intros id Hid. pose proof (S6 id Hid). lia. }
    cbn in Hstep. destruct (accept_dispatch _ _ _ _ _ _); injection Hstep as <-; [by apply slots_push| |done..].
    exact (slots_push_conn own_id (IncomingMesh (MkConn (wo_next_conn w) remote)) (MkConn (wo_next_conn w) remote) w eq_refl eq_refl ltac:(done) S).
  - destruct (persist_join _ _ _ _ _ _ _ _ _ _) as [d [x|e|]]; injection Hstep as <-;
      [refine (slots_tasks own_id _ _ _ (upd_sv (upd_disk (λ _, d)) w) _)|..]; by apply (slots_sv own_id (upd_disk (λ _, d) (wo_sv w))).
  - destruct (remove_nth n (wo_joined w)) as [[x rest]|] eqn:E; [|done]. injection Hstep as <-. by apply slots_push, slots_tasks.
  - destruct (wo_runners w !! id) as [[peer ph]|] eqn:E; [|done]. cbn in Hstep. destruct ph; try done. injection Hstep as <-.
    exact (slots_phase own_id id peer RHello REnding (wo_sv w) w S E ltac:(done) eq_refl eq_refl).
  - destruct (wo_runners w !! id) as [[peer ph]|] eqn:E; [|done]. cbn in Hstep. destruct ph; try done.
    destruct (hello_done _ _ _ _ _ _ _ _ _) as [s ok] eqn:Eh. injection Hstep as <-.
    pose proof (hello_done_fields id_show toml_parse toml_print our_hello env peer theirs observed (wo_sv w)) as F. rewrite Eh in F.
    destruct F as (_ & _ & Es & Ed & _). apply (slots_phase own_id id peer RHello _ s w S E); [by destruct ok|done|done].
  - destruct (wo_runners w !! id) as [[peer ph]|] eqn:E; [|done]. cbn in Hstep. destruct ph as [|b| | |]; try done.
    destruct (hb_step ev b _) as [[[b'|] l] es]; injection Hstep as <-.
    + by apply (slots_phase own_id id peer (ROpen b) (ROpen b') (set_live peer l (wo_sv w)) w S E).
    + by apply (slots_phase own_id id peer (ROpen b) REnding (set_live peer (note_transition Down l).1 (set_live peer l (wo_sv w))) w S E).
  - destruct (wo_runners w !! id) as [[peer ph]|] eqn:E; [|done]. cbn in Hstep. destruct ph as [|b| | |]; try done. injection Hstep as <-.
    by apply (slots_phase own_id id peer (ROpen b) REnding (set_live peer _ (wo_sv w)) w S E).
  - (* the report of a runner *)
    destruct (wo_runners w !! id) as [[peer ph]|] eqn:E; [|done]. cbn in Hstep. destruct ph; try done. injection Hstep as <-.
    by eapply slots_report.
  - destruct (wo_runners w !! id) as [[peer ph]|] eqn:E; [|done]. cbn in Hstep. destruct ph; try done. injection Hstep as <-.
    exact (slots_phase own_id id peer RSent RDone (wo_sv w) w S E (λ _, I) eq_refl eq_refl).
  - destruct (wo_runners w !! id) as [[peer ph]|] eqn:E; [|done]. cbn in Hstep. destruct ph as [|b| | |]; try done. injection Hstep as <-.
    by apply (slots_sv own_id (set_live peer _ (wo_sv w)) w S).
  - injection Hstep as <-. by apply (slots_sv own_id (set_live peer _ (wo_sv w)) w S).
  - destruct (from_outside m) eqn:Hm; [|done]. injection Hstep as <-. apply slots_push; [by destruct m|done].
Qed.
End SlotsStep.

(** ** The budget of a pairing window *)
Inductive WindowEvent := WFailed | WEnded (paired : bool).
#[global] Instance WindowEvent_eq_dec : EqDecision WindowEvent.
Proof. solve_decision. Defined.

(** The failed attempts and the end of a window, in the order of the log. *)
Definition window_event (id : Z) (e : Effect) : option WindowEvent :=
  match e with
  | AttemptFailed i => if decide (i = id) then Some WFailed else None
  | Notify i (Paired _ _) => if decide (i = id) then Some (WEnded true) else None
  | Notify i (PairFailed _) | Notify i Expired => if decide (i = id) then Some (WEnded false) else None
  | _ => None
  end.
Definition window_events (id : Z) (log : list Effect) : list WindowEvent := omap (window_event id) log.

Lemma window_events_app id l1 l2 : window_events id (l1 ++ l2) = window_events id l1 ++ window_events id l2.
Proof. apply omap_app. Qed.

(** At most three failures, then at most one end; paired only before the
    third failure. *)
Definition within_budget (l : list WindowEvent) : Prop :=
  ∃ k, (k < 3)%nat ∧ (l = replicate k WFailed ∨ ∃ paired, l = replicate k WFailed ++ [WEnded paired]) ∨
       k = 3%nat ∧ l = replicate k WFailed ++ [WEnded false].

Record budget (w : World) : Prop := {
  bu_seq : 0 ≤ sv_window_seq (wo_sv w);
  bu_future id : sv_window_seq (wo_sv w) < id → window_events id (wo_log w) = [];
  bu_all id : within_budget (window_events id (wo_log w));
  bu_window x : sv_window (wo_sv w) = Some x →
    w_id x = sv_window_seq (wo_sv w) ∧ 1 ≤ w_attempts_left x ≤ PAIR_ATTEMPTS ∧
    window_events (w_id x) (wo_log w) = replicate (Z.to_nat (PAIR_ATTEMPTS - w_attempts_left x)) WFailed }.

Definition no_pairing (e : Effect) : Prop := ∀ id, window_event id e = None.
Lemma no_pairing_events es id : Forall no_pairing es → window_events id es = [].
Proof. induction 1 as [|e es He _ IH]; [done|]. unfold window_events in *. cbn. by rewrite He. Qed.

(** Same window and no event of one. *)
Lemma budget_quiet w w' es :
  budget w → wo_log w' = wo_log w ++ es → Forall no_pairing es →
  sv_window (wo_sv w') = sv_window (wo_sv w) → sv_window_seq (wo_sv w') = sv_window_seq (wo_sv w) → budget w'.
Proof.
  intros B El Hes Ew Eq.
  assert (∀ id, window_events id (wo_log w') = window_events id (wo_log w)) as Ev.
  { intros id. by rewrite El, window_events_app, (no_pairing_events es), app_nil_r. }
  destruct B as [B1 B2 B3 B4]. split; rewrite ?Eq, ?Ew; [done| | |]; intros; rewrite ?Ev; auto.
Qed.

(** The window closes, with one last event or none. *)
Lemma budget_closes w w' x es :
  budget w → sv_window (wo_sv w) = Some x → wo_log w' = wo_log w ++ es →
  sv_window_seq (wo_sv w') = sv_window_seq (wo_sv w) → sv_window (wo_sv w') = None →
  (∀ id, id ≠ w_id x → window_events id es = []) →
  ((∃ paired, window_events (w_id x) es = [WEnded paired]) ∨
   w_attempts_left x = 1 ∧ window_events (w_id x) es = [WFailed; WEnded false]) → budget w'.
Proof.
  intros B Hx El Eq Ew Hother Hes. destruct (bu_window _ B x Hx) as (Hid & Hleft & Hev). unfold PAIR_ATTEMPTS in *.
  split; rewrite ?Eq, ?Ew; [apply B| | |done].
  - intros id Hlt. rewrite El, window_events_app, (bu_future _ B id Hlt), Hother by lia. done.
  - intros id. rewrite El, window_events_app. destruct (decide (id = w_id x)) as [->|Hne].
    + rewrite Hev. destruct Hes as [[b ->]|[H1 ->]].
      * exists (Z.to_nat (3 - w_attempts_left x)). left. split; [lia|]. right. by exists b.
      * exists 3%nat. right. split; [done|]. by rewrite H1.
    + rewrite Hother, app_nil_r by done. apply (bu_all _ B).
Qed.

(** A window opens, or an attempt of the open one fails. *)
Lemma budget_opens w w' code deadline es :
  budget w → sv_window_seq (wo_sv w) + 1 < 2 ^ 64 → wo_log w' = wo_log w ++ es → Forall no_pairing es →
  sv_window_seq (wo_sv w') = u64_add (sv_window_seq (wo_sv w)) 1 →
  sv_window (wo_sv w') = Some (MkWindow (u64_add (sv_window_seq (wo_sv w)) 1) code PAIR_ATTEMPTS deadline) →
  budget w' ∧ sv_window_seq (wo_sv w') = sv_window_seq (wo_sv w) + 1.
Proof.
  intros B Hlt El Hes Eq Ew. pose proof (bu_seq _ B).
  assert (u64_add (sv_window_seq (wo_sv w)) 1 = sv_window_seq (wo_sv w) + 1) as E by (unfold u64_add; rewrite wrap64_small; unfold in_u64; lia).
  assert (∀ id, window_events id (wo_log w') = window_events id (wo_log w)) as Ev.
  { intros id. by rewrite El, window_events_app, (no_pairing_events es), app_nil_r. }
  rewrite E in *. split; [|done]. split; rewrite ?Eq, ?Ew; [lia| | |].
  - intros id Hid. rewrite Ev. apply (bu_future _ B). lia.
  - intros id. rewrite Ev. apply (bu_all _ B).
  - intros x [= <-]. cbn. unfold PAIR_ATTEMPTS. split_and!; [done|lia|lia|]. rewrite Ev. apply (bu_future _ B). lia.
Qed.

Lemma budget_burns w w' x :
  budget w → sv_window (wo_sv w) = Some x → wo_log w' = wo_log w ++ [AttemptFailed (w_id x)] →
  sv_window_seq (wo_sv w') = sv_window_seq (wo_sv w) → u32_sub (w_attempts_left x) 1 ≠ 0 →
  sv_window (wo_sv w') = Some (MkWindow (w_id x) (w_code x) (u32_sub (w_attempts_left x) 1) (w_deadline x)) → budget w'.
Proof.
  intros B Hx El Eq Hne Ew. destruct (bu_window _ B x Hx) as (Hid & Hleft & Hev). unfold PAIR_ATTEMPTS in *.
  assert (u32_sub (w_attempts_left x) 1 = w_attempts_left x - 1) as E by (unfold u32_sub; rewrite wrap32_small; unfold in_u32; lia).
  rewrite E in *.
  assert (window_events (w_id x) (wo_log w') = replicate (Z.to_nat (3 - (w_attempts_left x - 1))) WFailed) as Ex.
  { rewrite El, window_events_app, Hev. unfold window_events. cbn. rewrite decide_True by done.
    replace (Z.to_nat (3 - (w_attempts_left x - 1))) with (Z.to_nat (3 - w_attempts_left x) + 1)%nat by lia. by rewrite replicate_add. }
  assert (∀ id, id ≠ w_id x → window_events id (wo_log w') = window_events id (wo_log w)) as Eo.
  { intros id Hd. rewrite El, window_events_app. unfold window_events at 2. cbn. rewrite decide_False by done. by rewrite app_nil_r. }
  split; rewrite ?Eq, ?Ew; [apply B| | |].
  - intros id Hlt. rewrite Eo by lia. by apply (bu_future _ B).
  - intros id. destruct (decide (id = w_id x)) as [->|Hd]; [|rewrite Eo by done; apply (bu_all _ B)].
    exists (Z.to_nat (3 - (w_attempts_left x - 1))). left. split; [lia|]. by left.
  - intros y [= <-]. cbn. unfold PAIR_ATTEMPTS. split_and!; [done|lia|lia|done].
Qed.

Section Budget.
  Context (id_parse : string → option EndpointId) (id_show id_short : EndpointId → string)
    (relay_parse : string → option string)
    (toml_parse : string → option Peers) (toml_print : Peers → option string)
    (store_text : StoreError → string)
    (own_id : EndpointId) (our_hello : Hello) (pair_window : Z).
  Notation handle := (handle id_parse id_show id_short relay_parse toml_parse toml_print store_text own_id pair_window).
  Notation step_fn := (step_fn id_parse id_show id_short relay_parse toml_parse toml_print store_text own_id our_hello pair_window).

Lemma dials_no_pairing es : Forall is_dial es → Forall no_pairing es.
Proof. intros H. eapply Forall_impl; [exact H|]. by intros []. Qed.

Lemma Adopted_no_pairing fin c d s s' es : Adopted own_id fin c d s s' es → Forall no_pairing es.
Proof. by destruct 1; repeat constructor. Qed.

Lemma budget_host_done io1 io2 io3 unix id result observed q w w' :
  budget w →
  committed (after (pair_host_done id_show relay_parse toml_parse toml_print own_id store_text io1 io2 io3 unix id result observed) (wo_sv w),
             effects (pair_host_done id_show relay_parse toml_parse toml_print own_id store_text io1 io2 io3 unix id result observed) (wo_sv w))
            (set_queue q w) w' →
  budget w' ∧ sv_window_seq (wo_sv w') = sv_window_seq (wo_sv w).
Proof.
  intros B C. pose proof (co_sv _ _ _ C) as Esv. pose proof (co_log _ _ _ C) as El. cbn [fst snd] in Esv, El.
  pose proof (pair_host_done_outcome id_show relay_parse toml_parse toml_print own_id store_text io1 io2 io3 unix id result observed (wo_sv w)) as H.
  cbv zeta in H. rewrite <- Esv in H. change (wo_log (set_queue q w)) with (wo_log w) in El.
  destruct H as [Ew Eq _ _ _|x Hx _ _ Eq _ _ Hne Ew|x why Hx _ _ Eq _ _ H0 Ew|x peer name why Hx _ _ _ Eq _ _ Ew|x peer name final direct relay s1 es Hx _ _ _ Eq _ _ Ew HD].
  - split; [|done]. eapply (budget_quiet w w' [] B El); [constructor|done|done].
  - split; [|done]. by eapply budget_burns.
  - split; [|done]. destruct (bu_window _ B x Hx) as (_ & Hleft & _). unfold PAIR_ATTEMPTS in Hleft.
    assert (u32_sub (w_attempts_left x) 1 = w_attempts_left x - 1) as E by (unfold u32_sub; rewrite wrap32_small; unfold in_u32; lia).
    assert (w_attempts_left x = 1) by lia.
    eapply (budget_closes w w' x _ B Hx El Eq Ew); unfold window_events; cbn.
    + intros i Hi. by rewrite !decide_False.
    + right. by rewrite !decide_True.
  - split; [|done]. eapply (budget_closes w w' x _ B Hx El Eq Ew); unfold window_events; cbn.
    + intros i Hi. by rewrite decide_False.
    + left. exists false. by rewrite decide_True.
  - destruct HD as [_ Ew' Eq' _ He _ _]. split; [|by rewrite Eq', Eq].
    assert (∀ i, window_events i es = []) as Hes by (intros i; by apply no_pairing_events, dials_no_pairing).
    eapply (budget_closes w w' x _ B Hx El); [by rewrite Eq', Eq|by rewrite Ew', Ew| |]; unfold window_events in *; cbn.
    + intros i Hi. by rewrite decide_False, Hes.
    + left. exists true. by rewrite decide_True, Hes.
Qed.

Lemma budget_handle env m q w w' :
  budget w → sv_window_seq (wo_sv w) + 1 < 2 ^ 64 →
  committed (after (handle env (set_queue q w) m) (wo_sv w), effects (handle env (set_queue q w) m) (wo_sv w)) (set_queue q w) w' →
  budget w' ∧ sv_window_seq (wo_sv w') ≤ sv_window_seq (wo_sv w) + 1.
Proof.
  intros B Hlt C. pose proof (co_sv _ _ _ C) as Esv. pose proof (co_log _ _ _ C) as El. cbn [fst snd] in Esv, El.
  change (wo_log (set_queue q w)) with (wo_log w) in El.
  assert (∀ s es, wo_sv w' = s → wo_log w' = wo_log w ++ es → Forall no_pairing es →
    sv_window s = sv_window (wo_sv w) → sv_window_seq s = sv_window_seq (wo_sv w) →
    budget w' ∧ sv_window_seq (wo_sv w') ≤ sv_window_seq (wo_sv w) + 1) as Hquiet.
  { intros s es E1 E2 Hes Ew Eq. split; [|rewrite E1; lia]. eapply (budget_quiet w w' es B E2 Hes); congruence. }
  assert (∀ g : M (), DialsM id_show toml_parse g → handle env (set_queue q w) m = g →
    budget w' ∧ sv_window_seq (wo_sv w') ≤ sv_window_seq (wo_sv w) + 1) as Hdials.
  { intros g HD Hg. rewrite Hg in *. destruct (HD (wo_sv w)) as [_ ? ? _ He _ _].
    eapply Hquiet; [exact Esv|exact El|by apply dials_no_pairing|done|done]. }
  destruct m as [draws|name| |c|c|id result observed|id|peer addr|peer conn|peer|peer id|peer addr|peer|]; cbn [handle] in *.
  - rewrite after_bind in Esv. rewrite effects_bind in El. cbn [skip mret M_ret after effects fst snd] in Esv, El. rewrite app_nil_r in El.
    pose proof (pair_start_outcome (en_now env) pair_window draws (wo_sv w)) as P.
    destruct P as [E|code deadline Eq Ew _ _ _]; [rewrite E in Esv; by eapply Hquiet|].
    destruct (budget_opens w w' code deadline _ B Hlt El) as [? ?]; [by repeat constructor|by rewrite Esv|by rewrite Esv|].
    split; [done|lia].
  - rewrite after_bind in Esv. rewrite effects_bind in El. cbn [skip mret M_ret after effects fst snd] in Esv, El. rewrite app_nil_r in El.
    pose proof (unpair_outcome id_parse toml_parse toml_print (en_io1 env) name (wo_sv w)) as U. cbv zeta in U.
    destruct U as [_ _ Ew Eq _ _|id_str peer es _ _ _ Ew Eq _ _ Hes]; (eapply Hquiet; [exact Esv|exact El| |done|done]); [constructor|].
    rewrite Hes. destruct (sv_sessions (wo_sv w) !! peer); by repeat constructor.
  - unfold after, effects in *. rewrite shutdown_outcome in *. cbn [fst snd] in *. eapply Hquiet; [exact Esv|exact El| |done|done].
    rewrite list.Forall_forall. intros e (x & He & _)%list_elem_of_bind.
    apply elem_of_cons in He as [-> | ->%list_elem_of_singleton]; done.
  - destruct (incoming_pair_outcome (en_now env) c (wo_sv w)) as [E Hes]. rewrite E in Esv.
    eapply Hquiet; [exact Esv|exact El| |done|done]. eapply Forall_impl; [exact Hes|]. intros []; try done. by destruct ev.
  - pose proof (adopt_outcome id_show id_short toml_parse own_id (en_io1 env) (runner_finished (set_queue q w) (cn_remote c)) c false (wo_sv w))
      as [A (_ & Ew & Eq & _)]. eapply Hquiet; [exact Esv|exact El|by eapply Adopted_no_pairing|done|done].
  - destruct (budget_host_done _ _ _ _ _ _ _ _ _ _ B C) as [? Eq]. split; [done|lia].
  - destruct (window_timeout_outcome id (wo_sv w)) as [[E1 E2]|(x & Hx & Hid & E1 & E2)]; rewrite E1 in Esv; rewrite E2 in El.
    + by eapply Hquiet; [exact Esv|exact El|constructor|..].
    + split; [|rewrite Esv; cbn; lia]. eapply (budget_closes w w' x _ B Hx El); [by rewrite Esv|by rewrite Esv| |];
        unfold window_events; cbn; rewrite Hid; [intros i Hi; by rewrite decide_False|left; exists false; by rewrite decide_True].
  - eapply Hdials; [|done]. apply DialsM_joined.
  - unfold dial_done in *. rewrite after_bind in Esv. rewrite effects_bind in El. cbn [after effects modify fst snd app] in Esv, El.
    destruct conn as [c|].
    + match type of Esv with context [adopt_conn _ _ _ _ ?io ?fin c true] =>
        pose proof (adopt_outcome id_show id_short toml_parse own_id io fin c true (upd_dialing (.∖ {[peer]}) (wo_sv w))) as [A (_ & Ew & Eq & _)] end.
      eapply Hquiet; [exact Esv|exact El|by eapply Adopted_no_pairing|done|done].
    + by eapply Hquiet; [exact Esv|exact El|constructor|..].
  - eapply Hdials; [|done]. apply DialsM_ensure.
  - destruct (session_ended_outcome peer id (wo_sv w)) as [E1 E2]. rewrite E1 in Esv. rewrite E2 in El.
    by eapply Hquiet; [exact Esv|exact El|constructor|..].
  - eapply Hdials; [|done]. apply DialsM_discovered_msg.
  - eapply Hdials; [|done]. apply DialsM_discovered.
  - eapply Hdials; [|done]. apply DialsM_reconnect_tick.
Qed.

(** The tasks leave the log and the window alone. *)
Lemma task_step_window a w w' : step_fn a w = Some w' → (∀ env, a ≠ Handle env) →
  wo_log w' = wo_log w ∧ sv_window (wo_sv w') = sv_window (wo_sv w) ∧ sv_window_seq (wo_sv w') = sv_window_seq (wo_sv w).
Proof.
  intros Hstep Ha. destruct a as [env|n ok|n result observed|n|io alpn remote|env peer name addr|n|id|id env theirs observed|id ev|id|id|id|id usable pre dec disk drain|peer mbps|m];
    [by destruct (Ha env)|..]; cbn [step_fn] in Hstep; unfold fresh_conn in Hstep;
    task_cases Hstep; try done; try (injection Hstep as <-; done).
  match goal with H : hello_done _ _ _ _ _ _ _ _ _ = _ |- _ =>
    pose proof (hello_done_fields id_show toml_parse toml_print our_hello env ru_peer theirs observed (wo_sv w)) as F; rewrite H in F end.
  injection Hstep as <-. by destruct F as (? & ? & _).
Qed.

Lemma budget_step a w w' : step_fn a w = Some w' → budget w → sv_window_seq (wo_sv w) + 1 < 2 ^ 64 →
  budget w' ∧ sv_window_seq (wo_sv w') ≤ sv_window_seq (wo_sv w) + 1.
Proof.
  intros Hstep B Hlt. assert ((∃ env, a = Handle env) ∨ ∀ env, a ≠ Handle env) as [[env ->]|Ha].
  { destruct a; eauto; right; by intros ? [=]. }
  - cbn [step_fn] in Hstep. destruct (wo_stopped w); [done|]. destruct (wo_queue w) as [|m q] eqn:Eq; [done|].
    destruct (handle env (set_queue q w) m (wo_sv (set_queue q w))) as [[u s] es] eqn:Eh. injection Hstep as <-.
    pose proof (commit_committed (s, es) (set_queue q w)) as C.
    assert (budget (commit (s, es) (set_queue q w)) ∧
      sv_window_seq (wo_sv (commit (s, es) (set_queue q w))) ≤ sv_window_seq (wo_sv w) + 1) as [B' Hs].
    { eapply (budget_handle env m q w); [done|done|]. unfold after, effects. cbn in Eh. by rewrite Eh. }
    destruct m; try exact (conj B' Hs). split; [by destruct B'|exact Hs].
  - destruct (task_step_window a w w' Hstep Ha) as (El & Ew & Es). split; [|rewrite Es; lia].
    eapply (budget_quiet w w' [] B); [by rewrite app_nil_r|constructor|done|done].
Qed.
End Budget.
