(* ===== verification/MeshOut.v ===== *)
(** * What the mesh service guarantees

    Slots are released, pairing windows keep their budget, and a peer that is
    out of the store, with no connection on its way, stays out; with one on
    its way it does not. *)

From Stdlib Require Import ZArith Lia Ascii String.
From stdpp Require Import base list strings option gmap relations.
From S2P Require Import Prelude StrUtil Float Proto Cluster PlanLoad PeerStore Pairing Heartbeat Mesh MeshOk MeshWorld MeshInv.

Open Scope Z_scope.

(** ** A peer that is out *)
Section Out.
  Context (id_parse : string → option EndpointId) (id_show id_short : EndpointId → string)
    (relay_parse : string → option string)
    (toml_parse : string → option Peers) (toml_print : Peers → option string)
    (store_text : StoreError → string)
    (own_id : EndpointId) (our_hello : Hello) (pair_window : Z).
  Context (toml_roundtrip : ∀ m b, toml_print m = Some b → toml_parse b = Some m)
    (Hids : ∀ p, id_parse (id_show p) = Some p).
  Notation handle := (handle id_parse id_show id_short relay_parse toml_parse toml_print store_text own_id pair_window).
  Notation step_fn := (step_fn id_parse id_show id_short relay_parse toml_parse toml_print store_text own_id our_hello pair_window).

Lemma id_show_inj p q : id_show p = id_show q → p = q.
Proof using Hids. intros E. assert (Some p = Some q) as [= ->]; [|done]. by rewrite <- (Hids p), <- (Hids q), E. Qed.

Definition not_stored (d : Disk) (p : EndpointId) : Prop := ∀ m, holds toml_parse d m → m !! id_show p = None.

Lemma load_is_holds io d m : load toml_parse io d = Ok m → holds toml_parse d m.
Proof. unfold holds, load. by destruct (io_read io). Qed.

Lemma lms_unreadable {A} io d (f : Peers → res StoreError (option Peers * A)) :
  (∀ m, ~ holds toml_parse d m) → (load_modify_save toml_parse toml_print io d f).1 = d.
Proof. intros Hno. unfold load_modify_save. destruct (load toml_parse io d) as [m| |] eqn:E; [|done..]. by destruct (Hno m (load_is_holds _ _ _ E)). Qed.

Lemma not_stored_op io op d p : not_stored d p → ~ creates op (id_show p) → not_stored (run_op toml_parse toml_print io op d) p.
Proof using toml_roundtrip.
  intros Hd Hc. destruct (load toml_parse io_ok d) as [m|e|] eqn:Hm.
  - destruct (run_op_holds _ _ toml_roundtrip io op d m Hm) as (m' & Hm' & Heff).
    intros m2 Hm2. unfold holds in *. rewrite Hm' in Hm2. injection Hm2 as <-.
    destruct Heff as [->|He%op_effect_ok]; [by apply Hd|]. apply (eff_not_created _ _ _ He); [by apply Hd|done].
  - assert (run_op toml_parse toml_print io op d = d) as ->; [|done].
    assert (∀ m, ~ holds toml_parse d m) by (unfold holds; rewrite Hm; done).
    destruct op; by apply lms_unreadable.
  - assert (run_op toml_parse toml_print io op d = d) as ->; [|done].
    assert (∀ m, ~ holds toml_parse d m) by (unfold holds; rewrite Hm; done).
    destruct op; by apply lms_unreadable.
Qed.

Lemma not_stored_ops ops d p : not_stored d p → Forall (λ x, ~ creates x.2 (id_show p)) ops →
  not_stored (run_ops toml_parse toml_print ops d) p.
Proof using toml_roundtrip.
  revert d. induction ops as [|[io op] ops IH]; intros d Hd; [done|]. intros [Hop Hops]%list.Forall_cons.
  cbn. apply IH; [|done]. by apply not_stored_op.
Qed.

(** Not in the store, no session, and no connection or pairing on the way. *)
Record out (p : EndpointId) (w : World) : Prop := {
  ou_store : not_stored (sv_disk (wo_sv w)) p;
  ou_session : sv_sessions (wo_sv w) !! p = None;
  ou_dials : p ∉ wo_dials w;
  ou_dialed c : DialDone p (Some c) ∉ wo_queue w;
  ou_accepted c : IncomingMesh c ∈ wo_queue w → cn_remote c ≠ p;
  ou_paired id name observed : PairHostDone id (Ok (p, name)) observed ∉ wo_queue w }.

(** Actions that pair with the peer. *)
Definition pairs_with (p : EndpointId) (a : Action) : Prop :=
  match a with
  | AttemptEnds _ (Ok (q, _)) _ => q = p
  | Join _ q _ _ => q = p
  | _ => False
  end.

(** Handling a message that neither stores nor adopts the peer. *)
Lemma out_handled p m q w s es w' :
  out p w → wo_queue w = m :: q → committed (s, es) (set_queue q w) w' →
  not_stored (sv_disk s) p → sv_sessions s !! p = None → p ∉ targets es → out p w'.
Proof using Type.
  intros O Eq C Hd Hs Ht.
  assert (∀ x, x ∈ wo_queue w' → x ∈ wo_queue w) as Hq by (intros x; rewrite (co_queue _ _ _ C), Eq; cbn; by right).
  split; [by rewrite (co_sv _ _ _ C)|by rewrite (co_sv _ _ _ C)| |..].
  - rewrite (co_dials _ _ _ C). cbn. intros [?|?]%elem_of_app; [by apply (ou_dials _ _ O)|done].
  - intros c Hc%Hq. by apply (ou_dialed _ _ O c).
  - intros c Hc%Hq. by apply (ou_accepted _ _ O).
  - intros id name obs Hc%Hq. by apply (ou_paired _ _ O id name obs).
Qed.

Lemma Dials_out p s s' es : Dials id_show toml_parse s s' es → not_stored (sv_disk s) p → p ∉ targets es.
Proof.
  intros D Hd Hp. destruct (di_stored _ _ _ _ _ D p Hp) as (io & m & Hm & Hs). rewrite (Hd m) in Hs; [by destruct Hs|].
  by eapply load_is_holds.
Qed.

Lemma Adopted_out p fin c d s s' es : Adopted own_id fin c d s s' es → cn_remote c ≠ p → sv_sessions s !! p = None →
  sv_sessions s' !! p = None ∧ p ∉ targets es.
Proof.
  intros A Hne Hs. destruct A as [why E|name _ _ E|old why name _ _ _ E|old why name _ _ _ E]; rewrite E;
    (split; [by rewrite ?lookup_insert_ne by done|by intros ?%not_elem_of_nil]).
Qed.

Lemma out_host_done p io1 io2 io3 unix id result observed q w w' :
  out p w → wo_queue w = PairHostDone id result observed :: q →
  committed (after (pair_host_done id_show relay_parse toml_parse toml_print own_id store_text io1 io2 io3 unix id result observed) (wo_sv w),
             effects (pair_host_done id_show relay_parse toml_parse toml_print own_id store_text io1 io2 io3 unix id result observed) (wo_sv w))
            (set_queue q w) w' → out p w'.
Proof using toml_roundtrip Hids.
  intros O Eq C. pose proof (ou_store _ _ O) as Hd. pose proof (ou_session _ _ O) as Hs.
  pose proof (pair_host_done_outcome id_show relay_parse toml_parse toml_print own_id store_text io1 io2 io3 unix id result observed (wo_sv w)) as H.
  cbv zeta in H.
  assert (∀ peer name, result = Ok (peer, name) → id_show peer ≠ id_show p) as Hne.
  { intros peer name -> ->%id_show_inj. apply (ou_paired _ _ O id name observed). rewrite Eq. left. }
  assert (∀ peer name, result = Ok (peer, name) → not_stored (add toml_parse toml_print io1 unix (id_show peer) name (sv_disk (wo_sv w))).1 p) as Hadd.
  { intros peer name E. apply (not_stored_op io1 (OpAdd unix (id_show peer) name)); [done|]. cbn. by eapply Hne. }
  destruct H as [_ _ Es _ Hdisk|? _ _ Ed _ Es _ _ _|? ? _ _ Ed _ Es _ _ _|? peer name ? _ _ Er Ed _ Es _ _|? peer name ? direct relay s1 es _ _ Er Ed _ Es _ _ HD].
  - eapply (out_handled p _ q w _ _ w' O Eq C); [|by rewrite Es|by intros ?%not_elem_of_nil].
    destruct Hdisk as [->|(peer & name & Er & ->)]; [done|by eapply Hadd].
  - eapply (out_handled p _ q w _ _ w' O Eq C); [by rewrite Ed|by rewrite Es|by intros ?%not_elem_of_nil].
  - eapply (out_handled p _ q w _ _ w' O Eq C); [by rewrite Ed|by rewrite Es|by intros ?%not_elem_of_nil].
  - eapply (out_handled p _ q w _ _ w' O Eq C); [rewrite Ed; by eapply Hadd|by rewrite Es|by intros ?%not_elem_of_nil].
  - assert (not_stored (sv_disk s1) p) as Hd1.
    { rewrite Ed. apply (not_stored_op io2 (OpAddrs (id_show peer) direct relay)); [by eapply Hadd|by intros []]. }
    eapply (out_handled p _ q w _ _ w' O Eq C).
    + by rewrite (di_disk _ _ _ _ _ HD).
    + by rewrite (di_sessions _ _ _ _ _ HD), Es.
    + cbn. by eapply Dials_out.
Qed.

Lemma out_handle p env m q w w' :
  slots own_id w → out p w → wo_queue w = m :: q →
  committed (after (handle env (set_queue q w) m) (wo_sv w), effects (handle env (set_queue q w) m) (wo_sv w)) (set_queue q w) w' →
  out p w'.
Proof using toml_roundtrip Hids.
  intros S O Eq C. pose proof (ou_store _ _ O) as Hd. pose proof (ou_session _ _ O) as Hs.
  assert (∀ g : M (), DialsM id_show toml_parse g → handle env (set_queue q w) m = g → out p w') as Hdials.
  { intros g HD Hg. rewrite Hg in C. pose proof (HD (wo_sv w)) as D. eapply (out_handled p m q w _ _ w' O Eq C).
    - by rewrite (di_disk _ _ _ _ _ D).
    - by rewrite (di_sessions _ _ _ _ _ D).
    - by eapply Dials_out. }
  assert (∀ es s, committed (s, es) (set_queue q w) w' → sv_disk s = sv_disk (wo_sv w) → sv_sessions s !! p = None →
    targets es = [] → out p w') as Hquiet.
  { intros es s C' Ed Es Ht. eapply (out_handled p m q w s es w' O Eq C'); [by rewrite Ed|done|]. rewrite Ht. apply not_elem_of_nil. }
  destruct m as [draws|name| |c|c|id result observed|id|peer addr|peer conn|peer|peer id|peer addr|peer|]; cbn [handle] in *.
  - rewrite after_bind, effects_bind in C. cbn [skip mret M_ret after effects fst snd] in C. rewrite app_nil_r in C.
    pose proof (pair_start_outcome (en_now env) pair_window draws (wo_sv w)) as P.
    destruct P as [E|code deadline _ _ Ed Es _]; [rewrite E in C; by eapply Hquiet|]. eapply Hquiet; [exact C|done|by rewrite Es|done].
  - rewrite after_bind, effects_bind in C. cbn [skip mret M_ret after effects fst snd] in C. rewrite app_nil_r in C.
    pose proof (unpair_outcome id_parse toml_parse toml_print (en_io1 env) name (wo_sv w)) as U. cbv zeta in U.
    assert (not_stored (remove_by_name toml_parse toml_print (en_io1 env) name (sv_disk (wo_sv w))).1 p) as Hd'
      by (apply (not_stored_op (en_io1 env) (OpRemove name)); [done|by intros []]).
    destruct U as [_ Ed _ _ Es _|id_str peer es _ _ Ed _ _ Es _ Hes].
    + eapply (out_handled p _ q w _ _ w' O Eq C); [by rewrite Ed|by rewrite Es|by intros ?%not_elem_of_nil].
    + eapply (out_handled p _ q w _ _ w' O Eq C); [by rewrite Ed|rewrite Es; apply lookup_delete_None; by right|].
      rewrite Hes. destruct (sv_sessions (wo_sv w) !! peer); by intros ?%not_elem_of_nil.
  - unfold after, effects in C. rewrite shutdown_outcome in C. cbn [fst snd] in C. eapply Hquiet; [exact C|done|apply lookup_empty|].
    apply no_targets. rewrite list.Forall_forall. intros e (x & He & _)%list_elem_of_bind.
    apply elem_of_cons in He as [-> | ->%list_elem_of_singleton]; by intros [].
  - destruct (incoming_pair_outcome (en_now env) c (wo_sv w)) as [E Hes]. rewrite E in C. eapply Hquiet; [exact C|done|done|].
    apply no_targets. eapply Forall_impl; [exact Hes|]. by intros [] ? [].
  - pose proof (adopt_outcome id_show id_short toml_parse own_id (en_io1 env) (runner_finished (set_queue q w) (cn_remote c)) c false (wo_sv w))
      as [A (Ed & _)]. destruct (Adopted_out p _ _ _ _ _ _ A) as [Hs' Ht]; [apply (ou_accepted _ _ O); rewrite Eq; left|done|].
    eapply (out_handled p _ q w _ _ w' O Eq C); [by rewrite Ed|done|done].
  - by eapply out_host_done.
  - destruct (window_timeout_outcome id (wo_sv w)) as [[E1 E2]|(x & _ & _ & E1 & E2)]; rewrite E1, E2 in C; by eapply Hquiet.
  - eapply Hdials; [|done]. apply DialsM_joined.
  - unfold dial_done in C. rewrite after_bind, effects_bind in C. cbn [after effects modify fst snd app] in C. destruct conn as [c|].
    + match type of C with context [adopt_conn _ _ _ _ ?io ?fin c true] =>
        pose proof (adopt_outcome id_show id_short toml_parse own_id io fin c true (upd_dialing (.∖ {[peer]}) (wo_sv w))) as [A (Ed & _)] end.
      destruct (Adopted_out p _ _ _ _ _ _ A) as [Hs' Ht]; [|done|].
      { rewrite (sl_dialed _ _ S peer c) by (rewrite Eq; left). intros ->. apply (ou_dialed _ _ O c). rewrite Eq. left. }
      eapply (out_handled p _ q w _ _ w' O Eq C); [by rewrite Ed|done|done].
    + by eapply Hquiet.
  - eapply Hdials; [|done]. apply DialsM_ensure.
  - destruct (session_ended_outcome peer id (wo_sv w)) as [E1 E2]. rewrite E1, E2 in C. eapply Hquiet; [exact C|done| |done]. cbn.
    destruct (sv_sessions (wo_sv w) !! peer); [|done]. destruct (_ =? id); [|done]. apply lookup_delete_None. by right.
  - eapply Hdials; [|done]. apply DialsM_discovered_msg.
  - eapply Hdials; [|done]. apply DialsM_discovered.
  - eapply Hdials; [|done]. apply DialsM_reconnect_tick.
Qed.

(** A message that cannot bring the peer in. *)
Definition harmless (p : EndpointId) (m : Msg) : Prop :=
  match m with
  | DialDone q (Some _) => q ≠ p
  | IncomingMesh c => cn_remote c ≠ p
  | PairHostDone _ (Ok (q, _)) _ => q ≠ p
  | _ => True
  end.

Lemma out_task p w w' ms :
  out p w → not_stored (sv_disk (wo_sv w')) p → sv_sessions (wo_sv w') = sv_sessions (wo_sv w) →
  (∀ q, q ∈ wo_dials w' → q ∈ wo_dials w) → wo_queue w' = wo_queue w ++ ms → Forall (harmless p) ms → out p w'.
Proof using Type.
  intros O Hd Es Hdials Eq Hms.
  assert (∀ m, m ∈ wo_queue w' → m ∈ wo_queue w ∨ harmless p m) as Hq.
  { intros m. rewrite Eq. intros [?|Hm]%elem_of_app; [by left|right]. by eapply list.Forall_forall in Hms. }
  split.
  - done.
  - rewrite Es. apply O.
  - intros Hp%Hdials. by apply (ou_dials _ _ O).
  - intros c [Hc|Hc]%Hq; [by apply (ou_dialed _ _ O c)|done].
  - intros c [Hc|Hc]%Hq; [by apply (ou_accepted _ _ O)|done].
  - intros id name obs [Hc|Hc]%Hq; [by apply (ou_paired _ _ O id name obs)|done].
Qed.

Lemma out_quiet p w w' :
  out p w → not_stored (sv_disk (wo_sv w')) p → sv_sessions (wo_sv w') = sv_sessions (wo_sv w) →
  wo_dials w' = wo_dials w → wo_queue w' = wo_queue w → out p w'.
Proof using Type. intros O Hd Es Ed Eq. apply (out_task p w w' [] O); rewrite ?Ed, ?app_nil_r; by try constructor. Qed.

Lemma persist_join_not_stored p io1 io2 unix peer name addr d :
  not_stored d p → peer ≠ p → not_stored (persist_join id_show toml_parse toml_print io1 io2 unix peer name addr d).1 p.
Proof using toml_roundtrip Hids.
  intros Hd Hne. unfold persist_join.
  pose proof (not_stored_op io1 (OpAdd unix (id_show peer) name) d p Hd) as H1. cbn in H1.
  destruct (add _ _ _ _ _ _ d) as [d1 [final|e|]]; cbn [fst] in *;
    (assert (not_stored d1 p) as Hd1 by (apply H1; intros E%id_show_inj; done)); [|done..].
  pose proof (not_stored_op io2 (OpAddrs (id_show peer) (ip_addrs addr) (head (relay_urls addr))) d1 p Hd1) as H2. cbn in H2.
  destruct (update_addrs _ _ _ _ _ _ d1) as [d2 r]. apply H2. by intros [].
Qed.

(** The connection an accept lets through is of a stored peer. *)
Lemma out_accept p io alpn remote w w' : step_fn (Accept io alpn remote) w = Some w' → out p w → out p w'.
Proof using Type.
  intros Hstep O. cbn in Hstep. unfold accept_dispatch, contains in Hstep.
  assert (out p (fresh_conn remote w).2) as O' by (apply (out_quiet p w); [done|apply O|done..]).
  destruct alpn; cbn in Hstep; [| | |by injection Hstep as <-];
    [|destruct (load toml_parse io (sv_disk (wo_sv w))) as [m| |] eqn:Hm; cbn in Hstep; [case_bool_decide as Hr|..]..];
    injection Hstep as <-; try exact O'.
  - by eapply (out_task p w _ [_] O); [apply O|..|apply Forall_singleton].
  - eapply (out_task p w _ [_] O); [apply O|done|done|done|]. apply Forall_singleton. cbn. intros ->.
    rewrite (ou_store _ _ O m (load_is_holds _ _ _ Hm)) in Hr. by destruct Hr.
Qed.

Lemma out_step p a w w' : step_fn a w = Some w' → slots own_id w → out p w → ~ pairs_with p a → out p w'.
Proof using toml_roundtrip Hids.
  intros Hstep S O Hp. pose proof (ou_store _ _ O) as Hd.
  destruct a as [env|n ok|n result observed|n|io alpn remote|env peer name addr|n|id|id env theirs observed|id ev|id|id|id|id usable pre dec disk drain|peer mbps|m];
    [| | | |by eapply out_accept|..]; cbn [step_fn] in Hstep.
  (* heartbeats, reports and losses of a session *)
  7, 9, 10, 12, 13, 14: task_cases Hstep; try done; injection Hstep as <-; by apply (out_quiet p w).
  - destruct (wo_stopped w); [done|]. destruct (wo_queue w) as [|m q] eqn:Eq; [done|].
    destruct (handle env (set_queue q w) m (wo_sv (set_queue q w))) as [[u s] es] eqn:Eh. injection Hstep as <-.
    pose proof (commit_committed (s, es) (set_queue q w)) as C.
    assert (out p (commit (s, es) (set_queue q w))) as O'.
    { eapply (out_handle p env m q w); [done|done|done|]. unfold after, effects. cbn in Eh. by rewrite Eh. }
    destruct m; try exact O'. by destruct O'.
  - destruct (remove_nth n (wo_dials w)) as [[peer dials]|] eqn:E; [|done]. apply remove_nth_Some in E. cbn in Hstep.
    assert (peer ≠ p) as Hne by (intros ->; apply (ou_dials _ _ O); rewrite E; left).
    destruct ok; injection Hstep as <-; (eapply (out_task p w _ [_] O); [done|done| |done|by apply Forall_singleton]);
      intros x Hx; cbn in Hx; rewrite E; by right.
  - task_cases Hstep; injection Hstep as <-. eapply (out_task p w _ [_] O); [done..|]. apply Forall_singleton. by destruct result as [[r nm]| |].
  - task_cases Hstep; injection Hstep as <-. by eapply (out_task p w _ [_] O); [..|apply Forall_singleton].
  - pose proof (persist_join_not_stored p (en_io1 env) (en_io2 env) (en_unix env) peer name addr (sv_disk (wo_sv w)) Hd Hp) as Hj.
    destruct (persist_join _ _ _ _ _ _ _ _ _ _) as [d [x|e|]]; injection Hstep as <-; by apply (out_quiet p w).
  - task_cases Hstep; injection Hstep as <-. by eapply (out_task p w _ [_] O); [..|apply Forall_singleton].
  - task_cases Hstep; try done. injection Hstep as <-.
    match goal with H : hello_done _ _ _ _ _ ?peer _ _ _ = _ |- _ =>
      pose proof (hello_done_fields id_show toml_parse toml_print our_hello env peer theirs observed (wo_sv w)) as F; rewrite H in F end.
    destruct F as (_ & _ & Es & _ & ops & Ed & Hops). cbn [fst] in *. apply (out_quiet p w); try done. cbn. rewrite Ed. by apply not_stored_ops.
  - task_cases Hstep; try done. injection Hstep as <-. by eapply (out_task p w _ [_] O); [..|apply Forall_singleton].
  - task_cases Hstep; [|done]. injection Hstep as <-. eapply (out_task p w _ [_] O); [done..|]. apply Forall_singleton. by destruct m.
Qed.
End Out.

(** ** Theorems *)
Section Theorems.
  Context (id_parse : string → option EndpointId) (id_show id_short : EndpointId → string)
    (relay_parse : string → option string)
    (toml_parse : string → option Peers) (toml_print : Peers → option string)
    (store_text : StoreError → string)
    (own_id : EndpointId) (our_hello : Hello) (pair_window : Z).
  Notation handle := (handle id_parse id_show id_short relay_parse toml_parse toml_print store_text own_id pair_window).
  Notation step_fn := (step_fn id_parse id_show id_short relay_parse toml_parse toml_print store_text own_id our_hello pair_window).
  Notation mesh_step := (mesh_step id_parse id_show id_short relay_parse toml_parse toml_print store_text own_id our_hello pair_window).
  Notation run_actions := (run_actions id_parse id_show id_short relay_parse toml_parse toml_print store_text own_id our_hello pair_window).

Lemma remove_not_stored (toml_roundtrip : ∀ m b, toml_print m = Some b → toml_parse b = Some m) io name d p :
  (remove_by_name toml_parse toml_print io name d).2 = Ok (id_show p) →
  not_stored id_show toml_parse (remove_by_name toml_parse toml_print io name d).1 p.
Proof.
  unfold remove_by_name. intros Hok. destruct (load toml_parse io d) as [m|e|] eqn:Hm;
    [|unfold load_modify_save in Hok; rewrite Hm in Hok; done..].
  pose proof (lms_main _ _ toml_roundtrip io d m (remove_peer name) (load_is_holds _ _ _ _ Hm)) as H.
  destruct (load_modify_save _ _ _ _ _) as [d' r]. cbn [fst snd] in *. subst r. destruct H as (o & Hf & Ho).
  unfold remove_peer in Hf. destruct (find_first _ _) as [[id r]|]; [|done]. injection Hf as <- ->.
  intros m' Hm'. unfold holds in *. rewrite Ho in Hm'. injection Hm' as <-. apply lookup_delete_eq.
Qed.

(** Unpairing a peer of which nothing is on its way. *)
Lemma unpair_leaves_out (toml_roundtrip : ∀ m b, toml_print m = Some b → toml_parse b = Some m)
  (Hids : ∀ q, id_parse (id_show q) = Some q) env name q p w w' :
  wo_queue w = CmdUnpair name :: q →
  (remove_by_name toml_parse toml_print (en_io1 env) name (sv_disk (wo_sv w))).2 = Ok (id_show p) →
  p ∉ wo_dials w → Forall (harmless p) q → step_fn (Handle env) w = Some w' → out id_show toml_parse p w'.
Proof.
  intros Eq Hrem Hdials Hq Hstep. cbn [MeshWorld.step_fn] in Hstep. destruct (wo_stopped w); [done|]. rewrite Eq in Hstep.
  destruct (handle env (set_queue q w) (CmdUnpair name) (wo_sv (set_queue q w))) as [[u s] es] eqn:Eh. injection Hstep as <-.
  pose proof (commit_committed (s, es) (set_queue q w)) as C.
  change (out id_show toml_parse p (commit (s, es) (set_queue q w))).
  pose proof (unpair_outcome id_parse toml_parse toml_print (en_io1 env) name (wo_sv w)) as U. cbv zeta in U.
  assert (after (unpair id_parse toml_parse toml_print (en_io1 env) name) (wo_sv w) = s ∧
    effects (unpair id_parse toml_parse toml_print (en_io1 env) name) (wo_sv w) = es) as [Es Ee].
  { cbn [MeshWorld.handle] in Eh. unfold after, effects. change (wo_sv (set_queue q w)) with (wo_sv w) in Eh.
    unfold mbind, M_bind in Eh. destruct (unpair _ _ _ _ _ _) as [[a s'] es']. cbn in Eh. injection Eh as <- <- <-.
    by rewrite app_nil_r. }
  rewrite Es, Ee in U. destruct U as [Hno _ _ _ _ _|id_str peer es Hok Hp Ed _ _ Es' _ Hes].
  { specialize (Hno _ Hrem). by rewrite Hids in Hno. }
  rewrite Hrem in Hok. injection Hok as <-. rewrite Hids in Hp. injection Hp as <-.
  assert (∀ m, m ∈ wo_queue (commit (s, es) (set_queue q w)) → harmless p m) as Hall.
  { intros m. rewrite (co_queue _ _ _ C). cbn. intros Hm. by eapply list.Forall_forall in Hq. }
  split.
  - rewrite (co_sv _ _ _ C). cbn [fst]. rewrite Ed. by eapply remove_not_stored.
  - rewrite (co_sv _ _ _ C). cbn [fst]. rewrite Es'. apply lookup_delete_eq.
  - rewrite (co_dials _ _ _ C). cbn [snd set_queue wo_dials]. rewrite Hes.
    destruct (sv_sessions (wo_sv w) !! p); cbn; by rewrite app_nil_r.
  - intros c Hc%Hall. done.
  - intros c Hc%Hall. done.
  - intros i nm obs Hc%Hall. done.
Qed.

Lemma init_slots d : slots own_id (mesh_init d).
Proof.
  split; cbn; [by intros p x ?|by intros p ?%not_elem_of_empty|by intros p c ?%not_elem_of_nil|constructor|by intros id ?%not_elem_of_nil|].
  by intros id [].
Qed.

Lemma reachable_slots d w : rtc mesh_step (mesh_init d) w → slots own_id w.
Proof.
  intros Hr. pose proof (init_slots d) as S. induction Hr as [|x y z [a Ha] _ IH]; [done|]. apply IH. by eapply slots_step.
Qed.

Lemma init_budget d : budget (mesh_init d).
Proof. split; cbn; [done|done| |done]. intros id. exists 0%nat. left. split; [lia|by left]. Qed.

Lemma reachable_budget d n w : nsteps mesh_step n (mesh_init d) w → Z.of_nat n < 2 ^ 64 →
  budget w ∧ sv_window_seq (wo_sv w) ≤ Z.of_nat n.
Proof.
  revert w. induction n as [|n IH]; intros w Hn Hlt.
  { inversion Hn; subst. split; [apply init_budget|done]. }
  apply nsteps_inv_r in Hn as (w1 & Hn & [a Ha]). destruct (IH w1 Hn ltac:(lia)) as [B Hs].
  destruct (budget_step _ _ _ _ _ _ _ _ _ _ _ _ _ Ha B) as [B' Hs']; [lia|]. split; [done|lia].
Qed.

Lemma run_actions_out (toml_roundtrip : ∀ m b, toml_print m = Some b → toml_parse b = Some m)
  (Hids : ∀ p, id_parse (id_show p) = Some p) p l w w' :
  run_actions l w = Some w' → slots own_id w → out id_show toml_parse p w → Forall (λ a, ~ pairs_with p a) l → out id_show toml_parse p w'.
Proof.
  revert w. induction l as [|a l IH]; intros w Hrun S O Hl; cbn in Hrun; [by injection Hrun as <-|].
  apply list.Forall_cons in Hl as [Ha Hl]. destruct (step_fn a w) as [w1|] eqn:Hs; [|done]. cbn in Hrun.
  eapply IH; [done|by eapply slots_step|by eapply out_step|done].
Qed.
End Theorems.

(** C17: No slot is lost.  In every world the service can reach, a session in
    the table belongs to another node, is of the connection's authenticated
    remote, and has a runner that has not ended or whose [SessionEnded] is in
    the queue; and a peer marked as being dialed has a dial in flight or its
    [DialDone] in the queue.  So neither a stale session nor a stale mark
    keeps a peer from being redialed. *)
Theorem mesh_slots_released id_parse id_show id_short relay_parse toml_parse toml_print store_text own_id our_hello pair_window d w
  (Hreach : rtc (mesh_step id_parse id_show id_short relay_parse toml_parse toml_print store_text own_id our_hello pair_window) (mesh_init d) w) :
  (∀ p x, sv_sessions (wo_sv w) !! p = Some x →
     p ≠ own_id ∧ cn_remote (se_conn x) = p ∧
     ∃ ph, wo_runners w !! cn_stable_id (se_conn x) = Some (MkRunner p ph) ∧
       (reported ph → SessionEnded p (cn_stable_id (se_conn x)) ∈ wo_queue w)) ∧
  (∀ p, p ∈ sv_dialing (wo_sv w) → p ∈ wo_dials w ∨ ∃ c, DialDone p c ∈ wo_queue w).
Proof.
  apply reachable_slots in Hreach as S. split.
  - intros p x Hx. by destruct (sl_session _ _ S p x Hx) as (? & ? & ?).
  - apply (sl_dialing _ _ S).
Qed.

(** C15: The budget of a pairing window.  In every run shorter than 2^64
    steps, each window records at most three failed attempts and at most one
    end, after which nothing more is recorded for it, whatever attempts of it
    are still running or report later; it ends with a pairing only before the
    third failure, and the third failure ends it. *)
Theorem window_budget id_parse id_show id_short relay_parse toml_parse toml_print store_text own_id our_hello pair_window d n w
  (Hrun : nsteps (mesh_step id_parse id_show id_short relay_parse toml_parse toml_print store_text own_id our_hello pair_window) n (mesh_init d) w)
  (Hn : Z.of_nat n < 2 ^ 64) id : within_budget (window_events id (wo_log w)).
Proof. destruct (reachable_budget _ _ _ _ _ _ _ _ _ _ _ _ _ Hrun Hn) as [B _]. apply (bu_all _ B). Qed.

(** C16: Out of the store, out of the mesh.  Once a peer is not in the store,
    has no session, and no dial, accepted connection or pairing of it is on
    its way, nothing but a new pairing with it brings it a session: no
    redial, no discovery, no accept, and no late update of its record.
    Unpairing by name gets there if nothing was on its way. *)
Theorem unpaired_stays_out id_parse id_show id_short relay_parse toml_parse toml_print store_text own_id our_hello pair_window d w p
  (toml_roundtrip : ∀ m b, toml_print m = Some b → toml_parse b = Some m)
  (Hids : ∀ q, id_parse (id_show q) = Some q)
  (Hreach : rtc (mesh_step id_parse id_show id_short relay_parse toml_parse toml_print store_text own_id our_hello pair_window) (mesh_init d) w) :
  (∀ l w', out id_show toml_parse p w → Forall (λ a, ~ pairs_with p a) l →
     run_actions id_parse id_show id_short relay_parse toml_parse toml_print store_text own_id our_hello pair_window l w = Some w' →
     sv_sessions (wo_sv w') !! p = None ∧ ∀ m, load toml_parse io_ok (sv_disk (wo_sv w')) = Ok m → m !! id_show p = None) ∧
  (∀ env name q w', wo_queue w = CmdUnpair name :: q →
     (remove_by_name toml_parse toml_print (en_io1 env) name (sv_disk (wo_sv w))).2 = Ok (id_show p) →
     p ∉ wo_dials w → Forall (harmless p) q →
     step_fn id_parse id_show id_short relay_parse toml_parse toml_print store_text own_id our_hello pair_window (Handle env) w = Some w' →
     out id_show toml_parse p w').
Proof.
  apply reachable_slots in Hreach as S. split.
  - intros l w' O Hl Hrun. pose proof (run_actions_out _ _ _ _ _ _ _ _ _ _ toml_roundtrip Hids p l w w' Hrun S O Hl) as O'.
    split; [apply O'|]. intros m Hm. by apply (ou_store _ _ _ _ O').
  - intros env name q w' Eq Hrem Hdials Hq Hstep. by eapply unpair_leaves_out.
Qed.

(** ** Examples *)
Definition ex_hello : Hello := MkHello PROTO_VERSION caps_current (MkEngineBuildHash "b1") "desk" "1.0".
Definition ex_run (d : Disk) (l : list Action) : option World :=
  run_actions ex_id_parse ex_id_show ex_id_show Some ex_parse ex_print (λ _, "store") 1 ex_hello (120 * SEC) l (mesh_init d).
Definition ex_step : World → World → Prop :=
  mesh_step ex_id_parse ex_id_show ex_id_show Some ex_parse ex_print (λ _, "store") 1 ex_hello (120 * SEC).

Lemma ex_run_nsteps d l w : ex_run d l = Some w → nsteps ex_step (length l) (mesh_init d) w.
Proof.
  unfold ex_run. generalize (mesh_init d). induction l as [|a l IH]; intros w0 Hrun; cbn in Hrun; [injection Hrun as <-; constructor|].
  destruct (step_fn _ _ _ _ _ _ _ _ _ _ a w0) as [w1|] eqn:Hs; [|done]. econstructor; [by exists a|]. by apply IH.
Qed.

Definition ex_env : Env := MkEnv SEC 100 io_ok io_ok io_ok (λ _, io_ok).
(** A pass dials the peer; while the dial is in flight the user unpairs it; the
    dial succeeds and its hello is exchanged. *)
Definition ex_race : list Action :=
  [Api ReconnectTick; Handle ex_env; Api (CmdUnpair "laptop"); Handle ex_env; DialEnds 0 true; Handle ex_env;
   HelloDone 0 ex_env ex_hello ([], None)].

Definition connected_unpaired (p : EndpointId) (w : World) : bool :=
  bool_decide (is_Some (sv_sessions (wo_sv w) !! p)) &&
  bool_decide (lv_state (live_of p (wo_sv w)) = Some Connected) &&
  match load ex_parse io_ok (sv_disk (wo_sv w)) with Ok m => bool_decide (m !! ex_id_show p = None) | _ => false end.

(** [unpair] does not stop a dial in flight, and [adopt_conn] does not ask the
    store: the unpaired peer ends with a session and is connected. *)
Theorem unpair_misses_dial :
  match ex_run ex_paired ex_race with Some w => connected_unpaired 7 w = true | None => False end.
Proof. vm_compute. reflexivity. Qed.

Definition ex_dial : list Action := [Api ReconnectTick; Handle ex_env].
Definition ex_pair : list Action :=
  [Api (CmdPairStart [Some 5]); Handle ex_env; Accept io_ok ALPN_PAIR 9; Handle ex_env; AttemptEnds 0 (Err Proto) ([], None); Handle ex_env].
Definition ex_out : list Action := [Api ReconnectTick; Handle ex_env; Accept io_ok ALPN_MESH 7; Api (TryDial 7); Handle ex_env].

Lemma ex_runs : bool_decide (is_Some (ex_run ex_paired ex_dial)) && bool_decide (is_Some (ex_run ex_paired ex_pair)) &&
  bool_decide (is_Some (ex_run (MkDisk None None) ex_out)) = true.
Proof. vm_compute. reflexivity. Qed.
Lemma ex_runs_some : is_Some (ex_run ex_paired ex_dial) ∧ is_Some (ex_run ex_paired ex_pair) ∧ is_Some (ex_run (MkDisk None None) ex_out).
Proof.
  pose proof ex_runs as H. apply andb_prop in H as [[H1 H2]%andb_prop H3].
  split_and!; [exact (bool_decide_eq_true_1 _ H1)|exact (bool_decide_eq_true_1 _ H2)|exact (bool_decide_eq_true_1 _ H3)].
Qed.

Lemma mesh_slots_released_witness :
  ∃ w, ex_run ex_paired ex_dial = Some w ∧
    ∀ p, p ∈ sv_dialing (wo_sv w) → p ∈ wo_dials w ∨ ∃ c, DialDone p c ∈ wo_queue w.
Proof.
  destruct ex_runs_some as [[w Hw] _]. exists w. split; [exact Hw|].
  exact (proj2 (mesh_slots_released _ _ _ _ _ _ _ _ _ _ _ _ (rtc_nsteps_2 _ _ _ (ex_run_nsteps _ _ _ Hw)))).
Defined.

Lemma window_budget_witness :
  ∃ w, ex_run ex_paired ex_pair = Some w ∧ within_budget (window_events 1 (wo_log w)).
Proof.
  destruct ex_runs_some as (_ & [w Hw] & _). exists w. split; [exact Hw|].
  exact (window_budget _ _ _ _ _ _ _ _ _ _ _ _ _ (ex_run_nsteps _ _ _ Hw) ltac:(reflexivity) 1).
Defined.

Lemma ex_init_out : out ex_id_show ex_parse 7 (mesh_init (MkDisk None None)).
Proof.
  split; cbn; [by intros m [= <-]|done|apply not_elem_of_nil|intros; apply not_elem_of_nil| |intros; apply not_elem_of_nil].
  by intros c ?%not_elem_of_nil.
Qed.

Lemma unpaired_stays_out_witness :
  ∃ w, ex_run (MkDisk None None) ex_out = Some w ∧ sv_sessions (wo_sv w) !! 7 = None.
Proof.
  destruct ex_runs_some as (_ & _ & [w Hw]). exists w. split; [exact Hw|].
  refine (proj1 (proj1 (unpaired_stays_out ex_id_parse ex_id_show ex_id_show Some ex_parse ex_print (λ _, "store") 1 ex_hello (120 * SEC)
    (MkDisk None None) (mesh_init (MkDisk None None)) 7 ex_roundtrip ex_ids (rtc_refl _ _)) ex_out w ex_init_out _ Hw)).
  repeat constructor; exact id.
Defined.
