(* ===== verification/Lan.v ===== *)
(** * LAN-first model logistics ([onebraind/src/logistics.rs])

    Weights come from paired peers first and from the web for the rest.  The
    state is one download directory with its range store, its regular files
    and its manifest; peers' answers, blob transfers (iroh-blobs), the web
    servers, BLAKE3 and hex are parameters.  Local file operations succeed. *)

From Stdlib Require Import ZArith Lia Ascii String.
From stdpp Require Import base list strings option gmap.
From S2P Require Import Prelude StrUtil Gguf Http Split Registry Download Cache Cluster Ranges.

Open Scope Z_scope.

(** ** Wire keys of models *)
Definition safe_component (s : string) : bool :=
  negb (String.eqb s "") && negb (String.eqb s ".") && negb (String.eqb s "..") && str_all is_safe s.

Definition strip_suffix (suffix s : string) : option string :=
  if ends_with suffix s then Some (str_take (String.length s - String.length suffix) s) else None.

Definition model_key_for_entry (id : string) : string := id.

Definition model_key_for_part (id part_file_name : string) : string :=
  let stem := match strip_suffix ".gguf" part_file_name with
              | Some s => s
              | None => default part_file_name (strip_suffix ".GGUF" part_file_name)
              end in
  id +:+ "/" +:+ PARTS_DIR +:+ "/" +:+ stem.

(** The path below the cache root, or none for a key this node never made. *)
Definition resolve_model_dir (model : string) : option (list string) :=
  match split_char "/" model with
  | [id] => if safe_component id then Some [id] else None
  | [id; mid; stem] =>
      if String.eqb mid PARTS_DIR && safe_component id && safe_component stem
      then Some [id; PARTS_DIR; stem] else None
  | _ => None
  end.

(** ** A download directory

    [ld_regular] are the complete regular files besides the two manifests,
    [ld_inflight] the [.part] files by the name before [.part]. *)
Record LanDir := MkLanDir {
  ld_ranges : option RangeManifest;
  ld_files : gmap (Z * Z) bytes;
  ld_parts : gmap (Z * Z) bytes;
  ld_regular : gmap string bytes;
  ld_inflight : gmap string bytes;
  ld_doc : jdoc }.

Definition empty_dir : LanDir := MkLanDir None ∅ ∅ ∅ ∅ None.

Definition set_range_store (k : Ranges.Disk) (d : LanDir) : LanDir :=
  MkLanDir (d_manifest k) (d_files k) (d_parts k) (ld_regular d) (ld_inflight d) (ld_doc d).
Definition write_range (k : Z * Z) (c : bytes) (d : LanDir) : LanDir :=
  MkLanDir (ld_ranges d) (<[k := c]> (ld_files d)) (ld_parts d) (ld_regular d) (ld_inflight d) (ld_doc d).
Definition drop_range_dir (d : LanDir) : LanDir :=
  MkLanDir (ld_ranges d) ∅ ∅ (ld_regular d) (ld_inflight d) (ld_doc d).
Definition write_regular (name : string) (c : bytes) (d : LanDir) : LanDir :=
  MkLanDir (ld_ranges d) (ld_files d) (ld_parts d) (<[name := c]> (ld_regular d)) (ld_inflight d) (ld_doc d).
Definition set_inflight (f : gmap string bytes → gmap string bytes) (d : LanDir) : LanDir :=
  MkLanDir (ld_ranges d) (ld_files d) (ld_parts d) (ld_regular d) (f (ld_inflight d)) (ld_doc d).
Definition set_doc (doc : jdoc) (d : LanDir) : LanDir :=
  MkLanDir (ld_ranges d) (ld_files d) (ld_parts d) (ld_regular d) (ld_inflight d) doc.

Inductive LanError :=
  | LUnavailable (start stop : Z)
  | LRange (e : RangeError)
  | LGguf (e : GgufError)
  | LNoHeader
  | LGap (at_byte : Z)
  | LShort (covered total : Z)
  | LIo
  | LSizeMismatch (size promised : Z)
  | LBlob
  | LDownload (e : DownloadError)
  | LVanished.

(** What one operation moved. *)
Record FetchOutcome := MkFetched { p2p_bytes : Z; wan_bytes : Z }.

Inductive Shared := ShareRange (k : Z * Z) | ShareFile (name : string).

(** The directory, the requests sent to the web and to peers, what was shared
    into the blob store, and the progress reports. *)
Record Lan := MkLan {
  la_dir : LanDir;
  la_web : nat;
  la_blobs : nat;
  la_shared : list Shared;
  la_progress : list (Z * Z) }.

Definition on_dir (f : LanDir → LanDir) (w : Lan) : Lan :=
  MkLan (f (la_dir w)) (la_web w) (la_blobs w) (la_shared w) (la_progress w).
Definition set_web (n : nat) (w : Lan) : Lan := MkLan (la_dir w) n (la_blobs w) (la_shared w) (la_progress w).
Definition blob_sent (w : Lan) : Lan := MkLan (la_dir w) (la_web w) (S (la_blobs w)) (la_shared w) (la_progress w).
Definition share (x : Shared) (w : Lan) : Lan :=
  MkLan (la_dir w) (la_web w) (la_blobs w) (la_shared w ++ [x]) (la_progress w).
Definition progress (p : Z * Z) (w : Lan) : Lan :=
  MkLan (la_dir w) (la_web w) (la_blobs w) (la_shared w) (la_progress w ++ [p]).

Section Logistics.
Context {Hash : Type} (hex_encode : Hash → string) (hex_hash : string → option Hash).
(** The order in which [read_dir] lists the regular files. *)
Context (listing : gmap string bytes → list (string * bytes)).
Context (blake3 : bytes → string).
(** The [n]-th request's reply, for ranges, headers and whole files of a URL. *)
Context (web web_header : string → nat → Z → Z → Reply) (web_file : string → nat → Z → Reply).
(** The [n]-th blob transfer from a peer: the content it wrote, and the bytes
    that crossed the network, or a failure. *)
Context (blob : nat → string → Hash → option (bytes * Z)).

Definition WireRange : Type := Z * Z * Hash.

(** ** What is there *)
Definition model_file_step (best : option (string * bytes)) (e : string * bytes) : option (string * bytes) :=
  if String.eqb e.1 MANIFEST_FILE || String.eqb e.1 RANGES_MANIFEST_FILE || ends_with ".part" e.1 then best
  else match best with
       | Some b => if len b.2 <? len e.2 then Some e else best
       | None => Some e
       end.
Definition model_file (d : LanDir) : option (string * bytes) := foldl model_file_step None (listing (ld_regular d)).

(** The range store of the directory. *)
Definition range_store (d : LanDir) : Ranges.Disk :=
  Ranges.MkDisk (ld_ranges d) (ld_files d) (ld_parts d) (snd <$> model_file d).

Definition range_file_ok (d : LanDir) (k : Z * Z) : bool :=
  match ld_files d !! k with Some c => len c =? sat_sub k.2 k.1 | None => false end.

Definition cmp_wire (a b : WireRange) : comparison := cmp_then (a.1.1 ?= b.1.1) (a.1.2 ?= b.1.2).

(** What the directory can serve: its range files, and a completed full file
    as one range. *)
Definition inventory_of_dir (d : LanDir) : option (Z * list WireRange) :=
  let '(total, out) :=
    match ld_ranges d with
    | None => (0, [])
    | Some m =>
        (rm_total_size m,
         omap (λ e, if range_file_ok d (entry_key e) then (λ h, (entry_key e, h)) <$> hex_hash (re_blake3 e) else None)
           (rm_ranges m))
    end in
  let '(total, out) :=
    match read_manifest (ld_doc d) with
    | Some m =>
        let complete := match model_file d with
                        | Some f => (len f.2 =? mf_size_bytes m) && (0 <? mf_size_bytes m)
                        | None => false
                        end in
        match (if complete then hex_hash (mf_blake3 m) else None) with
        | Some h => (mf_size_bytes m, out ++ [(0, mf_size_bytes m, h)])
        | None => (total, out)
        end
    | None => (total, out)
    end in
  match out with [] => None | _ => Some (total, sort_by cmp_wire out) end.

(** [LocalRangeInventory::inventory], over the directories below the root. *)
Definition inventory (root : list string → LanDir) (model : string) : option (Z * list WireRange) :=
  path ← resolve_model_dir model; inventory_of_dir (root path).

(** ** What the peers offer *)
Record PeerOffers := MkOffers { po_total_size : Z; po_ranges : gmap (Z * Z) (string * Hash) }.
Definition no_offers : PeerOffers := MkOffers 0 ∅.

Definition full_file (o : PeerOffers) : option (string * Hash) :=
  if po_total_size o =? 0 then None else po_ranges o !! (0, po_total_size o).

(** A peer as the mesh reports it, and its answer to the range query. *)
Record QueryPeer := MkQueryPeer { qp_id : string; qp_state : PeerState; qp_answer : option (Z * list WireRange) }.

Definition add_offer (id : string) (ranges : gmap (Z * Z) (string * Hash)) (r : WireRange) : gmap (Z * Z) (string * Hash) :=
  match ranges !! r.1 with Some _ => ranges | None => <[r.1 := (id, r.2)]> ranges end.

Definition offer_step (o : PeerOffers) (p : QueryPeer) : PeerOffers :=
  match qp_state p, qp_answer p with
  | Connected, Some (total, ranges) =>
      if match ranges with [] => true | _ => false end || (total =? 0) then o
      else if negb (po_total_size o =? 0) && negb (po_total_size o =? total) then o
      else MkOffers total (foldl (add_offer (qp_id p)) (po_ranges o) ranges)
  | _, _ => o
  end.

Definition query_peer_offers (peers : list QueryPeer) : PeerOffers := foldl offer_step no_offers peers.

(** ** Fetching a plan *)
Definition locally_present (d : LanDir) (start stop : Z) : bool :=
  range_file_ok d (start, stop)
  || match ld_ranges d with
     | Some m =>
         existsb (λ e, (re_start e <=? start) && (stop <=? re_end e) &&
           match ld_files d !! entry_key e with Some c => len c =? u64_sub (re_end e) (re_start e) | None => false end)
           (rm_ranges m)
     | None => false
     end
  || match model_file d with Some f => stop <=? len f.2 | None => false end.

(** One range from a peer; [None] if it is not offered or the transfer fails. *)
Definition fetch_from_peer (o : PeerOffers) (k : Z * Z) (w : Lan) : option Z * Lan :=
  match po_ranges o !! k with
  | None => (None, w)
  | Some (peer, hash) =>
      match blob (la_blobs w) peer hash with
      | Some (c, n) => (Some n, on_dir (write_range k c) (blob_sent w))
      | None => (None, blob_sent w)
      end
  end.

Fixpoint fetch_from_peers (o : PeerOffers) (rs : list ByteRange) (p2p : Z) (w : Lan) : Z * Lan :=
  match rs with
  | [] => (p2p, w)
  | r :: rs =>
      if locally_present (la_dir w) (br_start r) (br_end r) then fetch_from_peers o rs p2p w
      else
        match fetch_from_peer o (range_key r) w with
        | (Some n, w) => fetch_from_peers o rs (u64_add p2p n) w
        | (None, w) => fetch_from_peers o rs p2p w
        end
  end.

(** [ranges::fetch_ranges] into the directory. *)
Definition fetch_ranges_into (url : string) (plan : RangePlan) (w : Lan) : res RangeError Z * Lan :=
  let '(r, rw) := fetch_ranges (web url) blake3 url plan (MkWorld (range_store (la_dir w)) (la_web w) []) in
  (r, set_web (w_sent rw) (on_dir (set_range_store (w_disk rw)) w)).

Definition fetch_plan_core (url : string) (o : PeerOffers) (plan : RangePlan) (w : Lan) : res LanError FetchOutcome * Lan :=
  let '(p2p, w) := fetch_from_peers o (rp_ranges plan) 0 w in
  let missing := find_first (λ r, negb (locally_present (la_dir w) (br_start r) (br_end r))) (rp_ranges plan) in
  match (if String.eqb url "" then missing else None) with
  | Some r => (Err (LUnavailable (br_start r) (br_end r)), w)
  | None =>
      let effective_url := if String.eqb url "" then default "" (rm_url <$> ld_ranges (la_dir w)) else url in
      match fetch_ranges_into effective_url plan w with
      | (Ok wan, w) => (Ok (MkFetched p2p wan), w)
      | (Err e, w) => (Err (LRange e), w)
      | (Panic, w) => (Panic, w)
      end
  end.

(** Every range file of the plan goes into the blob store. *)
Definition share_plan_ranges (plan : RangePlan) (w : Lan) : Lan :=
  foldl (λ w r, if match ld_files (la_dir w) !! range_key r with
                    | Some c => len c =? u64_sub (br_end r) (br_start r)
                    | None => false
                    end then share (ShareRange (range_key r)) w else w) w (rp_ranges plan).

(** ** Obtaining a header *)
Definition FUEL : nat := 64.

(** The smallest range at the start of the file that is not all of it. *)
Definition peer_header (o : PeerOffers) : option (Z * Z * (string * Hash)) :=
  foldl (λ best e, match best with
                   | Some b => if e.1.2 <? b.1.2 then Some e else best
                   | None => Some e
                   end) None
    (filter (λ e : Z * Z * (string * Hash), (e.1.1 =? 0) && (e.1.2 <? po_total_size o) = true) (map_to_list (po_ranges o))).

Definition local_header (d : LanDir) : option (GgufHeader * Z) :=
  match model_file d with
  | Some f => match parse_local_header FUEL f.2 with Ok h => Some (h, len f.2) | _ => None end
  | None => None
  end.

Definition cached_header (d : LanDir) : option (GgufHeader * Z) :=
  m ← ld_ranges d;
  if 0 <? rm_header_len m then
    match read_range (range_store d) 0 (rm_header_len m) with
    | Ok b => match parse b with Ok h => Some (h, rm_total_size m) | _ => None end
    | _ => None
    end
  else None.

Definition web_header_of (url : string) (w : Lan) : res LanError (GgufHeader * Z * Z) :=
  if String.eqb url "" then Err LNoHeader
  else '(h, total) ← map_err LRange (fetch_remote_header (λ n, web_header url (la_web w + n)) FUEL); Ok (h, total, 0).

(** The header, the size of the file and the bytes that came from peers. *)
Definition obtain_header (url : string) (o : PeerOffers) (w : Lan) : res LanError (GgufHeader * Z * Z) * Lan :=
  match local_header (la_dir w) with
  | Some (h, size) => (Ok (h, size, 0), w)
  | None =>
      match cached_header (la_dir w) with
      | Some (h, size) => (Ok (h, size, 0), w)
      | None =>
          match peer_header o with
          | Some (k, (peer, hash)) =>
              match blob (la_blobs w) peer hash with
              | Some (c, n) =>
                  let w := on_dir (write_range k c) (blob_sent w) in
                  match parse c with
                  | Ok h => (Ok (h, po_total_size o, n), w)
                  | _ => (web_header_of url w, w)
                  end
              | None => let w := blob_sent w in (web_header_of url w, w)
              end
          | None => (web_header_of url w, w)
          end
      end
  end.

Definition all_layers (h : GgufHeader) : list Z := omap (λ t, tensor_layer (ti_name t)) (gh_tensors h).

(** ** A whole file from a peer *)
Definition write_merged_manifest (url : string) (size : Z) (hash : string) (d : LanDir) : LanDir :=
  set_doc (write_manifest (ld_doc d) (MkManifest url size hash)) d.

Definition fetch_full_blob (peer : string) (hash : Hash) (total_size : Z) (file_name url : string) (w : Lan) :
    res LanError Z * Lan :=
  match blob (la_blobs w) peer hash with
  | None => (Err LBlob, blob_sent w)
  | Some (c, n) =>
      let w := on_dir (write_regular file_name c) (blob_sent w) in
      if len c =? total_size then (Ok n, on_dir (write_merged_manifest url (len c) (hex_encode hash)) w)
      else (Err (LSizeMismatch (len c) total_size), w)
  end.

(** ** The fetch of a worker: the header and the ranges of its layers *)
Record LayerFetch := MkLayerFetch { lf_outcome : FetchOutcome; lf_header : GgufHeader; lf_total_size : Z }.

Definition fetch_layers (peers : list QueryPeer) (url file_name : string) (layers : list Z) (w : Lan) :
    res LanError LayerFetch * Lan :=
  let o := query_peer_offers peers in
  match obtain_header url o w with
  | (Panic, w) => (Panic, w)
  | (Err e, w) =>
      match full_file o with
      | None => (Err e, w)
      | Some (peer, hash) =>
          let name := if String.eqb file_name "" then "model.gguf" else file_name in
          match fetch_full_blob peer hash (po_total_size o) name url w with
          | (Ok n, w) =>
              (f ← ok_or (model_file (la_dir w)) LVanished;
               h ← map_err LRange (parse_local_header FUEL f.2);
               Ok (MkLayerFetch (MkFetched n 0) h (len f.2)), w)
          | (Err e, w) => (Err e, w)
          | (Panic, w) => (Panic, w)
          end
      end
  | (Ok (h, total, header_p2p), w) =>
      match plan_ranges h total layers with
      | Err e => (Err (LGguf e), w)
      | Panic => (Panic, w)
      | Ok plan =>
          match fetch_plan_core url o plan w with
          | (Ok out, w) =>
              (Ok (MkLayerFetch (MkFetched (u64_add (p2p_bytes out) header_p2p) (wan_bytes out)) h total),
               share_plan_ranges plan w)
          | (Err e, w) => (Err e, w)
          | (Panic, w) => (Panic, w)
          end
      end
  end.

(** The download of a model id that is a reference of the registry. *)
Definition web_route (registry : list (string * RegistryEntry)) (path_exists : string → bool) (ob_hf_base_url : option string)
    (model : string) : option DownloadSpec :=
  match r ← from_str registry path_exists model; resolve registry ob_hf_base_url r with
  | Ok (Remote spec) => Some spec
  | _ => None
  end.

(** None for a model that is not fetched by range. *)
Definition fetch_layer_ranges (registry : list (string * RegistryEntry)) (path_exists : string → bool)
    (ob_hf_base_url : option string) (has_parts_dir : bool) (model : string)
    (peers : list QueryPeer) (layers : list Z) (w : Lan) : res LanError (option LayerFetch) * Lan :=
  match resolve_model_dir model with
  | None => (Ok None, w)
  | Some _ =>
      let '(url, file_name, is_split) :=
        match web_route registry path_exists ob_hf_base_url model with
        | Some spec => (ds_url spec, ds_file_name spec,
                        match parse_split_name (ds_file_name spec) with Some _ => true | None => false end)
        | None => ("", "", false)
        end in
      if is_split || has_parts_dir then (Ok None, w)
      else match fetch_layers peers url file_name layers w with
           | (r, w) => (Some <$> r, w)
           end
  end.

(** ** Whole files, LAN first *)

(** The plan must tile the file. *)
Fixpoint tiles (expect : Z) (rs : list ByteRange) : res LanError Z :=
  match rs with
  | [] => Ok expect
  | r :: rs => if br_start r =? expect then tiles (br_end r) rs else Err (LGap expect)
  end.

(** The range files one after the other, or what was written before one
    could not be opened. *)
Fixpoint concat_ranges (d : LanDir) (rs : list ByteRange) (out : bytes) : bool * bytes :=
  match rs with
  | [] => (true, out)
  | r :: rs => match ld_files d !! range_key r with
               | Some c => concat_ranges d rs (out ++ c)
               | None => (false, out)
               end
  end.

Definition assemble_file (spec : DownloadSpec) (total : Z) (rs : list ByteRange) (w : Lan) : res LanError unit * Lan :=
  let tmp := ds_file_name spec +:+ ".assemble" in
  match concat_ranges (la_dir w) rs [] with
  | (false, part) => (Err LIo, on_dir (set_inflight (<[tmp := part]>)) w)
  | (true, f) =>
      let w := on_dir (λ d, write_regular (ds_file_name spec) f (set_inflight (delete tmp) d)) w in
      if len f =? total then
        (Ok (), on_dir (λ d, drop_range_dir (write_merged_manifest (ds_url spec) (len f) (blake3 f) d)) w)
      else (Err (LSizeMismatch (len f) total), w)
  end.

Definition assemble_from_ranges (spec : DownloadSpec) (o : PeerOffers) (w : Lan) : res LanError unit * Lan :=
  match obtain_header (ds_url spec) o w with
  | (Panic, w) => (Panic, w)
  | (Err e, w) => (Err e, w)
  | (Ok (h, total, _), w) =>
      match plan_ranges h total (all_layers h) with
      | Err e => (Err (LGguf e), w)
      | Panic => (Panic, w)
      | Ok plan =>
          match tiles 0 (rp_ranges plan) with
          | Err e => (Err e, w)
          | Panic => (Panic, w)
          | Ok covered =>
              if negb (covered =? total) then (Err (LShort covered total), w)
              else
                match fetch_plan_core (ds_url spec) o plan w with
                | (Ok _, w) => assemble_file spec total (rp_ranges plan) w
                | (Err e, w) => (Err e, w)
                | (Panic, w) => (Panic, w)
                end
          end
      end
  end.

(** Index the file if nothing is, and share it. *)
Definition finish_completed_file (url : string) (w : Lan) : res LanError unit * Lan :=
  let indexed :=
    match present_ranges (range_store (la_dir w)) with
    | [] => match index_full_file blake3 FUEL url (range_store (la_dir w)) with
            | Ok (_, k) => Ok (on_dir (set_range_store k) w)
            | Err _ => Ok w
            | Panic => Panic
            end
    | _ => Ok w
    end in
  match indexed with
  | Ok w => (Ok (), match model_file (la_dir w) with Some f => share (ShareFile f.1) w | None => w end)
  | Err e => (Err e, w)
  | Panic => (Panic, w)
  end.

(** The cached file, if this very file completed earlier. *)
Definition cached_file (spec : DownloadSpec) (d : LanDir) : option Z :=
  m ← read_manifest (ld_doc d);
  f ← ld_regular d !! ds_file_name spec;
  if String.eqb (mf_url m) (ds_url spec) && (len f =? mf_size_bytes m) then Some (mf_size_bytes m) else None.

(** [download::download] into the directory. *)
Definition plain_download (spec : DownloadSpec) (w : Lan) : res LanError unit * Lan :=
  let d := la_dir w in
  let '(r, dl) := download (web_file (ds_url spec)) blake3 spec
                    (MkDl (ld_regular d) (ld_inflight d) (ld_doc d) (la_web w) (la_progress w)) in
  let d := MkLanDir (ld_ranges d) (ld_files d) (ld_parts d) (dl_files dl) (dl_parts dl) (dl_doc dl) in
  (map_err LDownload r, MkLan d (dl_sent dl) (la_blobs w) (la_shared w) (dl_progress dl)).

Definition download_one_lan_first (peers : list QueryPeer) (spec : DownloadSpec) (w : Lan) : res LanError unit * Lan :=
  match cached_file spec (la_dir w) with
  | Some size =>
      match (match present_ranges (range_store (la_dir w)) with
             | [] => finish_completed_file (ds_url spec) w
             | _ => (Ok (), w)
             end) with
      | (r, w) => (r, progress (size, size) w)
      end
  | None =>
      let o := query_peer_offers peers in
      let done w := finish_completed_file (ds_url spec) (progress (po_total_size o, po_total_size o) w) in
      let from_web w :=
        match plain_download spec w with
        | (Ok _, w) => finish_completed_file (ds_url spec) w
        | r => r
        end in
      let from_ranges w :=
        if bool_decide (po_ranges o = ∅) then from_web w
        else match assemble_from_ranges spec o w with
             | (Ok _, w) => done w
             | (Err _, w) => from_web w
             | (Panic, w) => (Panic, w)
             end in
      match full_file o with
      | Some (peer, hash) =>
          match fetch_full_blob peer hash (po_total_size o) (ds_file_name spec) (ds_url spec) w with
          | (Ok _, w) => done w
          | (Err _, w) => from_ranges w
          | (Panic, w) => (Panic, w)
          end
      | None => from_ranges w
      end
  end.
End Logistics.
