(* ===== verification/LanOk.v ===== *)
(** * LAN-first fetches give the file

    With peers whose inventories are true and servers that serve one file,
    whatever transfers fail: every range and every completed file a node
    stores is that file's, and a node that its peers can serve sends no
    request to the web.  At the end, runs in which peers hold two versions of
    one size, or the range store is of another version. *)

From Stdlib Require Import ZArith Lia Ascii String.
From stdpp Require Import base list strings option gmap.
From S2P Require Import Prelude StrUtil Gguf Http Split Registry Download Cache Cluster Ranges RangeFetch RangeContent RangePlan Lan.

Open Scope Z_scope.

(** ** Plans *)
Lemma plan_ranges_total h fs layers : plan_ranges h fs layers ≠ Panic.
Proof.
  unfold plan_ranges, tensor_ranges. pose proof (ranges_from_total (gh_data_offset h) fs (sort_by (cmp_key ti_offset) (gh_tensors h))).
  by destruct (ranges_from _ _ _).
Qed.

Lemma ranges_from_start d fs ts trs : ranges_from d fs ts = Ok trs → Forall (λ tr, 0 ≤ tr_start tr) trs.
Proof.
  revert trs. induction ts as [|t ts IH]; intros trs H; cbn [ranges_from] in H; [injection H as <-; constructor|].
  destruct (_ || _); [done|]. destruct (ranges_from d fs ts) as [out| |]; [|done..]. injection H as <-.
  constructor; [apply wrap64_range|by apply IH].
Qed.

Lemma plan_ranges_bounds h fs layers plan :
  plan_ranges h fs layers = Ok plan → rp_total_size plan = fs ∧ Forall (λ r, 0 ≤ br_start r) (rp_ranges plan).
Proof.
  unfold plan_ranges, tensor_ranges. intros H. destruct (ranges_from _ _ _) as [trs| |] eqn:E; [|done..].
  apply ranges_from_start in E. cbn [mbind res_bind] in H. set (wanted := filter _ trs) in H.
  assert (Forall (λ r, 0 ≤ br_start r) (MkByteRange 0 (gh_data_offset h) ::
    ((λ tr, MkByteRange (tr_start tr) (tr_end tr)) <$> wanted))) as Hw.
  { constructor; [done|]. apply Forall_fmap, list.Forall_forall. intros tr [_ Htr]%list_elem_of_filter.
    rewrite list.Forall_forall in E. by apply E. }
  assert (plan = MkRangePlan fs (gh_data_offset h) (sort_by cmp_range (MkByteRange 0 (gh_data_offset h) ::
    ((λ tr, MkByteRange (tr_start tr) (tr_end tr)) <$> wanted)))) as -> by congruence.
  split; [done|]. apply list.Forall_forall. intros r Hr.
  rewrite list.Forall_forall in Hw. apply Hw. rewrite <- (sort_by_Permutation cmp_range). exact Hr.
Qed.

(** ** What a fetch keeps besides the ranges *)
Definition total_is (t : Z) (d : Ranges.Disk) : Prop := ∀ m, d_manifest d = Some m → rm_total_size m = t.
Definition kept (t : Z) (d d' : Ranges.Disk) : Prop := total_is t d' ∧ d_model d' = d_model d.

Section Total.
Context (server : nat → Z → Z → Reply) (blake3 : bytes → string).

Lemma download_range_kept t total r st w o w' :
  br_start r < br_end r → total_is t (w_disk w) → rm_total_size (f_manifest st) = t →
  download_range server blake3 total r st w = (o, w') →
  kept t (w_disk w) (w_disk w') ∧ ∀ st', o = Ok st' → rm_total_size (f_manifest st') = t.
Proof using.
  intros Hr Ht Hm H. unfold download_range, fetch_one_range in H.
  destruct (fetch_attempts _ _ _ _ _ _ _ _ _) as [o1 w1] eqn:E. apply fetch_attempts_spec in E as (Hp & Hok & Herr); [|done].
  destruct o1 as [[h n]|e|]; [| |done].
  - injection H as <- <-. split; [|by intros st' [= <-]]. destruct (Hok h n eq_refl) as (c & [_ _ Hmod _] & _).
    split; [|exact Hmod]. by intros m [= <-].
  - injection H as <- <-. split; [|done]. destruct (Herr e eq_refl) as [_ Hman Hmod _]. split; [|exact Hmod].
    intros m. rewrite Hman. apply Ht.
Qed.

Lemma fetch_step_kept t total r st w o w' :
  br_start r < br_end r → total_is t (w_disk w) → rm_total_size (f_manifest st) = t →
  fetch_step server blake3 total r st w = (o, w') →
  kept t (w_disk w) (w_disk w') ∧ ∀ st', o = Ok st' → rm_total_size (f_manifest st') = t.
Proof using.
  intros Hr Ht Hm H. unfold fetch_step in H. cbv zeta in H.
  set (dropped := on_disk (λ d, set_files (delete (range_key r) (d_files d)) d) w) in H.
  assert (download_range server blake3 total r st dropped = (o, w') →
    kept t (w_disk w) (w_disk w') ∧ ∀ st', o = Ok st' → rm_total_size (f_manifest st') = t) as Hdrop
    by (intros Hd; by apply (download_range_kept t) in Hd).
  destruct (d_files (w_disk w) !! range_key r) as [c|]; [|by eapply download_range_kept].
  destruct (len c =? br_len r); [|by apply Hdrop].
  destruct (recorded _ _) as [e|]; [destruct (negb _)|]; cbn iota in H.
  - by apply Hdrop.
  - injection H as <- <-. split; [done|]. by intros st' [= <-].
  - injection H as <- <-. split; [split; [by intros m [= <-]|done]|]. by intros st' [= <-].
Qed.

Lemma fetch_loop_kept t total rs st w o w' :
  Forall (λ r, br_start r < br_end r) rs → total_is t (w_disk w) → rm_total_size (f_manifest st) = t →
  fetch_loop server blake3 total rs st w = (o, w') → kept t (w_disk w) (w_disk w').
Proof using.
  intros Hrs. revert st w. induction Hrs as [|r rs Hr Hrs IH]; intros st w Ht Hm H; cbn [fetch_loop] in H; [by injection H as _ <-|].
  destruct (fetch_step server blake3 total r st w) as [o1 w1] eqn:E.
  apply (fetch_step_kept t) in E as [[Ht1 Hmod1] Hm1]; [|done..].
  destruct o1 as [st1|e|]; [|by injection H as _ <-..].
  apply IH in H as [Ht2 Hmod2]; [|done|by apply Hm1]. split; [done|congruence].
Qed.

Lemma fetch_ranges_kept url plan w o w' :
  total_is (rp_total_size plan) (w_disk w) → fetch_ranges server blake3 url plan w = (o, w') →
  kept (rp_total_size plan) (w_disk w) (w_disk w').
Proof using.
  intros Ht H. unfold fetch_ranges in H.
  destruct (find_first (invalid plan) (rp_ranges plan)) as [bad|] eqn:Ei; [by injection H as _ <-|].
  apply plan_valid in Ei. cbv zeta in H. cbn [w_disk report] in H.
  destruct (match d_model (w_disk w) with Some f => len f =? rp_total_size plan | None => false end); [by injection H as _ <-|].
  pose proof (starting_ok url plan (w_disk w)) as Hst. unfold total_is in Ht.
  destruct (starting_manifest url plan (w_disk w)) as [m d1] eqn:Esm. destruct Hst as (_ & Hm & Hmod & _).
  assert (total_is (rp_total_size plan) d1) as Ht1.
  { unfold starting_manifest in Esm. destruct (d_manifest (w_disk w)) as [m0|] eqn:E0.
    - specialize (Ht m0 eq_refl). rewrite (proj2 (Z.eqb_eq _ _) Ht) in Esm. injection Esm as _ <-. intros m1 Hm1. congruence.
    - injection Esm as _ <-. intros m1 Hm1. congruence. }
  eapply fetch_loop_kept in H; [|eapply Forall_impl; [exact Ei|]; simpl; tauto|exact Ht1|exact Hm].
  destruct H as [H1 H2]. split; [exact H1|]. rewrite H2. exact Hmod.
Qed.
End Total.

(** ** A LAN that serves one file *)
Section Honest.
Context {Hash : Type} (hex_encode : Hash → string).
Context (listing : gmap string bytes → list (string * bytes)).
Context (digest : bytes → Hash).
Context (web web_header : string → nat → Z → Z → Reply) (web_file : string → nat → Z → Reply).
Context (blob : nat → string → Hash → option (bytes * Z)).
Context (F : bytes).

Definition blake3_hex (c : bytes) : string := hex_encode (digest c).

(** Transfers are verified against the hash asked for, the hash tells pieces
    of the file from anything else, and the servers serve the file. *)
Record lan_serves : Prop := {
  ls_listing m : listing m ≡ₚ map_to_list m;
  ls_blob n peer h c b : blob n peer h = Some (c, b) → digest c = h;
  ls_digest c k : digest c = digest (slice F k) → c = slice F k;
  ls_web url : honest F (web url);
  ls_header url : serves F (web_header url);
  ls_file url : dl_honest F (web_file url);
  ls_size : 0 < len F < 2 ^ 63 }.

(** A peer's inventory is true. *)
Definition true_offer (total : Z) (r : WireRange (Hash := Hash)) : Prop :=
  total = len F ∧ 0 ≤ r.1.1 ∧ r.2 = digest (slice F r.1).
Definition true_peer (p : QueryPeer (Hash := Hash)) : Prop :=
  ∀ total rs, qp_answer p = Some (total, rs) → Forall (true_offer total) rs.

(** The directory holds only the file and pieces of it. *)
Record lan_clean (name : string) (d : LanDir) : Prop := {
  lc_files k c : ld_files d !! k = Some c → 0 ≤ k.1 ∧ c = slice F k;
  lc_parts k p : ld_parts d !! k = Some p → p `prefix_of` slice F k;
  lc_regular n c : ld_regular d !! n = Some c → c = F;
  lc_inflight p : ld_inflight d !! name = Some p → p `prefix_of` F;
  lc_total m : ld_ranges d = Some m → rm_total_size m = len F }.

Section Clean.
Context (Hserves : lan_serves) (name : string).
Notation model_file := (model_file listing).
Notation range_store := (range_store listing).
Notation lan_clean := (lan_clean name).

Lemma model_file_elem d e : model_file d = Some e → ld_regular d !! e.1 = Some e.2.
Proof using Hserves.
  intros H. assert (e ∈ listing (ld_regular d)) as Hin.
  { revert H. unfold Lan.model_file.
    enough (∀ l best, foldl model_file_step best l = Some e → best = Some e ∨ e ∈ l) as Hg
      by (intros H; by destruct (Hg _ _ H)).
    induction l as [|x l IH]; intros best H; [by left|]. apply IH in H as [H|H]; [|right; by right].
    unfold model_file_step in H. destruct (_ || _); [by left|]. destruct best as [b|].
    - destruct (_ <? _); [right; injection H as <-; by left|by left].
    - injection H as <-. right; by left. }
  rewrite (ls_listing Hserves) in Hin. destruct e as [n c]. by apply elem_of_map_to_list in Hin.
Qed.

Lemma model_file_clean d e : lan_clean d → model_file d = Some e → e.2 = F.
Proof using Hserves. intros C H%model_file_elem. by eapply lc_regular. Qed.

Lemma range_store_clean d : lan_clean d → clean F (range_store d).
Proof using Hserves.
  intros C. split; cbn; [apply (lc_files _ _ C)|apply (lc_parts _ _ C)|].
  intros f Hf. apply fmap_Some in Hf as (e & He & ->). by eapply model_file_clean.
Qed.

Lemma set_range_store_clean d k : lan_clean d → clean F k → total_is (len F) k → lan_clean (set_range_store k d).
Proof using. intros [A B C D E] [A' B' C'] T. by split. Qed.

Lemma write_range_clean d k c : lan_clean d → 0 ≤ k.1 → c = slice F k → lan_clean (write_range k c d).
Proof using.
  intros [A B C D E] Hk ->. split; try done. intros k' c'. cbn. destruct (decide (k' = k)) as [->|].
  - rewrite lookup_insert_eq. by intros [= <-].
  - rewrite lookup_insert_ne by done. apply A.
Qed.

Lemma write_regular_clean n0 d : lan_clean d → lan_clean (write_regular n0 F d).
Proof using.
  intros [A B C D E]. split; try done. intros n c. cbn. destruct (decide (n = n0)) as [->|].
  - rewrite lookup_insert_eq. by intros [= <-].
  - rewrite lookup_insert_ne by done. apply C.
Qed.

(** The complete files and their manifest are as before. *)
Definition same_files (d d' : LanDir) : Prop := ld_regular d' = ld_regular d ∧ ld_doc d' = ld_doc d.

(** ** Offers *)
Definition offers_ok (o : PeerOffers (Hash := Hash)) : Prop :=
  (po_total_size o = len F ∨ po_ranges o = ∅) ∧
  ∀ k peer h, po_ranges o !! k = Some (peer, h) → 0 ≤ k.1 ∧ h = digest (slice F k).

Lemma add_offers_ok total id rs ranges :
  Forall (true_offer total) rs →
  (∀ k peer h, ranges !! k = Some (peer, h) → 0 ≤ k.1 ∧ h = digest (slice F k)) →
  ∀ k peer h, foldl (add_offer id) ranges rs !! k = Some (peer, h) → 0 ≤ k.1 ∧ h = digest (slice F k).
Proof using.
  intros Hrs. revert ranges. induction Hrs as [|r rs (_ & H0 & Hh) Hrs IH]; intros ranges Hr; [exact Hr|].
  apply IH. intros k peer h. unfold add_offer. destruct (ranges !! r.1) as [x|] eqn:E; [apply Hr|].
  destruct (decide (k = r.1)) as [->|]; [|rewrite lookup_insert_ne by done; apply Hr].
  rewrite lookup_insert_eq. by intros [= <- <-].
Qed.

Lemma offers_true peers : Forall true_peer peers → offers_ok (query_peer_offers peers).
Proof using.
  unfold query_peer_offers. assert (offers_ok no_offers) as H0 by (split; [by right|by intros]).
  revert H0. generalize (no_offers (Hash := Hash)). intros o Ho Hp. revert o Ho.
  induction Hp as [|p peers Hp Hps IH]; intros o Ho; [exact Ho|]. apply IH. unfold offer_step.
  destruct (qp_state p); try done. destruct (qp_answer p) as [[total rs]|] eqn:Ea; [|done].
  specialize (Hp _ _ Ea). destruct rs as [|r rs]; [done|]. destruct (Z.eqb_spec total 0); [done|]. cbn [orb].
  destruct (_ && _); [done|]. inversion Hp as [|? ? [Ht _] _]; subst.
  split; [by left|]. by eapply add_offers_ok; [exact Hp|apply Ho].
Qed.

(** ** Fetching *)
Notation fetch_from_peers := (fetch_from_peers listing blob).
Notation fetch_ranges_into := (fetch_ranges_into listing blake3_hex web).
Notation fetch_plan_core := (fetch_plan_core listing blake3_hex web blob).

Lemma blob_slice n k peer h c b o :
  offers_ok o → po_ranges o !! k = Some (peer, h) → blob n peer h = Some (c, b) → 0 ≤ k.1 ∧ c = slice F k.
Proof using Hserves.
  intros [_ O] Ho Hb. destruct (O _ _ _ Ho) as [Hk ->]. split; [done|].
  apply (ls_digest Hserves). by eapply ls_blob.
Qed.

Lemma fetch_from_peers_clean o rs p2p w n w' :
  lan_clean (la_dir w) → offers_ok o → fetch_from_peers o rs p2p w = (n, w') →
  lan_clean (la_dir w') ∧ la_web w' = la_web w ∧ same_files (la_dir w) (la_dir w').
Proof using Hserves.
  intros C O. revert p2p w C. induction rs as [|r rs IH]; intros p2p w C H; cbn [Lan.fetch_from_peers] in H; [by injection H as _ <-|].
  destruct (locally_present _ _ _); [by eapply IH|]. unfold fetch_from_peer in H.
  destruct (po_ranges o !! range_key r) as [[peer h]|] eqn:Eo; [|by eapply IH].
  destruct (blob (la_blobs w) peer h) as [[c b]|] eqn:Eb; (eapply IH in H; [destruct H as (? & ? & ?); by split|]); [|done].
  destruct (blob_slice _ _ _ _ _ _ _ O Eo Eb). cbn. by apply write_range_clean.
Qed.

Lemma fetch_ranges_into_ok url plan w r w' :
  lan_clean (la_dir w) → rp_total_size plan = len F → Forall (λ r, 0 ≤ br_start r) (rp_ranges plan) →
  fetch_ranges_into url plan w = (r, w') →
  r ≠ Panic ∧ lan_clean (la_dir w') ∧ same_files (la_dir w) (la_dir w') ∧
  ∀ n, r = Ok n →
    (∀ x s e, x ∈ rp_ranges plan → br_start x ≤ s < e → e ≤ br_end x → read_range (range_store (la_dir w')) s e = Ok (slice F (s, e))) ∧
    (Forall (λ x, br_start x < br_end x ∧ br_end x ≤ len F) (rp_ranges plan)).
Proof using Hserves.
  intros C Hplan Hnn H. unfold Lan.fetch_ranges_into in H.
  destruct (fetch_ranges _ _ _ _ _) as [o rw] eqn:E. injection H as <- <-. pose proof (ls_size Hserves) as Hs.
  assert (total_is (rp_total_size plan) (range_store (la_dir w))) as Ht by (rewrite Hplan; intros m Hm; by apply (lc_total _ _ C)).
  pose proof (fetch_ranges_outcome _ _ _ _ _ _ _ E) as [Hnp _].
  pose proof (fetch_ranges_kept (web url) blake3_hex url plan
    (MkWorld (range_store (la_dir w)) (la_web w) []) _ _ Ht E) as [Ht' Hmod]. rewrite Hplan in Ht'.
  destruct (fetch_then_read (web url) blake3_hex F url plan (MkWorld (range_store (la_dir w)) (la_web w) []) _ _
    (ls_web Hserves url) ltac:(lia) Hplan Hnn (range_store_clean _ C) E) as [Hc Hread].
  split; [done|]. split; [by apply set_range_store_clean|]. split; [done|]. intros n ->. split.
  - intros x s e Hx Hs1 He. rewrite <- (Hread n x s e eq_refl Hx Hs1 He). f_equal. cbn. unfold Lan.range_store.
    cbn in Hmod. destruct (w_disk rw) as [a b c d]. cbn in *. by rewrite Hmod.
  - unfold fetch_ranges in E. destruct (find_first (invalid plan) (rp_ranges plan)) as [bad|] eqn:Ei; [done|].
    apply plan_valid in Ei. by rewrite Hplan in Ei.
Qed.

Lemma fetch_plan_core_ok url o plan w r w' :
  lan_clean (la_dir w) → offers_ok o → rp_total_size plan = len F → Forall (λ r, 0 ≤ br_start r) (rp_ranges plan) →
  fetch_plan_core url o plan w = (r, w') →
  r ≠ Panic ∧ lan_clean (la_dir w') ∧ same_files (la_dir w) (la_dir w') ∧
  ∀ out, r = Ok out →
    (∀ x s e, x ∈ rp_ranges plan → br_start x ≤ s < e → e ≤ br_end x → read_range (range_store (la_dir w')) s e = Ok (slice F (s, e))) ∧
    (Forall (λ x, br_start x < br_end x ∧ br_end x ≤ len F) (rp_ranges plan)).
Proof using Hserves.
  intros C O Hplan Hnn H. unfold Lan.fetch_plan_core in H.
  destruct (fetch_from_peers o (rp_ranges plan) 0 w) as [p2p w1] eqn:E1. apply fetch_from_peers_clean in E1 as (C1 & _ & S1); [|done..].
  destruct (if String.eqb url "" then _ else None) as [x|]; [by injection H as <- <-|].
  destruct (fetch_ranges_into _ plan w1) as [o1 w2] eqn:E2. apply fetch_ranges_into_ok in E2 as (Hnp & C2 & S2 & Hok); [|done..].
  assert (same_files (la_dir w) (la_dir w2)) as S by (destruct S1, S2; split; congruence).
  destruct o1 as [n|e|]; [| |done]; injection H as <- <-; (split; [done|]); (split; [done|]); (split; [exact S|]); [|done].
  intros out _. by apply (Hok n).
Qed.

(** ** Headers *)
Lemma slice_prefix e : slice F (0, e) `prefix_of` F.
Proof using. unfold slice. cbn. rewrite drop_0. apply prefix_take. Qed.

Lemma parse_slice e h : parse (slice F (0, e)) = Ok h → parse F = Ok h.
Proof using. intros H. rewrite (parse_prefix _ _ (slice_prefix e)); rewrite H; done. Qed.

Lemma local_header_ok d h n : lan_clean d → local_header listing d = Some (h, n) → parse F = Ok h ∧ n = len F.
Proof using Hserves.
  intros C H. unfold local_header in H. destruct (model_file d) as [f|] eqn:Ef; [|done].
  rewrite (model_file_clean _ _ C Ef) in H. change FUEL with 64%nat in H.
  rewrite parse_local_header_exact in H by apply (ls_size Hserves).
  destruct (parse F) as [h'|e|]; simpl in H; [|done..]. by injection H as <- <-.
Qed.

Lemma cached_header_ok d h n : lan_clean d → cached_header listing d = Some (h, n) → parse F = Ok h ∧ n = len F.
Proof using Hserves.
  intros C H. unfold cached_header in H. destruct (ld_ranges d) as [m|] eqn:Em; [|done]. cbn in H.
  destruct (0 <? rm_header_len m); [|done].
  destruct (read_range (range_store d) 0 (rm_header_len m)) as [b|e|] eqn:Er; [|done..].
  apply (read_range_sound F) in Er as ->; [|by apply range_store_clean|done].
  destruct (parse _) as [h'|e|] eqn:Ep; [|done..]. injection H as <- <-.
  split; [by eapply parse_slice|by apply (lc_total _ _ C)].
Qed.

Lemma peer_header_elem (o : PeerOffers (Hash := Hash)) k x : peer_header o = Some (k, x) → k.1 = 0 ∧ po_ranges o !! k = Some x.
Proof using.
  unfold peer_header. set (l := filter _ _). intros H.
  assert ((k, x) ∈ l) as Hin.
  { revert H. enough (∀ l best e, foldl (λ best e, match best with Some b => if e.1.2 <? b.1.2 then Some e else best | None => Some e end) best l
      = Some e → best = Some e ∨ e ∈ l) as Hg by (intros H; by destruct (Hg _ _ _ H)).
    induction l0 as [|y l' IH]; intros best e H; [by left|]. apply IH in H as [H|H]; [|right; by right].
    destruct best as [b|]; [destruct (_ <? _)|]; [| by left|]; injection H as <-; right; by left. }
  unfold l in Hin. apply list_elem_of_filter in Hin as [Hp Hin]. apply elem_of_map_to_list in Hin.
  apply andb_prop in Hp as [Hp _]. apply Z.eqb_eq in Hp. done.
Qed.

Lemma web_header_ok url w :
  match web_header_of web_header url w with
  | Ok (h, total, _) => parse F = Ok h ∧ total = len F
  | Err _ => True
  | Panic => False
  end.
Proof using Hserves.
  unfold web_header_of. destruct (String.eqb url ""); [done|].
  pose proof (remote_header_discovered (λ n, web_header url (la_web w + n)) F (256 * 1024)) as H.
  unfold fetch_remote_header. change FUEL with 64%nat.
  destruct (fetch_remote_header_with _ _ _) as [[h total]|e|]; simpl; [|done|].
  - apply H; [|apply (ls_size Hserves)|lia]. destruct (ls_header Hserves url) as [A B].
    split; intros n; [apply A|apply B].
  - apply H; [|apply (ls_size Hserves)|lia]. destruct (ls_header Hserves url) as [A B].
    split; intros n; [apply A|apply B].
Qed.

Lemma obtain_header_ok url o w r w' :
  lan_clean (la_dir w) → offers_ok o → obtain_header listing web_header blob url o w = (r, w') →
  lan_clean (la_dir w') ∧ same_files (la_dir w) (la_dir w') ∧
  match r with Ok (h, total, _) => parse F = Ok h ∧ total = len F | Err _ => True | Panic => False end.
Proof using Hserves.
  intros C O H. unfold obtain_header in H.
  destruct (local_header _ _) as [[h n]|] eqn:E1; [injection H as <- <-; split; [done|]; split; [done|]; by eapply local_header_ok|].
  destruct (cached_header _ _) as [[h n]|] eqn:E2; [injection H as <- <-; split; [done|]; split; [done|]; by eapply cached_header_ok|].
  destruct (peer_header o) as [[k [peer hash]]|] eqn:E3; [|injection H as <- <-; split; [done|]; split; [done|]; apply web_header_ok].
  destruct (blob (la_blobs w) peer hash) as [[c n]|] eqn:E4; [|injection H as <- <-; split; [done|]; split; [done|]; apply web_header_ok].
  apply peer_header_elem in E3 as [Hk Ek]. destruct (blob_slice _ _ _ _ _ _ _ O Ek E4) as [Hk' ->].
  assert (lan_clean (write_range k (slice F k) (la_dir w))) as C' by (by apply write_range_clean).
  destruct k as [k1 k2]. cbn in Hk. subst k1.
  destruct (parse (slice F (0, k2))) as [h|e|] eqn:Ep; injection H as <- <-; (split; [exact C'|]); (split; [done|]).
  - split; [by eapply parse_slice|]. destruct O as [[Ht|Hempty] _]; [exact Ht|]. by rewrite Hempty, lookup_empty in Ek.
  - apply web_header_ok.
  - apply web_header_ok.
Qed.

(** ** Whole files *)
Lemma slice_all : slice F (0, len F) = F.
Proof using. unfold slice, len. cbn. rewrite drop_0, Z.sub_0_r, Nat2Z.id. apply take_ge. done. Qed.

Lemma full_file_ok o peer hash n c b :
  offers_ok o → full_file o = Some (peer, hash) → blob n peer hash = Some (c, b) →
  po_total_size o = len F ∧ c = F ∧ hex_encode hash = blake3_hex F.
Proof using Hserves.
  intros O H Hb. unfold full_file in H. destruct (Z.eqb_spec (po_total_size o) 0); [done|].
  destruct (blob_slice _ _ _ _ _ _ _ O H Hb) as [_ ->]. destruct O as [[Ht|Hempty] Or]; [|by rewrite Hempty, lookup_empty in H].
  destruct (Or _ _ _ H) as [_ ->]. rewrite Ht, slice_all. done.
Qed.

Lemma read_write_manifest doc url hash :
  read_manifest (write_manifest doc (MkManifest url (len F) hash)) = Some (MkManifest url (len F) hash).
Proof using Hserves.
  pose proof (ls_size Hserves). unfold read_manifest, write_manifest. simpl.
  rewrite !lookup_insert_eq, lookup_insert_ne, lookup_insert_eq by done.
  rewrite !lookup_insert_ne, lookup_insert_eq by done.
  rewrite (proj2 (Z.leb_le _ _)), (proj2 (Z.leb_le _ _)) by (unfold u64_max; lia). done.
Qed.

(** The file is complete under this name, and the manifest says so. *)
Definition completed (url : string) (d : LanDir) : Prop :=
  ld_regular d !! name = Some F ∧ read_manifest (ld_doc d) = Some (MkManifest url (len F) (blake3_hex F)).

Lemma fetch_full_blob_ok n0 o peer hash url w r w' :
  lan_clean (la_dir w) → offers_ok o → full_file o = Some (peer, hash) →
  fetch_full_blob hex_encode blob peer hash (po_total_size o) n0 url w = (r, w') →
  r ≠ Panic ∧ lan_clean (la_dir w') ∧ la_web w' = la_web w ∧
  (is_Some (blob (la_blobs w) peer hash) → ∃ b, r = Ok b) ∧
  (∀ e, r = Err e → same_files (la_dir w) (la_dir w')) ∧
  (∀ b, r = Ok b → n0 = name → completed url (la_dir w')).
Proof using Hserves.
  intros C O Ho H. unfold fetch_full_blob in H.
  destruct (blob (la_blobs w) peer hash) as [[c b]|] eqn:Eb;
    [|injection H as <- <-; split; [done|]; split; [done|]; split; [done|]; split; [by intros [? ?]|by split]].
  destruct (full_file_ok _ _ _ _ _ _ O Ho Eb) as (Ht & -> & Hh). rewrite Ht, Z.eqb_refl, Hh in H. injection H as <- <-.
  split; [done|]. split; [apply (write_regular_clean n0) in C; by destruct C|]. split; [done|]. split; [by eexists|]. split; [done|].
  intros b0 _ ->. split; cbn; [by rewrite lookup_insert_eq|apply read_write_manifest].
Qed.

Lemma concat_ranges_ok d rs e c out f :
  lan_clean d → 0 ≤ e → Forall (λ r, br_start r < br_end r ∧ br_end r ≤ len F) rs → tiles e rs = Ok c →
  out = slice F (0, e) → concat_ranges d rs out = (true, f) → f = slice F (0, c).
Proof using.
  intros C. revert e out. induction rs as [|r rs IH]; intros e out He Hrs Ht Hout H; cbn [tiles concat_ranges] in *.
  { injection Ht as <-. injection H as <-. done. }
  destruct (Z.eqb_spec (br_start r) e) as [Hs|]; [|done]. inversion Hrs as [|? ? [Hlt Hle] Hrs']; subst x l.
  destruct (ld_files d !! range_key r) as [x|] eqn:Ex; [|done].
  apply (lc_files _ _ C) in Ex as [_ ->]. eapply IH; [| |exact Ht| |exact H]; [lia|done|].
  rewrite Hout. unfold slice, range_key. cbn. rewrite Hs, !drop_0, !Z.sub_0_r.
  replace (Z.to_nat (br_end r)) with (Z.to_nat e + Z.to_nat (br_end r - e))%nat by lia. apply take_take_drop.
Qed.

Lemma assemble_file_ok spec rs w r w' :
  ds_file_name spec = name → lan_clean (la_dir w) → Forall (λ x, br_start x < br_end x ∧ br_end x ≤ len F) rs →
  tiles 0 rs = Ok (len F) → assemble_file blake3_hex spec (len F) rs w = (r, w') →
  r ≠ Panic ∧ lan_clean (la_dir w') ∧ (∀ e, r = Err e → same_files (la_dir w) (la_dir w')) ∧
  (r = Ok () → completed (ds_url spec) (la_dir w')).
Proof using Hserves.
  intros Hn C Hrs Ht H. unfold assemble_file in H. rewrite Hn in H.
  assert (∀ f : gmap string bytes → gmap string bytes, (∀ m : gmap string bytes, f m !! name = m !! name) →
    lan_clean (set_inflight f (la_dir w))) as Hin.
  { intros f Hf. destruct C as [A B C D E]. split; try done. intros p. cbn. rewrite Hf. apply D. }
  assert (name +:+ ".assemble" ≠ name) as Hne.
  { intros E. apply (f_equal String.length) in E. rewrite string_length_app in E. simpl in E. lia. }
  destruct (concat_ranges (la_dir w) rs []) as [[] f] eqn:Ec.
  2: { injection H as <- <-. split; [done|]. split; [|done]. apply Hin. intros m. by rewrite lookup_insert_ne. }
  pose proof (concat_ranges_ok _ _ 0 _ _ _ C ltac:(done) Hrs Ht eq_refl Ec) as Ef. rewrite slice_all in Ef. subst f.
  rewrite Z.eqb_refl in H.
  injection H as <- <-. split; [done|]. split.
  - assert (lan_clean (set_inflight (delete (name +:+ ".assemble")) (la_dir w))) as C2
      by (apply Hin; intros m; by rewrite lookup_delete_ne).
    apply (write_regular_clean name) in C2 as [A B C' D E]. split; cbn; [by intros k c|by intros k c|exact C'|exact D|exact E].
  - split; [done|]. intros _. split; cbn; [by rewrite lookup_insert_eq|apply read_write_manifest].
Qed.

Lemma assemble_from_ranges_ok spec o w r w' :
  ds_file_name spec = name → lan_clean (la_dir w) → offers_ok o →
  assemble_from_ranges listing blake3_hex web web_header blob spec o w = (r, w') →
  r ≠ Panic ∧ lan_clean (la_dir w') ∧ (∀ e, r = Err e → same_files (la_dir w) (la_dir w')) ∧
  (r = Ok () → completed (ds_url spec) (la_dir w')).
Proof using Hserves.
  intros Hn C O H. unfold assemble_from_ranges in H.
  destruct (obtain_header _ _ _ _ _ _) as [r1 w1] eqn:E1. apply obtain_header_ok in E1 as (C1 & S1 & Hh); [|done..].
  destruct r1 as [[[h total] n]|e|]; [|by injection H as <- <-|done]. destruct Hh as [_ ->].
  pose proof (plan_ranges_total h (len F) (all_layers h)) as Hnp.
  destruct (plan_ranges h (len F) (all_layers h)) as [plan|e|] eqn:E2; [|by injection H as <- <-|done].
  apply plan_ranges_bounds in E2 as [Hplan Hnn].
  destruct (tiles 0 (rp_ranges plan)) as [c|e|] eqn:E3; [|by injection H as <- <-|].
  2: { exfalso. revert E3. generalize 0. generalize (rp_ranges plan). clear.
       intros rs. induction rs as [|x rs IH]; intros z; cbn [tiles]; [done|]. destruct (_ =? _); [apply IH|done]. }
  destruct (Z.eqb_spec c (len F)) as [->|]; cbn [negb] in H; [|by injection H as <- <-].
  destruct (fetch_plan_core _ o plan w1) as [r2 w2] eqn:E4. apply fetch_plan_core_ok in E4 as (Hnp2 & C2 & S2 & Hok); [|done..].
  assert (same_files (la_dir w) (la_dir w2)) as S by (destruct S1, S2; split; congruence).
  destruct r2 as [out|e|]; [|by injection H as <- <-|done]. destruct (Hok out eq_refl) as [_ Hv].
  apply assemble_file_ok in H as (? & ? & He & ?); [|done..]. split; [done|]. split; [done|]. split; [|done].
  intros e Hr. destruct (He e Hr), S. split; congruence.
Qed.

(** ** After a completed file *)
Lemma index_entry_total b f r : index_entry b f r ≠ Panic.
Proof using. unfold index_entry. by destruct (read_slice _ _ _). Qed.

Lemma index_full_file_ok url d :
  lan_clean d →
  match index_full_file blake3_hex FUEL url (range_store d) with
  | Ok (_, k) => lan_clean (set_range_store k d)
  | Err _ => True
  | Panic => False
  end.
Proof using Hserves.
  intros C. unfold index_full_file. cbn [d_model Lan.range_store].
  destruct (snd <$> model_file d) as [f|] eqn:Ef; [|done]. cbn [ok_or mbind res_bind].
  apply fmap_Some in Ef as (e & He & ->). rewrite (model_file_clean _ _ C He). change FUEL with 64%nat.
  rewrite parse_local_header_exact by apply (ls_size Hserves). pose proof (parse_total F) as Hp.
  destruct (parse F) as [h|er|]; [|done|done]. cbn [header_of map_err mbind res_bind].
  unfold plan_all_ranges. pose proof (plan_ranges_total h (len F) (omap (λ t, tensor_layer (ti_name t)) (gh_tensors h))) as Hnp.
  destruct (plan_ranges _ _ _) as [plan|er|]; [|done|done]. cbn [map_err mbind res_bind].
  pose proof (map_res_no_panic (index_entry blake3_hex F) (rp_ranges plan) (index_entry_total _ _)) as Hm.
  destruct (map_res _ _) as [rs|er|]; [|done|done]. cbn.
  destruct C as [A B C' D E]. split; try done. by intros m [= <-].
Qed.

Lemma finish_ok url w r w' :
  lan_clean (la_dir w) → finish_completed_file listing blake3_hex url w = (r, w') →
  r = Ok () ∧ lan_clean (la_dir w') ∧ la_web w' = la_web w ∧
  ld_regular (la_dir w') = ld_regular (la_dir w) ∧ ld_doc (la_dir w') = ld_doc (la_dir w).
Proof using Hserves.
  intros C H. unfold finish_completed_file in H.
  assert (∀ w1, lan_clean (la_dir w1) → la_web w1 = la_web w → ld_regular (la_dir w1) = ld_regular (la_dir w) →
    ld_doc (la_dir w1) = ld_doc (la_dir w) →
    (Ok (E := LanError) (), match model_file (la_dir w1) with Some f => share (ShareFile f.1) w1 | None => w1 end) = (r, w') →
    r = Ok () ∧ lan_clean (la_dir w') ∧ la_web w' = la_web w ∧
    ld_regular (la_dir w') = ld_regular (la_dir w) ∧ ld_doc (la_dir w') = ld_doc (la_dir w)) as Hshare.
  { intros w1 C1 ? ? ? [= <- <-]. by destruct (model_file (la_dir w1)). }
  destruct (present_ranges _) as [|x l]; [|by apply (Hshare w)].
  pose proof (index_full_file_ok url _ C) as Hi.
  destruct (index_full_file _ _ _ _) as [[m k]|e|]; [|by apply (Hshare w)|done].
  by apply (Hshare (on_dir (set_range_store k) w)).
Qed.

(** ** Downloads *)
Lemma download_frame server spec w o w' :
  dl_honest F server → ds_file_name spec = name → dl_clean F name w → download server blake3_hex spec w = (o, w') →
  dl_clean F name w' ∧ ∀ n, n ≠ name → dl_files w' !! n = dl_files w !! n.
Proof using.
  intros Hh <- Hc H. unfold download in H. destruct (already_complete spec w) as [size|]; [by injection H as _ <-|].
  revert H. generalize DNoAttempt. generalize ATTEMPTS. intros n. revert w Hc.
  induction n as [|n IH]; intros w Hc last H; cbn [download_attempts] in H; [by injection H as _ <-|].
  destruct (run_attempt server _ w) as [out w1] eqn:E. apply (run_attempt_spec server F Hh) in E as ([Hf _ _] & Hc1 & _); [|done].
  rewrite <- Hf. destruct out as [|e|why]; [|by injection H as _ <-|by eapply IH].
  destruct (dl_parts w1 !! _) as [f|]; injection H as _ <-; [|done].
  split; cbn; [intros p; cbn; by rewrite lookup_delete_eq|intros n0 Hn0; by rewrite lookup_insert_ne].
Qed.

Lemma plain_download_ok spec w r w' :
  ds_file_name spec = name → lan_clean (la_dir w) → cached_file spec (la_dir w) = None →
  plain_download blake3_hex web_file spec w = (r, w') →
  r ≠ Panic ∧ lan_clean (la_dir w') ∧ (∀ e, r = Err e → ∃ e', e = LDownload e') ∧ (r = Ok () → completed (ds_url spec) (la_dir w')).
Proof using Hserves.
  intros Hn C Hnc H. unfold plain_download in H. pose proof (ls_size Hserves).
  set (dl0 := MkDl _ _ _ _ _) in H.
  destruct (download (web_file (ds_url spec)) blake3_hex spec dl0) as [o dl] eqn:E. injection H as <- <-.
  assert (dl_clean F name dl0) as Hc0 by (intros p Hp; by apply (lc_inflight _ _ C)).
  destruct (download_frame _ _ _ _ _ (ls_file Hserves _) Hn Hc0 E) as [Hc1 Hother].
  apply (download_outcome _ _ F) in E; [|apply (ls_file Hserves)|by rewrite Hn|lia]. rewrite Hn in E.
  assert (∀ m : gmap string bytes, (∀ n c, m !! n = Some c → c = F) →
    lan_clean (MkLanDir (ld_ranges (la_dir w)) (ld_files (la_dir w)) (ld_parts (la_dir w)) m (dl_parts dl) (dl_doc dl))) as Hclean.
  { intros m Hm. destruct C as [A B C' D E']. by split. }
  destruct o as [[]|e|]; [|destruct E as (_ & Hf & _); split; [done|]; split;
    [apply Hclean; rewrite Hf; apply (lc_regular _ _ C)|split; [by intros e' [= <-]; eexists|done]]|done].
  destruct E as [(size & Ha & _)|(Hf & Hm & _)]; [exfalso; revert Ha; unfold already_complete; cbn; by setoid_rewrite Hnc|].
  split; [done|]. split; [|split; [done|by intros _; split]].
  apply Hclean. intros n c Hnc'. destruct (decide (n = name)) as [->|Hne]; [congruence|].
  rewrite Hother in Hnc' by done. by apply (lc_regular _ _ C n).
Qed.

(** ** When the peers have it all *)
Definition exact (d : LanDir) (r : ByteRange) : Prop := ∃ c, ld_files d !! range_key r = Some c ∧ len c = br_len r.

(** The range is stored, or offered and not covered by a larger recorded one. *)
Definition at_hand (o : PeerOffers (Hash := Hash)) (d : LanDir) (r : ByteRange) : Prop :=
  exact d r ∨
  is_Some (po_ranges o !! range_key r) ∧
  ∀ m e, ld_ranges d = Some m → e ∈ rm_ranges m → re_start e ≤ br_start r → br_end r ≤ re_end e → entry_key e = range_key r.

Definition transfers_work (o : PeerOffers (Hash := Hash)) : Prop :=
  ∀ k peer h n, po_ranges o !! k = Some (peer, h) → is_Some (blob n peer h).

Lemma exact_write d r k c : exact d r → 0 ≤ k.1 → (range_key r = k → len c = br_len r) → exact (write_range k c d) r.
Proof using.
  intros (x & Hx & Hl) Hk Hc. unfold exact. cbn. destruct (decide (range_key r = k)) as [<-|Hne].
  - exists c. rewrite lookup_insert_eq. auto.
  - exists x. by rewrite lookup_insert_ne.
Qed.

Lemma len_range r : inside F r → len (slice F (range_key r)) = br_len r.
Proof using. intros [H1 H2]. rewrite len_slice; cbn; unfold br_len, sat_sub; lia. Qed.

Lemma locally_present_exact d r :
  inside F r → model_file d = None → locally_present listing d (br_start r) (br_end r) = true →
  (∀ m e, ld_ranges d = Some m → e ∈ rm_ranges m → re_start e ≤ br_start r → br_end r ≤ re_end e → entry_key e = range_key r) →
  exact d r.
Proof using Hserves.
  intros Hin Hmod H Hcov. pose proof (ls_size Hserves) as Hs. unfold locally_present in H. rewrite Hmod, orb_false_r in H.
  apply orb_prop in H as [H|H].
  - unfold range_file_ok in H. destruct (ld_files d !! _) as [c|] eqn:E; [|done]. exists c. split; [exact E|by apply Z.eqb_eq].
  - destruct (ld_ranges d) as [m|] eqn:Em; [|done]. apply existsb_exists in H as (e & He & H).
    apply andb_prop in H as [H Hf]. apply andb_prop in H as [H1%Z.leb_le H2%Z.leb_le].
    apply list_elem_of_In in He. pose proof (Hcov m e eq_refl He H1 H2) as Hk. rewrite Hk in Hf.
    unfold entry_key, range_key in Hk. injection Hk as Hk1 Hk2.
    destruct (ld_files d !! _) as [c|] eqn:E; [|done]. exists c. split; [exact E|]. apply Z.eqb_eq in Hf. rewrite Hf, Hk1, Hk2.
    destruct Hin as [Ha Hb]. unfold br_len, sat_sub, u64_sub. rewrite wrap64_small by (unfold in_u64; lia). lia.
Qed.

Lemma exact_present d r : exact d r → locally_present listing d (br_start r) (br_end r) = true.
Proof using.
  intros (c & Hc & Hl). unfold locally_present, range_file_ok. change (br_start r, br_end r) with (range_key r).
  rewrite Hc. cbn. rewrite Hl. unfold br_len. by rewrite Z.eqb_refl.
Qed.

Lemma fetch_from_peers_all o rs p2p w n w' :
  offers_ok o → transfers_work o → Forall (inside F) rs → model_file (la_dir w) = None → Forall (at_hand o (la_dir w)) rs →
  fetch_from_peers o rs p2p w = (n, w') →
  ld_ranges (la_dir w') = ld_ranges (la_dir w) ∧ ∀ r, inside F r → exact (la_dir w) r ∨ r ∈ rs → exact (la_dir w') r.
Proof using Hserves.
  intros O T Hin. revert p2p w. induction Hin as [|r rs Hr Hin IH]; intros p2p w Hmod Hh H; cbn [Lan.fetch_from_peers] in H.
  { injection H as _ <-. split; [done|]. intros r _ [?|?%not_elem_of_nil]; done. }
  inversion Hh as [|? ? Hr0 Hh']; subst.
  destruct (locally_present _ _ _) eqn:El.
  { assert (exact (la_dir w) r) as Hex
      by (destruct Hr0 as [?|[_ ?]]; [done|by apply locally_present_exact]).
    apply IH in H as [Hm He]; [|done..]. split; [done|].
    intros r' Hr' [He'|[->|Hin']%elem_of_cons]; apply He; auto. }
  destruct Hr0 as [Hex|[[[peer h] Ho] _]]; [by rewrite exact_present in El|].
  unfold fetch_from_peer in H. rewrite Ho in H. destruct (T _ _ _ (la_blobs w) Ho) as [[c b] Hb]. rewrite Hb in H.
  destruct (blob_slice _ _ _ _ _ _ _ O Ho Hb) as [Hk ->].
  set (w1 := on_dir _ _) in H.
  assert (∀ x, inside F x → exact (la_dir w) x → exact (la_dir w1) x) as Hkeep.
  { intros x Hx Hex. apply exact_write; [done|done|]. intros <-. by apply len_range. }
  apply IH in H as [Hm He]; [|done|].
  - split; [done|]. intros r' Hr' [He'|[->|Hin']%elem_of_cons]; apply He; auto. left.
    exists (slice F (range_key r)). cbn. rewrite lookup_insert_eq. split; [done|by apply len_range].
  - rewrite list.Forall_forall in Hh', Hin |- *. intros x Hx. destruct (Hh' x Hx) as [Hex|[? Hcov]]; [left; auto|by right].
Qed.

(** The hashes recorded for the ranges are those of the file. *)
Definition true_hashes (m : RangeManifest) : Prop := ∀ k h, recorded m k = Some h → h = blake3_hex (slice F k).

Lemma fetch_loop_exact server total rs st w :
  clean F (w_disk w) → true_hashes (f_manifest st) →
  (∀ r, r ∈ rs → ∃ c, d_files (w_disk w) !! range_key r = Some c ∧ len c = br_len r) →
  ∃ w', fetch_loop server blake3_hex total rs st w = (Ok (f_network st), w') ∧ w_sent w' = w_sent w.
Proof using.
  revert st w. induction rs as [|r rs IH]; intros st w C M Hrs; cbn [fetch_loop]; [by exists w|].
  destruct (Hrs r ltac:(left)) as (c & Hc & Hl). destruct (cl_files _ _ C _ _ Hc) as [_ Hs].
  unfold fetch_step. cbv zeta. rewrite Hc, Hl, Z.eqb_refl. cbn iota.
  destruct (recorded (f_manifest st) (range_key r)) as [h|] eqn:Eh.
  - rewrite (M _ _ Eh), <- Hs, String.eqb_refl. cbn [negb].
    match goal with |- context [fetch_loop _ _ _ _ ?st1 ?w1] => destruct (IH st1 w1) as (w' & E & Hw) end; [done|done| |by exists w'].
    intros x Hx. apply Hrs. by right.
  - match goal with |- context [fetch_loop _ _ _ _ ?st1 ?w1] => destruct (IH st1 w1) as (w' & E & Hw) end; [| | |by exists w'].
    + by apply clean_set_manifest.
    + intros k h. cbn [f_manifest]. rewrite recorded_upsert. destruct (decide _) as [->|]; [intros [= <-]; by rewrite <- Hs|apply M].
    + intros x Hx. apply Hrs. by right.
Qed.

(** A complete model file, or every range in its own file: no request. *)
Lemma fetch_ranges_into_local url plan w :
  lan_clean (la_dir w) → rp_total_size plan = len F → Forall (inside F) (rp_ranges plan) →
  (∀ m, ld_ranges (la_dir w) = Some m → true_hashes m) →
  (model_file (la_dir w) = None → Forall (exact (la_dir w)) (rp_ranges plan)) →
  ∃ w', fetch_ranges_into url plan w = (Ok 0, w') ∧ la_web w' = la_web w.
Proof using Hserves.
  intros C Ht Hin M Hex. unfold Lan.fetch_ranges_into, fetch_ranges.
  replace (find_first (invalid plan) (rp_ranges plan)) with (@None ByteRange).
  2: { symmetry. apply find_first_None. eapply Forall_impl; [exact Hin|]. intros r [H1 H2]. unfold invalid. rewrite Ht.
       apply orb_false_iff. rewrite Z.leb_gt, Z.ltb_ge. lia. }
  cbv zeta. cbn [w_disk report d_model Lan.range_store].
  destruct (model_file (la_dir w)) as [f|] eqn:Ef; cbn [fmap option_fmap option_map].
  { rewrite (model_file_clean _ _ C Ef), Ht, Z.eqb_refl. by eexists. }
  destruct (starting_manifest url plan (range_store (la_dir w))) as [m d] eqn:Es.
  assert (d = range_store (la_dir w) ∧ true_hashes m) as [-> Hm].
  { unfold starting_manifest in Es. cbn in Es. destruct (ld_ranges (la_dir w)) as [m0|] eqn:Em.
    - rewrite (lc_total _ _ C m0 Em), Ht, Z.eqb_refl in Es. injection Es as <- <-. split; [done|]. apply (M m0 eq_refl).
    - injection Es as <- <-. done. }
  set (w0 := on_disk _ _).
  destruct (fetch_loop_exact (web url) (u64_sum (br_len <$> rp_ranges plan)) (rp_ranges plan) (MkFetch m 0 0) w0) as (w' & E & Hw).
  - by apply range_store_clean.
  - done.
  - specialize (Hex eq_refl). rewrite list.Forall_forall in Hex. intros r Hr. by apply Hex.
  - rewrite E. eexists. split; [done|]. cbn. by rewrite Hw.
Qed.

Lemma fetch_from_peers_model o rs p2p w f :
  lan_clean (la_dir w) → model_file (la_dir w) = Some f → Forall (inside F) rs → fetch_from_peers o rs p2p w = (p2p, w).
Proof using Hserves.
  intros C Hf Hin. induction Hin as [|r rs [_ Hr] _ IH]; cbn [Lan.fetch_from_peers]; [done|].
  unfold locally_present. rewrite Hf, (model_file_clean _ _ C Hf), (proj2 (Z.leb_le _ _)) by exact Hr. by rewrite orb_true_r.
Qed.

Lemma fetch_from_peers_same o rs p2p w n w' :
  fetch_from_peers o rs p2p w = (n, w') → ld_ranges (la_dir w') = ld_ranges (la_dir w) ∧ ld_regular (la_dir w') = ld_regular (la_dir w).
Proof using.
  revert p2p w. induction rs as [|r rs IH]; intros p2p w H; cbn [Lan.fetch_from_peers] in H; [by injection H as _ <-|].
  destruct (locally_present _ _ _); [by eapply IH|]. unfold fetch_from_peer in H.
  destruct (po_ranges o !! range_key r) as [[peer h]|]; [|by eapply IH].
  destruct (blob (la_blobs w) peer h) as [[c b]|]; by eapply IH in H.
Qed.

Lemma plan_zero_web url o plan w :
  lan_clean (la_dir w) → offers_ok o → transfers_work o → rp_total_size plan = len F → Forall (inside F) (rp_ranges plan) →
  (∀ m, ld_ranges (la_dir w) = Some m → true_hashes m) →
  (model_file (la_dir w) = None → Forall (at_hand o (la_dir w)) (rp_ranges plan)) →
  ∃ p2p w', fetch_plan_core url o plan w = (Ok (MkFetched p2p 0), w') ∧ la_web w' = la_web w.
Proof using Hserves.
  intros C O T Ht Hin M Hh. unfold Lan.fetch_plan_core.
  destruct (fetch_from_peers o (rp_ranges plan) 0 w) as [p2p w1] eqn:E1.
  pose proof (fetch_from_peers_clean _ _ _ _ _ _ C O E1) as (C1 & Hw1 & _).
  pose proof (fetch_from_peers_same _ _ _ _ _ _ E1) as [Hr1 Hg1].
  assert (model_file (la_dir w1) = model_file (la_dir w)) as Hmod by (unfold Lan.model_file; by rewrite Hg1).
  assert (model_file (la_dir w1) = None → Forall (exact (la_dir w1)) (rp_ranges plan)) as Hex.
  { rewrite Hmod. intros Hn. specialize (Hh Hn). apply (fetch_from_peers_all _ _ _ _ _ _ O T Hin Hn Hh) in E1 as [_ He].
    rewrite list.Forall_forall in Hin |- *. intros r Hr. apply He; [by apply Hin|by right]. }
  replace (find_first _ _) with (@None ByteRange).
  2: { symmetry. apply find_first_None. rewrite list.Forall_forall in Hin |- *. intros r Hr. apply negb_false_iff.
       destruct (model_file (la_dir w1)) as [f|] eqn:Ef.
       - unfold locally_present. rewrite Ef, (model_file_clean _ _ C1 Ef), (proj2 (Z.leb_le _ _)) by apply (Hin r Hr). by rewrite orb_true_r.
       - specialize (Hex eq_refl). rewrite list.Forall_forall in Hex. by apply exact_present, Hex. }
  match goal with |- context [fetch_ranges_into ?u plan w1] => destruct (fetch_ranges_into_local u plan w1) as (w' & E & Hw) end;
    [done..|by rewrite Hr1|done|].
  exists p2p, w'. split; [|congruence]. destruct (String.eqb url ""); by rewrite E.
Qed.

(** ** A file, LAN first *)
Notation download_one_lan_first := (download_one_lan_first hex_encode listing blake3_hex web web_header web_file blob).

Lemma cached_same spec d d' : same_files d d' → cached_file spec d' = cached_file spec d.
Proof using. intros [H1 H2]. unfold cached_file. by rewrite H1, H2. Qed.

Definition delivered_file (spec : DownloadSpec) (r : res LanError unit) (d : LanDir) : Prop :=
  r ≠ Panic ∧ lan_clean d ∧ (∀ e, r = Err e → ∃ e', e = LDownload e') ∧ (r = Ok () → completed (ds_url spec) d).

Lemma finish_delivers spec w r w' :
  lan_clean (la_dir w) → completed (ds_url spec) (la_dir w) →
  finish_completed_file listing blake3_hex (ds_url spec) w = (r, w') →
  delivered_file spec r (la_dir w') ∧ r = Ok () ∧ la_web w' = la_web w.
Proof using Hserves.
  intros C [D1 D2] H. apply finish_ok in H as (-> & C' & Hw & Hr & Hd); [|done].
  split; [|done]. split; [done|]. split; [done|]. split; [done|]. intros _. split; congruence.
Qed.

Lemma from_web_delivers spec w r w' :
  ds_file_name spec = name → lan_clean (la_dir w) → cached_file spec (la_dir w) = None →
  (match plain_download blake3_hex web_file spec w with
   | (Ok _, w) => finish_completed_file listing blake3_hex (ds_url spec) w
   | r => r
   end) = (r, w') → delivered_file spec r (la_dir w').
Proof using Hserves.
  intros Hn C Hc H. destruct (plain_download _ _ _ w) as [o w1] eqn:E.
  apply plain_download_ok in E as (Hnp & C1 & He & Hok); [|done..].
  destruct o as [[]|e|]; [|injection H as <- <-; split; [done|]; split; [done|]; by split|done].
  apply finish_delivers in H as [? _]; [done|done|by apply Hok].
Qed.

Lemma from_ranges_delivers spec o w r w' :
  ds_file_name spec = name → lan_clean (la_dir w) → offers_ok o → cached_file spec (la_dir w) = None →
  (if bool_decide (po_ranges o = ∅) then
     match plain_download blake3_hex web_file spec w with
     | (Ok _, w) => finish_completed_file listing blake3_hex (ds_url spec) w
     | r => r
     end
   else match assemble_from_ranges listing blake3_hex web web_header blob spec o w with
        | (Ok _, w) => finish_completed_file listing blake3_hex (ds_url spec) (progress (po_total_size o, po_total_size o) w)
        | (Err _, w) =>
            match plain_download blake3_hex web_file spec w with
            | (Ok _, w) => finish_completed_file listing blake3_hex (ds_url spec) w
            | r => r
            end
        | (Panic, w) => (Panic, w)
        end) = (r, w') → delivered_file spec r (la_dir w').
Proof using Hserves.
  intros Hn C O Hc H. destruct (bool_decide _); [by eapply from_web_delivers|].
  destruct (assemble_from_ranges _ _ _ _ _ spec o w) as [o1 w1] eqn:E.
  apply assemble_from_ranges_ok in E as (Hnp & C1 & S & Hok); [|done..].
  destruct o1 as [[]|e|]; [| |done].
  - apply finish_delivers in H as [? _]; [done|done|by apply Hok].
  - eapply from_web_delivers; [done|exact C1| |exact H]. rewrite <- Hc. apply cached_same. by apply (S e).
Qed.

Lemma lan_first_delivers spec peers w r w' :
  ds_file_name spec = name → lan_clean (la_dir w) → Forall true_peer peers → cached_file spec (la_dir w) = None →
  download_one_lan_first peers spec w = (r, w') →
  delivered_file spec r (la_dir w') ∧
  ∀ peer hash, full_file (query_peer_offers peers) = Some (peer, hash) → is_Some (blob (la_blobs w) peer hash) →
    r = Ok () ∧ la_web w' = la_web w.
Proof using Hserves.
  intros Hn C P Hc H. unfold Lan.download_one_lan_first in H. rewrite Hc in H. cbv zeta in H.
  pose proof (offers_true _ P) as O. set (o := query_peer_offers peers) in *.
  destruct (full_file o) as [[peer hash]|] eqn:Ef.
  2: { split; [by eapply from_ranges_delivers|done]. }
  destruct (fetch_full_blob _ _ _ _ _ _ _ w) as [o1 w1] eqn:E.
  apply fetch_full_blob_ok in E as (Hnp & C1 & Hw1 & Hsome & S & Hok); [|done..].
  destruct o1 as [b|e|]; [| |done].
  - apply finish_delivers in H as (D & -> & Hw); [|exact C1|by apply (Hok b)].
    split; [done|]. intros _ _ _ _. split; [done|]. rewrite Hw. exact Hw1.
  - split; [|intros peer0 hash0 [= <- <-] Hs; by destruct (Hsome Hs)].
    eapply from_ranges_delivers; [done|exact C1|exact O| |exact H]. rewrite <- Hc. apply cached_same. by apply (S e).
Qed.

Lemma lan_first_cached spec peers w size r w' :
  ds_file_name spec = name → lan_clean (la_dir w) → cached_file spec (la_dir w) = Some size →
  download_one_lan_first peers spec w = (r, w') →
  r = Ok () ∧ la_web w' = la_web w ∧ ld_regular (la_dir w') !! name = Some F ∧ lan_clean (la_dir w').
Proof using Hserves.
  intros Hn C Hc H. unfold Lan.download_one_lan_first in H. rewrite Hc in H.
  assert (ld_regular (la_dir w) !! name = Some F) as Hf.
  { unfold cached_file in Hc. rewrite Hn in Hc. destruct (read_manifest _); [|done]. cbn in Hc.
    destruct (ld_regular (la_dir w) !! name) as [f|] eqn:E; [|done]. by rewrite (lc_regular _ _ C _ _ E). }
  destruct (present_ranges _) as [|x l]; [|by injection H as <- <-].
  destruct (finish_completed_file _ _ _ w) as [o w1] eqn:E. apply finish_ok in E as (-> & C1 & Hw & Hr & _); [|done].
  injection H as <- <-. cbn. rewrite Hr. done.
Qed.
End Clean.
End Honest.


(** C23: a file fetched LAN first is the file.  With peers whose inventories
    are true and servers that serve the file, whatever transfers fail:
    the download never panics and leaves only the file and pieces of it; it
    fails only if the web download it falls back to fails; a success leaves
    the file complete, and its manifest with its address, size and BLAKE3.
    With a complete file already there, or a peer that offers all of it and
    whose transfer works, it succeeds without a request to the web. *)
Theorem lan_first_exact {Hash : Type} hex_encode listing (digest : bytes → Hash) web web_header web_file blob F
    peers spec w r w' :
  lan_serves listing digest web web_header web_file blob F → Forall (true_peer digest F) peers →
  lan_clean F (ds_file_name spec) (la_dir w) →
  download_one_lan_first hex_encode listing (blake3_hex hex_encode digest) web web_header web_file blob peers spec w = (r, w') →
  r ≠ Panic ∧ lan_clean F (ds_file_name spec) (la_dir w') ∧
  (∀ e, r = Err e → ∃ e', e = LDownload e') ∧
  (r = Ok () → ld_regular (la_dir w') !! ds_file_name spec = Some F) ∧
  (r = Ok () → cached_file spec (la_dir w) = None →
     read_manifest (ld_doc (la_dir w')) = Some (MkManifest (ds_url spec) (len F) (blake3_hex hex_encode digest F))) ∧
  (is_Some (cached_file spec (la_dir w)) → r = Ok () ∧ la_web w' = la_web w) ∧
  (∀ peer hash, full_file (query_peer_offers peers) = Some (peer, hash) → is_Some (blob (la_blobs w) peer hash) →
     r = Ok () ∧ la_web w' = la_web w).
Proof.
  intros Hs P C H. destruct (cached_file spec (la_dir w)) as [size|] eqn:Ec.
  - destruct (lan_first_cached _ _ _ _ _ _ _ _ Hs _ _ _ _ _ _ _ eq_refl C Ec H) as (-> & Hw & Hf & C').
    split; [done|]. split; [done|]. repeat split; try done.
  - destruct (lan_first_delivers _ _ _ _ _ _ _ _ Hs _ _ _ _ _ _ eq_refl C P Ec H) as [(Hnp & C' & He & Hok) Hfull].
    split; [done|]. split; [done|]. split; [done|]. split; [by intros Hr; apply Hok|]. split; [by intros Hr _; apply Hok|].
    split; [by intros [? ?]|]. exact Hfull.
Qed.

(** ** Examples *)

(** Contents are their own hashes. *)
Definition ex_blob (n : nat) (peer : string) (h : bytes) : option (bytes * Z) := Some (h, len h).
Definition ex_no_header (url : string) (n : nat) (from last : Z) : Reply := SendFailed.
Definition ex_listing (m : gmap string bytes) : list (string * bytes) := map_to_list m.
Definition ex_peer (id : string) (F : bytes) (ks : list (Z * Z)) : QueryPeer (Hash := bytes) :=
  MkQueryPeer id Connected (Some (len F, (λ k, (k, slice F k)) <$> ks)).
Definition ex_lan : Lan := MkLan empty_dir 0 0 [] [].
Definition ex_fetch (url : string) (peers : list (QueryPeer (Hash := bytes))) (w : Lan) : res LanError FetchOutcome * Lan :=
  fetch_plan_core ex_listing (blake3_hex ex_hash id) (λ _, ex_server) ex_blob url (query_peer_offers peers) ex_range_plan w.
Definition ex_first (peers : list (QueryPeer (Hash := bytes))) (w : Lan) : res LanError unit * Lan :=
  download_one_lan_first ex_hash ex_listing (blake3_hex ex_hash id) (λ _, ex_server) ex_no_header (λ _, ex_dl_server) ex_blob peers
    (MkSpec "k" "u" "m.gguf") w.

Lemma ex_lan_serves : lan_serves ex_listing id (λ _, ex_server) ex_no_header (λ _, ex_dl_server) ex_blob ex_file.
Proof.
  split.
  - done.
  - intros n peer h c b H. by injection H as <- _.
  - done.
  - intros _. exact ex_honest.
  - intros url. split; intros n last cr cl body H; discriminate H.
  - intros _. exact ex_dl_honest.
  - vm_compute. split; reflexivity.
Qed.

Lemma ex_peer_true name F ks : Forall (λ k, 0 ≤ k.1) ks → true_peer id F (ex_peer name F ks).
Proof. intros Hk total rs H. injection H as <- <-. apply Forall_fmap. eapply Forall_impl; [exact Hk|]. by intros k. Qed.

Lemma ex_empty_clean name : lan_clean ex_file name empty_dir.
Proof. by split. Qed.


Lemma lan_first_exact_witness :
  ∃ w, ex_first [ex_peer "a" ex_file [(0, 10)]] ex_lan = (Ok (), w) ∧ la_web w = 0%nat ∧
    ld_regular (la_dir w) !! "m.gguf" = Some ex_file.
Proof.
  destruct (ex_first [ex_peer "a" ex_file [(0, 10)]] ex_lan) as [r w] eqn:E.
  destruct (lan_first_exact ex_hash ex_listing id (λ _, ex_server) ex_no_header (λ _, ex_dl_server) ex_blob ex_file
    [ex_peer "a" ex_file [(0, 10)]] (MkSpec "k" "u" "m.gguf") ex_lan r w) as (_ & _ & _ & Hf & _ & _ & Hfull).
  - exact ex_lan_serves.
  - apply Forall_cons; split; [by apply ex_peer_true; repeat constructor|]. constructor.
  - apply ex_empty_clean.
  - exact E.
  - destruct (Hfull "a" ex_file) as [-> Hw]; [vm_compute; reflexivity|by eexists|].
    exists w. split; [done|]. split; [exact Hw|]. by apply Hf.
Defined.

(** A peer that failed, then the web: the file, through the second server. *)
Example lan_first_web :
  let '(r, w) := ex_first [] ex_lan in
  r = Ok () ∧ la_web w = 2%nat ∧ ld_regular (la_dir w) !! "m.gguf" = Some ex_file.
Proof. vm_compute. done. Qed.

(** ** Runs that surprise *)

(** A larger range covers the plan's: it counts as present, so no peer is
    asked and the empty address is accepted; then the ranges are downloaded
    from the recorded address. *)
Definition ex_covered : Lan :=
  MkLan (MkLanDir (Some (MkRangeManifest "u" 10 4 [MkRangeEntry 0 10 (ex_hash ex_file)])) {[(0, 10) := ex_file]} ∅ ∅ ∅ None) 0 0 [] [].

Example lan_covered_refetched :
  forallb (λ r, locally_present ex_listing (la_dir ex_covered) (br_start r) (br_end r)) (rp_ranges ex_range_plan) = true ∧
  (let '(r, w) := ex_fetch "" [ex_peer "a" ex_file [(0, 4); (4, 9)]] ex_covered in
   r = Ok (MkFetched 0 9) ∧ la_web w = 4%nat ∧ la_blobs w = 0%nat).
Proof. vm_compute. done. Qed.

(** Two peers hold different files of one size: the guard on the size lets
    their ranges be mixed. *)
Definition ex_other : bytes := list_ascii_of_string "abcdefghij".

Example lan_versions_mixed :
  let '(r, w) := ex_fetch "u" [ex_peer "a" ex_file [(0, 4)]; ex_peer "b" ex_other [(4, 9)]] ex_lan in
  r = Ok (MkFetched 9 0) ∧
  read_range (range_store ex_listing (la_dir w)) 0 4 = Ok (slice ex_file (0, 4)) ∧
  read_range (range_store ex_listing (la_dir w)) 4 9 = Ok (slice ex_other (4, 9)).
Proof. vm_compute. done. Qed.

(** The range store is of a file of another size: what peers just sent is
    discarded with it, and downloaded again. *)
Definition ex_stale : Lan :=
  MkLan (MkLanDir (Some (MkRangeManifest "u" 7 4 [])) ∅ ∅ ∅ ∅ None) 0 0 [] [].

Example lan_stale_store_refetched :
  let '(r, w) := ex_fetch "u" [ex_peer "a" ex_file [(0, 4)]; ex_peer "b" ex_file [(4, 9)]] ex_stale in
  r = Ok (MkFetched 9 9) ∧ la_blobs w = 2%nat ∧ la_web w = 4%nat.
Proof. vm_compute. done. Qed.

(** The key of a part with a mixed-case suffix is not the directory the cache
    gives the part. *)
Example part_key_mixed_case :
  resolve_model_dir (model_key_for_part "m" "x-00001-of-00002.gguf") = Some ["m"; "parts"; "x-00001-of-00002"] ∧
  split_part_dir "m" "x-00001-of-00002.gguf" = Ok ["m"; "parts"; "x-00001-of-00002"] ∧
  is_Some (parse_split_name "x-00001-of-00002.Gguf") ∧
  resolve_model_dir (model_key_for_part "m" "x-00001-of-00002.Gguf") = Some ["m"; "parts"; "x-00001-of-00002.Gguf"] ∧
  split_part_dir "m" "x-00001-of-00002.Gguf" = Ok ["m"; "parts"; "x-00001-of-00002"].
Proof. vm_compute. repeat split; try reflexivity. by eexists. Qed.
