(* ===== verification/LanSwarm.v ===== *)
(** * A swarm of nodes that fetch from each other

    [LanOk] assumes that what peers say they hold is true.  Here nothing is
    assumed of them: every node runs this code, and inventories, asked for at
    any time and used at any later time, are those the code computes from the
    node's directory.  The hashes a node records are those of the file, so
    every inventory is true and every node ends with the file. *)

From Stdlib Require Import ZArith Lia Ascii String.
From stdpp Require Import base list strings option gmap.
From S2P Require Import Prelude StrUtil Gguf Http Split Registry Download Cache Cluster Ranges RangeFetch RangeContent RangePlan Lan LanOk.

Open Scope Z_scope.

(** ** Recorded hashes *)
Section Entries.
Context (blake3 : bytes → string) (F : bytes).

Definition true_entry (e : RangeEntry) : Prop := re_blake3 e = blake3 (slice F (entry_key e)).
Definition true_entries (m : RangeManifest) : Prop := Forall true_entry (rm_ranges m).
Definition true_disk (d : Ranges.Disk) : Prop := ∀ m, d_manifest d = Some m → true_entries m.

Lemma replace_first_true k l : Forall true_entry l → Forall true_entry (replace_first k (blake3 (slice F k)) l).
Proof using.
  induction 1 as [|e l He Hl IH]; cbn; [constructor|]. destruct (decide (entry_key e = k)) as [<-|].
  - constructor; done.
  - by constructor.
Qed.

Lemma upsert_true m r : true_entries m → true_entries (upsert_range m r (blake3 (slice F (range_key r)))).
Proof using.
  intros H. unfold upsert_range, true_entries in *. destruct (recorded m (range_key r)); cbn [rm_ranges].
  - by apply replace_first_true.
  - apply list.Forall_forall. intros e He.
    assert (e ∈ rm_ranges m ++ [MkRangeEntry (br_start r) (br_end r) (blake3 (slice F (range_key r)))]) as Hin
      by (rewrite <- (sort_by_Permutation cmp_entry); exact He).
    apply elem_of_app in Hin as [Hin|Hin]; [rewrite list.Forall_forall in H; by apply H|].
    apply list_elem_of_singleton in Hin as ->. done.
Qed.

Context (server : nat → Z → Z → Reply) (Hhonest : honest F server) (Hsize : len F < 2 ^ 64).

Lemma download_range_true total r st w o w' :
  inside F r → clean F (w_disk w) → true_disk (w_disk w) → true_entries (f_manifest st) →
  download_range server blake3 total r st w = (o, w') →
  true_disk (w_disk w') ∧ ∀ st', o = Ok st' → true_entries (f_manifest st').
Proof using Hhonest Hsize.
  intros Hr C D M H. unfold download_range, fetch_one_range in H.
  destruct (fetch_attempts _ _ _ _ _ _ _ _ _) as [o1 w1] eqn:E.
  pose proof (fetch_attempts_clean _ _ F Hhonest Hsize _ _ _ _ _ _ _ _ _ Hr C E) as C1.
  apply fetch_attempts_spec in E as (Hp & Hok & Herr); [|apply Hr]. destruct o1 as [[h n]|e|]; [| |done].
  - injection H as <- <-. destruct (Hok h n eq_refl) as (c & [Hf _ _ _] & _ & Hh & _).
    destruct (cl_files F _ C1 (range_key r) c) as [_ ->]; [by rewrite Hf, lookup_insert_eq|]. subst h.
    split; [intros m [= <-]|intros st' [= <-]]; by apply upsert_true.
  - injection H as <- <-. split; [|done]. destruct (Herr e eq_refl) as [_ Hman _ _]. intros m. rewrite Hman. apply D.
Qed.

Lemma fetch_step_true total r st w o w' :
  inside F r → clean F (w_disk w) → true_disk (w_disk w) → true_entries (f_manifest st) →
  fetch_step server blake3 total r st w = (o, w') →
  true_disk (w_disk w') ∧ ∀ st', o = Ok st' → true_entries (f_manifest st').
Proof using Hhonest Hsize.
  intros Hr C D M H. unfold fetch_step in H. cbv zeta in H.
  assert (download_range server blake3 total r st (on_disk (λ d, set_files (delete (range_key r) (d_files d)) d) w) = (o, w') →
    true_disk (w_disk w') ∧ ∀ st', o = Ok st' → true_entries (f_manifest st')) as Hdrop.
  { apply download_range_true; [done|by apply clean_delete_file|done|done]. }
  destruct (d_files (w_disk w) !! range_key r) as [c|] eqn:Ec; [|by eapply download_range_true].
  destruct (cl_files F _ C _ _ Ec) as [_ ->].
  destruct (len _ =? br_len r); [|by apply Hdrop].
  destruct (recorded _ _) as [e|]; [destruct (negb _)|]; cbn iota in H.
  - by apply Hdrop.
  - injection H as <- <-. split; [done|]. by intros st' [= <-].
  - injection H as <- <-. split; [intros m [= <-]|intros st' [= <-]]; by apply upsert_true.
Qed.

Lemma fetch_loop_true total rs st w o w' :
  Forall (inside F) rs → clean F (w_disk w) → true_disk (w_disk w) → true_entries (f_manifest st) →
  fetch_loop server blake3 total rs st w = (o, w') → true_disk (w_disk w').
Proof using Hhonest Hsize.
  intros Hrs. revert st w. induction Hrs as [|r rs Hr Hrs IH]; intros st w C D M H; cbn [fetch_loop] in H; [by injection H as _ <-|].
  destruct (fetch_step server blake3 total r st w) as [o1 w1] eqn:Es.
  pose proof (fetch_step_clean _ _ F Hhonest Hsize _ _ _ _ _ _ Hr C Es) as C1.
  apply fetch_step_true in Es as [D1 M1]; [|done..].
  destruct o1 as [st1|e|]; [|by injection H as _ <-..]. eapply IH; [exact C1|exact D1| |exact H]. by apply M1.
Qed.

Lemma fetch_ranges_true url plan w o w' :
  rp_total_size plan = len F → Forall (λ r, 0 ≤ br_start r) (rp_ranges plan) →
  clean F (w_disk w) → true_disk (w_disk w) →
  fetch_ranges server blake3 url plan w = (o, w') → true_disk (w_disk w').
Proof using Hhonest Hsize.
  intros Ht Hnn C D H. unfold fetch_ranges in H.
  destruct (find_first (invalid plan) (rp_ranges plan)) as [bad|] eqn:Ei; [by injection H as _ <-|].
  apply plan_valid in Ei. cbv zeta in H. cbn [w_disk report] in H.
  destruct (match d_model (w_disk w) with Some f => len f =? rp_total_size plan | None => false end); [by injection H as _ <-|].
  destruct (starting_manifest url plan (w_disk w)) as [m d1] eqn:Esm.
  assert (clean F d1 ∧ true_disk d1 ∧ true_entries m) as (C1 & D1 & M1).
  { unfold starting_manifest in Esm. destruct (d_manifest (w_disk w)) as [m0|] eqn:Em.
    - destruct (_ =? _); injection Esm as <- <-.
      + split; [done|]. split; [done|]. apply (D m0 Em).
      + split; [by apply clean_discard|]. split; [done|constructor].
    - injection Esm as <- <-. split; [done|]. split; [done|constructor]. }
  eapply fetch_loop_true in H; [exact H| |exact C1|exact D1|exact M1].
  rewrite list.Forall_forall in *. intros r Hr. destruct (Ei r Hr). specialize (Hnn r Hr). unfold inside. lia.
Qed.

Lemma index_full_file_true fuel url d m d' :
  d_model d = Some F → index_full_file blake3 fuel url d = Ok (m, d') → true_disk d'.
Proof using.
  intros Hd H. unfold index_full_file in H. rewrite Hd in H. cbn [ok_or mbind res_bind] in H.
  destruct (parse_local_header fuel F) as [h|e|]; [|done..]. cbn [mbind res_bind] in H.
  destruct (plan_all_ranges h (len F)) as [plan|e|]; [|done..]. cbn [map_err mbind res_bind] in H.
  destruct (map_res (index_entry blake3 F) (rp_ranges plan)) as [rs|e|] eqn:Er; [|done..]. injection H as <- <-.
  intros m [= <-]. unfold true_entries. cbn [rm_ranges]. apply map_res_Forall2 in Er.
  induction Er as [|r e l l' He _ IH]; constructor; [|done].
  unfold index_entry in He. unfold read_slice in He. cbn in He. destruct (_ <=? _); [|done]. injection He as <-.
  unfold true_entry, slice, entry_key. cbn. do 2 f_equal. unfold br_len, sat_sub. lia.
Qed.
End Entries.

(** ** Directories whose records are true *)
Section Swarm.
Context {Hash : Type} (hex_encode : Hash → string) (hex_hash : string → option Hash).
Context (listing : gmap string bytes → list (string * bytes)).
Context (digest : bytes → Hash).
Context (web web_header : string → nat → Z → Z → Reply) (web_file : string → nat → Z → Reply).
Context (blob : nat → string → Hash → option (bytes * Z)).
Context (F : bytes).
Context (Hserves : lan_serves listing digest web web_header web_file blob F).
Context (name : string).
Notation hash := (blake3_hex hex_encode digest).
Notation lan_clean := (lan_clean F name).
Notation offers_ok := (offers_ok digest F).

Definition true_doc (d : LanDir) : Prop := ∀ mf, read_manifest (ld_doc d) = Some mf → mf_blake3 mf = hash F.
Definition true_ranges (d : LanDir) : Prop := ∀ m, ld_ranges d = Some m → true_entries hash F m.

Record true_node (d : LanDir) : Prop := {
  tn_clean : lan_clean d;
  tn_ranges : true_ranges d;
  tn_doc : true_doc d }.

Lemma true_doc_same d d' : same_files d d' → true_doc d → true_doc d'.
Proof using. intros [_ H] D mf. rewrite H. apply D. Qed.
Lemma true_doc_completed url d : completed hex_encode digest F name url d → true_doc d.
Proof using. intros [_ H] mf. rewrite H. by intros [= <-]. Qed.
Lemma true_ranges_same d d' : ld_ranges d' = ld_ranges d → true_ranges d → true_ranges d'.
Proof using. intros H D m. rewrite H. apply D. Qed.

Lemma true_empty : true_node empty_dir.
Proof using. by split. Qed.

Lemma inventory_true d total rs :
  (∀ h, hex_hash (hex_encode h) = Some h) → true_node d →
  inventory_of_dir hex_hash listing d = Some (total, rs) → Forall (true_offer digest F total) rs.
Proof using Hserves.
  intros Hhex [C R D] H. unfold inventory_of_dir in H.
  assert (∀ m r, ld_ranges d = Some m →
    r ∈ omap (λ e, if range_file_ok d (entry_key e) then (λ h, (entry_key e, h)) <$> hex_hash (re_blake3 e) else None) (rm_ranges m) →
    true_offer digest F (len F) r) as Hold.
  { intros m r Hm (e & He & Hr)%list_elem_of_omap. pose proof (R m Hm) as Htr. unfold true_entries in Htr. rewrite list.Forall_forall in Htr.
    rewrite (Htr e He) in Hr. unfold range_file_ok in Hr. destruct (ld_files d !! entry_key e) as [c|] eqn:Ec; [|done].
    destruct (len c =? _); [|done]. unfold blake3_hex in Hr. rewrite Hhex in Hr. injection Hr as <-.
    split; [done|]. split; [|done]. by apply (lc_files _ _ _ C) in Ec as [? _]. }
  set (p := match ld_ranges d with None => (0, []) | Some m => _ end) in H.
  assert (∀ r, r ∈ p.2 → p.1 = len F ∧ true_offer digest F (len F) r) as Hp.
  { intros r Hr. unfold p in Hr |- *. destruct (ld_ranges d) as [m|] eqn:Em; [|by apply not_elem_of_nil in Hr].
    split; [by apply (lc_total _ _ _ C)|]. by apply (Hold m). }
  destruct p as [t0 out0]. cbn [fst snd] in Hp.
  set (q := match read_manifest (ld_doc d) with None => _ | Some m => _ end) in H.
  assert (∀ r, r ∈ q.2 → q.1 = len F ∧ true_offer digest F (len F) r) as Hq.
  { intros r. unfold q. destruct (read_manifest (ld_doc d)) as [mf|] eqn:Ed; [|apply Hp].
    destruct (model_file listing d) as [f|] eqn:Ef; [|apply Hp].
    destruct ((len f.2 =? mf_size_bytes mf) && (0 <? mf_size_bytes mf)) eqn:Ec; [|apply Hp].
    apply andb_prop in Ec as [Hl%Z.eqb_eq _].
    assert (f.2 = F) as Hf by (eapply model_file_clean; [exact Hserves|exact C|exact Ef]). rewrite Hf in Hl. rewrite (D mf Ed). unfold blake3_hex. rewrite Hhex.
    cbn [fst snd]. intros Hr. split; [done|]. apply elem_of_app in Hr as [Hr|Hr]; [by apply Hp|].
    apply list_elem_of_singleton in Hr as ->. split; [done|]. split; [done|]. cbn. by rewrite <- Hl, slice_all. }
  destruct q as [t out]. cbn [fst snd] in Hq. destruct out as [|x out]; [done|]. injection H as <- <-.
  apply list.Forall_forall. intros r Hr.
  assert (r ∈ x :: out) as Hin by (rewrite <- (sort_by_Permutation cmp_wire); exact Hr).
  destruct (Hq r Hin) as [-> ?]. done.
Qed.

(** ** Every operation keeps the records true *)
Lemma fetch_ranges_into_true url plan w r w' :
  lan_clean (la_dir w) → true_ranges (la_dir w) → rp_total_size plan = len F → Forall (λ r, 0 ≤ br_start r) (rp_ranges plan) →
  fetch_ranges_into listing hash web url plan w = (r, w') → true_ranges (la_dir w').
Proof using Hserves.
  intros C R Ht Hnn H. unfold fetch_ranges_into in H. destruct (fetch_ranges _ _ _ _ _) as [o rw] eqn:E. injection H as _ <-.
  pose proof (ls_size _ _ _ _ _ _ _ Hserves).
  eapply fetch_ranges_true in E; [|apply (ls_web _ _ _ _ _ _ _ Hserves)|lia|exact Ht|exact Hnn| |].
  - intros m Hm. by apply (E m).
  - eapply range_store_clean; [exact Hserves|exact C].
  - intros m Hm. by apply R.
Qed.

Lemma fetch_plan_core_true url o plan w r w' :
  true_node (la_dir w) → offers_ok o → rp_total_size plan = len F → Forall (λ r, 0 ≤ br_start r) (rp_ranges plan) →
  fetch_plan_core listing hash web blob url o plan w = (r, w') → true_node (la_dir w').
Proof using Hserves.
  intros [C R D] O Ht Hnn H.
  pose proof (fetch_plan_core_ok _ _ _ _ _ _ _ _ Hserves name _ _ _ _ _ _ C O Ht Hnn H) as (_ & C' & S & _).
  split; [exact C'| |by eapply true_doc_same]. unfold fetch_plan_core in H.
  destruct (fetch_from_peers _ _ o _ 0 w) as [p2p w1] eqn:E1.
  pose proof (fetch_from_peers_clean _ _ _ _ _ _ _ Hserves name _ _ _ _ _ _ C O E1) as (C1 & _ & _).
  apply fetch_from_peers_same in E1 as [R1 _]. apply (true_ranges_same _ _ R1) in R.
  destruct (if String.eqb url "" then _ else None) as [x|]; [by injection H as _ <-|].
  destruct (fetch_ranges_into _ _ _ _ plan w1) as [o1 w2] eqn:E2. apply fetch_ranges_into_true in E2; [|done..].
  destruct o1; by injection H as _ <-.
Qed.

Lemma obtain_header_true url o w r w' :
  true_node (la_dir w) → offers_ok o → obtain_header listing web_header blob url o w = (r, w') → true_node (la_dir w').
Proof using Hserves.
  intros [C R D] O H. pose proof (obtain_header_ok _ _ _ _ _ _ _ Hserves name _ _ _ _ _ C O H) as (C' & S & _).
  split; [exact C'| |by eapply true_doc_same]. unfold obtain_header in H.
  repeat match type of H with
  | context [match local_header ?a ?b with _ => _ end] => destruct (local_header a b) as [[? ?]|]
  | context [match cached_header ?a ?b with _ => _ end] => destruct (cached_header a b) as [[? ?]|]
  | context [match peer_header ?a with _ => _ end] => destruct (peer_header a) as [[? [? ?]]|]
  | context [match blob ?a ?b ?c with _ => _ end] => destruct (blob a b c) as [[? ?]|]
  | context [match parse ?a with _ => _ end] => destruct (parse a)
  end; by injection H as _ <-.
Qed.

Lemma fetch_full_blob_true n0 o peer h url w r w' :
  true_node (la_dir w) → offers_ok o → full_file o = Some (peer, h) →
  fetch_full_blob hex_encode blob peer h (po_total_size o) n0 url w = (r, w') → true_node (la_dir w').
Proof using Hserves.
  intros [C R D] O Ho H.
  pose proof (fetch_full_blob_ok hex_encode _ _ _ _ _ _ _ Hserves name n0 _ _ _ _ _ _ _ C O Ho H) as (_ & C' & _).
  unfold fetch_full_blob in H. destruct (blob (la_blobs w) peer h) as [[c b]|] eqn:Eb; [|by injection H as _ <-].
  destruct (full_file_ok hex_encode _ _ _ _ _ _ _ Hserves _ _ _ _ _ _ O Ho Eb) as (Ht & -> & Hh).
  rewrite Ht, Z.eqb_refl, Hh in H. injection H as _ <-. split; [exact C'|done|].
  intros mf Hm. change (read_manifest (write_manifest (ld_doc (la_dir w)) (MkManifest url (len F) (hash F))) = Some mf) in Hm.
  rewrite (read_write_manifest _ _ _ _ _ _ _ Hserves) in Hm. by injection Hm as <-.
Qed.

Lemma finish_true url w r w' :
  true_node (la_dir w) → finish_completed_file listing hash url w = (r, w') → true_node (la_dir w').
Proof using Hserves.
  intros [C R D] H. pose proof (finish_ok hex_encode _ _ _ _ _ _ _ Hserves name _ _ _ _ C H) as (_ & C' & _ & Hr & Hd).
  split; [exact C'| |by eapply true_doc_same]. unfold finish_completed_file in H.
  assert (∀ w1, true_ranges (la_dir w1) →
    true_ranges (la_dir (match model_file listing (la_dir w1) with Some f => share (ShareFile f.1) w1 | None => w1 end))) as Hs
    by (intros w1 R1; by destruct (model_file listing (la_dir w1))).
  destruct (present_ranges _) as [|x l]; [|injection H as _ <-; by apply Hs].
  destruct (index_full_file _ _ _ _) as [[m k]|e|] eqn:E; [|injection H as _ <-; by apply Hs|by injection H as _ <-].
  injection H as _ <-. apply (Hs (on_dir (set_range_store k) w)). cbn. destruct (d_model (range_store listing (la_dir w))) as [f|] eqn:Ef.
  - assert (f = F) as ->.
    { cbn in Ef. apply fmap_Some in Ef as (e & He & ->). eapply model_file_clean; [exact Hserves|exact C|exact He]. }
    eapply index_full_file_true in E; [|exact Ef]. intros m0 Hm. by apply (E m0).
  - unfold index_full_file in E. by rewrite Ef in E.
Qed.

Lemma assemble_from_ranges_true spec o w r w' :
  ds_file_name spec = name → true_node (la_dir w) → offers_ok o →
  assemble_from_ranges listing hash web web_header blob spec o w = (r, w') → true_node (la_dir w').
Proof using Hserves.
  intros Hn T O H.
  pose proof (assemble_from_ranges_ok hex_encode _ _ _ _ _ _ _ Hserves name _ _ _ _ _ Hn (tn_clean _ T) O H) as (Hnp & C' & S & Hc).
  assert (true_doc (la_dir w')) as D'.
  { destruct r as [[]|e|]; [eapply true_doc_completed; by apply Hc|eapply true_doc_same; [by eapply S|apply T]|done]. }
  split; [exact C'| |exact D']. unfold assemble_from_ranges in H.
  destruct (obtain_header _ _ _ _ _ _) as [r1 w1] eqn:E1.
  pose proof (obtain_header_true _ _ _ _ _ T O E1) as T1.
  pose proof (obtain_header_ok _ _ _ _ _ _ _ Hserves name _ _ _ _ _ (tn_clean _ T) O E1) as (_ & _ & Hh).
  destruct r1 as [[[h total] n]|e|]; [|injection H as _ <-; apply T1|done]. destruct Hh as [_ ->].
  destruct (plan_ranges h (len F) (all_layers h)) as [plan|e|] eqn:E2; [|injection H as _ <-; apply T1..].
  apply plan_ranges_bounds in E2 as [Ht Hnn].
  destruct (tiles 0 (rp_ranges plan)) as [c|e|]; [|injection H as _ <-; apply T1..].
  destruct (negb _); [injection H as _ <-; apply T1|].
  destruct (fetch_plan_core _ _ _ _ _ o plan w1) as [r2 w2] eqn:E4. apply fetch_plan_core_true in E4; [|done..].
  destruct r2 as [out|e|]; [|injection H as _ <-; apply E4..].
  unfold assemble_file in H. destruct (concat_ranges _ _ _) as [[] f]; [destruct (len f =? len F)|];
    injection H as _ <-; apply E4.
Qed.

Lemma plain_download_true spec w r w' :
  ds_file_name spec = name → true_node (la_dir w) → cached_file spec (la_dir w) = None →
  plain_download hash web_file spec w = (r, w') → true_node (la_dir w').
Proof using Hserves.
  intros Hn [C R D] Hc H.
  pose proof (plain_download_ok hex_encode _ _ _ _ _ _ _ Hserves name _ _ _ _ Hn C Hc H) as (Hnp & C' & _ & Hok).
  unfold plain_download in H. set (dl0 := MkDl _ _ _ _ _) in H.
  destruct (download (web_file (ds_url spec)) hash spec dl0) as [o dl] eqn:E. injection H as Hr <-.
  split; [exact C'|done|]. destruct r as [[]|e|]; [eapply true_doc_completed; by apply Hok| |done].
  pose proof (ls_size _ _ _ _ _ _ _ Hserves).
  apply (download_outcome _ _ F) in E; [|apply (ls_file _ _ _ _ _ _ _ Hserves)| |lia].
  - destruct o as [[]|e'|]; [done| |done]. destruct E as (_ & _ & Hd). intros mf. cbn. rewrite Hd. apply D.
  - rewrite Hn. intros p Hp. by apply (lc_inflight _ _ _ C).
Qed.

Lemma lan_first_true spec peers w r w' :
  ds_file_name spec = name → true_node (la_dir w) → Forall (true_peer digest F) peers →
  download_one_lan_first hex_encode listing hash web web_header web_file blob peers spec w = (r, w') → true_node (la_dir w').
Proof using Hserves.
  intros Hn T P H. unfold download_one_lan_first in H. pose proof (offers_true _ _ _ P) as O.
  destruct (cached_file spec (la_dir w)) as [size|] eqn:Ec.
  { destruct (present_ranges _); [|by injection H as _ <-].
    destruct (finish_completed_file _ _ _ w) as [o w1] eqn:E. apply finish_true in E; [|done]. by injection H as _ <-. }
  cbv zeta in H. set (o := query_peer_offers peers) in *.
  set (done w := finish_completed_file listing hash (ds_url spec) (progress (po_total_size o, po_total_size o) w)) in H.
  assert (∀ w0 r0 w1, true_node (la_dir w0) → done w0 = (r0, w1) → true_node (la_dir w1)) as Hdone
    by (intros w0 r0 w1 T0 E; by eapply finish_true in E).
  set (from_web w := match plain_download hash web_file spec w with
    | (Ok _, w) => finish_completed_file listing hash (ds_url spec) w | r => r end) in H.
  assert (∀ w0 r0 w1, true_node (la_dir w0) → cached_file spec (la_dir w0) = None → from_web w0 = (r0, w1) → true_node (la_dir w1)) as Hweb.
  { intros w0 r0 w1 T0 C0 E. unfold from_web in E. destruct (plain_download _ _ _ w0) as [o1 w2] eqn:E1.
    apply plain_download_true in E1; [|done..]. destruct o1; [by eapply finish_true|by injection E as _ <-..]. }
  set (from_ranges w := if bool_decide (po_ranges o = ∅) then from_web w
    else match assemble_from_ranges listing hash web web_header blob spec o w with
         | (Ok _, w) => done w | (Err _, w) => from_web w | (Panic, w) => (Panic, w) end) in H.
  assert (∀ w0 r0 w1, true_node (la_dir w0) → cached_file spec (la_dir w0) = None → from_ranges w0 = (r0, w1) → true_node (la_dir w1)) as Hranges.
  { intros w0 r0 w1 T0 C0 E. unfold from_ranges in E. destruct (bool_decide _); [by eapply Hweb|].
    destruct (assemble_from_ranges _ _ _ _ _ spec o w0) as [o1 w2] eqn:E1.
    pose proof (assemble_from_ranges_ok hex_encode _ _ _ _ _ _ _ Hserves name _ _ _ _ _ Hn (tn_clean _ T0) O E1) as (_ & _ & S & _).
    apply assemble_from_ranges_true in E1; [|done..]. destruct o1 as [|e|]; [by eapply Hdone| |by injection E as _ <-].
    eapply Hweb; [exact E1| |exact E]. rewrite <- C0. apply cached_same. by apply (S e). }
  destruct (full_file o) as [[peer h]|] eqn:Ef; [|by eapply Hranges].
  destruct (fetch_full_blob _ _ _ _ _ _ _ w) as [o1 w1] eqn:E1.
  pose proof (fetch_full_blob_ok hex_encode _ _ _ _ _ _ _ Hserves name _ _ _ _ _ _ _ _ (tn_clean _ T) O Ef E1) as (_ & _ & _ & _ & S & _).
  apply fetch_full_blob_true in E1; [|done..]. destruct o1 as [|e|]; [by eapply Hdone| |by injection H as _ <-].
  eapply Hranges; [exact E1| |exact H]. rewrite <- Ec. apply cached_same. by apply (S e).
Qed.

(** The header and the pieces of the planned ranges. *)
Definition layers_there (layers : list Z) (lf : LayerFetch) (d : LanDir) : Prop :=
  parse F = Ok (lf_header lf) ∧ lf_total_size lf = len F ∧
  ∀ plan x s e, plan_ranges (lf_header lf) (len F) layers = Ok plan → x ∈ rp_ranges plan →
    br_start x ≤ s < e → e ≤ br_end x → e ≤ len F → read_range (range_store listing d) s e = Ok (slice F (s, e)).

Lemma share_plan_dir plan w : la_dir (share_plan_ranges plan w) = la_dir w.
Proof using.
  unfold share_plan_ranges. revert w. induction (rp_ranges plan) as [|r rs IH]; intros w; [done|].
  cbn [foldl]. rewrite IH. destruct (ld_files (la_dir w) !! range_key r); [|done]. by destruct (_ =? _).
Qed.

Lemma whole_layers layers n h d f :
  true_node d → model_file listing d = Some f → parse F = Ok h → layers_there layers (MkLayerFetch n h (len f.2)) d.
Proof using Hserves.
  intros T Hf Hh. assert (f.2 = F) as HF by (eapply model_file_clean; [exact Hserves|apply T|exact Hf]).
  split; [done|]. split; [cbn; by rewrite HF|]. intros plan x s e Hp Hx Hs He HeF. cbn in Hp.
  apply plan_ranges_bounds in Hp as [_ Hnn]. rewrite list.Forall_forall in Hnn. specialize (Hnn x Hx).
  assert (clean F (range_store listing d)) as Hc by (eapply range_store_clean; [exact Hserves|apply T]).
  destruct (read_model_found F (range_store listing d) s e) as [b Hb]; [cbn; by rewrite Hf, <- HF|lia|done|].
  rewrite Hb. f_equal. eapply read_range_sound; [exact Hc|lia|exact Hb].
Qed.

Lemma fetch_layers_true peers url file_name layers w r w' :
  true_node (la_dir w) → Forall (true_peer digest F) peers →
  fetch_layers hex_encode listing hash web web_header blob peers url file_name layers w = (r, w') →
  r ≠ Panic ∧ true_node (la_dir w') ∧ ∀ lf, r = Ok lf → layers_there layers lf (la_dir w').
Proof using Hserves.
  intros T P H. unfold fetch_layers in H. pose proof (offers_true _ _ _ P) as O. set (o := query_peer_offers peers) in *.
  destruct (obtain_header _ _ _ _ _ _) as [r1 w1] eqn:E1.
  pose proof (obtain_header_true _ _ _ _ _ T O E1) as T1.
  pose proof (obtain_header_ok _ _ _ _ _ _ _ Hserves name _ _ _ _ _ (tn_clean _ T) O E1) as (_ & _ & Hh).
  destruct r1 as [[[h total] n]|e|]; [|clear Hh|done].
  - destruct Hh as [Hh ->]. pose proof (plan_ranges_total h (len F) layers) as Hnp.
    destruct (plan_ranges h (len F) layers) as [plan|e|] eqn:E2; [|by injection H as <- <-|done].
    pose proof (plan_ranges_bounds _ _ _ _ E2) as [Ht Hnn].
    destruct (fetch_plan_core _ _ _ _ _ o plan w1) as [r2 w2] eqn:E4.
    pose proof (fetch_plan_core_ok _ _ _ _ _ _ _ _ Hserves name _ _ _ _ _ _ (tn_clean _ T1) O Ht Hnn E4) as (Hnp2 & _ & _ & Hok).
    apply fetch_plan_core_true in E4; [|done..].
    destruct r2 as [out|e|]; [|by injection H as <- <-|done]. injection H as <- <-. rewrite share_plan_dir.
    split; [done|]. split; [done|]. intros lf [= <-]. split; [done|]. split; [done|].
    intros plan' x s e Hp Hx Hs He _. cbn in Hp. assert (plan' = plan) as -> by congruence.
    destruct (Hok out eq_refl) as [Hread _]. by apply (Hread x).
  - destruct (full_file o) as [[peer hs]|] eqn:Ef; [|by injection H as <- <-].
    destruct (fetch_full_blob _ _ _ _ _ _ _ w1) as [o1 w2] eqn:E2.
    pose proof (fetch_full_blob_ok hex_encode _ _ _ _ _ _ _ Hserves name _ _ _ _ _ _ _ _ (tn_clean _ T1) O Ef E2) as (Hnp & _).
    apply fetch_full_blob_true in E2; [|done..].
    destruct o1 as [n|e'|]; [|by injection H as <- <-|done]. injection H as <- <-.
    destruct (model_file listing (la_dir w2)) as [f|] eqn:Em; [|done]. cbn [ok_or mbind res_bind].
    assert (f.2 = F) as HF by (eapply model_file_clean; [exact Hserves|apply E2|exact Em]).
    rewrite HF. change FUEL with 64%nat. rewrite parse_local_header_exact by apply (ls_size _ _ _ _ _ _ _ Hserves).
    pose proof (parse_total F) as Hp. destruct (parse F) as [h|er|] eqn:Eh; [|done..]. cbn.
    split; [done|]. split; [done|]. intros lf [= <-].
    pose proof (whole_layers layers (MkFetched n 0) h (la_dir w2) f E2 Em Eh) as Hl. by rewrite HF in Hl.
Qed.

(** ** Runs *)

(** The directories of the nodes, and every inventory given so far: an
    answer may be used long after it was true. *)
Record Swarm := MkSwarm { sw_dirs : nat → LanDir; sw_said : list (Z * list (WireRange (Hash := Hash))) }.

Definition set_node (i : nat) (d : LanDir) (s : Swarm) : Swarm :=
  MkSwarm (λ j, if decide (j = i) then d else sw_dirs s j) (sw_said s).
Definition answered (s : Swarm) (p : QueryPeer (Hash := Hash)) : Prop := ∀ a, qp_answer p = Some a → a ∈ sw_said s.

Inductive swarm_step : Swarm → Swarm → Prop :=
  | swarm_ask s i a :
      inventory_of_dir hex_hash listing (sw_dirs s i) = Some a →
      swarm_step s (MkSwarm (sw_dirs s) (a :: sw_said s))
  | swarm_download s i peers spec w r w' :
      la_dir w = sw_dirs s i → Forall (answered s) peers → ds_file_name spec = name →
      download_one_lan_first hex_encode listing hash web web_header web_file blob peers spec w = (r, w') →
      swarm_step s (set_node i (la_dir w') s)
  | swarm_layers s i peers url file_name layers w r w' :
      la_dir w = sw_dirs s i → Forall (answered s) peers →
      fetch_layers hex_encode listing hash web web_header blob peers url file_name layers w = (r, w') →
      swarm_step s (set_node i (la_dir w') s)
  | swarm_evict s i : swarm_step s (set_node i empty_dir s).

Definition swarm_start : Swarm := MkSwarm (λ _, empty_dir) [].

Definition swarm_ok (s : Swarm) : Prop :=
  (∀ i, true_node (sw_dirs s i)) ∧ ∀ a, a ∈ sw_said s → Forall (true_offer digest F a.1) a.2.

Lemma answered_true s peers : swarm_ok s → Forall (answered s) peers → Forall (true_peer digest F) peers.
Proof using.
  intros [_ S] P. eapply Forall_impl; [exact P|]. intros p Hp total rs Ha. by apply (S (total, rs)), Hp.
Qed.

Lemma set_node_ok i d s : true_node d → swarm_ok s → swarm_ok (set_node i d s).
Proof using. intros T [N S]. split; [|exact S]. intros j. cbn. by destruct (decide (j = i)). Qed.

Lemma swarm_step_ok s s' : (∀ h, hex_hash (hex_encode h) = Some h) → swarm_step s s' → swarm_ok s → swarm_ok s'.
Proof using Hserves.
  intros Hhex H K. pose proof K as [N S]. destruct H as [s i a Ha|s i peers spec w r w' Hw P Hn H|s i peers url fn layers w r w' Hw P H|s i].
  - split; [exact N|]. intros b [->|Hb]%elem_of_cons; [|by apply S]. destruct a. by eapply inventory_true.
  - apply set_node_ok; [|done]. eapply lan_first_true; [exact Hn| |by eapply answered_true|exact H]. by rewrite Hw.
  - apply set_node_ok; [|done]. eapply fetch_layers_true in H as (_ & T & _); [exact T|by rewrite Hw|by eapply answered_true].
  - apply set_node_ok; [apply true_empty|done].
Qed.

Lemma swarm_reach s : (∀ h, hex_hash (hex_encode h) = Some h) → rtc swarm_step swarm_start s → swarm_ok s.
Proof using Hserves.
  intros Hhex H. assert (swarm_ok swarm_start) as H0.
  { split; [intros i; apply true_empty|]. by intros a Ha%not_elem_of_nil. }
  revert H0. induction H as [|s1 s2 s3 H12 _ IH]; [done|]. intros H1. apply IH. by eapply swarm_step_ok.
Qed.
End Swarm.

(** C22: a swarm of nodes keeps and spreads the file.  In every run, from empty
    directories, of downloads, layer fetches, evictions and inventories asked
    for at any time and used at any later time, with any transfer failing:
    every complete file is the file and every range file its piece; every
    inventory given is true; a download ends with the file or with the failure
    of the web download it fell back to; and a layer fetch never panics and,
    when it succeeds, has the header of the file and every piece of the
    layers' ranges.  Nothing is assumed of what the nodes say. *)
Theorem swarm_spreads {Hash : Type} hex_encode hex_hash listing (digest : bytes → Hash) web web_header web_file blob F name s :
  lan_serves listing digest web web_header web_file blob F → (∀ h, hex_hash (hex_encode h) = Some h) →
  rtc (swarm_step hex_encode hex_hash listing digest web web_header web_file blob name) swarm_start s →
  (∀ i n c, ld_regular (sw_dirs s i) !! n = Some c → c = F) ∧
  (∀ i k c, ld_files (sw_dirs s i) !! k = Some c → c = slice F k) ∧
  (∀ i total rs, inventory_of_dir hex_hash listing (sw_dirs s i) = Some (total, rs) → Forall (true_offer digest F total) rs) ∧
  (∀ i peers spec w r w', la_dir w = sw_dirs s i → Forall (answered s) peers → ds_file_name spec = name →
     download_one_lan_first hex_encode listing (blake3_hex hex_encode digest) web web_header web_file blob peers spec w = (r, w') →
     r = Ok () ∧ ld_regular (la_dir w') !! name = Some F ∨ ∃ e, r = Err (LDownload e)) ∧
  (∀ i peers url file_name layers w r w', la_dir w = sw_dirs s i → Forall (answered s) peers →
     fetch_layers hex_encode listing (blake3_hex hex_encode digest) web web_header blob peers url file_name layers w = (r, w') →
     r ≠ Panic ∧ ∀ lf, r = Ok lf → layers_there listing F layers lf (la_dir w')).
Proof.
  intros Hs Hhex H. eapply swarm_reach in H as K; [|exact Hs|exact Hhex]. pose proof K as [N S].
  split; [intros i; apply (lc_regular F name _ (tn_clean _ _ _ _ _ (N i)))|].
  split; [intros i k c Hk; by apply (lc_files F name _ (tn_clean _ _ _ _ _ (N i))) in Hk as [_ ?]|].
  split; [intros i total rs Hi; by eapply inventory_true|]. split.
  - intros i peers spec w r w' Hw P Hn Hd. eapply answered_true in P; [|exact K].
    destruct (cached_file spec (la_dir w)) as [size|] eqn:Ec.
    + eapply lan_first_cached in Hd as (-> & _ & Hf & _); [by left|exact Hs|exact Hn| |exact Ec]. rewrite Hw. apply N.
    + eapply lan_first_delivers in Hd as [(Hnp & _ & He & Hok) _]; [|exact Hs|exact Hn|rewrite Hw; apply N|exact P|exact Ec].
      destruct r as [[]|e|]; [left; split; [done|by apply Hok]|right; destruct (He e eq_refl) as [e' ->]; by eexists|done].
  - intros i peers url fn layers w r w' Hw P Hd. eapply answered_true in P; [|exact K].
    eapply fetch_layers_true in Hd as (Hnp & _ & Hl); [by split|exact Hs| |exact P]. rewrite Hw. apply N.
Qed.

(** ** Example: one node downloads, another gets everything from it *)
Definition ex_unhex (s : string) : option bytes := Some (list_ascii_of_string s).
Definition ex_answer : Z * list (WireRange (Hash := bytes)) := (10, [(0, 10, ex_file)]).
Definition ex_swarm_step := swarm_step ex_hash ex_unhex ex_listing id (λ _, ex_server) ex_no_header (λ _, ex_dl_server) ex_blob "m.gguf".
Definition ex_node0 : LanDir := la_dir (ex_first [] ex_lan).2.
Definition ex_asker : QueryPeer (Hash := bytes) := MkQueryPeer "a" Connected (Some ex_answer).
Definition ex_swarm : Swarm := MkSwarm (sw_dirs (set_node 0 ex_node0 (swarm_start (Hash := bytes)))) [ex_answer].

Lemma ex_swarm_run : rtc ex_swarm_step swarm_start ex_swarm.
Proof.
  eapply rtc_l; [|apply rtc_once].
  - apply (swarm_download _ _ _ _ _ _ _ _ _ swarm_start 0 [] (MkSpec "k" "u" "m.gguf") ex_lan (Ok ()) (ex_first [] ex_lan).2);
      [done|constructor|done|]. vm_compute. reflexivity.
  - apply (swarm_ask _ _ _ _ _ _ _ _ _ (set_node 0 ex_node0 swarm_start) 0 ex_answer). vm_compute. reflexivity.
Qed.

Lemma swarm_spreads_witness :
  rtc ex_swarm_step swarm_start ex_swarm ∧
  (let '(r, w) := ex_first [ex_asker] ex_lan in
   r = Ok () ∧ la_web w = 0%nat ∧ ld_regular (la_dir w) !! "m.gguf" = Some ex_file).
Proof.
  split; [exact ex_swarm_run|]. destruct (ex_first [ex_asker] ex_lan) as [r w] eqn:E.
  destruct (swarm_spreads ex_hash ex_unhex ex_listing id (λ _, ex_server) ex_no_header (λ _, ex_dl_server) ex_blob ex_file "m.gguf" ex_swarm)
    as (_ & _ & _ & Hd & _).
  - exact ex_lan_serves.
  - intros h. unfold ex_unhex, ex_hash. by rewrite list_ascii_of_string_of_list_ascii.
  - exact ex_swarm_run.
  - specialize (Hd 1%nat [ex_asker] (MkSpec "k" "u" "m.gguf") ex_lan r w eq_refl).
    destruct Hd as [[-> Hf]|[e ->]].
    + apply Forall_cons; split; [|constructor]. intros a [= <-]. left.
    + done.
    + exact E.
    + split; [done|]. split; [|exact Hf]. vm_compute in E. by injection E as <-.
    + exfalso. vm_compute in E. discriminate E.
Defined.
