(* ===== verification/RpcCache.v ===== *)
(** * The cache of the RPC tensor protocol ([onebrain-engine/src/rpc_cache.rs],
    [preseed_rpc_cache] and [reap_rpc_cache] of [onebraind/src/logistics.rs])

    A worker keeps the tensors it serves in files named by their FNV-1a hash,
    which is the key the head asks by.  Before an epoch it writes the tensors
    it owns from its range store; a reaper keeps the directory below a cap. *)

From Stdlib Require Import ZArith Lia Sorted Ascii String.
From stdpp Require Import base list strings option gmap.
From S2P Require Import Prelude StrUtil Gguf Http Ranges RangePlan.

Open Scope Z_scope.

(** ** Names *)
Definition RPC_HASH_THRESHOLD : Z := 10 * 1024 * 1024.
Definition FNV_OFFSET_BASIS : Z := 0xcbf29ce484222325.
Definition FNV_PRIME : Z := 0x100000001b3.

Definition fnv1a64 (b : bytes) : Z :=
  foldl (λ hash x, u64_mul (Z.lxor hash (byte_val x)) FNV_PRIME) FNV_OFFSET_BASIS b.

Definition hex_digit (n : Z) : ascii := byte_of (if n <? 10 then 48 + n else 87 + n).

(** [{:016x}] of a 64-bit value, least digit last. *)
Fixpoint hex_digits (n : nat) (v : Z) : list ascii :=
  match n with
  | O => []
  | S n => hex_digits n (v / 16) ++ [hex_digit (v mod 16)]
  end.
Definition rpc_cache_filename (payload : bytes) : string := string_of_list_ascii (hex_digits 16 (fnv1a64 payload)).

(** ** The cache directory: contents and modification times by name *)
Record RpcFile := MkRpcFile { rf_bytes : bytes; rf_modified : Z }.
#[global] Instance rpc_file_eq_dec : EqDecision RpcFile.
Proof. solve_decision. Defined.
Abbreviation RpcDir := (gmap string RpcFile).

Record PreseedStats := MkStats { ps_seeded : Z; ps_seeded_bytes : Z; ps_present : Z; ps_protected : gset string }.
Definition no_stats : PreseedStats := MkStats 0 0 0 ∅.

Inductive PreseedError := PNoDir | PHeader (e : GgufError) | PWrite (name : string).

Definition tmp_name (name : string) : string := name +:+ ".tmp".

Section Cache.
(** The clock at the [n]-th file written or touched; the names whose time
    cannot be set; and the names whose writing fails, with what stays of the
    temporary file. *)
Context (clock : nat → Z) (untouchable : string → bool) (fault : string → option (option bytes)).
(** Above how many bytes a tensor is looked up by its hash. *)
Context (threshold : Z).

(** The tensor bytes to seed, if the tensor is owned, large and local. *)
Definition seed_payload (d : Ranges.Disk) (layers : list Z) (tr : TensorRange) : option bytes :=
  let owned := match tensor_layer (tr_name tr) with Some l => bool_decide (l ∈ layers) | None => false end in
  if negb owned || (sat_sub (tr_end tr) (tr_start tr) <=? threshold) then None
  else match read_range d (tr_start tr) (tr_end tr) with Ok b => Some b | _ => None end.

Record Preseed := MkPreseed { pr_dir : RpcDir; pr_time : nat; pr_stats : PreseedStats }.

Definition touch_rpc (name : string) (f : RpcFile) (now : Z) (dir : RpcDir) : RpcDir :=
  if untouchable name then dir else <[name := MkRpcFile (rf_bytes f) now]> dir.

(** One payload: an entry of its name and length counts as present;
    otherwise it is written beside and renamed. *)
Definition preseed_payload (payload : bytes) (p : Preseed) : res PreseedError unit * Preseed :=
  let name := rpc_cache_filename payload in
  let now := clock (pr_time p) in
  let s := pr_stats p in
  let protected := {[name]} ∪ ps_protected s in
  match (f ← pr_dir p !! name; if len (rf_bytes f) =? len payload then Some f else None) with
  | Some f =>
      (Ok (), MkPreseed (touch_rpc name f now (pr_dir p)) (S (pr_time p))
                (MkStats (ps_seeded s) (ps_seeded_bytes s) (u32_add (ps_present s) 1) protected))
  | None =>
      match fault name with
      | Some rest =>
          (Err (PWrite name),
           MkPreseed (match rest with Some b => <[tmp_name name := MkRpcFile b now]> (pr_dir p) | None => pr_dir p end)
             (S (pr_time p)) s)
      | None =>
          (Ok (), MkPreseed (<[name := MkRpcFile payload now]> (delete (tmp_name name) (pr_dir p))) (S (pr_time p))
                    (MkStats (u32_add (ps_seeded s) 1) (u64_add (ps_seeded_bytes s) (len payload)) (ps_present s) protected))
      end
  end.

Fixpoint preseed_loop (d : Ranges.Disk) (layers : list Z) (trs : list TensorRange) (p : Preseed) : res PreseedError unit * Preseed :=
  match trs with
  | [] => (Ok (), p)
  | tr :: trs =>
      match seed_payload d layers tr with
      | None => preseed_loop d layers trs p
      | Some payload =>
          match preseed_payload payload p with
          | (Ok _, p) => preseed_loop d layers trs p
          | r => r
          end
      end
  end.

(** [dir_ok]: the cache directory exists or can be created. *)
Definition preseed_above (dir_ok : bool) (d : Ranges.Disk) (header : GgufHeader) (total_size : Z) (layers : list Z) (dir : RpcDir) :
    res PreseedError PreseedStats * RpcDir :=
  if negb dir_ok then (Err PNoDir, dir)
  else match tensor_ranges header total_size with
       | Err e => (Err (PHeader e), dir)
       | Panic => (Panic, dir)
       | Ok trs =>
           match preseed_loop d layers trs (MkPreseed dir 0 no_stats) with
           | (Ok _, p) => (Ok (pr_stats p), pr_dir p)
           | (Err e, p) => (Err e, pr_dir p)
           | (Panic, p) => (Panic, pr_dir p)
           end
       end.
End Cache.

Definition preseed_rpc_cache (clock : nat → Z) (untouchable : string → bool) (fault : string → option (option bytes)) :
    bool → Ranges.Disk → GgufHeader → Z → list Z → RpcDir → res PreseedError PreseedStats * RpcDir :=
  preseed_above clock untouchable fault RPC_HASH_THRESHOLD.

(** ** The reaper *)
Definition cmp_file (a b : string * RpcFile) : comparison :=
  cmp_then (rf_modified a.2 ?= rf_modified b.2) (String.compare a.1 b.1).

(** [stuck] are the files that cannot be removed. *)
Fixpoint reap_loop (max_bytes : Z) (protected : gset string) (stuck : string → bool)
    (files : list (string * RpcFile)) (total freed : Z) (dir : RpcDir) : Z * RpcDir :=
  match files with
  | [] => (freed, dir)
  | (name, f) :: files =>
      if total <=? max_bytes then (freed, dir)
      else if bool_decide (name ∈ protected) then reap_loop max_bytes protected stuck files total freed dir
      else if stuck name then reap_loop max_bytes protected stuck files total freed dir
      else reap_loop max_bytes protected stuck files (u64_sub total (len (rf_bytes f))) (u64_add freed (len (rf_bytes f)))
             (delete name dir)
  end.

(** [None] is a directory that does not exist. *)
Definition reap_rpc_cache (stuck : string → bool) (dir : option RpcDir) (max_bytes : Z) (protected : gset string) : Z * option RpcDir :=
  match dir with
  | None => (0, None)
  | Some dir =>
      let files := map_to_list dir in
      let total := u64_sum ((λ e : string * RpcFile, len (rf_bytes e.2)) <$> files) in
      if total <=? max_bytes then (0, Some dir)
      else match reap_loop max_bytes protected stuck (sort_by cmp_file files) total 0 dir with
           | (freed, dir) => (freed, Some dir)
           end
  end.

(** ** Names and hashes *)
Example fnv1a64_a : fnv1a64 (list_ascii_of_string "a") = 0xaf63dc4c8601ec8c.
Proof. vm_compute. reflexivity. Qed.
Example fnv1a64_foobar : fnv1a64 (list_ascii_of_string "foobar") = 0x85944171f73967e8.
Proof. vm_compute. reflexivity. Qed.
Example rpc_cache_filename_baa : rpc_cache_filename (list_ascii_of_string "baa") = "0039231913392937".
Proof. vm_compute. reflexivity. Qed.

Lemma fnv1a64_range b : 0 ≤ fnv1a64 b < 2 ^ 64.
Proof.
  unfold fnv1a64. assert (0 ≤ FNV_OFFSET_BASIS < 2 ^ 64) as H by (vm_compute; split; [discriminate|reflexivity]).
  revert H. generalize FNV_OFFSET_BASIS. induction b as [|x b IH]; intros h H; [exact H|]. apply IH, wrap64_range.
Qed.

Definition hex_value (c : ascii) : Z := let v := byte_val c in if v <? 58 then v - 48 else v - 87.
Definition unhex (l : list ascii) : Z := foldl (λ acc c, 16 * acc + hex_value c) 0 l.
Definition is_lower_hex (c : ascii) : bool := between 48 57 c || between 97 102 c.

Lemma hex_digit_ok n : 0 ≤ n < 16 → is_lower_hex (hex_digit n) = true ∧ hex_value (hex_digit n) = n.
Proof.
  intros H.
  assert (forallb (λ n, is_lower_hex (hex_digit n) && (hex_value (hex_digit n) =? n)) (seqZ 0 16) = true) as Ht by (vm_compute; reflexivity).
  rewrite forallb_forall in Ht. destruct (andb_prop _ _ (Ht n ltac:(apply list_elem_of_In, elem_of_seqZ; lia))) as [? ?%Z.eqb_eq]. done.
Qed.

Lemma hex_digits_ok n v :
  0 ≤ v < 16 ^ Z.of_nat n →
  length (hex_digits n v) = n ∧ forallb is_lower_hex (hex_digits n v) = true ∧ unhex (hex_digits n v) = v.
Proof.
  revert v. induction n as [|n IH]; intros v H; [change (16 ^ Z.of_nat 0) with 1 in H; repeat split; unfold unhex; cbn; lia|].
  rewrite Nat2Z.inj_succ, Z.pow_succ_r in H by lia. cbn [hex_digits].
  destruct (IH (v / 16)) as (Hl & Hx & Hv); [split; [apply Z.div_pos; lia|apply Z.div_lt_upper_bound; lia]|].
  destruct (hex_digit_ok (v mod 16)) as [Hd Hd']; [by apply Z.mod_pos_bound|].
  rewrite length_app, Hl. split; [simpl; lia|]. rewrite forallb_app, Hx. split; [simpl; by rewrite Hd|].
  unfold unhex in *. rewrite foldl_app, Hv. cbn [foldl]. rewrite Hd'. pose proof (Z.div_mod v 16). lia.
Qed.

Lemma filename_digits b : list_ascii_of_string (rpc_cache_filename b) = hex_digits 16 (fnv1a64 b).
Proof. apply list_ascii_of_string_of_list_ascii. Qed.

Lemma filename_inj p q : rpc_cache_filename p = rpc_cache_filename q → fnv1a64 p = fnv1a64 q.
Proof.
  intros H. apply (f_equal list_ascii_of_string) in H. rewrite !filename_digits in H.
  apply (f_equal unhex) in H. by rewrite !(proj2 (proj2 (hex_digits_ok 16 _ (fnv1a64_range _)))) in H.
Qed.

Lemma filename_length p : String.length (rpc_cache_filename p) = 16%nat.
Proof.
  rewrite <- (proj1 (hex_digits_ok 16 _ (fnv1a64_range p))). unfold rpc_cache_filename.
  induction (hex_digits 16 (fnv1a64 p)) as [|c l IH]; [done|]. simpl. by rewrite IH.
Qed.

Lemma filename_not_tmp p q : rpc_cache_filename p ≠ tmp_name (rpc_cache_filename q).
Proof.
  intros H. apply (f_equal String.length) in H. unfold tmp_name in H.
  rewrite string_length_app, !filename_length in H. simpl in H. lia.
Qed.

(** ** What a pre-seed leaves *)

Lemma wrap32_add x y z : wrap32 x = wrap32 y → wrap32 (x + z) = wrap32 (y + z).
Proof. unfold wrap32. intros H. by rewrite <- (Z.add_mod_idemp_l x), H, Z.add_mod_idemp_l. Qed.

(** Every entry is named by its content, or a temporary file. *)
Definition named (dir : RpcDir) : Prop :=
  ∀ n f, dir !! n = Some f → n = rpc_cache_filename (rf_bytes f) ∨ ∃ q, n = tmp_name (rpc_cache_filename q).

Section Preseed.
Context (clock : nat → Z) (untouchable : string → bool) (fault : string → option (option bytes)).
Notation preseed_payload := (preseed_payload clock untouchable fault).

Fixpoint preseed_all (payloads : list bytes) (p : Preseed) : res PreseedError unit * Preseed :=
  match payloads with
  | [] => (Ok (), p)
  | b :: payloads => match preseed_payload b p with (Ok _, p) => preseed_all payloads p | r => r end
  end.

Lemma preseed_loop_all threshold d layers trs p :
  preseed_loop clock untouchable fault threshold d layers trs p = preseed_all (omap (seed_payload threshold d layers) trs) p.
Proof using.
  revert p. induction trs as [|tr trs IH]; intros p; [done|]. cbn. destruct (seed_payload _ _ _ tr) as [b|]; [|apply IH].
  cbn. by destruct (preseed_payload b p) as [[]].
Qed.

Definition elsewhere (b : bytes) (n : string) : Prop := n ≠ rpc_cache_filename b ∧ n ≠ tmp_name (rpc_cache_filename b).

Lemma preseed_payload_spec b p o p' :
  named (pr_dir p) → preseed_payload b p = (o, p') →
  o ≠ Panic ∧ named (pr_dir p') ∧ (∀ n, elsewhere b n → pr_dir p' !! n = pr_dir p !! n) ∧
  (∀ e, o = Err e → e = PWrite (rpc_cache_filename b) ∧ fault (rpc_cache_filename b) ≠ None) ∧
  (o = Ok () →
    ps_protected (pr_stats p') = {[rpc_cache_filename b]} ∪ ps_protected (pr_stats p) ∧
    wrap32 (ps_seeded (pr_stats p') + ps_present (pr_stats p')) = wrap32 (ps_seeded (pr_stats p) + ps_present (pr_stats p) + 1) ∧
    ∃ c t, pr_dir p' !! rpc_cache_filename b = Some (MkRpcFile c t) ∧ len c = len b ∧ fnv1a64 c = fnv1a64 b ∧
      (c = b ∨ ∃ f, pr_dir p !! rpc_cache_filename b = Some f ∧ rf_bytes f = c)).
Proof using.
  intros N H. unfold RpcCache.preseed_payload in H. cbv zeta in H. set (n := rpc_cache_filename b) in *.
  assert (wrap32 (ps_seeded (pr_stats p) + u32_add (ps_present (pr_stats p)) 1)
    = wrap32 (ps_seeded (pr_stats p) + ps_present (pr_stats p) + 1) ∧
    wrap32 (u32_add (ps_seeded (pr_stats p)) 1 + ps_present (pr_stats p))
    = wrap32 (ps_seeded (pr_stats p) + ps_present (pr_stats p) + 1)) as [W1 W2].
  { unfold u32_add, wrap32. rewrite Z.add_mod_idemp_r, Z.add_mod_idemp_l by lia. split; f_equal; lia. }
  destruct (f ← pr_dir p !! n; _) as [f|] eqn:Ef.
  - apply bind_Some in Ef as (f' & Hf & Hl). destruct (Z.eqb_spec (len (rf_bytes f')) (len b)) as [El|]; [|done].
    injection Hl as ->. destruct (N n f Hf) as [Hn|[q Hq]]; [|by apply filename_not_tmp in Hq].
    injection H as <- <-. unfold touch_rpc. cbn [pr_dir pr_stats ps_protected ps_seeded ps_present].
    split; [done|]. split; [|split; [|split; [done|]]].
    + destruct (untouchable n); [done|]. intros m g. destruct (decide (m = n)) as [->|Hne].
      * rewrite lookup_insert_eq. intros [= <-]. by left.
      * rewrite lookup_insert_ne by done. apply N.
    + intros m [Hm _]. destruct (untouchable n); [done|]. by rewrite lookup_insert_ne.
    + intros _. split; [done|]. split; [exact W1|]. apply filename_inj in Hn.
      destruct (untouchable n); [exists (rf_bytes f), (rf_modified f)|exists (rf_bytes f), (clock (pr_time p))].
      * rewrite Hf. destruct f. split; [done|]. split; [done|]. split; [done|]. right. by eexists.
      * rewrite lookup_insert_eq. split; [done|]. split; [done|]. split; [done|]. right. by exists f.
  - destruct (fault n) as [rest|] eqn:Efa; injection H as <- <-; cbn [pr_dir pr_stats ps_protected ps_seeded ps_present].
    + split; [done|]. split; [|split; [|split; [by intros e [= <-]|done]]].
      * destruct rest as [c|]; [|done]. intros m g. destruct (decide (m = tmp_name n)) as [->|Hne].
        -- intros _. right. by eexists.
        -- rewrite lookup_insert_ne by done. apply N.
      * intros m [_ Hm]. destruct rest; [|done]. by rewrite lookup_insert_ne.
    + split; [done|]. split; [|split; [|split; [done|]]].
      * intros m g. destruct (decide (m = n)) as [->|Hne].
        -- rewrite lookup_insert_eq. intros [= <-]. by left.
        -- rewrite lookup_insert_ne by done. intros [_ Hg]%lookup_delete_Some. by apply N.
      * intros m [Hm Ht]. rewrite lookup_insert_ne, lookup_delete_ne by done. done.
      * intros _. split; [done|]. split; [exact W2|]. exists b, (clock (pr_time p)). rewrite lookup_insert_eq.
        split; [done|]. split; [done|]. split; [done|]. by left.
Qed.

(** [S] holds what is cached and what is to be seeded; its hashes differ. *)
Definition playing (S : bytes → Prop) (dir : RpcDir) : Prop :=
  ∀ n f, dir !! n = Some f → n = rpc_cache_filename (rf_bytes f) → S (rf_bytes f).
Definition tells (S : bytes → Prop) : Prop := ∀ p q, S p → S q → fnv1a64 p = fnv1a64 q → p = q.
Definition holds (dir : RpcDir) (b : bytes) : Prop := ∃ t, dir !! rpc_cache_filename b = Some (MkRpcFile b t).

Lemma preseed_payload_holds S b p p' :
  tells S → named (pr_dir p) → playing S (pr_dir p) → S b → preseed_payload b p = (Ok (), p') →
  playing S (pr_dir p') ∧ holds (pr_dir p') b ∧ ∀ q, S q → holds (pr_dir p) q → holds (pr_dir p') q.
Proof using.
  intros T N P Hb H. apply preseed_payload_spec in H as (_ & N' & Hframe & _ & Hok); [|done].
  destruct (Hok eq_refl) as (_ & _ & c & t & Hc & _ & Hfnv & Hor).
  assert (c = b) as ->.
  { destruct Hor as [?|(f & Hf & <-)]; [done|]. apply T; [|done|done]. apply (P _ _ Hf).
    destruct (N _ _ Hf) as [?|[q Hq]]; [done|by apply filename_not_tmp in Hq]. }
  split; [|split; [by exists t|]].
  - intros n f Hf Hn. destruct (decide (n = rpc_cache_filename b)) as [Heq|Hne].
    + rewrite Heq, Hc in Hf. by injection Hf as <-.
    + rewrite Hframe in Hf; [by apply (P n)|]. split; [done|]. rewrite Hn. apply filename_not_tmp.
  - intros q Hq (t' & Ht'). destruct (decide (rpc_cache_filename q = rpc_cache_filename b)) as [Heq|Hne].
    + assert (q = b) as -> by (apply T; [done..|by apply filename_inj]). by exists t.
    + exists t'. rewrite Hframe; [done|]. split; [done|apply filename_not_tmp].
Qed.

Lemma preseed_all_spec payloads p o p' :
  named (pr_dir p) → preseed_all payloads p = (o, p') →
  o ≠ Panic ∧ named (pr_dir p') ∧
  (∀ n, (∀ b, b ∈ payloads → elsewhere b n) → pr_dir p' !! n = pr_dir p !! n) ∧
  (∀ e, o = Err e → ∃ b, b ∈ payloads ∧ e = PWrite (rpc_cache_filename b) ∧ fault (rpc_cache_filename b) ≠ None) ∧
  (o = Ok () →
    ps_protected (pr_stats p') = ps_protected (pr_stats p) ∪ list_to_set (rpc_cache_filename <$> payloads) ∧
    wrap32 (ps_seeded (pr_stats p') + ps_present (pr_stats p'))
      = wrap32 (ps_seeded (pr_stats p) + ps_present (pr_stats p) + Z.of_nat (length payloads))).
Proof using.
  revert p. induction payloads as [|b payloads IH]; intros p N H; cbn [preseed_all] in H.
  { injection H as <- <-. split; [done|]. split; [done|]. split; [done|]. split; [done|]. intros _. split; [cbn; by rewrite (right_id_L ∅ (∪))|].
    cbn. by rewrite Z.add_0_r. }
  destruct (preseed_payload b p) as [o1 p1] eqn:E. pose proof (preseed_payload_spec _ _ _ _ N E) as (Hnp & N1 & F1 & He1 & Hok1).
  destruct o1 as [[]|e|]; [| |done].
  - apply IH in H as (A & B & C & D & K); [|done]. split; [done|]. split; [done|]. split; [|split].
    + intros n Hn. rewrite C by (intros q Hq; apply Hn; by right). apply F1, Hn. by left.
    + intros e He. destruct (D e He) as (q & Hq & Hrest). exists q. split; [by right|done].
    + intros Ho. destruct (K Ho) as [-> ->]. destruct (Hok1 eq_refl) as (-> & Hw & _). split; [cbn; by rewrite (assoc_L (∪)), (comm_L (∪) (ps_protected _))|].
      rewrite length_cons, (wrap32_add _ _ _ Hw). f_equal. lia.
  - injection H as <- <-. split; [done|]. split; [done|]. split; [intros n Hn; apply F1, Hn; by left|]. split; [|done].
    intros e' [= <-]. destruct (He1 e eq_refl) as [-> ?]. exists b. split; [by left|done].
Qed.

Lemma preseed_all_holds S payloads p p' :
  tells S → named (pr_dir p) → playing S (pr_dir p) → Forall S payloads → preseed_all payloads p = (Ok (), p') →
  playing S (pr_dir p') ∧ Forall (holds (pr_dir p')) payloads ∧ ∀ q, S q → holds (pr_dir p) q → holds (pr_dir p') q.
Proof using.
  intros T N P HS. revert p N P. induction HS as [|b payloads Hb HS IH]; intros p N P H; cbn [preseed_all] in H.
  { injection H as <-. split; [done|]. split; [constructor|]. by intros q _. }
  destruct (preseed_payload b p) as [o1 p1] eqn:E. destruct o1 as [[]|e|]; [|done..].
  pose proof (preseed_payload_spec _ _ _ _ N E) as (_ & N1 & _).
  destruct (preseed_payload_holds S _ _ _ T N P Hb E) as (P1 & H1 & K1).
  apply IH in H as (P2 & H2 & K2); [|done..]. split; [done|]. split; [|auto]. constructor; auto.
Qed.

(** Where the payloads are held nothing is written, whatever the file system
    does. *)
Lemma preseed_all_again payloads p :
  Forall (holds (pr_dir p)) payloads →
  ∃ p', preseed_all payloads p = (Ok (), p') ∧ rf_bytes <$> pr_dir p' = rf_bytes <$> pr_dir p ∧
    ps_seeded (pr_stats p') = ps_seeded (pr_stats p) ∧ ps_seeded_bytes (pr_stats p') = ps_seeded_bytes (pr_stats p).
Proof using.
  revert p. induction payloads as [|b payloads IH]; intros p H; cbn [preseed_all]; [by exists p|].
  inversion H as [|? ? (t & Ht) H']; subst. unfold RpcCache.preseed_payload. cbv zeta. rewrite Ht. cbn [mbind option_bind rf_bytes].
  rewrite Z.eqb_refl. set (p1 := MkPreseed _ _ _).
  assert (rf_bytes <$> pr_dir p1 = rf_bytes <$> pr_dir p) as Hsame.
  { unfold p1, touch_rpc. cbn [pr_dir]. destruct (untouchable _); [done|]. rewrite fmap_insert. apply insert_id.
    by rewrite lookup_fmap, Ht. }
  destruct (IH p1) as (p' & -> & Hd & Hs & Hb); [|exists p'; split; [done|split; [congruence|done]]].
  eapply Forall_impl; [exact H'|]. intros q (tq & Hq).
  assert (rf_bytes <$> pr_dir p1 !! rpc_cache_filename q = Some q) as Hl.
  { rewrite <- lookup_fmap, Hsame, lookup_fmap, Hq. done. }
  destruct (pr_dir p1 !! rpc_cache_filename q) as [[c t0]|] eqn:Eq; [|done]. injection Hl as ->. by exists t0.
Qed.
End Preseed.


(** ** The reaper keeps to its cap *)
#[global] Instance cmp_file_ok : CmpOk cmp_file.
Proof.
  assert (CmpOk (λ a b : string * RpcFile, String.compare a.1 b.1)) as Hs.
  { split; [intros x y; apply String.compare_antisym|]. intros x y z. unfold cmp_le. apply (cmp_trans String.compare). }
  exact (cmp_then_ok _ _ (cmp_key_ok (λ e : string * RpcFile, rf_modified e.2)) Hs).
Qed.

Lemma cmp_file_le n f m g :
  cmp_le cmp_file (n, f) (m, g) → rf_modified f < rf_modified g ∨ rf_modified f = rf_modified g ∧ String.compare n m ≠ Gt.
Proof.
  unfold cmp_le, cmp_file. cbn. destruct (Z.compare_spec (rf_modified f) (rf_modified g)); cbn; auto. by intros [].
Qed.

Definition dir_bytes (dir : RpcDir) : Z := map_fold (λ _ f acc, len (rf_bytes f) + acc) 0 dir.

Lemma dir_bytes_delete dir n f : dir !! n = Some f → dir_bytes dir = len (rf_bytes f) + dir_bytes (delete n dir).
Proof. intros H. unfold dir_bytes. by rewrite (map_fold_delete_L _ _ n f dir) by (done || intros; lia). Qed.

Lemma dir_bytes_list dir : dir_bytes dir = zsum ((λ e : string * RpcFile, len (rf_bytes e.2)) <$> map_to_list dir).
Proof. unfold dir_bytes. rewrite map_fold_foldr. by induction (map_to_list dir) as [|[n f] l IH]; simpl; [|rewrite IH]. Qed.

Lemma dir_bytes_nonneg dir : 0 ≤ dir_bytes dir.
Proof. rewrite dir_bytes_list. apply zsum_nonneg, Forall_fmap, Forall_true. intros e. apply len_nonneg. Qed.

Section Reap.
Context (max_bytes : Z) (protected : gset string) (stuck : string → bool).

Definition reapable (n : string) : Prop := n ∉ protected ∧ stuck n = false.

(** What the reaper removed of [dir] on its way through [files]. *)
Record reaped (files : list (string * RpcFile)) (dir dir' : RpcDir) : Prop := {
  re_sub : dir' ⊆ dir;
  re_gone n f : dir !! n = Some f → dir' !! n = None → reapable n ∧ (n, f) ∈ files;
  re_lru n f m g : dir !! n = Some f → dir' !! n = None → (m, g) ∈ files → dir' !! m = Some g → reapable m →
    rf_modified f < rf_modified g ∨ rf_modified f = rf_modified g ∧ String.compare n m ≠ Gt;
  re_needed : dir' ≠ dir → ∃ n f, dir !! n = Some f ∧ dir' !! n = None ∧ max_bytes < dir_bytes dir' + len (rf_bytes f);
  re_fits : dir_bytes dir' ≤ max_bytes ∨ ∀ n f, (n, f) ∈ files → reapable n → dir' !! n = None }.

Lemma reaped_skip n f files dir dir' : ¬ reapable n → reaped files dir dir' → reaped ((n, f) :: files) dir dir'.
Proof using.
  intros Hn [A B C D E]. split; try done.
  - intros m g H1 H2. destruct (B m g H1 H2). split; [done|by right].
  - intros m g k h H1 H2 [[= -> ->]|H3]%elem_of_cons H4 H5; [done|by apply C].
  - destruct E as [E|E]; [by left|right]. intros m g [[= -> ->]|H3]%elem_of_cons Hm; [done|by eapply E].
Qed.

Lemma reaped_remove n f files dir dir' :
  reapable n → dir !! n = Some f → n ∉ files.*1 → Forall (cmp_le cmp_file (n, f)) files → max_bytes < dir_bytes dir →
  reaped files (delete n dir) dir' → reaped ((n, f) :: files) dir dir'.
Proof using.
  intros Hn Hd Hnin Hle Hmax [A B C D E].
  assert (dir' !! n = None) as Hgone.
  { destruct (dir' !! n) as [g|] eqn:Eg; [|done]. apply (lookup_weaken _ _ _ _ Eg) in A. by rewrite lookup_delete_eq in A. }
  split.
  - etransitivity; [exact A|apply delete_subseteq].
  - intros m g H1 H2. destruct (decide (m = n)) as [->|Hne].
    + split; [done|]. assert (g = f) as -> by congruence. by left.
    + destruct (B m g) as [? ?]; [by rewrite lookup_delete_ne|done|]. split; [done|by right].
  - intros m g k h H1 H2 [[= -> ->]|H3]%elem_of_cons H4 H5; [congruence|]. destruct (decide (m = n)) as [->|Hne].
    + assert (g = f) as -> by congruence. rewrite list.Forall_forall in Hle. by apply (cmp_file_le n f k h), Hle.
    + apply C; try done. by rewrite lookup_delete_ne.
  - intros _. destruct (decide (dir' = delete n dir)) as [->|Hne].
    + exists n, f. split; [done|]. split; [done|]. rewrite (dir_bytes_delete dir n f Hd) in Hmax. lia.
    + destruct (D Hne) as (m & g & [? H1]%lookup_delete_Some & H2 & H3). by exists m, g.
  - destruct E as [E|E]; [by left|right]. intros m g [[= -> ->]|H3]%elem_of_cons Hm; [done|by eapply E].
Qed.

Lemma reap_loop_spec files total freed dir :
  NoDup files.*1 → StronglySorted (cmp_le cmp_file) files → Forall (λ e, dir !! e.1 = Some e.2) files →
  total = dir_bytes dir → 0 ≤ freed → freed + total < 2 ^ 64 →
  ∃ dir', reap_loop max_bytes protected stuck files total freed dir = (freed + dir_bytes dir - dir_bytes dir', dir') ∧
    reaped files dir dir'.
Proof using.
  intros Hnd Hs. revert total freed dir. induction Hs as [|[n f] files Hs IH Hle]; intros total freed dir Hin Ht Hf Hb; cbn [reap_loop].
  { exists dir. split; [f_equal; lia|]. split; try done; [intros; congruence..|]. right. intros n f H%not_elem_of_nil. done. }
  inversion Hnd as [|? ? Hnin Hnd']; subst x l. inversion Hin as [|? ? Hn Hin']; subst x l. cbn [fst snd] in *.
  destruct (Z.leb_spec total max_bytes) as [Hfit|Hover].
  { exists dir. split; [f_equal; lia|]. split; try done; [intros; congruence..|]. left. lia. }
  case_bool_decide as Hp.
  { destruct (IH Hnd' total freed dir Hin' Ht Hf Hb) as (dir' & -> & R). exists dir'. split; [done|].
    apply reaped_skip; [by intros [? _]|done]. }
  destruct (stuck n) eqn:Est.
  { destruct (IH Hnd' total freed dir Hin' Ht Hf Hb) as (dir' & -> & R). exists dir'. split; [done|].
    apply reaped_skip; [intros [_ ?]; congruence|done]. }
  pose proof (dir_bytes_delete dir n f Hn) as Hd. pose proof (len_nonneg (rf_bytes f)). pose proof (dir_bytes_nonneg (delete n dir)).
  unfold u64_sub, u64_add. rewrite !wrap64_small by (unfold in_u64; lia).
  destruct (IH Hnd' (total - len (rf_bytes f)) (freed + len (rf_bytes f)) (delete n dir)) as (dir' & -> & R); [|lia..|].
  - rewrite list.Forall_forall in Hin' |- *. intros e He. rewrite lookup_delete_ne; [by apply Hin'|].
    intros Heq. apply Hnin, list_elem_of_fmap. by exists e.
  - exists dir'. split; [f_equal; lia|]. apply reaped_remove; try done. lia.
Qed.
End Reap.

(** C26: reaping the tensor cache.  With sizes that fit 64 bits, the bytes
    reported are the bytes freed; only files that are neither protected nor
    stuck go, least recently modified first, none that was not needed; and
    the directory then fits the cap, or nothing removable is left. *)
Theorem reap_exact stuck dir max_bytes protected :
  dir_bytes dir < 2 ^ 64 →
  ∃ dir', reap_rpc_cache stuck (Some dir) max_bytes protected = (dir_bytes dir - dir_bytes dir', Some dir') ∧
    reaped max_bytes protected stuck (map_to_list dir) dir dir'.
Proof.
  intros Hb. unfold reap_rpc_cache. pose proof (dir_bytes_list dir) as Hsum. set (files := map_to_list dir) in *.
  rewrite u64_sum_exact; [|apply Forall_fmap, Forall_true; intros e; apply len_nonneg|by rewrite <- Hsum].
  rewrite <- Hsum. destruct (Z.leb_spec (dir_bytes dir) max_bytes) as [Hfit|Hover].
  { exists dir. split; [by rewrite Z.sub_diag|]. split; try done; [intros; congruence..|]. by left. }
  assert (sort_by cmp_file files ≡ₚ files) as Hperm by apply sort_by_Permutation.
  destruct (reap_loop_spec max_bytes protected stuck (sort_by cmp_file files) (dir_bytes dir) 0 dir) as (dir' & E & R).
  - rewrite Hperm. apply NoDup_fst_map_to_list.
  - apply (sort_by_Sorted cmp_file).
  - rewrite list.Forall_forall. intros [n f] He. rewrite Hperm in He. by apply elem_of_map_to_list in He.
  - done.
  - done.
  - lia.
  - exists dir'. rewrite E. split; [do 2 f_equal; lia|]. destruct R as [A B C D F]. split; try done.
    + intros n f H1 H2. destruct (B n f H1 H2). split; [done|by rewrite <- Hperm].
    + intros n f m g H1 H2 H3. rewrite <- Hperm in H3. by apply C.
    + destruct F as [F|F]; [by left|right]. intros n f Hn. rewrite <- Hperm in Hn. by eapply F.
Qed.

(** ** Examples *)
Definition ex_model : bytes := byte_of <$> ((λ i, i mod 251) <$> seqZ 0 700).
Definition ex_store : Ranges.Disk := Ranges.MkDisk None ∅ ∅ (Some ex_model).
Definition ex_trs : list TensorRange := [MkTensorRange "blk.0.w" 256 384; MkTensorRange "blk.1.w" 384 448; MkTensorRange "out" 448 700].
Definition ex_payloads : list bytes := omap (seed_payload 50 ex_store [0; 1]) ex_trs.
Definition ex_preseed (dir : RpcDir) := preseed_above Z.of_nat (λ _, false) (λ _, None) 50 true ex_store ex_ranges_header 700 [0; 1] dir.

Lemma tells_NoDup l : NoDup (fnv1a64 <$> l) → tells (λ b, b ∈ l).
Proof.
  intros Hnd p q [i Hi]%list_elem_of_lookup [j Hj]%list_elem_of_lookup Heq.
  assert (i = j) as ->; [|congruence].
  apply (NoDup_lookup _ _ _ (fnv1a64 p) Hnd); rewrite list_lookup_fmap; [by rewrite Hi|by rewrite Hj, Heq].
Qed.

Lemma ex_tells : tells (λ b, b ∈ ex_payloads).
Proof. apply tells_NoDup, (bool_decide_unpack _). vm_compute. exact I. Qed.


Definition ex_files : RpcDir :=
  {["a" := MkRpcFile (list_ascii_of_string "12345") 3; "b" := MkRpcFile (list_ascii_of_string "123") 1;
    "c" := MkRpcFile (list_ascii_of_string "1234") 2]}.

Lemma reap_exact_witness :
  ∃ dir', reap_rpc_cache (λ _, false) (Some ex_files) 8 {["b"]} = (dir_bytes ex_files - dir_bytes dir', Some dir') ∧
    (rf_bytes <$> dir' !! "c") = None ∧ rf_modified <$> dir' !! "a" = Some 3 ∧ rf_modified <$> dir' !! "b" = Some 1.
Proof.
  destruct (reap_exact (λ _, false) ex_files 8 {["b"]}) as (dir' & E & R); [vm_compute; reflexivity|].
  assert (snd (reap_rpc_cache (λ _, false) (Some ex_files) 8 {["b"]}) = Some (delete "c" ex_files)) as H by (vm_compute; reflexivity).
  rewrite E in H. injection H as ->. exists (delete "c" ex_files). split; [exact E|]. vm_compute. auto.
Defined.

(** A file of the right length under the name counts as present without a
    look at its bytes. *)
Example preseed_trusts_length :
  let b := list_ascii_of_string "tensor" in
  let bad := list_ascii_of_string "broken" in
  (preseed_payload Z.of_nat (λ _, false) (λ _, None) b
     (MkPreseed {[rpc_cache_filename b := MkRpcFile bad 0]} 1 no_stats)).1 = Ok () ∧
  rf_bytes <$> pr_dir (preseed_payload Z.of_nat (λ _, false) (λ _, None) b
     (MkPreseed {[rpc_cache_filename b := MkRpcFile bad 0]} 1 no_stats)).2 !! rpc_cache_filename b = Some bad.
Proof. vm_compute. done. Qed.
