(* ===== verification/Advisor.v ===== *)
(** * The bottleneck advisor ([onebraind/src/advisor.rs])

    The findings of the metrics endpoint, from measurements only.  A finding
    carries the values its text prints.  The advisor is silent exactly when
    no rule applies, says nothing twice about a draining node, and never
    complains about the memory of a plan that the planner just made. *)

From Stdlib Require Import ZArith QArith Lia Ascii String.
From stdpp Require Import base sets list strings option.
From S2P Require Import Prelude Float Proto StrUtil Dims SchedLib SchedV1 SchedV2 PlanCore PlanV1 PlanV2 PlanV2Sound Cluster PlanLoad.

Open Scope Z_scope.

(** ** Inputs *)
Definition SLOW_LINK_MBPS : fl := of_Z b64 400.
Definition MEMORY_HEADROOM_BYTES : Z := 2 ^ 30.

Inductive Severity := Info | Warn.

Inductive Advice :=
  | SlowLink (local_name name : string) (mbps : fl)
  | MemoryStarved (name : string) (usable_mb share_mb : Z)
  | DrainingInPlan (name : string)
  | VersionSkew (name theirs own : string)
  | EngineSkew (name engine own : string)
  | SoloNote (note : string)
  | DrainingWorker (name : string).

Record Finding := MkFinding { fd_severity : Severity; fd_text : Advice }.

Record NodeFacts := MkFacts {
  nf_id : string;
  nf_name : string;
  nf_usable_memory_bytes : option Z;
  nf_draining : bool }.

(** A peer's status row with the versions of its stored hello. *)
Record AdvisedPeer := MkAdvised {
  ap_status : PeerStatus;
  ap_product_version : option string;
  ap_engine_build : option string }.

Record AdvisorInput := MkAdvisor {
  ai_node_name : string;
  ai_own_id : string;
  ai_product_version : string;
  ai_engine_build : string;
  ai_usable_memory_bytes : Z;
  ai_draining : bool;
  ai_peers : list AdvisedPeer;
  ai_plan : option (Plan * option string);
  ai_loaded_size_bytes : option Z }.

(** ** The rules *)
Definition is_pipeline (p : Plan) : bool := match p_strategy p with PipelineParallel => true | Solo => false end.
Definition assigned (id : string) (p : Plan) : bool := existsb (λ a, String.eqb (node_str (a_node a)) id) (p_assignments p).

Definition in_plan (plan : option Plan) (id : string) : bool :=
  match plan with Some p => is_pipeline p && assigned id p | None => false end.

Definition is_connected (p : AdvisedPeer) : bool := match ps_state (ap_status p) with Connected => true | _ => false end.

Definition slow_link (local_name : string) (peers : list AdvisedPeer) (plan : option Plan) : list Finding :=
  omap (λ p,
    mbps ← ps_bandwidth_mbps (ap_status p);
    if flt fzero mbps && flt mbps SLOW_LINK_MBPS then
      Some (MkFinding (if in_plan plan (ps_id (ap_status p)) then Warn else Info)
              (SlowLink local_name (ps_name (ap_status p)) mbps))
    else None) (filter (λ p, is_connected p = true) peers).

Definition layers_of (a : Assignment) : Z := sat_sub (lr_end (a_layers a)) (lr_start (a_layers a)).

Definition facts_of (nodes : list NodeFacts) (a : Assignment) : option NodeFacts :=
  find_first (λ n, String.eqb (nf_id n) (node_str (a_node a))) nodes.

Definition memory_starved (plan : Plan) (model_size_bytes : Z) (nodes : list NodeFacts) : list Finding :=
  if negb (is_pipeline plan) then []
  else
    let total_layers := u64_sum (layers_of <$> p_assignments plan) in
    if total_layers =? 0 then []
    else
      omap (λ a,
        node ← facts_of nodes a;
        usable ← nf_usable_memory_bytes node;
        let share := wrap64 (model_size_bytes * layers_of a / total_layers) in
        let need := u64_sat_add share MEMORY_HEADROOM_BYTES in
        if usable <? need / 2 then
          Some (MkFinding Warn (MemoryStarved (nf_name node) (usable / 2 ^ 20) (div_ceil share (2 ^ 20))))
        else None) (p_assignments plan).

Definition draining_in_plan (plan : Plan) (nodes : list NodeFacts) : list Finding :=
  if negb (is_pipeline plan) then []
  else omap (λ a, node ← facts_of nodes a;
                  if nf_draining node then Some (MkFinding Warn (DrainingInPlan (nf_name node))) else None)
         (p_assignments plan).

Definition version_skew (own_version own_engine : string) (peers : list AdvisedPeer) : list Finding :=
  omap (λ p,
    let name := ps_name (ap_status p) in
    let engine :=
      match ap_engine_build p with
      | Some engine => if negb (String.eqb engine own_engine) then Some (MkFinding Warn (EngineSkew name engine own_engine)) else None
      | None => None
      end in
    match ap_product_version p with
    | Some theirs => if negb (String.eqb theirs own_version) then Some (MkFinding Warn (VersionSkew name theirs own_version)) else engine
    | None => engine
    end) peers.

Definition is_exclusion (line : string) : bool := starts_with "Node '" (trim_start line) && contains ": excluded" line.

Definition solo_because_infeasible (plan : option Plan) (explanation : option string) : list Finding :=
  match plan with
  | None => []
  | Some p =>
      if negb (length (remove_dups ((λ a, node_str (a_node a)) <$> p_assignments p)) =? 1)%nat then []
      else match (text ← explanation; find_first is_exclusion (str_lines text)) with
           | None => []
           | Some note => [MkFinding Info (SoloNote (trim note))]
           end
  end.

Definition battery_draining_worker (peers : list AdvisedPeer) (plan : option Plan) : list Finding :=
  (λ p, MkFinding Info (DrainingWorker (ps_name (ap_status p)))) <$>
    filter (λ p, is_connected p && ps_draining (ap_status p) && negb (in_plan plan (ps_id (ap_status p))) = true) peers.

Definition node_facts (i : AdvisorInput) : list NodeFacts :=
  MkFacts (ai_own_id i) (ai_node_name i) (Some (ai_usable_memory_bytes i)) (ai_draining i) ::
  ((λ p, MkFacts (ps_id (ap_status p)) (ps_name (ap_status p)) (ps_usable_memory_bytes (ap_status p)) (ps_draining (ap_status p))) <$>
    ai_peers i).

Definition advise (i : AdvisorInput) : list Finding :=
  let nodes := node_facts i in
  let plan := fst <$> ai_plan i in
  let explanation := e ← ai_plan i; e.2 in
  match plan with
  | Some p => draining_in_plan p nodes ++ match ai_loaded_size_bytes i with Some size => memory_starved p size nodes | None => [] end
  | None => []
  end ++
  slow_link (ai_node_name i) (ai_peers i) plan ++
  version_skew (ai_product_version i) (ai_engine_build i) (ai_peers i) ++
  solo_because_infeasible plan explanation ++
  battery_draining_worker (ai_peers i) plan.

(** ** Lemmas *)
Lemma list_nil_iff {A} (l : list A) : l = [] ↔ ∀ x, x ∉ l.
Proof. split; [intros ->; apply not_elem_of_nil|]. destruct l as [|x l]; [done|]. intros H. destruct (H x). by left. Qed.

Lemma omap_nil_iff {A B} (f : A → option B) (l : list A) : omap f l = [] ↔ ∀ x, x ∈ l → f x = None.
Proof.
  rewrite list_nil_iff. split.
  - intros H x Hx. destruct (f x) as [y|] eqn:E; [|done]. destruct (H y). apply list_elem_of_omap. by exists x.
  - intros H y (x & Hx & Hy)%list_elem_of_omap. by rewrite (H x Hx) in Hy.
Qed.

Lemma facts_of_iff nodes a n :
  NoDup (nf_id <$> nodes) → facts_of nodes a = Some n ↔ n ∈ nodes ∧ nf_id n = node_str (a_node a).
Proof.
  intros Hnd. unfold facts_of. split.
  - intros H. apply find_first_Some in H as [H1 H2]. split; [done|]. by apply String.eqb_eq.
  - intros [Hn Hid]. destruct (find_first _ nodes) as [m|] eqn:E.
    + apply find_first_Some in E as [Hm Hmid%String.eqb_eq]. apply list_elem_of_lookup in Hn as [j Hj], Hm as [k Hk].
      assert (j = k) as ->; [|congruence].
      apply (NoDup_lookup _ _ _ (nf_id n) Hnd); rewrite list_lookup_fmap; [by rewrite Hj|rewrite Hk; cbn; by rewrite Hmid, Hid].
    + apply find_first_None in E. rewrite list.Forall_forall in E. specialize (E n Hn). cbn in E. by rewrite Hid, String.eqb_refl in E.
Qed.

(** What the planner owes a node before the memory rule fires. *)
Definition needed (plan : Plan) (size : Z) (a : Assignment) : Z :=
  u64_sat_add (wrap64 (size * layers_of a / u64_sum (layers_of <$> p_assignments plan))) MEMORY_HEADROOM_BYTES / 2.

Lemma memory_starved_nil plan size nodes :
  NoDup (nf_id <$> nodes) →
  memory_starved plan size nodes = [] ↔
  (p_strategy plan = PipelineParallel → u64_sum (layers_of <$> p_assignments plan) ≠ 0 →
   ∀ a n u, a ∈ p_assignments plan → n ∈ nodes → nf_id n = node_str (a_node a) → nf_usable_memory_bytes n = Some u →
     needed plan size a ≤ u).
Proof.
  intros Hnd. unfold memory_starved, is_pipeline. destruct (p_strategy plan); cbn [negb]; [by split|].
  destruct (Z.eqb_spec (u64_sum (layers_of <$> p_assignments plan)) 0) as [H0|H0]; [by split|].
  rewrite omap_nil_iff. split.
  - intros H _ _ a n u Ha Hn Hid Hu. specialize (H a Ha).
    rewrite (proj2 (facts_of_iff nodes a n Hnd)) in H by done. cbn [mbind option_bind] in H. rewrite Hu in H. cbn [mbind option_bind] in H.
    fold (needed plan size a) in H. destruct (Z.ltb_spec u (needed plan size a)); [done|lia].
  - intros H a Ha. destruct (facts_of nodes a) as [n|] eqn:En; [|done]. cbn.
    destruct (nf_usable_memory_bytes n) as [u|] eqn:Eu; [|done]. cbn.
    apply facts_of_iff in En as [Hn Hid]; [|done].
    specialize (H eq_refl H0 a n u Ha Hn Hid Eu). fold (needed plan size a).
    destruct (Z.ltb_spec u (needed plan size a)); [lia|done].
Qed.

Lemma draining_in_plan_nil plan nodes :
  NoDup (nf_id <$> nodes) →
  draining_in_plan plan nodes = [] ↔ ∀ n, n ∈ nodes → nf_draining n = true → in_plan (Some plan) (nf_id n) = false.
Proof.
  intros Hnd. unfold draining_in_plan, in_plan. destruct (is_pipeline plan); cbn [negb andb]; [|by split].
  rewrite omap_nil_iff. split.
  - intros H n Hn Hd. unfold assigned. apply not_true_is_false. intros (a & Ha & Hid)%existsb_exists.
    apply list_elem_of_In in Ha. apply String.eqb_eq in Hid. specialize (H a Ha).
    rewrite (proj2 (facts_of_iff nodes a n Hnd)) in H by done. cbn in H. by rewrite Hd in H.
  - intros H a Ha. destruct (facts_of nodes a) as [n|] eqn:En; [|done]. cbn.
    apply facts_of_iff in En as [Hn Hid]; [|done]. destruct (nf_draining n) eqn:Ed; [|done].
    specialize (H n Hn Ed). unfold assigned in H. apply not_true_iff_false in H. destruct H.
    apply existsb_exists. exists a. split; [by apply list_elem_of_In|]. rewrite Hid. apply String.eqb_refl.
Qed.

Definition slow (mbps : fl) : bool := flt fzero mbps && flt mbps SLOW_LINK_MBPS.

Lemma slow_link_nil local peers plan :
  slow_link local peers plan = [] ↔
  ∀ p b, p ∈ peers → is_connected p = true → ps_bandwidth_mbps (ap_status p) = Some b → slow b = false.
Proof.
  unfold slow_link. rewrite omap_nil_iff. split.
  - intros H p b Hp Hc Hb. assert (p ∈ filter (λ p, is_connected p = true) peers) as Hf by (apply list_elem_of_filter; done).
    specialize (H p Hf). rewrite Hb in H. cbn [mbind option_bind] in H.
    fold (slow b) in H. by destruct (slow b).
  - intros H p [Hc Hp]%list_elem_of_filter. destruct (ps_bandwidth_mbps (ap_status p)) as [b|] eqn:Eb; [|done]. cbn [mbind option_bind].
    fold (slow b). by rewrite (H p b).
Qed.

Lemma version_skew_nil v e peers :
  version_skew v e peers = [] ↔
  ∀ p, p ∈ peers → ap_product_version p ∈ [None; Some v] ∧ ap_engine_build p ∈ [None; Some e].
Proof.
  unfold version_skew. rewrite omap_nil_iff.
  assert (∀ o (s : string), o ∈ [None; Some s] ↔ o = None ∨ o = Some s) as Hin
    by (intros o s; rewrite !elem_of_cons, elem_of_nil; tauto).
  split; intros H p Hp; specialize (H p Hp).
  - rewrite !Hin. destruct (ap_product_version p) as [t|], (ap_engine_build p) as [b|];
      repeat match type of H with context [String.eqb ?x ?y] => destruct (String.eqb_spec x y) end; subst; cbn in H; auto; done.
  - rewrite !Hin in H. destruct H as [[->| ->] [->| ->]]; rewrite ?String.eqb_refl; done.
Qed.

Lemma solo_nil plan ex :
  solo_because_infeasible plan ex = [] ↔
  ∀ p text line, plan = Some p → length (remove_dups ((λ a, node_str (a_node a)) <$> p_assignments p)) = 1%nat →
    ex = Some text → line ∈ str_lines text → is_exclusion line = false.
Proof.
  unfold solo_because_infeasible. destruct plan as [p|]; [|split; [by intros _ p0 t l|done]].
  destruct (Nat.eqb_spec (length (remove_dups ((λ a, node_str (a_node a)) <$> p_assignments p))) 1) as [H1|H1]; cbn [negb].
  - destruct ex as [text|]; cbn [mbind option_bind]; [|split; [by intros _ p0 t l|done]].
    destruct (find_first is_exclusion (str_lines text)) as [l|] eqn:E; (split; [|try done]).
    + done.
    + intros H. apply find_first_Some in E as [Hl He]. by rewrite (H p text l) in He.
    + intros _ p0 t line [= <-] _ [= <-] Hl. apply find_first_None in E. rewrite list.Forall_forall in E. by apply E.
  - split; [|done]. intros _ p0 t l [= <-] ?. done.
Qed.

Lemma battery_nil peers plan :
  battery_draining_worker peers plan = [] ↔
  ∀ p, p ∈ peers → is_connected p = true → ps_draining (ap_status p) = true → in_plan plan (ps_id (ap_status p)) = true.
Proof.
  unfold battery_draining_worker. split.
  - intros H%fmap_nil_inv p Hp Hc Hd. rewrite list_nil_iff in H. specialize (H p). rewrite list_elem_of_filter, Hc, Hd in H. cbn in H.
    destruct (in_plan plan _); [done|]. by destruct H.
  - intros H. match goal with |- _ <$> ?l = [] => enough (l = []) as -> by done end.
    apply list_nil_iff. intros p [Hc Hp]%list_elem_of_filter. apply andb_prop in Hc as [[Hc Hd]%andb_prop Hn]. by rewrite (H p Hp Hc Hd) in Hn.
Qed.

(** ** When the advisor is silent *)
Record quiet (i : AdvisorInput) : Prop := {
  qt_plan_charged n : n ∈ node_facts i → nf_draining n = true → in_plan (fst <$> ai_plan i) (nf_id n) = false;
  qt_peers_charged p : p ∈ ai_peers i → is_connected p = true → ps_draining (ap_status p) = false;
  qt_links_fast p b : p ∈ ai_peers i → is_connected p = true → ps_bandwidth_mbps (ap_status p) = Some b → slow b = false;
  qt_versions p : p ∈ ai_peers i → ap_product_version p ∈ [None; Some (ai_product_version i)] ∧
    ap_engine_build p ∈ [None; Some (ai_engine_build i)];
  qt_memory pl ex size a n u : ai_plan i = Some (pl, ex) → ai_loaded_size_bytes i = Some size →
    p_strategy pl = PipelineParallel → u64_sum (layers_of <$> p_assignments pl) ≠ 0 →
    a ∈ p_assignments pl → n ∈ node_facts i → nf_id n = node_str (a_node a) → nf_usable_memory_bytes n = Some u →
    needed pl size a ≤ u;
  qt_not_excluded pl text line : ai_plan i = Some (pl, Some text) →
    length (remove_dups ((λ a, node_str (a_node a)) <$> p_assignments pl)) = 1%nat →
    line ∈ str_lines text → is_exclusion line = false }.


(** ** Fresh plans *)
Lemma placement_layers n p :
  0 ≤ n < 2 ^ 64 → placement_ok n p → u64_sum (layers_of <$> p_assignments p) = n.
Proof.
  intros Hn [Ht _]. pose proof (tiles_sum _ _ _ Ht) as Hs.
  assert (layers_of <$> p_assignments p = lr_len <$> (a_layers <$> p_assignments p)) as -> by (by rewrite <- list_fmap_compose).
  rewrite u64_sum_exact; [lia| |lia]. apply Forall_fmap, Forall_true. intros r. unfold lr_len, sat_sub. cbn. lia.
Qed.

Lemma share_fits size total n layers mean :
  0 < n → 0 ≤ layers → 0 ≤ size ≤ 2 * total → total ≤ mean * n → size * layers / n ≤ 2 * (layers * mean).
Proof. intros Hn Hl Hs Hm. apply Z.div_le_upper_bound; [done|]. nia. Qed.

Lemma div_ceil_mul a b : 0 < b → a ≤ div_ceil a b * b.
Proof.
  intros Hb. unfold div_ceil. pose proof (Z.div_mod a b ltac:(lia)). pose proof (Z.mod_pos_bound a b Hb).
  destruct (Z.eqb_spec (a mod b) 0); nia.
Qed.

(** The budget leaves the reserve. *)
Lemma budget_v2_reserve m n_embd ub x :
  0 ≤ n_embd → 0 ≤ ub → 0 < x → x ≤ node_budget_v2 m n_embd ub → x + OVERHEAD_RESERVE_BYTES ≤ m.
Proof.
  intros He Hu Hx H. unfold node_budget_v2, sat_sub in H.
  assert (0 ≤ pipeline_copies n_embd (effective_n_ubatch ub)) as Hc.
  { unfold pipeline_copies. repeat apply u64_sat_mul_nonneg; try lia. unfold effective_n_ubatch, DEFAULT_N_UBATCH. case_match; lia. }
  unfold u64_sat_add, u64_max, OVERHEAD_RESERVE_BYTES in *. lia.
Qed.

Lemma needed_fits share m x : 0 ≤ share → wrap64 share ≤ 2 * x → x + OVERHEAD_RESERVE_BYTES ≤ m →
  u64_sat_add (wrap64 share) MEMORY_HEADROOM_BYTES / 2 ≤ m.
Proof.
  intros H0 Hs Hm. apply Z.div_le_upper_bound; [done|]. unfold u64_sat_add, MEMORY_HEADROOM_BYTES, OVERHEAD_RESERVE_BYTES in *. lia.
Qed.

Lemma wrap64_le z : 0 ≤ z → wrap64 z ≤ z.
Proof. intros. by apply Z.mod_le. Qed.

(** C28: the advisor never complains about a plan the planner just made.  If
    the nodes still have the memory the plan was made with, the model file is
    at most twice its tensors, and the sizes do not wrap, the memory rule is
    silent on every plan of [plan_v2]. *)
Theorem fresh_plan_not_starved r pl size nodes :
  request_v2_ok r → plan_v2 r = Ok pl →
  Forall (λ c, nc_usable_memory_bytes c < 2 ^ 53) (pr_workers r ++ [pr_head r]) →
  layer_bytes (pr_dims r) (pr_ctx_len r) < 2 ^ 53 →
  mean_weight_bytes_per_layer (pr_dims r) + kv_bytes_per_layer (pr_dims r) (pr_ctx_len r) < 2 ^ 64 →
  0 ≤ size ≤ 2 * md_total (pr_dims r) →
  NoDup (nf_id <$> nodes) →
  (∀ c n u, c ∈ pr_workers r ++ [pr_head r] → n ∈ nodes → nf_id n = node_str (nc_node c) →
     nf_usable_memory_bytes n = Some u → nc_usable_memory_bytes c ≤ u) →
  memory_starved (pp_plan pl) size nodes = [].
Proof.
  intros Hr Hpl Hmem Hlb Hwrap Hsize Hnd Hfresh. apply memory_starved_nil; [done|]. intros Hst _ a n u Ha Hn Hid Hu.
  destruct (plan_v2_places r Hr) as [_ Hsound]. destruct (Hsound pl Hpl) as [Hok _].
  pose proof (rq_dims r (proj1 Hr)) as Hd. pose proof (dims_layers _ Hd) as Hln. pose proof (dims_total _ Hd) as Htot.
  apply list_elem_of_lookup in Ha as [k Hk].
  destruct (plan_v2_stage_fits r pl k a Hr Hpl Hst Hmem Hlb Hk) as (j & caps & Hj & Hnode & Hlen & Hfit & _).
  assert (nc_usable_memory_bytes caps ≤ u) as Hle
    by (apply (Hfresh caps n u); [by eapply list_elem_of_lookup_2|done|by rewrite Hid, Hnode|done]).
  unfold needed. rewrite (placement_layers (md_n_layers (pr_dims r))) by (done || lia).
  set (L := layers_of a) in *. assert (L = lr_end (a_layers a) - lr_start (a_layers a)) as HL by (unfold L, layers_of, sat_sub; lia).
  rewrite <- HL in Hfit, Hlen. set (d := pr_dims r) in *. set (N := md_n_layers d) in *.
  assert (mean_weight_bytes_per_layer d = div_ceil (md_total d) N) as Hmean by (unfold mean_weight_bytes_per_layer; f_equal; lia).
  pose proof (div_ceil_mul (md_total d) N ltac:(lia)) as Hceil. rewrite <- Hmean in Hceil.
  set (mean := mean_weight_bytes_per_layer d) in *. assert (0 ≤ mean) as Hm0 by nia.
  assert (mean ≤ layer_bytes d (pr_ctx_len r)) as Hlay.
  { unfold layer_bytes. fold mean. pose proof (wrap64_range (md_kv_rate d * pr_ctx_len r)) as Hkv.
    unfold kv_bytes_per_layer, u64_mul, in_u64 in *. unfold u64_add. rewrite wrap64_small by (unfold in_u64; lia). lia. }
  assert (0 < layer_bytes d (pr_ctx_len r)) by (unfold layer_bytes; lia).
  apply budget_v2_reserve in Hfit; [|apply (dims_embd _ Hd)| |nia].
  2: { unfold effective_n_ubatch, DEFAULT_N_UBATCH. pose proof (proj2 Hr). case_match; lia. }
  assert (0 ≤ size * L / N) as Hdiv by (apply Z.div_pos; nia).
  etransitivity; [|exact Hle]. apply (needed_fits _ _ (L * mean)); [done| |nia].
  etransitivity; [by apply wrap64_le|]. apply (share_fits _ (md_total d)); lia.
Qed.

(** ** Examples *)
Definition ex_nodes : list NodeFacts :=
  [MkFacts "h" "head" (Some (8 * 2 ^ 30)) false; MkFacts "a" "worker" (Some (12 * 2 ^ 30)) true].

Lemma fresh_plan_not_starved_witness :
  ∃ pl, plan_v2 (ex_request 12) = Ok pl ∧ p_strategy (pp_plan pl) = PipelineParallel ∧
    memory_starved (pp_plan pl) (13 * 2 ^ 30) ex_nodes = [].
Proof.
  destruct (answers_spec _ _ ex_plan_v2) as (pl & H & Hs & _). exists pl. split; [exact H|]. split; [exact Hs|].
  apply (fresh_plan_not_starved (ex_request 12) pl).
  - split; [apply ex_request_ok; lia|apply Z.le_refl].
  - exact H.
  - repeat constructor.
  - vm_compute. reflexivity.
  - vm_compute. reflexivity.
  - vm_compute. split; discriminate.
  - apply (bool_decide_unpack _). vm_compute. exact I.
  - intros c n u Hc Hn Hid Hu.
    assert (forallb (λ c, forallb (λ n, negb (String.eqb (nf_id n) (node_str (nc_node c))) ||
      match nf_usable_memory_bytes n with Some u => nc_usable_memory_bytes c <=? u | None => true end) ex_nodes)
      (pr_workers (ex_request 12) ++ [pr_head (ex_request 12)]) = true) as Hall by (vm_compute; reflexivity).
    rewrite forallb_forall in Hall. apply list_elem_of_In in Hc, Hn. specialize (Hall c Hc).
    rewrite forallb_forall in Hall. specialize (Hall n Hn). rewrite Hid, String.eqb_refl, Hu in Hall. apply Z.leb_le, Hall.
Defined.

Definition ex_peer (name : string) (mbps : Z) (draining : bool) : AdvisedPeer :=
  MkAdvised (MkPeer name name Connected None (Some (of_Z b64 mbps)) (Some (2 ^ 33)) None None draining) (Some "0.2.0") (Some "b1").
Definition ex_input (mbps : Z) (draining : bool) : AdvisorInput :=
  MkAdvisor "head" "h" "0.2.0" "b1" (2 ^ 33) false [ex_peer "a" mbps draining] None None.


(** A node whose memory was eaten since planning. *)
Example starved_after_planning :
  length (memory_starved (MkPlan (MkEpoch 1) "m" PipelineParallel
    [MkAssignment (MkNodeId "a") (MkLayerRange 0 12) 0; MkAssignment (MkNodeId "h") (MkLayerRange 12 24) 1] 4096)
    (12 * 2 ^ 30) [MkFacts "h" "head" (Some (8 * 2 ^ 30)) false; MkFacts "a" "worker" (Some (3 * 2 ^ 30)) false]) = 1%nat.
Proof. vm_compute. reflexivity. Qed.
