(* ===== verification/Version.v ===== *)
(** * Release versions ([onebrain-cli/src/update/version.rs])

    Parsing, precedence and display of release tags.  Precedence is a total
    order that tells versions apart; parsing inverts display. *)

From Stdlib Require Import ZArith Lia Ascii String.
From stdpp Require Import base list strings option.
From S2P Require Import Prelude StrUtil.

Open Scope Z_scope.

Inductive PreId := Num (n : Z) | Alpha (s : string).

Record Version := MkVersion { v_major : Z; v_minor : Z; v_patch : Z; v_pre : list PreId }.

#[global] Instance PreId_eq_dec : EqDecision PreId.
Proof. solve_decision. Defined.
#[global] Instance Version_eq_dec : EqDecision Version.
Proof. solve_decision. Defined.

Inductive VersionError := TooManyComponents | EmptyPreId | PreIdRange | NotAVersion | NotANumber (part : string).

(** ** Parsing *)
Definition is_v (a : ascii) : bool := Ascii.eqb a "v" || Ascii.eqb a "V".

(** [trim_start_matches(['v', 'V'])]. *)
Definition strip_vs (s : string) : string := (str_span (λ a, negb (is_v a)) s).2.

Definition parse_num (part : option string) : res VersionError Z :=
  match part with
  | None | Some "" => Err NotAVersion
  | Some p => ok_or (parse_uint u64_max p) (NotANumber p)
  end.

Definition parse_pre_id (id : string) : res VersionError PreId :=
  if String.eqb id "" then Err EmptyPreId
  else if str_all is_digit id then Num <$> ok_or (parse_uint u64_max id) PreIdRange
  else Ok (Alpha id).

Definition parse_core (core : string) : res VersionError (Z * Z * Z) :=
  let nums := split_char "." core in
  major ← parse_num (nums !! 0%nat);
  minor ← parse_num (nums !! 1%nat);
  patch ← match nums !! 2%nat with Some p => parse_num (Some p) | None => Ok 0 end;
  match nums !! 3%nat with Some _ => Err TooManyComponents | None => Ok (major, minor, patch) end.

Definition parse_version (text : string) : res VersionError Version :=
  let trimmed := strip_vs (trim text) in
  let no_build := default "" (split_next "+" trimmed) in
  let '(core, pre_text) := match split_once "-" no_build with Some (c, p) => (c, Some p) | None => (no_build, None) end in
  '(major, minor, patch) ← parse_core core;
  pre ← match pre_text with Some p => map_res parse_pre_id (split_char "." p) | None => Ok [] end;
  Ok (MkVersion major minor patch pre).

(** ** Display *)
Definition print_pre_id (i : PreId) : string := match i with Num n => print_uint n | Alpha a => a end.

Definition print_pre (pre : list PreId) : string :=
  match pre with
  | [] => ""
  | i :: pre => "-" +:+ print_pre_id i +:+ foldr (λ i acc, "." +:+ print_pre_id i +:+ acc) "" pre
  end.

Definition print_version (v : Version) : string :=
  print_uint (v_major v) +:+ "." +:+ print_uint (v_minor v) +:+ "." +:+ print_uint (v_patch v) +:+ print_pre (v_pre v).

(** ** Precedence *)
Definition cmp_pre_id (a b : PreId) : comparison :=
  match a, b with
  | Num x, Num y => x ?= y
  | Num _, Alpha _ => Lt
  | Alpha _, Num _ => Gt
  | Alpha x, Alpha y => String.compare x y
  end.

(** The order of [Vec]: the first difference decides, then the length. *)
Fixpoint cmp_list {A} (cmp : A → A → comparison) (l k : list A) : comparison :=
  match l, k with
  | [], [] => Eq
  | [], _ :: _ => Lt
  | _ :: _, [] => Gt
  | x :: l, y :: k => cmp_then (cmp x y) (cmp_list cmp l k)
  end.

(** A release outranks its own pre-releases. *)
Definition cmp_pre (p q : list PreId) : comparison :=
  match p, q with
  | [], [] => Eq
  | [], _ :: _ => Gt
  | _ :: _, [] => Lt
  | _, _ => cmp_list cmp_pre_id p q
  end.

Definition cmp_version (a b : Version) : comparison :=
  cmp_then (cmp_then (cmp_then (v_major a ?= v_major b) (v_minor a ?= v_minor b)) (v_patch a ?= v_patch b))
    (cmp_pre (v_pre a) (v_pre b)).

(** ** The order is total *)

(** A comparison that is a total order: equal only on equal values. *)
Class CmpEq {A} (cmp : A → A → comparison) : Prop := {
  cmp_eq x y : cmp x y = Eq ↔ x = y;
  cmp_opp x y : cmp x y = CompOpp (cmp y x);
  cmp_lt_trans x y z : cmp x y = Lt → cmp y z = Lt → cmp x z = Lt }.

#[global] Instance Z_compare_eq : CmpEq Z.compare.
Proof.
  split; [intros x y; apply Z.compare_eq_iff|intros x y; apply Z.compare_antisym|].
  intros x y z. rewrite !Z.compare_lt_iff. lia.
Qed.

#[global] Instance string_compare_eq : CmpEq String.compare.
Proof.
  assert (∀ x, String.compare x x = Eq) as Hrefl.
  { intros x. pose proof (String.compare_antisym x x) as H. by destruct (String.compare x x). }
  split.
  - intros x y. split; [apply String.compare_eq_iff|intros ->; apply Hrefl].
  - intros x y. apply String.compare_antisym.
  - intros x y z H1 H2. destruct (String.compare x z) eqn:E; [|done|].
    + apply String.compare_eq_iff in E as ->. rewrite String.compare_antisym, H2 in H1. discriminate H1.
    + exfalso. apply (cmp_trans String.compare x y z); [unfold cmp_le; by rewrite H1|unfold cmp_le; by rewrite H2|exact E].
Qed.

Lemma cmp_refl {A} (cmp : A → A → comparison) `{!CmpEq cmp} x : cmp x x = Eq.
Proof. by apply cmp_eq. Qed.

#[global] Instance pre_id_eq : CmpEq cmp_pre_id.
Proof.
  split.
  - intros [x|x] [y|y]; simpl; split; try done.
    + intros H%Z.compare_eq_iff. by subst.
    + intros [= ->]. apply Z.compare_refl.
    + intros H%cmp_eq. by subst.
    + intros [= ->]. apply cmp_refl, _.
  - intros [x|x] [y|y]; simpl; try done; [apply Z.compare_antisym|apply String.compare_antisym].
  - intros [x|x] [y|y] [z|z]; simpl; try done; apply cmp_lt_trans.
Qed.

(** Lexicographic orders. *)
Lemma then_lt_trans {A} (c : A → A → comparison) `{!CmpEq c} x y z r s t :
  (r = Lt → s = Lt → t = Lt) →
  cmp_then (c x y) r = Lt → cmp_then (c y z) s = Lt → cmp_then (c x z) t = Lt.
Proof.
  intros Hd. destruct (c x y) eqn:E1; [apply cmp_eq in E1 as ->| |done].
  - destruct (c y z); simpl; auto.
  - intros _. destruct (c y z) eqn:E2; [apply cmp_eq in E2 as <-| |done]; intros _.
    + by rewrite E1.
    + by rewrite (cmp_lt_trans x y z E1 E2).
Qed.

#[global] Instance list_cmp_eq {A} (cmp : A → A → comparison) : CmpEq cmp → CmpEq (cmp_list cmp).
Proof.
  intros Hc. split.
  - intros x. induction x as [|a x IH]; intros [|b y]; simpl; try done. split.
    + destruct (cmp a b) eqn:E; simpl; try done. apply cmp_eq in E as ->. intros H%IH. by subst.
    + intros [= -> ->]. rewrite cmp_refl by done. simpl. by apply IH.
  - intros x. induction x as [|a x IH]; intros [|b y]; simpl; try done. rewrite (cmp_opp a b), (IH y). by destruct (cmp b a).
  - intros x. induction x as [|a x IH]; intros [|b y] [|c z]; simpl; try done. apply (then_lt_trans cmp). apply IH.
Qed.

#[global] Instance pre_cmp_eq : CmpEq cmp_pre.
Proof.
  split.
  - intros [|i p] [|j q]; try done. apply (cmp_eq (cmp := cmp_list cmp_pre_id)).
  - intros [|i p] [|j q]; try done. apply (cmp_opp (cmp := cmp_list cmp_pre_id)).
  - intros [|i p] [|j q] [|k r]; try done. apply (cmp_lt_trans (cmp := cmp_list cmp_pre_id)).
Qed.

Lemma then_assoc x y z : cmp_then (cmp_then x y) z = cmp_then x (cmp_then y z).
Proof. by destruct x. Qed.

#[global] Instance version_cmp_eq : CmpEq cmp_version.
Proof.
  split; unfold cmp_version.
  - intros [a b c p] [a' b' c' p']. cbn [v_major v_minor v_patch v_pre]. split.
    + destruct (Z.compare_spec a a'), (Z.compare_spec b b'), (Z.compare_spec c c'); cbn [cmp_then]; try done. subst.
      by intros ->%cmp_eq.
    + intros [= -> -> -> ->]. rewrite !Z.compare_refl. apply (cmp_refl cmp_pre).
  - intros [a b c p] [a' b' c' p']. cbn [v_major v_minor v_patch v_pre].
    rewrite (Z.compare_antisym a' a), (Z.compare_antisym b' b), (Z.compare_antisym c' c), (cmp_opp (cmp := cmp_pre) p p').
    by destruct (a' ?= a), (b' ?= b), (c' ?= c).
  - intros [a b c p] [a' b' c' p'] [a'' b'' c'' p'']. cbn [v_major v_minor v_patch v_pre]. rewrite !then_assoc.
    do 3 apply (then_lt_trans Z.compare). apply (cmp_lt_trans (cmp := cmp_pre)).
Qed.

(** ** What parses, and what prints *)
Definition plain (a : ascii) : bool := negb (Ascii.eqb a ".") && negb (Ascii.eqb a "+").

Definition id_ok (i : PreId) : Prop :=
  match i with
  | Num n => in_u64 n
  | Alpha s => s ≠ "" ∧ str_all is_digit s = false ∧ str_all plain s = true
  end.

Record version_ok (v : Version) : Prop := {
  vo_major : in_u64 (v_major v);
  vo_minor : in_u64 (v_minor v);
  vo_patch : in_u64 (v_patch v);
  vo_pre : Forall id_ok (v_pre v) }.

Lemma digits_val_nonneg acc s v : 0 ≤ acc → digits_val acc s = Some v → 0 ≤ v.
Proof.
  revert acc. induction s as [|a s IH]; intros acc Ha H; simpl in H; [by injection H as <-|].
  destruct (digit_val a) as [d|] eqn:Ed; [|done]. cbn in H. apply IH in H; [done|].
  unfold digit_val in Ed. destruct (0 <=? Z.of_N (N_of_ascii a) - 48) eqn:E0; [|done].
  apply Z.leb_le in E0. cbn in Ed. destruct (_ <=? 9); [|done]. injection Ed as <-. lia.
Qed.

Lemma parse_uint_range s v : parse_uint u64_max s = Some v → in_u64 v.
Proof.
  unfold parse_uint. generalize (match s with String "+" r => r | _ => s end). intros t H.
  assert ((d ← digits_val 0 t; if d <=? u64_max then Some d else None) = Some v) as Ht by (by destruct t).
  clear H. destruct (digits_val 0 t) as [d|] eqn:E; [|done]. cbn in Ht.
  destruct (Z.leb_spec d u64_max) as [Hle|]; [|done]. injection Ht as <-.
  apply digits_val_nonneg in E; [|done]. unfold in_u64, u64_max in *. lia.
Qed.

Lemma parse_num_range p v : parse_num p = Ok v → in_u64 v.
Proof.
  destruct p as [[|a s]|]; simpl; try done. destruct (parse_uint u64_max (String a s)) as [w|] eqn:E; [|done].
  intros [= <-]. by eapply parse_uint_range.
Qed.

Lemma split_char_pieces p c s : str_all p s = true → Forall (λ x, str_all p x = true) (split_char c s).
Proof.
  induction s as [|a s IH]; simpl; [by repeat constructor|]. intros [Ha Hs]%andb_prop. specialize (IH Hs).
  destruct (Ascii.eqb a c); [by constructor|]. destruct (split_char c s) as [|x l]; [by constructor; [simpl; rewrite Ha|]|].
  inversion IH; subst. constructor; [|done]. simpl. by rewrite Ha.
Qed.

Lemma split_char_no c s : Forall (λ x, str_all (λ a, negb (Ascii.eqb a c)) x = true) (split_char c s).
Proof.
  induction s as [|a s IH]; simpl; [by repeat constructor|]. destruct (Ascii.eqb a c) eqn:E; [by constructor|].
  destruct (split_char c s) as [|x l]; [constructor; [simpl; by rewrite E|done]|]. inversion IH; subst.
  constructor; [|done]. simpl. by rewrite E.
Qed.

Lemma split_once_parts p c s l r : str_all p s = true → split_once c s = Some (l, r) → str_all p r = true.
Proof.
  revert l. induction s as [|a s IH]; intros l; simpl; [done|]. intros [Ha Hs]%andb_prop.
  destruct (Ascii.eqb a c); [by intros [= _ <-]|]. destruct (split_once c s) as [[l' r']|]; [|done]. intros [= _ <-]. by eapply IH.
Qed.

Lemma str_all_and p q s : str_all p s = true → str_all q s = true → str_all (λ a, p a && q a) s = true.
Proof. induction s as [|a s IH]; simpl; [done|]. intros [-> ?]%andb_prop [-> ?]%andb_prop. simpl. auto. Qed.

Lemma parse_pre_id_ok x i : str_all plain x = true → parse_pre_id x = Ok i → id_ok i.
Proof.
  intros Hx. unfold parse_pre_id. destruct (String.eqb_spec x "") as [|Hne]; [done|].
  destruct (str_all is_digit x) eqn:Ed; [|by intros [= <-]].
  destruct (parse_uint u64_max x) as [n|] eqn:E; [|done]. intros [= <-]. by eapply parse_uint_range.
Qed.

Lemma parse_core_range core a b c : parse_core core = Ok (a, b, c) → in_u64 a ∧ in_u64 b ∧ in_u64 c.
Proof.
  unfold parse_core. destruct (parse_num (_ !! 0%nat)) as [x|e|] eqn:E1; [|done..]. cbn [mbind res_bind].
  destruct (parse_num (_ !! 1%nat)) as [y|e|] eqn:E2; [|done..]. cbn [mbind res_bind].
  destruct (split_char "." core !! 2%nat) as [p|].
  - destruct (parse_num (Some p)) as [z|e|] eqn:E3; [|done..]. cbn [mbind res_bind].
    destruct (_ !! 3%nat); [done|]. intros [= <- <- <-].
    split; [by eapply parse_num_range|]. split; by eapply parse_num_range.
  - cbn [mbind res_bind]. destruct (_ !! 3%nat); [done|]. intros [= <- <- <-].
    split; [by eapply parse_num_range|]. split; [by eapply parse_num_range|done].
Qed.

Lemma parse_version_ok text v : parse_version text = Ok v → version_ok v.
Proof.
  unfold parse_version. cbv zeta. set (nb := default "" (split_next "+" (strip_vs (trim text)))).
  assert (str_all (λ a, negb (Ascii.eqb a "+")) nb = true) as Hnb.
  { unfold nb, split_next. pose proof (split_char_no "+" (strip_vs (trim text))) as H.
    destruct (split_char "+" (strip_vs (trim text))) as [|x l]; [done|]. by inversion H. }
  destruct (split_once "-" nb) as [[core pre]|] eqn:Es; intros H.
  - destruct (parse_core core) as [[[a b] c]|e|] eqn:Ec; [|done..]. cbn [mbind res_bind] in H.
    destruct (map_res parse_pre_id (split_char "." pre)) as [js|e|] eqn:Ep; [|done..]. injection H as <-.
    apply parse_core_range in Ec as (Ha & Hb & Hc). split; try done. cbn.
    apply split_once_parts with (p := λ a, negb (Ascii.eqb a "+")) in Es; [|done].
    pose proof (split_char_pieces _ "." _ Es) as H1. pose proof (split_char_no "." pre) as H2.
    apply map_res_Forall2 in Ep. clear -Ep H1 H2.
    induction Ep as [|x i l js Hx _ IH]; [constructor|]. inversion H1; subst. inversion H2; subst.
    constructor; [|by apply IH]. eapply parse_pre_id_ok; [|exact Hx]. by apply str_all_and.
  - destruct (parse_core nb) as [[[a b] c]|e|] eqn:Ec; [|done..]. injection H as <-.
    apply parse_core_range in Ec as (Ha & Hb & Hc). by split.
Qed.

(** ** Parsing what was printed *)
Lemma print_uint_cons n : in_u64 n → ∃ a s, print_uint n = String a s ∧ is_digit a = true.
Proof.
  intros Hn. pose proof (print_uint_digits n) as Hd.
  pose proof (parse_print_uint u64_max n Hn ltac:(unfold in_u64, u64_max in *; lia)) as Hp.
  destruct (print_uint n) as [|a s]; [done|]. simpl in Hd. apply andb_prop in Hd as [Ha _]. by exists a, s.
Qed.

Lemma u64_le_max n : in_u64 n → n ≤ u64_max.
Proof. unfold in_u64, u64_max. lia. Qed.

Lemma parse_num_print n : in_u64 n → parse_num (Some (print_uint n)) = Ok n.
Proof.
  intros Hn. destruct (print_uint_cons n Hn) as (a & s & E & _).
  pose proof (parse_print_uint u64_max n Hn ltac:(unfold in_u64, u64_max in *; lia)) as Hp.
  unfold parse_num. rewrite E in Hp |- *. by rewrite Hp.
Qed.

Lemma parse_print_id i : id_ok i → parse_pre_id (print_pre_id i) = Ok i.
Proof.
  unfold parse_pre_id. destruct i as [n|s]; cbn [print_pre_id].
  - intros Hn. destruct (print_uint_cons n Hn) as (a & s & E & _). rewrite print_uint_digits.
    destruct (String.eqb_spec (print_uint n) "") as [E'|_]; [by rewrite E' in E|].
    by rewrite parse_print_uint; [|exact Hn|apply u64_le_max].
  - intros (Hne & Hd & _). destruct (String.eqb_spec s ""); [done|]. by rewrite Hd.
Qed.

Lemma digits_free_of c n : is_digit c = false → str_all (λ a, negb (Ascii.eqb a c)) (print_uint n) = true.
Proof. intros Hc. apply digits_free; [done|]. apply print_uint_digits. Qed.

Lemma print_id_free c i : is_digit c = false → plain c = false → id_ok i →
  str_all (λ a, negb (Ascii.eqb a c)) (print_pre_id i) = true.
Proof.
  intros Hd Hc. destruct i as [n|s]; [intros _; by apply digits_free_of|]. intros (_ & _ & Hs).
  revert Hs. apply str_all_impl. intros a Ha. destruct (Ascii.eqb_spec a c) as [->|]; [congruence|done].
Qed.

Definition dotted (pre : list PreId) : string := foldr (λ i acc, "." +:+ print_pre_id i +:+ acc) "" pre.

Lemma split_dotted i pre :
  id_ok i → Forall id_ok pre → split_char "." (print_pre_id i +:+ dotted pre) = print_pre_id <$> i :: pre.
Proof.
  intros Hi Hpre. revert i Hi. induction Hpre as [|j pre Hj Hpre IH]; intros i Hi.
  - cbn [dotted foldr]. rewrite string_app_nil_r, split_char_free; [done|]. by apply print_id_free.
  - cbn [dotted foldr]. change ("." +:+ ?x) with (String "." x). rewrite split_char_app by (by apply print_id_free).
    fold (dotted pre). by rewrite IH.
Qed.

Lemma dotted_free c pre : is_digit c = false → plain c = false → c ≠ "."%char → Forall id_ok pre →
  str_all (λ a, negb (Ascii.eqb a c)) (dotted pre) = true.
Proof.
  intros Hd Hc Hne. induction 1 as [|i pre Hi _ IH]; [done|]. cbn [dotted foldr].
  rewrite !str_all_app, (print_id_free c i Hd Hc Hi). fold (dotted pre). rewrite IH. cbn [str_all].
  destruct (Ascii.eqb_spec "." c); [congruence|done].
Qed.

Definition print_core (v : Version) : string := print_uint (v_major v) +:+ "." +:+ print_uint (v_minor v) +:+ "." +:+ print_uint (v_patch v).

Lemma parse_print_core v : version_ok v → parse_core (print_core v) = Ok (v_major v, v_minor v, v_patch v).
Proof.
  intros [Ha Hb Hc _]. unfold parse_core.
  change (print_core v) with (print_uint (v_major v) +:+ String "." (print_uint (v_minor v) +:+ String "." (print_uint (v_patch v)))).
  rewrite !split_char_app by (by apply digits_free_of). rewrite split_char_free by (by apply digits_free_of).
  set (a := print_uint (v_major v)). set (b := print_uint (v_minor v)). set (c := print_uint (v_patch v)). cbv zeta.
  change ([a; b; c] !! 0%nat) with (Some a). change ([a; b; c] !! 1%nat) with (Some b).
  change ([a; b; c] !! 2%nat) with (Some c). change ([a; b; c] !! 3%nat) with (@None string).
  unfold a, b, c. by rewrite !parse_num_print.
Qed.

Lemma core_free c v : is_digit c = false → c ≠ "."%char → str_all (λ a, negb (Ascii.eqb a c)) (print_core v) = true.
Proof.
  intros Hd Hne. unfold print_core. rewrite !str_all_app, !digits_free_of by done. cbn [str_all].
  destruct (Ascii.eqb_spec "." c); [congruence|done].
Qed.

Lemma map_res_print pre : Forall id_ok pre → map_res parse_pre_id (print_pre_id <$> pre) = Ok pre.
Proof. intros H. apply map_res_Forall2, Forall2_fmap_l. induction H as [|i pre Hi _ IH]; constructor; [by apply parse_print_id|done]. Qed.

Lemma parse_print_version v : version_ok v → trim (print_version v) = print_version v → parse_version (print_version v) = Ok v.
Proof.
  intros Hv Ht. unfold parse_version. rewrite Ht. cbv zeta.
  assert (print_version v = print_core v +:+ print_pre (v_pre v)) as ->.
  { unfold print_version, print_core. by rewrite !string_app_assoc. }
  assert (∀ x, strip_vs (print_core v +:+ x) = print_core v +:+ x) as ->.
  { intros x. destruct (print_uint_cons _ (vo_major v Hv)) as (a & s & E & Ha). unfold print_core. rewrite E. unfold strip_vs. str_simpl.
    assert (is_v a = false) as ->; [|done]. unfold is_v. by rewrite !is_digit_neq. }
  pose proof (vo_pre v Hv) as Hpre. pose proof (parse_print_core v Hv) as Hcore.
  destruct v as [ma mi pa pre]. cbn [v_pre v_major v_minor v_patch] in *. set (core := print_core _) in *.
  assert (str_all (λ a, negb (Ascii.eqb a "+")) core = true) as Hp by (by apply core_free).
  assert (str_all (λ a, negb (Ascii.eqb a "-")) core = true) as Hm by (by apply core_free).
  destruct pre as [|i pre].
  - cbn [print_pre]. rewrite string_app_nil_r. unfold split_next. rewrite split_char_free by done.
    change (default "" (head [core])) with core.
    rewrite (proj2 (split_once_None_iff "-" core)) by done. by rewrite Hcore.
  - inversion Hpre as [|? ? Hi Hpre']; subst.
    assert (print_pre (i :: pre) = String "-" (print_pre_id i +:+ dotted pre)) as -> by done.
    unfold split_next. rewrite split_char_free.
    2: { rewrite str_all_app, Hp. cbn. by rewrite str_all_app, print_id_free, dotted_free. }
    change (default "" (head [?x])) with x. rewrite split_once_app by done. rewrite Hcore. cbn [mbind res_bind].
    rewrite split_dotted by done.
    rewrite map_res_print by done. done.
Qed.

(** Version precedence is a total order that tells versions apart: equal
    only on equal versions, opposite when swapped, and transitive.  A release
    is above each of its own pre-releases. *)
Theorem version_order_total a b c :
  (cmp_version a b = Eq ↔ a = b) ∧ cmp_version a b = CompOpp (cmp_version b a) ∧
  (cmp_version a b = Lt → cmp_version b c = Lt → cmp_version a c = Lt) ∧
  (v_pre a ≠ [] → cmp_version a (MkVersion (v_major a) (v_minor a) (v_patch a) []) = Lt).
Proof.
  split; [apply cmp_eq|]. split; [apply cmp_opp|]. split; [apply cmp_lt_trans|].
  unfold cmp_version. rewrite !Z.compare_refl. cbn. by destruct (v_pre a).
Qed.

(** C36: parsing and display of versions.  Whatever parses is well formed:
    numbers fit 64 bits, and pre-release identifiers are non-empty without
    separators and never digits read as text; and every well-formed version
    whose text does not end in white space is read back from its display. *)
Theorem version_roundtrip :
  (∀ text v, parse_version text = Ok v → version_ok v) ∧
  (∀ v, version_ok v → trim (print_version v) = print_version v → parse_version (print_version v) = Ok v).
Proof. split; [apply parse_version_ok|apply parse_print_version]. Qed.

(** ** Examples *)
Definition ex_rc : Version := MkVersion 0 1 0 [Alpha "rc"; Num 1].

Example parse_rc : parse_version " v0.1.0-rc.1+build.7" = Ok ex_rc.
Proof. vm_compute. reflexivity. Qed.
Example print_rc : print_version ex_rc = "0.1.0-rc.1".
Proof. vm_compute. reflexivity. Qed.
Example semver_chain :
  let chain := ["1.0.0-alpha"; "1.0.0-alpha.1"; "1.0.0-alpha.beta"; "1.0.0-beta"; "1.0.0-beta.2"; "1.0.0-beta.11"; "1.0.0-rc.1"; "1.0.0"] in
  forallb (λ p, match parse_version p.1, parse_version p.2 with
                | Ok a, Ok b => match cmp_version a b with Lt => true | _ => false end
                | _, _ => false end) (zip chain (tail chain)) = true.
Proof. vm_compute. reflexivity. Qed.
Example parse_garbage :
  forallb (λ t, match parse_version t with Err _ => true | _ => false end) [""; "abc"; "1"; "1.x.0"; "1.2.3.4"; "1.0.0-"; "1..0"] = true.
Proof. vm_compute. reflexivity. Qed.

(** Space before the build metadata stays in the last identifier, and is lost
    when the display is read back. *)
Example space_before_build :
  parse_version "1.0.0-rc +b" = Ok (MkVersion 1 0 0 [Alpha "rc "]) ∧
  parse_version (print_version (MkVersion 1 0 0 [Alpha "rc "])) = Ok (MkVersion 1 0 0 [Alpha "rc"]).
Proof. vm_compute. done. Qed.

Lemma version_order_total_witness :
  cmp_version ex_rc (MkVersion 0 1 0 []) = Lt ∧ cmp_version (MkVersion 0 1 0 []) ex_rc = Gt.
Proof.
  destruct (version_order_total ex_rc (MkVersion 0 1 0 []) ex_rc) as (_ & Hopp & _ & Hpre).
  assert (cmp_version ex_rc (MkVersion 0 1 0 []) = Lt) as H by (apply Hpre; discriminate).
  split; [exact H|]. rewrite Hopp in H. destruct (cmp_version (MkVersion 0 1 0 []) ex_rc); done.
Defined.

Lemma version_roundtrip_witness : version_ok ex_rc ∧ parse_version (print_version ex_rc) = Ok ex_rc.
Proof.
  assert (version_ok ex_rc) as H by (apply (proj1 version_roundtrip " v0.1.0-rc.1+build.7"); vm_compute; reflexivity).
  split; [exact H|]. apply (proj2 version_roundtrip); [exact H|]. vm_compute. reflexivity.
Defined.
