(* ===== verification/Update.v ===== *)
(** * Self-update ([onebrain-cli/src/update/mod.rs], [github.rs], [swap.rs])

    Query the latest release, pick this platform's asset, verify it, and swap
    the executable.  Parameters: the replies of the servers, SHA-256, the
    decoding of a release document and of text, the archive formats, cosign,
    and which file operations fail. *)

From Stdlib Require Import ZArith Lia Ascii String.
From stdpp Require Import base list strings option gmap.
From S2P Require Import Prelude StrUtil Gguf Split Version.

Open Scope Z_scope.

(** ** Releases *)
Record Asset := MkAsset { as_name : string; as_url : string; as_size : Z }.
Record Release := MkRelease { rl_tag_name : string; rl_assets : list Asset }.

Definition NON_PAYLOAD_SUFFIXES : list string :=
  [".sha256"; ".sig"; ".pem"; ".cert"; ".crt"; ".asc"; ".msi"; ".deb"; ".rpm"; ".txt"; ".json"; ".sbom"].

Definition UNIVERSAL : string := "universal-apple-darwin".

Definition payload_class (name triple : string) : option Z :=
  if ends_with ".exe" name then Some 0
  else if ends_with ".tar.gz" name || ends_with ".tgz" name then Some 1
  else if ends_with ".zip" name then Some 2
  else if ends_with triple name || ends_with UNIVERSAL name then Some 0
  else None.

Definition for_this_platform (name triple : string) : bool :=
  contains triple name || (ends_with "apple-darwin" triple && contains UNIVERSAL name).

(** The class of an asset that can be installed here. *)
Definition candidate (triple : string) (a : Asset) : option Z :=
  if negb (starts_with "onebrain" (as_name a)) || negb (for_this_platform (as_name a) triple) then None
  else if existsb (λ s, ends_with s (as_name a)) NON_PAYLOAD_SUFFIXES then None
  else payload_class (as_name a) triple.

Definition select_step (triple : string) (best : option (Z * Asset)) (a : Asset) : option (Z * Asset) :=
  match candidate triple a with
  | None => best
  | Some class =>
      match best with
      | Some (b, _) => if class <? b then Some (class, a) else best
      | None => Some (class, a)
      end
  end.

Definition select_asset (assets : list Asset) (triple : string) : option Asset :=
  snd <$> foldl (select_step triple) None assets.

Definition find_named (assets : list Asset) (name : string) : option Asset :=
  find_first (λ a, String.eqb (as_name a) name) assets.

Definition is_hexdigit (a : ascii) : bool := between 48 57 a || between 97 102 a || between 65 70 a.

(** The digest and the file name of a line of SHA256SUMS. *)
Definition sums_line (line : string) : option (string * string) :=
  '(digest, rest) ← next_word line;
  '(name, _) ← next_word rest;
  if negb (String.length digest =? 64)%nat || negb (str_all is_hexdigit digest) then None
  else
    let name := (str_span (λ a, negb (Ascii.eqb a "*")) name).2 in
    Some (digest, match rsplit_once is_slash name with Some (_, n) => n | None => name end).

Definition digest_for (sums asset : string) : option string :=
  (to_lower ∘ fst) <$> find_first (λ e : string * string, String.eqb e.2 asset) (omap sums_line (str_lines sums)).

(** ** Configuration and outcomes *)
Definition triple_for (os arch : string) : string :=
  if String.eqb os "windows" then arch +:+ "-pc-windows-msvc"
  else if String.eqb os "macos" then arch +:+ "-apple-darwin"
  else if String.eqb os "linux" then arch +:+ "-unknown-linux-gnu"
  else arch +:+ "-unknown-" +:+ os.

Record UpdateConfig := MkConfig {
  uc_api_base : string;
  uc_repo : string;
  uc_triple : string;
  uc_current_version : string;
  uc_current_exe : string;
  uc_allow_downgrade : bool;
  uc_cosign : bool }.

Inductive UpdateError :=
  | EApi (url : string)
  | EBadVersion (value : string)
  | ENoAsset (tag triple : string)
  | ENoChecksums (tag : string)
  | EChecksumMissing (asset : string)
  | EChecksumMismatch (asset expected actual : string)
  | ECosign
  | EDowngrade (tag current : string)
  | EExtract (name : string)
  | ESwap
  | EIo.

Record CheckOutcome := MkCheck {
  co_current : string;
  co_latest : string;
  co_update_available : bool;
  co_downgrade : bool;
  co_asset : option string }.

Inductive CosignStatus := Verified | NoBinary | NoSignature | NoCertificate.

Record InstallOutcome := MkInstalled {
  io_from : string;
  io_to : string;
  io_asset : string;
  io_exe : string;
  io_old_kept : option string;
  io_cosign : CosignStatus }.

Inductive UpdateOutcome := UpToDate (current : string) | Installed (o : InstallOutcome).

(** ** The machine: the files beside the executable by their paths, the
    requests and file operations so far, and every state of the files *)
Record Upd := MkUpd {
  up_files : gmap string bytes;
  up_requests : nat;
  up_ops : nat;
  up_trace : list (gmap string bytes) }.

Definition UpdM (A : Type) : Type := Upd → res UpdateError A * Upd.
#[global] Instance upd_ret : MRet UpdM := λ A x u, (Ok x, u).
#[global] Instance upd_bind : MBind UpdM := λ A B f m u,
  match m u with
  | (Ok x, u) => f x u
  | (Err e, u) => (Err e, u)
  | (Panic, u) => (Panic, u)
  end.
Definition lift {A} (r : res UpdateError A) : UpdM A := λ u, (r, u).

(** What an [Err] is discarded for ([let _ = ...], [if let Err]). *)
Definition try_op {A} (m : UpdM A) : UpdM bool := λ u,
  match m u with
  | (Ok _, u) => (Ok true, u)
  | (Err _, u) => (Ok false, u)
  | (Panic, u) => (Panic, u)
  end.

Definition set_files (f : gmap string bytes) (u : Upd) : Upd :=
  MkUpd f (up_requests u) (S (up_ops u)) (up_trace u ++ [f]).

Inductive HttpReply := NoReply | Reply (status : Z) (body : bytes) (whole : bool).

(** Entries of an archive: whether it is a directory, its path if it has a
    usable one, and its content if it can be read; or an entry that cannot. *)
Record ArchiveEntry := MkEntry { en_dir : bool; en_path : option string; en_content : option bytes }.

Definition is_success (status : Z) : bool := (200 <=? status) && (status <? 300).

(** [Path::file_name]. *)
Definition file_name (path : string) : option string :=
  c ← last (filter (λ c, negb (String.eqb c "" || String.eqb c ".") = true) (split_char "/" path));
  if String.eqb c ".." then None else Some c.

Section Update.
(** The [n]-th request's reply. *)
Context (http : nat → string → HttpReply).
Context (json : bytes → option Release) (text : bytes → string) (sha256 : bytes → string).
Context (untar unzip : bytes → option (list (option ArchiveEntry))).
(** cosign on its arguments and the three files; [None] if it cannot run. *)
Context (cosign : list string → string → bytes → bytes → option bool).
(** The [n]-th file operation: it works, fails, or is a copy that fails
    leaving this much. *)
Context (fault : nat → option (option bytes)).
(** Paths in the temporary directory; the suffix of executables; the path of
    a file beside the executable, if the executable has a parent directory. *)
Context (tmp : string → string) (exe_suffix : string) (beside : string → option string).

Definition exe_name : string := "onebrain" +:+ exe_suffix.

(** *** File operations beside the executable *)
Definition file_op (f : gmap string bytes → option (gmap string bytes)) (torn : bytes → gmap string bytes → gmap string bytes) :
    UpdM unit := λ u,
  match fault (up_ops u) with
  | Some rest => (Err ESwap, set_files (match rest with Some b => torn b (up_files u) | None => up_files u end) u)
  | None =>
      match f (up_files u) with
      | Some files => (Ok (), set_files files u)
      | None => (Err ESwap, set_files (up_files u) u)
      end
  end.

Definition no_trace (_ : bytes) (files : gmap string bytes) : gmap string bytes := files.

Definition remove_file (p : string) : UpdM unit :=
  file_op (λ files, _ ← files !! p; Some (delete p files)) no_trace.
Definition rename_file (p q : string) : UpdM unit :=
  file_op (λ files, c ← files !! p; Some (<[q := c]> (delete p files))) no_trace.
Definition copy_to (content : bytes) (q : string) : UpdM unit :=
  file_op (λ files, Some (<[q := content]> files)) (λ b files, <[q := b]> files).
(** A permission change, or work in the temporary directory. *)
Definition other_op (e : UpdateError) : UpdM unit := λ u,
  (match fault (up_ops u) with None => Ok () | Some _ => Err e end, set_files (up_files u) u).

(** *** Requests *)
Definition request (url : string) : UpdM HttpReply := λ u,
  (Ok (http (up_requests u) url), MkUpd (up_files u) (S (up_requests u)) (up_ops u) (up_trace u)).

Definition fetch_body (url : string) : UpdM bytes :=
  r ← request url;
  match r with
  | Reply status body true => if is_success status then mret body else lift (Err (EApi url))
  | _ => lift (Err (EApi url))
  end.

Definition trim_end_slashes (s : string) : string := str_rev (strip_while ["/"] (String.length s) (str_rev s)).
Definition release_url (cfg : UpdateConfig) : string :=
  trim_end_slashes (uc_api_base cfg) +:+ "/repos/" +:+ uc_repo cfg +:+ "/releases/latest".

Definition fetch_release (cfg : UpdateConfig) : UpdM Release :=
  body ← fetch_body (release_url cfg); lift (ok_or (json body) (EApi (release_url cfg))).

Definition fetch_text (url : string) : UpdM string := body ← fetch_body url; mret (text body).

(** The file is created after the status and before the body. *)
Definition download_to (url : string) : UpdM bytes :=
  r ← request url;
  match r with
  | NoReply => lift (Err (EApi url))
  | Reply status body whole =>
      if is_success status then
        _ ← other_op EIo;
        if whole : bool then mret body else lift (Err (EApi url))
      else lift (Err (EApi url))
  end.

Definition parse_tag (value : string) : res UpdateError Version :=
  map_err (λ _, EBadVersion value) (parse_version value).

(** [check]: nothing is changed. *)
Definition check (cfg : UpdateConfig) : UpdM CheckOutcome :=
  release ← fetch_release cfg;
  latest ← lift (parse_tag (rl_tag_name release));
  current ← lift (parse_tag (uc_current_version cfg));
  mret (MkCheck (print_version current) (print_version latest)
    (match cmp_version latest current with Gt => true | _ => false end)
    (match cmp_version latest current with Lt => true | _ => false end)
    (as_name <$> select_asset (rl_assets release) (uc_triple cfg))).

(** *** Verification *)
Definition cosign_args (sums sig cert repo : string) : list string :=
  ["verify-blob"; "--signature"; sig; "--certificate"; cert; "--certificate-identity-regexp";
   "^https://github.com/" +:+ repo +:+ "/"; "--certificate-oidc-issuer";
   "https://token.actions.githubusercontent.com"; sums].

Definition verify_cosign (cfg : UpdateConfig) (release : Release) (sums : string) : UpdM CosignStatus :=
  if negb (uc_cosign cfg) then mret NoBinary
  else match find_named (rl_assets release) "SHA256SUMS.sig" with
       | None => mret NoSignature
       | Some sig =>
           match head (omap (find_named (rl_assets release)) ["SHA256SUMS.pem"; "SHA256SUMS.cert"; "SHA256SUMS.crt"]) with
           | None => mret NoCertificate
           | Some cert =>
               _ ← other_op EIo;
               sig_bytes ← download_to (as_url sig);
               cert_bytes ← download_to (as_url cert);
               match cosign (cosign_args (tmp "SHA256SUMS") (tmp (as_name sig)) (tmp (as_name cert)) (uc_repo cfg))
                       sums sig_bytes cert_bytes with
               | Some true => mret Verified
               | _ => lift (Err ECosign)
               end
           end
       end.

(** *** Unpacking *)
Definition is_wanted (e : ArchiveEntry) : bool := bool_decide ((p ← en_path e; file_name p) = Some exe_name).

(** The first entry named like the executable. *)
Fixpoint find_entry (skip_dirs : bool) (entries : list (option ArchiveEntry)) : option bytes :=
  match entries with
  | [] => None
  | None :: _ => None
  | Some e :: entries =>
      if negb (skip_dirs && en_dir e) && is_wanted e then en_content e else find_entry skip_dirs entries
  end.

Definition unpack (asset_name : string) (payload : bytes) : option bytes :=
  if ends_with ".tar.gz" asset_name || ends_with ".tgz" asset_name then es ← untar payload; find_entry false es
  else if ends_with ".zip" asset_name then es ← unzip payload; find_entry true es
  else Some payload.

Definition extract_executable (asset_name : string) (payload : bytes) : UpdM bytes :=
  new_exe ← lift (ok_or (unpack asset_name payload) (EExtract asset_name));
  _ ← other_op (EExtract asset_name);
  _ ← other_op (EExtract asset_name);
  mret new_exe.

(** *** The swap *)
Definition old_path (current : string) : string := current +:+ ".old".

(** The executable is parked: put the staged one in its place, or go back. *)
Definition place (staged current : string) : UpdM (option string) :=
  placed ← try_op (rename_file staged current);
  if negb placed then
    _ ← try_op (rename_file (old_path current) current);
    _ ← try_op (remove_file staged);
    lift (Err ESwap)
  else
    gone ← try_op (remove_file (old_path current));
    mret (if gone : bool then None else Some (old_path current)).

(** Park the current executable, after a stale parked one is gone. *)
Definition park (staged current : string) : UpdM (option string) :=
  _ ← try_op (remove_file (old_path current));
  moved ← try_op (rename_file current (old_path current));
  if negb moved then _ ← try_op (remove_file staged); lift (Err ESwap)
  else place staged current.

Definition swap_executable (new_exe : bytes) (current : string) : UpdM (option string) :=
  staged ← lift (ok_or (beside ("." +:+ exe_name +:+ ".new")) ESwap);
  _ ← copy_to new_exe staged;
  ok ← try_op (other_op ESwap);
  if negb ok then _ ← try_op (remove_file staged); lift (Err ESwap) else park staged current.

(** *** The update *)
Definition perform (cfg : UpdateConfig) : UpdM UpdateOutcome :=
  _ ← try_op (remove_file (old_path (uc_current_exe cfg)));
  release ← fetch_release cfg;
  latest ← lift (parse_tag (rl_tag_name release));
  current ← lift (parse_tag (uc_current_version cfg));
  if bool_decide (latest = current) then mret (UpToDate (print_version current))
  else
    _ ← lift (match cmp_version latest current with
              | Lt => if uc_allow_downgrade cfg then Ok () else Err (EDowngrade (rl_tag_name release) (uc_current_version cfg))
              | _ => Ok ()
              end);
    asset ← lift (ok_or (select_asset (rl_assets release) (uc_triple cfg)) (ENoAsset (rl_tag_name release) (uc_triple cfg)));
    sums_asset ← lift (ok_or (find_named (rl_assets release) "SHA256SUMS") (ENoChecksums (rl_tag_name release)));
    _ ← other_op EIo;
    payload ← download_to (as_url asset);
    sums ← fetch_text (as_url sums_asset);
    expected ← lift (ok_or (digest_for sums (as_name asset)) (EChecksumMissing (as_name asset)));
    _ ← other_op EIo;
    if negb (String.eqb (to_lower expected) (to_lower (sha256 payload)))
    then lift (Err (EChecksumMismatch (as_name asset) expected (sha256 payload)))
    else
      status ← verify_cosign cfg release sums;
      new_exe ← extract_executable (as_name asset) payload;
      old_kept ← swap_executable new_exe (uc_current_exe cfg);
      mret (Installed (MkInstalled (print_version current) (print_version latest) (as_name asset)
        (uc_current_exe cfg) old_kept status)).
End Update.
