(* ===== verification/UpdateOk.v ===== *)
(** * A self-update installs only what was verified

    Whatever the servers send and whatever file operation fails, at every
    moment the executable is the old one, or verified new content, or parked
    under its [.old] name in the middle of the swap; what is installed is the
    executable of an asset of the release whose SHA-256 the release's sums
    list; and asset selection and digest lookup do what they say. *)

From Stdlib Require Import ZArith Lia Ascii String.
From stdpp Require Import base list strings option gmap.
From S2P Require Import Prelude StrUtil Gguf Split Version Update.

Open Scope Z_scope.

(** ** Runs of the machine *)
Lemma upd_bind_inv {A B} (m : UpdM A) (k : A → UpdM B) u r u' :
  (m ≫= k) u = (r, u') →
  (∃ x u1, m u = (Ok x, u1) ∧ k x u1 = (r, u')) ∨ (∃ e, m u = (Err e, u') ∧ r = Err e) ∨ (m u = (Panic, u') ∧ r = Panic).
Proof.
  intros H. unfold mbind, upd_bind in H. destruct (m u) as [[x|e|] u1].
  - left. by exists x, u1.
  - right. left. exists e. injection H as <- <-. done.
  - right. right. injection H as <- <-. done.
Qed.

(** The states passed through since satisfy [Q]. *)
Definition passed (Q : gmap string bytes → Prop) (u u' : Upd) : Prop :=
  ∃ l, up_trace u' = up_trace u ++ l ∧ Forall Q l.

Lemma passed_refl Q u : passed Q u u.
Proof. exists []. by rewrite app_nil_r. Qed.
Lemma passed_trans Q u v w : passed Q u v → passed Q v w → passed Q u w.
Proof.
  intros (l & E & Hl) (k & F & Hk). exists (l ++ k). rewrite F, E, app_assoc. split; [done|by apply Forall_app_2].
Qed.
Lemma passed_set Q u f : Q f → passed Q u (set_files f u).
Proof. intros H. exists [f]. by split; [|constructor]. Qed.
Lemma passed_impl (Q R : gmap string bytes → Prop) u v : (∀ f, Q f → R f) → passed Q u v → passed R u v.
Proof. intros H (l & E & Hl). exists l. split; [done|]. by eapply Forall_impl. Qed.

(** ** File operations *)
Section Ops.
Context (fault : nat → option (option bytes)).

Lemma try_remove p u : ∃ b g, try_op (remove_file fault p) u = (Ok b, set_files g u) ∧
  g = if b : bool then delete p (up_files u) else up_files u.
Proof.
  unfold try_op, remove_file, file_op. destruct (fault (up_ops u)) as [[t|]|]; [by exists false, (up_files u)..|].
  destruct (up_files u !! p) as [c|] eqn:E; cbn.
  - by exists true, (delete p (up_files u)).
  - by exists false, (up_files u).
Qed.

Lemma try_rename p q u : ∃ b g, try_op (rename_file fault p q) u = (Ok b, set_files g u) ∧
  if b : bool then ∃ c, up_files u !! p = Some c ∧ g = <[q := c]> (delete p (up_files u)) else g = up_files u.
Proof.
  unfold try_op, rename_file, file_op. destruct (fault (up_ops u)) as [[t|]|]; [by exists false, (up_files u)..|].
  destruct (up_files u !! p) as [c|] eqn:E; cbn.
  - exists true, (<[q := c]> (delete p (up_files u))). by split; [|exists c].
  - by exists false, (up_files u).
Qed.

Lemma copy_spec c q u : ∃ r g, copy_to fault c q u = (r, set_files g u) ∧
  ((r = Ok () ∧ g = <[q := c]> (up_files u)) ∨ (r = Err ESwap ∧ ∀ p, p ≠ q → g !! p = up_files u !! p)).
Proof.
  unfold copy_to, file_op. destruct (fault (up_ops u)) as [[t|]|].
  - exists (Err ESwap), (<[q := t]> (up_files u)). split; [done|]. right. split; [done|].
    intros p Hp. by rewrite lookup_insert_ne by congruence.
  - exists (Err ESwap), (up_files u). split; [done|]. by right.
  - exists (Ok ()), (<[q := c]> (up_files u)). split; [done|]. by left.
Qed.

Lemma other_spec e u : ∃ r, other_op fault e u = (r, set_files (up_files u) u) ∧ (r = Ok () ∨ r = Err e).
Proof. unfold other_op. destruct (fault (up_ops u)); eexists; split; [done|by right|done|by left]. Qed.

Lemma try_other e u : ∃ b, try_op (other_op fault e) u = (Ok b, set_files (up_files u) u).
Proof. unfold try_op. destruct (other_spec e u) as (r & -> & [->| ->]); eauto. Qed.
End Ops.

(** ** Steps around a safe executable *)
Section Safe.
Context (cur : string) (prev : bytes) (ok : bytes → Prop).

(** The executable is the old one, or approved, or parked under [.old]. *)
Definition safe (f : gmap string bytes) : Prop :=
  f !! cur = Some prev ∨ (∃ c, ok c ∧ f !! cur = Some c) ∨ (f !! cur = None ∧ f !! old_path cur = Some prev).

(** From the old executable, [m] passes safe states only and ends in [Post]. *)
Definition triple {A} (m : UpdM A) (Post : res UpdateError A → gmap string bytes → Prop) : Prop :=
  ∀ u r u', up_files u !! cur = Some prev → m u = (r, u') →
  r ≠ Panic ∧ passed safe u u' ∧ Post r (up_files u').

(** [m] leaves the executable alone; what it returns satisfies [R]. *)
Definition calm {A} (m : UpdM A) (R : A → Prop) : Prop :=
  triple m (λ r f, f !! cur = Some prev ∧ match r with Ok x => R x | _ => True end).

Lemma bind_triple {A B} (m : UpdM A) (k : A → UpdM B) R Post :
  calm m R → (∀ x, R x → triple (k x) Post) → (∀ e f, f !! cur = Some prev → Post (Err e) f) →
  triple (m ≫= k) Post.
Proof.
  intros Hm Hk He u r u' Hu H. apply upd_bind_inv in H as [(x & v & E & H)|[(e & E & ->)|[E ->]]].
  - destruct (Hm u _ _ Hu E) as (_ & Hp & Hv & HR). destruct (Hk x HR v _ _ Hv H) as (Hr & Hp' & HP).
    split; [done|]. split; [by eapply passed_trans|done].
  - destruct (Hm u _ _ Hu E) as (_ & Hp & Hv & _). split; [done|]. split; [done|by apply He].
  - by destruct (Hm u _ _ Hu E) as (? & _).
Qed.

Lemma bind_calm {A B} (m : UpdM A) (k : A → UpdM B) R S :
  calm m R → (∀ x, R x → calm (k x) S) → calm (m ≫= k) S.
Proof. intros Hm Hk. by eapply bind_triple. Qed.

Lemma calm_impl {A} (m : UpdM A) (R S : A → Prop) : (∀ x, R x → S x) → calm m R → calm m S.
Proof. intros H Hm u r u' Hu E. destruct (Hm u r u' Hu E) as (? & ? & ? & ?). destruct r; auto. Qed.

Lemma lift_calm {A} (r : res UpdateError A) (R : A → Prop) :
  r ≠ Panic → (∀ x, r = Ok x → R x) → calm (lift r) R.
Proof.
  intros Hr HR u ? u' Hu [= <- <-]. split; [done|]. split; [apply passed_refl|]. split; [done|].
  destruct r; auto.
Qed.

Lemma ok_or_calm {A} (o : option A) e : calm (lift (ok_or o e)) (λ x, o = Some x).
Proof. apply lift_calm; destruct o; cbn; congruence. Qed.

Lemma ret_calm {A} (x : A) (R : A → Prop) : R x → calm (mret x) R.
Proof. intros H. by apply (lift_calm (Ok x)); [|intros ? [= <-]]. Qed.

Lemma err_calm {A} e (R : A → Prop) : calm (lift (Err e)) R.
Proof. by apply lift_calm. Qed.

(** An operation that appends one state, with the executable in place. *)
Lemma set_calm {A} (m : UpdM A) (R : A → Prop) :
  (∀ u, up_files u !! cur = Some prev → ∃ r g, m u = (r, set_files g u) ∧ r ≠ Panic ∧ g !! cur = Some prev ∧
    match r with Ok x => R x | _ => True end) → calm m R.
Proof.
  intros H u r u' Hu E. destruct (H u Hu) as (r' & g & E' & Hr & Hg & HR). rewrite E' in E. injection E as <- <-.
  split; [done|]. split; [apply passed_set; by left|]. done.
Qed.

Section Faults.
Context (fault : nat → option (option bytes)).

Lemma other_calm e : calm (other_op fault e) (λ _, True).
Proof.
  apply set_calm. intros u Hu. destruct (other_spec fault e u) as (r & E & Hr).
  exists r, (up_files u). split; [done|]. destruct Hr as [->| ->]; done.
Qed.

Lemma try_remove_calm p : p ≠ cur → calm (try_op (remove_file fault p)) (λ _, True).
Proof.
  intros Hp. apply set_calm. intros u Hu. destruct (try_remove fault p u) as (b & g & E & ->).
  exists (Ok b), (if b then delete p (up_files u) else up_files u). split; [done|]. split; [done|]. split; [|done].
  destruct b; [by rewrite lookup_delete_ne by congruence|done].
Qed.
End Faults.

(** *** The swap *)
Section Swap.
Context (fault : nat → option (option bytes)) (exe_suffix : string) (beside : string → option string) (new : bytes).
Context (Hnew : ok new).
Context (Hbeside : ∀ p, beside ("." +:+ exe_name exe_suffix +:+ ".new") = Some p → p ≠ cur ∧ p ≠ old_path cur).

Lemma old_ne : old_path cur ≠ cur.
Proof.
  intros H. apply (f_equal String.length) in H. unfold old_path in H. rewrite string_length_app in H. cbn in H. lia.
Qed.

(** What the swap leaves. *)
Definition swapped (r : res UpdateError (option string)) (f : gmap string bytes) : Prop :=
  match r with
  | Ok kept => f !! cur = Some new ∧
      match kept with None => f !! old_path cur = None | Some p => p = old_path cur ∧ f !! p = Some prev end
  | Err e => e = ESwap ∧ (f !! cur = Some prev ∨ (f !! cur = None ∧ f !! old_path cur = Some prev))
  | Panic => False
  end.

Lemma place_spec staged u r u' :
  staged ≠ cur → staged ≠ old_path cur → place fault staged cur u = (r, u') →
  up_files u !! cur = None → up_files u !! old_path cur = Some prev → up_files u !! staged = Some new →
  passed safe u u' ∧ swapped r (up_files u').
Proof.
  intros Hsc Hso H Hc Ho Hs. pose proof old_ne as Hoc. unfold place, mbind, upd_bind in H.
  destruct (try_rename fault staged cur u) as (placed & g & E & Hg). rewrite E in H. destruct placed; cbn [negb] in H.
  - destruct Hg as (c & Ec & ->). rewrite Hs in Ec. injection Ec as <-.
    match type of H with context [set_files ?x u] => set (v := set_files x u) in * end.
    destruct (try_remove fault (old_path cur) v) as (gone & g & E' & ->). rewrite E' in H. injection H as <- <-.
    assert (Hvc : up_files v !! cur = Some new) by (cbn; apply lookup_insert_eq).
    assert (Hvo : up_files v !! old_path cur = Some prev)
      by (cbn; by rewrite lookup_insert_ne, lookup_delete_ne by congruence).
    split.
    + apply passed_trans with v; apply passed_set; right; left; exists new; split; try done.
      destruct gone; [by rewrite lookup_delete_ne by congruence|done].
    + destruct gone; cbn [swapped up_files set_files].
      * split; [by rewrite lookup_delete_ne by congruence|apply lookup_delete_eq].
      * done.
  - subst g. set (v := set_files (up_files u) u) in *.
    destruct (try_rename fault (old_path cur) cur v) as (back & g & E' & Hg). rewrite E' in H.
    assert (Hw : (g !! cur = Some prev) ∨ (g !! cur = None ∧ g !! old_path cur = Some prev)).
    { destruct back; [|by subst g; right]. destruct Hg as (c & Ec & ->). left.
      cbn in Ec. rewrite Ho in Ec. injection Ec as <-. apply lookup_insert_eq. }
    destruct (try_remove fault staged (set_files g v)) as (b & g' & E'' & ->). rewrite E'' in H. injection H as <- <-.
    assert (Hw' : let g' := if b then delete staged g else g in
      (g' !! cur = Some prev) ∨ (g' !! cur = None ∧ g' !! old_path cur = Some prev)).
    { destruct b; [|done]. cbn. by rewrite !lookup_delete_ne by congruence. }
    cbn zeta in Hw'. split.
    + apply passed_trans with v; [apply passed_set; by right; right|].
      apply passed_trans with (set_files g v); apply passed_set; unfold safe; tauto.
    + by split.
Qed.

Lemma park_spec staged u r u' :
  staged ≠ cur → staged ≠ old_path cur → park fault staged cur u = (r, u') →
  up_files u !! cur = Some prev → up_files u !! staged = Some new → passed safe u u' ∧ swapped r (up_files u').
Proof.
  intros Hsc Hso H Hc Hs. pose proof old_ne as Hoc. unfold park, mbind, upd_bind in H.
  destruct (try_remove fault (old_path cur) u) as (b & g & E & ->). rewrite E in H.
  match type of H with context [set_files ?x u] => set (x1 := x) in *; set (y := set_files x1 u) in * end.
  assert (Hyc : up_files y !! cur = Some prev) by (cbn; subst x1; destruct b; [by rewrite lookup_delete_ne by congruence|done]).
  assert (Hys : up_files y !! staged = Some new) by (cbn; subst x1; destruct b; [by rewrite lookup_delete_ne by congruence|done]).
  assert (Hpy : passed safe u y) by (apply passed_set; by left).
  clearbody y. clear E Hc Hs x1.
  destruct (try_rename fault cur (old_path cur) y) as (m & g & E & Hg). rewrite E in H. destruct m; cbn [negb] in H.
  - destruct Hg as (c & Ec & ->). rewrite Hyc in Ec. injection Ec as <-.
    edestruct (place_spec staged) as [Hp Hsw]; [done|done|exact H|..].
    + cbn. rewrite lookup_insert_ne by congruence. apply lookup_delete_eq.
    + cbn. apply lookup_insert_eq.
    + cbn. by rewrite lookup_insert_ne, lookup_delete_ne by congruence.
    + split; [|done]. eapply passed_trans; [done|]. eapply passed_trans; [|done]. apply passed_set. right; right.
      rewrite lookup_insert_ne by congruence. split; [apply lookup_delete_eq|apply lookup_insert_eq].
  - subst g. set (z := set_files (up_files y) y) in *.
    destruct (try_remove fault staged z) as (b' & g & E' & ->). rewrite E' in H. injection H as <- <-.
    assert (Hgc : (if b' then delete staged (up_files z) else up_files z) !! cur = Some prev)
      by (destruct b'; [by rewrite lookup_delete_ne by congruence|done]).
    split; [|by split; [|left]]. eapply passed_trans; [done|].
    apply passed_trans with z; apply passed_set; by left.
Qed.

Lemma swap_triple : triple (swap_executable fault exe_suffix beside new cur) swapped.
Proof.
  intros u r u' Hu H. cut (passed safe u u' ∧ swapped r (up_files u')).
  { intros [Hp Hs]. split; [by intros ->|done]. }
  unfold swap_executable, lift, mbind, upd_bind in H.
  destruct (beside ("." +:+ exe_name exe_suffix +:+ ".new")) as [staged|] eqn:Eb; cbn [ok_or] in H;
    [|injection H as <- <-; split; [apply passed_refl|by split; [|left]]].
  destruct (Hbeside _ eq_refl) as [Hsc Hso].
  destruct (copy_spec fault new staged u) as (rc & g & E & [[-> ->]|[-> Hg]]); rewrite E in H.
  2:{ injection H as <- <-. assert (Hgc : g !! cur = Some prev) by (by rewrite Hg by congruence).
      split; [apply passed_set; by left|by split; [|left]]. }
  set (v := set_files (<[staged:=new]> (up_files u)) u) in *.
  assert (Hvc : up_files v !! cur = Some prev) by (cbn; by rewrite lookup_insert_ne by congruence).
  assert (Hpv : passed safe u v) by (apply passed_set; by left).
  assert (Hvs : up_files v !! staged = Some new) by (cbn; apply lookup_insert_eq).
  clearbody v. destruct (try_other fault ESwap v) as (b & E'). rewrite E' in H. clear E E'.
  set (w := set_files (up_files v) v) in *.
  assert (Hpw : passed safe u w) by (eapply passed_trans; [done|apply passed_set; by left]).
  destruct b; cbn [negb] in H.
  - destruct (park_spec staged w r u' Hsc Hso H Hvc Hvs) as [Hp Hs]. split; [by eapply passed_trans|done].
  - destruct (try_remove fault staged w) as (b & g & E & ->). rewrite E in H. injection H as <- <-.
    assert (Hgc : (if b then delete staged (up_files w) else up_files w) !! cur = Some prev)
      by (destruct b; [by rewrite lookup_delete_ne by congruence|done]).
    split; [eapply passed_trans; [done|apply passed_set; by left]|by split; [|left]].
Qed.
End Swap.

Section Requests.
Context (http : nat → string → HttpReply).

(** Some request to [url] was answered by a whole [body] and success. *)
Definition served (url : string) (body : bytes) : Prop :=
  ∃ n status, http n url = Reply status body true ∧ is_success status = true.

Lemma request_calm url : calm (request http url) (λ r, ∃ n, r = http n url).
Proof.
  intros u r u' Hu [= <- <-]. split; [done|]. split; [|by eauto]. exists []. by rewrite app_nil_r.
Qed.

Lemma fetch_body_calm url : calm (fetch_body http url) (served url).
Proof.
  unfold fetch_body. eapply bind_calm; [apply request_calm|]. intros r (n & ->).
  destruct (http n url) as [|status body [|]] eqn:E; try apply err_calm.
  destruct (is_success status) eqn:Es; [|apply err_calm]. apply ret_calm. by exists n, status.
Qed.

Lemma download_calm fault url : calm (download_to http fault url) (served url).
Proof.
  unfold download_to. eapply bind_calm; [apply request_calm|]. intros r (n & ->).
  destruct (http n url) as [|status body whole] eqn:E; [apply err_calm|].
  destruct (is_success status) eqn:Es; [|apply err_calm]. eapply bind_calm; [apply other_calm|]. intros _ _.
  destruct whole; [|apply err_calm]. apply ret_calm. by exists n, status.
Qed.
End Requests.
End Safe.

(** ** What may be installed *)
Lemma bind_panic {E A B} (m : res E A) (k : A → res E B) :
  m ≫= k = Panic → m = Panic ∨ ∃ x, m = Ok x ∧ k x = Panic.
Proof. destruct m; cbn; eauto; discriminate. Qed.

Lemma parse_num_no_panic p : parse_num p ≠ Panic.
Proof. destruct p as [[|a s]|]; try done. cbn [parse_num]. by destruct (parse_uint u64_max (String a s)). Qed.

Lemma parse_core_no_panic core : parse_core core ≠ Panic.
Proof.
  unfold parse_core. intros H. pose proof parse_num_no_panic as N.
  apply bind_panic in H as [H|(a & _ & H)]; [by apply N in H|].
  apply bind_panic in H as [H|(b & _ & H)]; [by apply N in H|].
  apply bind_panic in H as [H|(c & _ & H)].
  - destruct (split_char "." core !! 2%nat); [by apply N in H|done].
  - by destruct (split_char "." core !! 3%nat).
Qed.

Lemma parse_tag_no_panic s : parse_tag s ≠ Panic.
Proof.
  unfold parse_tag. assert (H : parse_version s ≠ Panic); [|by destruct (parse_version s)].
  unfold parse_version. destruct (match split_once "-" _ with Some _ => _ | None => _ end) as [core pre].
  intros H. apply bind_panic in H as [H|([[a b] c] & _ & H)]; [by apply parse_core_no_panic in H|].
  apply bind_panic in H as [H|(ids & _ & H)]; [|done]. destruct pre as [p|]; [|done].
  revert H. apply map_res_no_panic. intros x. unfold parse_pre_id. destruct (String.eqb x ""); [done|].
  destruct (str_all is_digit x); [|done]. by destruct (parse_uint u64_max x).
Qed.

Lemma parse_tag_ok s v : parse_tag s = Ok v → parse_version s = Ok v.
Proof. unfold parse_tag. destruct (parse_version s); cbn; congruence. Qed.

Section Approved.
Context (http : nat → string → HttpReply).
Context (json : bytes → option Release) (text : bytes → string) (sha256 : bytes → string).
Context (untar unzip : bytes → option (list (option ArchiveEntry))).
Context (cosign : list string → string → bytes → bytes → option bool).
Context (tmp : string → string) (exe_suffix : string).

(** The reported cosign status is what happened: a signature that was there
    to be checked was checked and accepted. *)
Definition signature (cfg : UpdateConfig) (release : Release) (sums : string) (status : CosignStatus) : Prop :=
  let find := find_named (rl_assets release) in
  let cert := head (omap find ["SHA256SUMS.pem"; "SHA256SUMS.cert"; "SHA256SUMS.crt"]) in
  match status with
  | NoBinary => uc_cosign cfg = false
  | NoSignature => find "SHA256SUMS.sig" = None
  | NoCertificate => cert = None
  | Verified => uc_cosign cfg = true ∧ ∃ sig c sig_bytes cert_bytes,
      find "SHA256SUMS.sig" = Some sig ∧ cert = Some c ∧
      served http (as_url sig) sig_bytes ∧ served http (as_url c) cert_bytes ∧
      cosign (cosign_args (tmp "SHA256SUMS") (tmp (as_name sig)) (tmp (as_name c)) (uc_repo cfg))
        sums sig_bytes cert_bytes = Some true
  end.

(** [new] is the executable in the asset of the latest release that suits
    this platform, its digest is the one the release's sums give for it, and
    its version is another one, an older one only on request. *)
Definition approved (cfg : UpdateConfig) (from to name : string) (status : CosignStatus) (new : bytes) : Prop :=
  ∃ body release latest current asset sums_asset payload sums_body,
    served http (release_url cfg) body ∧ json body = Some release ∧
    parse_version (rl_tag_name release) = Ok latest ∧ parse_version (uc_current_version cfg) = Ok current ∧
    from = print_version current ∧ to = print_version latest ∧ name = as_name asset ∧
    latest ≠ current ∧ (cmp_version latest current = Lt → uc_allow_downgrade cfg = true) ∧
    select_asset (rl_assets release) (uc_triple cfg) = Some asset ∧
    find_named (rl_assets release) "SHA256SUMS" = Some sums_asset ∧
    served http (as_url asset) payload ∧ served http (as_url sums_asset) sums_body ∧
    (∃ digest, digest_for (text sums_body) name = Some digest ∧ to_lower digest = to_lower (sha256 payload)) ∧
    signature cfg release (text sums_body) status ∧
    unpack untar unzip exe_suffix name payload = Some new.

Definition approved_content (cfg : UpdateConfig) (new : bytes) : Prop :=
  ∃ from to name status, approved cfg from to name status new.

Section Run.
Context (fault : nat → option (option bytes)) (beside : string → option string).
Context (cfg : UpdateConfig) (prev : bytes).
Context (Hbeside : ∀ p, beside ("." +:+ exe_name exe_suffix +:+ ".new") = Some p →
  p ≠ uc_current_exe cfg ∧ p ≠ old_path (uc_current_exe cfg)).
Notation calm := (calm (uc_current_exe cfg) prev (approved_content cfg)).
Notation triple := (triple (uc_current_exe cfg) prev (approved_content cfg)).

Lemma cosign_calm release sums :
  calm (verify_cosign http cosign fault tmp cfg release sums) (signature cfg release sums).
Proof.
  unfold verify_cosign. destruct (uc_cosign cfg) eqn:Ec; cbn [negb]; [|by apply ret_calm].
  destruct (find_named (rl_assets release) "SHA256SUMS.sig") as [sig|] eqn:Es; [|by apply ret_calm].
  destruct (head _) as [c|] eqn:Ecert; [|by apply ret_calm].
  eapply bind_calm; [apply other_calm|]. intros _ _.
  eapply bind_calm; [apply download_calm|]. intros sb Hsb.
  eapply bind_calm; [apply download_calm|]. intros cb Hcb.
  destruct (cosign _ sums sb cb) as [[|]|] eqn:E; try apply err_calm.
  apply ret_calm. split; [done|]. by exists sig, c, sb, cb.
Qed.

Lemma extract_calm name payload :
  calm (extract_executable untar unzip fault exe_suffix name payload)
    (λ new, unpack untar unzip exe_suffix name payload = Some new).
Proof.
  unfold extract_executable. eapply bind_calm; [apply ok_or_calm|]. intros new Hnew.
  do 2 (eapply bind_calm; [apply other_calm|]; intros _ _). by apply ret_calm.
Qed.

Lemma release_calm : calm (fetch_release http json cfg) (λ rel, ∃ body, served http (release_url cfg) body ∧ json body = Some rel).
Proof.
  unfold fetch_release. eapply bind_calm; [apply fetch_body_calm|]. intros body Hb.
  eapply calm_impl; [|apply ok_or_calm]. intros rel Hr. by exists body.
Qed.

Lemma tag_calm s : calm (lift (parse_tag s)) (λ v, parse_version s = Ok v).
Proof. apply lift_calm; [apply parse_tag_no_panic|]. intros v H. by apply parse_tag_ok. Qed.

(** What an update leaves. *)
Definition updated (r : res UpdateError UpdateOutcome) (f : gmap string bytes) : Prop :=
  match r with
  | Ok (UpToDate _) => f !! uc_current_exe cfg = Some prev
  | Ok (Installed o) => io_exe o = uc_current_exe cfg ∧
      ∃ new, approved cfg (io_from o) (io_to o) (io_asset o) (io_cosign o) new ∧
      f !! uc_current_exe cfg = Some new ∧
      match io_old_kept o with
      | None => f !! old_path (uc_current_exe cfg) = None
      | Some p => p = old_path (uc_current_exe cfg) ∧ f !! p = Some prev
      end
  | Err e => f !! uc_current_exe cfg = Some prev ∨
      (e = ESwap ∧ f !! uc_current_exe cfg = None ∧ f !! old_path (uc_current_exe cfg) = Some prev)
  | Panic => False
  end.

Lemma install_triple from to name status new :
  approved cfg from to name status new →
  triple (old_kept ← swap_executable fault exe_suffix beside new (uc_current_exe cfg);
          mret (Installed (MkInstalled from to name (uc_current_exe cfg) old_kept status))) updated.
Proof.
  intros Hn u r u' Hu H. assert (Ha : approved_content cfg new) by (by exists from, to, name, status).
  pose proof (λ r v E, swap_triple _ prev _ fault exe_suffix beside new Ha Hbeside u r v Hu E) as T.
  apply upd_bind_inv in H as [(kept & v & E & H)|[(e & E & ->)|[E ->]]]; apply T in E as (Hr & Hp & Hs).
  - injection H as <- <-. split; [done|]. split; [done|]. split; [done|]. exists new. by destruct Hs.
  - split; [done|]. split; [done|]. destruct Hs as [-> [Hs|Hs]]; [by left|by right].
  - done.
Qed.

Lemma perform_triple :
  triple (perform http json text sha256 untar unzip cosign fault tmp exe_suffix beside cfg) updated.
Proof.
  unfold perform.
  pose proof (old_ne (uc_current_exe cfg)) as Hold.
  assert (He : ∀ e f, f !! uc_current_exe cfg = Some prev → updated (Err e) f) by (intros; by left).
  eapply bind_triple; [by apply try_remove_calm| |done]. intros _ _.
  eapply bind_triple; [apply release_calm| |done]. intros release (body & Hb & Hj).
  eapply bind_triple; [apply tag_calm| |done]. intros latest Hl.
  eapply bind_triple; [apply tag_calm| |done]. intros current Hc.
  case_bool_decide as Hne.
  { intros u r u' Hu [= <- <-]. split; [done|]. split; [apply passed_refl|done]. }
  eapply bind_triple with (R := λ _, cmp_version latest current = Lt → uc_allow_downgrade cfg = true); [|intros _ Hd|done].
  { apply lift_calm; destruct (cmp_version latest current), (uc_allow_downgrade cfg); done. }
  eapply bind_triple; [apply ok_or_calm| |done]. intros asset Ha.
  eapply bind_triple; [apply ok_or_calm| |done]. intros sums_asset Hs.
  eapply bind_triple; [apply other_calm| |done]. intros _ _.
  eapply bind_triple; [apply download_calm| |done]. intros payload Hp.
  eapply bind_triple with (R := λ sums, ∃ b, served http (as_url sums_asset) b ∧ sums = text b); [| |done].
  { unfold fetch_text. eapply bind_calm; [apply fetch_body_calm|]. intros b Hsb. apply ret_calm. by exists b. }
  intros sums (sb & Hsb & ->).
  eapply bind_triple; [apply ok_or_calm| |done]. intros digest Hdg.
  eapply bind_triple; [apply other_calm| |done]. intros _ _.
  destruct (String.eqb_spec (to_lower digest) (to_lower (sha256 payload))) as [Heq|]; cbn [negb].
  2:{ intros u r u' Hu [= <- <-]. split; [done|]. split; [apply passed_refl|by left]. }
  eapply bind_triple; [apply cosign_calm| |done]. intros status Hst.
  eapply bind_triple; [apply extract_calm| |done]. intros new Hn.
  apply install_triple. exists body, release, latest, current, asset, sums_asset, payload, sb.
  repeat (split; [done|]). split; [by exists digest|done].
Qed.
End Run.

(** C27: self-update never leaves the machine with anything but the old
    executable, new content that was approved, or (in the middle of the swap,
    or when every step back fails too) no executable but the old one parked
    under its [.old] name: whatever the servers reply and whichever file
    operations fail, at every moment.  "Installed" means the approved content
    of the release, asset and cosign status it reports, with the parked old
    executable gone or reported; "up to date" and every error mean the old
    executable, except a failed swap that could not be undone.  It does not
    panic. *)
Theorem update_safe fault beside cfg prev u r u' :
  (∀ p, beside ("." +:+ exe_name exe_suffix +:+ ".new") = Some p →
    p ≠ uc_current_exe cfg ∧ p ≠ old_path (uc_current_exe cfg)) →
  up_files u !! uc_current_exe cfg = Some prev →
  perform http json text sha256 untar unzip cosign fault tmp exe_suffix beside cfg u = (r, u') →
  r ≠ Panic ∧ passed (safe (uc_current_exe cfg) prev (approved_content cfg)) u u' ∧ updated cfg prev r (up_files u').
Proof. intros Hb. by apply perform_triple. Qed.
End Approved.

(** ** Selection *)

(** [best] is the first of the candidates of the least class. *)
Definition first_best (triple : string) (assets : list Asset) (best : option (Z * Asset)) : Prop :=
  match best with
  | None => ∀ a, a ∈ assets → candidate triple a = None
  | Some (c, a) => candidate triple a = Some c ∧ ∃ l k, assets = l ++ a :: k ∧
      (∀ b cb, b ∈ l → candidate triple b = Some cb → c < cb) ∧ (∀ b cb, b ∈ k → candidate triple b = Some cb → c ≤ cb)
  end.

Lemma select_step_best triple assets best a :
  first_best triple assets best → first_best triple (assets ++ [a]) (select_step triple best a).
Proof.
  intros H. unfold select_step. destruct (candidate triple a) as [ca|] eqn:Ea.
  2:{ destruct best as [[c b]|]; cbn in *.
      - destruct H as (Hb & l & k & -> & Hl & Hk). split; [done|]. exists l, (k ++ [a]).
        split; [by rewrite <- app_assoc|]. split; [done|].
        intros x cx [Hx|Hx%list_elem_of_singleton]%elem_of_app Hc; [by eapply Hk|congruence].
      - intros x [Hx|Hx%list_elem_of_singleton]%elem_of_app; [by apply H|congruence]. }
  destruct best as [[c b]|]; cbn in H.
  - destruct H as (Hb & l & k & -> & Hl & Hk). destruct (Z.ltb_spec ca c) as [Hlt|Hge]; cbn.
    + split; [done|]. exists (l ++ b :: k), []. split; [done|]. split; [|by intros ? ? ?%elem_of_nil].
      intros x cx [Hx|[->|Hx]%elem_of_cons]%elem_of_app Hc.
      * specialize (Hl x cx Hx Hc). lia.
      * rewrite Hb in Hc. injection Hc as <-. lia.
      * specialize (Hk x cx Hx Hc). lia.
    + split; [done|]. exists l, (k ++ [a]). split; [by rewrite <- app_assoc|]. split; [done|].
      intros x cx [Hx|Hx%list_elem_of_singleton]%elem_of_app Hc; [by eapply Hk|].
      subst x. rewrite Ea in Hc. injection Hc as <-. lia.
  - split; [done|]. exists assets, []. split; [done|]. split; [|by intros ? ? ?%elem_of_nil].
    intros x cx Hx Hc. specialize (H x Hx). congruence.
Qed.

Lemma select_first_best triple assets : first_best triple assets (foldl (select_step triple) None assets).
Proof.
  induction assets as [|a assets IH] using rev_ind; [by intros ? ?%elem_of_nil|].
  rewrite foldl_snoc. by apply select_step_best.
Qed.

Lemma select_asset_exact assets triple :
  match select_asset assets triple with
  | None => ∀ a, a ∈ assets → candidate triple a = None
  | Some a => ∃ c, first_best triple assets (Some (c, a))
  end.
Proof.
  unfold select_asset. pose proof (select_first_best triple assets) as H.
  destruct (foldl (select_step triple) None assets) as [[c a]|]; cbn; [by exists c|exact H].
Qed.

(** The digest found is that of the first line for the asset, 64 hex digits,
    in lower case. *)
Lemma digest_for_sound sums asset d :
  digest_for sums asset = Some d →
  ∃ line digest, line ∈ str_lines sums ∧ sums_line line = Some (digest, asset) ∧ d = to_lower digest ∧
    String.length digest = 64%nat ∧ str_all is_hexdigit digest = true.
Proof.
  unfold digest_for. intros ([g name] & H & ->)%fmap_Some. apply find_first_Some in H as [H He].
  apply String.eqb_eq in He. cbn in He. subst name.
  apply list_elem_of_omap in H as (line & Hl & Hs). exists line, g. split; [done|]. split; [done|]. split; [done|].
  unfold sums_line in Hs. destruct (next_word line) as [[w rest]|]; cbn in Hs; [|done].
  destruct (next_word rest) as [[n rest']|]; cbn in Hs; [|done].
  destruct (Nat.eqb_spec (String.length w) 64) as [E|]; cbn [negb orb] in Hs; [|done].
  destruct (str_all is_hexdigit w) eqn:E2; cbn in Hs; [|done].
  by destruct (rsplit_once is_slash _) as [[? ?]|]; injection Hs as -> ?.
Qed.

(** ** A run *)
Definition ex_triple : string := "x86_64-unknown-linux-gnu".
Definition ex_exe : string := "/bin/onebrain".
Definition ex_tarball : Asset := MkAsset "onebrain-v0.2.0-x86_64-unknown-linux-gnu.tar.gz" "https://h/tar" 3.
Definition ex_release : Release :=
  MkRelease "v0.2.0" [MkAsset "SHA256SUMS" "https://h/sums" 1; ex_tarball].
Definition ex_cfg : UpdateConfig := MkConfig "https://api/" "o/r" ex_triple "0.1.0" ex_exe false false.
Definition ex_digest : string := "0123456789abcdef0123456789abcdef0123456789abcdef0123456789ABCDEF".
Definition ex_http (n : nat) (url : string) : HttpReply :=
  Reply 200 (list_ascii_of_string url) true.
Definition ex_text (_ : bytes) : string := ex_digest +:+ "  *dist/" +:+ as_name ex_tarball +:+ String newline "".
Definition ex_entry (dir : bool) (path : string) (content : string) : option ArchiveEntry :=
  Some (MkEntry dir (Some path) (Some (list_ascii_of_string content))).
Definition ex_untar (_ : bytes) : option (list (option ArchiveEntry)) :=
  Some [ex_entry false "pkg/README.md" "text"; ex_entry false "pkg/onebrain" "new"].
Definition ex_beside (name : string) : option string := Some ("/bin/" +:+ name).
Definition ex_old : bytes := list_ascii_of_string "old".
Definition ex_new : bytes := list_ascii_of_string "new".
Definition ex_upd : Upd := MkUpd {[ ex_exe := ex_old ]} 0 0 [].
Definition ex_perform (fault : nat → option (option bytes)) (untar : bytes → option (list (option ArchiveEntry))) :=
  perform ex_http (λ _, Some ex_release) ex_text (λ _, to_lower ex_digest) untar (λ _, None)
    (λ _ _ _ _, None) fault (λ n, "/tmp/" +:+ n) "" ex_beside ex_cfg ex_upd.
Definition ex_outcome : UpdateOutcome :=
  Installed (MkInstalled "0.1.0" "0.2.0" (as_name ex_tarball) ex_exe None NoBinary).

Lemma update_safe_witness : ∃ u', ex_perform (λ _, None) ex_untar = (Ok ex_outcome, u') ∧
  up_files u' !! ex_exe = Some ex_new ∧
  passed (safe ex_exe ex_old (approved_content ex_http (λ _, Some ex_release) ex_text (λ _, to_lower ex_digest)
    ex_untar (λ _, None) (λ _ _ _ _, None) (λ n, "/tmp/" +:+ n) "" ex_cfg)) ex_upd u'.
Proof.
  destruct (ex_perform (λ _, None) ex_untar) as [r u'] eqn:E. exists u'.
  assert (r = Ok ex_outcome ∧ up_files u' !! ex_exe = Some ex_new) as [-> Hf].
  { change r with (r, u').1. change u' with (r, u').2 at 2. rewrite <- E. split; vm_compute; reflexivity. }
  split; [reflexivity|]. split; [exact Hf|].
  eapply update_safe in E as (_ & Hp & _); [exact Hp| |reflexivity].
  intros p [= <-]. split; discriminate.
Defined.

(** What the model shows of the swap and of unpacking. *)

(** When moving the new executable in fails and so does moving the old one
    back, there is no executable, and the error (whose message says the old
    binary is still in place) is the same. *)
Example failed_rollback_leaves_none :
  let fault n := if (n =? 10)%nat || (n =? 11)%nat then Some None else None in
  let '(r, u) := ex_perform fault ex_untar in
  r = Err ESwap ∧ up_files u !! ex_exe = None ∧ up_files u !! old_path ex_exe = Some ex_old.
Proof. vm_compute. repeat split. Qed.

(** A tarball's directory called like the executable is taken for it: an
    empty executable is installed.  In a zip directories are skipped. *)
Definition ex_dir_entries : list (option ArchiveEntry) :=
  [ex_entry true "onebrain/" ""; ex_entry false "onebrain/onebrain" "new"].

Example tar_directory_is_installed :
  let '(r, u) := ex_perform (λ _, None) (λ _, Some ex_dir_entries) in
  r = Ok ex_outcome ∧ up_files u !! ex_exe = Some [] ∧
  find_entry "" true ex_dir_entries = Some ex_new.
Proof. vm_compute. repeat split. Qed.
